(* ===== verification/_CoqProject ===== *)
-Q . S2P
Prelude.v
Timer.v
SizePack.v
DataQueue.v
Sha2.v
Sha512.v
Sha2Spec.v
Sha2Unrolled.v
Hash.v
Erseefor.v
ChaCha.v
Transformer.v
Messages.v
Exceptions.v
LowLevel.v
Wire.v
CondQueues.v
CallContext.v
ProtocolLayer.v
ServerLayer.v
Registry.v
Listener.v
Application.v
Custom.v
Ssl.v
Pipe.v
ClientLayer.v
Handshake.v
Session.v
Transport.v
RpcChannel.v
ServerChannel.v
DList.v
Observer.v
ThreadPool.v
Client.v
ClientExec.v
ClientSsl.v
Http.v
Lukki.v
RemoteFile.v
RemoteFs.v
Stress.v
Point.v
SslWrapper.v
RemoteTree.v
