(* ===== verification/Prelude.v ===== *)
(** * vtrc: a verification library for the vtrc RPC framework

    vtrc sends protobuf calls over TCP, SSL, local sockets and pipes, in both
    directions of one connection: clients call services of the server, the server
    calls back into the client that waits, and sends events to any client.  This
    library models the core of [lib/vtrc/common], [lib/vtrc/server] and
    [lib/vtrc/client] as executable definitions and proves what makes it correct.  It
    does the same for the programs of [examples/] that have a logic of their own, over
    interfaces of what they use, and for one draft.

    ** How the parts interact

    A channel (RpcChannel) turns a call of a stub into a message, numbers it,
    opens a slot for the answer and hands it to the connection.  The connection
    posts it to its transport (Transport), whose strand packs it with the low-level
    protocol (LowLevel): digest (Hash, Sha2), cipher (Transformer, ChaCha, Erseefor)
    and length prefix (SizePack, DataQueue), with what the handshake (Handshake)
    agreed on.  On the other side the read handler (Listener, Client) feeds the
    bytes to the low-level protocol, and what is complete is dispatched by the
    protocol layer (ServerLayer, ClientLayer, both over ProtocolLayer): a call is
    posted to the thread pool (ThreadPool), where it runs with a context on the
    stack of its thread (CallContext) and its closure sends the answer; an answer is
    written into the slot (CondQueues) its caller waits on.  Listeners and clients
    announce what happens with observers (Observer, over DList).

    ** Which file models what (paths under [src/])

    - Prelude: words of w bits, byte strings, exceptions and the state-and-exception
      monad, the tactics and the lemmas on lists and words all files share.
    - SizePack: [lib/vtrc/common/sizepack-policy.h].  Interface [SizePolicy].
    - DataQueue: [common/data-queue.cpp], serializer and parser over any policy.
    - Sha2, Sha512: [common/hash/sha2.cimpl], the 32-bit and the 64-bit digests.
      Sha2Unrolled: its other transforms.  Sha2Spec: FIPS 180-4 and that they implement
      it.  Hash: [common/hash/], interface with [HashLaws].
    - Timer: [include/vtrc/common/timers/], the once and the periodical timer over the
      deadline timer of asio, with their steps.
    - Erseefor: [common/erseefor.h].  ChaCha: [common/crypt/chacha/].
      Transformer: [common/transformer/] with the key derivation.
    - Messages: the records of the protobuf messages ([common/protocol-base/]) and
      the defaults ([common/protocol-defaults.cpp]).  Exceptions:
      [common/exception.cpp] with the texts of the errors.
    - LowLevel: [common/lowlevel-protocol-default.cpp].  Wire: the same driven by an
      owner, with the typing of its state.
    - CondQueues: [common/condition-queues.h].
    - CallContext: [common/call-context.cpp], the thread's stack of contexts in
      [common/protocol-layer.cpp], [common/call-keeper.cpp].
    - ProtocolLayer: [common/protocol-layer.cpp], [common/rpc-controller.cpp].
    - ServerLayer: [server/protocol-layer-s.cpp].  ClientLayer:
      [client/protocol-layer-c.cpp].
    - Registry: [common/enviroment.cpp], [common/connection-list.cpp], the handlers
      of [client/base.cpp].
    - Handshake: [server/connection/default.cpp], [client/connection-default.cpp].
    - Session: a client and a server layer joined by the bytes between them.
    - Transport: [common/transport/stream-impl.h] and the error handlers of the
      connections that derive from it.
    - RpcChannel: [common/rpc-channel.cpp], [client/rpc-channel-c.cpp],
      [server/channels.cpp].  ServerChannel: what [server/channels.cpp] does beside
      them, unicast channels and the preparing of messages.
    - Application: [server/application.cpp], the io services it owns.
    - Listener: [server/listener/listener.cpp], [listener/impl.h], [listener/tcp.cpp],
      [listener/unix-local.cpp], [server/connection/impl.h].  Custom:
      [server/listener/custom.cpp].  Ssl: [server/listener/ssl.cpp], whose connections
      wait for a handshake that a timer watches.  Pipe: [server/listener/win-pipe.cpp].
    - DList, Observer: [include/vtrc/common/details/list.h],
      [include/vtrc/common/observer/].
    - ThreadPool: [common/thread-pool.cpp], [common/pool-pair.cpp].
    - Client: [client/client.cpp], [client/stream-impl.h] and how a stream is opened.
      ClientExec: the executor and the channels of [client/base.cpp].  ClientSsl:
      [client/ssl.cpp], [client/win/local.cpp] and the asynchronous connects.
    - Http: [examples/hello-events-http/], a low-level protocol whose messages are
      HTTP requests; it takes the place of LowLevel in a connection.
    - Lukki: [examples/lukki-db/server/], a database on one thread with events.
    - RemoteFile, RemoteFs: [examples/remote-fs/], the service and its client, files
      with upload and download, and directories with iterators.  RemoteTree: the walk
      over a remote tree.
    - Stress: [examples/stress/server/], the timers of its clients and the one that makes
      listeners accept again, over Timer.
    - SslWrapper: [examples/hello-ssl-handshake/], TLS between memory buffers, and the
      service and client that use it.
    - Point: [draft/common/async-transport-point.hpp], the ancestor of Transport.

    ** How code becomes definitions

    Classes are records and their methods computations of the monad [M] over the
    record: the final state is kept when an exception is raised, as in C++.  Objects
    shared through pointers (messages, call contexts, holders of closures, nodes of
    lists, queues a reader keeps) live in heaps and are known by addresses; ownership
    is what decides when a destructor runs.  Undefined behaviour (a null or dangling
    pointer, an iterator out of range, a shift too wide) is the outcome [EUndefined],
    which theorems exclude or show reachable.  What another thread, the network or
    the operating system does between two steps is a step relation ([step] of
    Timer, CondQueues, Transport, ServerLayer, Listener, Ssl, Pipe, ThreadPool, Client,
    or the lists of labels of Lukki, RemoteFile, Stress and Point) and the claims are
    about all reachable states.

    Loops that are not structural have fuel, and reach [EUndefined "fuel"] or stop
    when it runs out.  The fuel the definitions give is a bound on the work: one more
    than the bytes received for the parser (each turn takes at least one), the
    messages complete for the dispatch loops, the nodes of the heap for the loops
    over lists, 32 turns for the 32 bytes of the expanded ChaCha key, a turn for every
    round of the unrolled digests, which need an eighth of them, a turn for every byte
    of an HTTP block or of a file, for every entry of a directory.  It is proved to be
    enough where a theorem says that the operation returns ([parser_process_total],
    [emit_loop_sim], [c_loop_spec], [expand_key_total], [unrolled_transforms],
    [process_loop_feed], [pull_file_downloads], [push_blocks_upload],
    [list_dir_entries]); the loops around OpenSSL, whose records have no fixed size,
    have some fuel that is enough ([comes] in SslWrapper).  A
    loop driven by the environment has no fuel: [accept_loop] and [writes_finish] bound
    its turns.

    ** What the theorems show

    - Bytes: the two prefixes are read back, the parser delivers what the serializer
      wrote however it is cut, and refuses only with its two length errors; ends that
      share a key decrypt each other; a burst of up to four changed bytes inside the
      digest or inside the data never passes the CRC; the channel built of the three is reliable and ordered and goes wrong on no
      input.
    - Handshake: ends that agree on the key become ready with ciphers in step, an end
      without it is turned away and told why; the digests they use are those of FIPS
      180-4, rolled or unrolled.
    - Calls: an answer reaches its caller whenever it comes and no other slot; what else
      either side keeps is shown to be as it was or to have moved as stated; the callback
      of a call runs at most once, and exactly once where an answer is due; the number of
      active calls is bounded; slots do not leak; callbacks and events run in order; the
      stack of a thread is as before.
    - Streams: the bytes written are the messages posted, packed in order from their own
      bytes, every closure runs once, writes end.
    - Processes: clients are counted right, listeners stop, every handshake of TLS is
      watched until it ends or its time is over, timers that are enabled have a turn and
      those that are cancelled end, threads end and are joined, connect reports what
      happened, with every error of the socket, observers visit who is subscribed.
    - Examples: HTTP requests are read back however they are cut; the database answers
      requests in order and its events are its changes; remote files never dangle,
      are downloaded and uploaded whole; handles name one thing
      and are not used again; a directory is listed
      completely; strings sent through TLS arrive however they are cut; the draft writes
      messages whole and in order.
    - Faults: where the code does not do what it means to, a theorem says exactly when
      (cancellations lost by the wait queues, stacks cloned with pointers to the
      original, calls without an answer that are never counted off, connections
      kept for ever after a failed handshake or start, a listener restarted too early, a
      pipe listener that stops accepting or does not stop, a timer cancelled too late, a
      pool joined from within, a slot that clears or emits the signal that runs it, reads and closures bound to an object that is gone; in
      the examples, a message popped that is not there, an iterator cloned in place of its
      original, a listener that is never started again, a timer that cannot be deleted,
      data lost before a handshake is over, a queue that sticks after an error).

    ** What is a parameter

    Code outside of [src/] is an argument.  Protobuf serialization is [Codec] with
    [CodecLaws] (what was serialized is parsed back) and [AuthCodec] for the messages of
    the handshake, with what is left of one that does not parse; a service method is a function from the request to what it does with
    its closure; [io_service] is [IoService] with its laws (once stopped it runs
    nothing and stays stopped), its timer [Deadline] with [DeadlineLaws]; boost's
    [lexical_cast] is [LexicalCast] with its laws, its filesystem [Filesystem] with
    those of iterators, the streams of C [Stdio] with those of reading and writing,
    OpenSSL [Openssl] with [OpensslLaws], which speak of sessions whose peer only
    sent data; the slots of an observer, the virtual
    functions of a listener ([Virtuals]), the parent of a transport ([ConnectionParent]) are interfaces with the
    laws their users rely on, discharged by instances for the classes of the program.
    Random numbers, clocks and what sockets answer are inputs of the step that asks.
    Every theorem under such laws has a witness that instantiates them.

    ** What is not modelled

    The transports of the sockets, which give the shared one a socket to close and a
    name; functions that only forward to an implementation or to asio; [proto-helper/],
    which is compiled out; reflection over protobuf services and the wrappers of stubs,
    where a lookup is a function; headers that choose between boost and the standard
    library; the portability macros of the ECRYPT sources; memory order below mutexes and
    strands; the main programs of the examples, with their options and what they print,
    the examples that are one call or one event (hello, hello-events, proxy-test,
    hello-custom-transport, hello-win-impersonate), the calculator, which is not built,
    and the drafts that only try a transport out. *)

From Stdlib Require Export ZArith Lia.
From Stdlib Require Export Sorted.
From stdpp Require Export base tactics list gmap strings numbers fin_maps.

Open Scope Z_scope.

(** ** Machine words

    An unsigned C++ integer of [w] bits is a [Z] in [0, 2^w); arithmetic that
    can leave the range is written with the reduction the language performs. *)

Definition wrap (w z : Z) : Z := z mod 2 ^ w.
Abbreviation u8 := (wrap 8).
Abbreviation u32 := (wrap 32).
Abbreviation u64 := (wrap 64).

Definition in_word (w z : Z) : Prop := 0 ≤ z < 2 ^ w.
Abbreviation is_byte := (in_word 8).

#[export] Instance in_word_dec w z : Decision (in_word w z).
Proof. unfold in_word. apply _. Defined.

(** A C++ byte string ([std::string], [std::deque<char>], [char *] with a
    length) is the list of its bytes, as unsigned 8-bit values. *)
Abbreviation bytes := (list Z).
Abbreviation bytes_ok := (Forall is_byte).

Definition blen {A} (l : list A) : Z := Z.of_nat (length l).

(** ** Exceptions and the state-and-exception monad

    C++ code that throws keeps the effects performed before the throw, so a
    computation returns the final state in both cases.  [EUndefined] is not an
    exception of the program: it marks the executions on which the language
    gives no meaning to the next operation, so that absence of undefined
    behaviour can be stated and proved. *)

Inductive exn : Type :=
  | ELength (what : string)
  | EOutOfRange (what : string)
  | ERuntime (what : string)
  | EVtrc (code category : Z) (additional : string)
  | EStd (what : string)
  | EUnknown
  | EUndefined (what : string).

#[export] Instance exn_eq_dec : EqDecision exn.
Proof. solve_decision. Defined.

Inductive res (A : Type) : Type :=
  | Ok (a : A)
  | Raise (e : exn).
Arguments Ok {A} a.
Arguments Raise {A} e.

Definition M (S A : Type) : Type := S → res A * S.

Definition ret {S A} (a : A) : M S A := λ s, (Ok a, s).
Definition raise {S A} (e : exn) : M S A := λ s, (Raise e, s).
Definition bind {S A B} (m : M S A) (k : A → M S B) : M S B := λ s,
  match m s with
  | (Ok a, s') => k a s'
  | (Raise e, s') => (Raise e, s')
  end.
Definition get {S} : M S S := λ s, (Ok s, s).
Definition put {S} (s' : S) : M S unit := λ _, (Ok tt, s').
Definition modify {S} (f : S → S) : M S unit := λ s, (Ok tt, f s).
Definition gets {S A} (f : S → A) : M S A := λ s, (Ok (f s), s).

(** [try { m } catch( e ) { h e }]; undefined behaviour is not caught. *)
Definition try_catch {S A} (m : M S A) (h : exn → M S A) : M S A := λ s,
  match m s with
  | (Ok a, s') => (Ok a, s')
  | (Raise (EUndefined w), s') => (Raise (EUndefined w), s')
  | (Raise e, s') => h e s'
  end.

Declare Scope vtrc_scope.
Delimit Scope vtrc_scope with vtrc.
Notation "'let*' x ':=' m 'in' k" := (bind m (λ x, k))
  (at level 10, x pattern, m at level 100, k at level 200,
   format "'[v' 'let*'  x  ':='  m  'in' '/' k ']'") : vtrc_scope.
Notation "m1 ;;; m2" := (bind m1 (λ _, m2))
  (at level 199, right associativity, format "'[v' m1  ;;; '/' m2 ']'") : vtrc_scope.
Open Scope vtrc_scope.

(** Evaluate the bind of a computation whose result is known. *)
Lemma bind_ok {S A B} (m : M S A) (k : A → M S B) s a s' :
  m s = (Ok a, s') → bind m k s = k a s'.
Proof. intros H. unfold bind. by rewrite H. Qed.

Lemma bind_raise {S A B} (m : M S A) (k : A → M S B) s e s' :
  m s = (Raise e, s') → bind m k s = (Raise e, s').
Proof. intros H. unfold bind. by rewrite H. Qed.

Lemma bind_get {S A} (k : S → M S A) s : bind get k s = k s s.
Proof. done. Qed.
Lemma bind_modify {S A} (f : S → S) (k : unit → M S A) s : bind (modify f) k s = k tt (f s).
Proof. done. Qed.

(** ** Total correctness

    [runs m s Q]: the computation returns, in a state and with a value of [Q]. *)

Definition runs {St R} (m : M St R) (st : St) (Q : R → St → Prop) : Prop :=
  match m st with
  | (Ok r, st') => Q r st'
  | (Raise _, _) => False
  end.

Lemma runs_bind {St R R'} (m : M St R) (k : R → M St R') (st : St) Q :
  runs m st (λ r st', runs (k r) st' Q) → runs (bind m k) st Q.
Proof. unfold runs, bind. by destruct (m st) as [[r|e] st']. Qed.

Lemma runs_mono {St R} (m : M St R) (st : St) (Q Q' : R → St → Prop) :
  runs m st Q → (∀ r st', Q r st' → Q' r st') → runs m st Q'.
Proof. unfold runs. destruct (m st) as [[r|e] st']; auto. Qed.

Lemma runs_ok {St R} (m : M St R) (st : St) Q : runs m st Q → ∃ r st', m st = (Ok r, st') ∧ Q r st'.
Proof. unfold runs. destruct (m st) as [[r|e] st']; [eauto|done]. Qed.

(** ** Invariants of a computation

    Kept on every outcome, a throw included. *)

Definition keeps {S} (I : S → Prop) {A} (m : M S A) : Prop := ∀ l, I l → I (m l).2.

Section Keeps.
Context {S : Type} (I : S → Prop).

Lemma keeps_ret {A} (x : A) : keeps I (ret x).
Proof. by intros l. Qed.
Lemma keeps_raise {A} e : keeps I (A := A) (raise e).
Proof. by intros l. Qed.
Lemma keeps_get : keeps I get.
Proof. by intros l. Qed.
Lemma keeps_bind {A B} (m : M S A) (k : A → M S B) :
  keeps I m → (∀ x, keeps I (k x)) → keeps I (bind m k).
Proof.
  intros Hm Hk l Hl. unfold bind. specialize (Hm l Hl).
  destruct (m l) as [[x|e] l']; [by apply Hk|done].
Qed.
Lemma keeps_if {A} (b : bool) (m n : M S A) : keeps I m → keeps I n → keeps I (if b then m else n).
Proof. by destruct b. Qed.
Lemma keeps_modify f : (∀ l, I l → I (f l)) → keeps I (modify f).
Proof. intros H l Hl. by apply H. Qed.
End Keeps.

(** ** Generic lemmas *)

Lemma wrap_range w z : 0 ≤ w → in_word w (wrap w z).
Proof. intros Hw. unfold in_word, wrap. apply Z.mod_pos_bound. lia. Qed.

Lemma wrap_small w z : in_word w z → wrap w z = z.
Proof. intros H. unfold wrap. by apply Z.mod_small. Qed.

Lemma wrap_wrap w z : wrap w (wrap w z) = wrap w z.
Proof. unfold wrap. apply Zmod_mod. Qed.

Lemma wrap_add_l w a b : wrap w (wrap w a + b) = wrap w (a + b).
Proof. unfold wrap. apply Zplus_mod_idemp_l. Qed.

Lemma wrap_add_r w a b : wrap w (a + wrap w b) = wrap w (a + b).
Proof. unfold wrap. apply Zplus_mod_idemp_r. Qed.

Lemma in_word_testbit w z :
  0 ≤ w → 0 ≤ z → (∀ i, w ≤ i → Z.testbit z i = false) → in_word w z.
Proof.
  intros Hw Hz Hb. split; [done|].
  destruct (decide (z = 0)) as [->|]; [lia|].
  apply Z.log2_lt_pow2; [lia|].
  destruct (decide (Z.log2 z < w)) as [|Hge]; [done|].
  specialize (Hb (Z.log2 z) ltac:(lia)).
  rewrite Z.bit_log2 in Hb by lia. done.
Qed.

Lemma testbit_above w z i : in_word w z → w ≤ i → Z.testbit z i = false.
Proof.
  intros [H0 H1] Hi. destruct (decide (0 ≤ w)) as [Hw|Hw].
  - rewrite <-(Z.mod_small z (2 ^ w)) by lia. by apply Z.mod_pow2_bits_high.
  - rewrite Z.pow_neg_r in H1 by lia. lia.
Qed.

Lemma lor_word w a b : 0 ≤ w → in_word w a → in_word w b → in_word w (Z.lor a b).
Proof.
  intros Hw Ha Hb. apply in_word_testbit; [done|apply Z.lor_nonneg; split; [apply Ha|apply Hb]|].
  intros i Hi. by rewrite Z.lor_spec, (testbit_above w a), (testbit_above w b).
Qed.

Lemma lxor_word w a b : 0 ≤ w → in_word w a → in_word w b → in_word w (Z.lxor a b).
Proof.
  intros Hw Ha Hb. apply in_word_testbit; [done| |].
  - apply Z.lxor_nonneg. split; intros _; [apply Hb|apply Ha].
  - intros i Hi. by rewrite Z.lxor_spec, (testbit_above w a), (testbit_above w b).
Qed.

Lemma shiftr_word w a n : 0 ≤ n → in_word w a → in_word w (Z.shiftr a n).
Proof.
  intros Hn [Ha0 Ha]. split; [by apply Z.shiftr_nonneg|].
  rewrite Z.shiftr_div_pow2 by done.
  assert (0 < 2 ^ n) by (apply Z.pow_pos_nonneg; lia).
  apply Z.le_lt_trans with a; [|done].
  apply Z.div_le_upper_bound; [lia|]. nia.
Qed.

Lemma blen_app {A} (l k : list A) : blen (l ++ k) = blen l + blen k.
Proof. unfold blen. rewrite length_app. lia. Qed.

Lemma blen_nonneg {A} (l : list A) : 0 ≤ blen l.
Proof. unfold blen. lia. Qed.

Lemma lxor_lxor_cancel a b : Z.lxor (Z.lxor a b) b = a.
Proof. by rewrite Z.lxor_assoc, Z.lxor_nilpotent, Z.lxor_0_r. Qed.

(** Disjoint bit ranges: or-ing a value into fresh high bits adds it. *)
Lemma lor_shiftl_add a b n :
  0 ≤ n → in_word n a → 0 ≤ b → Z.lor a (Z.shiftl b n) = a + b * 2 ^ n.
Proof.
  intros Hn Ha Hb. rewrite <-Z.shiftl_mul_pow2 by done.
  rewrite Z.add_nocarry_lxor.
  - symmetry. apply Z.bits_inj'. intros i Hi.
    rewrite Z.lxor_spec, Z.lor_spec, Z.shiftl_spec by done.
    destruct (decide (i < n)) as [Hin|Hin].
    + rewrite (Z.testbit_neg_r b) by lia. by destruct (Z.testbit a i).
    + rewrite (testbit_above n a) by (done || lia). by destruct (Z.testbit b (i - n)).
  - apply Z.bits_inj'. intros i Hi.
    rewrite Z.land_spec, Z.bits_0, Z.shiftl_spec by done.
    destruct (decide (i < n)) as [Hin|Hin].
    + rewrite (Z.testbit_neg_r b) by lia. apply andb_false_r.
    + rewrite (testbit_above n a) by (done || lia). done.
Qed.

Lemma land_ones_mod a n : 0 ≤ n → Z.land a (Z.ones n) = a mod 2 ^ n.
Proof. apply Z.land_ones. Qed.

Lemma take_app_exact {A} (l k : list A) n : length l = n → take n (l ++ k) = l.
Proof. intros <-. apply take_app_length. Qed.

Lemma drop_app_exact {A} (l k : list A) n : length l = n → drop n (l ++ k) = k.
Proof. intros <-. apply drop_app_length. Qed.

Lemma filter_all {B} (P : B → Prop) `{!∀ x, Decision (P x)} (xs : list B) :
  (∀ x, x ∈ xs → P x) → filter P xs = xs.
Proof.
  induction xs as [|x xs IH]; intros Hx; [done|]. rewrite filter_cons_True by (apply Hx; by left).
  f_equal. apply IH. intros y Hy. apply Hx. by right.
Qed.

Lemma filter_ext_in {B} (P Q : B → Prop) `{!∀ x, Decision (P x), !∀ x, Decision (Q x)} (xs : list B) :
  (∀ x, x ∈ xs → P x ↔ Q x) → filter P xs = filter Q xs.
Proof.
  induction xs as [|x xs IH]; intros Hx; [done|]. rewrite !filter_cons.
  rewrite IH by (intros y Hy; apply Hx; by right). specialize (Hx x ltac:(by left)).
  destruct (decide (P x)), (decide (Q x)); tauto.
Qed.

Lemma StronglySorted_filter {A} (R : A → A → Prop) (P : A → Prop) `{!∀ x, Decision (P x)} l :
  StronglySorted R l → StronglySorted R (filter P l).
Proof.
  induction 1 as [|x l Hl IH Hx]; [constructor|]. rewrite filter_cons. destruct (decide (P x)); [|done].
  constructor; [done|]. rewrite Forall_forall in *. intros y [_ Hy]%list_elem_of_filter. by apply Hx.
Qed.

Create HintDb vtrc.
Create Rewrite HintDb vtrc.
#[export] Hint Resolve wrap_range lor_word lxor_word shiftr_word blen_nonneg : vtrc.
#[export] Hint Resolve keeps_ret keeps_raise keeps_get keeps_bind keeps_if : vtrc.
#[export] Hint Rewrite @blen_app : vtrc.

(** Case analysis on the conditionals of a definition, followed by the
    simplification of the equations it produces. *)
Ltac step_if :=
  match goal with
  | |- context [if ?b then _ else _] => destruct b eqn:?
  | H : context [if ?b then _ else _] |- _ => destruct b eqn:?
  end.
Ltac bool_props :=
  repeat match goal with
  | H : (_ && _)%bool = true |- _ => apply andb_true_iff in H; destruct H
  | H : (_ || _)%bool = false |- _ => apply orb_false_iff in H; destruct H
  | H : (_ =? _) = true |- _ => apply Z.eqb_eq in H
  | H : (_ =? _) = false |- _ => apply Z.eqb_neq in H
  | H : (_ <? _) = true |- _ => apply Z.ltb_lt in H
  | H : (_ <? _) = false |- _ => apply Z.ltb_ge in H
  | H : (_ <=? _) = true |- _ => apply Z.leb_le in H
  | H : (_ <=? _) = false |- _ => apply Z.leb_gt in H
  | H : negb _ = true |- _ => apply negb_true_iff in H
  | H : negb _ = false |- _ => apply negb_false_iff in H
  | H : bool_decide _ = true |- _ => apply bool_decide_eq_true in H
  | H : bool_decide _ = false |- _ => apply bool_decide_eq_false in H
  end.
