(* ===== verification/Timer.v ===== *)
(** * Timer: calls that are put off

    [include/vtrc/common/timers/periodical.h], [timers/once.h], [timers/deadline.h]
    and [delayed-call.h].

    The deadline timer is asio's, and modelled after its documentation: setting its
    expiry and cancelling it abort the waits that are under way, whose handlers then
    run with an error; the handler of a wait that has ended is queued and can be
    aborted no more.  Waits end, and handlers run, in steps of their own, so that
    calls from other threads come between them; a handler that has found its timer
    enabled but has not armed it again yet is a step of its own too. *)

From S2P Require Import Prelude.

(** A wait goes on, is over, or was aborted; in the last two its handler is queued. *)
Inductive wait : Type := armed | due | aborted.
#[export] Instance wait_eq_dec : EqDecision wait.
Proof. solve_decision. Defined.

Definition abort (w : wait) : wait := match w with armed => aborted | w => w end.
Definition abort_all (t : list (nat * wait)) : list (nat * wait) := prod_map id abort <$> t.

(** [deadline], a timer of asio: [waits] are its waits, in the order they were made,
    with their handlers, which are known by numbers.  What [expires_from_now] does
    depends on the error it reports.  [ended] and [taken] are the system's: the wait
    [i] is over, its handler is taken from the queue to be run. *)
Class Deadline (T : Type) : Type := {
  waits : T → list (nat * wait);
  deadline_new : T;
  deadline_cancel : T → T;
  expires_from_now : option Z → T → T;
  async_wait : nat → T → T;
  ended : nat → T → T;
  taken : nat → T → T
}.
Class DeadlineLaws (T : Type) `{Deadline T} : Prop := {
  waits_new : waits deadline_new = [];
  waits_cancel t : waits (deadline_cancel t) = abort_all (waits t);
  waits_expires t : waits (expires_from_now None t) = abort_all (waits t);
  waits_failed e t :
    waits (expires_from_now (Some e) t) = waits t ∨
    waits (expires_from_now (Some e) t) = abort_all (waits t);
  waits_async h t : waits (async_wait h t) = waits t ++ [(h, armed)];
  waits_ended i t : waits (ended i t) = alter (prod_map id (λ _, due)) i (waits t);
  waits_taken i t : waits (taken i t) = delete i (waits t)
}.

(** ** once.h, delayed-call.h *)

Section Once.
Context {T : Type} `{Deadline T}.

Definition once_call (h : nat) (t : T) : T := async_wait h (expires_from_now None t).
(** The timer is waited for whatever the error. *)
Definition once_call_ec (h : nat) (err : option Z) (t : T) : T := async_wait h (expires_from_now err t).
Definition once_cancel (t : T) : T := deadline_cancel t.
End Once.

(** ** periodical.h *)

(** [rearming] are the handlers that have found the timer enabled and are about to
    wait again; [calls] are the calls of the user's handlers, with their error. *)
Record periodical (T : Type) : Type := Periodical {
  timer_ : T;
  enabled_ : bool;
  rearming : list nat;
  calls : list (nat * bool)
}.

#[global] Arguments Periodical {T}.
#[global] Arguments timer_ {T}.
#[global] Arguments enabled_ {T}.
#[global] Arguments rearming {T}.
#[global] Arguments calls {T}.

(** What a handler of the user does with its timer. *)
Inductive action : Type := DoCall (h : nat) (err : option Z) | DoCancel.

Section Periodical.
Context {T : Type} `{Deadline T}.
Abbreviation timer := (periodical T).

Definition with_timer (t : T) (p : timer) : timer :=
  Periodical t (enabled_ p) (rearming p) (calls p).
Definition set_enabled (b : bool) (p : timer) : timer :=
  Periodical (timer_ p) b (rearming p) (calls p).
Definition with_rearming (r : list nat) (p : timer) : timer :=
  Periodical (timer_ p) (enabled_ p) r (calls p).
Definition user_call (h : nat) (err : bool) (p : timer) : timer :=
  Periodical (timer_ p) (enabled_ p) (rearming p) (calls p ++ [(h, err)]).

Definition periodical_new : timer := Periodical deadline_new false [] [].
Definition enabled (p : timer) : bool := enabled_ p.
Definition cancel (p : timer) : timer :=
  if enabled_ p then with_timer (deadline_cancel (timer_ p)) (set_enabled false p) else p.
(** The call without an error code: what the timer throws is not the program's. *)
Definition call (h : nat) (p : timer) : timer :=
  let p := with_timer (expires_from_now None (timer_ p)) p in
  let p := set_enabled true p in
  with_timer (async_wait h (timer_ p)) p.
Definition call_ec (h : nat) (err : option Z) (p : timer) : timer :=
  let p := with_timer (expires_from_now err (timer_ p)) p in
  match err with
  | Some _ => p
  | None =>
      let p := set_enabled true p in
      with_timer (async_wait h (timer_ p)) p
  end.

Definition act (a : action) (p : timer) : timer :=
  match a with DoCall h err => call_ec h err p | DoCancel => cancel p end.
Definition run_user (h : nat) (err : bool) (acts : list action) (p : timer) : timer :=
  foldl (λ p a, act a p) (user_call h err p) acts.

(** [handler], up to the call of [call_impl]. *)
Definition handler (h : nat) (err : bool) (acts : list action) (p : timer) : timer :=
  let p := run_user h err acts p in
  if negb err && enabled p then with_rearming (rearming p ++ [h]) p else p.
Definition call_impl (h : nat) (err : option Z) (acts : list action) (p : timer) : timer :=
  let p := with_timer (expires_from_now err (timer_ p)) p in
  match err with
  | None => with_timer (async_wait h (timer_ p)) p
  | Some _ => run_user h true acts p
  end.

(** Steps: [call] and [cancel] from anywhere, the end of a wait, a handler of the
    timer, the rest of it. *)
Definition fire (i : nat) (p : timer) : timer :=
  with_timer (ended i (timer_ p)) p.
Definition run (i h : nat) (w : wait) (acts : list action) (p : timer) : timer :=
  handler h (negb (bool_decide (w = due))) acts (with_timer (taken i (timer_ p)) p).
Definition rearm (j h : nat) (err : option Z) (acts : list action) (p : timer) : timer :=
  call_impl h err acts (with_rearming (delete j (rearming p)) p).

(** What happens when nobody calls [call] or [cancel] from outside. *)
Inductive idle_step : timer → timer → Prop :=
  | st_fire i h p : waits (timer_ p) !! i = Some (h, armed) → idle_step p (fire i p)
  | st_run i h w acts p :
      waits (timer_ p) !! i = Some (h, w) → w ≠ armed → Forall (λ a, a = DoCancel) acts → idle_step p (run i h w acts p)
  | st_rearm j h err acts p :
      rearming p !! j = Some h → Forall (λ a, a = DoCancel) acts → idle_step p (rearm j h err acts p).
(** Everything, the timer never failing. *)
Inductive step : timer → timer → Prop :=
  | st_call h p : step p (call h p)
  | st_run_any i h w acts p :
      waits (timer_ p) !! i = Some (h, w) → w ≠ armed → Forall (λ a, ∀ h e, a = DoCall h e → e = None) acts →
      step p (run i h w acts p)
  | st_rearm_any j h p : rearming p !! j = Some h → step p (rearm j h None [] p)
  | st_fire_any i h p : waits (timer_ p) !! i = Some (h, armed) → step p (fire i p)
  | st_cancel_any p : step p (cancel p).
End Periodical.

(** ** Lemmas *)

(** *** Lists whose elements are counted *)

Section Count.
Context {A : Type} (P : A → Prop) `{!∀ x, Decision (P x)}.

Definition count (l : list A) : nat := length (filter P l).
Definition one (x : A) : nat := if decide (P x) then 1 else 0.

Lemma count_nil : count [] = 0%nat.
Proof. done. Qed.
Lemma count_app l k : count (l ++ k) = (count l + count k)%nat.
Proof. unfold count. by rewrite filter_app, length_app. Qed.
Lemma count_cons x l : count (x :: l) = (one x + count l)%nat.
Proof. unfold count, one. rewrite filter_cons. by destruct (decide (P x)). Qed.
Lemma count_delete i x l : l !! i = Some x → count l = (one x + count (delete i l))%nat.
Proof.
  intros Hi. rewrite <-(take_drop_middle l i x Hi) at 1. rewrite delete_take_drop, !count_app, count_cons. lia.
Qed.
Lemma alter_middle (f : A → A) i x l : l !! i = Some x → alter f i l = take i l ++ f x :: drop (S i) l.
Proof.
  revert i. induction l as [|y l IH]; intros [|i] Hi; [done..| |].
  - by injection Hi as ->.
  - change (alter f (S i) (y :: l)) with (y :: alter f i l). by rewrite IH.
Qed.
Lemma count_alter f i x l : l !! i = Some x → (count (alter f i l) + one x = count l + one (f x))%nat.
Proof.
  intros Hi. rewrite (alter_middle f i x l Hi). rewrite <-(take_drop_middle l i x Hi) at 3.
  rewrite !count_app, !count_cons. lia.
Qed.
Lemma count_none l : Forall (λ x, ¬ P x) l → count l = 0%nat.
Proof. induction 1 as [|x l Hx _ IH]; [done|]. rewrite count_cons, IH. unfold one. by rewrite decide_False. Qed.
End Count.

(** The waits that go on, and those that were not aborted. *)
Abbreviation going := (count (λ x : nat * wait, x.2 = armed)).
Abbreviation hopeful := (count (λ x : nat * wait, x.2 ≠ aborted)).
(** The calls without an error. *)
Abbreviation ok_calls := (count (λ x : nat * bool, x.2 = false)).

Lemma going_cancel t : going (abort_all t) = 0%nat.
Proof. apply count_none, Forall_fmap, Forall_true. by intros [h []]. Qed.
Lemma hopeful_cancel t : (hopeful (abort_all t) + going t = hopeful t)%nat.
Proof.
  induction t as [|[h w] t IH]; [done|]. unfold abort_all in *. cbn [fmap list_fmap]. rewrite !count_cons.
  destruct w; unfold one; cbn; repeat case_decide; try done; lia.
Qed.

Section Periodical.
Context {T : Type} {HD : Deadline T} {HL : DeadlineLaws T}.
Implicit Types p : periodical T.

Ltac laws := repeat first [rewrite waits_async | rewrite waits_ended | rewrite waits_taken | rewrite waits_cancel | rewrite waits_expires].

(** *** A timer that is disabled *)

(** The calls there will have been when nothing is left to do, those of them that may
    come without an error, and a bound on the steps until then. *)
Definition load (p : periodical T) : nat := length (calls p) + length (waits (timer_ p)) + length (rearming p).
Definition hope (p : periodical T) : nat := ok_calls (calls p) + hopeful (waits (timer_ p)) + length (rearming p).
Definition work (p : periodical T) : nat := length (waits (timer_ p)) + going (waits (timer_ p)) + 3 * length (rearming p).

Lemma run_user_disabled h err acts p :
  Forall (λ a, a = DoCancel) acts → enabled_ p = false → run_user h err acts p = user_call h err p.
Proof.
  intros Ha Hp. unfold run_user. assert (Hu : enabled_ (user_call h err p) = false) by done.
  revert Hu. generalize (user_call h err p). induction Ha as [|a acts -> _ IH]; intros q Hq; [done|].
  cbn [foldl act]. replace (cancel q) with q by (unfold cancel; by rewrite Hq). by apply IH.
Qed.
Lemma one_wait P `{!∀ x : nat * wait, Decision (P x)} x : one P x = if decide (P x) then 1%nat else 0%nat.
Proof. done. Qed.
Lemma ok_calls_snoc l h err : ok_calls (l ++ [(h, err)]) = (ok_calls l + if err then 0 else 1)%nat.
Proof. rewrite count_app, count_cons, count_nil. unfold one. by destruct err. Qed.
Lemma cancel_length t : length (abort_all t) = length t.
Proof. apply length_fmap. Qed.

Ltac ones := unfold one in *; cbn [fst snd prod_map id] in *; repeat case_decide; try done.

Lemma fire_counts t i h (t' := alter (prod_map id (λ _, due)) i t) :
  t !! i = Some (h, armed) → length t' = length t ∧ (going t = S (going t')) ∧ hopeful t' = hopeful t.
Proof.
  intros Hi. unfold t'. split; [apply length_alter|].
  pose proof (count_alter (λ x : nat * wait, x.2 = armed) (prod_map id (λ _, due)) i _ t Hi) as H1.
  pose proof (count_alter (λ x : nat * wait, x.2 ≠ aborted) (prod_map id (λ _, due)) i _ t Hi) as H2.
  ones; lia.
Qed.
Lemma delete_counts t i h w :
  t !! i = Some (h, w) → w ≠ armed →
  length t = S (length (delete i t)) ∧ going t = going (delete i t) ∧
  hopeful t = ((if decide (w = due) then 1 else 0) + hopeful (delete i t))%nat.
Proof.
  intros Hi Hw. pose proof (count_delete (λ x : nat * wait, x.2 = armed) i _ t Hi) as H1.
  pose proof (count_delete (λ x : nat * wait, x.2 ≠ aborted) i _ t Hi) as H2.
  split; [pose proof (lookup_lt_Some _ _ _ Hi); rewrite length_delete by eauto; lia|].
  destruct w; ones; lia.
Qed.
Lemma rearmed_counts t h (t' := abort_all t ++ [(h, armed)]) :
  length t' = S (length t) ∧ going t' = 1%nat ∧ (hopeful t' + going t = S (hopeful t))%nat.
Proof.
  unfold t'. rewrite length_app, cancel_length, !count_app, !count_cons, !count_nil, going_cancel.
  pose proof (hopeful_cancel t). cbn [length]. ones; lia.
Qed.

Lemma idle_disabled p p' :
  idle_step p p' → enabled_ p = false →
  enabled_ p' = false ∧ load p' = load p ∧ (hope p' ≤ hope p)%nat ∧ (work p' < work p)%nat.
Proof.
  unfold load, hope, work. intros Hs Hen. destruct Hs as [i h p Hi|i h w acts p Hi Hw Ha|j h err acts p Hj Ha].
  - destruct (fire_counts _ _ _ Hi) as (H1 & H2 & H3). unfold fire.
    cbn [timer_ rearming calls with_timer enabled_]. laws. split_and!; [done|lia..].
  - destruct (delete_counts _ _ _ _ Hi Hw) as (H1 & H2 & H3). unfold run, handler.
    rewrite run_user_disabled by done. cbn [enabled enabled_ user_call with_timer]. rewrite Hen, andb_false_r.
    cbn [timer_ rearming calls user_call with_timer enabled_]. rewrite ok_calls_snoc, length_app. cbn [length]. laws.
    destruct (decide (w = due)) as [->|Hd]; [rewrite bool_decide_true by done|rewrite bool_decide_false by done]; cbn [negb];
      (split_and!; [done|lia..]).
  - assert (Hr : length (rearming p) = S (length (delete j (rearming p)))).
    { pose proof (lookup_lt_Some _ _ _ Hj). rewrite length_delete by eauto. lia. }
    unfold rearm, call_impl. destruct err as [e|].
    + rewrite run_user_disabled by done. cbn [timer_ rearming calls user_call with_timer with_rearming enabled_].
      rewrite ok_calls_snoc, length_app. cbn [length]. pose proof (hopeful_cancel (waits (timer_ p))).
      destruct (waits_failed e (timer_ p)) as [->| ->]; rewrite ?cancel_length, ?going_cancel; (split_and!; [done|lia..]).
    + cbn [timer_ rearming calls with_timer with_rearming enabled_]. laws.
      destruct (rearmed_counts (waits (timer_ p)) h) as (H1 & H2 & H3). split_and!; [done|lia..].
Qed.

Lemma idle_steps n p p' :
  nsteps idle_step n p p' → enabled_ p = false →
  enabled_ p' = false ∧ load p' = load p ∧ (hope p' ≤ hope p)%nat ∧ (work p' + n ≤ work p)%nat.
Proof.
  induction 1 as [p|n p p1 p' Hs _ IH]; intros Hp; [split_and!; try done; lia|].
  destruct (idle_disabled p p1 Hs Hp) as (H1 & H2 & H3 & H4). destruct (IH H1) as (H5 & H6 & H7 & H8).
  split_and!; [done|lia..].
Qed.
(** Whatever is left can go on. *)
Lemma idle_progress p : (∀ p', ¬ idle_step p p') → waits (timer_ p) = [] ∧ rearming p = [].
Proof.
  intros Hn. split.
  - destruct (waits (timer_ p)) as [|[h w] t] eqn:Ht; [done|]. assert (Hi : waits (timer_ p) !! 0%nat = Some (h, w)) by by rewrite Ht.
    destruct w; [by destruct (Hn _ (st_fire 0 h p Hi))|..];
      by destruct (Hn _ (st_run 0 h _ [] p Hi ltac:(done) (Forall_nil_2 _))).
  - destruct (rearming p) as [|h r] eqn:Hr; [done|]. assert (Hi : rearming p !! 0%nat = Some h) by by rewrite Hr.
    by destruct (Hn _ (st_rearm 0 h None [] p Hi (Forall_nil_2 _))).
Qed.

(** *** A timer that is enabled *)

(** A wait that was not aborted, or a handler that is about to wait; [b] when one
    is running. *)
Definition turns_on (b : bool) (p : periodical T) : Prop :=
  b = true ∨ (1 ≤ hopeful (waits (timer_ p)) + length (rearming p))%nat.
Definition timer_inv (b : bool) (p : periodical T) : Prop :=
  (going (waits (timer_ p)) ≤ 1)%nat ∧ (enabled_ p = true → turns_on b p).

Lemma cancel_inv b p : timer_inv b p → timer_inv b (cancel p).
Proof.
  intros Hp. unfold cancel. destruct (enabled_ p) eqn:He; [|exact Hp]. split; [|done].
  cbn [timer_ with_timer set_enabled]. laws. rewrite going_cancel. lia.
Qed.
Lemma call_inv b h p : timer_inv b p → timer_inv b (call h p).
Proof.
  intros _. destruct (rearmed_counts (waits (timer_ p)) h) as (_ & H2 & H3). unfold call, timer_inv, turns_on.
  cbn [timer_ with_timer set_enabled rearming enabled_]. laws.
  split; [lia|]. intros _. right. pose proof (hopeful_cancel (waits (timer_ p))). lia.
Qed.
Lemma acts_inv b acts p :
  Forall (λ a, ∀ h e, a = DoCall h e → e = None) acts → timer_inv b p → timer_inv b (foldl (λ p a, act a p) p acts).
Proof.
  intros Ha. revert p. induction Ha as [|a acts Hx _ IH]; intros p Hp; [done|]. cbn [foldl]. apply IH.
  destruct a as [h e|]; cbn [act]; [|by apply cancel_inv]. rewrite (Hx h e eq_refl).
  change (call_ec h None p) with (call h p). by apply call_inv.
Qed.

Lemma step_timer_inv p p' : step p p' → timer_inv false p → timer_inv false p'.
Proof.
  destruct 1 as [h p|i h w acts p Hi Hw Ha|j h p Hj|i h p Hi|p]; intros Hp.
  - by apply (call_inv false).
  - destruct (delete_counts _ _ _ _ Hi Hw) as (_ & H2 & H3). destruct Hp as [Hg Ht].
    set (b := bool_decide (w = due)).
    assert (Hr : timer_inv b (run_user h (negb b) acts (with_timer (taken i (timer_ p)) p))).
    { apply acts_inv; [done|]. split; cbn [timer_ user_call with_timer rearming enabled_]; [laws; lia|].
      intros He. destruct (Ht He) as [|H]; [done|]. unfold b, turns_on. cbn [timer_ user_call with_timer rearming]. laws.
      case_bool_decide; [by left|right]. rewrite (decide_False (P := w = due)) in H3 by done. lia. }
    unfold run, handler. fold b. set (q := run_user _ _ _ _) in *. clearbody q. unfold enabled.
    destruct Hr as [Hg' Ht']. rewrite negb_involutive. destruct b; cbn [andb]; [|done].
    destruct (enabled_ q) eqn:He; [|split; [done|by rewrite He]]. split; [done|]. intros _. right.
    cbn [timer_ with_rearming rearming]. rewrite length_app. cbn [length]. lia.
  - destruct (rearmed_counts (waits (timer_ p)) h) as (_ & H2 & H3). unfold rearm, call_impl, timer_inv, turns_on.
    cbn [timer_ with_timer with_rearming rearming enabled_]. laws. split; [lia|]. intros _. right.
    pose proof (hopeful_cancel (waits (timer_ p))). lia.
  - destruct (fire_counts _ _ _ Hi) as (_ & H2 & H3). destruct Hp as [Hg Ht]. split; cbn [timer_ fire with_timer]; [laws; lia|].
    intros He. destruct (Ht He) as [|H]; [done|right]. cbn [timer_ fire with_timer rearming]. laws. lia.
  - by apply cancel_inv.
Qed.
Lemma steps_timer_inv p p' : rtc step p p' → timer_inv false p → timer_inv false p'.
Proof. induction 1 as [|p p1 p' Hs _ IH]; [done|]. intros Hp. by eapply IH, step_timer_inv. Qed.

(** ** Properties *)

(** C27 (liveness).  Whatever is called, from wherever, and however waits end and
    handlers run in between, as long as the timer itself does not fail: at most one
    wait is under way, and a periodical timer that says it is enabled has a next
    turn, a wait that is not aborted or a handler that is about to wait again. *)
Theorem enabled_has_turn p :
  rtc step periodical_new p →
  (going (waits (timer_ p)) ≤ 1)%nat ∧
  (enabled p = true → (∃ h w, (h, w) ∈ waits (timer_ p) ∧ w ≠ aborted) ∨ rearming p ≠ []).
Proof.
  intros Hs. destruct (steps_timer_inv _ p Hs) as [Hg Ht]; [split; [cbn; rewrite waits_new; apply le_0_n|done]|]. split; [done|].
  intros He. destruct (Ht He) as [|H]; [done|]. destruct (rearming p); [left|by right].
  cbn [length] in H. unfold count in H. destruct (filter _ (waits (timer_ p))) as [|[h w] l] eqn:Hf; [cbn in H; lia|].
  exists h, w. assert (Hin : (h, w) ∈ filter (λ x : nat * wait, x.2 ≠ aborted) (waits (timer_ p))) by (rewrite Hf; by left).
  apply list_elem_of_filter in Hin as [? ?]. done.
Qed.

(** C28 (termination).  A timer that was cancelled stops, if nobody calls it again: the
    steps that are left are bounded, each of its waits and of the handlers about to
    wait brings one more call, an error-free one only where the wait was over already
    or the handler about to wait again, and when no step is left nothing is under way. *)
Theorem cancelled_stops n p p' :
  enabled p = true → nsteps idle_step n (cancel p) p' →
  enabled p' = false ∧
  (n ≤ length (waits (timer_ p)) + 3 * length (rearming p))%nat ∧
  (length (calls p') ≤ length (calls p) + length (waits (timer_ p)) + length (rearming p))%nat ∧
  (ok_calls (calls p') + going (waits (timer_ p)) ≤ ok_calls (calls p) + hopeful (waits (timer_ p)) + length (rearming p))%nat ∧
  ((∀ q, ¬ idle_step p' q) →
   waits (timer_ p') = [] ∧ rearming p' = [] ∧
   length (calls p') = (length (calls p) + length (waits (timer_ p)) + length (rearming p))%nat).
Proof.
  intros He Hs. unfold enabled in *. destruct (idle_steps n (cancel p) p' Hs) as (H1 & H2 & H3 & H4).
  { unfold cancel. by rewrite He. }
  unfold load, hope, work, cancel in *. rewrite He in H2, H3, H4.
  cbn [timer_ rearming calls with_timer set_enabled] in *. rewrite waits_cancel in *. rewrite cancel_length in *. rewrite going_cancel in H4.
  pose proof (hopeful_cancel (waits (timer_ p))). split_and!; [done|lia..|].
  intros Hn. destruct (idle_progress p' Hn) as [Ht Hr]. rewrite Ht, Hr in H2. cbn [length] in H2. split_and!; [done..|lia].
Qed.

(** A handler whose wait is over when [call] is given another one takes the timer back:
    the other one's wait is aborted. *)
Theorem call_taken_back i h1 h2 p :
  waits (timer_ p) !! i = Some (h1, due) →
  let p3 := rearm (length (rearming p)) h1 None [] (run i h1 due [] (call h2 p)) in
  filter (λ x, x.2 = armed) (waits (timer_ p3)) = [(h1, armed)] ∧ (h2, aborted) ∈ waits (timer_ p3).
Proof.
  intros Hi. cbv zeta.
  assert (Hp : waits (timer_ (rearm (length (rearming p)) h1 None [] (run i h1 due [] (call h2 p)))) =
    abort_all (delete i (abort_all (waits (timer_ p)) ++ [(h2, armed)])) ++ [(h1, armed)]).
  { unfold rearm, call_impl, run, handler. rewrite bool_decide_true by done. cbn. laws. reflexivity. }
  rewrite Hp. split.
  - rewrite filter_app. by rewrite (nil_length_inv _ (going_cancel _)).
  - apply elem_of_app. left. rewrite delete_take_drop. apply list_elem_of_fmap. exists (h2, armed). split; [done|].
    apply elem_of_app. right. pose proof (lookup_lt_Some _ _ _ Hi). rewrite drop_app_le by (rewrite cancel_length; lia).
    apply elem_of_app. right. by left.
Qed.

(** A cancellation that comes when a handler has found the timer enabled does not keep it
    from waiting once more, and from being called without an error. *)
Theorem cancelled_too_late j h p (i := length (waits (timer_ p))) :
  rearming p !! j = Some h → enabled p = true →
  let p1 := rearm j h None [] (cancel p) in
  enabled p1 = false ∧ waits (timer_ p1) !! i = Some (h, armed) ∧
  calls (run i h due [] (fire i p1)) = calls p ++ [(h, false)].
Proof.
  intros Hj He. unfold cancel. unfold enabled in He. rewrite He. cbv zeta. split; [done|]. split; [|done].
  cbn. laws. rewrite list_lookup_middle; [done|]. by rewrite !cancel_length.
Qed.

End Periodical.

(** ** Witnesses *)

(** The timer as the documentation describes it. *)
#[export] Instance list_deadline : Deadline (list (nat * wait)) := {|
  waits t := t;
  deadline_new := [];
  deadline_cancel := abort_all;
  expires_from_now err t := match err with None => abort_all t | Some _ => t end;
  async_wait h t := t ++ [(h, armed)];
  ended i t := alter (prod_map id (λ _, due)) i t;
  taken i t := delete i t
|}.
#[export] Instance list_deadline_laws : DeadlineLaws (list (nat * wait)).
Proof. split; try done. by left. Qed.

(** A timer that ticks. *)
Definition example_ticking : periodical (list (nat * wait)) :=
  rearm 0 7 None [] (run 0 7 due [] (fire 0 (call 7 periodical_new))).
Lemma ticking_reachable : rtc step periodical_new example_ticking.
Proof.
  eapply rtc_l; [apply (st_call 7)|]. eapply rtc_l; [by apply (st_fire_any 0 7)|].
  eapply rtc_l; [by apply (st_run_any 0 7 due [])|]. eapply rtc_l; [by apply (st_rearm_any 0 7)|]. apply rtc_refl.
Qed.
Lemma enabled_has_turn_witness : (∃ h w, (h, w) ∈ timer_ example_ticking ∧ w ≠ aborted) ∨ rearming example_ticking ≠ [].
Proof. exact (proj2 (enabled_has_turn example_ticking ticking_reachable) eq_refl). Defined.

Lemma example_stopping : nsteps idle_step 1 (cancel example_ticking) (run 0 7 aborted [] (cancel example_ticking)).
Proof. apply nsteps_once. by apply (st_run 0 7 aborted []). Qed.
Lemma cancelled_stops_witness :
  calls (run 0 7 aborted [] (cancel example_ticking)) = [(7%nat, false); (7%nat, true)] ∧
  enabled (run 0 7 aborted [] (cancel example_ticking)) = false.
Proof.
  split; [reflexivity|]. exact (proj1 (cancelled_stops 1 example_ticking _ eq_refl example_stopping)).
Defined.
