(* ===== verification/SizePack.v ===== *)
(** * SizePack: the length prefixes of the wire format

    [lib/vtrc/common/sizepack-policy.h]: the two encodings of a message length,
    [fixint_policy] (big-endian, fixed width) and [varint_policy] (base 128,
    least significant group first, top bit set on every byte but the last).
    Both are templates over the integer type; [sz] is its [sizeof].  The
    interface [SizePolicy] is what the framing queues ask of a policy, and
    [SizePolicyLaws] is the contract their correctness is proved against. *)

From S2P Require Import Prelude.

(** ** fixint_policy *)

Section Fixint.
Context (sz : nat).

Definition fixint_max_length : Z := Z.of_nat sz.

Definition fixint_size_length (l : bytes) : Z :=
  if blen l <? fixint_max_length then 0 else fixint_max_length.

Definition fixint_packed_length (_ : Z) : Z := fixint_max_length.

(** The loop fills the buffer from its last byte to its first. *)
Fixpoint fixint_pack_loop (current : nat) (size : Z) (res : bytes) : bytes :=
  match current with
  | O => res
  | S c => fixint_pack_loop c (Z.shiftr size 8) (Z.land size 255 :: res)
  end.

Definition fixint_pack (size : Z) : bytes := fixint_pack_loop sz size [].

(** The overload that writes into a caller's buffer; [None]: a write past
    its end. *)
Fixpoint fixint_pack_to_loop (current : nat) (size : Z) (result : bytes) :
    option (Z * bytes) :=
  match current with
  | O => Some (fixint_max_length, result)
  | S c =>
      if decide (c < length result)%nat then
        fixint_pack_to_loop c (Z.shiftr size 8) (<[c := Z.land size 255]> result)
      else None
  end.

Definition fixint_pack_to (size : Z) (result : bytes) : option (Z * bytes) :=
  fixint_pack_to_loop sz size result.

(** [res |= (size_type)(uint8_t)*begin << ((cur - 1) << 3)] *)
Fixpoint fixint_unpack_loop (cur : nat) (l : bytes) (res : Z) : Z :=
  match cur, l with
  | S c, b :: l' =>
      fixint_unpack_loop c l'
        (Z.lor res (wrap (8 * Z.of_nat sz)
                     (Z.shiftl (u8 b) (Z.shiftl (Z.of_nat c) 3))))
  | _, _ => res
  end.

Definition fixint_unpack (l : bytes) : Z := fixint_unpack_loop sz l 0.
End Fixint.

(** ** varint_policy *)

Section Varint.
Context (sz : nat).

Definition varint_max_length : Z := 8 * Z.of_nat sz / 7 + 1.

(** The state of the loop is [(length, last)]. *)
Fixpoint varint_size_length_loop (l : bytes) (length last : Z) : Z * Z :=
  match l with
  | [] => (length, last)
  | b :: l' =>
      if Z.land last 128 =? 0 then (length, last)
      else varint_size_length_loop l' (length + 1) (u8 b)
  end.

Definition varint_size_length (l : bytes) : Z :=
  let '(length, last) := varint_size_length_loop l 0 128 in
  if Z.land last 128 =? 0 then length else 0.

(** [while( input ) ++res, input >>= 7] *)
Fixpoint varint_packed_length_loop (fuel : nat) (input res : Z) : option Z :=
  match fuel with
  | O => None
  | S f => if input =? 0 then Some res
           else varint_packed_length_loop f (Z.shiftr input 7) (res + 1)
  end.

Definition varint_packed_length (input : Z) : option Z :=
  varint_packed_length_loop (S (Z.to_nat varint_max_length)) input 0.

(** [for( ; size > 0x7F; size >>= 7 ) push_back( (size & 0x7F) | 0x80 );
     push_back( size )] *)
Fixpoint varint_pack_loop (fuel : nat) (size : Z) : option bytes :=
  match fuel with
  | O => None
  | S f =>
      if 127 <? size then
        cons (Z.lor (Z.land size 127) 128) <$> varint_pack_loop f (Z.shiftr size 7)
      else Some [u8 size]
  end.

Definition varint_pack (size : Z) : bytes :=
  default [] (varint_pack_loop (Z.to_nat varint_max_length) size).

(** The overload that writes into a caller's buffer and returns the index
    after the last byte written.  [None]: a write past the buffer. *)
Fixpoint varint_pack_to_loop (fuel : nat) (size : Z) (index : nat)
    (result : bytes) : option (nat * bytes) :=
  match fuel with
  | O => None
  | S f =>
      if decide (index < length result)%nat then
        if 127 <? size then
          varint_pack_to_loop f (Z.shiftr size 7) (S index)
            (<[index := Z.lor (Z.land size 127) 128]> result)
        else Some (S index, <[index := u8 size]> result)
      else None
  end.

Definition varint_pack_to (size : Z) (result : bytes) : option (nat * bytes) :=
  varint_pack_to_loop (Z.to_nat varint_max_length) size 0 result.

(** [None]: a shift by the width of the type or more, which is undefined. *)
Fixpoint varint_unpack_loop (l : bytes) (res shift last : Z) : option Z :=
  match l with
  | [] => Some res
  | b :: l' =>
      if Z.land last 128 =? 0 then Some res
      else if shift <? 8 * Z.of_nat sz then
        varint_unpack_loop l'
          (Z.lor res (wrap (8 * Z.of_nat sz) (Z.shiftl (Z.land (u8 b) 127) shift)))
          (shift + 7) (u8 b)
      else None
  end.

Definition varint_unpack (l : bytes) : option Z := varint_unpack_loop l 0 0 128.
End Varint.

(** ** The interface the framing queues use *)

Class SizePolicy : Type := {
  sp_max_length : Z;
  sp_size_length : bytes → Z;
  sp_unpack : bytes → option Z;
  sp_pack : Z → bytes
}.

Class SizePolicyLaws (P : SizePolicy) : Prop := {
  sp_max_length_word : 0 < sp_max_length < 2 ^ 32;
  sp_pack_bytes n : in_word 64 n → bytes_ok (sp_pack n);
  sp_pack_length n : in_word 64 n → 0 < blen (sp_pack n) ≤ sp_max_length;
  sp_size_length_pack n r :
    in_word 64 n → sp_size_length (sp_pack n ++ r) = blen (sp_pack n);
  sp_unpack_pack n r : in_word 64 n → sp_unpack (sp_pack n ++ r) = Some n;
  sp_size_length_bound l : 0 ≤ sp_size_length l ≤ blen l;
  sp_size_length_app l r :
    0 < sp_size_length l → sp_size_length (l ++ r) = sp_size_length l;
  sp_unpack_app l r :
    0 < sp_size_length l → sp_unpack (l ++ r) = sp_unpack l;
  sp_unpack_defined l :
    0 < sp_size_length l ≤ sp_max_length → ∃ n, sp_unpack l = Some n ∧ in_word 64 n
}.

(** [fixint::policy_type] and [varint::policy_type] of [data-queue.cpp] are the
    policies over [size_t], 8 bytes. *)
Definition fixint_policy : SizePolicy := {|
  sp_max_length := fixint_max_length 8;
  sp_size_length := fixint_size_length 8;
  sp_unpack l := Some (fixint_unpack 8 l);
  sp_pack := fixint_pack 8
|}.

Definition varint_policy : SizePolicy := {|
  sp_max_length := varint_max_length 8;
  sp_size_length := varint_size_length;
  sp_unpack := varint_unpack 8;
  sp_pack := varint_pack 8
|}.

(** ** Lemmas on fixint *)

Lemma fixint_pack_loop_app cur n acc :
  fixint_pack_loop cur n acc = fixint_pack_loop cur n [] ++ acc.
Proof.
  revert n acc. induction cur as [|c IH]; intros n acc; simpl; [done|].
  rewrite (IH _ (_ :: acc)), (IH _ [_]), <-(assoc_L (++)). done.
Qed.

Lemma fixint_pack_loop_length cur n : length (fixint_pack_loop cur n []) = cur.
Proof.
  revert n. induction cur as [|c IH]; intros n; simpl; [done|].
  rewrite fixint_pack_loop_app, length_app, IH. simpl. lia.
Qed.

Lemma land_255 n : Z.land n 255 = n mod 256.
Proof. change 255 with (Z.ones 8). by rewrite Z.land_ones. Qed.

Lemma land_127 n : Z.land n 127 = n mod 128.
Proof. change 127 with (Z.ones 7). by rewrite Z.land_ones. Qed.

Lemma fixint_pack_loop_bytes cur n : bytes_ok (fixint_pack_loop cur n []).
Proof.
  revert n. induction cur as [|c IH]; intros n; simpl; [constructor|].
  rewrite fixint_pack_loop_app. apply Forall_app. split; [done|].
  constructor; [|done]. rewrite land_255. unfold in_word.
  pose proof (Z.mod_pos_bound n 256). lia.
Qed.

(** The decoder reads most significant byte first: packing [n] at weight
    [2^(8c)] and reading it back adds [n * 2^(8(k-c))]-aligned digits. *)
Lemma fixint_unpack_loop_pack sz k c n r res :
  (k + c ≤ sz)%nat → 0 ≤ n →
  fixint_unpack_loop sz (k + c) (fixint_pack_loop k n [] ++ r) res =
  fixint_unpack_loop sz c r
    (Z.lor res (Z.shiftl (n mod 2 ^ (8 * Z.of_nat k)) (8 * Z.of_nat c))).
Proof.
  revert c n r res. induction k as [|k IH]; intros c n r res Hk Hn; cbn [fixint_pack_loop].
  - rewrite Z.mod_1_r, Z.shiftl_0_l, Z.lor_0_r. done.
  - rewrite fixint_pack_loop_app, <-(assoc_L (++)).
    replace (S k + c)%nat with (k + S c)%nat by lia.
    rewrite IH by (lia || by apply Z.shiftr_nonneg). cbn [fixint_unpack_loop app].
    rewrite land_255, Z.shiftr_div_pow2 by lia. change (2 ^ 8) with 256.
    set (W := 8 * Z.of_nat sz).
    pose proof (Z.mod_pos_bound n 256 ltac:(lia)).
    rewrite (wrap_small 8 (n mod 256)) by (unfold in_word; lia).
    rewrite (Z.shiftl_mul_pow2 _ 3) by lia.
    replace (Z.of_nat c * 2 ^ 3) with (8 * Z.of_nat c) by lia.
    rewrite (wrap_small W).
    2:{ rewrite Z.shiftl_mul_pow2 by lia. split; [nia|].
        replace W with (8 + 8 * Z.of_nat c + 8 * (Z.of_nat sz - Z.of_nat c - 1)) by lia.
        rewrite !Z.pow_add_r by lia. change (2 ^ 8) with 256.
        assert (0 < 2 ^ (8 * Z.of_nat c)) by (apply Z.pow_pos_nonneg; lia).
        assert (1 ≤ 2 ^ (8 * (Z.of_nat sz - Z.of_nat c - 1))).
        { apply (Z.pow_le_mono_r 2 0); lia. }
        nia. }
    f_equal. rewrite <-Z.lor_assoc. f_equal.
    assert (Hp : 0 < 2 ^ (8 * Z.of_nat k)) by (apply Z.pow_pos_nonneg; lia).
    replace (n mod 2 ^ (8 * Z.of_nat (S k))) with
      (Z.lor (n mod 256) (Z.shiftl ((n / 256) mod 2 ^ (8 * Z.of_nat k)) 8)).
    + replace (8 * Z.of_nat (S c)) with (8 + 8 * Z.of_nat c) by lia.
      rewrite Z.shiftl_lor, Z.shiftl_shiftl, Z.lor_comm by lia. done.
    + rewrite lor_shiftl_add; [|lia|done|apply Z.mod_pos_bound; lia].
      replace (8 * Z.of_nat (S k)) with (8 + 8 * Z.of_nat k) by lia.
      rewrite Z.pow_add_r by lia. change (2 ^ 8) with 256.
      rewrite Z.rem_mul_r by lia. lia.
Qed.

Lemma fixint_unpack_loop_app sz c l r res :
  (c ≤ length l)%nat →
  fixint_unpack_loop sz c (l ++ r) res = fixint_unpack_loop sz c l res.
Proof.
  revert l res. induction c as [|c IH]; intros [|b l] res Hl; simpl in *; try done; [lia|].
  apply IH. lia.
Qed.

Lemma fixint_unpack_loop_word sz c l res :
  in_word (8 * Z.of_nat sz) res → in_word (8 * Z.of_nat sz) (fixint_unpack_loop sz c l res).
Proof.
  revert l res. induction c as [|c IH]; intros [|b l] res Hres; simpl; try done.
  apply IH, lor_word; [lia|done|apply wrap_range; lia].
Qed.

#[export] Instance fixint_policy_laws : SizePolicyLaws fixint_policy.
Proof.
  split; cbn [sp_max_length sp_size_length sp_unpack sp_pack fixint_policy];
    unfold fixint_max_length, fixint_size_length, fixint_pack, fixint_unpack, fixint_max_length.
  - lia.
  - intros n _. apply fixint_pack_loop_bytes.
  - intros n _. unfold blen. rewrite fixint_pack_loop_length. lia.
  - intros n r _. rewrite blen_app. pose proof (blen_nonneg r).
    unfold blen at 1 3. rewrite fixint_pack_loop_length.
    destruct (_ <? _) eqn:E; [apply Z.ltb_lt in E; lia|done].
  - intros n r [Hn0 Hn]. f_equal.
    pose proof (fixint_unpack_loop_pack 8 8 0 n r 0 ltac:(lia) Hn0) as H.
    rewrite Nat.add_0_r in H. rewrite H. simpl fixint_unpack_loop.
    rewrite Z.shiftl_0_r. change (Z.lor 0 ?x) with x. by apply Z.mod_small.
  - intros l. pose proof (blen_nonneg l). destruct (_ <? _) eqn:E; bool_props; lia.
  - intros l r. rewrite blen_app. pose proof (blen_nonneg r).
    destruct (blen l <? _) eqn:E; bool_props; [lia|].
    destruct (_ <? _) eqn:E'; bool_props; lia.
  - intros l r. destruct (_ <? _) eqn:E; bool_props; [lia|]. intros _.
    rewrite fixint_unpack_loop_app by (unfold blen in E; lia). done.
  - intros l _. eexists. split; [done|].
    apply (fixint_unpack_loop_word 8). unfold in_word; lia.
Qed.

(** ** Lemmas on varint *)

Lemma land_128_lor n : 0 ≤ n < 128 → Z.lor n 128 = n + 128.
Proof.
  intros Hn. change 128 with (Z.shiftl 1 7) at 1.
  rewrite lor_shiftl_add by (unfold in_word; lia). lia.
Qed.

Lemma land_128_low n : 0 ≤ n < 128 → Z.land n 128 = 0.
Proof.
  intros Hn. change 128 with (2 ^ 7). apply Z.bits_inj'. intros i Hi.
  rewrite Z.land_spec, Z.pow2_bits_eqb, Z.bits_0 by lia.
  destruct (Z.eqb_spec 7 i) as [<-|]; [|apply andb_false_r].
  by rewrite (testbit_above 7) by (unfold in_word; lia).
Qed.

Lemma land_128_high n : 0 ≤ n < 128 → Z.land (n + 128) 128 = 128.
Proof.
  intros Hn. rewrite <-land_128_lor by done. rewrite Z.land_lor_distr_l.
  rewrite land_128_low by done. done.
Qed.

Lemma land_127_high n : 0 ≤ n < 128 → Z.land (n + 128) 127 = n.
Proof. intros Hn. rewrite land_127. rewrite <-(Z.mod_small n 128) at 2 by done.
  replace (n + 128) with (n + 1 * 128) by lia. apply Z.mod_add. lia. Qed.

(** The loop needs one byte per started group of seven bits. *)
Lemma varint_pack_loop_total f n :
  0 ≤ n < 2 ^ (7 * Z.of_nat (S f)) → is_Some (varint_pack_loop (S f) n).
Proof.
  revert n. induction f as [|f IH]; intros n Hn.
  - simpl. destruct (127 <? n) eqn:E; bool_props; [lia|by eexists].
  - cbn [varint_pack_loop]. destruct (127 <? n) eqn:E; bool_props; [|by eexists].
    destruct (IH (Z.shiftr n 7)) as [bs Hbs].
    + split; [apply Z.shiftr_nonneg; lia|]. rewrite Z.shiftr_div_pow2 by lia.
      apply Z.div_lt_upper_bound; [lia|].
      replace (7 * Z.of_nat (S (S f))) with (7 + 7 * Z.of_nat (S f)) in Hn by lia.
      rewrite Z.pow_add_r in Hn by lia. lia.
    + cbn [varint_pack_loop] in Hbs. rewrite Hbs. by eexists.
Qed.

Lemma varint_pack_loop_mono f g n bs :
  varint_pack_loop f n = Some bs → (f ≤ g)%nat → varint_pack_loop g n = Some bs.
Proof.
  revert g n bs. induction f as [|f IH]; intros g n bs H Hg; [done|].
  destruct g as [|g]; [lia|]. cbn [varint_pack_loop] in *.
  destruct (127 <? n); [|done].
  apply fmap_Some in H as (bs' & H & ->).
  rewrite (IH g _ _ H) by lia. done.
Qed.

Lemma varint_pack_loop_spec f n bs :
  varint_pack_loop f n = Some bs → 0 ≤ n →
  bytes_ok bs ∧ (0 < length bs ≤ f)%nat ∧
  ∃ init last, bs = init ++ [last] ∧ 0 ≤ last < 128 ∧
    Forall (λ b, Z.land b 128 ≠ 0) init.
Proof.
  revert n bs. induction f as [|f IH]; intros n bs H Hn; [done|].
  cbn [varint_pack_loop] in H. destruct (127 <? n) eqn:E; bool_props.
  - apply fmap_Some in H as (bs' & H & ->).
    destruct (IH _ _ H) as (Hok & Hlen & init & last & -> & Hlast & Hinit);
      [by apply Z.shiftr_nonneg|].
    rewrite land_127. pose proof (Z.mod_pos_bound n 128 ltac:(lia)).
    rewrite land_128_lor by done. split_and!.
    + constructor; [unfold in_word; lia|done].
    + simpl; lia.
    + simpl; lia.
    + exists ((n mod 128 + 128) :: init), last. split_and!; [done|lia|lia|].
      constructor; [rewrite land_128_high; lia|done].
  - injection H as <-. rewrite wrap_small by (unfold in_word; lia).
    split_and!; [constructor; [unfold in_word; lia|done]|simpl; lia|simpl; lia|].
    exists [], n. split_and!; [done|lia|lia|constructor].
Qed.

Lemma varint_size_length_loop_spec init last r len prev :
  Z.land prev 128 ≠ 0 → 0 ≤ last < 128 → bytes_ok init →
  Forall (λ b, Z.land b 128 ≠ 0) init →
  varint_size_length_loop (init ++ last :: r) len prev =
    (len + blen init + 1, last).
Proof.
  revert len prev. induction init as [|b init IH]; intros len prev Hprev Hlast Hok Hinit.
  - cbn. destruct (Z.eqb_spec (Z.land prev 128) 0); [done|].
    rewrite (wrap_small 8) by (unfold in_word; lia).
    destruct r as [|b r]; simpl; [f_equal; unfold blen; simpl; lia|].
    rewrite land_128_low by done. simpl. f_equal. unfold blen; simpl; lia.
  - inversion Hok; inversion Hinit; subst. cbn [app varint_size_length_loop].
    destruct (Z.eqb_spec (Z.land prev 128) 0); [done|].
    rewrite (wrap_small 8) by done. rewrite IH by done.
    f_equal. unfold blen; simpl; lia.
Qed.

(** Reading back the groups of [n] from bit [shift] on. *)
Lemma varint_unpack_loop_pack sz f n bs r res shift last :
  varint_pack_loop f n = Some bs → 0 ≤ n → 0 ≤ shift →
  (0 < n ∨ shift < 8 * Z.of_nat sz) →
  n * 2 ^ shift < 2 ^ (8 * Z.of_nat sz) → in_word shift res →
  Z.land last 128 ≠ 0 →
  varint_unpack_loop sz (bs ++ r) res shift last = Some (res + n * 2 ^ shift).
Proof.
  revert n bs res shift last. induction f as [|f IH];
    intros n bs res shift last H Hn Hs Hz Hfit Hres Hlast; [done|].
  assert (Hp : 0 < 2 ^ shift) by (apply Z.pow_pos_nonneg; lia).
  assert (Hsw : shift < 8 * Z.of_nat sz).
  { destruct Hz as [Hz|]; [|done].
    apply (Z.pow_lt_mono_r_iff 2); [lia..|]. nia. }
  cbn [varint_pack_loop] in H. destruct (127 <? n) eqn:E; bool_props.
  - apply fmap_Some in H as (bs' & H & ->). cbn [app varint_unpack_loop].
    destruct (Z.eqb_spec (Z.land last 128) 0) as [|_]; [done|].
    rewrite (proj2 (Z.ltb_lt _ _) Hsw).
    rewrite Z.shiftr_div_pow2 in H by lia. change (2 ^ 7) with 128 in H.
    pose proof (Z.mod_pos_bound n 128 ltac:(lia)) as Hm.
    pose proof (Z.div_mod n 128 ltac:(lia)) as Hd.
    rewrite (land_127 n), land_128_lor by done.
    rewrite (wrap_small 8) by (unfold in_word; lia). rewrite land_127_high by done.
    rewrite (wrap_small (8 * _)) by (rewrite Z.shiftl_mul_pow2 by lia; split; nia).
    rewrite lor_shiftl_add by (done || lia).
    rewrite IH with (n := n / 128); [|done|apply Z.div_pos; lia|lia| | | |].
    + f_equal. rewrite Z.pow_add_r by lia. change (2 ^ 7) with 128. nia.
    + left. apply Z.div_str_pos. lia.
    + rewrite Z.pow_add_r by lia. change (2 ^ 7) with 128. nia.
    + destruct Hres. split; [nia|]. rewrite Z.pow_add_r by lia.
      change (2 ^ 7) with 128. nia.
    + rewrite land_128_high by done. done.
  - injection H as <-. rewrite (wrap_small 8) by (unfold in_word; lia).
    cbn [app varint_unpack_loop].
    destruct (Z.eqb_spec (Z.land last 128) 0) as [|_]; [done|].
    rewrite (proj2 (Z.ltb_lt _ _) Hsw).
    rewrite (wrap_small 8 n) by (unfold in_word; lia).
    rewrite land_127, (Z.mod_small n 128) by lia.
    rewrite (wrap_small (8 * _)) by (rewrite Z.shiftl_mul_pow2 by lia; split; nia).
    rewrite lor_shiftl_add by (done || lia).
    destruct r as [|b r]; cbn [varint_unpack_loop]; [done|].
    rewrite land_128_low by lia. done.
Qed.

Lemma varint_pack_some n :
  in_word 64 n → varint_pack_loop 10 n = Some (varint_pack 8 n).
Proof.
  intros [Hn0 Hn]. unfold varint_pack.
  change (Z.to_nat (varint_max_length 8)) with 10%nat.
  destruct (varint_pack_loop_total 9 n) as [bs Hbs].
  { split; [done|]. change (7 * Z.of_nat 10) with 70. lia. }
  by rewrite Hbs.
Qed.

(** [size_length] never looks past the first byte with a clear top bit. *)
Lemma varint_size_length_loop_app l r len prev :
  let '(len', last) := varint_size_length_loop l len prev in
  Z.land last 128 = 0 → varint_size_length_loop (l ++ r) len prev = (len', last).
Proof.
  revert len prev. induction l as [|b l IH]; intros len prev; cbn [app varint_size_length_loop].
  - intros H. destruct r; simpl; [done|]. by rewrite H.
  - destruct (Z.land prev 128 =? 0) eqn:E; [done|]. apply IH.
Qed.

Lemma varint_size_length_loop_bound l len prev :
  let '(len', last) := varint_size_length_loop l len prev in
  len ≤ len' ≤ len + blen l.
Proof.
  revert len prev. induction l as [|b l IH]; intros len prev; simpl.
  - pose proof (blen_nonneg (@nil Z)); lia.
  - destruct (_ =? 0); [unfold blen; simpl; lia|].
    specialize (IH (len + 1) (u8 b)). destruct (varint_size_length_loop _ _ _).
    unfold blen in *. simpl. lia.
Qed.

(** The two loops walk the same bytes. *)
Lemma varint_unpack_loop_app sz l r len res shift prev :
  let '(len', last) := varint_size_length_loop l len prev in
  Z.land last 128 = 0 →
  varint_unpack_loop sz (l ++ r) res shift prev = varint_unpack_loop sz l res shift prev.
Proof.
  revert len res shift prev.
  induction l as [|b l IH]; intros len res shift prev; cbn [app varint_size_length_loop varint_unpack_loop].
  - intros H. destruct r; simpl; [done|]. by rewrite H.
  - destruct (Z.land prev 128 =? 0) eqn:E; [done|].
    specialize (IH (len + 1)
      (Z.lor res (wrap (8 * Z.of_nat sz) (Z.shiftl (Z.land (u8 b) 127) shift))) (shift + 7) (u8 b)).
    destruct (varint_size_length_loop _ _ _). intros H. rewrite IH by done. done.
Qed.

(** Every shift is smaller than the width as long as at most [max_length]
    bytes are read. *)
Lemma varint_unpack_loop_defined l len res prev :
  let '(len', last) := varint_size_length_loop l len prev in
  0 ≤ len → len' ≤ 10 → in_word 64 res →
  ∃ n, varint_unpack_loop 8 l res (7 * len) prev = Some n ∧ in_word 64 n.
Proof.
  revert len res prev.
  induction l as [|b l IH]; intros len res prev; cbn [varint_size_length_loop varint_unpack_loop].
  - intros _ _ H. by exists res.
  - destruct (Z.land prev 128 =? 0) eqn:E; [intros _ _ H; by exists res|].
    specialize (IH (len + 1)
      (Z.lor res (wrap (8 * Z.of_nat 8) (Z.shiftl (Z.land (u8 b) 127) (7 * len)))) (u8 b)).
    pose proof (varint_size_length_loop_bound l (len + 1) (u8 b)) as Hb.
    destruct (varint_size_length_loop _ _ _) as [len' last]. intros Hlen Hle Hres.
    replace (7 * len <? 8 * Z.of_nat 8) with true by (symmetry; apply Z.ltb_lt; lia).
    replace (7 * len + 7) with (7 * (len + 1)) by lia.
    apply IH; [lia|done|]. apply lor_word; [lia|done|apply wrap_range; lia].
Qed.

Lemma varint_size_length_pos l :
  0 < varint_size_length l →
  ∃ last, varint_size_length_loop l 0 128 = (varint_size_length l, last) ∧
    Z.land last 128 = 0.
Proof.
  unfold varint_size_length. destruct (varint_size_length_loop l 0 128) as [len last].
  destruct (Z.land last 128 =? 0) eqn:E; bool_props; [|lia]. by exists last.
Qed.

#[export] Instance varint_policy_laws : SizePolicyLaws varint_policy.
Proof.
  split; cbn [sp_max_length sp_size_length sp_unpack sp_pack varint_policy].
  - done.
  - intros n Hn. apply varint_pack_some in Hn as H.
    by apply varint_pack_loop_spec in H as (?&_); [|apply Hn].
  - intros n Hn. apply varint_pack_some in Hn as H.
    apply varint_pack_loop_spec in H as (_&?&_); [|apply Hn].
    unfold blen. change (varint_max_length 8) with 10. lia.
  - intros n r Hn. apply varint_pack_some in Hn as H.
    apply varint_pack_loop_spec in H as (Hok & _ & init & last & Heq & Hlast & Hinit); [|apply Hn].
    rewrite Heq in *. apply Forall_app in Hok as [Hok _].
    unfold varint_size_length. rewrite <-(assoc_L (++)). cbn [app].
    rewrite varint_size_length_loop_spec by done. rewrite land_128_low by done.
    simpl. rewrite blen_app. unfold blen. simpl. lia.
  - intros n r Hn. unfold varint_unpack.
    pose proof (varint_pack_some n Hn) as Hp. destruct Hn as [Hn0 Hn1].
    pose proof (varint_unpack_loop_pack 8 10 n _ r 0 0 128 Hp Hn0) as Hu.
    rewrite Hu; [f_equal; lia|lia|right; lia|lia|unfold in_word; lia|done].
  - intros l. unfold varint_size_length.
    pose proof (varint_size_length_loop_bound l 0 128).
    pose proof (blen_nonneg l).
    destruct (varint_size_length_loop l 0 128) as [len last]. destruct (_ =? 0); lia.
  - intros l r H. apply varint_size_length_pos in H as (last & H & Hlast).
    pose proof (varint_size_length_loop_app l r 0 128) as Ha. rewrite H in Ha.
    unfold varint_size_length at 1. rewrite Ha by done. by rewrite Hlast.
  - intros l r H. apply varint_size_length_pos in H as (last & H & Hlast).
    pose proof (varint_unpack_loop_app 8 l r 0 0 0 128) as Ha. rewrite H in Ha. by apply Ha.
  - intros l [Hpos Hmax]. apply varint_size_length_pos in Hpos as (last & H & Hlast).
    pose proof (varint_unpack_loop_defined l 0 0 128) as Hd. rewrite H in Hd.
    apply Hd; [lia|done|unfold in_word; lia].
Qed.

(** The buffer overloads store exactly what the string overloads return. *)
Lemma fixint_pack_to_loop_spec sz c n pre buf :
  length pre = c →
  fixint_pack_to_loop sz c n (pre ++ buf) =
    Some (fixint_max_length sz, fixint_pack_loop c n [] ++ buf).
Proof.
  revert n pre buf. induction c as [|c IH]; intros n pre buf Hpre; cbn [fixint_pack_to_loop fixint_pack_loop].
  - by destruct pre.
  - destruct pre as [|b pre' _] using rev_ind; [done|].
    rewrite length_app in Hpre. simpl in Hpre.
    rewrite decide_True by (rewrite !length_app; simpl; lia).
    rewrite <-(assoc_L (++)), insert_app_r_alt by lia.
    replace (c - length pre')%nat with 0%nat by lia. cbn [app insert list_insert].
    rewrite IH by lia. f_equal. f_equal.
    by rewrite (fixint_pack_loop_app c _ [_]), <-(assoc_L (++)).
Qed.

Lemma varint_pack_to_loop_spec f n bs pre buf :
  varint_pack_loop f n = Some bs → (length bs ≤ length buf)%nat →
  varint_pack_to_loop f n (length pre) (pre ++ buf) =
    Some (length pre + length bs, pre ++ bs ++ drop (length bs) buf)%nat.
Proof.
  revert n bs pre buf. induction f as [|f IH]; intros n bs pre buf H Hlen; [done|].
  cbn [varint_pack_loop varint_pack_to_loop] in *.
  assert (∃ b buf', buf = b :: buf') as (b & buf' & ->).
  { destruct buf; [|eauto]. assert (0 < length bs)%nat; [|simpl in Hlen; lia].
    destruct (127 <? n); [|injection H as <-; simpl; lia].
    apply fmap_Some in H as (bs'&_&->). simpl. lia. }
  rewrite decide_True by (rewrite length_app; simpl; lia).
  rewrite !insert_app_r_alt, Nat.sub_diag by lia. cbn [insert list_insert].
  destruct (127 <? n).
  - apply fmap_Some in H as (bs' & H & ->).
    specialize (IH _ bs' (pre ++ [Z.lor (Z.land n 127) 128]) buf' H).
    rewrite length_app in IH. simpl in IH, Hlen.
    rewrite <-!(assoc_L (++)), Nat.add_1_r in IH. cbn [app] in IH.
    rewrite IH by lia. simpl. f_equal. f_equal. lia.
  - injection H as <-. simpl. f_equal. f_equal. lia.
Qed.

Lemma varint_packed_length_loop_pack f n bs k :
  varint_pack_loop f n = Some bs → 0 < n →
  varint_packed_length_loop (S f) n k = Some (k + blen bs).
Proof.
  revert n bs k. induction f as [|f IH]; intros n bs k H Hn; [done|].
  cbn [varint_pack_loop] in H. remember (S f) as g. cbn [varint_packed_length_loop].
  destruct (Z.eqb_spec n 0) as [|_]; [lia|].
  rewrite Z.shiftr_div_pow2 by lia. change (2 ^ 7) with 128.
  destruct (127 <? n) eqn:E; bool_props.
  - apply fmap_Some in H as (bs' & H & ->).
    rewrite Z.shiftr_div_pow2 in H by lia. change (2 ^ 7) with 128 in H.
    subst g. rewrite (IH _ _ (k + 1) H); [|apply Z.div_str_pos; lia].
    f_equal. unfold blen. simpl. lia.
  - injection H as <-. subst g. rewrite Z.div_small by lia. simpl. done.
Qed.

(** ** Properties *)

(** The varint prefix of any [size_t] is between one and
    [max_length] = 10 bytes, [size_length] finds exactly its end whatever bytes
    follow, [unpack] reads the number back, and no proper prefix of it is ever
    taken for a complete length. *)
Theorem varint_roundtrip n r :
  in_word 64 n →
  let p := varint_pack 8 n in
  0 < blen p ≤ varint_max_length 8 ∧
  varint_size_length (p ++ r) = blen p ∧
  varint_unpack 8 (p ++ r) = Some n ∧
  (∀ k, (k < length p)%nat → varint_size_length (take k p) = 0).
Proof.
  intros Hn p. unfold p. split_and!.
  - by apply (sp_pack_length (P := varint_policy)).
  - by apply (sp_pack_length (P := varint_policy)).
  - by apply (sp_size_length_pack (P := varint_policy)).
  - by apply (sp_unpack_pack (P := varint_policy)).
  - intros k Hk. apply dec_stable. intros Hne.
    pose proof (sp_size_length_bound (P := varint_policy) (take k (varint_pack 8 n))) as Hb.
    pose proof (sp_size_length_app (P := varint_policy) (take k (varint_pack 8 n))
      (drop k (varint_pack 8 n))) as Ha.
    pose proof (sp_size_length_pack (P := varint_policy) n [] Hn) as Hp.
    cbn [sp_size_length sp_pack varint_policy] in *. rewrite take_drop in Ha.
    rewrite app_nil_r in Hp. rewrite Hp in Ha. unfold blen in *.
    rewrite length_take in Hb. lia.
Qed.

Lemma varint_roundtrip_witness :
  in_word 64 300 ∧ varint_pack 8 300 = [172; 2] ∧
  varint_unpack 8 ([172; 2] ++ [255; 1]) = Some 300.
Proof.
  assert (H : in_word 64 300) by (unfold in_word; lia).
  split; [exact H|]. split; [reflexivity|].
  exact (proj1 (proj2 (proj2 (varint_roundtrip 300 [255; 1] H)))).
Defined.

(** [pack( size, buffer )] stores exactly the bytes
    [pack( size )] returns, in front of what the buffer held, and returns their
    number; [packed_length] is that number for every length but zero, whose
    prefix has one byte while [packed_length( 0 )] is 0. *)
Theorem varint_pack_overloads n buf :
  in_word 64 n → varint_max_length 8 ≤ blen buf →
  let p := varint_pack 8 n in
  varint_pack_to 8 n buf = Some (length p, p ++ drop (length p) buf) ∧
  varint_packed_length 8 n = Some (if n =? 0 then 0 else blen p) ∧
  (n = 0 → blen p = 1).
Proof.
  intros Hn Hbuf p. pose proof (varint_pack_some n Hn) as Hp.
  pose proof (sp_pack_length (P := varint_policy) n Hn) as Hl.
  cbn [sp_pack sp_max_length varint_policy] in Hl. split_and!.
  - apply (varint_pack_to_loop_spec 10 n _ [] buf Hp). unfold blen in *. lia.
  - unfold varint_packed_length. destruct (Z.eqb_spec n 0) as [->|Hz]; [done|].
    apply (varint_packed_length_loop_pack 10 n _ 0 Hp). destruct Hn. lia.
  - by intros ->.
Qed.

Lemma varint_pack_overloads_witness :
  varint_pack_to 8 300 (replicate 10 7) =
    Some (2%nat, [172; 2] ++ replicate 8 7).
Proof.
  exact (proj1 (varint_pack_overloads 300 (replicate 10 7)
    ltac:(unfold in_word; lia) ltac:(vm_compute; discriminate))).
Defined.

(** The fixed-width prefix is [sizeof] bytes, big-endian, and
    [unpack] reads every [size_t] back; the buffer overload stores the same
    bytes. *)
Theorem fixint_roundtrip n r buf :
  in_word 64 n → length buf = 8%nat →
  let p := fixint_pack 8 n in
  blen p = fixint_max_length 8 ∧ bytes_ok p ∧
  fixint_size_length 8 (p ++ r) = blen p ∧
  fixint_unpack 8 (p ++ r) = n ∧
  fixint_pack_to 8 n (buf ++ r) = Some (blen p, p ++ r).
Proof.
  intros Hn Hbuf p. unfold p, fixint_pack.
  assert (Hl : blen (fixint_pack_loop 8 n []) = fixint_max_length 8).
  { unfold blen. by rewrite fixint_pack_loop_length. }
  split_and!.
  - done.
  - by apply (sp_pack_bytes (P := fixint_policy)).
  - by apply (sp_size_length_pack (P := fixint_policy)).
  - pose proof (sp_unpack_pack (P := fixint_policy) n r Hn) as H. by injection H.
  - rewrite Hl. by apply fixint_pack_to_loop_spec.
Qed.

Lemma fixint_roundtrip_witness :
  fixint_unpack 8 ([0; 0; 0; 0; 0; 0; 1; 44] ++ [9]) = 300.
Proof.
  exact (proj1 (proj2 (proj2 (proj2 (fixint_roundtrip 300 [9] (replicate 8 0)
    ltac:(unfold in_word; lia) ltac:(reflexivity)))))).
Defined.
