(* ===== verification/DataQueue.v ===== *)
(** * DataQueue: framing messages into a byte stream and back

    [lib/vtrc/common/data-queue.cpp].  A [queue_base] holds the raw bytes, the
    queue of messages and the limit on a message's length.  The serializer turns
    the raw bytes into one packed message; the parser cuts complete messages off
    the front of the raw bytes.  Both are templates over the length-prefix policy
    ([SizePack]). *)

From S2P Require Import Prelude SizePack.

(** ** queue_base::impl *)

Record queue_base : Type := Queue {
  data_ : bytes;
  packed_ : list bytes;
  max_valid_length_ : Z
}.

Definition queue_base_new (max_valid_length : Z) : queue_base :=
  Queue [] [] max_valid_length.

Definition with_data (d : bytes) (q : queue_base) : queue_base :=
  Queue d (packed_ q) (max_valid_length_ q).
Definition with_packed (p : list bytes) (q : queue_base) : queue_base :=
  Queue (data_ q) p (max_valid_length_ q).

Definition append (d : bytes) : M queue_base unit :=
  modify (λ q, with_data (data_ q ++ d) q).

Definition data_size (q : queue_base) : Z := blen (data_ q).
Definition queue_size (q : queue_base) : Z := blen (packed_ q).
Definition plain_data (q : queue_base) : bytes := data_ q.
Definition messages (q : queue_base) : list bytes := packed_ q.

(** [grab_all( messages )]: the argument receives the queue, the queue is left
    empty; what the argument held is dropped with the temporary. *)
Definition grab_all (_ : list bytes) : M queue_base (list bytes) := λ q,
  (Ok (packed_ q), with_packed [] q).

(** [front]/[pop_front] of an empty deque are undefined. *)
Definition front : M queue_base bytes := λ q,
  match packed_ q with
  | [] => (Raise (EUndefined "front"), q)
  | m :: _ => (Ok m, q)
  end.
Definition pop_front : M queue_base unit := λ q,
  match packed_ q with
  | [] => (Raise (EUndefined "pop_front"), q)
  | _ :: ms => (Ok tt, with_packed ms q)
  end.

Definition get_maximum_length (q : queue_base) : Z := max_valid_length_ q.
Definition set_maximum_length (new_value : Z) : M queue_base unit :=
  modify (λ q, Queue (data_ q) (packed_ q) new_value).

(** ** serializer_impl and parser_impl *)

Section Queues.
Context {P : SizePolicy}.

Definition pack_size (size : Z) : bytes := sp_pack size.

Definition serializer_process : M queue_base unit := λ q,
  if get_maximum_length q <? data_size q then
    (Raise (ELength "Message is too long"), q)
  else
    let new_data := sp_pack (data_size q) ++ data_ q in
    (Ok tt, with_data [] (with_packed (packed_ q ++ [new_data]) q)).

(** [return &messages( ).back( )]: undefined when there is no message. *)
Definition serializer_process_one : M queue_base bytes :=
  serializer_process ;;;
  let* q := get in
  match list.last (packed_ q) with
  | Some m => ret m
  | None => raise (EUndefined "back")
  end.

(** The result is the message pushed, when one was complete.  [len + next] is
    computed in [size_t]; iterators advanced past the end, or crossing, are
    undefined. *)
Definition parser_process_one : M queue_base (option bytes) := λ q,
  let data := data_ q in
  let next := sp_size_length data in
  if 0 <? next then
    if sp_max_length <? next then
      (Raise (ELength "The serialized data is invalid"), q)
    else match sp_unpack data with
    | None => (Raise (EUndefined "shift"), q)
    | Some len =>
      if get_maximum_length q <? len then
        (Raise (ELength "Message is too long"), q)
      else if u64 (len + next) <=? data_size q then
        if u64 (len + next) <? next then (Raise (EUndefined "iterators"), q)
        else
          let n := Z.to_nat next in
          let e := Z.to_nat (u64 (len + next)) in
          let mess := drop n (take e data) in
          (Ok (Some mess),
           with_data (drop e data) (with_packed (packed_ q ++ [mess]) q))
      else (Ok None, q)
    end
  else (Ok None, q).

(** [while( process_one( ) );] *)
Fixpoint parser_process_loop (fuel : nat) : M queue_base unit :=
  match fuel with
  | O => raise (EUndefined "fuel")
  | S f =>
      let* r := parser_process_one in
      match r with
      | Some _ => parser_process_loop f
      | None => ret tt
      end
  end.

(** Every message takes at least one byte off the data. *)
Definition parser_process : M queue_base unit := λ q,
  parser_process_loop (S (length (data_ q))) q.
End Queues.

Definition varint_create_parser := queue_base_new.
Definition varint_create_serializer := queue_base_new.
Definition varint_pack_size : Z → bytes := pack_size (P := varint_policy).
Definition fixint_create_parser := queue_base_new.
Definition fixint_create_serializer := queue_base_new.
Definition fixint_pack_size : Z → bytes := pack_size (P := fixint_policy).

(** What a transport does with every block it reads. *)
Definition feed {P : SizePolicy} (d : bytes) : M queue_base unit :=
  append d ;;; parser_process.

Fixpoint feed_all {P : SizePolicy} (ds : list bytes) : M queue_base unit :=
  match ds with
  | [] => ret tt
  | d :: ds => feed d ;;; feed_all ds
  end.

(** ** Specification: the stream of frames *)

(** The frame of one message. *)
Definition frame {P : SizePolicy} (m : bytes) : bytes := sp_pack (blen m) ++ m.

(** No arithmetic of the parser wraps for this limit. *)
Definition limit_ok {P : SizePolicy} (q : queue_base) : Prop :=
  0 ≤ max_valid_length_ q ∧ max_valid_length_ q + sp_max_length < 2 ^ 64.

Section Lemmas.
Context {P : SizePolicy} {L : SizePolicyLaws P}.

(** One step of the parser, by what the front of the data is. *)
Inductive parse_front (max : Z) (d : bytes) : res (option (bytes * bytes)) → Prop :=
  | pf_partial_size :
      sp_size_length d = 0 → parse_front max d (Ok None)
  | pf_invalid :
      sp_max_length < sp_size_length d →
      parse_front max d (Raise (ELength "The serialized data is invalid"))
  | pf_too_long len :
      0 < sp_size_length d ≤ sp_max_length → sp_unpack d = Some len → max < len →
      parse_front max d (Raise (ELength "Message is too long"))
  | pf_partial len :
      0 < sp_size_length d ≤ sp_max_length → sp_unpack d = Some len →
      0 ≤ len ≤ max → blen d < len + sp_size_length d →
      parse_front max d (Ok None)
  | pf_message len p m r :
      sp_size_length d = blen p → 0 < blen p ≤ sp_max_length →
      sp_unpack d = Some len → 0 ≤ len ≤ max → d = p ++ m ++ r → blen m = len →
      parse_front max d (Ok (Some (m, r))).

Lemma parser_process_one_spec q :
  limit_ok q →
  ∃ o, parse_front (max_valid_length_ q) (data_ q) o ∧
    parser_process_one q =
    match o with
    | Ok None => (Ok None, q)
    | Ok (Some (m, r)) =>
        (Ok (Some m), with_data r (with_packed (packed_ q ++ [m]) q))
    | Raise e => (Raise e, q)
    end.
Proof.
  intros [Hm0 Hm]. unfold parser_process_one, get_maximum_length, data_size.
  set (d := data_ q). pose proof (sp_size_length_bound d) as Hb.
  destruct (0 <? sp_size_length d) eqn:E0; bool_props.
  2:{ exists (Ok None). split; [constructor 1; lia|done]. }
  destruct (sp_max_length <? sp_size_length d) eqn:E1; bool_props.
  { eexists (Raise _). by split; [constructor 2|]. }
  destruct (sp_unpack_defined d) as (len & Hu & Hw); [lia|]. rewrite Hu.
  destruct (max_valid_length_ q <? len) eqn:E2; bool_props.
  { eexists (Raise _). split; [by econstructor 3|done]. }
  destruct Hw as [Hl0 _]. rewrite wrap_small by (unfold in_word; lia).
  destruct (_ <=? blen d) eqn:E3; bool_props.
  2:{ eexists (Ok None). split; [econstructor 4; [lia|done|lia|lia]|done]. }
  destruct (_ <? sp_size_length d) eqn:E4; bool_props; [lia|].
  set (n := Z.to_nat (sp_size_length d)). set (e := Z.to_nat (len + sp_size_length d)).
  exists (Ok (Some (drop n (take e d), drop e d))). split; [|done].
  assert (n ≤ e ≤ length d)%nat by (unfold blen, n, e in *; lia).
  apply (pf_message _ _ len (take n d)).
  - unfold blen. rewrite length_take. lia.
  - unfold blen. rewrite length_take. lia.
  - done.
  - lia.
  - rewrite (assoc_L (++)).
    replace (take n d) with (take n (take e d)) by (rewrite take_take; f_equal; lia).
    by rewrite !take_drop.
  - unfold blen. rewrite length_drop, length_take. lia.
Qed.

(** The front is decided by the bytes read so far: more bytes change nothing
    but an answer of [Ok None]. *)
Lemma parse_front_app max d x o :
  parse_front max d o →
  match o with
  | Ok None => True
  | Ok (Some (m, r)) => parse_front max (d ++ x) (Ok (Some (m, r ++ x)))
  | Raise e => parse_front max (d ++ x) (Raise e)
  end.
Proof.
  intros [H|H|len Hs Hu Hm|len Hs Hu Hm Hd|len p m r Hp Hs Hu Hm Hd Hl]; [done| | |done|].
  - constructor 2. pose proof sp_max_length_word. rewrite sp_size_length_app; lia.
  - econstructor 3; [rewrite sp_size_length_app; lia|rewrite sp_unpack_app; [done|lia]|done].
  - apply (pf_message _ _ len p); [rewrite sp_size_length_app; lia|done| |done| |done].
    + rewrite sp_unpack_app; [done|lia].
    + by rewrite Hd, <-!(assoc_L (++)).
Qed.

Lemma parse_front_fun max d o o' :
  parse_front max d o → parse_front max d o' → o = o'.
Proof.
  intros H H'. pose proof sp_max_length_word.
  assert (Hcancel : ∀ (p p' m m' r r' : bytes), p ++ m ++ r = p' ++ m' ++ r' →
    blen p = blen p' → blen m = blen m' → (m, r) = (m', r')).
  { intros p p' m m' r r' He Hp Hm. unfold blen in *.
    apply app_inj_1 in He as [_ He]; [|lia]. apply app_inj_1 in He as [-> ->]; [done|lia]. }
  assert (Hlen : ∀ (p m r : bytes), d = p ++ m ++ r → blen p + blen m ≤ blen d).
  { intros p m r ->. rewrite !blen_app. pose proof (blen_nonneg r). lia. }
  destruct H as [| |len ? Hu|len ? Hu|len p m r Hp ? Hu ? Hd Hl];
    destruct H' as [| |len' ? Hu'|len' ? Hu'|len' p' m' r' Hp' ? Hu' ? Hd' Hl'];
    try done; try lia; rewrite Hu in Hu'; injection Hu' as <-; try lia.
  - specialize (Hlen _ _ _ Hd'). lia.
  - specialize (Hlen _ _ _ Hd). lia.
  - do 2 f_equal. eapply Hcancel; [by rewrite <-Hd, <-Hd'|lia|lia].
Qed.

(** A frame at the front is the next message. *)
Lemma parse_front_frame max m r :
  blen m ≤ max → max < 2 ^ 64 → parse_front max (frame m ++ r) (Ok (Some (m, r))).
Proof.
  intros Hm Hmax. pose proof (blen_nonneg m).
  assert (Hw : in_word 64 (blen m)) by (unfold in_word; lia).
  unfold frame. rewrite <-(assoc_L (++)).
  apply (pf_message _ _ (blen m) (sp_pack (blen m))); [|..|done|done].
  - by apply sp_size_length_pack.
  - by apply sp_pack_length.
  - by apply sp_unpack_pack.
  - lia.
Qed.

(** *** The parser as a function of the data alone *)

Lemma parse_front_shorter max d m r :
  parse_front max d (Ok (Some (m, r))) → (length r < length d)%nat.
Proof.
  inversion 1; subst. rewrite !length_app. unfold blen in *. lia.
Qed.

(** The messages cut off the data, what stays, and how it ended. *)
Inductive parsed (max : Z) : bytes → list bytes → bytes → res unit → Prop :=
  | parsed_done d :
      parse_front max d (Ok None) → parsed max d [] d (Ok tt)
  | parsed_raise d e :
      parse_front max d (Raise e) → parsed max d [] d (Raise e)
  | parsed_message d m r ms d' o :
      parse_front max d (Ok (Some (m, r))) → parsed max r ms d' o →
      parsed max d (m :: ms) d' o.

Lemma parser_process_loop_spec fuel q :
  limit_ok q → (length (data_ q) < fuel)%nat →
  ∃ ms d' o, parsed (max_valid_length_ q) (data_ q) ms d' o ∧
    parser_process_loop fuel q = (o, with_data d' (with_packed (packed_ q ++ ms) q)).
Proof.
  revert q. induction fuel as [|fuel IH]; intros q Hq Hf; [lia|]. cbn [parser_process_loop].
  destruct (parser_process_one_spec q Hq) as (o & Hfront & Hone). unfold bind. rewrite Hone.
  destruct o as [[[m r]|]|e].
  - pose proof (parse_front_shorter _ _ _ _ Hfront).
    set (q' := with_data r (with_packed (packed_ q ++ [m]) q)).
    destruct (IH q') as (ms & d' & o & Hp & Hl); [done|simpl; lia|].
    exists (m :: ms), d', o. split; [by eapply parsed_message|].
    rewrite Hl. unfold q', with_data, with_packed. simpl. by rewrite <-(assoc_L (++)).
  - exists [], (data_ q), (Ok tt). split; [by constructor|].
    destruct q. unfold with_data, with_packed. simpl. by rewrite app_nil_r.
  - exists [], (data_ q), (Raise e). split; [by constructor|].
    destruct q. unfold with_data, with_packed. simpl. by rewrite app_nil_r.
Qed.

Lemma parser_process_spec q :
  limit_ok q →
  ∃ ms d' o, parsed (max_valid_length_ q) (data_ q) ms d' o ∧
    parser_process q = (o, with_data d' (with_packed (packed_ q ++ ms) q)).
Proof. intros Hq. apply parser_process_loop_spec; [done|lia]. Qed.

Lemma parsed_fun max d ms d1 o ms' d1' o' :
  parsed max d ms d1 o → parsed max d ms' d1' o' → ms = ms' ∧ d1 = d1' ∧ o = o'.
Proof.
  intros H. revert ms' d1' o'.
  induction H as [d H|d e H|d m r ms d' o H _ IH]; intros ms' d1' o' H';
    inversion H' as [? Hf|? ? Hf|? ? ? ? ? ? Hf ?]; subst;
    pose proof (parse_front_fun _ _ _ _ H Hf); simplify_eq; try done.
  by destruct (IH _ _ _ ltac:(eassumption)) as (-> & -> & ->).
Qed.

(** Bytes that arrive later only continue the parse. *)
Lemma parsed_app_ok max d x ms d1 ms' d2 o :
  parsed max d ms d1 (Ok tt) → parsed max (d1 ++ x) ms' d2 o →
  parsed max (d ++ x) (ms ++ ms') d2 o.
Proof.
  remember (Ok tt : res unit) as o1 eqn:Ho. intros H. revert Ho.
  induction H as [d H|d e H|d m r ms d1 o1 H _ IH]; intros ? Hx; [done|done|].
  cbn [app]. eapply parsed_message; [by apply (parse_front_app _ _ x) in H|by apply IH].
Qed.

Lemma parsed_app_raise max d x ms d1 e :
  parsed max d ms d1 (Raise e) → parsed max (d ++ x) ms (d1 ++ x) (Raise e).
Proof.
  remember (Raise e : res unit) as o1 eqn:Ho. intros H. revert Ho.
  induction H as [d H|d e' H|d m r ms d1 o1 H _ IH]; intros Ho; [done| |].
  - simplify_eq. constructor. by apply (parse_front_app _ _ x) in H.
  - eapply parsed_message; [by apply (parse_front_app _ _ x) in H|by apply IH].
Qed.

Lemma parsed_no_undefined max d ms d' o w : parsed max d ms d' o → o ≠ Raise (EUndefined w).
Proof.
  induction 1 as [d H|d e H|d m r ms d1 o1 H _ IH]; [done| |done].
  inversion H; subst; congruence.
Qed.

Lemma parsed_frames max ms r :
  Forall (λ m, blen m ≤ max) ms → max < 2 ^ 64 → parse_front max r (Ok None) →
  parsed max (concat (frame <$> ms) ++ r) ms r (Ok tt).
Proof.
  intros Hms Hmax Hr. induction Hms as [|m ms Hm Hms IH]; [by constructor|].
  cbn [fmap list_fmap concat]. rewrite <-(assoc_L (++)).
  eapply parsed_message; [by apply parse_front_frame|done].
Qed.
End Lemmas.

Section FeedLemmas.
Context {P : SizePolicy} {L : SizePolicyLaws P}.

Lemma feed_spec d q :
  limit_ok q →
  ∃ ms d' o, parsed (max_valid_length_ q) (data_ q ++ d) ms d' o ∧
    feed d q = (o, with_data d' (with_packed (packed_ q ++ ms) q)).
Proof.
  intros Hq. unfold feed, append. erewrite bind_ok by done.
  destruct (parser_process_spec (with_data (data_ q ++ d) q)) as (ms & d' & o & Hp & He);
    [done|]. by exists ms, d', o.
Qed.

Lemma feed_all_spec d ds q :
  limit_ok q →
  ∃ ms d1 d2 o, parsed (max_valid_length_ q) (data_ q ++ concat (d :: ds)) ms d1 o ∧
    feed_all (d :: ds) q = (o, with_data d2 (with_packed (packed_ q ++ ms) q)) ∧
    (o = Ok tt → d2 = d1).
Proof.
  revert d q. induction ds as [|d' ds IH]; intros d q Hq;
    destruct (feed_spec d q Hq) as (ms & d1 & o & Hp & He).
  - cbn [feed_all concat]. rewrite app_nil_r. exists ms, d1, d1, o. split_and!; [done| |done].
    unfold bind. rewrite He. by destruct o as [[]|].
  - change (feed_all (d :: d' :: ds)) with (feed d ;;; feed_all (d' :: ds)).
    change (concat (d :: d' :: ds)) with (d ++ concat (d' :: ds)).
    destruct o as [[]|e].
    + rewrite (bind_ok _ _ _ _ _ He).
      destruct (IH d' (with_data d1 (with_packed (packed_ q ++ ms) q)))
        as (ms2 & d2 & d3 & o2 & Hp2 & He2 & Ho2); [done|].
      exists (ms ++ ms2), d2, d3, o2. split_and!; [|rewrite He2|done].
      * rewrite (assoc_L (++)). by eapply parsed_app_ok.
      * unfold with_data, with_packed. simpl. by rewrite (assoc_L (++)).
    + rewrite (bind_raise _ _ _ _ _ He).
      exists ms, (d1 ++ concat (d' :: ds)), d1, (Raise e). split_and!; [|done|done].
      rewrite (assoc_L (++)). by eapply parsed_app_raise.
Qed.
End FeedLemmas.

(** ** The two ends together *)

(** Queue every message through the serializer. *)
Fixpoint serialize_all {P : SizePolicy} (ms : list bytes) : M queue_base unit :=
  match ms with
  | [] => ret tt
  | m :: ms => append m ;;; serializer_process ;;; serialize_all ms
  end.

Section SerializeLemmas.
Context {P : SizePolicy}.

Lemma serializer_process_ok q :
  blen (data_ q) ≤ max_valid_length_ q →
  serializer_process q =
    (Ok tt, Queue [] (packed_ q ++ [frame (data_ q)]) (max_valid_length_ q)).
Proof.
  intros H. unfold serializer_process, get_maximum_length, data_size.
  destruct (_ <? _) eqn:E; bool_props; [lia|done].
Qed.

Lemma serialize_all_ok ms q :
  data_ q = [] → Forall (λ m, blen m ≤ max_valid_length_ q) ms →
  serialize_all ms q =
    (Ok tt, Queue [] (packed_ q ++ (frame <$> ms)) (max_valid_length_ q)).
Proof.
  intros Hq Hms. revert q Hq Hms. induction ms as [|m ms IH]; intros q Hq Hms.
  - destruct q. simpl in *. by rewrite app_nil_r, Hq.
  - inversion Hms; subst. cbn [serialize_all]. unfold append.
    erewrite bind_ok by done. rewrite Hq. cbn [app].
    erewrite bind_ok by by apply serializer_process_ok.
    rewrite IH by done. simpl. by rewrite <-(assoc_L (++)).
Qed.
End SerializeLemmas.

(** ** Properties *)

(** C30 (termination).  On any bytes, the parser's loop ends after at
    most one round per byte, no arithmetic wraps, no iterator leaves the data
    and no shift is out of range: the only outcomes are a normal return and the
    two [length_error]s, and what it consumed is a prefix of the data in which
    every message is at most the limit. *)
Theorem parser_process_total `{L : SizePolicyLaws} q :
  limit_ok q →
  ∃ o ms d, parser_process q =
      (o, Queue d (packed_ q ++ ms) (max_valid_length_ q)) ∧
    (o = Ok tt ∨ o = Raise (ELength "Message is too long")
     ∨ o = Raise (ELength "The serialized data is invalid")) ∧
    (∃ consumed, data_ q = consumed ++ d ∧ blen ms ≤ blen consumed) ∧
    Forall (λ m, blen m ≤ max_valid_length_ q) ms.
Proof.
  intros Hq. destruct (parser_process_spec q Hq) as (ms & d & o & Hp & He).
  exists o, ms, d. split; [by rewrite He|]. clear He Hq.
  induction Hp as [d H|d e H|d m r ms d' o H Hp (Ho & (c & Hc & Hl) & Hms)].
  - split_and!; [by left| |done]. exists []. split; [done|unfold blen; simpl; lia].
  - split_and!; [inversion H; naive_solver| |done].
    exists []. split; [done|unfold blen; simpl; lia].
  - assert (∃ p, d = p ++ m ++ r ∧ 0 < blen p ∧ blen m ≤ max_valid_length_ q)
      as (p & -> & Hpos & Hm) by (inversion H; eauto with lia).
    split; [done|]. split; [|by constructor].
    exists (p ++ m ++ c). rewrite Hc, <-!(assoc_L (++)). split; [done|].
    rewrite !blen_app. pose proof (blen_nonneg m). unfold blen in *. simpl. lia.
Qed.

Lemma parser_process_total_witness :
  fst (parser_process (P := varint_policy) (Queue [2; 65; 66; 1] [] 16)) = Ok tt ∧
  ∃ o ms d, parser_process (P := varint_policy) (Queue [2; 65; 66; 1] [] 16) =
      (o, Queue d ([] ++ ms) 16).
Proof.
  split; [reflexivity|].
  destruct (parser_process_total (P := varint_policy) (Queue [2; 65; 66; 1] [] 16))
    as (o & ms & d & He & _).
  { split; vm_compute; [discriminate|reflexivity]. }
  exists o, ms, d. exact He.
Defined.

(** C29 (equivalence).  The parser does not depend on how the stream is cut into
    reads: feeding it chunk by chunk delivers the same messages, and fails with
    the same error after the same messages, as feeding the whole at once. *)
Theorem feed_chunking `{L : SizePolicyLaws} d ds q :
  limit_ok q →
  let '(r1, q1) := feed_all (d :: ds) q in
  let '(r2, q2) := feed (concat (d :: ds)) q in
  r1 = r2 ∧ packed_ q1 = packed_ q2 ∧ max_valid_length_ q1 = max_valid_length_ q2 ∧
  (r1 = Ok tt → data_ q1 = data_ q2).
Proof.
  intros Hq. destruct (feed_all_spec d ds q Hq) as (ms & d1 & d2 & o & Hp & He & Ho).
  destruct (feed_spec (concat (d :: ds)) q Hq) as (ms' & d1' & o' & Hp' & He').
  rewrite He, He'. destruct (parsed_fun _ _ _ _ _ _ _ _ Hp Hp') as (<- & <- & <-).
  by split_and!.
Qed.

Lemma feed_chunking_witness :
  fst (feed_all (P := varint_policy) [[2]; [65]; [66; 1]] (Queue [] [] 16)) =
  fst (feed (P := varint_policy) [2; 65; 66; 1] (Queue [] [] 16)).
Proof.
  assert (Hq : limit_ok (P := varint_policy) (Queue [] [] 16)).
  { split; vm_compute; [discriminate|reflexivity]. }
  exact (proj1 (feed_chunking (P := varint_policy) [2] [[65]; [66; 1]] (Queue [] [] 16) Hq)).
Defined.

(** C4 (roundtrip).  Messages no longer than the limits, queued through the
    serializer, are delivered by the parser at the other end in order, complete
    and alone, however the transport cuts the bytes; nothing is left over. *)
Theorem stream_delivery `{L : SizePolicyLaws} ms d ds qs qp :
  limit_ok qp → data_ qs = [] → packed_ qs = [] → data_ qp = [] →
  max_valid_length_ qs ≤ max_valid_length_ qp →
  Forall (λ m, blen m ≤ max_valid_length_ qs) ms →
  ∃ qs', serialize_all ms qs = (Ok tt, qs') ∧
    (concat (packed_ qs') = concat (d :: ds) →
     feed_all (d :: ds) qp =
       (Ok tt, Queue [] (packed_ qp ++ ms) (max_valid_length_ qp))).
Proof.
  intros Hq Hd Hp Hd' Hmax Hms.
  eexists. split; [by apply serialize_all_ok|]. rewrite Hp. cbn [app packed_]. intros Heq.
  destruct (feed_all_spec d ds qp Hq) as (ms' & d1 & d2 & o & Hpa & He & Ho).
  rewrite Hd' in Hpa. cbn [app] in Hpa. rewrite <-Heq, <-(app_nil_r (concat _)) in Hpa.
  destruct Hq as [Hq0 Hq]. pose proof sp_max_length_word.
  assert (Hf : parsed (max_valid_length_ qp) (concat (frame <$> ms) ++ []) ms [] (Ok tt)).
  { apply parsed_frames; [|lia|].
    - eapply Forall_impl; [done|]. simpl. intros. lia.
    - constructor. pose proof (sp_size_length_bound []). unfold blen in *. simpl in *. lia. }
  destruct (parsed_fun _ _ _ _ _ _ _ _ Hpa Hf) as (-> & -> & ->).
  rewrite He, Ho by done. done.
Qed.

Lemma stream_delivery_witness :
  feed_all (P := varint_policy) [[2; 65]; [66; 0; 1]; [67]] (Queue [] [] 16) =
    (Ok tt, Queue [] [[65; 66]; []; [67]] 16).
Proof.
  destruct (stream_delivery (P := varint_policy) [[65; 66]; []; [67]]
    [2; 65] [[66; 0; 1]; [67]] (Queue [] [] 16) (Queue [] [] 16)) as (qs & Hs & Hf).
  - split; vm_compute; [discriminate|reflexivity].
  - reflexivity.
  - reflexivity.
  - reflexivity.
  - simpl; lia.
  - repeat constructor; vm_compute; discriminate.
  - vm_compute in Hs. injection Hs as <-. apply Hf. reflexivity.
Defined.

(**  A length prefix that announces more than the limit is refused
    as soon as it is complete, before any byte of the body; the data stays in
    place, so that every later read is refused too. *)
Theorem oversize_refused `{L : SizePolicyLaws} n body q :
  limit_ok q → in_word 64 n → max_valid_length_ q < n →
  data_ q = sp_pack n ++ body →
  parser_process q = (Raise (ELength "Message is too long"), q) ∧
  ∀ more, feed more q =
    (Raise (ELength "Message is too long"), with_data (data_ q ++ more) q).
Proof.
  intros Hq Hn Hbig Hd.
  assert (Hf : ∀ more q', limit_ok q' → max_valid_length_ q' = max_valid_length_ q →
    data_ q' = sp_pack n ++ more →
    parser_process q' = (Raise (ELength "Message is too long"), q')).
  { intros more q' Hq' Hmax Hd'.
    destruct (parser_process_spec q' Hq') as (ms & d & o & Hp & He).
    assert (Hp' : parsed (max_valid_length_ q') (data_ q') [] (data_ q')
      (Raise (ELength "Message is too long"))).
    { constructor. rewrite Hd'. apply (pf_too_long _ _ n);
        [rewrite sp_size_length_pack by done; by apply sp_pack_length
        |by apply sp_unpack_pack|lia]. }
    destruct (parsed_fun _ _ _ _ _ _ _ _ Hp Hp') as (-> & -> & ->).
    rewrite He. destruct q'. unfold with_data, with_packed. simpl. by rewrite app_nil_r. }
  split; [by eapply Hf|]. intros more. unfold feed, append. erewrite bind_ok by done.
  rewrite (Hf (body ++ more)); [done|done|done|].
  simpl. by rewrite Hd, <-(assoc_L (++)).
Qed.

Lemma oversize_refused_witness :
  parser_process (P := varint_policy) (Queue [17] [] 16) =
    (Raise (ELength "Message is too long"), Queue [17] [] 16).
Proof.
  refine (proj1 (oversize_refused (P := varint_policy) 17 [] (Queue [17] [] 16) _ _ _ _)).
  - split; vm_compute; [discriminate|reflexivity].
  - unfold in_word; lia.
  - reflexivity.
  - reflexivity.
Defined.

(** Between reads a parser with fixed-width prefixes never holds
    more than one incomplete message.  With varint prefixes there is no such
    bound: bytes whose top bit is set are an unfinished prefix however many
    there are, the check of the prefix's length runs only on a finished one, and
    all of them are kept. *)
Theorem parser_buffering :
  (∀ q q', limit_ok (P := fixint_policy) q →
     parser_process (P := fixint_policy) q = (Ok tt, q') →
     blen (data_ q') < fixint_max_length 8 + max_valid_length_ q) ∧
  (∀ q d, data_ q = [] → Forall (λ b, 128 ≤ b < 256) d →
     feed (P := varint_policy) d q = (Ok tt, with_data d q)).
Proof.
  split.
  - intros q q' Hq H. destruct (parser_process_spec q Hq) as (ms & d & o & Hp & He).
    rewrite He in H. injection H as -> <-. cbn [data_ with_data]. clear He.
    remember (Ok tt : res unit) as o eqn:Ho. destruct Hq as [Hmax _].
    induction Hp as [d H|d e H|d m r ms d' o H Hp IH]; [|done|by apply IH].
    inversion H as [Hs| | |len Hs Hu Hl Hd|].
    + cbn [sp_size_length fixint_policy] in Hs. unfold fixint_size_length in Hs.
      destruct (_ <? _) eqn:E; bool_props; [lia|]. unfold fixint_max_length in *. lia.
    + cbn [sp_size_length sp_max_length fixint_policy] in Hs, Hd.
      unfold fixint_size_length, fixint_max_length in *.
      destruct (_ <? _) eqn:E; bool_props; lia.
  - intros q d Hq Hd.
    assert (Hs : ∀ len prev, Z.land prev 128 ≠ 0 →
      Z.land (snd (varint_size_length_loop d len prev)) 128 ≠ 0).
    { clear Hq. induction Hd as [|b d Hb Hd IH]; intros len prev Hprev; [done|].
      cbn [varint_size_length_loop]. destruct (Z.eqb_spec (Z.land prev 128) 0); [done|].
      apply IH. rewrite (wrap_small 8) by (unfold in_word; lia).
      replace b with ((b - 128) + 128) by lia. rewrite land_128_high by lia. done. }
    unfold feed, append. erewrite bind_ok by done. rewrite Hq. cbn [app].
    unfold parser_process. cbn [parser_process_loop]. unfold parser_process_one, bind.
    cbn [data_ with_data sp_size_length varint_policy]. unfold varint_size_length.
    specialize (Hs 0 128). destruct (varint_size_length_loop d 0 128) as [len last].
    destruct (Z.eqb_spec (Z.land last 128) 0); [by destruct Hs|done].
Qed.

Lemma parser_buffering_witness :
  feed (P := varint_policy) (replicate 40 128) (Queue [] [] 16) =
    (Ok tt, Queue (replicate 40 128) [] 16).
Proof.
  apply (proj2 parser_buffering (Queue [] [] 16)); [reflexivity|].
  apply Forall_replicate. lia.
Defined.
