(* ===== verification/Sha2.v ===== *)
(** * Sha2: the SHA-256 of the message digests

    [lib/vtrc/common/hash/sha2.cimpl], compiled without
    [SHA2_UNROLL_TRANSFORM] on a little-endian machine: the context, the
    in-place compression function with its rolling 16-word schedule kept in the
    context's own buffer, and the incremental [Init]/[Update]/[Final]. *)

From S2P Require Import Prelude.

(** ** Words *)

Definition R (b x : Z) : Z := Z.shiftr x b.
Definition S32 (b x : Z) : Z := Z.lor (Z.shiftr x b) (u32 (Z.shiftl x (32 - b))).
Definition not32 (x : Z) : Z := Z.lxor x (2 ^ 32 - 1).
Definition Ch (x y z : Z) : Z := Z.lxor (Z.land x y) (Z.land (not32 x) z).
Definition Maj (x y z : Z) : Z :=
  Z.lxor (Z.lxor (Z.land x y) (Z.land x z)) (Z.land y z).
Definition Sigma0_256 (x : Z) : Z := Z.lxor (Z.lxor (S32 2 x) (S32 13 x)) (S32 22 x).
Definition Sigma1_256 (x : Z) : Z := Z.lxor (Z.lxor (S32 6 x) (S32 11 x)) (S32 25 x).
Definition sigma0_256 (x : Z) : Z := Z.lxor (Z.lxor (S32 7 x) (S32 18 x)) (R 3 x).
Definition sigma1_256 (x : Z) : Z := Z.lxor (Z.lxor (S32 17 x) (S32 19 x)) (R 10 x).

Definition REVERSE32 (w : Z) : Z :=
  let tmp := Z.lor (Z.shiftr w 16) (u32 (Z.shiftl w 16)) in
  Z.lor (Z.shiftr (Z.land tmp 0xff00ff00) 8) (u32 (Z.shiftl (Z.land tmp 0x00ff00ff) 8)).

Definition REVERSE64 (w : Z) : Z :=
  let tmp := Z.lor (Z.shiftr w 32) (u64 (Z.shiftl w 32)) in
  let tmp := Z.lor (Z.shiftr (Z.land tmp 0xff00ff00ff00ff00) 8)
                   (u64 (Z.shiftl (Z.land tmp 0x00ff00ff00ff00ff) 8)) in
  Z.lor (Z.shiftr (Z.land tmp 0xffff0000ffff0000) 16)
        (u64 (Z.shiftl (Z.land tmp 0x0000ffff0000ffff) 16)).

(** Words and the bytes that hold them in memory, least significant first. *)
Fixpoint le_bytes (n : nat) (w : Z) : bytes :=
  match n with O => [] | S n => w mod 256 :: le_bytes n (Z.shiftr w 8) end.
Fixpoint le_word (l : bytes) : Z :=
  match l with [] => 0 | b :: l => b + 256 * le_word l end.

(** The bytes of memory read as 32-bit words. *)
Fixpoint words (n : nat) (l : bytes) : list Z :=
  match n with O => [] | S n => le_word (take 4 l) :: words n (drop 4 l) end.

(** Row by row as in the source. *)
Definition K256 : list Z := concat [
  [0x428a2f98; 0x71374491; 0xb5c0fbcf; 0xe9b5dba5];
  [0x3956c25b; 0x59f111f1; 0x923f82a4; 0xab1c5ed5];
  [0xd807aa98; 0x12835b01; 0x243185be; 0x550c7dc3];
  [0x72be5d74; 0x80deb1fe; 0x9bdc06a7; 0xc19bf174];
  [0xe49b69c1; 0xefbe4786; 0x0fc19dc6; 0x240ca1cc];
  [0x2de92c6f; 0x4a7484aa; 0x5cb0a9dc; 0x76f988da];
  [0x983e5152; 0xa831c66d; 0xb00327c8; 0xbf597fc7];
  [0xc6e00bf3; 0xd5a79147; 0x06ca6351; 0x14292967];
  [0x27b70a85; 0x2e1b2138; 0x4d2c6dfc; 0x53380d13];
  [0x650a7354; 0x766a0abb; 0x81c2c92e; 0x92722c85];
  [0xa2bfe8a1; 0xa81a664b; 0xc24b8b70; 0xc76c51a3];
  [0xd192e819; 0xd6990624; 0xf40e3585; 0x106aa070];
  [0x19a4c116; 0x1e376c08; 0x2748774c; 0x34b0bcb5];
  [0x391c0cb3; 0x4ed8aa4a; 0x5b9cca4f; 0x682e6ff3];
  [0x748f82ee; 0x78a5636f; 0x84c87814; 0x8cc70208];
  [0x90befffa; 0xa4506ceb; 0xbef9a3f7; 0xc67178f2] ].

Definition sha256_initial_hash_value : list Z := [
  0x6a09e667; 0xbb67ae85; 0x3c6ef372; 0xa54ff53a;
  0x510e527f; 0x9b05688c; 0x1f83d9ab; 0x5be0cd19 ].

Definition SHA256i_BLOCK_LENGTH : Z := 64.
Definition SHA256i_DIGEST_LENGTH : Z := 32.
Definition SHA256_SHORT_BLOCK_LENGTH : Z := SHA256i_BLOCK_LENGTH - 8.

(** ** The context *)

Record SHA256i_CTX : Type := Ctx {
  state : list Z;
  bitcount : Z;
  buffer : bytes
}.

Definition SHA256i_Init : SHA256i_CTX :=
  Ctx sha256_initial_hash_value 0 (replicate 64 0).

(** The registers a..h. *)
Definition regs : Type := Z * Z * Z * Z * Z * Z * Z * Z.

Definition nthZ (l : list Z) (i : Z) : Z := default 0 (l !! Z.to_nat i).

(** One round: [k] is [K256[j]], [w] the word of the schedule. *)
Definition sha256_round (r : regs) (k w : Z) : regs :=
  let '(a, b, c, d, e, f, g, h) := r in
  let T1 := u32 (h + Sigma1_256 e + Ch e f g + k + w) in
  let T2 := u32 (Sigma0_256 a + Maj a b c) in
  (u32 (T1 + T2), a, b, c, u32 (d + T1), e, f, g).

(** The first sixteen rounds load [W256[j]] from the data. *)
Fixpoint transform_load (n : nat) (j : Z) (data : list Z) (W : list Z) (r : regs) :
    list Z * regs :=
  match n, data with
  | S n, x :: data =>
      let w := REVERSE32 x in
      transform_load n (j + 1) data (<[Z.to_nat j := w]> W)
        (sha256_round r (nthZ K256 j) w)
  | _, _ => (W, r)
  end.

(** The other rounds extend the schedule in place. *)
Fixpoint transform_mix (n : nat) (j : Z) (W : list Z) (r : regs) : list Z * regs :=
  match n with
  | O => (W, r)
  | S n =>
      let s0 := sigma0_256 (nthZ W (Z.land (j + 1) 0x0f)) in
      let s1 := sigma1_256 (nthZ W (Z.land (j + 14) 0x0f)) in
      let w := u32 (nthZ W (Z.land j 0x0f) + (s1 + nthZ W (Z.land (j + 9) 0x0f) + s0)) in
      transform_mix n (j + 1) (<[Z.to_nat (Z.land j 0x0f) := w]> W)
        (sha256_round r (nthZ K256 j) w)
  end.

Definition load_regs (s : list Z) : regs :=
  (nthZ s 0, nthZ s 1, nthZ s 2, nthZ s 3, nthZ s 4, nthZ s 5, nthZ s 6, nthZ s 7).

Definition add_regs (s : list Z) (r : regs) : list Z :=
  let '(a, b, c, d, e, f, g, h) := r in
  zip_with (λ x y, u32 (x + y)) s [a; b; c; d; e; f; g; h].

(** [data] is a block of 64 bytes, possibly the context's own buffer: every word
    of it is read before the word of the schedule that replaces it is written.
    The buffer is left holding the schedule. *)
Definition SHA256i_Transform (context : SHA256i_CTX) (data : bytes) : SHA256i_CTX :=
  let '(W, r) := transform_load 16 0 (words 16 data) (words 16 (buffer context))
                   (load_regs (state context)) in
  let '(W, r) := transform_mix 48 16 W r in
  Ctx (add_regs (state context) r) (bitcount context) (concat (le_bytes 4 <$> W)).

(** [memcpy( &buffer[at], src, len )] *)
Definition buffer_copy (at_ : nat) (src : bytes) (buf : bytes) : bytes :=
  take at_ buf ++ src ++ drop (at_ + length src) buf.

(** [while( len >= BLOCK )], one turn per block of the data. *)
Fixpoint update_blocks (n : nat) (context : SHA256i_CTX) (data : bytes) :
    SHA256i_CTX * bytes :=
  match n with
  | O => (context, data)
  | S n =>
      if blen data <? SHA256i_BLOCK_LENGTH then (context, data)
      else
        let c := SHA256i_Transform context (take 64 data) in
        update_blocks n
          (Ctx (state c) (u64 (bitcount c + Z.shiftl SHA256i_BLOCK_LENGTH 3)) (buffer c))
          (drop 64 data)
  end.

(** The part of [Update] after the buffer was completed, or was empty. *)
Definition update_rest (context : SHA256i_CTX) (data : bytes) : SHA256i_CTX :=
  let '(c, rest) := update_blocks (length data) context data in
  if 0 <? blen rest then
    Ctx (state c) (u64 (bitcount c + Z.shiftl (blen rest) 3))
        (buffer_copy 0 rest (buffer c))
  else c.

Definition SHA256i_Update (context : SHA256i_CTX) (data : bytes) : SHA256i_CTX :=
  if blen data =? 0 then context
  else
    let usedspace := Z.shiftr (bitcount context) 3 mod SHA256i_BLOCK_LENGTH in
    if 0 <? usedspace then
      let freespace := SHA256i_BLOCK_LENGTH - usedspace in
      let used := Z.to_nat usedspace in
      if freespace <=? blen data then
        let n := Z.to_nat freespace in
        let b := buffer_copy used (take n data) (buffer context) in
        let c := Ctx (state context)
                   (u64 (bitcount context + Z.shiftl freespace 3)) b in
        update_rest (SHA256i_Transform c b) (drop n data)
      else
        Ctx (state context) (u64 (bitcount context + Z.shiftl (blen data) 3))
            (buffer_copy used data (buffer context))
    else update_rest context data.

(** The padding, the bit count in network order and the last transforms; the
    result is the digest. *)
Definition SHA256i_Final (context : SHA256i_CTX) : bytes :=
  let usedspace := Z.shiftr (bitcount context) 3 mod SHA256i_BLOCK_LENGTH in
  let context := Ctx (state context) (REVERSE64 (bitcount context)) (buffer context) in
  let context :=
    if 0 <? usedspace then
      let b := buffer_copy (Z.to_nat usedspace) [0x80] (buffer context) in
      let usedspace := usedspace + 1 in
      if usedspace <=? SHA256_SHORT_BLOCK_LENGTH then
        Ctx (state context) (bitcount context)
          (buffer_copy (Z.to_nat usedspace)
             (replicate (Z.to_nat (SHA256_SHORT_BLOCK_LENGTH - usedspace)) 0) b)
      else
        let b := if usedspace <? SHA256i_BLOCK_LENGTH then
                   buffer_copy (Z.to_nat usedspace)
                     (replicate (Z.to_nat (SHA256i_BLOCK_LENGTH - usedspace)) 0) b
                 else b in
        let c := SHA256i_Transform (Ctx (state context) (bitcount context) b) b in
        Ctx (state c) (bitcount c)
          (buffer_copy 0 (replicate (Z.to_nat SHA256_SHORT_BLOCK_LENGTH) 0) (buffer c))
    else
      Ctx (state context) (bitcount context)
        (buffer_copy 0 [0x80]
           (buffer_copy 0 (replicate (Z.to_nat SHA256_SHORT_BLOCK_LENGTH) 0)
              (buffer context))) in
  let b := buffer_copy (Z.to_nat SHA256_SHORT_BLOCK_LENGTH)
             (le_bytes 8 (bitcount context)) (buffer context) in
  let c := SHA256i_Transform (Ctx (state context) (bitcount context) b) b in
  concat ((λ w, le_bytes 4 (REVERSE32 w)) <$> state c).

(** [hasher_sha::get_data_hash] *)
Definition sha256 (data : bytes) : bytes :=
  SHA256i_Final (SHA256i_Update SHA256i_Init data).
