(* ===== verification/Sha512.v ===== *)
(** * Sha512: the digests of 64-bit words

    [lib/vtrc/common/hash/sha2.cimpl]: SHA-512 and SHA-384, which differ in the
    initial value and in how much of the state is the digest, and the helpers that
    write digests in hexadecimal.  Compiled as the file Sha2 says; the bit count is
    two words, the low one first. *)

From S2P Require Import Prelude Sha2.

(** ** Words *)

Definition S64 (b x : Z) : Z := Z.lor (Z.shiftr x b) (u64 (Z.shiftl x (64 - b))).
Definition not64 (x : Z) : Z := Z.lxor x (2 ^ 64 - 1).
(** [Ch] of 64-bit words. *)
Definition Ch64 (x y z : Z) : Z := Z.lxor (Z.land x y) (Z.land (not64 x) z).
Definition Sigma0_512 (x : Z) : Z := Z.lxor (Z.lxor (S64 28 x) (S64 34 x)) (S64 39 x).
Definition Sigma1_512 (x : Z) : Z := Z.lxor (Z.lxor (S64 14 x) (S64 18 x)) (S64 41 x).
Definition sigma0_512 (x : Z) : Z := Z.lxor (Z.lxor (S64 1 x) (S64 8 x)) (R 7 x).
Definition sigma1_512 (x : Z) : Z := Z.lxor (Z.lxor (S64 19 x) (S64 61 x)) (R 6 x).

(** A 128-bit number in two words: [w] is [(w[0], w[1])]. *)
Definition ADDINC128 (w : Z * Z) (n : Z) : Z * Z :=
  let n := u64 n in
  let w0 := u64 (w.1 + n) in
  (w0, if w0 <? n then u64 (w.2 + 1) else w.2).

(** The bytes of memory read as 64-bit words. *)
Fixpoint words64 (n : nat) (l : bytes) : list Z :=
  match n with O => [] | S n => le_word (take 8 l) :: words64 n (drop 8 l) end.

(** Row by row as in the source. *)
Definition K512 : list Z := concat [
  [0x428a2f98d728ae22; 0x7137449123ef65cd];
  [0xb5c0fbcfec4d3b2f; 0xe9b5dba58189dbbc];
  [0x3956c25bf348b538; 0x59f111f1b605d019];
  [0x923f82a4af194f9b; 0xab1c5ed5da6d8118];
  [0xd807aa98a3030242; 0x12835b0145706fbe];
  [0x243185be4ee4b28c; 0x550c7dc3d5ffb4e2];
  [0x72be5d74f27b896f; 0x80deb1fe3b1696b1];
  [0x9bdc06a725c71235; 0xc19bf174cf692694];
  [0xe49b69c19ef14ad2; 0xefbe4786384f25e3];
  [0x0fc19dc68b8cd5b5; 0x240ca1cc77ac9c65];
  [0x2de92c6f592b0275; 0x4a7484aa6ea6e483];
  [0x5cb0a9dcbd41fbd4; 0x76f988da831153b5];
  [0x983e5152ee66dfab; 0xa831c66d2db43210];
  [0xb00327c898fb213f; 0xbf597fc7beef0ee4];
  [0xc6e00bf33da88fc2; 0xd5a79147930aa725];
  [0x06ca6351e003826f; 0x142929670a0e6e70];
  [0x27b70a8546d22ffc; 0x2e1b21385c26c926];
  [0x4d2c6dfc5ac42aed; 0x53380d139d95b3df];
  [0x650a73548baf63de; 0x766a0abb3c77b2a8];
  [0x81c2c92e47edaee6; 0x92722c851482353b];
  [0xa2bfe8a14cf10364; 0xa81a664bbc423001];
  [0xc24b8b70d0f89791; 0xc76c51a30654be30];
  [0xd192e819d6ef5218; 0xd69906245565a910];
  [0xf40e35855771202a; 0x106aa07032bbd1b8];
  [0x19a4c116b8d2d0c8; 0x1e376c085141ab53];
  [0x2748774cdf8eeb99; 0x34b0bcb5e19b48a8];
  [0x391c0cb3c5c95a63; 0x4ed8aa4ae3418acb];
  [0x5b9cca4f7763e373; 0x682e6ff3d6b2b8a3];
  [0x748f82ee5defb2fc; 0x78a5636f43172f60];
  [0x84c87814a1f0ab72; 0x8cc702081a6439ec];
  [0x90befffa23631e28; 0xa4506cebde82bde9];
  [0xbef9a3f7b2c67915; 0xc67178f2e372532b];
  [0xca273eceea26619c; 0xd186b8c721c0c207];
  [0xeada7dd6cde0eb1e; 0xf57d4f7fee6ed178];
  [0x06f067aa72176fba; 0x0a637dc5a2c898a6];
  [0x113f9804bef90dae; 0x1b710b35131c471b];
  [0x28db77f523047d84; 0x32caab7b40c72493];
  [0x3c9ebe0a15c9bebc; 0x431d67c49c100d4c];
  [0x4cc5d4becb3e42b6; 0x597f299cfc657e2a];
  [0x5fcb6fab3ad6faec; 0x6c44198c4a475817] ].

Definition sha384_initial_hash_value : list Z := [
  0xcbbb9d5dc1059ed8; 0x629a292a367cd507;
  0x9159015a3070dd17; 0x152fecd8f70e5939;
  0x67332667ffc00b31; 0x8eb44a8768581511;
  0xdb0c2e0d64f98fa7; 0x47b5481dbefa4fa4 ].

Definition sha512_initial_hash_value : list Z := [
  0x6a09e667f3bcc908; 0xbb67ae8584caa73b;
  0x3c6ef372fe94f82b; 0xa54ff53a5f1d36f1;
  0x510e527fade682d1; 0x9b05688c2b3e6c1f;
  0x1f83d9abfb41bd6b; 0x5be0cd19137e2179 ].

Definition SHA512i_BLOCK_LENGTH : Z := 128.
Definition SHA512i_DIGEST_LENGTH : Z := 64.
Definition SHA384i_DIGEST_LENGTH : Z := 48.
Definition SHA512_SHORT_BLOCK_LENGTH : Z := SHA512i_BLOCK_LENGTH - 16.

(** ** The context *)

Record SHA512i_CTX : Type := Ctx512 {
  state512 : list Z;
  bitcount512 : Z * Z;
  buffer512 : bytes
}.

Definition SHA512i_Init : SHA512i_CTX :=
  Ctx512 sha512_initial_hash_value (0, 0) (replicate 128 0).
Definition SHA384i_Init : SHA512i_CTX :=
  Ctx512 sha384_initial_hash_value (0, 0) (replicate 128 0).

(** One round: [k] is [K512[j]], [w] the word of the schedule. *)
Definition sha512_round (r : regs) (k w : Z) : regs :=
  let '(a, b, c, d, e, f, g, h) := r in
  let T1 := u64 (h + Sigma1_512 e + Ch64 e f g + k + w) in
  let T2 := u64 (Sigma0_512 a + Maj a b c) in
  (u64 (T1 + T2), a, b, c, u64 (d + T1), e, f, g).

Fixpoint transform_load512 (n : nat) (j : Z) (data : list Z) (W : list Z) (r : regs) :
    list Z * regs :=
  match n, data with
  | S n, x :: data =>
      let w := REVERSE64 x in
      transform_load512 n (j + 1) data (<[Z.to_nat j := w]> W)
        (sha512_round r (nthZ K512 j) w)
  | _, _ => (W, r)
  end.

Fixpoint transform_mix512 (n : nat) (j : Z) (W : list Z) (r : regs) : list Z * regs :=
  match n with
  | O => (W, r)
  | S n =>
      let s0 := sigma0_512 (nthZ W (Z.land (j + 1) 0x0f)) in
      let s1 := sigma1_512 (nthZ W (Z.land (j + 14) 0x0f)) in
      let w := u64 (nthZ W (Z.land j 0x0f) + (s1 + nthZ W (Z.land (j + 9) 0x0f) + s0)) in
      transform_mix512 n (j + 1) (<[Z.to_nat (Z.land j 0x0f) := w]> W)
        (sha512_round r (nthZ K512 j) w)
  end.

Definition add_regs512 (s : list Z) (r : regs) : list Z :=
  let '(a, b, c, d, e, f, g, h) := r in
  zip_with (λ x y, u64 (x + y)) s [a; b; c; d; e; f; g; h].

Definition SHA512i_Transform (context : SHA512i_CTX) (data : bytes) : SHA512i_CTX :=
  let '(W, r) := transform_load512 16 0 (words64 16 data) (words64 16 (buffer512 context))
                   (load_regs (state512 context)) in
  let '(W, r) := transform_mix512 64 16 W r in
  Ctx512 (add_regs512 (state512 context) r) (bitcount512 context) (concat (le_bytes 8 <$> W)).

Fixpoint update_blocks512 (n : nat) (context : SHA512i_CTX) (data : bytes) :
    SHA512i_CTX * bytes :=
  match n with
  | O => (context, data)
  | S n =>
      if blen data <? SHA512i_BLOCK_LENGTH then (context, data)
      else
        let c := SHA512i_Transform context (take 128 data) in
        update_blocks512 n
          (Ctx512 (state512 c) (ADDINC128 (bitcount512 c) (Z.shiftl SHA512i_BLOCK_LENGTH 3)) (buffer512 c))
          (drop 128 data)
  end.

(** The part of [Update] after the buffer was completed, or was empty. *)
Definition update_rest512 (context : SHA512i_CTX) (data : bytes) : SHA512i_CTX :=
  let '(c, rest) := update_blocks512 (length data) context data in
  if 0 <? blen rest then
    Ctx512 (state512 c) (ADDINC128 (bitcount512 c) (Z.shiftl (blen rest) 3))
        (buffer_copy 0 rest (buffer512 c))
  else c.

Definition SHA512i_Update (context : SHA512i_CTX) (data : bytes) : SHA512i_CTX :=
  if blen data =? 0 then context
  else
    let usedspace := Z.shiftr (bitcount512 context).1 3 mod SHA512i_BLOCK_LENGTH in
    if 0 <? usedspace then
      let freespace := SHA512i_BLOCK_LENGTH - usedspace in
      let used := Z.to_nat usedspace in
      if freespace <=? blen data then
        let n := Z.to_nat freespace in
        let b := buffer_copy used (take n data) (buffer512 context) in
        let c := Ctx512 (state512 context)
                   (ADDINC128 (bitcount512 context) (Z.shiftl freespace 3)) b in
        update_rest512 (SHA512i_Transform c b) (drop n data)
      else
        Ctx512 (state512 context) (ADDINC128 (bitcount512 context) (Z.shiftl (blen data) 3))
            (buffer_copy used data (buffer512 context))
    else update_rest512 context data.
Definition SHA384i_Update := SHA512i_Update.

(** The padding, with the bit count in network order, and the last transforms. *)
Definition SHA512i_Last (context : SHA512i_CTX) : SHA512i_CTX :=
  let usedspace := Z.shiftr (bitcount512 context).1 3 mod SHA512i_BLOCK_LENGTH in
  let context := Ctx512 (state512 context)
                   (REVERSE64 (bitcount512 context).1, REVERSE64 (bitcount512 context).2) (buffer512 context) in
  let context :=
    if 0 <? usedspace then
      let b := buffer_copy (Z.to_nat usedspace) [0x80] (buffer512 context) in
      let usedspace := usedspace + 1 in
      if usedspace <=? SHA512_SHORT_BLOCK_LENGTH then
        Ctx512 (state512 context) (bitcount512 context)
          (buffer_copy (Z.to_nat usedspace)
             (replicate (Z.to_nat (SHA512_SHORT_BLOCK_LENGTH - usedspace)) 0) b)
      else
        let b := if usedspace <? SHA512i_BLOCK_LENGTH then
                   buffer_copy (Z.to_nat usedspace)
                     (replicate (Z.to_nat (SHA512i_BLOCK_LENGTH - usedspace)) 0) b
                 else b in
        let c := SHA512i_Transform (Ctx512 (state512 context) (bitcount512 context) b) b in
        Ctx512 (state512 c) (bitcount512 c)
          (buffer_copy 0 (replicate (Z.to_nat (SHA512i_BLOCK_LENGTH - 2)) 0) (buffer512 c))
    else
      Ctx512 (state512 context) (bitcount512 context)
        (buffer_copy 0 [0x80]
           (buffer_copy 0 (replicate (Z.to_nat SHA512_SHORT_BLOCK_LENGTH) 0)
              (buffer512 context))) in
  let b := buffer_copy (Z.to_nat SHA512_SHORT_BLOCK_LENGTH)
             (le_bytes 8 (bitcount512 context).2) (buffer512 context) in
  let b := buffer_copy (Z.to_nat (SHA512_SHORT_BLOCK_LENGTH + 8))
             (le_bytes 8 (bitcount512 context).1) b in
  SHA512i_Transform (Ctx512 (state512 context) (bitcount512 context) b) b.

Definition SHA512i_Final (context : SHA512i_CTX) : bytes :=
  concat ((λ w, le_bytes 8 (REVERSE64 w)) <$> state512 (SHA512i_Last context)).
(** Six of the eight words. *)
Definition SHA384i_Final (context : SHA512i_CTX) : bytes :=
  concat ((λ w, le_bytes 8 (REVERSE64 w)) <$> take 6 (state512 (SHA512i_Last context))).

(** [hasher_sha::get_data_hash] over the traits of the two. *)
Definition sha512 (data : bytes) : bytes := SHA512i_Final (SHA512i_Update SHA512i_Init data).
Definition sha384 (data : bytes) : bytes := SHA384i_Final (SHA384i_Update SHA384i_Init data).

(** ** Hexadecimal digests *)

Definition sha2_hex_digits : list Ascii.ascii := String.list_ascii_of_string "0123456789abcdef".
Definition hex_digit (n : Z) : Ascii.ascii := default Ascii.zero (sha2_hex_digits !! Z.to_nat n).
(** The loop of the three [End] functions. *)
Definition hex (digest : bytes) : string :=
  String.string_of_list_ascii
    (concat ((λ d, [hex_digit (Z.shiftr (Z.land d 0xf0) 4); hex_digit (Z.land d 0x0f)]) <$> digest)).
Definition SHA256i_End (context : SHA256i_CTX) : string := hex (SHA256i_Final context).
Definition SHA512i_End (context : SHA512i_CTX) : string := hex (SHA512i_Final context).
Definition SHA384i_End (context : SHA512i_CTX) : string := hex (SHA384i_Final context).
Definition SHA256i_Data (data : bytes) : string := SHA256i_End (SHA256i_Update SHA256i_Init data).
Definition SHA512i_Data (data : bytes) : string := SHA512i_End (SHA512i_Update SHA512i_Init data).
Definition SHA384i_Data (data : bytes) : string := SHA384i_End (SHA384i_Update SHA384i_Init data).

(** ** Published vectors: the message abc. *)

Example sha384_abc : SHA384i_Data [97; 98; 99] =
  "cb00753f45a35e8bb5a03d699ac65007272c32ab0eded1631a8b605a43ff5bed8086072ba1e7cc2358baeca134c825a7".
Proof. vm_compute. reflexivity. Qed.
Example sha512_abc : SHA512i_Data [97; 98; 99] =
  "ddaf35a193617abacc417349ae20413112e6fa4e89a97ea20a9eeee64b55d39a2192992a274fc1a836ba3c23a3feebbd454d4423643ce80e2a9ac94fa54ca49f".
Proof. vm_compute. reflexivity. Qed.
