(* ===== verification/Sha2Spec.v ===== *)
(** * Sha2Spec: the digests are those of the standard

    The Secure Hash Standard (FIPS 180-4) as a reference definition, for words of
    any width: padding, message schedule, compression.  Its constants are
    computed from the first primes, as the standard derives them.

    The code keeps a partial block and a bit count between updates, and rolls the
    schedule over sixteen words; Sha2 and Sha512 have one copy of it each.  Both are
    instances of the functions of the sections [Block] and [Stream], where the
    reference is proved to be what they compute. *)

From S2P Require Import Prelude Sha2 Sha512.

(** ** Words and bytes *)

(** Most significant byte first. *)
Definition be_word (l : bytes) : Z := foldl (λ acc b, acc * 256 + b) 0 l.
Definition be_bytes (n : nat) (w : Z) : bytes := reverse (le_bytes n w).

Lemma le_word_app l k : le_word (l ++ k) = le_word l + 2 ^ (8 * blen l) * le_word k.
Proof.
  induction l as [|b l IH]; cbn [app le_word]; [unfold blen; simpl; lia|]. rewrite IH.
  replace (8 * blen (b :: l)) with (8 + 8 * blen l) by (unfold blen; simpl; lia).
  rewrite Z.pow_add_r by (pose proof (blen_nonneg l); lia). lia.
Qed.
Lemma be_word_rev l : be_word l = le_word (reverse l).
Proof.
  induction l as [|b l IH] using rev_ind; [done|]. unfold be_word in *.
  rewrite foldl_app, reverse_app. cbn [foldl]. rewrite IH. cbn. lia.
Qed.
Lemma length_le_bytes n w : length (le_bytes n w) = n.
Proof. revert w. induction n as [|n IH]; intros w; simpl; auto. Qed.
Lemma le_bytes_ok n w : bytes_ok (le_bytes n w).
Proof.
  revert w. induction n as [|n IH]; intros w; simpl; constructor; [|done].
  by apply Z.mod_pos_bound.
Qed.
Lemma length_be_bytes n w : length (be_bytes n w) = n.
Proof. unfold be_bytes. by rewrite length_reverse, length_le_bytes. Qed.
Lemma be_bytes_ok n w : bytes_ok (be_bytes n w).
Proof. apply Forall_reverse, le_bytes_ok. Qed.

Lemma shiftr_byte b x : is_byte b → Z.shiftr (b + 256 * x) 8 = x.
Proof.
  intros [H1 H2]. rewrite Z.shiftr_div_pow2 by done. change (2 ^ 8) with 256 in *.
  rewrite (Z.mul_comm 256), Z.div_add by done. rewrite Z.div_small by done. lia.
Qed.
Lemma mod_byte b x : is_byte b → (b + 256 * x) mod 256 = b.
Proof.
  intros [H1 H2]. rewrite Z.mul_comm, Z.mod_add by done. by apply Z.mod_small.
Qed.
Lemma le_bytes_word l : bytes_ok l → le_bytes (length l) (le_word l) = l.
Proof.
  induction 1 as [|b l Hb Hl IH]; [done|]. cbn [length le_bytes le_word].
  by rewrite mod_byte, shiftr_byte, IH.
Qed.
Lemma le_word_bytes n w : le_word (le_bytes n w) = w mod 2 ^ (8 * Z.of_nat n).
Proof.
  revert w. induction n as [|n IH]; intros w; cbn [le_bytes le_word]; [by rewrite Z.mod_1_r|].
  rewrite IH, Z.shiftr_div_pow2 by done. change (2 ^ 8) with 256.
  replace (8 * Z.of_nat (S n)) with (8 + 8 * Z.of_nat n) by lia.
  rewrite Z.pow_add_r by lia. rewrite Z.rem_mul_r; [done|done|]. apply Z.pow_pos_nonneg; lia.
Qed.

(** *** Operations on words, byte by byte *)

Lemma testbit_byte b x i :
  is_byte b → 0 ≤ i → Z.testbit (b + 256 * x) i = if decide (i < 8) then Z.testbit b i else Z.testbit x (i - 8).
Proof.
  intros Hb Hi. destruct (decide (i < 8)).
  - rewrite <-(Z.mod_pow2_bits_low _ 8) by lia. change (2 ^ 8) with 256. by rewrite mod_byte.
  - replace i with (i - 8 + 8) at 1 by lia. rewrite <-Z.shiftr_spec by lia. by rewrite shiftr_byte.
Qed.
Lemma land_word w a b : 0 ≤ w → in_word w a → in_word w b → in_word w (Z.land a b).
Proof.
  intros Hw Ha Hb. apply in_word_testbit; [done|apply Z.land_nonneg; left; apply Ha|].
  intros i Hi. by rewrite Z.land_spec, (testbit_above w a).
Qed.
Lemma land_byte b c x y :
  is_byte b → is_byte c → Z.land (b + 256 * x) (c + 256 * y) = Z.land b c + 256 * Z.land x y.
Proof.
  intros Hb Hc. apply Z.bits_inj'. intros i Hi.
  rewrite Z.land_spec, !testbit_byte by auto using land_word with lia.
  destruct (decide (i < 8)); by rewrite Z.land_spec.
Qed.
Lemma lor_byte b c x y :
  is_byte b → is_byte c → Z.lor (b + 256 * x) (c + 256 * y) = Z.lor b c + 256 * Z.lor x y.
Proof.
  intros Hb Hc. apply Z.bits_inj'. intros i Hi.
  rewrite Z.lor_spec, !testbit_byte by auto using lor_word with lia.
  destruct (decide (i < 8)); by rewrite Z.lor_spec.
Qed.

Lemma land_bytes l m :
  bytes_ok l → bytes_ok m → length l = length m →
  Z.land (le_word l) (le_word m) = le_word (zip_with Z.land l m).
Proof.
  intros Hl Hm He. revert m Hm He. induction Hl as [|b l Hb Hl IH]; intros [|c m] Hm He; simplify_eq/=; [done|].
  inversion Hm; subst. by rewrite land_byte, IH.
Qed.
Lemma lor_bytes l m :
  bytes_ok l → bytes_ok m → length l = length m →
  Z.lor (le_word l) (le_word m) = le_word (zip_with Z.lor l m).
Proof.
  intros Hl Hm He. revert m Hm He. induction Hl as [|b l Hb Hl IH]; intros [|c m] Hm He; simplify_eq/=; [done|].
  inversion Hm; subst. by rewrite lor_byte, IH.
Qed.
Lemma shiftr_bytes k l : bytes_ok l → Z.shiftr (le_word l) (8 * Z.of_nat k) = le_word (drop k l).
Proof.
  revert l. induction k as [|k IH]; intros [|b l] Hl; [done|done|by rewrite Z.shiftr_0_l|].
  inversion Hl; subst. cbn [drop le_word]. replace (8 * Z.of_nat (S k)) with (8 + 8 * Z.of_nat k) by lia.
  rewrite <-Z.shiftr_shiftr by lia. by rewrite shiftr_byte, IH.
Qed.
Lemma wrap_bytes n l : bytes_ok l → wrap (8 * Z.of_nat n) (le_word l) = le_word (take n l).
Proof.
  revert l. induction n as [|n IH]; intros [|b l] Hl; try by rewrite ?Z.mod_1_r.
  { unfold wrap. cbn [take le_word]. by rewrite Z.mod_1_r. }
  inversion Hl; subst. cbn [take le_word]. rewrite <-IH by done. unfold wrap.
  replace (8 * Z.of_nat (S n)) with (8 + 8 * Z.of_nat n) by lia. rewrite Z.pow_add_r by lia.
  rewrite Z.rem_mul_r by (try apply Z.pow_pos_nonneg; lia). change (2 ^ 8) with 256.
  rewrite mod_byte by done. f_equal. f_equal. f_equal.
  rewrite <-(Z.shiftr_div_pow2 _ 8) by done. by apply shiftr_byte.
Qed.
Lemma shiftl_bytes k l : Z.shiftl (le_word l) (8 * Z.of_nat k) = le_word (replicate k 0 ++ l).
Proof.
  rewrite le_word_app, Z.shiftl_mul_pow2 by lia. unfold blen. rewrite length_replicate.
  assert (le_word (replicate k 0) = 0) as -> by (induction k as [|k IH]; simpl; lia). lia.
Qed.
Lemma bytes_word n w : in_word (8 * Z.of_nat n) w → w = le_word (le_bytes n w).
Proof. intros Hw. rewrite le_word_bytes. symmetry. by apply Z.mod_small. Qed.

Lemma pad_bytes l k : le_word (l ++ replicate k 0) = le_word l.
Proof.
  rewrite le_word_app. assert (le_word (replicate k 0) = 0) as -> by (induction k as [|k IH]; simpl; lia). lia.
Qed.
(** The bytes of two words moved past each other. *)
Lemma move_bytes n k l1 l2 :
  bytes_ok l1 → bytes_ok l2 → length l1 = n → length l2 = n → (k ≤ n)%nat →
  Z.lor (Z.shiftr (le_word l1) (8 * Z.of_nat k)) (wrap (8 * Z.of_nat n) (Z.shiftl (le_word l2) (8 * Z.of_nat k))) =
  le_word (zip_with Z.lor (drop k l1 ++ replicate k 0) (replicate k 0 ++ take (n - k) l2)).
Proof.
  intros H1 H2 Hn1 Hn2 Hk. assert (Hz : bytes_ok (replicate k 0)) by by apply Forall_replicate.
  rewrite shiftr_bytes, shiftl_bytes, wrap_bytes by auto using Forall_app_2.
  rewrite <-(pad_bytes (drop k l1) k). rewrite take_app, length_replicate, take_ge by (rewrite length_replicate; lia).
  apply lor_bytes; [auto using Forall_app_2, Forall_drop|auto using Forall_app_2, Forall_take|].
  rewrite !length_app, length_drop, length_take, length_replicate. lia.
Qed.
Lemma masked_bytes n l m :
  bytes_ok l → length l = n → in_word (8 * Z.of_nat n) m →
  Z.land (le_word l) m = le_word (zip_with Z.land l (le_bytes n m)) ∧
  bytes_ok (zip_with Z.land l (le_bytes n m)) ∧ length (zip_with Z.land l (le_bytes n m)) = n.
Proof.
  intros Hl Hn Hm. split_and!.
  - rewrite (bytes_word n m) at 1 by done. apply land_bytes; [done|apply le_bytes_ok|by rewrite length_le_bytes].
  - apply (Forall_zip_with_fst _ is_byte); [done|]. eapply Forall_impl; [apply le_bytes_ok|]. intros y Hy x Hx. by apply land_word.
  - rewrite length_zip_with, length_le_bytes. lia.
Qed.
Lemma swap_bytes n k l m1 m2 :
  bytes_ok l → length l = n → (k ≤ n)%nat → in_word (8 * Z.of_nat n) m1 → in_word (8 * Z.of_nat n) m2 →
  Z.lor (Z.shiftr (Z.land (le_word l) m1) (8 * Z.of_nat k))
        (wrap (8 * Z.of_nat n) (Z.shiftl (Z.land (le_word l) m2) (8 * Z.of_nat k))) =
  le_word (zip_with Z.lor (drop k (zip_with Z.land l (le_bytes n m1)) ++ replicate k 0)
                          (replicate k 0 ++ take (n - k) (zip_with Z.land l (le_bytes n m2)))).
Proof.
  intros Hl Hn Hk H1 H2. destruct (masked_bytes n l m1 Hl Hn H1) as (-> & ? & ?).
  destruct (masked_bytes n l m2 Hl Hn H2) as (-> & ? & ?). by apply move_bytes.
Qed.

Lemma land_0xff b : is_byte b → Z.land b 255 = b.
Proof. intros Hb. change 255 with (Z.ones 8). rewrite Z.land_ones by done. by apply Z.mod_small. Qed.
(** One statement of a macro, on the bytes of its word. *)
Ltac macro_step k :=
  match goal with
  | |- context [Z.lor (Z.shiftr (Z.land (le_word ?l) ?m1) ?s) (wrap ?w (Z.shiftl (Z.land (le_word ?l) ?m2) ?s))] =>
      let E := fresh in
      pose proof (swap_bytes (length l) k l m1 m2) as E; cbn [length] in E;
      change (8 * Z.of_nat k) with s in E;
      let n := eval compute in (length l) in change (8 * Z.of_nat n) with w in E;
      rewrite E by (done || lia || (repeat (apply Forall_cons; split; [done|]); by apply Forall_nil)); clear E
  | |- context [Z.lor (Z.shiftr (le_word ?l) ?s) (wrap ?w (Z.shiftl (le_word ?l) ?s))] =>
      let E := fresh in
      pose proof (move_bytes (length l) k l l) as E; cbn [length] in E;
      change (8 * Z.of_nat k) with s in E;
      let n := eval compute in (length l) in change (8 * Z.of_nat n) with w in E;
      rewrite E by (done || lia || (repeat (apply Forall_cons; split; [done|]); by apply Forall_nil)); clear E
  end;
  match goal with
  | |- context [le_word (zip_with Z.lor ?a ?b)] =>
      let a' := eval cbv [length drop take app replicate zip_with le_bytes Nat.sub] in a in
      let b' := eval cbv [length drop take app replicate zip_with le_bytes Nat.sub] in b in
      change (zip_with Z.lor a b) with (zip_with Z.lor a' b')
  end;
  cbn [zip_with];
  repeat match goal with
         | |- context [Z.land ?b ?m] =>
             let m' := eval vm_compute in m in
             lazymatch m' with
             | 0 => change (Z.land b m) with (Z.land b 0); rewrite (Z.land_0_r b)
             | 255 => change (Z.land b m) with (Z.land b 255); rewrite (land_0xff b) by done
             end
         end;
  rewrite ?Z.lor_0_r, ?Z.lor_0_l.

(** What the macros compute on the bytes of a word. *)
Lemma REVERSE32_bytes l : bytes_ok l → length l = 4%nat → REVERSE32 (le_word l) = be_word l.
Proof.
  intros Hl Hn. destruct l as [|a [|b [|c [|d []]]]]; try done. rewrite be_word_rev. unfold REVERSE32.
  apply Forall_cons in Hl as [Ha Hl]. apply Forall_cons in Hl as [Hb Hl].
  apply Forall_cons in Hl as [Hc Hl]. apply Forall_cons in Hl as [Hd _].
  macro_step 2%nat. macro_step 1%nat. done.
Qed.

Lemma REVERSE64_bytes l : bytes_ok l → length l = 8%nat → REVERSE64 (le_word l) = be_word l.
Proof.
  intros Hl Hn. destruct l as [|a [|b [|c [|d [|e [|f [|g [|h []]]]]]]]]; try done. rewrite be_word_rev. unfold REVERSE64.
  repeat (apply Forall_cons in Hl as [? Hl]).
  macro_step 4%nat. macro_step 1%nat. macro_step 2%nat. done.
Qed.

(** A word stored in the order of the standard. *)
Lemma store_be n (REV : Z → Z) w :
  (∀ l, bytes_ok l → length l = n → REV (le_word l) = be_word l) →
  in_word (8 * Z.of_nat n) w → le_bytes n (REV w) = be_bytes n w.
Proof.
  intros HR Hw. rewrite (bytes_word n w) at 1 by done.
  rewrite HR, be_word_rev by (rewrite ?length_le_bytes; auto using le_bytes_ok).
  unfold be_bytes. rewrite <-(length_le_bytes n w) at 1. rewrite <-length_reverse.
  apply le_bytes_word, Forall_reverse, le_bytes_ok.
Qed.

(** ** The constants

    The first [w] bits of the fractional parts of the square and cube roots of the
    first primes. *)

Definition primes (n : Z) : list Z :=
  filter (λ p, forallb (λ d, negb (p mod d =? 0)) (seqZ 2 (p - 2)) = true) (seqZ 2 (n - 1)).
Fixpoint iroot_bits (k : Z) (bits : nat) (acc n : Z) : Z :=
  match bits with
  | O => acc
  | S b =>
      let a := acc + 2 ^ Z.of_nat b in
      iroot_bits k b (if a ^ k <=? n then a else acc) n
  end.
(** [w] bits after the point; the roots have fewer than four before it. *)
Definition root_fraction (k w p : Z) : Z := iroot_bits k (Z.to_nat w + 4) 0 (p * 2 ^ (k * w)) mod 2 ^ w.

Lemma iroot_bits_spec k bits acc n :
  0 < k → 0 ≤ acc → acc ^ k ≤ n < (acc + 2 ^ Z.of_nat bits) ^ k →
  let r := iroot_bits k bits acc n in r ^ k ≤ n < (r + 1) ^ k.
Proof.
  intros Hk. revert acc. induction bits as [|b IH]; intros acc Ha Hn; cbn [iroot_bits]; [done|].
  assert (0 < 2 ^ Z.of_nat b) by (apply Z.pow_pos_nonneg; lia).
  replace (2 ^ Z.of_nat (S b)) with (2 ^ Z.of_nat b + 2 ^ Z.of_nat b) in Hn
    by (rewrite Nat2Z.inj_succ, Z.pow_succ_r; lia).
  destruct (_ <=? n) eqn:E; bool_props; apply IH; rewrite ?Z.add_assoc in *; lia.
Qed.

(** ** The algorithm *)

Record sha_params : Type := Sha {
  word_bytes : nat;
  rounds : nat;
  Sum0 : Z * Z * Z;
  Sum1 : Z * Z * Z;
  sig0 : Z * Z * Z;
  sig1 : Z * Z * Z;
  constants : list Z;
  initial : list Z;
  digest_words : nat
}.

Section Fips.
Context (P : sha_params).

Definition word_bits : Z := 8 * Z.of_nat (word_bytes P).
Definition block_bytes : nat := (16 * word_bytes P)%nat.
Definition ROTR (n x : Z) : Z := Z.lor (Z.shiftr x n) (wrap word_bits (Z.shiftl x (word_bits - n))).
Definition SHR (n x : Z) : Z := Z.shiftr x n.
Definition fCh (x y z : Z) : Z := Z.lxor (Z.land x y) (Z.land (Z.lxor x (2 ^ word_bits - 1)) z).
Definition fMaj (x y z : Z) : Z := Z.lxor (Z.lxor (Z.land x y) (Z.land x z)) (Z.land y z).
Definition fSum (n : Z * Z * Z) (x : Z) : Z := Z.lxor (Z.lxor (ROTR n.1.1 x) (ROTR n.1.2 x)) (ROTR n.2 x).
Definition fsig (n : Z * Z * Z) (x : Z) : Z := Z.lxor (Z.lxor (ROTR n.1.1 x) (ROTR n.1.2 x)) (SHR n.2 x).

Fixpoint be_words (n : nat) (l : bytes) : list Z :=
  match n with
  | O => []
  | S n => be_word (take (word_bytes P) l) :: be_words n (drop (word_bytes P) l)
  end.
(** The next word of the schedule, [t] being the number of those before it. *)
Definition next_word (W : list Z) : Z :=
  let t := blen W in
  wrap word_bits (fsig (sig1 P) (nthZ W (t - 2)) + nthZ W (t - 7) + fsig (sig0 P) (nthZ W (t - 15)) + nthZ W (t - 16)).
Definition extend (W : list Z) : list Z := W ++ [next_word W].
Definition schedule (block : bytes) : list Z := Nat.iter (rounds P - 16) extend (be_words 16 block).
Definition fips_round (r : regs) (K W : Z) : regs :=
  let '(a, b, c, d, e, f, g, h) := r in
  let T1 := wrap word_bits (h + fSum (Sum1 P) e + fCh e f g + K + W) in
  let T2 := wrap word_bits (fSum (Sum0 P) a + fMaj a b c) in
  (wrap word_bits (T1 + T2), a, b, c, wrap word_bits (d + T1), e, f, g).
Definition run_rounds (ks ws : list Z) (r : regs) : regs :=
  foldl (λ r kw, fips_round r kw.1 kw.2) r (zip ks ws).
Definition compress (H : list Z) (block : bytes) : list Z :=
  let '(a, b, c, d, e, f, g, h) := run_rounds (constants P) (schedule block) (load_regs H) in
  zip_with (λ x y, wrap word_bits (x + y)) H [a; b; c; d; e; f; g; h].

(** A one bit, zeros, and the number of bits in two words. *)
Definition padding (len : Z) : bytes :=
  let zeros := (Z.of_nat block_bytes - Z.of_nat (2 * word_bytes P) - (len + 1)) mod Z.of_nat block_bytes in
  0x80 :: replicate (Z.to_nat zeros) 0 ++ be_bytes (2 * word_bytes P) (8 * len).
Definition blocks (l : bytes) : list bytes := reshape (replicate (length l / block_bytes) block_bytes) l.
Definition fips_sha (message : bytes) : bytes :=
  concat (be_bytes (word_bytes P) <$>
    take (digest_words P) (foldl compress (initial P) (blocks (message ++ padding (blen message))))).
End Fips.

Definition first_primes : list Z := primes 409.
Definition FIPS_SHA256 : sha_params :=
  Sha 4 64 (2, 13, 22) (6, 11, 25) (7, 18, 3) (17, 19, 10)
      (root_fraction 3 32 <$> take 64 first_primes) (root_fraction 2 32 <$> take 8 first_primes) 8.
Definition FIPS_SHA512 : sha_params :=
  Sha 8 80 (28, 34, 39) (14, 18, 41) (1, 8, 7) (19, 61, 6)
      (root_fraction 3 64 <$> first_primes) (root_fraction 2 64 <$> take 8 first_primes) 8.
Definition FIPS_SHA384 : sha_params :=
  Sha 8 80 (28, 34, 39) (14, 18, 41) (1, 8, 7) (19, 61, 6)
      (root_fraction 3 64 <$> first_primes) (root_fraction 2 64 <$> take 8 (drop 8 first_primes)) 6.

(** The tables of the code are these. *)
Lemma tables :
  K256 = constants FIPS_SHA256 ∧ sha256_initial_hash_value = initial FIPS_SHA256 ∧
  K512 = constants FIPS_SHA512 ∧ sha512_initial_hash_value = initial FIPS_SHA512 ∧
  K512 = constants FIPS_SHA384 ∧ sha384_initial_hash_value = initial FIPS_SHA384.
Proof. by vm_compute. Qed.
#[local] Opaque first_primes root_fraction.

(** ** One block

    The two [Transform]s of the code, for words of [word_bytes P] bytes that [REV]
    turns around. *)

Section Block.
Context (P : sha_params) (REV : Z → Z).
Context (REV_bytes : ∀ l, bytes_ok l → length l = word_bytes P → REV (le_word l) = be_word l).
Context (Hrounds : (16 ≤ rounds P)%nat) (Hconstants : length (constants P) = rounds P).
Let wb := word_bytes P.
Let K := constants P.
Let mixed := (rounds P - 16)%nat.

Fixpoint b_words (n : nat) (l : bytes) : list Z :=
  match n with O => [] | S n => le_word (take wb l) :: b_words n (drop wb l) end.
Fixpoint b_load (n : nat) (j : Z) (data : list Z) (W : list Z) (r : regs) : list Z * regs :=
  match n, data with
  | S n, x :: data =>
      let w := REV x in
      b_load n (j + 1) data (<[Z.to_nat j := w]> W) (fips_round P r (nthZ K j) w)
  | _, _ => (W, r)
  end.
Fixpoint b_mix (n : nat) (j : Z) (W : list Z) (r : regs) : list Z * regs :=
  match n with
  | O => (W, r)
  | S n =>
      let s0 := fsig P (sig0 P) (nthZ W (Z.land (j + 1) 0x0f)) in
      let s1 := fsig P (sig1 P) (nthZ W (Z.land (j + 14) 0x0f)) in
      let w := wrap (word_bits P) (nthZ W (Z.land j 0x0f) + (s1 + nthZ W (Z.land (j + 9) 0x0f) + s0)) in
      b_mix n (j + 1) (<[Z.to_nat (Z.land j 0x0f) := w]> W) (fips_round P r (nthZ K j) w)
  end.
Definition b_add (s : list Z) (r : regs) : list Z :=
  let '(a, b, c, d, e, f, g, h) := r in
  zip_with (λ x y, wrap (word_bits P) (x + y)) s [a; b; c; d; e; f; g; h].
(** The new state, and what the buffer is left holding. *)
Definition b_transform (s : list Z) (buf data : bytes) : list Z * bytes :=
  let '(W, r) := b_load 16 0 (b_words 16 data) (b_words 16 buf) (load_regs s) in
  let '(W, r) := b_mix mixed 16 W r in
  (b_add s r, concat (le_bytes wb <$> W)).

Lemma nthZ_lookup l j x : l !! j = Some x → nthZ l (Z.of_nat j) = x.
Proof. intros H. unfold nthZ. by rewrite Nat2Z.id, H. Qed.
Lemma run_rounds_cons k ks w ws r : run_rounds P (k :: ks) (w :: ws) r = run_rounds P ks ws (fips_round P r k w).
Proof. done. Qed.
Lemma run_rounds_app ks l ws r :
  run_rounds P ks (l ++ ws) r = run_rounds P (drop (length l) ks) ws (run_rounds P ks l r).
Proof.
  unfold run_rounds. rewrite zip_with_app_r, foldl_app. by rewrite zip_with_take_l' by lia.
Qed.
Lemma drop_constants j : (j < rounds P)%nat → drop j K = nthZ K (Z.of_nat j) :: drop (S j) K.
Proof.
  intros Hj. destruct (lookup_lt_is_Some_2 K j) as [k Hk]; [unfold K; lia|].
  rewrite (nthZ_lookup K j k Hk). by apply drop_S.
Qed.

Lemma b_words_be n l : bytes_ok l → (n * wb ≤ length l)%nat → REV <$> b_words n l = be_words P n l.
Proof.
  revert l. induction n as [|n IH]; intros l Hl Hn; [done|]. cbn [b_words be_words fmap list_fmap].
  simpl in Hn. f_equal.
  - apply REV_bytes; [by apply Forall_take|]. rewrite length_take. unfold wb in *. lia.
  - apply IH; [by apply Forall_drop|]. rewrite length_drop. lia.
Qed.
Lemma length_b_words n l : length (b_words n l) = n.
Proof. revert l. induction n as [|n IH]; intros l; simpl; auto. Qed.

Lemma b_load_spec data j W r :
  (j + length data ≤ length W)%nat → (j + length data ≤ rounds P)%nat →
  b_load (length data) (Z.of_nat j) data W r =
  (take j W ++ (REV <$> data) ++ drop (j + length data) W, run_rounds P (drop j K) (REV <$> data) r).
Proof.
  revert j W r. induction data as [|x data IH]; intros j W r HW HK; simpl in HW, HK.
  - cbn [length b_load fmap list_fmap app]. rewrite Nat.add_0_r, take_drop. unfold run_rounds. by rewrite zip_with_nil_r.
  - cbn [length b_load fmap list_fmap]. replace (Z.of_nat j + 1) with (Z.of_nat (S j)) by lia.
    rewrite Nat2Z.id, IH by (rewrite ?length_insert; lia).
    rewrite (drop_constants j) by lia. rewrite run_rounds_cons. f_equal.
    rewrite (take_S_r _ _ (REV x)) by (apply list_lookup_insert_eq; lia).
    rewrite take_insert_ge by lia. rewrite drop_insert_lt by lia. rewrite <-app_assoc. cbn [app].
    by rewrite Nat.add_succ_r.
Qed.

(** The rolling window [W] holds the last sixteen words of the schedule [L]. *)
Definition window (L W : list Z) : Prop :=
  length W = 16%nat ∧ ∀ t, blen L - 16 ≤ t < blen L → nthZ W (t mod 16) = nthZ L t.

Lemma land_0x0f j : Z.land j 0x0f = j mod 16.
Proof. change 0x0f with (Z.ones 4). by rewrite Z.land_ones. Qed.
Lemma window_at L W t i :
  window L W → blen L - 16 ≤ t < blen L → i mod 16 = t mod 16 → nthZ W (Z.land i 0x0f) = nthZ L t.
Proof. intros [_ Hw] Ht Hi. rewrite land_0x0f, Hi. by apply Hw. Qed.
Lemma nthZ_app_l (l k : list Z) t : 0 ≤ t < blen l → nthZ (l ++ k) t = nthZ l t.
Proof. intros Ht. unfold nthZ, blen in *. rewrite lookup_app_l; [done|lia]. Qed.
Lemma nthZ_snoc (l : list Z) x : nthZ (l ++ [x]) (blen l) = x.
Proof. unfold nthZ, blen. by rewrite Nat2Z.id, lookup_app_r, Nat.sub_diag by lia. Qed.

Lemma window_next L W :
  window L W → 16 ≤ blen L → window (L ++ [next_word P L]) (<[Z.to_nat (blen L mod 16) := next_word P L]> W).
Proof.
  intros [Hl Hw] HL. pose proof (Z.mod_pos_bound (blen L) 16 ltac:(lia)) as Hm.
  split; [by rewrite length_insert|]. rewrite blen_app. change (blen [_]) with 1. intros t Ht.
  destruct (decide (t = blen L)) as [->|Hne].
  - rewrite nthZ_snoc. unfold nthZ. rewrite list_lookup_insert_eq by lia. done.
  - rewrite nthZ_app_l by lia. rewrite <-Hw by lia. unfold nthZ. rewrite list_lookup_insert_ne; [done|].
    intros He. apply (f_equal Z.of_nat) in He. pose proof (Z.mod_pos_bound t 16 ltac:(lia)).
    rewrite !Z2Nat.id in He by lia.
    assert (Hd : (blen L - t) mod 16 = 0) by (rewrite Zminus_mod, He, Z.sub_diag; done).
    rewrite Z.mod_small in Hd by lia. lia.
Qed.
Lemma next_word_window L W :
  window L W → 16 ≤ blen L →
  wrap (word_bits P) (nthZ W (Z.land (blen L) 0x0f) +
    (fsig P (sig1 P) (nthZ W (Z.land (blen L + 14) 0x0f)) + nthZ W (Z.land (blen L + 9) 0x0f) +
     fsig P (sig0 P) (nthZ W (Z.land (blen L + 1) 0x0f)))) = next_word P L.
Proof.
  intros Hw HL. unfold next_word.
  assert (Hm : ∀ i t, i = t + 16 → i mod 16 = t mod 16).
  { intros i t ->. by rewrite <-(Z.mod_add t 1 16). }
  rewrite (window_at L W (blen L - 16) (blen L)), (window_at L W (blen L - 2) (blen L + 14)),
    (window_at L W (blen L - 7) (blen L + 9)), (window_at L W (blen L - 15) (blen L + 1))
    by (done || (apply Hm; lia) || lia).
  f_equal. lia.
Qed.

Lemma iter_prefix n L : ∃ ws, Nat.iter n (extend P) L = L ++ ws.
Proof.
  induction n as [|n [ws IH]]; [exists []; by rewrite app_nil_r|]. rewrite Nat.iter_succ, IH. unfold extend at 1.
  exists (ws ++ [next_word P (L ++ ws)]). by rewrite app_assoc.
Qed.

Lemma b_mix_spec n L W r :
  window L W → 16 ≤ blen L → (length L + n ≤ rounds P)%nat →
  ∃ W', b_mix n (blen L) W r =
        (W', run_rounds P (drop (length L) K) (drop (length L) (Nat.iter n (extend P) L)) r) ∧
        length W' = 16%nat.
Proof.
  revert L W r. induction n as [|n IH]; intros L W r Hw HL Hn.
  - exists W. cbn [b_mix Nat.iter]. rewrite drop_all. unfold run_rounds. rewrite zip_with_nil_r. split; [done|apply Hw].
  - cbn [b_mix]. rewrite (next_word_window L W Hw HL), land_0x0f.
    destruct (IH (L ++ [next_word P L]) (<[Z.to_nat (blen L mod 16) := next_word P L]> W)
                (fips_round P r (nthZ K (blen L)) (next_word P L))) as (W' & He & Hl);
      [by apply window_next|rewrite blen_app; change (blen [_]) with 1; lia|rewrite length_app; simpl; lia|].
    exists W'. split; [|done]. rewrite blen_app in He. change (blen [_]) with 1 in He. rewrite He. f_equal.
    rewrite (Nat.iter_succ_r n _ L), (drop_constants (length L)) by lia. fold (blen L).
    change (L ++ [next_word P L]) with (extend P L). destruct (iter_prefix n (extend P L)) as [ws ->].
    unfold extend. rewrite <-app_assoc, length_app, Nat.add_1_r.
    rewrite drop_app_length. cbn [app]. rewrite run_rounds_cons. f_equal.
    rewrite (drop_app_ge L) by lia. replace (S (length L) - length L)%nat with 1%nat by lia. done.
Qed.

Lemma length_le_words W : length (concat (le_bytes wb <$> W)) = (length W * wb)%nat.
Proof.
  induction W as [|w W IH]; [done|]. cbn [fmap list_fmap concat length].
  rewrite length_app, length_le_bytes, IH. lia.
Qed.
Lemma length_be_words n l : length (be_words P n l) = n.
Proof. revert l. induction n as [|n IH]; intros l; simpl; auto. Qed.

Lemma b_transform_spec s buf data :
  bytes_ok data → length data = block_bytes P →
  ∃ junk, b_transform s buf data = (compress P s data, junk) ∧ length junk = block_bytes P.
Proof.
  intros Hd Hl. set (L := be_words P 16 data). assert (HL : length L = 16%nat) by apply length_be_words.
  assert (Hload : b_load 16 0 (b_words 16 data) (b_words 16 buf) (load_regs s) =
                  (L, run_rounds P K L (load_regs s))).
  { pose proof (b_load_spec (b_words 16 data) 0 (b_words 16 buf) (load_regs s)) as Hb.
    rewrite !length_b_words in Hb. change (Z.of_nat 0) with 0 in Hb. rewrite Hb by lia.
    rewrite (b_words_be 16 data Hd) by (rewrite Hl; unfold block_bytes, wb; lia).
    rewrite drop_0, (drop_ge (b_words 16 buf)), app_nil_r by (by rewrite length_b_words). done. }
  destruct (b_mix_spec mixed L L (run_rounds P K L (load_regs s))) as (W' & He & HW).
  { split; [done|]. intros t Ht. unfold blen in Ht. rewrite HL in Ht. by rewrite Z.mod_small by lia. }
  { unfold blen. lia. } { unfold mixed. lia. }
  exists (concat (le_bytes wb <$> W')). rewrite length_le_words, HW. split; [|done].
  unfold b_transform. rewrite Hload. unfold blen in He. rewrite HL in He. change (Z.of_nat 16) with 16 in He.
  rewrite He. unfold compress, b_add, schedule. fold L. fold mixed. fold K.
  destruct (iter_prefix mixed L) as [ws ->]. by rewrite run_rounds_app, <-HL, drop_app_length.
Qed.
End Block.

(** ** A message in pieces

    The two [Update]s of the code and the padding of its [Final]s, over the
    transformation of a block, for a context [C] with a count of bits [N]. *)

Section Stream.
Context (B short zapped : nat) (compress : list Z → bytes → list Z).
Context {C N : Type} (st : C → list Z) (cnt : C → N) (buf : C → bytes) (mk : list Z → N → bytes → C).
Context (transform : C → bytes → C).
Context (add : N → Z → N) (low : N → Z) (flip : N → N) (put : N → bytes → bytes).
(** [counts k n]: the count [k] stands for [n] bits. *)
Context (counts : N → Z → Prop).
Let BZ := Z.of_nat B.
Let shortZ := Z.of_nat short.

Fixpoint m_blocks (n : nat) (c : C) (data : bytes) : C * bytes :=
  match n with
  | O => (c, data)
  | S n =>
      if blen data <? BZ then (c, data)
      else
        let c := transform c (take B data) in
        m_blocks n (mk (st c) (add (cnt c) (Z.shiftl BZ 3)) (buf c)) (drop B data)
  end.
Definition m_rest (c : C) (data : bytes) : C :=
  let '(c, rest) := m_blocks (length data) c data in
  if 0 <? blen rest then
    mk (st c) (add (cnt c) (Z.shiftl (blen rest) 3)) (buffer_copy 0 rest (buf c))
  else c.
Definition m_update (c : C) (data : bytes) : C :=
  if blen data =? 0 then c
  else
    let usedspace := Z.shiftr (low (cnt c)) 3 mod BZ in
    if 0 <? usedspace then
      let freespace := BZ - usedspace in
      let used := Z.to_nat usedspace in
      if freespace <=? blen data then
        let n := Z.to_nat freespace in
        let b := buffer_copy used (take n data) (buf c) in
        let c := mk (st c) (add (cnt c) (Z.shiftl freespace 3)) b in
        m_rest (transform c b) (drop n data)
      else
        mk (st c) (add (cnt c) (Z.shiftl (blen data) 3)) (buffer_copy used data (buf c))
    else m_rest c data.
Definition m_pad (c : C) : C :=
  let usedspace := Z.shiftr (low (cnt c)) 3 mod BZ in
  let c := mk (st c) (flip (cnt c)) (buf c) in
    if 0 <? usedspace then
      let b := buffer_copy (Z.to_nat usedspace) [0x80] (buf c) in
      let usedspace := usedspace + 1 in
      if usedspace <=? shortZ then
        mk (st c) (cnt c)
          (buffer_copy (Z.to_nat usedspace) (replicate (Z.to_nat (shortZ - usedspace)) 0) b)
      else
        let b := if usedspace <? BZ then
                   buffer_copy (Z.to_nat usedspace) (replicate (Z.to_nat (BZ - usedspace)) 0) b
                 else b in
        let c := transform (mk (st c) (cnt c) b) b in
        mk (st c) (cnt c) (buffer_copy 0 (replicate zapped 0) (buf c))
    else
      mk (st c) (cnt c)
        (buffer_copy 0 [0x80] (buffer_copy 0 (replicate (Z.to_nat shortZ) 0) (buf c))).
Definition m_last (c : C) : C :=
  let c := m_pad c in
  let b := put (cnt c) (buf c) in
  transform (mk (st c) (cnt c) b) b.

(** *** Lemmas *)

Context (Hshort : (0 < short < B)%nat) (Hzapped : (short ≤ zapped ≤ B)%nat).
Context (st_mk : ∀ s k b, st (mk s k b) = s) (cnt_mk : ∀ s k b, cnt (mk s k b) = k)
        (buf_mk : ∀ s k b, buf (mk s k b) = b).
Context (transform_st : ∀ c d, bytes_ok d → length d = B → st (transform c d) = compress (st c) d)
        (transform_cnt : ∀ c d, cnt (transform c d) = cnt c)
        (transform_buf : ∀ c d, bytes_ok d → length d = B → length (buf (transform c d)) = B).
Context (counts_add : ∀ k n x, counts k n → 0 ≤ x < 2 ^ 64 → counts (add k x) (n + x))
        (counts_low : ∀ k n, counts k (8 * n) → Z.shiftr (low k) 3 mod BZ = n mod BZ)
        (counts_put : ∀ k n b, counts k n → length b = B →
           put (flip k) b = take short b ++ be_bytes (B - short) n).

(** What every transformation keeps of the state, updates and padding keep. *)
Section Kept.
Context (Q : list Z → Prop) (HQ : ∀ c d, Q (st c) → Q (st (transform c d))).

Lemma m_blocks_keeps n c d : Q (st c) → Q (st (m_blocks n c d).1).
Proof.
  revert c d. induction n as [|n IH]; intros c d Hc; cbn [m_blocks]; [done|].
  destruct (_ <? _); [done|]. apply IH. rewrite st_mk. auto.
Qed.
Lemma m_rest_keeps c d : Q (st c) → Q (st (m_rest c d)).
Proof.
  intros Hc. unfold m_rest. pose proof (m_blocks_keeps (length d) c d Hc) as Hb.
  destruct (m_blocks _ _ _) as [c' rest]. destruct (_ <? _); by rewrite ?st_mk.
Qed.
Lemma m_update_keeps c d : Q (st c) → Q (st (m_update c d)).
Proof.
  intros Hc. unfold m_update. cbv zeta. destruct (_ =? _); [done|].
  destruct (_ <? _); [destruct (_ <=? _)|]; try apply m_rest_keeps; rewrite ?st_mk; [|done..].
  apply HQ. by rewrite st_mk.
Qed.
Lemma m_last_keeps c : Q (st c) → Q (st (m_last c)).
Proof.
  intros Hc. unfold m_last, m_pad. cbv zeta. apply HQ. rewrite st_mk.
  destruct (_ <? _); [destruct (_ <=? _)|]; rewrite ?st_mk; try done. apply HQ. by rewrite st_mk.
Qed.
End Kept.

(** The state after the whole blocks of [l]; what is left of it is ignored. *)
Definition digest (s : list Z) (l : bytes) : list Z :=
  foldl compress s (reshape (replicate (length l / B) B) l).

Lemma digest_short s l : (length l < B)%nat → digest s l = s.
Proof. intros Hl. unfold digest. by rewrite Nat.div_small. Qed.
Lemma digest_block s b l : length b = B → digest s (b ++ l) = digest (compress s b) l.
Proof.
  intros Hb. unfold digest. rewrite length_app, Hb.
  replace (B + length l)%nat with (length l + 1 * B)%nat by lia.
  rewrite Nat.div_add, Nat.add_1_r by lia. cbn [replicate reshape foldl].
  by rewrite take_app_length', drop_app_length' by done.
Qed.
Lemma digest_one s b : length b = B → digest s b = compress s b.
Proof. intros Hb. rewrite <-(app_nil_r b) at 1. rewrite digest_block by done. apply digest_short. simpl. lia. Qed.
Lemma digest_app s p l q : length p = (q * B)%nat → digest s (p ++ l) = digest (digest s p) l.
Proof.
  revert s p. induction q as [|q IH]; intros s p Hp.
  - destruct p; [|done]. by rewrite (digest_short s []) by (simpl; lia).
  - assert (Hb : length (take B p) = B) by (rewrite length_take; lia).
    assert (Hd : length (drop B p) = (q * B)%nat) by (rewrite length_drop; lia).
    rewrite <-(take_drop B p). revert Hb Hd. generalize (take B p) (drop B p). intros b p' Hb Hd.
    rewrite <-app_assoc, (digest_block s b _ Hb), (digest_block s b p' Hb). by apply IH.
Qed.

(** The context after the message [m]: [p] was transformed, [t] is in the buffer. *)
Record holds (s0 : list Z) (c : C) (m : bytes) : Prop := {
  h_split : ∃ p t q, m = p ++ t ∧ length p = (q * B)%nat ∧ (length t < B)%nat ∧
                     st c = digest s0 p ∧ take (length t) (buf c) = t;
  h_counts : counts (cnt c) (8 * blen m);
  h_buffer : length (buf c) = B;
  h_bytes : bytes_ok m
}.

Lemma shiftl_8 x : Z.shiftl x 3 = 8 * x.
Proof. rewrite Z.shiftl_mul_pow2 by done. lia. Qed.
Lemma length_buffer_copy i x b : (i + length x ≤ length b)%nat → length (buffer_copy i x b) = length b.
Proof. intros H. unfold buffer_copy. rewrite !length_app, length_take, length_drop. lia. Qed.
Lemma take_buffer_copy i x b t :
  (i + length x ≤ length b)%nat → take i b = t → i = length t → take (length (t ++ x)) (buffer_copy i x b) = t ++ x.
Proof.
  intros Hl Ht Hi. unfold buffer_copy. rewrite Ht, app_assoc. by rewrite take_app_length.
Qed.
Lemma used_space s0 c m p t q :
  holds s0 c m → m = p ++ t → length p = (q * B)%nat → (length t < B)%nat →
  Z.shiftr (low (cnt c)) 3 mod BZ = blen t.
Proof.
  intros Hh -> Hp Ht. rewrite (counts_low _ _ (h_counts _ _ _ Hh)), blen_app. unfold blen, BZ. rewrite Hp.
  rewrite Nat2Z.inj_mul, Z.add_comm, Z.mod_add by lia. apply Z.mod_small. lia.
Qed.

Lemma holds_whole s0 c m q : holds s0 c m → length m = (q * B)%nat → st c = digest s0 m.
Proof.
  intros [(p & t & q' & -> & Hp & Ht & Hs & _) _ _ _] Hm. rewrite length_app in Hm.
  assert (Hq : (q' = q)%nat) by nia. destruct t; [by rewrite app_nil_r|simpl in Hm; nia].
Qed.
Lemma holds_intro s0 c m q :
  length m = (q * B)%nat → st c = digest s0 m → counts (cnt c) (8 * blen m) → length (buf c) = B → bytes_ok m →
  holds s0 c m.
Proof. intros Hm Hs Hc Hb Hm8. split; try done. exists m, [], q. rewrite app_nil_r. split_and!; simpl; try done. lia. Qed.
Lemma m_blocks_spec s0 n c p d q :
  (length d ≤ n)%nat → holds s0 c p → length p = (q * B)%nat → bytes_ok d → 8 * blen d < 2 ^ 64 →
  ∃ c' d1 rest q', m_blocks n c d = (c', rest) ∧ d = d1 ++ rest ∧ (length rest < B)%nat ∧
    holds s0 c' (p ++ d1) ∧ length (p ++ d1) = (q' * B)%nat.
Proof.
  revert c p d q. induction n as [|n IH]; intros c p d q Hn Hh Hp Hd H8; cbn [m_blocks].
  - destruct d; [|simpl in Hn; lia]. exists c, [], [], q. rewrite !app_nil_r. split_and!; simpl; try done. lia.
  - unfold blen, BZ. destruct (_ <? _) eqn:E; bool_props.
    { exists c, [], d, q. rewrite !app_nil_r. split_and!; try done. lia. }
    assert (Hb : length (take B d) = B) by (rewrite length_take; lia).
    assert (Hok : bytes_ok (take B d)) by by apply Forall_take.
    destruct (IH (mk (st (transform c (take B d))) (add (cnt (transform c (take B d))) (Z.shiftl (Z.of_nat B) 3))
                (buf (transform c (take B d)))) (p ++ take B d) (drop B d) (S q)) as (c' & d1 & rest & q' & He & Hr & Hl & Hh' & Hq).
    + rewrite length_drop. lia.
    + apply (holds_intro _ _ _ (S q)); rewrite ?st_mk, ?cnt_mk, ?buf_mk.
      * rewrite length_app. lia.
      * rewrite transform_st by done. rewrite (holds_whole _ _ _ _ Hh Hp).
        by rewrite (digest_app s0 p _ q Hp), (digest_one _ _ Hb).
      * rewrite transform_cnt, blen_app, Z.mul_add_distr_l, shiftl_8. unfold blen at 2. rewrite Hb.
        apply counts_add; [apply Hh|]. unfold blen in H8. lia.
      * by apply transform_buf.
      * apply Forall_app. split; [apply Hh|done].
    + rewrite length_app. lia.
    + by apply Forall_drop.
    + unfold blen in *. rewrite length_drop. lia.
    + exists c', (take B d ++ d1), rest, q'. rewrite <-(app_assoc _ d1), <-Hr, take_drop, app_assoc. done.
Qed.

Lemma m_rest_spec s0 c p d q :
  holds s0 c p → length p = (q * B)%nat → bytes_ok d → 8 * blen d < 2 ^ 64 → holds s0 (m_rest c d) (p ++ d).
Proof.
  intros Hh Hp Hd H8. unfold m_rest.
  destruct (m_blocks_spec s0 (length d) c p d q) as (c' & d1 & rest & q' & -> & -> & Hl & Hh' & Hq); [lia|done..|].
  rewrite app_assoc. destruct (0 <? blen rest) eqn:E; bool_props.
  - split; rewrite ?st_mk, ?cnt_mk, ?buf_mk.
    + exists (p ++ d1), rest, q'. split_and!; try done; [by apply (holds_whole _ _ _ q')|].
      apply (take_buffer_copy 0 rest _ []); [|done..]. rewrite (h_buffer _ _ _ Hh'). simpl. lia.
    + rewrite blen_app, Z.mul_add_distr_l, shiftl_8. apply counts_add; [apply Hh'|].
      rewrite blen_app in H8. pose proof (blen_nonneg d1). lia.
    + rewrite length_buffer_copy; rewrite (h_buffer _ _ _ Hh'); lia.
    + apply Forall_app in Hd as [_ Hd]. apply Forall_app. split; [apply Hh'|done].
  - destruct rest as [|? ?]; [|unfold blen in E; simpl in E; lia]. by rewrite app_nil_r.
Qed.

(** A message is taken in, whatever was before it. *)
Lemma m_update_spec s0 c m d :
  holds s0 c m → bytes_ok d → 8 * blen d < 2 ^ 64 → holds s0 (m_update c d) (m ++ d).
Proof.
  intros Hh Hd H8. destruct (h_split _ _ _ Hh) as (p & t & q & Hm & Hp & Ht & Hs & Htk).
  unfold m_update. rewrite (used_space s0 c m p t q Hh Hm Hp Ht).
  destruct (blen d =? 0) eqn:E0; bool_props.
  { destruct d; [by rewrite app_nil_r|unfold blen in E0; simpl in E0; lia]. }
  pose proof (h_buffer _ _ _ Hh) as Hbuf. destruct (0 <? blen t) eqn:E1; bool_props.
  2:{ destruct t; [|unfold blen in E1; simpl in E1; lia]. rewrite app_nil_r in Hm. subst p. by apply (m_rest_spec _ _ _ _ q). }
  cbv zeta. replace (Z.to_nat (blen t)) with (length t) by (unfold blen; lia).
  destruct (_ <=? blen d) eqn:E2; bool_props; unfold BZ, blen in E2.
  - replace (Z.to_nat (BZ - blen t)) with (B - length t)%nat by (unfold BZ, blen; lia).
    set (x := take (B - length t) d). assert (Hx : length x = (B - length t)%nat) by (unfold x; rewrite length_take; lia).
    assert (Hxok : bytes_ok x) by by apply Forall_take.
    assert (Hb : buffer_copy (length t) x (buf c) = t ++ x).
    { rewrite <-(take_buffer_copy (length t) x (buf c) t) by (done || lia). rewrite take_ge; [done|].
      rewrite length_buffer_copy, length_app; lia. }
    rewrite Hb. assert (Hbl : length (t ++ x) = B) by (rewrite length_app; lia).
    assert (Hbok : bytes_ok (t ++ x)).
    { apply Forall_app. split; [|done]. pose proof (h_bytes _ _ _ Hh) as Ho. rewrite Hm in Ho. by apply Forall_app in Ho as [_ Ho]. }
    set (y := drop (B - length t) d). assert (Ed : d = x ++ y) by (unfold x, y; by rewrite take_drop).
    replace (m ++ d) with ((m ++ x) ++ y) by (by rewrite Ed, app_assoc).
    apply (m_rest_spec _ _ _ _ (S q)).
    + apply (holds_intro _ _ _ (S q)); rewrite ?Hm, <-?app_assoc, ?transform_cnt, ?cnt_mk.
      * rewrite length_app. lia.
      * by rewrite transform_st, st_mk, Hs, (digest_app s0 p _ q Hp), (digest_one _ _ Hbl).
      * rewrite app_assoc, <-Hm, blen_app, Z.mul_add_distr_l, shiftl_8.
        replace (BZ - blen t) with (blen x) by (unfold BZ, blen; lia). apply counts_add; [apply Hh|].
        unfold x, blen in *. rewrite length_take. lia.
      * by apply transform_buf.
      * apply Forall_app. split; [|done]. pose proof (h_bytes _ _ _ Hh) as Ho. rewrite Hm in Ho. by apply Forall_app in Ho as [Ho _].
    + rewrite Hm, <-app_assoc, length_app. lia.
    + by apply Forall_drop.
    + unfold y, blen in *. rewrite length_drop. lia.
  - split; rewrite ?st_mk, ?cnt_mk, ?buf_mk.
    + exists p, (t ++ d), q. rewrite Hm, <-app_assoc. split_and!; try done; [rewrite length_app; lia|].
      apply take_buffer_copy; [lia|done..].
    + rewrite blen_app, Z.mul_add_distr_l, shiftl_8. apply counts_add; [apply Hh|]. pose proof (blen_nonneg d). lia.
    + rewrite length_buffer_copy; lia.
    + apply Forall_app. split; [apply Hh|done].
Qed.

Definition zeros (len : Z) : nat := Z.to_nat ((BZ - (BZ - shortZ) - (len + 1)) mod BZ).

Lemma take_zeros i n x : (i ≤ n)%nat → take i (buffer_copy 0 (replicate n 0) x) = replicate i 0.
Proof.
  intros Hi. unfold buffer_copy. rewrite take_0. cbn [app]. rewrite take_app_le by (rewrite length_replicate; lia).
  rewrite take_replicate. f_equal. lia.
Qed.

(** What the padding before the count comes to: the block in the buffer but for its
    count, after the blocks [p]. *)
Definition padded (s0 : list Z) (c0 c : C) (l : bytes) : Prop :=
  ∃ p q, st c = digest s0 p ∧ length p = (q * B)%nat ∧ cnt c = flip (cnt c0) ∧
    length (buf c) = B ∧ l = p ++ take short (buf c).

Section Pad.
Context (s0 : list Z) (c : C) (p t : bytes) (q : nat).
Context (Hp : length p = (q * B)%nat) (Ht : (length t < B)%nat) (Hs : st c = digest s0 p)
        (Htk : take (length t) (buf c) = t) (Hbuf : length (buf c) = B) (Hok : bytes_ok t).
Let t1 := t ++ [0x80].
Let b := buffer_copy (length t) [0x80] (buf c).

Lemma length_t1 : length t1 = S (length t).
Proof. unfold t1. rewrite length_app. simpl. lia. Qed.
Lemma b_prefix : take (length t1) b = t1 ∧ length b = B.
Proof.
  unfold b, t1. split; [|rewrite length_buffer_copy; simpl; lia].
  apply take_buffer_copy; [simpl; lia|done|done].
Qed.

(** The mark and the count fit. *)
Lemma pad_short n :
  (length t1 + n = short)%nat →
  padded s0 c (mk (st c) (flip (cnt c)) (buffer_copy (length t1) (replicate n 0) b)) (p ++ t1 ++ replicate n 0).
Proof.
  destruct b_prefix as [Hb Hl]. intros Hn. exists p, q. rewrite st_mk, cnt_mk, buf_mk.
  split_and!; try done; [rewrite length_buffer_copy; rewrite ?length_replicate; lia|]. f_equal.
  rewrite <-(take_buffer_copy (length t1) (replicate n 0) b t1) by (rewrite ?length_replicate; done || lia).
  f_equal. rewrite length_app, length_replicate. lia.
Qed.

(** The count needs a block of its own. *)
Lemma pad_long n b1 :
  (length t1 + n = B)%nat → b1 = t1 ++ replicate n 0 →
  let c1 := transform (mk (st c) (flip (cnt c)) b1) b1 in
  padded s0 c (mk (st c1) (cnt c1) (buffer_copy 0 (replicate zapped 0) (buf c1)))
    (p ++ t1 ++ replicate (n + short) 0).
Proof.
  intros Hn Hb1. assert (Hl : length b1 = B) by (rewrite Hb1, length_app, length_replicate; lia).
  assert (Hbok : bytes_ok b1).
  { rewrite Hb1. apply Forall_app. split; [apply Forall_app; split; [done|by repeat constructor]|by apply Forall_replicate]. }
  intros c1. pose proof (transform_buf (mk (st c) (flip (cnt c)) b1) b1 Hbok Hl) as Htb. fold c1 in Htb.
  exists (p ++ b1), (S q). rewrite st_mk, cnt_mk, buf_mk. unfold c1 at 1 2. rewrite transform_cnt, cnt_mk. split_and!.
  - by rewrite transform_st, st_mk, Hs, (digest_app s0 p _ q Hp), (digest_one _ _ Hl).
  - rewrite length_app. lia.
  - done.
  - rewrite length_buffer_copy; rewrite ?length_replicate; lia.
  - by rewrite take_zeros, Hb1, replicate_add, <-!app_assoc by lia.
Qed.

(** Nothing was left in the buffer. *)
Lemma pad_empty :
  t = [] →
  padded s0 c (mk (st c) (flip (cnt c)) (buffer_copy 0 [0x80] (buffer_copy 0 (replicate short 0) (buf c))))
    (p ++ t1 ++ replicate (short - 1) 0).
Proof.
  intros ->. exists p, q. rewrite st_mk, cnt_mk, buf_mk.
  assert (Hl : length (buffer_copy 0 (replicate short 0) (buf c)) = B).
  { rewrite length_buffer_copy; rewrite ?length_replicate; lia. }
  split_and!; try done; [rewrite length_buffer_copy; simpl; lia|]. f_equal. unfold t1. cbn [app].
  revert Hl. generalize (take_zeros short short (buf c) ltac:(lia)).
  generalize (buffer_copy 0 (replicate short 0) (buf c)). intros x Hx _. unfold buffer_copy. rewrite take_0. cbn [app length Nat.add].
  destruct short as [|n]; [lia|]. cbn [take]. rewrite take_drop_commute. cbn [Nat.add]. rewrite Hx. cbn [replicate drop Nat.sub].
  by rewrite Nat.sub_0_r.
Qed.
End Pad.

Lemma m_pad_spec s0 c m :
  holds s0 c m → padded s0 c (m_pad c) (m ++ 0x80 :: replicate (zeros (blen m)) 0).
Proof.
  intros Hh. destruct (h_split _ _ _ Hh) as (p & t & q & Hm & Hp & Ht & Hs & Htk).
  pose proof (h_buffer _ _ _ Hh) as Hbuf.
  assert (Hok : bytes_ok t).
  { pose proof (h_bytes _ _ _ Hh) as Ho. rewrite Hm in Ho. by apply Forall_app in Ho as [_ Ho]. }
  assert (Hz : Z.of_nat (zeros (blen m)) = (shortZ - (blen t + 1)) mod BZ).
  { unfold zeros. rewrite Z2Nat.id by (apply Z.mod_pos_bound; unfold BZ; lia).
    rewrite Hm, blen_app. unfold blen at 1. rewrite Hp, Nat2Z.inj_mul. fold BZ.
    replace (BZ - (BZ - shortZ) - (Z.of_nat q * BZ + blen t + 1)) with (shortZ - (blen t + 1) + - Z.of_nat q * BZ) by lia.
    apply Z.mod_add. unfold BZ. lia. }
  assert (Hl1 : length (t ++ [0x80]) = S (length t)) by (rewrite length_app; simpl; lia).
  destruct (b_prefix c p t q Hp Ht Htk Hbuf) as [Hb Hbl].
  unfold m_pad. rewrite (used_space s0 c m p t q Hh Hm Hp Ht). cbv zeta. rewrite !st_mk, !cnt_mk, !buf_mk.
  replace (m ++ 0x80 :: replicate (zeros (blen m)) 0) with (p ++ (t ++ [0x80]) ++ replicate (zeros (blen m)) 0)
    by (by rewrite Hm, <-!app_assoc).
  replace (Z.to_nat (blen t)) with (length t) by (unfold blen; lia).
  replace (Z.to_nat (blen t + 1)) with (length (t ++ [0x80])) by (rewrite Hl1; unfold blen; lia).
  unfold shortZ, BZ, blen in *. destruct (0 <? _) eqn:E1; bool_props.
  - destruct (_ <=? _) eqn:E2; bool_props.
    + rewrite Z.mod_small in Hz by lia.
      replace (Z.to_nat (Z.of_nat short - (Z.of_nat (length t) + 1))) with (zeros (Z.of_nat (length m))) by lia.
      apply (pad_short s0 c p t q); done || lia.
    + rewrite <-(Z.mod_add _ 1 (Z.of_nat B)), Z.mod_small in Hz by lia.
      replace (zeros (Z.of_nat (length m))) with ((B - S (length t)) + short)%nat by lia.
      apply (pad_long s0 c p t q); try done; [lia|].
      destruct (_ <? Z.of_nat B) eqn:E3; bool_props.
      * replace (Z.to_nat (Z.of_nat B - (Z.of_nat (length t) + 1))) with (B - S (length t))%nat by lia.
        rewrite <-(take_ge (buffer_copy _ (replicate _ _) _) (length ((t ++ [0x80]) ++ replicate (B - S (length t)) 0))).
        { apply take_buffer_copy; rewrite ?length_replicate; done || lia. }
        rewrite length_buffer_copy, length_app; rewrite length_replicate; lia.
      * replace (B - S (length t))%nat with O by lia. cbn [replicate]. rewrite app_nil_r, <-Hb at 1.
        symmetry. apply take_ge. lia.
  - assert (t = []) as -> by (destruct t; simpl in E1; [done|lia]).
    rewrite Nat2Z.id. rewrite Z.mod_small in Hz by (simpl; lia).
    replace (zeros (Z.of_nat (length m))) with (short - 1)%nat by (simpl in Hz; lia).
    by apply (pad_empty s0 c p [] q).
Qed.

(** The end of a message: the state is the digest of all of it, padded. *)
Lemma m_last_spec s0 c m :
  holds s0 c m →
  st (m_last c) =
  digest s0 (m ++ 0x80 :: replicate (zeros (blen m)) 0 ++ be_bytes (B - short) (8 * blen m)) ∧
  ∃ s b, st (m_last c) = compress s b.
Proof.
  intros Hh. destruct (m_pad_spec s0 c m Hh) as (p & q & Hs & Hp & Hc & Hb & Hm). unfold m_last. cbv zeta.
  rewrite Hc, (counts_put _ (8 * blen m)) by (done || apply Hh). set (b := take short _ ++ _).
  assert (Hl : length b = B) by (unfold b; rewrite length_app, length_be_bytes, length_take; lia).
  assert (Hok : bytes_ok b).
  { apply Forall_app. split; [|apply be_bytes_ok].
    assert (Ho : bytes_ok (m ++ 0x80 :: replicate (zeros (blen m)) 0)).
    { apply Forall_app. split; [apply Hh|]. constructor; [done|by apply Forall_replicate]. }
    rewrite Hm in Ho. by apply Forall_app in Ho as [_ Ho]. }
  rewrite transform_st, st_mk by done. split; [|by eexists _, _].
  replace (m ++ 0x80 :: replicate (zeros (blen m)) 0 ++ be_bytes (B - short) (8 * blen m)) with (p ++ b).
  - by rewrite (digest_app s0 p b q Hp), (digest_one _ _ Hl), Hs.
  - unfold b. rewrite app_assoc, <-Hm, <-app_assoc. done.
Qed.

Lemma m_stream s0 c0 chunks :
  holds s0 c0 [] → Forall bytes_ok chunks → Forall (λ d, 8 * blen d < 2 ^ 64) chunks →
  holds s0 (foldl m_update c0 chunks) (concat chunks).
Proof.
  intros Hh Hok H8. change (concat chunks) with ([] ++ concat chunks). revert c0 Hh. generalize (@nil Z).
  revert H8. induction Hok as [|d chunks Hd Hok IH]; intros H8 m c0 Hh; cbn [foldl concat]; [by rewrite app_nil_r|].
  apply Forall_cons in H8 as [H8 H8s]. rewrite app_assoc. apply IH; [done|]. by apply m_update_spec.
Qed.
Lemma m_message s0 c0 chunks :
  st c0 = s0 → counts (cnt c0) 0 → length (buf c0) = B →
  Forall bytes_ok chunks → Forall (λ d, 8 * blen d < 2 ^ 64) chunks →
  let m := concat chunks in
  let c := m_last (foldl m_update c0 chunks) in
  st c = digest s0 (m ++ 0x80 :: replicate (zeros (blen m)) 0 ++ be_bytes (B - short) (8 * blen m)) ∧
  ∃ s b, st c = compress s b.
Proof.
  intros Hs Hc Hb Hok H8 m c. apply m_last_spec, m_stream; [|done..].
  apply (holds_intro _ _ _ 0); rewrite ?digest_short; simpl; done || lia.
Qed.
End Stream.

(** ** The digests of the code *)

Lemma compress_words P s b : Forall (in_word (word_bits P)) (compress P s b).
Proof.
  unfold compress. destruct (run_rounds _ _ _ _) as [[[[[[[a b'] c] d] e] f] g] h].
  apply Forall_zip_with_fst with (P := λ _, True); [by apply Forall_true|].
  apply Forall_true. intros y x _. apply wrap_range. unfold word_bits. lia.
Qed.
Lemma length_compress P s b : length s = 8%nat → length (compress P s b) = 8%nat.
Proof.
  intros Hs. unfold compress. destruct (run_rounds _ _ _ _) as [[[[[[[a b'] c] d] e] f] g] h].
  rewrite length_zip_with, Hs. done.
Qed.
Lemma length_digest P B s l : length s = 8%nat → length (digest B (compress P) s l) = 8%nat.
Proof.
  unfold digest. generalize (reshape (replicate (length l / B) B) l). intros bs. revert s.
  induction bs as [|b bs IH]; intros s Hs; [done|]. cbn [foldl]. by apply IH, length_compress.
Qed.
Lemma stored P n (REV : Z → Z) s :
  (∀ l, bytes_ok l → length l = n → REV (le_word l) = be_word l) → n = word_bytes P →
  Forall (in_word (word_bits P)) s →
  concat ((λ w, le_bytes n (REV w)) <$> s) = concat (be_bytes n <$> s).
Proof.
  intros HR -> Hs. f_equal. induction Hs as [|w s Hw Hs IH]; [done|]. cbn [fmap list_fmap]. f_equal; [|done].
  by apply store_be.
Qed.
Lemma le_bytes_wrap n w : le_bytes n (wrap (8 * Z.of_nat n) w) = le_bytes n w.
Proof.
  unfold wrap. rewrite <-le_word_bytes. rewrite <-(length_le_bytes n w) at 1. apply le_bytes_word, le_bytes_ok.
Qed.
Lemma le_bytes_add a b w : le_bytes (a + b) w = le_bytes a w ++ le_bytes b (Z.shiftr w (8 * Z.of_nat a)).
Proof.
  revert w. induction a as [|a IH]; intros w; [by rewrite Z.shiftr_0_r|]. cbn [Nat.add le_bytes app].
  rewrite IH, Z.shiftr_shiftr by lia. do 4 f_equal. lia.
Qed.
(** A count in a word, stored in the order of the standard. *)
Lemma count_stored n : le_bytes 8 (REVERSE64 (u64 n)) = be_bytes 8 n.
Proof.
  rewrite (store_be 8 REVERSE64 _ REVERSE64_bytes) by by apply wrap_range. unfold be_bytes. f_equal. apply (le_bytes_wrap 8).
Qed.
Lemma count_low B n : 0 < B → (B | 2 ^ 61) → Z.shiftr (u64 (8 * n)) 3 mod B = n mod B.
Proof.
  intros HB Hd. rewrite Z.shiftr_div_pow2 by done. unfold wrap. change (2 ^ 64) with (2 ^ 3 * 2 ^ 61).
  change 8 with (2 ^ 3). rewrite Z.mul_mod_distr_l, Z.mul_comm, Z.div_mul by done.
  apply Z.mod_mod_divide; done || lia.
Qed.

(** *** SHA-256 *)

Definition params256 : sha_params :=
  Sha 4 64 (2, 13, 22) (6, 11, 25) (7, 18, 3) (17, 19, 10) K256 sha256_initial_hash_value 8.
Lemma params256_fips : params256 = FIPS_SHA256.
Proof. unfold params256. destruct tables as (-> & -> & _). done. Qed.

Lemma round256 r k w : sha256_round r k w = fips_round params256 r k w.
Proof. reflexivity. Qed.
Lemma load256 n j data W r : transform_load n j data W r = b_load params256 REVERSE32 n j data W r.
Proof. reflexivity. Qed.
Lemma mix256 n j W r : transform_mix n j W r = b_mix params256 n j W r.
Proof. reflexivity. Qed.
Lemma Transform256_spec c d :
  bytes_ok d → length d = 64%nat →
  ∃ junk, SHA256i_Transform c d = Ctx (compress params256 (state c) d) (bitcount c) junk ∧ length junk = 64%nat.
Proof.
  intros Hd Hl. destruct (b_transform_spec params256 REVERSE32 REVERSE32_bytes ltac:(simpl; lia) eq_refl (state c) (buffer c) d Hd Hl)
    as (junk & Hb & Hj).
  exists junk. split; [|done].
  assert (Ht : SHA256i_Transform c d =
    let '(s, b) := b_transform params256 REVERSE32 (state c) (buffer c) d in Ctx s (bitcount c) b).
  { unfold SHA256i_Transform, b_transform. rewrite load256. change (words 16) with (b_words params256 16).
    destruct (b_load _ _ _ _ _ _ _) as [W r]. rewrite mix256. by destruct (b_mix _ _ _ _ _) as [W' r']. }
  by rewrite Ht, Hb.
Qed.

Definition add256 (k x : Z) : Z := u64 (k + x).
Definition put256 (k : Z) (b : bytes) : bytes := buffer_copy 56 (le_bytes 8 k) b.
Definition counts256 (k n : Z) : Prop := k = u64 n.

Lemma Transform256_count c d : bitcount (SHA256i_Transform c d) = bitcount c.
Proof. unfold SHA256i_Transform. by destruct (transform_load _ _ _ _ _), (transform_mix _ _ _ _). Qed.

#[local] Opaque SHA256i_Transform buffer_copy REVERSE64 REVERSE32 le_bytes.
Lemma blocks256 n c d :
  update_blocks n c d = m_blocks 64 state bitcount buffer Ctx SHA256i_Transform add256 n c d.
Proof. reflexivity. Qed.
Lemma Update256 c d :
  SHA256i_Update c d = m_update 64 state bitcount buffer Ctx SHA256i_Transform add256 (λ k, k) c d.
Proof. reflexivity. Qed.
Lemma Final256 c :
  SHA256i_Final c =
  concat ((λ w, le_bytes 4 (REVERSE32 w)) <$>
    state (m_last 64 56 56 state bitcount buffer Ctx SHA256i_Transform (λ k, k) REVERSE64 put256 c)).
Proof.
  unfold SHA256i_Final, m_last, m_pad. cbv zeta. cbn [state bitcount buffer]. 
  change (Z.of_nat 64) with SHA256i_BLOCK_LENGTH. change (Z.of_nat 56) with SHA256_SHORT_BLOCK_LENGTH.
  reflexivity.
Qed.

Lemma foldl256 c chunks :
  foldl SHA256i_Update c chunks =
  foldl (m_update 64 state bitcount buffer Ctx SHA256i_Transform add256 (λ k, k)) c chunks.
Proof. reflexivity. Qed.
Lemma put256_spec k n b :
  counts256 k n → length b = 64%nat → put256 (REVERSE64 k) b = take 56 b ++ be_bytes 8 n.
Proof.
  intros -> Hb. unfold put256. rewrite count_stored. Transparent buffer_copy. unfold buffer_copy. Opaque buffer_copy.
  rewrite length_be_bytes, drop_ge by (rewrite Hb; done). by rewrite app_nil_r.
Qed.

(** A digest of the standard from the words of the last state. *)
Lemma fips_sha_digest P m s :
  s = digest (block_bytes P) (compress P) (initial P) (m ++ padding P (blen m)) →
  concat (be_bytes (word_bytes P) <$> take (digest_words P) s) = fips_sha P m.
Proof. by intros ->. Qed.

Lemma message256 chunks :
  Forall bytes_ok chunks → Forall (λ d, 8 * blen d < 2 ^ 64) chunks →
  let c := m_last 64 56 56 state bitcount buffer Ctx SHA256i_Transform (λ k, k) REVERSE64 put256
             (foldl SHA256i_Update SHA256i_Init chunks) in
  state c = digest 64 (compress params256) sha256_initial_hash_value (concat chunks ++ padding params256 (blen (concat chunks))) ∧
  ∃ s b, state c = compress params256 s b.
Proof.
  intros Hok H8. rewrite foldl256.
  apply (m_message 64 56 56 (compress params256) state bitcount buffer Ctx SHA256i_Transform add256 (λ k, k) REVERSE64
              put256 counts256).
  - lia.
  - lia.
  - reflexivity.
  - reflexivity.
  - reflexivity.
  - intros c d Hd Hl. by destruct (Transform256_spec c d Hd Hl) as (junk & -> & _).
  - apply Transform256_count.
  - intros c d Hd Hl. by destruct (Transform256_spec c d Hd Hl) as (junk & -> & ?).
  - intros k n x -> _. apply wrap_add_l.
  - intros k n ->. apply count_low; [done|]. by exists (2 ^ 55).
  - apply put256_spec.
  - reflexivity.
  - reflexivity.
  - reflexivity.
  - exact Hok.
  - exact H8.
Qed.

Lemma sha256_fips chunks :
  Forall bytes_ok chunks → Forall (λ d, 8 * blen d < 2 ^ 64) chunks →
  SHA256i_Final (foldl SHA256i_Update SHA256i_Init chunks) = fips_sha FIPS_SHA256 (concat chunks).
Proof.
  intros Hok H8. destruct (message256 chunks Hok H8) as [Hs (s & b & Hw)]. rewrite <-params256_fips, Final256.
  rewrite (stored params256 4 REVERSE32).
  - rewrite <-(fips_sha_digest params256 _ _ Hs). f_equal. f_equal. symmetry. apply take_ge.
    rewrite Hs, length_digest; [|reflexivity]. reflexivity.
  - exact REVERSE32_bytes.
  - reflexivity.
  - rewrite Hw. apply compress_words.
Qed.

(** *** SHA-512 and SHA-384 *)

Definition params512 (h0 : list Z) (words : nat) : sha_params :=
  Sha 8 80 (28, 34, 39) (14, 18, 41) (1, 8, 7) (19, 61, 6) K512 h0 words.
Lemma params512_fips : params512 sha512_initial_hash_value 8 = FIPS_SHA512.
Proof. unfold params512. destruct tables as (_ & _ & -> & -> & _). done. Qed.
Lemma params384_fips : params512 sha384_initial_hash_value 6 = FIPS_SHA384.
Proof. unfold params512. destruct tables as (_ & _ & _ & _ & -> & ->). done. Qed.

Section Words64.
Context (h0 : list Z) (words : nat).
Let P := params512 h0 words.

Lemma load512 n j data W r : transform_load512 n j data W r = b_load P REVERSE64 n j data W r.
Proof. reflexivity. Qed.
Lemma mix512 n j W r : transform_mix512 n j W r = b_mix P n j W r.
Proof. reflexivity. Qed.
Lemma Transform512_spec c d :
  bytes_ok d → length d = 128%nat →
  ∃ junk, SHA512i_Transform c d = Ctx512 (compress P (state512 c) d) (bitcount512 c) junk ∧ length junk = 128%nat.
Proof.
  intros Hd Hl. destruct (b_transform_spec P REVERSE64 REVERSE64_bytes ltac:(simpl; lia) eq_refl (state512 c) (buffer512 c) d Hd Hl)
    as (junk & Hb & Hj).
  exists junk. split; [|done].
  assert (Ht : SHA512i_Transform c d =
    let '(s, b) := b_transform P REVERSE64 (state512 c) (buffer512 c) d in Ctx512 s (bitcount512 c) b).
  { unfold SHA512i_Transform, b_transform. rewrite load512. change (words64 16) with (b_words P 16).
    destruct (b_load _ _ _ _ _ _ _) as [W r]. rewrite mix512. by destruct (b_mix _ _ _ _ _) as [W' r']. }
  by rewrite Ht, Hb.
Qed.
Lemma Transform512_count c d : bitcount512 (SHA512i_Transform c d) = bitcount512 c.
Proof. unfold SHA512i_Transform. by destruct (transform_load512 _ _ _ _ _), (transform_mix512 _ _ _ _). Qed.

#[local] Opaque SHA512i_Transform ADDINC128.
Definition put512 (k : Z * Z) (b : bytes) : bytes :=
  buffer_copy 120 (le_bytes 8 k.1) (buffer_copy 112 (le_bytes 8 k.2) b).
Definition flip512 (k : Z * Z) : Z * Z := (REVERSE64 k.1, REVERSE64 k.2).
Definition counts512 (k : Z * Z) (n : Z) : Prop := k = (u64 n, u64 (n / 2 ^ 64)).

Lemma foldl512 c chunks :
  foldl SHA512i_Update c chunks =
  foldl (m_update 128 state512 bitcount512 buffer512 Ctx512 SHA512i_Transform ADDINC128 fst) c chunks.
Proof. reflexivity. Qed.
Lemma Last512 c :
  SHA512i_Last c = m_last 128 112 126 state512 bitcount512 buffer512 Ctx512 SHA512i_Transform fst flip512 put512 c.
Proof.
  unfold SHA512i_Last, m_last, m_pad. cbv zeta. cbn [state512 bitcount512 buffer512].
  change (Z.of_nat 128) with SHA512i_BLOCK_LENGTH. change (Z.of_nat 112) with SHA512_SHORT_BLOCK_LENGTH.
  reflexivity.
Qed.

Lemma put512_spec k n b :
  counts512 k n → length b = 128%nat → put512 (flip512 k) b = take 112 b ++ be_bytes 16 n.
Proof.
  intros -> Hb. unfold put512, flip512. cbn [fst snd]. rewrite !count_stored.
  Transparent buffer_copy. unfold buffer_copy. Opaque buffer_copy. rewrite !length_be_bytes.
  rewrite (drop_ge _ (120 + 8)) by (rewrite !length_app, length_take, length_drop, length_be_bytes; lia).
  rewrite app_nil_r, app_assoc, take_app_length' by (rewrite length_app, length_take, length_be_bytes; lia).
  rewrite <-app_assoc. f_equal. unfold be_bytes. change 16%nat with (8 + 8)%nat.
  by rewrite le_bytes_add, reverse_app, Z.shiftr_div_pow2 by done.
Qed.
Lemma ADDINC128_spec k n x : counts512 k n → 0 ≤ x < 2 ^ 64 → counts512 (ADDINC128 k x) (n + x).
Proof.
  Transparent ADDINC128. intros -> Hx. unfold counts512, ADDINC128. cbn [fst snd].
  rewrite (wrap_small 64 x) by done. rewrite wrap_add_l. f_equal.
  unfold wrap. set (q := n / 2 ^ 64). set (r := n mod 2 ^ 64).
  assert (Hn : n = q * 2 ^ 64 + r) by (unfold q, r; rewrite (Z.div_mod n (2 ^ 64)) at 1 by done; lia).
  assert (Hr : 0 ≤ r < 2 ^ 64) by by apply Z.mod_pos_bound.
  replace (n + x) with (r + x + q * 2 ^ 64) by lia. rewrite Z.mod_add, Z.div_add by done.
  destruct (decide (r + x < 2 ^ 64)).
  - rewrite (Z.mod_small (r + x)), (Z.div_small (r + x)) by lia.
    destruct (Z.ltb_spec (r + x) x); [lia|done].
  - assert (Hc : r + x = r + x - 2 ^ 64 + 1 * 2 ^ 64) by lia. rewrite Hc at 1 2. rewrite Z.mod_add, Z.div_add by done.
    rewrite (Z.mod_small (r + x - 2 ^ 64)), (Z.div_small (r + x - 2 ^ 64)) by lia.
    destruct (Z.ltb_spec (r + x - 2 ^ 64) x); [|lia]. rewrite Zplus_mod_idemp_l. f_equal. lia.
Qed.
#[local] Opaque ADDINC128.

Lemma message512 c0 chunks :
  state512 c0 = h0 → bitcount512 c0 = (0, 0) → length (buffer512 c0) = 128%nat →
  Forall bytes_ok chunks → Forall (λ d, 8 * blen d < 2 ^ 64) chunks →
  let c := SHA512i_Last (foldl SHA512i_Update c0 chunks) in
  state512 c = digest 128 (compress P) h0 (concat chunks ++ padding P (blen (concat chunks))) ∧
  ∃ s b, state512 c = compress P s b.
Proof.
  intros Hs Hc Hb Hok H8. rewrite foldl512, Last512.
  apply (m_message 128 112 126 (compress P) state512 bitcount512 buffer512 Ctx512 SHA512i_Transform ADDINC128 fst flip512
              put512 counts512).
  - lia.
  - lia.
  - reflexivity.
  - reflexivity.
  - reflexivity.
  - intros c d Hd Hl. by destruct (Transform512_spec c d Hd Hl) as (junk & -> & _).
  - apply Transform512_count.
  - intros c d Hd Hl. by destruct (Transform512_spec c d Hd Hl) as (junk & -> & ?).
  - exact ADDINC128_spec.
  - intros k n ->. apply count_low; [done|]. by exists (2 ^ 54).
  - exact put512_spec.
  - exact Hs.
  - rewrite Hc. reflexivity.
  - exact Hb.
  - exact Hok.
  - exact H8.
Qed.
Lemma sha512_words c0 chunks :
  state512 c0 = h0 → bitcount512 c0 = (0, 0) → length (buffer512 c0) = 128%nat → length h0 = 8%nat →
  Forall bytes_ok chunks → Forall (λ d, 8 * blen d < 2 ^ 64) chunks →
  let s := state512 (SHA512i_Last (foldl SHA512i_Update c0 chunks)) in
  concat ((λ w, le_bytes 8 (REVERSE64 w)) <$> take words s) = fips_sha P (concat chunks) ∧ length s = 8%nat.
Proof.
  intros Hs Hc Hb H0 Hok H8. destruct (message512 c0 chunks Hs Hc Hb Hok H8) as [Hd (s & b & Hcw)]. cbv zeta.
  split; [|rewrite Hd; by apply length_digest].
  rewrite (stored P 8 REVERSE64).
  - by rewrite <-(fips_sha_digest P _ _ Hd).
  - exact REVERSE64_bytes.
  - reflexivity.
  - apply Forall_take. rewrite Hcw. apply compress_words.
Qed.
End Words64.

(** *** Lengths *)

Lemma length_add_words w s a b c d e f g h :
  length s = 8%nat → length (zip_with (λ x y, wrap w (x + y)) s [a; b; c; d; e; f; g; h]) = 8%nat.
Proof. intros Hs. by rewrite length_zip_with, Hs. Qed.
Lemma Transform256_length c d : length (state c) = 8%nat → length (state (SHA256i_Transform c d)) = 8%nat.
Proof.
  Transparent SHA256i_Transform. intros Hc. unfold SHA256i_Transform. destruct (transform_load _ _ _ _ _) as [W r].
  destruct (transform_mix _ _ _ _) as [W' [[[[[[[? ?] ?] ?] ?] ?] ?] ?]]. by apply length_add_words.
Qed.
Lemma Transform512_length c d : length (state512 c) = 8%nat → length (state512 (SHA512i_Transform c d)) = 8%nat.
Proof.
  intros Hc. unfold SHA512i_Transform. destruct (transform_load512 _ _ _ _ _) as [W r].
  destruct (transform_mix512 _ _ _ _) as [W' [[[[[[[? ?] ?] ?] ?] ?] ?] ?]]. by apply length_add_words.
Qed.
#[local] Opaque SHA256i_Transform SHA512i_Transform.

Lemma stored_digest n (REV : Z → Z) s :
  bytes_ok (concat ((λ w, le_bytes n (REV w)) <$> s)) ∧
  length (concat ((λ w, le_bytes n (REV w)) <$> s)) = (n * length s)%nat.
Proof.
  induction s as [|w s [IH1 IH2]]; [split; [constructor|simpl; lia]|].
  cbn [fmap list_fmap concat length]. split.
  - apply Forall_app. split; [apply le_bytes_ok|done].
  - rewrite length_app, IH2, length_le_bytes. lia.
Qed.

Lemma sha256_length d : bytes_ok (sha256 d) ∧ length (sha256 d) = 32%nat.
Proof.
  unfold sha256. rewrite Final256. destruct (stored_digest 4 REVERSE32
    (state (m_last 64 56 56 state bitcount buffer Ctx SHA256i_Transform (λ k, k) REVERSE64 put256
              (SHA256i_Update SHA256i_Init d)))) as [H1 H2]. split; [exact H1|]. rewrite H2, m_last_keeps with (Q := λ s, length s = 8%nat).
  - reflexivity.
  - reflexivity.
  - exact Transform256_length.
  - rewrite Update256. apply m_update_keeps with (Q := λ s, length s = 8%nat).
    + reflexivity.
    + exact Transform256_length.
    + reflexivity.
Qed.
Lemma Last512_length c : length (state512 c) = 8%nat → length (state512 (SHA512i_Last c)) = 8%nat.
Proof.
  intros Hc. rewrite Last512. apply m_last_keeps with (Q := λ s, length s = 8%nat).
  - reflexivity.
  - exact Transform512_length.
  - exact Hc.
Qed.
Lemma Update512_length c d : length (state512 c) = 8%nat → length (state512 (SHA512i_Update c d)) = 8%nat.
Proof.
  intros Hc. change (SHA512i_Update c d) with (foldl SHA512i_Update c [d]). rewrite foldl512. cbn [foldl].
  apply m_update_keeps with (Q := λ s, length s = 8%nat).
  - reflexivity.
  - exact Transform512_length.
  - exact Hc.
Qed.
Lemma sha512_length d : bytes_ok (sha512 d) ∧ length (sha512 d) = 64%nat.
Proof.
  unfold sha512, SHA512i_Final. destruct (stored_digest 8 REVERSE64 (state512 (SHA512i_Last (SHA512i_Update SHA512i_Init d))))
    as [H1 H2]. split; [exact H1|]. rewrite H2, Last512_length; [reflexivity|]. by apply Update512_length.
Qed.
Lemma sha384_length d : bytes_ok (sha384 d) ∧ length (sha384 d) = 48%nat.
Proof.
  unfold sha384, SHA384i_Final, SHA384i_Update.
  destruct (stored_digest 8 REVERSE64 (take 6 (state512 (SHA512i_Last (SHA512i_Update SHA384i_Init d)))))
    as [H1 H2]. split; [exact H1|]. rewrite H2, length_take, Last512_length; [reflexivity|]. by apply Update512_length.
Qed.

(** ** Properties *)

(** C21 (equivalence). However a message is cut into updates, the code's SHA-256,
    SHA-512 and SHA-384 of it are those of the standard.  (No update takes 2^61 bytes
    or more: the code computes its length in bits in a machine word.) *)
Theorem sha2_is_fips chunks :
  Forall bytes_ok chunks → Forall (λ d, 8 * blen d < 2 ^ 64) chunks →
  SHA256i_Final (foldl SHA256i_Update SHA256i_Init chunks) = fips_sha FIPS_SHA256 (concat chunks) ∧
  SHA512i_Final (foldl SHA512i_Update SHA512i_Init chunks) = fips_sha FIPS_SHA512 (concat chunks) ∧
  SHA384i_Final (foldl SHA384i_Update SHA384i_Init chunks) = fips_sha FIPS_SHA384 (concat chunks).
Proof.
  intros Hok H8. split_and!.
  - by apply sha256_fips.
  - rewrite <-params512_fips. destruct (sha512_words sha512_initial_hash_value 8 SHA512i_Init chunks eq_refl eq_refl eq_refl eq_refl Hok H8)
      as [<- Hl]. unfold SHA512i_Final. by rewrite take_ge by (rewrite Hl; done).
  - rewrite <-params384_fips.
    by destruct (sha512_words sha384_initial_hash_value 6 SHA384i_Init chunks eq_refl eq_refl eq_refl eq_refl Hok H8) as [<- _].
Qed.

Lemma sha2_is_fips_witness :
  let chunks := [[97]; []; [98; 99]] in
  SHA256i_Final (foldl SHA256i_Update SHA256i_Init chunks) = fips_sha FIPS_SHA256 (concat chunks) ∧
  SHA512i_Final (foldl SHA512i_Update SHA512i_Init chunks) = fips_sha FIPS_SHA512 (concat chunks) ∧
  SHA384i_Final (foldl SHA384i_Update SHA384i_Init chunks) = fips_sha FIPS_SHA384 (concat chunks).
Proof. apply sha2_is_fips; repeat constructor; done. Defined.

(** The standard's example. *)
Example fips_sha_abc :
  hex (fips_sha FIPS_SHA256 [97; 98; 99]) = "ba7816bf8f01cfea414140de5dae2223b00361a396177a9cb410ff61f20015ad".
Proof. vm_compute. reflexivity. Qed.
