(* ===== verification/Sha2Unrolled.v ===== *)
(** * Sha2Unrolled: the unrolled transforms of SHA-2

    [lib/vtrc/common/hash/sha2.cimpl] compiled with [SHA2_UNROLL_TRANSFORM]: the
    registers stay where they are and the names of a round's arguments turn, eight
    rounds to a turn of the loop.  The transforms are those of Sha2 and Sha512.

    A macro is given the places of its arguments in the file of the registers.  The
    macros of both word sizes are the same but for the operations on words. *)

From S2P Require Import Prelude Sha2 Sha512.

(** [W256], the registers, [j] and what [data] points to. *)
Record unrolled : Type := Unrolled {
  sched : list Z;
  places : list Z;
  index : Z;
  input : list Z
}.

Definition reg (s : unrolled) (i : nat) : Z := default 0 (places s !! i).

(** [do body while( j < n )]; every turn is eight rounds. *)
Fixpoint do_while (fuel : nat) (n : Z) (body : unrolled → unrolled) (s : unrolled) : unrolled :=
  match fuel with
  | O => s
  | S fuel => let s := body s in if index s <? n then do_while fuel n body s else s
  end.

Definition round_type : Type := nat → nat → nat → nat → nat → nat → nat → nat → unrolled → unrolled.

(** The eight rounds of a turn; the registers [a] to [h] are the places 0 to 7. *)
Definition eight (round : round_type) (s : unrolled) : unrolled :=
  let s := (round 0 1 2 3 4 5 6 7)%nat s in
  let s := (round 7 0 1 2 3 4 5 6)%nat s in
  let s := (round 6 7 0 1 2 3 4 5)%nat s in
  let s := (round 5 6 7 0 1 2 3 4)%nat s in
  let s := (round 4 5 6 7 0 1 2 3)%nat s in
  let s := (round 3 4 5 6 7 0 1 2)%nat s in
  let s := (round 2 3 4 5 6 7 0 1)%nat s in
  (round 1 2 3 4 5 6 7 0)%nat s.

(** Both loops, from the registers of the state and the words of the block. *)
Definition unrolled_rounds (round_0_to_15 round : round_type) (n : Z) (state W data : list Z) : unrolled :=
  let s := Unrolled W [nthZ state 0; nthZ state 1; nthZ state 2; nthZ state 3; nthZ state 4; nthZ state 5;
                       nthZ state 6; nthZ state 7] 0 data in
  let s := do_while 2 16 (eight round_0_to_15) s in
  do_while (Z.to_nat n) n (eight round) s.

Section Macros.
Context (width : Z) (REVERSE Sigma0 Sigma1 sigma0 sigma1 : Z → Z) (Ch : Z → Z → Z → Z) (K : list Z).
Implicit Types a b c d e f g h : nat.

(** The lines of a round that follow the word of the schedule. *)
Definition ROUND_TAIL a b c d e f g h (w : Z) (s : unrolled) : unrolled :=
  let T1 := wrap width (reg s h + Sigma1 (reg s e) + Ch (reg s e) (reg s f) (reg s g) + nthZ K (index s) + w) in
  let s := Unrolled (sched s) (<[d := wrap width (reg s d + T1)]> (places s)) (index s) (input s) in
  let s := Unrolled (sched s) (<[h := wrap width (T1 + Sigma0 (reg s a) + Maj (reg s a) (reg s b) (reg s c))]> (places s))
             (index s) (input s) in
  Unrolled (sched s) (places s) (index s + 1) (input s).

Definition ROUND_0_TO_15 a b c d e f g h (s : unrolled) : unrolled :=
  let w := REVERSE (default 0 (head (input s))) in
  ROUND_TAIL a b c d e f g h w
    (Unrolled (<[Z.to_nat (index s) := w]> (sched s)) (places s) (index s) (tail (input s))).

Definition ROUND a b c d e f g h (s : unrolled) : unrolled :=
  let W := sched s in
  let j := index s in
  let s0 := sigma0 (nthZ W (Z.land (j + 1) 0x0f)) in
  let s1 := sigma1 (nthZ W (Z.land (j + 14) 0x0f)) in
  let w := wrap width (nthZ W (Z.land j 0x0f) + (s1 + nthZ W (Z.land (j + 9) 0x0f) + s0)) in
  ROUND_TAIL a b c d e f g h w (Unrolled (<[Z.to_nat (Z.land j 0x0f) := w]> W) (places s) j (input s)).

(** ** Against the rounds that move the registers *)

Definition roll (r : regs) (k w : Z) : regs :=
  let '(a, b, c, d, e, f, g, h) := r in
  let T1 := wrap width (h + Sigma1 e + Ch e f g + k + w) in
  let T2 := wrap width (Sigma0 a + Maj a b c) in
  (wrap width (T1 + T2), a, b, c, wrap width (d + T1), e, f, g).
Fixpoint load (n : nat) (j : Z) (data W : list Z) (r : regs) : list Z * regs :=
  match n, data with
  | S n, x :: data =>
      let w := REVERSE x in
      load n (j + 1) data (<[Z.to_nat j := w]> W) (roll r (nthZ K j) w)
  | _, _ => (W, r)
  end.
Fixpoint mix (n : nat) (j : Z) (W : list Z) (r : regs) : list Z * regs :=
  match n with
  | O => (W, r)
  | S n =>
      let s0 := sigma0 (nthZ W (Z.land (j + 1) 0x0f)) in
      let s1 := sigma1 (nthZ W (Z.land (j + 14) 0x0f)) in
      let w := wrap width (nthZ W (Z.land j 0x0f) + (s1 + nthZ W (Z.land (j + 9) 0x0f) + s0)) in
      mix n (j + 1) (<[Z.to_nat (Z.land j 0x0f) := w]> W) (roll r (nthZ K j) w)
  end.

(** The registers as the round with these arguments sees them. *)
Definition view (s : unrolled) a b c d e f g h : regs :=
  (reg s a, reg s b, reg s c, reg s d, reg s e, reg s f, reg s g, reg s h).

Lemma round_tail_rolls a b c d e f g h w s :
  NoDup [a; b; c; d; e; f; g; h] → (d < length (places s))%nat → (h < length (places s))%nat →
  let s1 := ROUND_TAIL a b c d e f g h w s in
  view s1 h a b c d e f g = roll (view s a b c d e f g h) (nthZ K (index s)) w ∧
  length (places s1) = length (places s) ∧ sched s1 = sched s ∧ index s1 = index s + 1 ∧ input s1 = input s.
Proof.
  intros HN Hd Hh. cbn zeta. split; [|by unfold ROUND_TAIL; cbn; rewrite !length_insert].
  repeat match goal with
  | H : NoDup (_ :: _) |- _ => apply NoDup_cons in H as [??]
  | H : _ ∉ _ :: _ |- _ => apply not_elem_of_cons in H as [??]
  end.

  unfold view, ROUND_TAIL, reg. cbn [places sched index input].
  repeat match goal with
  | |- context [<[?i:=?x]> ?l !! ?i] => rewrite (list_lookup_insert_eq l i x) by (rewrite ?length_insert; done)
  | |- context [<[?i:=?x]> ?l !! ?j] => rewrite (list_lookup_insert_ne l i j x) by congruence
  end.
  cbn [default roll id]. set (T1 := wrap width (_ + w)). clearbody T1. by rewrite wrap_add_r, (Z.add_assoc T1).
Qed.

Lemma load_app n m j l data W r :
  length l = n →
  load (n + m) j (l ++ data) W r = load m (j + Z.of_nat n) data (load n j l W r).1 (load n j l W r).2.
Proof.
  intros <-. revert j W r. induction l as [|x l IH]; intros j W r; cbn [length load app Nat.add fst snd].
  - f_equal. lia.
  - rewrite IH. f_equal. lia.
Qed.
Lemma mix_add n m j W r : mix (n + m) j W r = mix m (j + Z.of_nat n) (mix n j W r).1 (mix n j W r).2.
Proof.
  revert j W r. induction n as [|n IH]; intros j W r; cbn [mix Nat.add fst snd]; [f_equal; lia|].
  rewrite IH. f_equal. lia.
Qed.

(** The unrolled state at a point where the other loops have [W], [r], [j] and [data]. *)
Definition in_step a b c d e f g h (W : list Z) (r : regs) (j : Z) (data : list Z) (s : unrolled) : Prop :=
  view s a b c d e f g h = r ∧ length (places s) = 8%nat ∧ sched s = W ∧ index s = j ∧ input s = data.

Lemma load_in_step a b c d e f g h W r j x data s :
  NoDup [a; b; c; d; e; f; g; h] → (d < 8)%nat → (h < 8)%nat →
  in_step a b c d e f g h W r j (x :: data) s →
  in_step h a b c d e f g (<[Z.to_nat j := REVERSE x]> W) (roll r (nthZ K j) (REVERSE x)) (j + 1) data
    (ROUND_0_TO_15 a b c d e f g h s).
Proof.
  intros HN Hd Hh (<- & Hl & <- & <- & Hi). unfold ROUND_0_TO_15. rewrite Hi. cbn [head tail default id].
  unfold in_step. edestruct (round_tail_rolls a b c d e f g h) as (-> & -> & -> & -> & ->); [exact HN|cbn; lia|cbn; lia|]. done.
Qed.
Lemma mix_in_step a b c d e f g h W r j data s :
  NoDup [a; b; c; d; e; f; g; h] → (d < 8)%nat → (h < 8)%nat →
  in_step a b c d e f g h W r j data s →
  in_step h a b c d e f g (mix 1 j W r).1 (mix 1 j W r).2 (j + Z.of_nat 1) data (ROUND a b c d e f g h s).
Proof.
  intros HN Hd Hh (<- & Hl & <- & <- & Hi). unfold ROUND, in_step.
  edestruct (round_tail_rolls a b c d e f g h) as (-> & -> & -> & -> & ->); [exact HN|cbn; lia|cbn; lia|]. done.
Qed.

Lemma eight_load W r j x0 x1 x2 x3 x4 x5 x6 x7 data s
    (l := [x0; x1; x2; x3; x4; x5; x6; x7]) :
  in_step 0 1 2 3 4 5 6 7 W r j (l ++ data) s →
  in_step 0 1 2 3 4 5 6 7 (load 8 j l W r).1 (load 8 j l W r).2 (j + 8) data (eight ROUND_0_TO_15 s).
Proof.
  intros H. unfold l. cbn [load fst snd app] in *. unfold eight.
  replace (j + 8) with (j + 1 + 1 + 1 + 1 + 1 + 1 + 1 + 1) by lia.
  repeat (eapply load_in_step; [compute_done|lia|lia|]). exact H.
Qed.
Lemma eight_mix W r j data s :
  in_step 0 1 2 3 4 5 6 7 W r j data s →
  in_step 0 1 2 3 4 5 6 7 (mix 8 j W r).1 (mix 8 j W r).2 (j + 8) data (eight ROUND s).
Proof.
  intros H. unfold eight. cbv zeta. assert (Hj : ∃ z, z = j + 8) by eauto. destruct Hj as [z Hz]. rewrite <-Hz.
  do 7 (rewrite (mix_add 1); apply mix_in_step in H; [|compute_done|lia|lia]; destruct (mix 1 _ _ _) as [? ?]; cbn [fst snd] in * ).
  apply mix_in_step in H; [|compute_done|lia|lia]. replace z with (j + 1 + 1 + 1 + 1 + 1 + 1 + 1 + 1) by lia. exact H.
Qed.

(** The first loop takes two turns. *)
Lemma loop_load data W r s :
  length data = 16%nat → in_step 0 1 2 3 4 5 6 7 W r 0 data s →
  in_step 0 1 2 3 4 5 6 7 (load 16 0 data W r).1 (load 16 0 data W r).2 16 [] (do_while 2 16 (eight ROUND_0_TO_15) s).
Proof.
  intros Hd H.
  destruct data as [|x0 [|x1 [|x2 [|x3 [|x4 [|x5 [|x6 [|x7 data]]]]]]]]; try discriminate Hd.
  change (x0 :: x1 :: x2 :: x3 :: x4 :: x5 :: x6 :: x7 :: data) with ([x0; x1; x2; x3; x4; x5; x6; x7] ++ data) in *.
  apply eight_load in H. rewrite (load_app 8 8) by done. cbn [do_while]. set (s1 := eight _ s) in *.
  assert (Hi : index s1 = 8) by apply H. rewrite Hi. cbn [Z.ltb Z.compare Pos.compare Pos.compare_cont].
  destruct data as [|y0 [|y1 [|y2 [|y3 [|y4 [|y5 [|y6 [|y7 [|]]]]]]]]]; try discriminate Hd.
  rewrite <-(app_nil_r [y0; y1; y2; y3; y4; y5; y6; y7]) in H. apply eight_load in H. by destruct (_ <? _).
Qed.
(** The second one takes a turn for every eight rounds that are left. *)
Lemma loop_mix k fuel W r j data s :
  (k < fuel)%nat → in_step 0 1 2 3 4 5 6 7 W r j data s →
  let n := Z.of_nat (8 * S k) in
  in_step 0 1 2 3 4 5 6 7 (mix (8 * S k) j W r).1 (mix (8 * S k) j W r).2 (j + n) data
    (do_while fuel (j + n) (eight ROUND) s).
Proof.
  cbn zeta. revert fuel W r j s. induction k as [|k IH]; intros [|fuel] W r j s Hf H; try lia; cbn [do_while];
    apply eight_mix in H as H1; assert (Hi : index (eight ROUND s) = j + 8) by apply H1; rewrite Hi.
  - destruct (Z.ltb_spec (j + 8) (j + Z.of_nat (8 * 1))); [lia|]. exact H1.
  - destruct (Z.ltb_spec (j + 8) (j + Z.of_nat (8 * S (S k)))); [|lia].
    replace (8 * S (S k))%nat with (8 + 8 * S k)%nat by lia. rewrite mix_add.
    replace (j + Z.of_nat (8 + 8 * S k)) with (j + 8 + Z.of_nat (8 * S k)) by lia.
    apply IH; [lia|]. exact H1.
Qed.

(** The unrolled rounds leave the registers and the schedule as the others do. *)
Lemma unrolled_rounds_eq k state W data :
  length data = 16%nat →
  let s := unrolled_rounds ROUND_0_TO_15 ROUND (16 + Z.of_nat (8 * S k)) state W data in
  let '(W, r) := load 16 0 data W (load_regs state) in
  let '(W, r) := mix (8 * S k) 16 W r in
  sched s = W ∧ view s 0 1 2 3 4 5 6 7 = r ∧ length (places s) = 8%nat.
Proof.
  intros Hd. cbn zeta. unfold unrolled_rounds. cbv zeta. set (s0 := Unrolled _ _ _ _).
  assert (H : in_step 0 1 2 3 4 5 6 7 W (load_regs state) 0 data s0) by done.
  apply loop_load in H; [|exact Hd]. set (s1 := do_while 2 _ _ s0) in *.
  destruct (load 16 0 data W (load_regs state)) as [W1 r1]. cbn [fst snd] in H.
  apply (loop_mix k (Z.to_nat (16 + Z.of_nat (8 * S k)))) in H; [|lia].
  destruct (mix (8 * S k) 16 W1 r1) as [W2 r2]. destruct H as (Hv & Hl & Hs & _). done.
Qed.
End Macros.

(** ** The transforms *)

Definition ROUND256_0_TO_15 := ROUND_0_TO_15 32 REVERSE32 Sigma0_256 Sigma1_256 Ch K256.
Definition ROUND256 := ROUND 32 Sigma0_256 Sigma1_256 sigma0_256 sigma1_256 Ch K256.
Definition ROUND512_0_TO_15 := ROUND_0_TO_15 64 REVERSE64 Sigma0_512 Sigma1_512 Ch64 K512.
Definition ROUND512 := ROUND 64 Sigma0_512 Sigma1_512 sigma0_512 sigma1_512 Ch64 K512.

(** [context->state[0] += a; ...] *)
Definition add_places (width : Z) (state places : list Z) : list Z := zip_with (λ x y, wrap width (x + y)) state places.

Definition SHA256i_Transform_unrolled (context : SHA256i_CTX) (data : bytes) : SHA256i_CTX :=
  let s := unrolled_rounds ROUND256_0_TO_15 ROUND256 64 (state context) (words 16 (buffer context)) (words 16 data) in
  Ctx (add_places 32 (state context) (places s)) (bitcount context) (concat (le_bytes 4 <$> sched s)).
Definition SHA512i_Transform_unrolled (context : SHA512i_CTX) (data : bytes) : SHA512i_CTX :=
  let s := unrolled_rounds ROUND512_0_TO_15 ROUND512 80 (state512 context) (words64 16 (buffer512 context)) (words64 16 data) in
  Ctx512 (add_places 64 (state512 context) (places s)) (bitcount512 context) (concat (le_bytes 8 <$> sched s)).

(** ** Property *)

(** The rolled loops of the two sizes. *)
Abbreviation load256 := (load 32 REVERSE32 Sigma0_256 Sigma1_256 Ch K256).
Abbreviation mix256 := (mix 32 Sigma0_256 Sigma1_256 sigma0_256 sigma1_256 Ch K256).
Abbreviation load512 := (load 64 REVERSE64 Sigma0_512 Sigma1_512 Ch64 K512).
Abbreviation mix512 := (mix 64 Sigma0_512 Sigma1_512 sigma0_512 sigma1_512 Ch64 K512).

Lemma load256_eq n j data W r : transform_load n j data W r = load256 n j data W r.
Proof. reflexivity. Qed.
Lemma load512_eq n j data W r : transform_load512 n j data W r = load512 n j data W r.
Proof. reflexivity. Qed.
Lemma mix256_eq n j W r : transform_mix n j W r = mix256 n j W r.
Proof. reflexivity. Qed.
Lemma mix512_eq n j W r : transform_mix512 n j W r = mix512 n j W r.
Proof. reflexivity. Qed.

Lemma length_words n l : length (words n l) = n.
Proof. revert l. induction n as [|n IH]; intros l; cbn; auto. Qed.
Lemma length_words64 n l : length (words64 n l) = n.
Proof. revert l. induction n as [|n IH]; intros l; cbn; auto. Qed.

(** Eight registers that are added in their places or as the loops see them. *)
Lemma view_places s :
  length (places s) = 8%nat → ∃ a b c d e f g h, places s = [a; b; c; d; e; f; g; h] ∧
    view s 0 1 2 3 4 5 6 7 = (a, b, c, d, e, f, g, h).
Proof.
  intros H. unfold view, reg. destruct (places s) as [|r0 [|r1 [|r2 [|r3 [|r4 [|r5 [|r6 [|r7 [|]]]]]]]]]; try discriminate H.
  by exists r0, r1, r2, r3, r4, r5, r6, r7.
Qed.
Lemma add_view s st : length (places s) = 8%nat → add_regs st (view s 0 1 2 3 4 5 6 7) = add_places 32 st (places s).
Proof. intros H. by destruct (view_places s H) as (? & ? & ? & ? & ? & ? & ? & ? & -> & ->). Qed.
Lemma add_view512 s st : length (places s) = 8%nat → add_regs512 st (view s 0 1 2 3 4 5 6 7) = add_places 64 st (places s).
Proof. intros H. by destruct (view_places s H) as (? & ? & ? & ? & ? & ? & ? & ? & -> & ->). Qed.

(** C26 (equivalence). The two ways to compile the digests agree: the unrolled transforms of SHA-256 and
    of SHA-512 leave the context, its buffer included, as the rolled ones do, for every
    context and every block. *)
Theorem unrolled_transforms :
  (∀ c data, SHA256i_Transform_unrolled c data = SHA256i_Transform c data) ∧
  (∀ c data, SHA512i_Transform_unrolled c data = SHA512i_Transform c data).
Proof.
  split; intros c data.
  - unfold SHA256i_Transform, SHA256i_Transform_unrolled. rewrite load256_eq.
    pose proof (unrolled_rounds_eq 32 REVERSE32 Sigma0_256 Sigma1_256 sigma0_256 sigma1_256 Ch K256 5 (state c)
      (words 16 (buffer c)) (words 16 data) (length_words 16 data)) as H.
    destruct (load256 _ _ _ _ _) as [W r]. rewrite mix256_eq. destruct (mix256 _ _ _ _) as [W1 r1].
    destruct H as (<- & <- & Hl). by rewrite (add_view _ _ Hl).
  - unfold SHA512i_Transform, SHA512i_Transform_unrolled. rewrite load512_eq.
    pose proof (unrolled_rounds_eq 64 REVERSE64 Sigma0_512 Sigma1_512 sigma0_512 sigma1_512 Ch64 K512 7 (state512 c)
      (words64 16 (buffer512 c)) (words64 16 data) (length_words64 16 data)) as H.
    destruct (load512 _ _ _ _ _) as [W r]. rewrite mix512_eq. destruct (mix512 _ _ _ _) as [W1 r1].
    destruct H as (<- & <- & Hl). by rewrite (add_view512 _ _ Hl).
Qed.
