(* ===== verification/Hash.v ===== *)
(** * Hash: the digests that protect a packed message

    [lib/vtrc/common/hash/]: the virtual interface [hash::iface] with its
    implementations [none], [crc32] and [sha256], and the factories.  A client of
    the interface is proved against [HashLaws]; [hash_factory_laws] gives them
    for whatever [create_by_index] returns. *)

From S2P Require Import Prelude Sha2 Sha512 Sha2Spec.

(** ** hash::iface *)

(** [get_data_hash] has a second overload that writes the same bytes through a
    pointer; [check_data_hash] reads the digest through a pointer, [None] when
    it leaves the memory it was given. *)
Record iface : Type := Iface {
  size : Z;
  get_data_hash : bytes → bytes;
  check_data_hash : bytes → bytes → option bool
}.

Class HashLaws (h : iface) : Prop := {
  hl_size : 0 ≤ size h < 2 ^ 32;
  hl_get_length d : blen (get_data_hash h d) = size h;
  hl_get_bytes d : bytes_ok (get_data_hash h d);
  hl_check d x r :
    blen x = size h →
    ∃ b, check_data_hash h d (x ++ r) = Some b ∧
      (x = get_data_hash h d → b = true)
}.

(** ** crc32_impl *)

Definition crc_32_table : list Z := [
    0x00000000; 0x77073096; 0xee0e612c; 0x990951ba; 0x076dc419; 0x706af48f;
    0xe963a535; 0x9e6495a3; 0x0edb8832; 0x79dcb8a4; 0xe0d5e91e; 0x97d2d988;
    0x09b64c2b; 0x7eb17cbd; 0xe7b82d07; 0x90bf1d91; 0x1db71064; 0x6ab020f2;
    0xf3b97148; 0x84be41de; 0x1adad47d; 0x6ddde4eb; 0xf4d4b551; 0x83d385c7;
    0x136c9856; 0x646ba8c0; 0xfd62f97a; 0x8a65c9ec; 0x14015c4f; 0x63066cd9;
    0xfa0f3d63; 0x8d080df5; 0x3b6e20c8; 0x4c69105e; 0xd56041e4; 0xa2677172;
    0x3c03e4d1; 0x4b04d447; 0xd20d85fd; 0xa50ab56b; 0x35b5a8fa; 0x42b2986c;
    0xdbbbc9d6; 0xacbcf940; 0x32d86ce3; 0x45df5c75; 0xdcd60dcf; 0xabd13d59;
    0x26d930ac; 0x51de003a; 0xc8d75180; 0xbfd06116; 0x21b4f4b5; 0x56b3c423;
    0xcfba9599; 0xb8bda50f; 0x2802b89e; 0x5f058808; 0xc60cd9b2; 0xb10be924;
    0x2f6f7c87; 0x58684c11; 0xc1611dab; 0xb6662d3d; 0x76dc4190; 0x01db7106;
    0x98d220bc; 0xefd5102a; 0x71b18589; 0x06b6b51f; 0x9fbfe4a5; 0xe8b8d433;
    0x7807c9a2; 0x0f00f934; 0x9609a88e; 0xe10e9818; 0x7f6a0dbb; 0x086d3d2d;
    0x91646c97; 0xe6635c01; 0x6b6b51f4; 0x1c6c6162; 0x856530d8; 0xf262004e;
    0x6c0695ed; 0x1b01a57b; 0x8208f4c1; 0xf50fc457; 0x65b0d9c6; 0x12b7e950;
    0x8bbeb8ea; 0xfcb9887c; 0x62dd1ddf; 0x15da2d49; 0x8cd37cf3; 0xfbd44c65;
    0x4db26158; 0x3ab551ce; 0xa3bc0074; 0xd4bb30e2; 0x4adfa541; 0x3dd895d7;
    0xa4d1c46d; 0xd3d6f4fb; 0x4369e96a; 0x346ed9fc; 0xad678846; 0xda60b8d0;
    0x44042d73; 0x33031de5; 0xaa0a4c5f; 0xdd0d7cc9; 0x5005713c; 0x270241aa;
    0xbe0b1010; 0xc90c2086; 0x5768b525; 0x206f85b3; 0xb966d409; 0xce61e49f;
    0x5edef90e; 0x29d9c998; 0xb0d09822; 0xc7d7a8b4; 0x59b33d17; 0x2eb40d81;
    0xb7bd5c3b; 0xc0ba6cad; 0xedb88320; 0x9abfb3b6; 0x03b6e20c; 0x74b1d29a;
    0xead54739; 0x9dd277af; 0x04db2615; 0x73dc1683; 0xe3630b12; 0x94643b84;
    0x0d6d6a3e; 0x7a6a5aa8; 0xe40ecf0b; 0x9309ff9d; 0x0a00ae27; 0x7d079eb1;
    0xf00f9344; 0x8708a3d2; 0x1e01f268; 0x6906c2fe; 0xf762575d; 0x806567cb;
    0x196c3671; 0x6e6b06e7; 0xfed41b76; 0x89d32be0; 0x10da7a5a; 0x67dd4acc;
    0xf9b9df6f; 0x8ebeeff9; 0x17b7be43; 0x60b08ed5; 0xd6d6a3e8; 0xa1d1937e;
    0x38d8c2c4; 0x4fdff252; 0xd1bb67f1; 0xa6bc5767; 0x3fb506dd; 0x48b2364b;
    0xd80d2bda; 0xaf0a1b4c; 0x36034af6; 0x41047a60; 0xdf60efc3; 0xa867df55;
    0x316e8eef; 0x4669be79; 0xcb61b38c; 0xbc66831a; 0x256fd2a0; 0x5268e236;
    0xcc0c7795; 0xbb0b4703; 0x220216b9; 0x5505262f; 0xc5ba3bbe; 0xb2bd0b28;
    0x2bb45a92; 0x5cb36a04; 0xc2d7ffa7; 0xb5d0cf31; 0x2cd99e8b; 0x5bdeae1d;
    0x9b64c2b0; 0xec63f226; 0x756aa39c; 0x026d930a; 0x9c0906a9; 0xeb0e363f;
    0x72076785; 0x05005713; 0x95bf4a82; 0xe2b87a14; 0x7bb12bae; 0x0cb61b38;
    0x92d28e9b; 0xe5d5be0d; 0x7cdcefb7; 0x0bdbdf21; 0x86d3d2d4; 0xf1d4e242;
    0x68ddb3f8; 0x1fda836e; 0x81be16cd; 0xf6b9265b; 0x6fb077e1; 0x18b74777;
    0x88085ae6; 0xff0f6a70; 0x66063bca; 0x11010b5c; 0x8f659eff; 0xf862ae69;
    0x616bffd3; 0x166ccf45; 0xa00ae278; 0xd70dd2ee; 0x4e048354; 0x3903b3c2;
    0xa7672661; 0xd06016f7; 0x4969474d; 0x3e6e77db; 0xaed16a4a; 0xd9d65adc;
    0x40df0b66; 0x37d83bf0; 0xa9bcae53; 0xdebb9ec5; 0x47b2cf7f; 0x30b5ffe9;
    0xbdbdf21c; 0xcabac28a; 0x53b39330; 0x24b4a3a6; 0xbad03605; 0xcdd70693;
    0x54de5729; 0x23d967bf; 0xb3667a2e; 0xc4614ab8; 0x5d681b02; 0x2a6f2b94;
    0xb40bbe37; 0xc30c8ea1; 0x5a05df1b; 0x2d02ef8d ].

Definition get_value (id : Z) : Z := default 0 (crc_32_table !! Z.to_nat (id mod 0x100)).

Definition update (old val : Z) : Z := Z.lxor (get_value (Z.lxor old val)) (Z.shiftr old 8).

(** [oldcrc = 0xFFFFFFFF; for ... update; ~oldcrc] *)
Definition crc32_loop (data : bytes) (oldcrc : Z) : Z :=
  fold_left (λ old b, update old (u8 b)) data oldcrc.
Definition crc32_value (data : bytes) : Z :=
  Z.lxor (crc32_loop data 0xFFFFFFFF) 0xFFFFFFFF.

Definition crc32_length : Z := 4.

Definition crc32_get (data : bytes) : bytes :=
  let oldcrc := crc32_value data in
  [Z.land (Z.shiftr oldcrc 24) 0xFF; Z.land (Z.shiftr oldcrc 16) 0xFF;
   Z.land (Z.shiftr oldcrc 8) 0xFF; Z.land oldcrc 0xFF].

(** [&&] stops at the first byte that differs. *)
Fixpoint crc32_compare (res expected : bytes) : option bool :=
  match expected with
  | [] => Some true
  | e :: expected =>
      match res with
      | [] => None
      | r :: res => if r =? e then crc32_compare res expected else Some false
      end
  end.

Definition crc32_check (data : bytes) (res : bytes) : option bool :=
  crc32_compare res (crc32_get data).

(** ** The implementations *)

Definition hasher_none : iface := {|
  size := 0;
  get_data_hash := λ _, [];
  check_data_hash := λ _ _, Some true
|}.

Definition hasher_crc32 : iface := {|
  size := crc32_length;
  get_data_hash := crc32_get;
  check_data_hash := crc32_check
|}.

(** [hasher_sha], over the digest of its traits; [memcmp] looks at as many bytes. *)
Section HasherSha.
Context (digest_length : Z) (fin : bytes → bytes).
Definition sha_check (data hash : bytes) : option bool :=
  if blen hash <? digest_length then None
  else Some (bool_decide (take (Z.to_nat digest_length) hash = fin data)).
Definition hasher_sha : iface := {|
  size := digest_length;
  get_data_hash := fin;
  check_data_hash := sha_check
|}.
End HasherSha.

Definition hasher_sha256 : iface := hasher_sha SHA256i_DIGEST_LENGTH sha256.
Definition hasher_sha384 : iface := hasher_sha SHA384i_DIGEST_LENGTH sha384.
Definition hasher_sha512 : iface := hasher_sha SHA512i_DIGEST_LENGTH sha512.

(** [enum hash_variant] of vtrc-auth.proto. *)
Definition HASH_NONE : Z := 0.
Definition HASH_CRC_32 : Z := 2.
Definition HASH_SHA2_256 : Z := 10.

(** A null pointer for every other index. *)
Definition create_by_index (var : Z) : option iface :=
  if var =? HASH_NONE then Some hasher_none
  else if var =? HASH_CRC_32 then Some hasher_crc32
  else if var =? HASH_SHA2_256 then Some hasher_sha256
  else None.

(** [client_selection::default_instance( ).hash( )]: the field has no declared
    default, so a [uint32]'s own. *)
Definition create_default : option iface := create_by_index 0.

(** ** Reference definition of CRC-32

    One bit at a time, reflected polynomial 0xEDB88320. *)

Definition crc_bit (x : Z) : Z :=
  if Z.odd x then Z.lxor (Z.shiftr x 1) 0xEDB88320 else Z.shiftr x 1.
Definition crc_byte_ref (old b : Z) : Z := Nat.iter 8 crc_bit (Z.lxor old b).
Definition crc32_ref (data : bytes) : Z :=
  Z.lxor (fold_left crc_byte_ref data 0xFFFFFFFF) 0xFFFFFFFF.

(** ** Lemmas *)

Lemma crc_bit_lxor x y : crc_bit (Z.lxor x y) = Z.lxor (crc_bit x) (crc_bit y).
Proof.
  unfold crc_bit. rewrite <-!Z.bit0_odd, Z.lxor_spec, Z.shiftr_lxor.
  destruct (Z.testbit x 0), (Z.testbit y 0); simpl; Z.bitwise;
    repeat match goal with |- context [Z.testbit ?a ?i] => destruct (Z.testbit a i) end; done.
Qed.

Lemma crc_bits_lxor n x y :
  Nat.iter n crc_bit (Z.lxor x y) = Z.lxor (Nat.iter n crc_bit x) (Nat.iter n crc_bit y).
Proof. induction n as [|n IH]; [done|]. simpl. by rewrite IH, crc_bit_lxor. Qed.

(** Bits that are not yet at the bottom only move. *)
Lemma crc_bits_shift n x : 0 ≤ x → Nat.iter n crc_bit (Z.shiftl x (Z.of_nat n)) = x.
Proof.
  intros Hx. induction n as [|n IH]; [by rewrite Z.shiftl_0_r|].
  rewrite Nat.iter_succ_r. rewrite <-IH at 2. f_equal. unfold crc_bit.
  replace (Z.of_nat (S n)) with (Z.of_nat n + 1) by lia.
  rewrite <-Z.shiftl_shiftl, <-Z.bit0_odd, Z.shiftl_spec by lia.
  rewrite (Z.testbit_neg_r _ (0 - 1)) by lia. rewrite Z.shiftr_shiftl_l, Z.sub_diag by lia.
  by rewrite Z.shiftl_0_r.
Qed.

(** The table holds the reference's value for every byte. *)
Lemma get_value_ref i : in_word 8 i → get_value i = Nat.iter 8 crc_bit i.
Proof.
  intros [H0 H]. rewrite <-(Z2Nat.id i) by done.
  assert (Hall : forallb (λ n, get_value (Z.of_nat n) =? Nat.iter 8 crc_bit (Z.of_nat n))
    (seq 0 256) = true) by (vm_compute; reflexivity).
  rewrite forallb_forall in Hall. apply Z.eqb_eq, Hall, in_seq. lia.
Qed.

Lemma get_value_mod x : get_value x = get_value (x mod 256).
Proof. unfold get_value. by rewrite Zmod_mod. Qed.

Lemma split_low x : 0 ≤ x → x = Z.lxor (x mod 256) (Z.shiftl (Z.shiftr x 8) 8).
Proof.
  intros Hx. apply Z.bits_inj'. intros i Hi.
  change 256 with (2 ^ 8). rewrite Z.lxor_spec, Z.shiftl_spec by done.
  destruct (decide (i < 8)).
  - rewrite Z.mod_pow2_bits_low, (Z.testbit_neg_r _ (i - 8)) by lia. by rewrite xorb_false_r.
  - rewrite Z.mod_pow2_bits_high, Z.shiftr_spec by lia. rewrite xorb_false_l. f_equal. lia.
Qed.

Lemma update_ref old b :
  in_word 32 old → in_word 8 b → update old b = crc_byte_ref old b.
Proof.
  intros Ho Hb. unfold update, crc_byte_ref.
  assert (Hx : 0 ≤ Z.lxor old b).
  { apply (lxor_word 32); [lia|done|]. destruct Hb. split; lia. }
  rewrite (split_low (Z.lxor old b)) at 2 by done. rewrite crc_bits_lxor.
  rewrite get_value_mod, get_value_ref by (unfold in_word; apply Z.mod_pos_bound; lia).
  f_equal. change 8 with (Z.of_nat 8) at 3.
  rewrite crc_bits_shift by by apply Z.shiftr_nonneg.
  rewrite Z.shiftr_lxor. rewrite (Z.shiftr_div_pow2 b) by lia.
  rewrite (Z.div_small b) by done. by rewrite Z.lxor_0_r.
Qed.

Lemma crc_32_table_words : Forall (in_word 32) crc_32_table.
Proof.
  assert (H : forallb (λ x, (0 <=? x) && (x <? 2 ^ 32)) crc_32_table = true)
    by (vm_compute; reflexivity).
  rewrite forallb_forall in H. apply Forall_forall. intros x Hx.
  apply list_elem_of_In, H in Hx. bool_props. by split.
Qed.

Lemma get_value_word x : in_word 32 (get_value x).
Proof.
  unfold get_value. destruct (crc_32_table !! _) as [v|] eqn:E; [|done].
  by apply (Forall_lookup_1 _ _ _ _ crc_32_table_words E).
Qed.

Lemma update_word old b : in_word 32 old → in_word 32 (update old b).
Proof.
  intros Ho. apply lxor_word; [lia|apply get_value_word|by apply shiftr_word].
Qed.

Lemma crc32_loop_word d old : in_word 32 old → in_word 32 (crc32_loop d old).
Proof.
  revert old. induction d as [|b d IH]; intros old Ho; [done|].
  by apply IH, update_word.
Qed.

Lemma crc32_value_word d : in_word 32 (crc32_value d).
Proof. apply lxor_word; [lia| |done]. by apply crc32_loop_word. Qed.

(** The four bytes of a word determine it. *)
Lemma crc32_bytes_inj x y :
  in_word 32 x → in_word 32 y →
  Z.shiftr x 24 mod 256 = Z.shiftr y 24 mod 256 →
  Z.shiftr x 16 mod 256 = Z.shiftr y 16 mod 256 →
  Z.shiftr x 8 mod 256 = Z.shiftr y 8 mod 256 → x mod 256 = y mod 256 → x = y.
Proof.
  unfold in_word. rewrite !Z.shiftr_div_pow2 by lia.
  change (2 ^ 32) with 4294967296. change (2 ^ 24) with 16777216.
  change (2 ^ 16) with 65536. change (2 ^ 8) with 256. intros.
  Z.div_mod_to_equations. lia.
Qed.

(** *** Inverting the register

    The top byte of the register after an update tells which entry of the table
    was used. *)

Lemma get_value_top i j :
  in_word 8 i → in_word 8 j →
  Z.shiftr (get_value i) 24 = Z.shiftr (get_value j) 24 → i = j.
Proof.
  intros [Hi0 Hi] [Hj0 Hj] H. rewrite <-(Z2Nat.id i), <-(Z2Nat.id j) in * by done.
  f_equal. assert (Hall : forallb (λ n, forallb (λ m, negb
      (Z.shiftr (get_value (Z.of_nat n)) 24 =? Z.shiftr (get_value (Z.of_nat m)) 24)
      || (n =? m)%nat) (seq 0 256)) (seq 0 256) = true) by (vm_compute; reflexivity).
  rewrite forallb_forall in Hall. specialize (Hall (Z.to_nat i)).
  rewrite forallb_forall in Hall. specialize (Hall ltac:(apply in_seq; lia) (Z.to_nat j)).
  specialize (Hall ltac:(apply in_seq; lia)). apply orb_true_iff in Hall as [Hall|Hall].
  - apply negb_true_iff, Z.eqb_neq in Hall. done.
  - by apply Nat.eqb_eq.
Qed.

Lemma update_inv k o o' v v' :
  0 ≤ k ≤ 24 → in_word 32 o → in_word 32 o' →
  Z.shiftr (update o v) k = Z.shiftr (update o' v') k →
  Z.lxor o v mod 256 = Z.lxor o' v' mod 256 ∧ Z.shiftr o (k + 8) = Z.shiftr o' (k + 8).
Proof.
  intros Hk Ho Ho' H.
  assert (Htop : Z.lxor o v mod 256 = Z.lxor o' v' mod 256).
  { apply get_value_top; [apply Z.mod_pos_bound; lia..|].
    assert (H24 : Z.shiftr (update o v) 24 = Z.shiftr (update o' v') 24).
    { apply (f_equal (λ x, Z.shiftr x (24 - k))) in H. rewrite !Z.shiftr_shiftr in H by lia.
      by replace (k + (24 - k)) with 24 in H by lia. }
    unfold update in H24. rewrite !Z.shiftr_lxor, !Z.shiftr_shiftr in H24 by lia.
    assert (Hz : ∀ x, in_word 32 x → Z.shiftr x (8 + 24) = 0).
    { intros x Hx. rewrite Z.shiftr_div_pow2 by lia. by apply Z.div_small. }
    rewrite (Hz o), (Hz o'), !Z.lxor_0_r in H24 by done.
    by rewrite <-!get_value_mod. }
  split; [done|]. unfold update in H. rewrite (get_value_mod (Z.lxor o v)), Htop, <-get_value_mod in H.
  rewrite !Z.shiftr_lxor, !Z.shiftr_shiftr in H by lia. rewrite (Z.add_comm k).
  apply (f_equal (Z.lxor (Z.shiftr (get_value (Z.lxor o' v')) k))) in H.
  by rewrite <-!Z.lxor_assoc, !Z.lxor_nilpotent, !Z.lxor_0_l in H.
Qed.

Lemma lxor_mod_inj o v v' :
  in_word 8 v → in_word 8 v' → Z.lxor o v mod 256 = Z.lxor o v' mod 256 → v = v'.
Proof.
  intros Hv Hv' H. apply Z.bits_inj'. intros i Hi. destruct (decide (i < 8)).
  - apply (f_equal (λ x, Z.testbit x i)) in H. change 256 with (2 ^ 8) in H.
    rewrite !Z.mod_pow2_bits_low, !Z.lxor_spec in H by done.
    destruct (Z.testbit o i), (Z.testbit v i), (Z.testbit v' i); done.
  - by rewrite !(testbit_above 8) by (done || lia).
Qed.

(** The register is a one-to-one function of where it started. *)
Lemma crc32_loop_inj d o o' :
  in_word 32 o → in_word 32 o' → crc32_loop d o = crc32_loop d o' → o = o'.
Proof.
  revert o o'. induction d as [|b d IH]; intros o o' Ho Ho' H; [done|].
  apply IH in H; [|by apply update_word..].
  destruct (update_inv 0 o o' (u8 b) (u8 b)) as [Hlow Hhigh]; [lia|done|done| |].
  { by rewrite !Z.shiftr_0_r. }
  rewrite (split_low o), (split_low o') by (apply Ho || apply Ho').
  change (0 + 8) with 8 in Hhigh. rewrite Hhigh. f_equal.
  rewrite (Z.lxor_comm o), (Z.lxor_comm o') in Hlow.
  apply (lxor_mod_inj (u8 b)); [apply Z.mod_pos_bound; lia..|].
  change 256 with (2 ^ 8) in *. rewrite <-!Z.land_ones in * by lia.
  apply Z.bits_inj'. intros i Hi. apply (f_equal (λ x, Z.testbit x i)) in Hlow.
  rewrite !Z.land_spec, !Z.lxor_spec, !Z.land_spec in *.
  destruct (Z.testbit (Z.ones 8) i), (Z.testbit o i), (Z.testbit o' i),
    (Z.testbit (u8 b) i); done.
Qed.

(** Up to four bytes can be read back from the register. *)
Lemma crc32_loop_burst d d' o o' :
  length d = length d' → (length d ≤ 4)%nat → bytes_ok d → bytes_ok d' →
  in_word 32 o → in_word 32 o' → crc32_loop d o = crc32_loop d' o' →
  Z.shiftr o (8 * blen d) = Z.shiftr o' (8 * blen d) ∧ (o = o' → d = d').
Proof.
  revert d' o o'. induction d as [|v d IH]; intros [|v' d'] o o' Hl H4 Hd Hd' Ho Ho' H; try done.
  simpl in Hl, H4, H. inversion Hd; inversion Hd'; subst.
  rewrite !(wrap_small 8) in H by done.
  destruct (IH d' (update o v) (update o' v')) as [Hsh Heq];
    [lia|lia|done|done|by apply update_word|by apply update_word|done|].
  destruct (update_inv (8 * blen d) o o' v v') as [Hlow Hhigh];
    [unfold blen; lia|done|done|done|]. split.
  - by replace (8 * blen (v :: d)) with (8 * blen d + 8) by (unfold blen; simpl; lia).
  - intros ->. apply lxor_mod_inj in Hlow as ->; [|done..]. by rewrite Heq.
Qed.

(** ** The laws of the implementations *)

#[export] Instance hasher_none_laws : HashLaws hasher_none.
Proof. split; cbn; [lia|done|constructor|]. intros d x r _. by exists true. Qed.

Lemma crc32_get_bytes d : bytes_ok (crc32_get d).
Proof.
  repeat constructor; change 0xFF with (Z.ones 8);
    rewrite Z.land_ones by lia; by apply Z.mod_pos_bound.
Qed.

(** The check is equality with the digest. *)
Lemma crc32_compare_spec x r e :
  length x = length e → crc32_compare (x ++ r) e = Some (bool_decide (x = e)).
Proof.
  revert e. induction x as [|a x IH]; intros [|b e] H; simplify_eq/=; [by destruct r|].
  destruct (Z.eqb_spec a b) as [->|Hne].
  - rewrite IH by lia. f_equal. apply bool_decide_ext. naive_solver.
  - f_equal. symmetry. apply bool_decide_eq_false. naive_solver.
Qed.

#[export] Instance hasher_crc32_laws : HashLaws hasher_crc32.
Proof.
  split; cbn; [done|done|apply crc32_get_bytes|].
  intros d x r Hx. exists (bool_decide (x = crc32_get d)). split.
  - apply crc32_compare_spec. unfold blen, crc32_length in Hx. simpl. lia.
  - by intros ->; apply bool_decide_eq_true.
Qed.

Lemma hasher_sha_laws n (fin : bytes → bytes) :
  Z.of_nat n < 2 ^ 32 → (∀ d, bytes_ok (fin d) ∧ length (fin d) = n) → HashLaws (hasher_sha (Z.of_nat n) fin).
Proof.
  intros Hn Hfin. split; cbn [size hasher_sha get_data_hash check_data_hash].
  - lia.
  - intros d. unfold blen. by rewrite (proj2 (Hfin d)).
  - intros d. apply Hfin.
  - intros d x r Hx. unfold sha_check. rewrite blen_app, Hx. pose proof (blen_nonneg r).
    destruct (_ <? _) eqn:E; bool_props; [lia|]. eexists. split; [done|].
    intros ->. apply bool_decide_eq_true. apply take_app_exact. rewrite (proj2 (Hfin d)). lia.
Qed.
#[export] Instance hasher_sha256_laws : HashLaws hasher_sha256 := hasher_sha_laws 32 sha256 eq_refl sha256_length.
#[export] Instance hasher_sha384_laws : HashLaws hasher_sha384 := hasher_sha_laws 48 sha384 eq_refl sha384_length.
#[export] Instance hasher_sha512_laws : HashLaws hasher_sha512 := hasher_sha_laws 64 sha512 eq_refl sha512_length.

(** What the factory returns keeps the contract. *)
Lemma create_by_index_laws i h : create_by_index i = Some h → HashLaws h.
Proof.
  unfold create_by_index. intros H. repeat step_if; simplify_eq; apply _.
Qed.

(** A change of up to four consecutive bytes changes the digest. *)
Lemma crc32_burst p d d' s :
  length d = length d' → (length d ≤ 4)%nat → bytes_ok d → bytes_ok d' → d ≠ d' →
  crc32_get (p ++ d ++ s) ≠ crc32_get (p ++ d' ++ s).
Proof.
  intros Hl H4 Hd Hd' Hne.
  assert (Hval : crc32_value (p ++ d ++ s) ≠ crc32_value (p ++ d' ++ s)).
  { intros H. apply (f_equal (λ x, Z.lxor x 0xFFFFFFFF)) in H. unfold crc32_value in H.
    rewrite !lxor_lxor_cancel in H. unfold crc32_loop in H. rewrite !fold_left_app in H.
    pose proof (crc32_loop_word p 0xFFFFFFFF ltac:(done)) as Hp.
    apply crc32_loop_inj in H; [|by apply crc32_loop_word..].
    by apply crc32_loop_burst in H as [_ H]; [apply Hne, H| | | | | |]. }
  intros H. apply Hval. unfold crc32_get in H. change 0xFF with (Z.ones 8) in H.
  rewrite !Z.land_ones in H by lia. injection H. intros.
  apply crc32_bytes_inj; [apply crc32_value_word..|done|done|done|done].
Qed.

(** The check is equality with the digest. *)
Lemma crc32_check_spec d x r :
  length x = 4%nat → crc32_check d (x ++ r) = Some (bool_decide (x = crc32_get d)).
Proof. intros H. unfold crc32_check. by apply crc32_compare_spec. Qed.

(** ** Properties *)

(** The table-driven CRC of the code is CRC-32 (reflected
    polynomial 0xEDB88320, one bit at a time) on every byte string, and
    [get]/[check] agree on it; its check value is 0xCBF43926. *)
Theorem crc32_reference d :
  crc32_value (u8 <$> d) = crc32_ref (u8 <$> d) ∧
  crc32_check d (crc32_get d) = Some true ∧
  crc32_value [49; 50; 51; 52; 53; 54; 55; 56; 57] = 0xCBF43926.
Proof.
  split_and!; [|change (crc32_get d) with (crc32_get d) at 1|reflexivity].
  - unfold crc32_value, crc32_ref, crc32_loop. f_equal.
    assert (Hw : in_word 32 0xFFFFFFFF) by done. revert Hw. generalize 0xFFFFFFFF.
    induction d as [|b d IH]; intros o Ho; [done|]. simpl. rewrite wrap_wrap.
    rewrite <-update_ref by (done || by apply wrap_range). apply IH. by apply update_word.
  - rewrite <-(app_nil_r (crc32_get d)), crc32_check_spec by done. by rewrite bool_decide_true.
Qed.

(** The digest of the default protection detects every corruption
    confined to four consecutive bytes, wherever it is: the check of the
    corrupted data against the original digest fails. *)
Theorem crc32_detects_burst p d d' s :
  length d = length d' → (length d ≤ 4)%nat → bytes_ok d → bytes_ok d' → d ≠ d' →
  crc32_check (p ++ d' ++ s) (crc32_get (p ++ d ++ s)) = Some false.
Proof.
  intros Hl H4 Hd Hd' Hne. rewrite <-(app_nil_r (crc32_get (p ++ d ++ s))).
  rewrite crc32_check_spec, bool_decide_false; [done| |done]. by apply crc32_burst.
Qed.

Lemma crc32_detects_burst_witness :
  crc32_check ([1] ++ [9; 3] ++ [4]) (crc32_get ([1] ++ [2; 3] ++ [4])) = Some false.
Proof.
  apply crc32_detects_burst; [reflexivity|simpl; lia| | |discriminate];
    repeat constructor; discriminate.
Defined.
