(* ===== verification/Erseefor.v ===== *)
(** * Erseefor: the RC4 stream cipher

    [lib/vtrc/common/erseefor.h]: class [crypt::erseefor], its key schedule, the
    [drop] of the first bytes of the key stream and [transform]. *)

From S2P Require Import Prelude.

(** ** class erseefor *)

Record erseefor : Type := Erseefor {
  state_ : list Z;
  si1_ : Z;
  si2_ : Z
}.

Definition nth8 (l : list Z) (i : Z) : Z := default 0 (l !! Z.to_nat i).

(** [swap_bytes( state_[i], state_[j] )] *)
Definition swap_bytes (i j : Z) (s : list Z) : list Z :=
  <[Z.to_nat j := nth8 s i]> (<[Z.to_nat i := nth8 s j]> s).

(** The second loop of [init_key], from index [i] on. *)
Fixpoint init_key_loop (n : nat) (i k : Z) (key : bytes) (s : list Z) : list Z :=
  match n with
  | O => s
  | S n =>
      let k := u8 (k + (nth8 s i + nth8 key (i mod blen key))) in
      init_key_loop n (i + 1) k key (swap_bytes i k s)
  end.

(** [None]: the index is taken modulo an empty key, which is undefined. *)
Definition init_key (key : bytes) : option erseefor :=
  if blen key =? 0 then None
  else Some (Erseefor (init_key_loop 256 0 0 key (seqZ 0 256)) 0 0).

(** One turn of the generator, shared by [drop] and [transform]. *)
Definition next (c : erseefor) : erseefor :=
  let i1 := u8 (si1_ c + 1) in
  let i2 := u8 (si2_ c + nth8 (state_ c) i1) in
  Erseefor (swap_bytes i1 i2 (state_ c)) i1 i2.

Fixpoint drop_keys (count : nat) (c : erseefor) : erseefor :=
  match count with O => c | S n => drop_keys n (next c) end.

(** [state_[ state_[si1_] + state_[si2_] ]] *)
Definition key_byte (c : erseefor) : Z :=
  nth8 (state_ c) (u8 (nth8 (state_ c) (si1_ c) + nth8 (state_ c) (si2_ c))).

Fixpoint transform (d : bytes) (c : erseefor) : bytes * erseefor :=
  match d with
  | [] => ([], c)
  | b :: d =>
      let c := next c in
      let '(d', c') := transform d c in
      (Z.lxor b (key_byte c) :: d', c')
  end.

(** ** Invariant: the state is a permutation of the 256 bytes *)

Record erseefor_ok (c : erseefor) : Prop := {
  eo_perm : state_ c ≡ₚ seqZ 0 256;
  eo_si1 : is_byte (si1_ c);
  eo_si2 : is_byte (si2_ c)
}.

(** ** Lemmas *)


Lemma erseefor_length s : s ≡ₚ seqZ 0 256 → length s = 256%nat.
Proof. intros ->. done. Qed.

Lemma nth8_lookup s i : s ≡ₚ seqZ 0 256 → is_byte i → s !! Z.to_nat i = Some (nth8 s i).
Proof.
  intros Hs [H0 Hi]. unfold nth8.
  destruct (s !! Z.to_nat i) eqn:E; [done|].
  apply lookup_ge_None in E. rewrite (erseefor_length s Hs) in E. lia.
Qed.

Lemma nth8_byte s i : s ≡ₚ seqZ 0 256 → is_byte i → is_byte (nth8 s i).
Proof.
  intros Hs Hi. pose proof (nth8_lookup s i Hs Hi) as Hl.
  apply list_elem_of_lookup_2 in Hl. revert Hl. generalize (nth8 s i). intros v Hl.
  rewrite Hs in Hl. apply elem_of_seqZ in Hl.
  unfold in_word. lia.
Qed.

Lemma swap_bytes_perm s i j :
  s ≡ₚ seqZ 0 256 → is_byte i → is_byte j → swap_bytes i j s ≡ₚ seqZ 0 256.
Proof.
  intros Hs Hi Hj. transitivity s; [|done].
  by apply Permutation_insert_swap; apply nth8_lookup.
Qed.

Lemma init_key_loop_perm n i k key s :
  0 ≤ i → i + Z.of_nat n ≤ 256 → s ≡ₚ seqZ 0 256 →
  init_key_loop n i k key s ≡ₚ seqZ 0 256.
Proof.
  revert i k s. induction n as [|n IH]; intros i k s Hi Hn Hs; [done|].
  apply IH; [lia|lia|]. apply swap_bytes_perm; [done|unfold in_word; lia|by apply wrap_range].
Qed.

Lemma init_key_ok key c : init_key key = Some c → erseefor_ok c.
Proof.
  unfold init_key. intros H. step_if; [done|]. apply (inj Some) in H. subst c.
  split; cbn [state_ si1_ si2_]; [|done|done].
  apply init_key_loop_perm; [lia|lia|reflexivity].
Qed.

Lemma next_ok c : erseefor_ok c → erseefor_ok (next c).
Proof.
  intros [Hp H1 H2]. unfold next. split; simpl; [|by apply wrap_range..].
  by apply swap_bytes_perm; [|apply wrap_range..].
Qed.

Lemma drop_keys_ok n c : erseefor_ok c → erseefor_ok (drop_keys n c).
Proof. revert c. induction n as [|n IH]; intros c Hc; [done|]. by apply IH, next_ok. Qed.

Lemma key_byte_ok c : erseefor_ok c → is_byte (key_byte c).
Proof. intros [Hp H1 H2]. apply nth8_byte; [done|by apply wrap_range]. Qed.

#[export] Hint Resolve next_ok drop_keys_ok key_byte_ok : vtrc.

(** The key stream, and [transform] as its addition to the data. *)
Fixpoint key_stream (n : nat) (c : erseefor) : bytes :=
  match n with O => [] | S n => key_byte (next c) :: key_stream n (next c) end.

Lemma transform_spec d c :
  transform d c = (zip_with Z.lxor d (key_stream (length d) c), drop_keys (length d) c).
Proof.
  revert c. induction d as [|b d IH]; intros c; [done|]. simpl. by rewrite IH.
Qed.

Lemma key_stream_length n c : length (key_stream n c) = n.
Proof. revert c. induction n as [|n IH]; intros c; [done|]. simpl. by rewrite IH. Qed.

Lemma key_stream_ok n c : erseefor_ok c → bytes_ok (key_stream n c).
Proof.
  revert c. induction n as [|n IH]; intros c Hc; simpl; constructor; auto with vtrc.
Qed.

(** ** Properties *)

(** From any key on, after dropping and transforming anything,
    the cipher's state is a permutation of the 256 bytes and its two indexes are
    bytes, so no access leaves the array; [drop( n )] leaves the cipher where
    transforming any [n] bytes leaves it, and encrypting bytes gives bytes. *)
Theorem erseefor_invariant key n d :
  blen key ≠ 0 →
  ∃ c, init_key key = Some c ∧ erseefor_ok (drop_keys n c) ∧
    erseefor_ok (transform d (drop_keys n c)).2 ∧
    (bytes_ok d → bytes_ok (transform d (drop_keys n c)).1) ∧
    (length d = n → (transform d c).2 = drop_keys n c).
Proof.
  intros Hk. destruct (init_key key) as [c|] eqn:E.
  2:{ unfold init_key in E. step_if; [|done]. bool_props. lia. }
  apply init_key_ok in E. exists c. split; [done|].
  rewrite !transform_spec. simpl. split_and!; auto with vtrc.
  - intros Hd. assert (Hs : bytes_ok (key_stream (length d) (drop_keys n c)))
      by (apply key_stream_ok; auto with vtrc).
    revert Hs. generalize (key_stream (length d) (drop_keys n c)).
    induction Hd as [|b d Hb Hd IH]; intros [|s l] Hs; simpl; constructor.
    + inversion Hs. by apply lxor_word.
    + apply IH. by inversion Hs.
  - by intros ->.
Qed.

Lemma erseefor_invariant_witness :
  ∃ c, init_key [75; 101; 121] = Some c ∧ erseefor_ok (drop_keys 3 c).
Proof.
  destruct (erseefor_invariant [75; 101; 121] 3 []) as (c & Hc & Hok & _); [discriminate|].
  exists c. exact (conj Hc Hok).
Defined.

(** The published vector: key "Key", text "Plaintext". *)
Example erseefor_vector :
  (λ c, (transform [80; 108; 97; 105; 110; 116; 101; 120; 116] c).1) <$> init_key [75; 101; 121]
  = Some [0xBB; 0xF3; 0x16; 0xE8; 0xD9; 0x40; 0xAF; 0x0A; 0xD3].
Proof. vm_compute. reflexivity. Qed.
