(* ===== verification/ChaCha.v ===== *)
(** * ChaCha: the stream cipher of [transformer_chacha]

    [lib/vtrc/common/crypt/chacha/chacha-regs.c]: the ECRYPT interface to
    ChaCha20 as the transformer uses it.  The context is its sixteen words;
    every call of [ECRYPT_encrypt_bytes] starts a fresh block of key stream. *)

From S2P Require Import Prelude Sha2.

(** ** Words *)

Definition ROTL32 (v n : Z) : Z := Z.lor (u32 (Z.shiftl v n)) (Z.shiftr v (32 - n)).
Definition PLUS (v w : Z) : Z := u32 (v + w).
Definition PLUSONE (v : Z) : Z := PLUS v 1.

(** [U8TO32_LITTLE( p )] and [U32TO8_LITTLE( p, v )]. *)
Definition U8TO32_LITTLE (p : bytes) : Z := le_word (take 4 p).
Definition U32TO8_LITTLE (v : Z) : bytes := le_bytes 4 v.

Definition word_at (x : list Z) (i : nat) : Z := default 0 (x !! i).

(** [QUARTERROUND( a, b, c, d )] on the words at four places. *)
Definition QUARTERROUND (ia ib ic id : nat) (x : list Z) : list Z :=
  let a := word_at x ia in let b := word_at x ib in
  let c := word_at x ic in let d := word_at x id in
  let a := PLUS a b in let d := ROTL32 (Z.lxor d a) 16 in
  let c := PLUS c d in let b := ROTL32 (Z.lxor b c) 12 in
  let a := PLUS a b in let d := ROTL32 (Z.lxor d a) 8 in
  let c := PLUS c d in let b := ROTL32 (Z.lxor b c) 7 in
  <[ia := a]> (<[ib := b]> (<[ic := c]> (<[id := d]> x))).

(** One turn of the loop: four column and four diagonal rounds. *)
Definition double_round (x : list Z) : list Z :=
  let x := QUARTERROUND 0 4 8 12 x in
  let x := QUARTERROUND 1 5 9 13 x in
  let x := QUARTERROUND 2 6 10 14 x in
  let x := QUARTERROUND 3 7 11 15 x in
  let x := QUARTERROUND 0 5 10 15 x in
  let x := QUARTERROUND 1 6 11 12 x in
  let x := QUARTERROUND 2 7 8 13 x in
  QUARTERROUND 3 4 9 14 x.

(** [for( i=20; i>0; i-=2 )]: ten turns. *)
Definition salsa20_wordtobyte (input : list Z) : bytes :=
  let x := Nat.iter 10 double_round input in
  concat (U32TO8_LITTLE <$> zip_with PLUS x input).

(** ** ECRYPT_ctx and its operations *)

Abbreviation ECRYPT_ctx := (list Z).

(** The characters of the two constants. *)
Definition sigma : bytes := [101; 120; 112; 97; 110; 100; 32; 51; 50; 45; 98; 121; 116; 101; 32; 107].
Definition tau : bytes := [101; 120; 112; 97; 110; 100; 32; 49; 54; 45; 98; 121; 116; 101; 32; 107].

Definition ECRYPT_keysetup (x : ECRYPT_ctx) (k : bytes) (kbits : Z) : ECRYPT_ctx :=
  let k2 := if kbits =? 256 then drop 16 k else k in
  let constants := if kbits =? 256 then sigma else tau in
  map U8TO32_LITTLE
    [constants; drop 4 constants; drop 8 constants; drop 12 constants;
     k; drop 4 k; drop 8 k; drop 12 k; k2; drop 4 k2; drop 8 k2; drop 12 k2]
  ++ drop 12 x.

Definition ECRYPT_ivsetup (x : ECRYPT_ctx) (iv : bytes) : ECRYPT_ctx :=
  take 12 x ++ [0; 0; U8TO32_LITTLE iv; U8TO32_LITTLE (drop 4 iv)].

(** The 64-bit block counter in words 12 and 13. *)
Definition next_block (x : ECRYPT_ctx) : ECRYPT_ctx :=
  let x := <[12%nat := PLUSONE (word_at x 12)]> x in
  if word_at x 12 =? 0 then <[13%nat := PLUSONE (word_at x 13)]> x else x.

(** [c[i] = m[i] ^ output[i]] over the bytes of [m]. *)
Definition xor_bytes (m output : bytes) : bytes := zip_with Z.lxor m output.

(** The loop over the blocks; [bytes] counts what is left of the 32-bit count
    and [m] starts at the first byte not done. *)
Fixpoint encrypt_loop (fuel : nat) (bytes : Z) (m : list Z) (x : ECRYPT_ctx) :
    option (list Z * ECRYPT_ctx) :=
  match fuel with
  | O => None
  | S f =>
      let output := salsa20_wordtobyte x in
      let x := next_block x in
      let n := Z.to_nat bytes in
      if bytes <=? 64 then Some (xor_bytes (take n m) output ++ drop n m, x)
      else
        '(rest, x) ← encrypt_loop f (bytes - 64) (drop 64 m) x;
        Some (xor_bytes (take 64 m) output ++ rest, x)
  end.

Definition ECRYPT_encrypt_bytes (x : ECRYPT_ctx) (m : list Z) (bytes : Z) :
    option (list Z * ECRYPT_ctx) :=
  if bytes =? 0 then Some (m, x)
  else encrypt_loop (Z.to_nat (bytes / 64 + 1)) bytes m x.

Definition ECRYPT_decrypt_bytes := ECRYPT_encrypt_bytes.

(** ** transformer_chacha *)

(** [while( key.size( ) < 32 ) key.append( transform_key )] *)
Fixpoint expand_key_loop (fuel : nat) (transform_key key : bytes) : option bytes :=
  if blen key <? 32 then
    match fuel with
    | O => None
    | S f => expand_key_loop f transform_key (key ++ transform_key)
    end
  else Some key.

(** [None]: the loop does not end. *)
Definition expand_key (transform_key : bytes) : option bytes :=
  if blen transform_key <? 32 then
    take 32 <$> expand_key_loop 32 transform_key []
  else Some (take 32 transform_key).

Definition transformer_chacha_new (transform_key : bytes) : option ECRYPT_ctx :=
  key ← expand_key transform_key;
  Some (ECRYPT_keysetup (replicate 16 0) key (blen key * 8)).

(** [transform( data )]: the count is passed as a 32-bit number. *)
Definition chacha_transform (data : bytes) (x : ECRYPT_ctx) :
    option (bytes * ECRYPT_ctx) :=
  ECRYPT_encrypt_bytes x data (u32 (blen data)).

(** ** Lemmas *)

Definition ctx_ok (x : ECRYPT_ctx) : Prop := length x = 16%nat.

Lemma QUARTERROUND_length a b c d x : length (QUARTERROUND a b c d x) = length x.
Proof. unfold QUARTERROUND. by rewrite !length_insert. Qed.

Lemma double_round_length x : length (double_round x) = length x.
Proof. unfold double_round. by rewrite !QUARTERROUND_length. Qed.

Lemma rounds_length n x : length (Nat.iter n double_round x) = length x.
Proof. induction n as [|n IH]; [done|]. by rewrite Nat.iter_succ, double_round_length. Qed.

Lemma U32TO8_LITTLE_ok v : bytes_ok (U32TO8_LITTLE v) ∧ length (U32TO8_LITTLE v) = 4%nat.
Proof.
  split; [|done]. unfold U32TO8_LITTLE. generalize 4%nat. intros n. revert v.
  induction n as [|n IH]; intros v; simpl; constructor; [by apply Z.mod_pos_bound|done].
Qed.

Lemma words_to_bytes_ok (l : list Z) :
  bytes_ok (concat (U32TO8_LITTLE <$> l)) ∧
  length (concat (U32TO8_LITTLE <$> l)) = (4 * length l)%nat.
Proof.
  induction l as [|v l [IH1 IH2]]; [by split; [constructor|]|].
  cbn [fmap list_fmap concat]. destruct (U32TO8_LITTLE_ok v) as [Hv Hl]. split.
  - by apply Forall_app.
  - rewrite length_app, Hl, IH2. simpl. lia.
Qed.

Lemma salsa20_ok x :
  ctx_ok x → bytes_ok (salsa20_wordtobyte x) ∧ length (salsa20_wordtobyte x) = 64%nat.
Proof.
  intros Hx. unfold salsa20_wordtobyte.
  destruct (words_to_bytes_ok (zip_with PLUS (Nat.iter 10 double_round x) x)) as [Hok Hlen].
  split; [exact Hok|]. rewrite Hlen, length_zip_with, rounds_length, Hx. done.
Qed.

Lemma next_block_ok x : ctx_ok x → ctx_ok (next_block x).
Proof.
  intros Hx. unfold next_block. cbv zeta.
  destruct (_ =? 0); unfold ctx_ok; by rewrite !length_insert.
Qed.

#[local] Opaque salsa20_wordtobyte next_block.

Lemma xor_bytes_length m o : (length m ≤ length o)%nat → length (xor_bytes m o) = length m.
Proof. intros H. unfold xor_bytes. rewrite length_zip_with. lia. Qed.

Lemma xor_bytes_cancel m o : (length m ≤ length o)%nat → xor_bytes (xor_bytes m o) o = m.
Proof.
  revert o. induction m as [|b m IH]; intros [|k o] H; simpl in *; try done; [lia|].
  rewrite lxor_lxor_cancel. f_equal. apply IH. lia.
Qed.

Lemma xor_bytes_ok m o : bytes_ok m → bytes_ok o → bytes_ok (xor_bytes m o).
Proof.
  intros Hm. revert o. induction Hm as [|b m Hb Hm IH]; intros o Ho; [constructor|].
  destruct Ho as [|k o Hk Ho]; constructor; [by apply lxor_word|by apply IH].
Qed.

Lemma xor_bytes_zero m : xor_bytes m (replicate (length m) 0) = m.
Proof. induction m as [|b m IH]; [done|]. simpl. by rewrite Z.lxor_0_r, IH. Qed.

Lemma xor_bytes_take m o : xor_bytes m (take (length m) o) = xor_bytes m o.
Proof.
  revert o. induction m as [|b m IH]; intros [|k o]; simpl; try done. by rewrite IH.
Qed.

(** Adding the two parts of a key stream to the two parts of the data. *)
Lemma xor_bytes_split m k k' :
  (length k ≤ length m)%nat →
  xor_bytes m (k ++ k') = xor_bytes (take (length k) m) k ++ xor_bytes (drop (length k) m) k'.
Proof.
  revert m. induction k as [|b k IH]; intros m H; [done|].
  destruct m as [|c m]; simpl in *; [lia|].
  f_equal. apply IH. lia.
Qed.

(** A key stream of [len] bytes that a call adds to any data of that length. *)
Definition adds_stream (f : bytes → option (bytes * ECRYPT_ctx)) (len : nat) : Prop :=
  ∃ ks x', length ks = len ∧ bytes_ok ks ∧ ctx_ok x' ∧
    ∀ m, length m = len → f m = Some (xor_bytes m ks, x').

Lemma encrypt_loop_stream f n len x :
  ctx_ok x → 0 < n ≤ Z.of_nat len → n ≤ 64 * Z.of_nat f →
  adds_stream (λ m, encrypt_loop f n m x) len.
Proof.
  revert n len x. induction f as [|f IH]; intros n len x Hx Hn Hf; [lia|].
  destruct (salsa20_ok x Hx) as [Hok Hlen]. cbn [encrypt_loop]. cbv zeta.
  set (o := salsa20_wordtobyte x) in *. destruct (n <=? 64) eqn:E; bool_props.
  - set (k := Z.to_nat n). assert (k ≤ len ∧ k ≤ 64)%nat by lia.
    exists (take k o ++ replicate (len - k) 0), (next_block x). split_and!.
    + rewrite length_app, length_take, length_replicate. lia.
    + apply Forall_app. split; [by apply Forall_take|]. apply Forall_replicate. by unfold in_word.
    + by apply next_block_ok.
    + intros m Hm. assert (Ht : length (take k o) = k) by (rewrite length_take; lia).
      rewrite xor_bytes_split, Ht by lia. f_equal. f_equal. f_equal.
      * rewrite <-(xor_bytes_take _ o), length_take, Hm. by replace (k `min` len)%nat with k by lia.
      * by rewrite <-Hm, <-(length_drop m k), xor_bytes_zero.
  - destruct (IH (n - 64) (len - 64)%nat (next_block x)) as (ks & x' & Hl & Hk & Hx' & Hall);
      [by apply next_block_ok|lia|lia|].
    exists (o ++ ks), x'. split_and!; [rewrite length_app; lia|by apply Forall_app|done|].
    intros m Hm. rewrite (Hall (drop 64 m)) by (rewrite length_drop; lia). simpl.
    by rewrite xor_bytes_split, Hlen by lia.
Qed.

Lemma chacha_transform_stream len x :
  ctx_ok x → adds_stream (λ d, chacha_transform d x) len.
Proof.
  intros Hx. set (n := u32 (Z.of_nat len)).
  assert (Hw : 0 ≤ n ≤ Z.of_nat len).
  { split; [by apply (wrap_range 32)|]. apply Z.mod_le; lia. }
  assert (Hn : ∀ d : bytes, length d = len → u32 (blen d) = n).
  { intros d Hd. unfold blen. by rewrite Hd. }
  destruct (decide (n = 0)) as [Hz|Hz].
  - exists (replicate len 0), x. split_and!; [apply length_replicate| |done|].
    + apply Forall_replicate. by unfold in_word.
    + intros d Hd. unfold chacha_transform, ECRYPT_encrypt_bytes. rewrite Hn, Hz by done.
      simpl. by rewrite <-Hd, xor_bytes_zero.
  - destruct (encrypt_loop_stream (Z.to_nat (n / 64 + 1)) n len x)
      as (ks & x' & Hl & Hk & Hx' & Hall); [done|lia| |].
    + pose proof (Z.div_mod n 64 ltac:(lia)). pose proof (Z.mod_pos_bound n 64 ltac:(lia)).
      rewrite Z2Nat.id; [lia|]. apply Z.add_nonneg_nonneg; [apply Z.div_pos; lia|lia].
    + exists ks, x'. split_and!; [done..|]. intros d Hd.
      unfold chacha_transform, ECRYPT_encrypt_bytes. rewrite Hn by done.
      destruct (n =? 0) eqn:E; [bool_props; lia|]. by apply Hall.
Qed.

(** The key of any non-empty string is its first 32 bytes when repeated. *)
Lemma expand_key_loop_spec f t k :
  0 < blen t → 32 ≤ blen k + Z.of_nat f →
  ∃ k', expand_key_loop f t k = Some (k ++ k') ∧ 32 ≤ blen (k ++ k').
Proof.
  intros Ht. revert k. induction f as [|f IH]; intros k Hk; cbn [expand_key_loop].
  - destruct (_ <? _) eqn:E; bool_props; [lia|]. exists []. by rewrite app_nil_r.
  - destruct (_ <? _) eqn:E; bool_props; [|exists []; by rewrite app_nil_r].
    destruct (IH (k ++ t)) as (k' & H & Hl); [rewrite blen_app; lia|].
    exists (t ++ k'). by rewrite H, (assoc_L (++)).
Qed.

Lemma expand_key_total t :
  0 < blen t → ∃ k, expand_key t = Some k ∧ length k = 32%nat.
Proof.
  intros Ht. unfold expand_key. destruct (_ <? _) eqn:E; bool_props.
  - destruct (expand_key_loop_spec 32 t [] Ht) as (k' & H & Hl); [done|].
    rewrite H. eexists. split; [done|]. rewrite length_take. unfold blen in Hl. lia.
  - eexists. split; [done|]. rewrite length_take. unfold blen in E. lia.
Qed.

Lemma transformer_chacha_new_ok t :
  0 < blen t → ∃ x, transformer_chacha_new t = Some x ∧ ctx_ok x.
Proof.
  intros Ht. destruct (expand_key_total t Ht) as (k & H & Hl).
  unfold transformer_chacha_new. rewrite H. eexists. by split.
Qed.

(** A loop that appends nothing never reaches 32 bytes, with any fuel. *)
Lemma expand_key_loop_empty f k : blen k < 32 → expand_key_loop f [] k = None.
Proof.
  intros Hk. induction f as [|f IH]; cbn [expand_key_loop];
    (destruct (_ <? _) eqn:E; bool_props; [|lia]); [done|]. by rewrite app_nil_r.
Qed.

(** The published vector: key and nonce zero. *)
Example chacha_vector :
  (take 8 ∘ fst) <$> chacha_transform (replicate 64 0)
    (ECRYPT_keysetup (replicate 16 0) (replicate 32 0) 256)
  = Some [0x76; 0xb8; 0xe0; 0xad; 0xa0; 0xf1; 0x3d; 0x90].
Proof. vm_compute. reflexivity. Qed.

(** ** Properties *)

(** The key expansion of the chacha transformer ends with a
    32-byte key for every non-empty string, and never ends for the empty one:
    its loop appends nothing to a key that is too short. *)
Theorem chacha_key_expansion t :
  (0 < blen t → ∃ k, expand_key t = Some k ∧ length k = 32%nat) ∧
  (∀ fuel, expand_key_loop fuel [] [] = None).
Proof.
  split; [apply expand_key_total|]. intros fuel. by apply expand_key_loop_empty.
Qed.

Lemma chacha_key_expansion_witness :
  ∃ k, expand_key [1; 2; 3] = Some k ∧ length k = 32%nat.
Proof. apply (proj1 (chacha_key_expansion [1; 2; 3])). reflexivity. Defined.
