(* ===== verification/Transformer.v ===== *)
(** * Transformer: the stream ciphers behind one interface

    [lib/vtrc/common/transformer/]: the virtual interface [transformer::iface]
    with its implementations [none], [erseefor] and [chacha], the factory, and
    the key derivation of the handshake ([create_key], [generate_key_infos]). *)

From S2P Require Import Prelude Sha2 Sha2Spec Hash Erseefor ChaCha.

(** ** transformer::iface *)

Inductive transformer : Type :=
  | transformer_none
  | transformer_erseefor (crypt_ : erseefor)
  | transformer_chacha (ctx_ : ECRYPT_ctx).

(** [transform( in_out_data )]; [None]: the call does not return. *)
Definition transform (t : transformer) (data : bytes) : option (bytes * transformer) :=
  match t with
  | transformer_none => Some (data, t)
  | transformer_erseefor c =>
      let '(d, c) := Erseefor.transform data c in Some (d, transformer_erseefor c)
  | transformer_chacha x =>
      '(d, x) ← chacha_transform data x; Some (d, transformer_chacha x)
  end.

(** ** The factories *)

Definition drop_key_init : nat := 3072.

Definition none_create : transformer := transformer_none.

Definition erseefor_create (transform_key : bytes) : option transformer :=
  c ← init_key transform_key;
  Some (transformer_erseefor (drop_keys drop_key_init c)).

Definition chacha_create (transform_key : bytes) : option transformer :=
  transformer_chacha <$> transformer_chacha_new transform_key.

(** [enum transformer_variant] of vtrc-auth.proto. *)
Definition TRANSFORM_NONE : Z := 0.
Definition TRANSFORM_ERSEEFOR : Z := 1.

(** The outer [None]: undefined or endless; the inner one: a null pointer. *)
Definition create (id : Z) (key : bytes) : option (option transformer) :=
  if id =? TRANSFORM_ERSEEFOR then Some <$> erseefor_create key
  else if id =? TRANSFORM_NONE then Some (Some none_create)
  else Some None.

(** ** Keys *)

Definition create_key (key s1 s2 : bytes) : bytes :=
  let ts1 := get_data_hash hasher_sha256 (s1 ++ key) in
  get_data_hash hasher_sha256 (s2 ++ ts1).

(** [random_device::generate_block]: [rd] gives the values of the system's
    generator, of which each fills one char. *)
Definition generate_block (rd : nat → Z) (length : nat) : bytes :=
  (λ i, u8 (rd i)) <$> seq 0 length.

(** Returns [s1], [s2] and the key. *)
Definition generate_key_infos (rd : nat → Z) (key : bytes) : bytes * bytes * bytes :=
  let ts1 := generate_block rd 256 in
  let ts2 := generate_block (λ i, rd (256 + i)%nat) 256 in
  (ts1, ts2, create_key key ts1 ts2).

(** ** The contract *)

Definition transformer_ok (t : transformer) : Prop :=
  match t with
  | transformer_none => True
  | transformer_erseefor c => erseefor_ok c
  | transformer_chacha x => ctx_ok x
  end.

(** Encrypting a sequence of messages, the state carried from one to the next. *)
Fixpoint transform_all (t : transformer) (ds : list bytes) :
    option (list bytes * transformer) :=
  match ds with
  | [] => Some ([], t)
  | d :: ds =>
      '(d', t) ← transform t d;
      '(ds', t) ← transform_all t ds;
      Some (d' :: ds', t)
  end.

(** ** Lemmas *)

(** What every implementation promises: it adds to the data a key stream that
    depends on its state and on the length alone, and so does the state it
    leaves. *)
Lemma transform_stream t n :
  transformer_ok t →
  ∃ ks t', length ks = n ∧ bytes_ok ks ∧ transformer_ok t' ∧
    ∀ d, length d = n → transform t d = Some (xor_bytes d ks, t').
Proof.
  intros Ht. destruct t as [|c|x]; cbn [transform transformer_ok] in *.
  - exists (replicate n 0), transformer_none. split_and!; [apply length_replicate| |done|].
    + apply Forall_replicate. by unfold in_word.
    + intros d <-. by rewrite xor_bytes_zero.
  - exists (key_stream n c), (transformer_erseefor (drop_keys n c)).
    split_and!; [apply key_stream_length|by apply key_stream_ok|by apply drop_keys_ok|].
    intros d <-. by rewrite Erseefor.transform_spec.
  - destruct (chacha_transform_stream n x Ht) as (ks & x' & Hl & Hk & Hx' & Hall).
    exists ks, (transformer_chacha x'). split_and!; [done..|].
    intros d Hd. by rewrite Hall.
Qed.

(** In particular: it returns, keeps the length, gives bytes for bytes, and run
    again from the same state undoes itself while leaving the same state. *)
Lemma transform_laws t d :
  transformer_ok t →
  ∃ d' t', transform t d = Some (d', t') ∧ transform t d' = Some (d, t') ∧
    length d' = length d ∧ transformer_ok t' ∧ (bytes_ok d → bytes_ok d').
Proof.
  intros Ht. destruct (transform_stream t (length d) Ht) as (ks & t' & Hl & Hk & Ht' & Hall).
  assert (Hx : length (xor_bytes d ks) = length d) by (apply xor_bytes_length; lia).
  exists (xor_bytes d ks), t'. split_and!; [by apply Hall| |done|done|].
  - rewrite Hall by done. by rewrite xor_bytes_cancel by lia.
  - intros Hd. by apply xor_bytes_ok.
Qed.

Lemma chacha_create_ok key :
  0 < blen key → ∃ t, chacha_create key = Some t ∧ transformer_ok t.
Proof.
  intros H. destruct (transformer_chacha_new_ok key H) as (x & Hx & Hok).
  exists (transformer_chacha x). unfold chacha_create. by rewrite Hx.
Qed.

Lemma erseefor_create_ok key :
  0 < blen key → ∃ t, erseefor_create key = Some t ∧ transformer_ok t.
Proof.
  intros H. unfold erseefor_create.
  destruct (init_key key) as [c|] eqn:E.
  - exists (transformer_erseefor (drop_keys drop_key_init c)). split; [done|].
    apply drop_keys_ok. by apply init_key_ok in E.
  - unfold init_key in E. step_if; [bool_props; lia|done].
Qed.

Lemma create_key_length key s1 s2 : length (create_key key s1 s2) = 32%nat.
Proof. apply sha256_length. Qed.
#[local] Opaque create_key chacha_create erseefor_create.

Lemma transform_all_laws t ds :
  transformer_ok t →
  ∃ ds' t', transform_all t ds = Some (ds', t') ∧ transform_all t ds' = Some (ds, t') ∧
    (length <$> ds') = (length <$> ds) ∧ transformer_ok t'.
Proof.
  revert t. induction ds as [|d ds IH]; intros t Ht; [by exists [], t|].
  destruct (transform_laws t d Ht) as (d' & t1 & H1 & H1' & Hl & Ht1 & _).
  destruct (IH t1 Ht1) as (ds' & t2 & H2 & H2' & Hls & Ht2).
  exists (d' :: ds'), t2. cbn [transform_all]. rewrite H1, H1'. simpl. rewrite H2, H2'. simpl.
  split_and!; [done|done| |done]. f_equal; [done|exact Hls].
Qed.

(** ** Properties *)

(** C31 (roundtrip).  Two ends that derive the session key from the same secret
    and the two open salts stay in step for ever: whatever sequence of messages
    one encrypts, in any number and of any lengths, the other decrypts to the
    originals, for the transformers the handshake and the factory create. *)
Theorem transformers_in_step key s1 s2 ds :
  let k := create_key key s1 s2 in
  (∃ t ds' t', chacha_create k = Some t ∧ transform_all t ds = Some (ds', t') ∧
     transform_all t ds' = Some (ds, t') ∧ (length <$> ds') = (length <$> ds)) ∧
  (∃ t ds' t', create TRANSFORM_ERSEEFOR k = Some (Some t) ∧
     transform_all t ds = Some (ds', t') ∧
     transform_all t ds' = Some (ds, t') ∧ (length <$> ds') = (length <$> ds)).
Proof.
  intros k. assert (Hk : 0 < blen k).
  { unfold k, blen. rewrite create_key_length. done. }
  clearbody k. split.
  - destruct (chacha_create_ok k Hk) as (t & Ht & Hok).
    destruct (transform_all_laws t ds Hok) as (ds' & t' & ? & ? & ? & _).
    exists t, ds', t'. split_and!; assumption.
  - destruct (erseefor_create_ok k Hk) as (t & Ht & Hok).
    destruct (transform_all_laws t ds Hok) as (ds' & t' & ? & ? & ? & _).
    exists t, ds', t'. split_and!; try assumption.
    unfold create. rewrite Z.eqb_refl. apply fmap_Some. exists t. split; [exact Ht|reflexivity].
Qed.
