(* ===== verification/Messages.v ===== *)
(** * Messages: the protocol buffers of the RPC protocol

    The messages of [protocol/vtrc-rpc-lowlevel.proto], [vtrc-rpc-options.proto],
    [vtrc-errors.proto] and [vtrc-auth.proto] as records whose optional fields
    are options, with the accessors of the generated classes (the value, or the
    type's default when the field is not set), and the defaults of
    [lib/vtrc/common/protocol-defaults.cpp].

    Serialization is the protobuf library's: [Codec] is what the program relies
    on, that parsing what was serialized gives the message back. *)

From S2P Require Import Prelude.

(** ** errors::container *)

Record container : Type := Container {
  c_code : option Z;
  c_category : option Z;
  c_fatal : option bool;
  c_additional : option string
}.
Definition container_empty : container := Container None None None None.

Definition CATEGORY_INTERNAL : Z := 0.
Definition CATEGORY_PROTOCOL : Z := 1.
Definition CATEGORY_SYSTEM : Z := 2.

Definition ERR_NO_ERROR : Z := 0.
Definition ERR_NOT_FOUND : Z := 2.
Definition ERR_ACCESS : Z := 13.
Definition ERR_BUSY : Z := 16.
Definition ERR_INVALID_VALUE : Z := 22.
Definition ERR_NO_FUNC : Z := 38.
Definition ERR_TIMEOUT : Z := 62.
Definition ERR_COMM : Z := 70.
Definition ERR_PROTOCOL : Z := 71.
Definition ERR_CANCELED : Z := 125.
Definition ERR_UNKNOWN : Z := 1000.
Definition ERR_CALL_FAILED : Z := 1001.
Definition ERR_INTERNAL : Z := 1002.
Definition ERR_CHANNEL : Z := 1003.
Definition ERR_OVERFLOW : Z := 1004.
Definition ERR_CONTEXT : Z := 1005.

(** ** Options *)

Record rpc_options : Type := Options {
  o_level : option Z;
  o_wait : option bool;
  o_timeout : option Z;
  o_accept_callbacks : option bool
}.

Record unit_options : Type := UnitOptions {
  uo_wait : option bool;
  uo_accept_callbacks : option bool;
  uo_accept_response : option bool
}.
Definition unit_options_empty : unit_options := UnitOptions None None None.

Record session_options : Type := SessionOptions {
  so_max_active_calls : option Z;
  so_max_message_length : option Z;
  so_max_stack_size : option Z;
  so_read_buffer_size : option Z;
  so_init_timeout : option Z
}.

(** ** lowlevel_unit *)

Definition MESSAGE_NONE : Z := 0.
Definition MESSAGE_CLIENT_CALL : Z := 1.
Definition MESSAGE_SERVER_CALL : Z := 2.
Definition MESSAGE_CLIENT_CALLBACK : Z := 3.
Definition MESSAGE_SERVER_CALLBACK : Z := 4.
Definition MESSAGE_SERVICE : Z := 5.
Definition MESSAGE_INTERNAL : Z := 6.

Definition FLAG_CALLBACK_ALONE : Z := 1.

Record message_info : Type := MessageInfo {
  mi_message_type : option Z;
  mi_message_flags : option Z
}.
Record call_info : Type := CallInfo {
  ci_service_id : option string;
  ci_method_id : option string
}.

Record lowlevel_unit : Type := Unit {
  f_id : option Z;
  f_target_id : option Z;
  f_info : option message_info;
  f_call : option call_info;
  f_error : option container;
  f_opt : option unit_options;
  f_channel_data : option bytes;
  f_lowlevel_data : option bytes;
  f_request : option bytes;
  f_response : option bytes
}.

Definition unit_empty : lowlevel_unit :=
  Unit None None None None None None None None None None.

(** *** Generated accessors *)

Definition u_id (u : lowlevel_unit) : Z := default 0 (f_id u).
Definition u_target_id (u : lowlevel_unit) : Z := default 0 (f_target_id u).
Definition u_info (u : lowlevel_unit) : message_info := default (MessageInfo None None) (f_info u).
Definition u_message_type (u : lowlevel_unit) : Z := default 0 (mi_message_type (u_info u)).
Definition u_message_flags (u : lowlevel_unit) : Z := default 0 (mi_message_flags (u_info u)).
Definition u_call (u : lowlevel_unit) : call_info := default (CallInfo None None) (f_call u).
Definition u_service_id (u : lowlevel_unit) : string := default ""%string (ci_service_id (u_call u)).
Definition u_method_id (u : lowlevel_unit) : string := default ""%string (ci_method_id (u_call u)).
Definition u_error (u : lowlevel_unit) : container := default container_empty (f_error u).
Definition u_opt (u : lowlevel_unit) : unit_options := default unit_options_empty (f_opt u).
Definition uo_wait' (o : unit_options) : bool := default false (uo_wait o).
Definition uo_accept_callbacks' (o : unit_options) : bool := default false (uo_accept_callbacks o).
Definition uo_accept_response' (o : unit_options) : bool := default false (uo_accept_response o).
Definition u_request (u : lowlevel_unit) : bytes := default [] (f_request u).
Definition u_response (u : lowlevel_unit) : bytes := default [] (f_response u).
Definition has_error (u : lowlevel_unit) : bool := bool_decide (is_Some (f_error u)).
Definition has_info (u : lowlevel_unit) : bool := bool_decide (is_Some (f_info u)).

(** *** Generated mutators *)

Definition set_id (i : Z) (u : lowlevel_unit) : lowlevel_unit :=
  Unit (Some i) (f_target_id u) (f_info u) (f_call u) (f_error u) (f_opt u)
    (f_channel_data u) (f_lowlevel_data u) (f_request u) (f_response u).
Definition set_target_id (i : Z) (u : lowlevel_unit) : lowlevel_unit :=
  Unit (f_id u) (Some i) (f_info u) (f_call u) (f_error u) (f_opt u)
    (f_channel_data u) (f_lowlevel_data u) (f_request u) (f_response u).
Definition set_info (i : option message_info) (u : lowlevel_unit) : lowlevel_unit :=
  Unit (f_id u) (f_target_id u) i (f_call u) (f_error u) (f_opt u)
    (f_channel_data u) (f_lowlevel_data u) (f_request u) (f_response u).
Definition set_message_type (t : Z) (u : lowlevel_unit) : lowlevel_unit :=
  set_info (Some (MessageInfo (Some t) (mi_message_flags (u_info u)))) u.
Definition set_message_flags (t : Z) (u : lowlevel_unit) : lowlevel_unit :=
  set_info (Some (MessageInfo (mi_message_type (u_info u)) (Some t))) u.
Definition set_call (c : option call_info) (u : lowlevel_unit) : lowlevel_unit :=
  Unit (f_id u) (f_target_id u) (f_info u) c (f_error u) (f_opt u)
    (f_channel_data u) (f_lowlevel_data u) (f_request u) (f_response u).
Definition set_error (e : option container) (u : lowlevel_unit) : lowlevel_unit :=
  Unit (f_id u) (f_target_id u) (f_info u) (f_call u) e (f_opt u)
    (f_channel_data u) (f_lowlevel_data u) (f_request u) (f_response u).
Definition set_opt (o : option unit_options) (u : lowlevel_unit) : lowlevel_unit :=
  Unit (f_id u) (f_target_id u) (f_info u) (f_call u) (f_error u) o
    (f_channel_data u) (f_lowlevel_data u) (f_request u) (f_response u).
Definition set_request (r : option bytes) (u : lowlevel_unit) : lowlevel_unit :=
  Unit (f_id u) (f_target_id u) (f_info u) (f_call u) (f_error u) (f_opt u)
    (f_channel_data u) (f_lowlevel_data u) r (f_response u).
Definition set_response (r : option bytes) (u : lowlevel_unit) : lowlevel_unit :=
  Unit (f_id u) (f_target_id u) (f_info u) (f_call u) (f_error u) (f_opt u)
    (f_channel_data u) (f_lowlevel_data u) (f_request u) r.

(** ** protocol-defaults.cpp *)

Definition default_session_options : session_options :=
  SessionOptions (Some 5) (Some 65536) (Some 16) (Some 4096) (Some 10000).
Definition default_method_options : rpc_options :=
  Options None (Some true) (Some 30000000) (Some true).
Definition default_unit_options : unit_options :=
  UnitOptions (Some true) (Some true) (Some true).

(** ** vtrc-auth.proto *)

Record init_protocol : Type := InitProtocol {
  ip_hash_supported : list Z;
  ip_transform_supported : list Z
}.
Record client_selection : Type := ClientSelection {
  cs_hash : option Z;
  cs_transform : option Z;
  cs_id : option bytes
}.
Record transformer_setup : Type := TransformerSetup {
  ts_salt1 : option bytes;
  ts_salt2 : option bytes
}.
Record session_setup : Type := SessionSetup {
  ss_options : option session_options
}.
Record init_capsule : Type := InitCapsule {
  ic_text : option string;
  ic_ready : option bool;
  ic_error : option container;
  ic_body : option bytes
}.

(** ** Serialization *)

Class Codec (A : Type) : Type := {
  SerializeAsString : A → bytes;
  ParseFromString : bytes → option A
}.
Class CodecLaws (A : Type) {C : Codec A} : Prop := {
  parse_serialize a : ParseFromString (SerializeAsString a) = Some a;
  serialize_bytes (a : A) : bytes_ok (SerializeAsString a)
}.

(** *** A concrete codec

    Any countable type has one: the bits of the number that encodes the value,
    one per byte.  It shows that the laws can hold and lets the witnesses run. *)

Fixpoint positive_bits (p : positive) : bytes :=
  match p with
  | xH => []
  | xO p => 0 :: positive_bits p
  | xI p => 1 :: positive_bits p
  end.
Fixpoint bits_positive (l : bytes) : positive :=
  match l with
  | [] => xH
  | b :: l => if b =? 0 then xO (bits_positive l) else xI (bits_positive l)
  end.

Definition countable_codec `{Countable A} : Codec A := {|
  SerializeAsString a := positive_bits (encode a);
  ParseFromString l := decode (bits_positive l)
|}.

Lemma bits_positive_bits p : bits_positive (positive_bits p) = p.
Proof. induction p as [p IH|p IH|]; simpl; by rewrite ?IH. Qed.

Lemma positive_bits_ok p : bytes_ok (positive_bits p).
Proof. induction p; simpl; constructor; (done || unfold in_word; lia). Qed.

Lemma countable_codec_laws `{Countable A} : CodecLaws A (C := countable_codec).
Proof.
  split; cbn.
  - intros a. by rewrite bits_positive_bits, decode_encode.
  - intros a. apply positive_bits_ok.
Qed.

#[export] Instance container_eq_dec : EqDecision container.
Proof. solve_decision. Defined.
#[export] Instance unit_options_eq_dec : EqDecision unit_options.
Proof. solve_decision. Defined.
#[export] Instance session_options_eq_dec : EqDecision session_options.
Proof. solve_decision. Defined.
#[export] Instance message_info_eq_dec : EqDecision message_info.
Proof. solve_decision. Defined.
#[export] Instance call_info_eq_dec : EqDecision call_info.
Proof. solve_decision. Defined.
#[export] Instance lowlevel_unit_eq_dec : EqDecision lowlevel_unit.
Proof. solve_decision. Defined.
#[export] Instance init_protocol_eq_dec : EqDecision init_protocol.
Proof. solve_decision. Defined.
#[export] Instance client_selection_eq_dec : EqDecision client_selection.
Proof. solve_decision. Defined.
#[export] Instance transformer_setup_eq_dec : EqDecision transformer_setup.
Proof. solve_decision. Defined.
#[export] Instance session_setup_eq_dec : EqDecision session_setup.
Proof. solve_decision. Defined.
#[export] Instance init_capsule_eq_dec : EqDecision init_capsule.
Proof. solve_decision. Defined.

#[export] Instance container_countable : Countable container.
Proof.
  refine (inj_countable' (λ c, (c_code c, c_category c, c_fatal c, c_additional c))
    (λ '(a, b, c, d), Container a b c d) _). by intros [].
Defined.
#[export] Instance unit_options_countable : Countable unit_options.
Proof.
  refine (inj_countable' (λ o, (uo_wait o, uo_accept_callbacks o, uo_accept_response o))
    (λ '(a, b, c), UnitOptions a b c) _). by intros [].
Defined.
#[export] Instance session_options_countable : Countable session_options.
Proof.
  refine (inj_countable' (λ o, (so_max_active_calls o, so_max_message_length o,
      so_max_stack_size o, so_read_buffer_size o, so_init_timeout o))
    (λ '(a, b, c, d, e), SessionOptions a b c d e) _). by intros [].
Defined.
#[export] Instance message_info_countable : Countable message_info.
Proof.
  refine (inj_countable' (λ o, (mi_message_type o, mi_message_flags o))
    (λ '(a, b), MessageInfo a b) _). by intros [].
Defined.
#[export] Instance call_info_countable : Countable call_info.
Proof.
  refine (inj_countable' (λ o, (ci_service_id o, ci_method_id o))
    (λ '(a, b), CallInfo a b) _). by intros [].
Defined.
#[export] Instance lowlevel_unit_countable : Countable lowlevel_unit.
Proof.
  refine (inj_countable' (λ u, (f_id u, f_target_id u, f_info u, f_call u, f_error u,
      f_opt u, f_channel_data u, f_lowlevel_data u, f_request u, f_response u))
    (λ '(a, b, c, d, e, f, g, h, i, j), Unit a b c d e f g h i j) _). by intros [].
Defined.
#[export] Instance init_protocol_countable : Countable init_protocol.
Proof.
  refine (inj_countable' (λ o, (ip_hash_supported o, ip_transform_supported o))
    (λ '(a, b), InitProtocol a b) _). by intros [].
Defined.
#[export] Instance client_selection_countable : Countable client_selection.
Proof.
  refine (inj_countable' (λ o, (cs_hash o, cs_transform o, cs_id o))
    (λ '(a, b, c), ClientSelection a b c) _). by intros [].
Defined.
#[export] Instance transformer_setup_countable : Countable transformer_setup.
Proof.
  refine (inj_countable' (λ o, (ts_salt1 o, ts_salt2 o))
    (λ '(a, b), TransformerSetup a b) _). by intros [].
Defined.
#[export] Instance session_setup_countable : Countable session_setup.
Proof.
  refine (inj_countable' ss_options SessionSetup _). by intros [].
Defined.
#[export] Instance init_capsule_countable : Countable init_capsule.
Proof.
  refine (inj_countable' (λ o, (ic_text o, ic_ready o, ic_error o, ic_body o))
    (λ '(a, b, c, d), InitCapsule a b c d) _). by intros [].
Defined.
