(* ===== verification/Exceptions.v ===== *)
(** * Exceptions: the exceptions of the library and their texts

    [lib/vtrc/common/exception.cpp] over the enumeration of
    [protocol-base/vtrc-errors.proto].  In the other files an exception is what a
    handler reads of it, [EVtrc] with its code, category and additional text; here
    is the text of [what( )] too.

    The texts of the operating system are an argument: [message( )] of an error code
    of the system's category, or the text of the exception that it throws instead. *)

From S2P Require Import Prelude Messages.

(** ** vtrc-errors.proto *)

(** The values of the enumeration, with their descriptions. *)
Definition errors_numbers : list (Z * string) := [
  (ERR_NO_ERROR, "No error"); (1, "Operation not permitted"); (ERR_NOT_FOUND, "Object was not found");
  (5, "I/O error"); (9, "Bad file number"); (ERR_ACCESS, "Permission denied");
  (ERR_BUSY, "Device or resource busy"); (ERR_INVALID_VALUE, "Invalid value");
  (ERR_NO_FUNC, "Function not implemented"); (61, "No data available"); (ERR_TIMEOUT, "Timeout");
  (70, "Communication error on send"); (ERR_PROTOCOL, "Protocol error"); (90, "Message is too long");
  (ERR_CANCELED, "Operation canceled");
  (ERR_UNKNOWN, "Unknown error"); (ERR_CALL_FAILED, "Call failed"); (ERR_INTERNAL, "Internal error");
  (ERR_CHANNEL, "Channel error"); (ERR_OVERFLOW, "Stack overflow"); (ERR_CONTEXT, "Bad callback context") ]%string.

(** An [unsigned] that a function takes as an [int]. *)
Definition as_int (code : Z) : Z := if code <? 2 ^ 31 then code else code - 2 ^ 32.
Definition FindValueByNumber (n : Z) (vs : list (Z * string)) : option (Z * string) :=
  find (λ v, bool_decide (v.1 = n)) vs.

(** ** exception.cpp *)

Definition unknown_error : string := "Unknown error".
Definition default_category : Z := CATEGORY_INTERNAL.
Definition get_internal_error (code : Z) : string :=
  match FindValueByNumber (as_int code) errors_numbers with
  | Some ev => ev.2
  | None => unknown_error
  end.

Record exception : Type := Exception {
  what : string;
  code_ : Z;
  category_ : Z;
  additional_ : string
}.

Section System.
Context (message : Z → string + string).

Definition get_error_code_string (code category : Z) : string :=
  if category =? CATEGORY_INTERNAL then get_internal_error code
  else if category =? CATEGORY_SYSTEM then
    match message (as_int code) with
    | inl text => text
    | inr what => what
    end
  else unknown_error.
Definition error_code_to_string : Z → Z → string := get_error_code_string.

Definition exception_category (code code_category : Z) : exception :=
  Exception (get_error_code_string code code_category) code code_category "".
Definition exception_additional (code code_category : Z) (additional : string) : exception :=
  Exception (get_error_code_string code code_category) code code_category additional.
Definition exception_code (code : Z) : exception :=
  Exception (get_error_code_string code default_category) code default_category "".
Definition exception_text (code : Z) (additional : string) : exception :=
  Exception (get_error_code_string code default_category) code default_category additional.

(** What the handlers of the other files see of it. *)
Definition exn_of (e : exception) : exn := EVtrc (code_ e) (category_ e) (additional_ e).
Definition throw {S A} (e : exception) : M S A := raise (exn_of e).
Definition throw_protocol_error {S} (code : Z) : M S unit := throw (exception_category code CATEGORY_INTERNAL).
Definition throw_system_error {S} (code : Z) : M S unit := throw (exception_category code CATEGORY_SYSTEM).
Definition throw_system_error_with {S} (code : Z) (additional : string) : M S unit :=
  throw (exception_additional code CATEGORY_SYSTEM additional).
End System.

(** ** Lemmas *)

(** Lookup by number in a list without repetitions of numbers. *)
Lemma find_value n vs v : NoDup vs.*1 → v ∈ vs → v.1 = n → FindValueByNumber n vs = Some v.
Proof.
  induction vs as [|u vs IH]; intros HN Hv Hn; [by apply elem_of_nil in Hv|].
  cbn in HN. apply NoDup_cons in HN as [Hu HN]. unfold FindValueByNumber. cbn [find].
  apply elem_of_cons in Hv as [->|Hv]; [by rewrite bool_decide_true|].
  rewrite bool_decide_false; [by apply IH|]. intros E. apply Hu. rewrite E, <-Hn. apply list_elem_of_fmap. by eauto.
Qed.
Lemma find_value_inv n vs v : FindValueByNumber n vs = Some v → v ∈ vs ∧ v.1 = n.
Proof.
  induction vs as [|u vs IH]; [done|]. unfold FindValueByNumber. cbn [find].
  destruct (bool_decide_reflect (u.1 = n)) as [E|E]; intros H.
  - simplify_eq. split; [by left|done].
  - apply IH in H as [H1 H2]. split; [by right|done].
Qed.

Lemma NoDup_fmap_elem {A B} (f : A → B) l x y : NoDup (f <$> l) → x ∈ l → y ∈ l → f x = f y → x = y.
Proof.
  intros HN [i Hi]%list_elem_of_lookup_1 [j Hj]%list_elem_of_lookup_1 E.
  assert (i = j) as <-; [|by simplify_eq].
  eapply (NoDup_lookup _ i j (f x) HN); rewrite list_lookup_fmap; [by rewrite Hi|by rewrite Hj, E].
Qed.
Lemma numbers_distinct : NoDup errors_numbers.*1 ∧ NoDup errors_numbers.*2.
Proof. split; by apply (bool_decide_unpack _); vm_compute. Qed.
Lemma as_int_inj c c' : in_word 32 c → in_word 32 c' → as_int c = as_int c' → c = c'.
Proof. unfold in_word, as_int. intros H H'. destruct (Z.ltb_spec c (2 ^ 31)), (Z.ltb_spec c' (2 ^ 31)); lia. Qed.
Lemma internal_error_eq c d : in_word 31 c → (c, d) ∈ errors_numbers → get_internal_error c = d.
Proof.
  intros Hc Hd. unfold get_internal_error, as_int. destruct (Z.ltb_spec c (2 ^ 31)); [|unfold in_word in Hc; lia].
  by rewrite (find_value c _ (c, d)) by (exact Hd || apply numbers_distinct || done).
Qed.

(** The texts of the library's own errors: a value of the enumeration has its
    description, everything else is unknown, and a text other than that of the unknown
    errors tells the code. *)
Theorem internal_texts c :
  in_word 32 c →
  (∀ d, (c, d) ∈ errors_numbers → get_internal_error c = d) ∧
  (c ∉ errors_numbers.*1 → get_internal_error c = unknown_error) ∧
  (∀ c', in_word 32 c' → get_internal_error c = get_internal_error c' → get_internal_error c ≠ unknown_error → c = c').
Proof.
  intros Hc. assert (Hin : ∀ v, v ∈ errors_numbers → in_word 31 v.1).
  { apply Forall_forall, (bool_decide_unpack _). by vm_compute. }
  assert (Hfound : ∀ x v, in_word 32 x → FindValueByNumber (as_int x) errors_numbers = Some v → v ∈ errors_numbers ∧ v.1 = x).
  { intros x v Hx Hv. apply find_value_inv in Hv as [Hv E]. split; [exact Hv|]. specialize (Hin v Hv).
    unfold as_int, in_word in *. destruct (Z.ltb_spec x (2 ^ 31)); lia. }
  split_and!.
  - intros d Hd. apply internal_error_eq; [exact (Hin _ Hd)|done].
  - intros Hn. unfold get_internal_error. destruct (FindValueByNumber _ _) as [v|] eqn:Hv; [|done].
    destruct (Hfound c v Hc Hv) as [H1 <-]. destruct Hn. apply list_elem_of_fmap. by eauto.
  - intros c' Hc' E Hne. unfold get_internal_error in *.
    destruct (FindValueByNumber (as_int c) _) as [v|] eqn:Hv; [|done].
    destruct (FindValueByNumber (as_int c') _) as [v'|] eqn:Hv'; [|done].
    destruct (Hfound c v Hc Hv) as [H1 <-], (Hfound c' v' Hc' Hv') as [H2 <-]. f_equal.
    by apply (NoDup_fmap_elem snd errors_numbers v v' (proj2 numbers_distinct)).
Qed.

(** What a handler sees does not depend on the texts of the system; only [what] does. *)
Lemma thrown_eq {S} message code additional (s : S) :
  throw_system_error_with message code additional s = (Raise (EVtrc code CATEGORY_SYSTEM additional), s).
Proof. reflexivity. Qed.
