(* ===== verification/LowLevel.v ===== *)
(** * LowLevel: the default low-level protocol

    [lib/vtrc/common/lowlevel-protocol-default.cpp], class
    [lowlevel::default_protocol]: a message is packed as its length prefix
    followed by the transformed [digest + data]; received bytes go through the
    framing parser, and each message is reverted, checked against its digest and
    popped.  [process_stage_] is what runs when new messages are complete: the
    handshake first, the RPC layer when the connection is ready. *)

From S2P Require Import Prelude SizePack DataQueue Hash ChaCha Transformer Messages.

(** [namespace spns = data_queue::varint]: the parser of the class. *)
#[local] Existing Instances varint_policy varint_policy_laws.

(** ** State *)

(** The function bound to [process_stage_]; an empty one throws when called. *)
Inductive stage : Type := stage_none | stage_ready_call | stage_do_handshake.

(** The hashes are pointers a factory may have returned null. *)
Record default_protocol : Type := Protocol {
  hash_maker_ : option Hash.iface;
  hash_checker_ : option Hash.iface;
  transformer_ : transformer;
  revertor_ : transformer;
  queue_ : queue_base;
  process_stage_ : stage
}.

Definition default_protocol_new : default_protocol :=
  Protocol Hash.create_default Hash.create_default none_create none_create
    (varint_create_parser (default 0 (so_max_message_length default_session_options)))
    stage_none.

Definition set_transformer (ti : transformer) (p : default_protocol) : default_protocol :=
  Protocol (hash_maker_ p) (hash_checker_ p) ti (revertor_ p) (queue_ p) (process_stage_ p).
Definition set_revertor (ti : transformer) (p : default_protocol) : default_protocol :=
  Protocol (hash_maker_ p) (hash_checker_ p) (transformer_ p) ti (queue_ p) (process_stage_ p).
Definition set_hash_maker (hi : option Hash.iface) (p : default_protocol) : default_protocol :=
  Protocol hi (hash_checker_ p) (transformer_ p) (revertor_ p) (queue_ p) (process_stage_ p).
Definition set_hash_checker (hi : option Hash.iface) (p : default_protocol) : default_protocol :=
  Protocol (hash_maker_ p) hi (transformer_ p) (revertor_ p) (queue_ p) (process_stage_ p).
Definition set_queue (q : queue_base) (p : default_protocol) : default_protocol :=
  Protocol (hash_maker_ p) (hash_checker_ p) (transformer_ p) (revertor_ p) q (process_stage_ p).
Definition set_stage (s : stage) (p : default_protocol) : default_protocol :=
  Protocol (hash_maker_ p) (hash_checker_ p) (transformer_ p) (revertor_ p) (queue_ p) s.
Definition switch_to_ready : default_protocol → default_protocol := set_stage stage_ready_call.
Definition switch_to_handshake : default_protocol → default_protocol := set_stage stage_do_handshake.

Definition configure (opts : session_options) (p : default_protocol) : default_protocol :=
  set_queue (Queue (data_ (queue_ p)) (packed_ (queue_ p))
               (default 0 (so_max_message_length opts))) p.

(** ** Sending *)

(** A call through a null pointer, or one that never returns. *)
Definition deref {S A} (o : option A) : M S A :=
  match o with Some a => ret a | None => raise (EUndefined "pointer") end.

Definition pack_message_impl (data : bytes) : M default_protocol bytes :=
  let* p := get in
  let* h := deref (hash_maker_ p) in
  let body_len := u64 (blen data + Hash.size h) in
  let result := varint_pack_size body_len in
  let body := get_data_hash h data ++ data in
  let* (body, t) := deref (transform (transformer_ p) body) in
  modify (set_transformer t) ;;;
  ret (result ++ body).

Definition pack_message (mess : bytes) : M default_protocol bytes := pack_message_impl mess.

(** ** Receiving *)

(** Run an operation of the queue on the protocol's queue. *)
Definition on_queue {A} (m : M queue_base A) : M default_protocol A := λ p,
  let '(r, q) := m (queue_ p) in (r, set_queue q p).

Definition protocol_queue_size (p : default_protocol) : Z := blen (packed_ (queue_ p)).

(** [process_data]: the object that owns the protocol is the state [S], so that
    the stage that runs can change all of it. *)
Class HasProtocol (S : Type) : Type := {
  protocol : S → default_protocol;
  set_protocol : default_protocol → S → S
}.
#[export] Instance protocol_itself : HasProtocol default_protocol := {|
  protocol p := p; set_protocol p _ := p
|}.

Definition on_protocol {S} `{HasProtocol S} {A} (m : M default_protocol A) : M S A := λ s,
  let '(r, p) := m (protocol s) in (r, set_protocol p s).

Section ProcessData.
Context {S : Type} `{HasProtocol S} (call_stage : stage → M S unit).

Definition process_data (data : bytes) : M S unit :=
  if 0 <? blen data then
    let* s := get in
    let old := protocol_queue_size (protocol s) in
    on_protocol (on_queue (append data)) ;;;
    on_protocol (on_queue parser_process) ;;;
    let* s := get in
    if old <? protocol_queue_size (protocol s) then
      call_stage (process_stage_ (protocol s))
    else ret tt
  else ret tt.
End ProcessData.

(** [diff_len] wraps when the message is shorter than the digest; the test
    comes before its use. *)
Definition check_message (mess : bytes) : M default_protocol bool :=
  let* p := get in
  let* h := deref (hash_checker_ p) in
  let hash_length := Hash.size h in
  if hash_length <=? blen mess then
    deref (check_data_hash h (drop (Z.to_nat hash_length) mess) mess)
  else ret false.

(** [data] is the front of the queue; it is reverted in place, and popped in
    every case.  The result is the data without its digest when the check holds,
    the caller's string is left alone otherwise. *)
Definition pop_raw_message : M default_protocol (option bytes) :=
  let* data := on_queue front in
  let* p := get in
  let* (data, t) := deref (transform (revertor_ p) data) in
  modify (set_revertor t) ;;;
  let* checked := check_message data in
  let* p := get in
  let* h := deref (hash_checker_ p) in
  on_queue pop_front ;;;
  ret (if checked then Some (drop (Z.to_nat (Hash.size h)) data) else None).

(** The same with the protobuf parser at the end. *)
Definition pop_proto_message {A} `{Codec A} : M default_protocol (option A) :=
  let* data := on_queue front in
  let* p := get in
  let* (data, t) := deref (transform (revertor_ p) data) in
  modify (set_revertor t) ;;;
  let* checked := check_message data in
  let* p := get in
  let* h := deref (hash_checker_ p) in
  on_queue pop_front ;;;
  ret (if checked then ParseFromString (drop (Z.to_nat (Hash.size h)) data) else None).

Definition serialize_lowlevel `{Codec lowlevel_unit} (mess : lowlevel_unit) : bytes :=
  SerializeAsString mess.

(** ** Specification of a pair of ends *)

(** The bytes sent and the bytes expected agree: same digest, ciphers in the
    same state. *)
Record in_sync (h : Hash.iface) (s r : default_protocol) : Prop := {
  is_laws : HashLaws h;
  is_maker : hash_maker_ s = Some h;
  is_checker : hash_checker_ r = Some h;
  is_cipher : transformer_ s = revertor_ r;
  is_cipher_ok : transformer_ok (revertor_ r);
  is_limit : limit_ok (queue_ r)
}.

(** Send a list of messages: the bytes written to the transport. *)
Fixpoint send_all (ms : list bytes) : M default_protocol bytes :=
  match ms with
  | [] => ret []
  | m :: ms =>
      let* w := pack_message m in
      let* ws := send_all ms in
      ret (w ++ ws)
  end.

(** A receiver that pops whatever is complete whenever the stage runs, as the
    RPC layers do, and logs it. *)
Record receiver : Type := Receiver { rc_protocol : default_protocol; rc_log : list (option bytes) }.
#[export] Instance receiver_protocol : HasProtocol receiver := {|
  protocol := rc_protocol;
  set_protocol p r := Receiver p (rc_log r)
|}.

Fixpoint drain (fuel : nat) : M receiver unit :=
  match fuel with
  | O => ret tt
  | S f =>
      let* r := get in
      match packed_ (queue_ (rc_protocol r)) with
      | [] => ret tt
      | _ :: _ =>
          let* m := on_protocol pop_raw_message in
          modify (λ r, Receiver (rc_protocol r) (rc_log r ++ [m])) ;;;
          drain f
      end
  end.
Definition drain_all : M receiver unit := λ r,
  drain (length (packed_ (queue_ (rc_protocol r)))) r.

Fixpoint receive_all (ds : list bytes) : M receiver unit :=
  match ds with
  | [] => ret tt
  | d :: ds => process_data (λ _, drain_all) d ;;; receive_all ds
  end.

(** ** Lemmas *)

(** *** One message *)

(** [w] is what the sender transmits for [m]. *)
Definition encoded1 (h : Hash.iface) (t : transformer) (m w : bytes) (t' : transformer) : Prop :=
  transform t (get_data_hash h m ++ m) = Some (w, t') ∧
  transform t w = Some (get_data_hash h m ++ m, t') ∧
  blen w = blen m + Hash.size h ∧ transformer_ok t'.

Lemma encode1 h t m :
  HashLaws h → transformer_ok t → ∃ w t', encoded1 h t m w t'.
Proof.
  intros Hh Ht. destruct (transform_laws t (get_data_hash h m ++ m) Ht)
    as (w & t' & H1 & H2 & Hl & Ht' & _).
  exists w, t'. split_and!; [done|done| |done].
  unfold blen. rewrite Hl. pose proof (hl_get_length m) as Hg. unfold blen in Hg.
  rewrite length_app. lia.
Qed.

Lemma pack_message_ok h m w t' s :
  hash_maker_ s = Some h → encoded1 h (transformer_ s) m w t' →
  blen m + Hash.size h < 2 ^ 64 → 0 ≤ Hash.size h →
  pack_message m s = (Ok (frame w), set_transformer t' s).
Proof.
  intros Hm (He & _ & Hl & _) Hb Hs. unfold pack_message, pack_message_impl, bind, get, deref.
  rewrite Hm. simpl. rewrite He. simpl. unfold frame.
  rewrite (wrap_small 64) by (pose proof (blen_nonneg m); unfold in_word; lia).
  by rewrite Hl.
Qed.

(** What a received message is worth once reverted. *)
Definition pop_result (h : Hash.iface) (x : bytes) : option bytes :=
  if Hash.size h <=? blen x then
    match check_data_hash h (drop (Z.to_nat (Hash.size h)) x) x with
    | Some true => Some (drop (Z.to_nat (Hash.size h)) x)
    | _ => None
    end
  else None.

Definition with_queue (q : queue_base) (t : transformer) (p : default_protocol) :=
  set_queue q (set_revertor t p).

Lemma check_message_ok h x p :
  HashLaws h → hash_checker_ p = Some h →
  ∃ b, check_message x p = (Ok b, p) ∧
    pop_result h x = if b then Some (drop (Z.to_nat (Hash.size h)) x) else None.
Proof.
  intros Hh Hc. unfold check_message, pop_result, bind, get, deref. rewrite Hc. simpl.
  destruct (Hash.size h <=? blen x) eqn:E; bool_props; [|by exists false].
  destruct (hl_check (h := h) (drop (Z.to_nat (Hash.size h)) x)
    (take (Z.to_nat (Hash.size h)) x) (drop (Z.to_nat (Hash.size h)) x)) as (b & Hb & _).
  { pose proof (hl_size (h := h)). unfold blen in *. rewrite length_take. lia. }
  rewrite take_drop in Hb. rewrite Hb. exists b. by destruct b.
Qed.

Lemma pop_raw_message_ok h w ws x t' p :
  HashLaws h → hash_checker_ p = Some h → packed_ (queue_ p) = w :: ws →
  transform (revertor_ p) w = Some (x, t') →
  pop_raw_message p =
    (Ok (pop_result h x), with_queue (with_packed ws (queue_ p)) t' p).
Proof.
  intros Hh Hc Hq Ht. unfold pop_raw_message, bind at 1, on_queue at 1, front. rewrite Hq.
  cbn [set_queue queue_]. unfold bind at 1, get at 1. cbn [revertor_ set_queue].
  rewrite Ht. unfold deref at 1. cbn [bind ret]. unfold bind at 1, ret at 1.
  unfold bind at 1, modify at 1.
  match goal with |- context [check_message x ?q] =>
    destruct (check_message_ok h x q Hh) as (b & Hb & ->); [done|] end.
  unfold bind at 1. rewrite Hb. unfold bind at 1, get. cbn [hash_checker_ set_revertor set_queue].
  rewrite Hc. unfold deref. unfold bind at 1, ret at 1.
  unfold bind, on_queue, pop_front. cbn [queue_ set_revertor set_queue]. rewrite Hq.
  by destruct b.
Qed.

(** *** Sequences of messages *)

Inductive encoded (h : Hash.iface) : transformer → list bytes → list bytes → transformer → Prop :=
  | encoded_nil t : encoded h t [] [] t
  | encoded_cons t m w t1 ms ws t2 :
      encoded1 h t m w t1 → encoded h t1 ms ws t2 → encoded h t (m :: ms) (w :: ws) t2.

Inductive popped (h : Hash.iface) : transformer → list bytes → list (option bytes) → transformer → Prop :=
  | popped_nil t : popped h t [] [] t
  | popped_cons t w x t1 ws os t2 :
      transform t w = Some (x, t1) → popped h t1 ws os t2 →
      popped h t (w :: ws) (pop_result h x :: os) t2.

Lemma encode_all h t ms :
  HashLaws h → transformer_ok t → ∃ ws t', encoded h t ms ws t' ∧ transformer_ok t'.
Proof.
  intros Hh. revert t. induction ms as [|m ms IH]; intros t Ht.
  - exists [], t. split; [constructor|done].
  - destruct (encode1 h t m Hh Ht) as (w & t1 & H1).
    destruct (IH t1) as (ws & t2 & H2 & Ht2); [apply H1|].
    exists (w :: ws), t2. split; [by econstructor|done].
Qed.

Lemma pop_result_good h m : HashLaws h → pop_result h (get_data_hash h m ++ m) = Some m.
Proof.
  intros Hh. unfold pop_result. rewrite blen_app, hl_get_length. pose proof (blen_nonneg m).
  destruct (_ <=? _) eqn:E; bool_props; [|lia].
  assert (Hd : drop (Z.to_nat (Hash.size h)) (get_data_hash h m ++ m) = m).
  { apply drop_app_exact. pose proof (hl_get_length (h := h) m). unfold blen in *. lia. }
  rewrite Hd. destruct (hl_check (h := h) m (get_data_hash h m) m) as (b & Hb & Ht);
    [apply hl_get_length|]. by rewrite Hb, Ht.
Qed.

Lemma encoded_popped h t ms ws t' :
  HashLaws h → encoded h t ms ws t' → popped h t ws (Some <$> ms) t'.
Proof.
  intros Hh. induction 1 as [t|t m w t1 ms ws t2 (He & Hd & _) _ IH]; [constructor|].
  cbn [fmap list_fmap]. rewrite <-(pop_result_good h m Hh) at 1. by econstructor.
Qed.

Lemma popped_app h t ws1 ws2 os t' :
  popped h t (ws1 ++ ws2) os t' →
  ∃ os1 os2 t1, os = os1 ++ os2 ∧ popped h t ws1 os1 t1 ∧ popped h t1 ws2 os2 t'.
Proof.
  revert t os. induction ws1 as [|w ws1 IH]; intros t os H.
  - exists [], os, t. split_and!; [done|constructor|done].
  - inversion H as [|? ? x t1 ? os' ? Ht Hp]; subst.
    destruct (IH _ _ Hp) as (os1 & os2 & t2 & -> & H1 & H2).
    exists (pop_result h x :: os1), os2, t2. split_and!; [done|by econstructor|done].
Qed.

Lemma popped_join h t ws1 ws2 os1 os2 t1 t2 :
  popped h t ws1 os1 t1 → popped h t1 ws2 os2 t2 → popped h t (ws1 ++ ws2) (os1 ++ os2) t2.
Proof. induction 1; intros; simpl; [done|]. econstructor; eauto. Qed.

Lemma send_all_ok h ms ws t' s :
  HashLaws h → hash_maker_ s = Some h → encoded h (transformer_ s) ms ws t' →
  Forall (λ m, blen m + Hash.size h < 2 ^ 64) ms →
  send_all ms s = (Ok (concat (frame <$> ws)), set_transformer t' s).
Proof.
  intros Hh. revert ws s. induction ms as [|m ms IH]; intros ws s Hm He Hl;
    inversion He as [|? ? w t1 ? ws' ? H1 H2]; subst; inversion Hl; subst.
  - by destruct s.
  - cbn [send_all fmap list_fmap concat].
    erewrite bind_ok by (eapply pack_message_ok; [done|done|done|apply hl_size]).
    erewrite bind_ok by (apply (IH ws' (set_transformer t1 s)); done). done.
Qed.

(** *** The receiving side *)

Lemma drain_ok h ws os t' p log :
  HashLaws h → hash_checker_ p = Some h → packed_ (queue_ p) = ws →
  popped h (revertor_ p) ws os t' →
  drain (length ws) (Receiver p log) =
    (Ok tt, Receiver (with_queue (with_packed [] (queue_ p)) t' p) (log ++ os)).
Proof.
  intros Hh. revert p log os. induction ws as [|w ws IH]; intros p log os Hc Hq Hp;
    inversion Hp as [|? ? x t1 ? os' ? Ht Hp']; subst; cbn [length drain].
  - rewrite app_nil_r. unfold ret, with_queue. destruct p as [? ? ? ? [? ? ?] ?]. simpl in *. by subst.
  - unfold bind at 1, get. cbn [rc_protocol]. rewrite Hq.
    unfold bind at 1, on_protocol. cbn [protocol receiver_protocol rc_protocol].
    rewrite (pop_raw_message_ok h w ws x t1 p) by done.
    cbn [set_protocol receiver_protocol]. unfold bind at 1, modify. cbn [rc_protocol rc_log].
    rewrite (IH (with_queue (with_packed ws (queue_ p)) t1 p) _ os') by done.
    by rewrite <-(assoc_L (++)).
Qed.

(** What the parser cuts off a prefix of a stream of frames is a prefix of the
    messages. *)
Lemma parsed_prefix max x y ms d o ws :
  parsed max x ms d o → max < 2 ^ 64 → Forall (λ w, blen w ≤ max) ws →
  x ++ y = concat (frame <$> ws) →
  o = Ok tt ∧ ∃ ws', ws = ms ++ ws' ∧ d ++ y = concat (frame <$> ws').
Proof.
  intros Hp Hmax. revert ws. assert (Hnil : ∀ o', parse_front max [] o' → o' = Ok None).
  { intros o' H. eapply parse_front_fun; [done|]. constructor.
    pose proof (sp_size_length_bound []). unfold blen in *. simpl in *. lia. }
  induction Hp as [d H|d e H|d m r ms d' o H Hp IH]; intros ws Hws Hxy.
  - split; [done|]. by exists ws.
  - exfalso. apply (parse_front_app _ _ y) in H. rewrite Hxy in H.
    destruct ws as [|w ws]; [by apply Hnil in H|]. inversion Hws; subst.
    pose proof (parse_front_frame max w (concat (frame <$> ws)) ltac:(done) Hmax) as Hf.
    by pose proof (parse_front_fun _ _ _ _ H Hf).
  - apply (parse_front_app _ _ y) in H. rewrite Hxy in H.
    destruct ws as [|w ws]; [by apply Hnil in H|]. inversion Hws; subst.
    pose proof (parse_front_frame max w (concat (frame <$> ws)) ltac:(done) Hmax) as Hf.
    pose proof (parse_front_fun _ _ _ _ H Hf). simplify_eq.
    destruct (IH ws) as (-> & ws' & -> & Hd); [done|done|]. split; [done|]. by exists ws'.
Qed.

(** The parser stops at data that does not start with a complete message. *)
Definition idle (q : queue_base) : Prop :=
  packed_ q = [] ∧ parse_front (max_valid_length_ q) (data_ q) (Ok None).

Lemma parsed_stops max x ms d : parsed max x ms d (Ok tt) → parse_front max d (Ok None).
Proof.
  remember (Ok tt : res unit) as o eqn:Ho. intros H. revert Ho. by induction H; intros; eauto.
Qed.

Lemma process_data_ok h d rest ws os t' p log :
  HashLaws h → hash_checker_ p = Some h → limit_ok (queue_ p) →
  Forall (λ w, blen w ≤ max_valid_length_ (queue_ p)) ws →
  idle (queue_ p) → data_ (queue_ p) ++ d ++ rest = concat (frame <$> ws) →
  popped h (revertor_ p) ws os t' →
  ∃ ws' os1 os2 t1 d1,
    process_data (λ _, drain_all) d (Receiver p log) =
      (Ok tt, Receiver (with_queue (Queue d1 [] (max_valid_length_ (queue_ p))) t1 p)
                (log ++ os1)) ∧
    os = os1 ++ os2 ∧ popped h t1 ws' os2 t' ∧ d1 ++ rest = concat (frame <$> ws') ∧
    Forall (λ w, blen w ≤ max_valid_length_ (queue_ p)) ws' ∧
    idle (Queue d1 [] (max_valid_length_ (queue_ p))).
Proof.
  intros Hh Hc Hq Hws [Hpk Hidle] Hcat Hpop. unfold process_data.
  destruct (0 <? blen d) eqn:E.
  2:{ assert (d = []) as -> by (destruct d; [done|]; unfold blen in E; simpl in E; bool_props; lia).
      exists ws, [], os, (revertor_ p), (data_ (queue_ p)).
      split_and!; [|done|done|done|done|done]. rewrite app_nil_r.
      destruct p as [? ? ? ? [? ? ?] ?]. simpl in *. by subst. }
  destruct (parser_process_spec (with_data (data_ (queue_ p) ++ d) (queue_ p)))
    as (ms & d1 & o & Hp & He); [done|].
  rewrite (assoc_L (++)) in Hcat. destruct Hq as [Hq0 Hq]. pose proof sp_max_length_word.
  destruct (parsed_prefix _ _ rest _ _ _ ws Hp ltac:(simpl; lia) Hws Hcat)
    as (-> & ws' & -> & Hrest).
  apply popped_app in Hpop as (os1 & os2 & t1 & -> & H1 & H2).
  apply Forall_app in Hws as [_ Hws'].
  exists ws', os1, os2, t1, d1.
  split_and!; [|done|done|done|done|split; [done|by apply parsed_stops in Hp]].
  unfold bind at 1, get at 1. unfold bind at 1, on_protocol at 1, on_queue at 1, append, modify.
  cbn [protocol receiver_protocol rc_protocol set_protocol set_queue queue_].
  unfold bind at 1, on_protocol at 1, on_queue at 1.
  cbn [protocol receiver_protocol rc_protocol set_protocol set_queue queue_ rc_log].
  rewrite He. unfold bind at 1, get at 1. unfold protocol_queue_size.
  cbn [protocol receiver_protocol rc_protocol queue_ set_queue packed_ with_packed with_data rc_log].
  rewrite Hpk. cbn [app]. unfold drain_all. cbn [rc_protocol queue_ packed_].
  destruct ms as [|m ms].
  - inversion H1; subst. rewrite app_nil_r. by destruct p.
  - replace (blen [] <? blen (m :: ms)) with true by (symmetry; apply Z.ltb_lt; done).
    cbn [rc_protocol queue_ packed_ set_queue with_data with_packed].
    by erewrite drain_ok by done.
Qed.

(** Any stream of frames, however it is cut. *)
Lemma receive_all_ok h ds ws os t' p log :
  HashLaws h → hash_checker_ p = Some h → limit_ok (queue_ p) →
  Forall (λ w, blen w ≤ max_valid_length_ (queue_ p)) ws →
  idle (queue_ p) → data_ (queue_ p) ++ concat ds = concat (frame <$> ws) →
  popped h (revertor_ p) ws os t' →
  receive_all ds (Receiver p log) =
    (Ok tt, Receiver (with_queue (Queue [] [] (max_valid_length_ (queue_ p))) t' p)
              (log ++ os)).
Proof.
  intros Hh. revert ws os p log. induction ds as [|d ds IH];
    intros ws os p log Hc Hq Hws Hidle Hcat Hpop; cbn [receive_all].
  - destruct ws as [|w ws].
    + inversion Hpop; subst. rewrite !app_nil_r in *. simpl in Hcat.
      destruct p as [? ? ? ? [? ? ?] ?], Hidle. simpl in *. by subst.
    + exfalso. destruct Hidle as [_ Hidle]. rewrite app_nil_r in Hcat. rewrite Hcat in Hidle.
      inversion Hws; subst. destruct Hq. pose proof sp_max_length_word.
      pose proof (parse_front_frame (max_valid_length_ (queue_ p)) w (concat (frame <$> ws))
        ltac:(done) ltac:(lia)) as Hf.
      by pose proof (parse_front_fun _ _ _ _ Hidle Hf).
  - destruct (process_data_ok h d (concat ds) ws os t' p log)
      as (ws' & os1 & os2 & t1 & d1 & He & -> & Hpop' & Hcat' & Hws' & Hidle'); [done..|].
    rewrite (bind_ok _ _ _ _ _ He).
    rewrite (IH ws' os2) by done. by rewrite (assoc_L (++)).
Qed.

Lemma encoded_lengths h t ms ws t' max :
  encoded h t ms ws t' → Forall (λ m, blen m + Hash.size h ≤ max) ms →
  Forall (λ w, blen w ≤ max) ws.
Proof.
  induction 1 as [|t m w t1 ms ws t2 (_ & _ & Hl & _) _ IH]; intros H; inversion H; subst;
    constructor; [lia|by apply IH].
Qed.

(** Between two messages. *)
Definition quiet (q : queue_base) : Prop := packed_ q = [] ∧ data_ q = [].

Lemma quiet_idle q : quiet q → idle q.
Proof.
  intros [Hp Hd]. split; [done|]. rewrite Hd. constructor.
  pose proof (sp_size_length_bound []). unfold blen in *. simpl in *. lia.
Qed.

(** *** Corruption *)

Lemma drop_app_ge {A} (l k : list A) n :
  (length l ≤ n)%nat → drop n (l ++ k) = drop (n - length l) k.
Proof. intros H. by rewrite drop_app, drop_ge by done. Qed.

(** Adding a key stream keeps a change in its place. *)
Lemma xor_bytes_change p e e' q ks :
  length e = length e' → e ≠ e' → length ks = length (p ++ e ++ q) →
  ∃ p1 e1 e1' q1, xor_bytes (p ++ e ++ q) ks = p1 ++ e1 ++ q1 ∧
    xor_bytes (p ++ e' ++ q) ks = p1 ++ e1' ++ q1 ∧
    length p1 = length p ∧ length e1 = length e ∧ length e1' = length e ∧ e1 ≠ e1' ∧
    (bytes_ok e' → bytes_ok ks → bytes_ok e1').
Proof.
  intros He Hne Hk. rewrite !length_app in Hk.
  set (k1 := take (length p) ks). set (k2 := take (length e) (drop (length p) ks)).
  set (k3 := drop (length e) (drop (length p) ks)).
  assert (Hks : ks = k1 ++ k2 ++ k3) by (unfold k1, k2, k3; by rewrite !take_drop).
  assert (H1 : length k1 = length p) by (unfold k1; rewrite length_take; lia).
  assert (H2 : length k2 = length e) by (unfold k2; rewrite length_take, length_drop; lia).
  assert (H3 : length k3 = length q) by (unfold k3; rewrite !length_drop; lia).
  assert (Hsplit : ∀ x, length x = length e →
    xor_bytes (p ++ x ++ q) ks = xor_bytes p k1 ++ xor_bytes x k2 ++ xor_bytes q k3).
  { intros x Hx. rewrite Hks. rewrite xor_bytes_split by (rewrite !length_app; lia).
    rewrite take_app_exact, drop_app_exact by lia. f_equal.
    rewrite xor_bytes_split by (rewrite !length_app; lia).
    by rewrite take_app_exact, drop_app_exact by lia. }
  exists (xor_bytes p k1), (xor_bytes e k2), (xor_bytes e' k2), (xor_bytes q k3).
  split_and!; [by apply Hsplit|by apply Hsplit|rewrite xor_bytes_length; lia..| |].
  2:{ intros Hoke Hokk. apply xor_bytes_ok; [done|]. by apply Forall_take, Forall_drop. }
  intros H. apply Hne. apply (f_equal (λ x, xor_bytes x k2)) in H.
  rewrite !xor_bytes_cancel in H by lia. done.
Qed.

(** A change inside the digest, or inside the data, of at most four bytes. *)
Lemma pop_result_corrupt m p e e' q :
  bytes_ok (crc32_get m ++ m) → bytes_ok e' →
  crc32_get m ++ m = p ++ e ++ q → length e = length e' → (length e ≤ 4)%nat → e ≠ e' →
  (4 ≤ length p ∨ length p + length e ≤ 4)%nat →
  pop_result hasher_crc32 (p ++ e' ++ q) = None.
Proof.
  intros Hok Hok' Hx He H4 Hne Hpos. unfold pop_result. cbn [Hash.size hasher_crc32 check_data_hash].
  change (Z.to_nat crc32_length) with 4%nat.
  destruct (_ <=? _) eqn:E; [|done]. clear E.
  assert (Hm : drop 4 (p ++ e ++ q) = m) by (rewrite <-Hx; by apply drop_app_exact).
  assert (Hg : take 4 (p ++ e ++ q) = crc32_get m) by (rewrite <-Hx; by apply take_app_exact).
  rewrite Hx in Hok. apply Forall_app in Hok as [Hokp Hok]. apply Forall_app in Hok as [Hoke Hokq].
  destruct Hpos as [Hp|Hp].
  - assert (Hd : ∀ x, drop 4 (p ++ x) = drop 4 p ++ x) by (intros; by apply drop_app_le).
    rewrite Hd in Hm. rewrite Hd. rewrite take_app_le in Hg by done.
    rewrite <-(take_drop 4 p) at 2. rewrite Hg, <-Hm, <-!(assoc_L (++)).
    rewrite crc32_check_spec, bool_decide_false; [done| |done]. by apply crc32_burst.
  - assert (Hq : ∀ x, length x = length e → drop 4 (p ++ x ++ q) = drop (4 - length p - length e) q).
    { intros x Hl. rewrite drop_app_ge by lia. rewrite drop_app_ge by lia. by rewrite Hl. }
    rewrite Hq in Hm by done. rewrite Hq by done. rewrite Hm.
    set (n := (4 - length p - length e)%nat) in *.
    rewrite <-(take_drop n q) at 1. rewrite !(assoc_L (++)).
    assert (Hlq : (n ≤ length q)%nat).
    { apply (f_equal length) in Hx. rewrite !length_app in Hx. simpl in Hx. lia. }
    rewrite crc32_check_spec by (rewrite !length_app, length_take; lia).
    rewrite bool_decide_false; [done|]. rewrite <-Hg.
    rewrite take_app_ge, take_app_ge by lia. fold n. rewrite <-!(assoc_L (++)). intros Heq.
    apply app_inj_1 in Heq as [_ Heq]; [|done]. apply app_inj_1 in Heq as [Heq _]; [|done]. by destruct Hne.
Qed.

(** ** Properties *)

(** C2 (refinement).  The low-level protocol implements a reliable channel of
    messages: whatever messages one end packs, with any digest and any
    transformers in the same state, are popped at the other end in order,
    complete and unchanged, however the transport cuts the bytes; afterwards the
    two ends are in step again, so that this holds for the whole session. *)
Theorem reliable_channel h s r ms log :
  in_sync h s r → quiet (queue_ r) →
  Forall (λ m, blen m + Hash.size h ≤ max_valid_length_ (queue_ r)) ms →
  ∃ wire s', send_all ms s = (Ok wire, s') ∧
    ∀ ds, concat ds = wire →
      ∃ r', receive_all ds (Receiver r log) = (Ok tt, Receiver r' (log ++ (Some <$> ms))) ∧
        in_sync h s' r' ∧ quiet (queue_ r').
Proof.
  intros [Hh Hm Hc Hci Hok Hlim] Hquiet Hms.
  destruct (encode_all h (transformer_ s) ms Hh) as (ws & t' & He & Ht'); [by rewrite Hci|].
  destruct Hlim as [Hl0 Hl1]. pose proof sp_max_length_word.
  eexists _, _. split.
  { eapply (send_all_ok h); [done|done|done|]. eapply Forall_impl; [done|]. simpl. intros. lia. }
  intros ds Hds. eexists. split.
  { eapply (receive_all_ok h ds ws); [done|done|done| |by apply quiet_idle| |].
    - by eapply encoded_lengths.
    - by rewrite (proj2 Hquiet).
    - eapply encoded_popped; [done|]. by rewrite <-Hci. }
  by split.
Qed.

Lemma reliable_channel_witness :
  ∃ wire s', send_all [[1; 2]; []] default_protocol_new = (Ok wire, s') ∧
    ∀ ds, concat ds = wire →
      ∃ r', receive_all ds (Receiver default_protocol_new []) =
        (Ok tt, Receiver r' [Some [1; 2]; Some []]).
Proof.
  destruct (reliable_channel hasher_none default_protocol_new default_protocol_new
    [[1; 2]; []] []) as (wire & s' & H1 & H2).
  - split; [apply _|reflexivity|reflexivity|reflexivity|exact I|].
    split; vm_compute; [discriminate|reflexivity].
  - split; reflexivity.
  - repeat constructor; vm_compute; discriminate.
  - exists wire, s'. split; [exact H1|]. intros ds Hds.
    destruct (H2 ds Hds) as (r' & H & _). exists r'. exact H.
Defined.

(** C10 (safety).  With the CRC digest, a message whose transmitted body is
    changed in up to four consecutive bytes that lie all in its digest or all in its
    data is refused, and the damage ends there: every message before and after it is
    delivered, whatever cipher is in use.  The lengths that frame the messages are
    intact, as a change of those moves the borders of all that follows, and a burst
    across the border of digest and data is not promised to be noticed
    ([straddling_burst_accepted]). *)
Theorem corruption_isolated s r ms1 m ms2 ws1 w ws2 p e e' q t1 t2 t3 log ds :
  in_sync hasher_crc32 s r → quiet (queue_ r) →
  Forall (λ m, blen m + 4 ≤ max_valid_length_ (queue_ r)) (ms1 ++ m :: ms2) →
  encoded hasher_crc32 (transformer_ s) ms1 ws1 t1 →
  encoded1 hasher_crc32 t1 m w t2 → encoded hasher_crc32 t2 ms2 ws2 t3 →
  transformer_ok t1 → bytes_ok m → bytes_ok e' →
  w = p ++ e ++ q → length e = length e' → (length e ≤ 4)%nat → e ≠ e' →
  (4 ≤ length p ∨ length p + length e ≤ 4)%nat →
  concat ds = concat (frame <$> ws1 ++ (p ++ e' ++ q) :: ws2) →
  ∃ r', receive_all ds (Receiver r log) =
    (Ok tt, Receiver r' (log ++ (Some <$> ms1) ++ None :: (Some <$> ms2))).
Proof.
  intros [Hh Hm Hc Hci Hok Hlim] Hquiet Hms He1 Hw He2 Ht1 Hokm Hoke' Hwe He H4 Hne Hpos Hds.
  apply Forall_app in Hms as [Hms1 Hms]. apply Forall_cons in Hms as [Hmm Hms2].
  assert (Hl : length (p ++ e' ++ q) = length w) by (rewrite Hwe, !length_app; lia).
  destruct (transform_stream t1 (length w) Ht1) as (ks & t' & Hlk & Hkok & _ & Hall).
  assert (Hbad : ∃ x t, transform t1 (p ++ e' ++ q) = Some (x, t) ∧ t = t2 ∧
    pop_result hasher_crc32 x = None).
  { destruct Hw as (_ & Hrev & _). rewrite Hall in Hrev by done. injection Hrev as Hx Ht'.
    rewrite Hwe in Hx, Hlk.
    destruct (xor_bytes_change p e e' q ks He Hne Hlk)
      as (p1 & e1 & e1' & q1 & Hx1 & Hx2 & Hp1 & Hl1 & Hl1' & Hne1 & Hb).
    exists (p1 ++ e1' ++ q1), t'. rewrite Hall, Hx2 by done. split_and!; [done|done|].
    apply (pop_result_corrupt m p1 e1).
    - apply Forall_app. split; [apply crc32_get_bytes|done].
    - by apply Hb.
    - by rewrite <-Hx1.
    - lia.
    - lia.
    - done.
    - lia. }
  destruct Hbad as (x & ? & Htx & -> & Hnone).
  eexists. eapply (receive_all_ok _ ds (ws1 ++ (p ++ e' ++ q) :: ws2)); [done|done|done| | | |].
  - apply Forall_app. split; [by eapply encoded_lengths|]. constructor.
    + destruct Hw as (_ & _ & Hlw & _). cbn [Hash.size hasher_crc32] in Hlw.
      unfold blen in *. rewrite Hl. unfold crc32_length in Hlw. lia.
    + by eapply encoded_lengths.
  - by apply quiet_idle.
  - by rewrite (proj2 Hquiet).
  - eapply popped_join; [rewrite <-Hci; by eapply encoded_popped|].
    rewrite <-Hnone at 1. econstructor; [done|]. by eapply encoded_popped.
Qed.

(** The second of three messages arrives with one byte of its digest changed. *)
Lemma corruption_isolated_witness :
  let p := set_hash_maker (Some hasher_crc32)
             (set_hash_checker (Some hasher_crc32) default_protocol_new) in
  ∃ r', receive_all [concat (frame <$> [crc32_get [1] ++ [1];
          [] ++ [0] ++ drop 1 (crc32_get [2]) ++ [2]; crc32_get [3] ++ [3]])]
        (Receiver p []) = (Ok tt, Receiver r' [Some [1]; None; Some [3]]).
Proof.
  intros p. assert (Hl : ∀ d, is_byte d → encoded1 hasher_crc32 transformer_none [d]
    (crc32_get [d] ++ [d]) transformer_none) by (intros; split_and!; reflexivity).
  refine (corruption_isolated p p [[1]] [2] [[3]] [crc32_get [1] ++ [1]]
    (crc32_get [2] ++ [2]) [crc32_get [3] ++ [3]] [] (take 1 (crc32_get [2])) [0]
    (drop 1 (crc32_get [2]) ++ [2]) transformer_none transformer_none transformer_none
    [] _ _ _ _ _ _ _ _ _ _ _ _ _ _ _ _).
  - split; [apply _|reflexivity|reflexivity|reflexivity|exact I|].
    split; vm_compute; [discriminate|reflexivity].
  - split; reflexivity.
  - repeat constructor; vm_compute; discriminate.
  - econstructor; [apply Hl; vm_compute; split; [discriminate|reflexivity]|constructor].
  - apply Hl; vm_compute; split; [discriminate|reflexivity].
  - econstructor; [apply Hl; vm_compute; split; [discriminate|reflexivity]|constructor].
  - exact I.
  - repeat constructor; vm_compute; discriminate.
  - repeat constructor; vm_compute; discriminate.
  - reflexivity.
  - reflexivity.
  - simpl; lia.
  - vm_compute. discriminate.
  - right. simpl. lia.
  - reflexivity.
Defined.

(** Four consecutive bytes, the last three of the digest and the first of the data,
    can be changed so that the message passes: the digest comes first on the wire,
    so such a burst is not one of the CRC's own. *)
Example straddling_burst_accepted :
  crc32_get [0; 0; 0; 0; 0; 0] = [0xb1; 0xc2; 0xa1; 0xa3] ∧
  pop_result hasher_crc32 ([0xb1; 0xc2; 0xa1; 0xa3] ++ [0; 0; 0; 0; 0; 0]) = Some [0; 0; 0; 0; 0; 0] ∧
  pop_result hasher_crc32 ([0xb1] ++ [0xa1; 0x87; 0x58; 0x97] ++ [0; 0; 0; 0; 0]) = Some [0x97; 0; 0; 0; 0; 0].
Proof. vm_compute. done. Qed.
