(* ===== verification/Wire.v ===== *)
(** * Wire: what is typed at the low-level protocol

    One end of a connection as its owner drives it: pack a message, receive a
    block, pop what is complete.  [protocol_typed] says what the C++ types leave
    out: the pointers to the digests are not null, the ciphers are keyed, every
    element of the queues is a byte, the limit cannot wrap.  A typed end does not
    go wrong on any input, hostile bytes included. *)

From S2P Require Import Prelude SizePack DataQueue Hash ChaCha Transformer Messages LowLevel.

#[local] Existing Instances varint_policy varint_policy_laws.

Inductive wire_op : Type :=
  | WSend (m : bytes)
  | WReceive (d : bytes)
  | WPop.

(** [connection->protocol( ).process_data( )] with a stage that leaves the popping
    to the owner; popping is guarded as the owners guard it, by [queue_size( )]. *)
Definition run_wire (op : wire_op) : M default_protocol bytes :=
  match op with
  | WSend m => pack_message m
  | WReceive d => process_data (λ _, ret tt) d ;;; ret []
  | WPop =>
      let* p := get in
      if 0 <? protocol_queue_size p then
        let* m := pop_raw_message in ret (default [] m)
      else ret []
  end.
Fixpoint run_wires (ops : list wire_op) (p : default_protocol) : list (res bytes) * default_protocol :=
  match ops with
  | [] => ([], p)
  | op :: ops =>
      let '(r, p) := run_wire op p in
      let '(rs, p) := run_wires ops p in
      (r :: rs, p)
  end.

Record protocol_typed (p : default_protocol) : Prop := {
  pt_maker : ∃ h, hash_maker_ p = Some h ∧ HashLaws h;
  pt_checker : ∃ h, hash_checker_ p = Some h ∧ HashLaws h;
  pt_transformer : transformer_ok (transformer_ p);
  pt_revertor : transformer_ok (revertor_ p);
  pt_data : bytes_ok (data_ (queue_ p));
  pt_packed : Forall bytes_ok (packed_ (queue_ p));
  pt_limit : limit_ok (queue_ p)
}.

(** The argument is a string of bytes, as long as a string can be. *)
Definition wire_op_typed (op : wire_op) : Prop :=
  match op with
  | WSend m => bytes_ok m ∧ blen m < 2 ^ 63
  | WReceive d => bytes_ok d
  | WPop => True
  end.
(** Bytes, or an exception of the program. *)
Definition result_typed (r : res bytes) : Prop :=
  match r with
  | Ok w => bytes_ok w
  | Raise (EUndefined _) => False
  | Raise _ => True
  end.

(** ** Lemmas *)

Lemma parsed_bytes max d ms d' o :
  parsed max d ms d' o → bytes_ok d → Forall bytes_ok ms ∧ bytes_ok d'.
Proof.
  induction 1 as [d H|d e H|d m r ms d' o H _ IH]; intros Hd; [done..|].
  inversion H; subst. apply Forall_app in Hd as [_ [Hm Hr]%Forall_app].
  destruct (IH Hr). split; [by constructor|done].
Qed.

Lemma send_typed m p :
  protocol_typed p → bytes_ok m → blen m < 2 ^ 63 →
  let '(r, p') := pack_message m p in protocol_typed p' ∧ result_typed r.
Proof.
  intros [(h & Hm & Hh) Hc Ht Hr Hd Hp Hl] Hmb Hlen.
  destruct (transform_laws (transformer_ p) (get_data_hash h m ++ m) Ht) as (w & t' & Hw & Hw' & Hwl & Ht' & Hb).
  pose proof (hl_size (h := h)). pose proof (hl_get_length (h := h) m) as Hg.
  assert (Hbl : blen w = blen m + Hash.size h) by (unfold blen in *; rewrite Hwl, length_app; lia).
  pose proof (blen_nonneg m).
  rewrite (pack_message_ok h m w t' p) by (done || lia || by split_and!).
  split; [by split; eauto|]. simpl. unfold frame. apply Forall_app. split.
  - apply sp_pack_bytes. unfold in_word. lia.
  - apply Hb, Forall_app. split; [apply hl_get_bytes|done].
Qed.

Lemma receive_typed d p :
  protocol_typed p → bytes_ok d →
  let '(r, p') := process_data (λ _, ret tt) d p in
  protocol_typed p' ∧ match r with Raise (EUndefined _) => False | _ => True end.
Proof.
  intros Hp Hd. unfold process_data. destruct (0 <? blen d); [|done]. rewrite bind_get.
  destruct (parser_process_spec (with_data (data_ (queue_ p) ++ d) (queue_ p)))
    as (ms & d' & o & Hpar & He); [apply Hp|].
  simpl in Hpar, He. destruct (parsed_bytes _ _ _ _ _ Hpar) as [Hms Hd'].
  { apply Forall_app. split; [apply Hp|done]. }
  pose proof (λ w, parsed_no_undefined _ _ _ _ _ w Hpar) as Hno.
  set (q := with_data d' (with_packed (packed_ (queue_ p) ++ ms) (queue_ p))).
  assert (Hq : protocol_typed (set_queue q p)).
  { destruct Hp. split; try done. simpl. by apply Forall_app. }
  assert (Hrun : (on_protocol (on_queue (append d)) ;;; on_protocol (on_queue parser_process)) p = (o, set_queue q p)).
  { unfold bind, on_protocol, on_queue, append. simpl. by rewrite He. }
  assert (E : ∀ k, (on_protocol (on_queue (append d)) ;;; on_protocol (on_queue parser_process) ;;; k) p =
    match o with Ok _ => k (set_queue q p) | Raise e => (Raise e, set_queue q p) end :> res unit * default_protocol).
  { intros k. unfold bind in Hrun |- *. destruct (on_protocol (on_queue (append d)) p) as [[u|e] p1].
    - by rewrite Hrun; destruct o.
    - by injection Hrun as <- ->. }
  rewrite E. destruct o as [u|e].
  - rewrite bind_get. by destruct (_ <? _).
  - split; [done|]. by destruct e; try specialize (Hno what).
Qed.

Lemma pop_typed p :
  protocol_typed p → 0 < protocol_queue_size p →
  let '(r, p') := pop_raw_message p in
  protocol_typed p' ∧ match r with Ok m => bytes_ok (default [] m) | Raise _ => False end.
Proof.
  intros [Hm (h & Hc & Hh) Ht Hr Hd Hp Hl] Hq.
  destruct (packed_ (queue_ p)) as [|w ws] eqn:E; [by unfold protocol_queue_size in Hq; rewrite E in Hq|].
  destruct (transform_laws (revertor_ p) w Hr) as (x & t' & Hx & _ & _ & Ht' & Hb).
  rewrite (pop_raw_message_ok h w ws x t' p) by done.
  apply Forall_cons in Hp as [Hw Hws]. split; [by split; eauto|].
  unfold pop_result. repeat case_match; simpl; try apply Forall_nil_2. by apply Forall_drop, Hb.
Qed.

Lemma run_wire_typed op p :
  protocol_typed p → wire_op_typed op →
  let '(r, p') := run_wire op p in protocol_typed p' ∧ result_typed r.
Proof.
  intros Hp Hop. destruct op as [m|d|]; simpl in *.
  - destruct Hop. by apply send_typed.
  - unfold bind. pose proof (receive_typed d p Hp Hop) as H.
    destruct (process_data _ d p) as [[u|e] p']; [by destruct H; split; [|constructor]|].
    destruct H as [H1 H2]. split; [done|]. by destruct e.
  - rewrite bind_get. destruct (0 <? protocol_queue_size p) eqn:E; bool_props; [|by split; [|constructor]].
    unfold bind. pose proof (pop_typed p Hp E) as H. destruct (pop_raw_message p) as [[m|e] p'];
      by destruct H.
Qed.

(** C20 (type). A typed end of a connection does not go wrong: whatever it is asked to
    send and whatever bytes reach it, corrupted or hostile, in whatever order, no
    operation has undefined behaviour, every string it writes or pops consists of
    bytes, and it stays typed. *)
Theorem wire_typed ops p :
  protocol_typed p → Forall wire_op_typed ops →
  let '(rs, p') := run_wires ops p in protocol_typed p' ∧ Forall result_typed rs.
Proof.
  intros Hp Hops. revert p Hp. induction Hops as [|op ops Hop Hops IH]; intros p Hp; simpl; [by split|].
  pose proof (run_wire_typed op p Hp Hop) as H. destruct (run_wire op p) as [r p1]. destruct H as [H1 Hr].
  specialize (IH p1 H1). destruct (run_wires ops p1) as [rs p2]. destruct IH. split; [done|by constructor].
Qed.

(** A new end with CRC digests: a message out, two good blocks and a bad digest in. *)
Lemma wire_typed_witness :
  let p := set_hash_maker (Some hasher_crc32) (set_hash_checker (Some hasher_crc32) default_protocol_new) in
  let ops := [WSend [1; 2]; WReceive [5; 0; 0]; WReceive [0; 0; 255; 255; 255]; WPop; WPop] in
  let '(rs, p') := run_wires ops p in protocol_typed p' ∧ Forall result_typed rs.
Proof.
  intros p ops. apply (wire_typed ops p).
  - split; [exists hasher_crc32; split; [done|apply _]|exists hasher_crc32; split; [done|apply _]
           |exact I|exact I|constructor|constructor|].
    split; vm_compute; [discriminate|done].
  - repeat constructor; vm_compute; (discriminate || done).
Defined.
