(* ===== verification/CondQueues.v ===== *)
(** * CondQueues: queues of messages that threads wait on

    [lib/vtrc/common/condition-queues.h], class template [condition_queues].  The
    map from keys to queues is guarded by one mutex and every queue by its own;
    a reader looks its queue up under the first lock, keeps a shared pointer to
    it, and waits under the second, so that a queue lives on in a reader's hands
    after it was erased from the map.  The heap of queues and the pointers are
    explicit, and so are the points where a reader holds no lock: the operations
    are the atomic steps, and [step] interleaves them. *)

From S2P Require Import Prelude.

(** ** State *)

(** [enum wait_result_codes] of result-codes.h *)
Inductive wait_result : Type :=
  | WAIT_RESULT_SUCCESS
  | WAIT_RESULT_CANCELED
  | WAIT_RESULT_TIMEOUT.

#[export] Instance wait_result_eq_dec : EqDecision wait_result.
Proof. solve_decision. Defined.

Section CondQueues.
Context {V : Type}.

Record hold_value_type : Type := Hold {
  canceled_ : bool;
  hdata_ : list V
}.

(** Queues live in [heap_]; [store_] maps a key to the queue's address. *)
Record condition_queues : Type := CQ {
  heap_ : gmap nat hold_value_type;
  store_ : gmap Z nat;
  next_ : nat
}.

Definition condition_queues_new : condition_queues := CQ ∅ ∅ 0.

Definition hold_new : hold_value_type := Hold false [].

(** The queue at an address; every address in use has one. *)
Definition value_of (c : condition_queues) (a : nat) : hold_value_type :=
  default hold_new (heap_ c !! a).

Definition set_value (a : nat) (h : hold_value_type) (c : condition_queues) : condition_queues :=
  CQ (<[a := h]> (heap_ c)) (store_ c) (next_ c).

(** ** Lookup *)

(** [at( key )] and [value_at_key( key )] *)
Definition value_at_key (key : Z) : M condition_queues nat := λ c,
  match store_ c !! key with
  | Some a => (Ok a, c)
  | None => (Raise (EOutOfRange "Bad queue index"), c)
  end.

(** A null pointer when the key is not there. *)
Definition value_by_key (key : Z) (c : condition_queues) : option nat := store_ c !! key.

Definition queue_empty_predicate (h : hold_value_type) : bool :=
  negb (bool_decide (length (hdata_ h) = 0%nat)) || canceled_ h.

Definition cancel_res2wait_res (canceled waitres : bool) : wait_result :=
  if canceled then WAIT_RESULT_CANCELED
  else if waitres then WAIT_RESULT_SUCCESS else WAIT_RESULT_TIMEOUT.

(** ** Operations on one queue, under its lock *)

Definition cancel_value (a : nat) (c : condition_queues) : condition_queues :=
  set_value a (Hold true (hdata_ (value_of c a))) c.

Definition push_value_data (a : nat) (data : list V) (c : condition_queues) : condition_queues :=
  set_value a (Hold (canceled_ (value_of c a)) (hdata_ (value_of c a) ++ data)) c.

(** ** Public operations, under the lock of the map *)

Definition size (c : condition_queues) : Z := Z.of_nat (base.size (store_ c)).

Definition queue_size (key : Z) : M condition_queues Z :=
  let* a := value_at_key key in
  gets (λ c, blen (hdata_ (value_of c a))).

(** [insert] leaves a queue that is already there. *)
Definition add_queue (key : Z) : M condition_queues unit := λ c,
  match store_ c !! key with
  | Some _ => (Ok tt, c)
  | None =>
      (Ok tt, CQ (<[next_ c := hold_new]> (heap_ c)) (<[key := next_ c]> (store_ c)) (S (next_ c)))
  end.

Definition erase_queue (key : Z) : M condition_queues unit := λ c,
  match store_ c !! key with
  | Some a =>
      let c := cancel_value a c in
      (Ok tt, CQ (heap_ c) (delete key (store_ c)) (next_ c))
  | None => (Ok tt, c)
  end.

(** The addresses in the map, for the loops over it. *)
Definition addresses (c : condition_queues) : list nat := snd <$> map_to_list (store_ c).

Definition cancel_each (addrs : list nat) (c : condition_queues) : condition_queues :=
  foldl (λ c a, cancel_value a c) c addrs.

Definition cancel_all : M condition_queues unit := λ c, (Ok tt, cancel_each (addresses c) c).

Definition erase_all : M condition_queues unit := λ c,
  let c := cancel_each (addresses c) c in
  (Ok tt, CQ (heap_ c) ∅ (next_ c)).

Definition cancel (key : Z) : M condition_queues unit :=
  let* a := value_at_key key in
  modify (cancel_value a).

Definition write_queue (key : Z) (data : V) : M condition_queues unit :=
  let* a := value_at_key key in
  modify (push_value_data a [data]).

(** The overload that appends a whole deque. *)
Definition write_queue_all (key : Z) (data : list V) : M condition_queues unit :=
  let* a := value_at_key key in
  modify (push_value_data a data).

Definition push_each (addrs : list nat) (data : V) (c : condition_queues) : condition_queues :=
  foldl (λ c a, push_value_data a [data] c) c addrs.

Definition write_all (data : V) : M condition_queues Z := λ c,
  (Ok (blen (addresses c)), push_each (addresses c) data c).

(** The lookup and the push are separate critical sections. *)
Definition write_queue_if_exists (key : Z) (data : V) : M condition_queues bool := λ c,
  match value_by_key key c with
  | Some a => (Ok true, push_value_data a [data] c)
  | None => (Ok false, c)
  end.

Definition queue_exists (key : Z) (c : condition_queues) : bool :=
  bool_decide (is_Some (store_ c !! key)).

(** ** Reading

    [read_enter] is the critical section up to the wait, whose result says that
    there is nothing to wait for; [finish_*] is what follows the wait, [res]
    being what the wait returned. *)

Definition read_enter (a : nat) : M condition_queues bool := λ c,
  let c := set_value a (Hold false (hdata_ (value_of c a))) c in
  (Ok (queue_empty_predicate (value_of c a)), c).

Definition finish_read (a : nat) (res : bool) : M condition_queues (wait_result * option V) := λ c,
  let h := value_of c a in
  let code := cancel_res2wait_res (canceled_ h) res in
  match canceled_ h, hdata_ h with
  | false, v :: data => (Ok (code, Some v), set_value a (Hold false data) c)
  | _, _ => (Ok (code, None), c)
  end.

Definition finish_read_queue (a : nat) (res : bool) : M condition_queues (wait_result * list V) := λ c,
  let h := value_of c a in
  let code := cancel_res2wait_res (canceled_ h) res in
  if res then (Ok (code, hdata_ h), set_value a (Hold (canceled_ h) []) c)
  else (Ok (code, []), c).

Definition finish_wait_queue (a : nat) (res : bool) : M condition_queues wait_result := λ c,
  (Ok (cancel_res2wait_res (canceled_ (value_of c a)) res), c).

(** A call as one thread sees it: [others] is what the other threads do to the
    queues while it sleeps, up to the moment it is woken or the time is up; the
    wait with a predicate returns the predicate's value. *)
Definition wait_for (a : nat) (others : M condition_queues unit) : M condition_queues bool :=
  let* ready := read_enter a in
  if ready then ret true
  else others ;;; gets (λ c, queue_empty_predicate (value_of c a)).

Definition read (key : Z) (others : M condition_queues unit) :
    M condition_queues (wait_result * option V) :=
  let* a := value_at_key key in
  let* res := wait_for a others in
  finish_read a res.

Definition read_queue (key : Z) (others : M condition_queues unit) :
    M condition_queues (wait_result * list V) :=
  let* a := value_at_key key in
  let* res := wait_for a others in
  finish_read_queue a res.

Definition wait_queue (key : Z) (others : M condition_queues unit) :
    M condition_queues wait_result :=
  let* a := value_at_key key in
  let* res := wait_for a others in
  finish_wait_queue a res.

(** ** Interleaving

    What a thread is doing between its critical sections. *)

Inductive thread : Type :=
  | TReadFound (a : nat)
  | TReadWaiting (a : nat)
  | TWriteFound (a : nat) (v : V)
  | TDone (r : option (wait_result * list V)).

(** What happened to the contents of the queues, oldest first. *)
Inductive event : Type :=
  | EvPush (a : nat) (v : V)
  | EvDeliver (a : nat) (v : V).

Record system : Type := Sys {
  queues : condition_queues;
  threads : gmap nat thread;
  history : list event
}.

Definition system_init : system := Sys condition_queues_new ∅ [].

(** The operations that are one critical section. *)
Inductive locked_op : Type :=
  | OpAdd (key : Z) | OpErase (key : Z) | OpEraseAll | OpCancelAll | OpCancel (key : Z)
  | OpWrite (key : Z) (v : V) | OpWriteDeque (key : Z) (vs : list V) | OpWriteAll (v : V).

Definition run_op (o : locked_op) : M condition_queues unit :=
  match o with
  | OpAdd k => add_queue k
  | OpErase k => erase_queue k
  | OpEraseAll => erase_all
  | OpCancelAll => cancel_all
  | OpCancel k => cancel k
  | OpWrite k v => write_queue k v
  | OpWriteDeque k vs => write_queue_all k vs
  | OpWriteAll v => write_all v ;;; ret tt
  end.

(** The messages an operation puts into queues. *)
Definition op_pushes (o : locked_op) (c : condition_queues) : list event :=
  match o with
  | OpWrite k v => from_option (λ a, [EvPush a v]) [] (store_ c !! k)
  | OpWriteDeque k vs => from_option (λ a, EvPush a <$> vs) [] (store_ c !! k)
  | OpWriteAll v => (λ a, EvPush a v) <$> addresses c
  | _ => []
  end.

(** One atomic step.  A waiting reader may be woken at any moment (a condition
    variable may wake spuriously) and goes on when its predicate holds; when the
    wait is timed it may also give up, with the predicate's value. *)
Inductive step : system → system → Prop :=
  | step_op o c ts h :
      step (Sys c ts h) (Sys (run_op o c).2 ts (h ++ op_pushes o c))
  | step_read_lookup t key a c ts h :
      ts !! t = None → value_at_key key c = (Ok a, c) →
      step (Sys c ts h) (Sys c (<[t := TReadFound a]> ts) h)
  | step_read_enter t a c ts h :
      ts !! t = Some (TReadFound a) →
      step (Sys c ts h) (Sys (read_enter a c).2 (<[t := TReadWaiting a]> ts) h)
  | step_read_done t a c ts h res code r c' :
      ts !! t = Some (TReadWaiting a) → res = queue_empty_predicate (value_of c a) →
      finish_read a res c = (Ok (code, r), c') →
      step (Sys c ts h)
        (Sys c' (<[t := TDone (Some (code, option_list r))]> ts)
           (h ++ (EvDeliver a <$> option_list r)))
  | step_read_queue_done t a c ts h res code r c' :
      ts !! t = Some (TReadWaiting a) → res = queue_empty_predicate (value_of c a) →
      finish_read_queue a res c = (Ok (code, r), c') →
      step (Sys c ts h)
        (Sys c' (<[t := TDone (Some (code, r))]> ts) (h ++ (EvDeliver a <$> r)))
  | step_write_lookup t key v a c ts h :
      ts !! t = None → value_by_key key c = Some a →
      step (Sys c ts h) (Sys c (<[t := TWriteFound a v]> ts) h)
  | step_write_push t a v c ts h :
      ts !! t = Some (TWriteFound a v) →
      step (Sys c ts h)
        (Sys (push_value_data a [v] c) (<[t := TDone None]> ts) (h ++ [EvPush a v])).

Inductive reachable : system → Prop :=
  | reachable_init : reachable system_init
  | reachable_step s s' : reachable s → step s s' → reachable s'.

(** ** Specification: first in, first out *)

Fixpoint pushed (a : nat) (h : list event) : list V :=
  match h with
  | [] => []
  | EvPush b v :: h => (if decide (a = b) then [v] else []) ++ pushed a h
  | EvDeliver _ _ :: h => pushed a h
  end.
Fixpoint delivered (a : nat) (h : list event) : list V :=
  match h with
  | [] => []
  | EvDeliver b v :: h => (if decide (a = b) then [v] else []) ++ delivered a h
  | EvPush _ _ :: h => delivered a h
  end.

(** Addresses are handed out once, the map has no aliases, and threads hold
    addresses that exist. *)
Record cq_wf (c : condition_queues) : Prop := {
  wf_heap a : is_Some (heap_ c !! a) ↔ (a < next_ c)%nat;
  wf_store k a : store_ c !! k = Some a → (a < next_ c)%nat;
  wf_inj k k' a : store_ c !! k = Some a → store_ c !! k' = Some a → k = k'
}.

Definition thread_address (t : thread) : option nat :=
  match t with
  | TReadFound a | TReadWaiting a | TWriteFound a _ => Some a
  | TDone _ => None
  end.

Record sys_inv (s : system) : Prop := {
  inv_wf : cq_wf (queues s);
  inv_threads t x a :
    threads s !! t = Some x → thread_address x = Some a → (a < next_ (queues s))%nat;
  inv_fifo a : pushed a (history s) =
    delivered a (history s) ++ hdata_ (value_of (queues s) a)
}.
End CondQueues.
Arguments hold_value_type : clear implicits.
Arguments condition_queues : clear implicits.
Arguments thread : clear implicits.
Arguments event : clear implicits.
Arguments system : clear implicits.
Arguments locked_op : clear implicits.

(** ** Lemmas *)

Section CondQueuesLemmas.
Context {V : Type}.
Implicit Types (c : condition_queues V) (h : list (event V)).

Lemma value_of_set a v c : value_of (set_value a v c) a = v.
Proof. unfold value_of, set_value. simpl. by rewrite lookup_insert_eq. Qed.

Lemma value_of_set_ne a b v c : a ≠ b → value_of (set_value a v c) b = value_of c b.
Proof. intros H. unfold value_of, set_value. simpl. by rewrite lookup_insert_ne. Qed.

Lemma set_value_wf a v c : cq_wf c → (a < next_ c)%nat → cq_wf (set_value a v c).
Proof.
  intros [Hh Hs Hi] Ha. split; simpl; [|exact Hs|exact Hi]. intros b.
  destruct (decide (a = b)) as [->|Hne].
  - rewrite lookup_insert_eq. split; [done|by eexists].
  - rewrite lookup_insert_ne by done. apply Hh.
Qed.

Lemma pushed_app a h h' : pushed a (h ++ h') = pushed a h ++ pushed a h'.
Proof. induction h as [|[] h IH]; simpl; rewrite ?IH, ?(assoc_L (++)); done. Qed.
Lemma delivered_app a h h' : delivered a (h ++ h') = delivered a h ++ delivered a h'.
Proof. induction h as [|[] h IH]; simpl; rewrite ?IH, ?(assoc_L (++)); done. Qed.

Lemma pushed_deliver a b vs : pushed a (EvDeliver b <$> vs) = ([] : list V).
Proof. by induction vs. Qed.
Lemma delivered_deliver a b (vs : list V) :
  delivered a (EvDeliver b <$> vs) = if decide (a = b) then vs else [].
Proof.
  induction vs as [|v vs IH]; [by destruct (decide _)|]. cbn [fmap list_fmap delivered].
  rewrite IH. by destruct (decide (a = b)).
Qed.
Lemma pushed_push a b (vs : list V) :
  pushed a (EvPush b <$> vs) = if decide (a = b) then vs else [].
Proof.
  induction vs as [|v vs IH]; [by destruct (decide _)|]. cbn [fmap list_fmap pushed].
  rewrite IH. by destruct (decide (a = b)).
Qed.

Lemma delivered_pushes o c a : delivered a (op_pushes o c) = ([] : list V).
Proof.
  destruct o; simpl; try done.
  - by destruct (store_ c !! key).
  - destruct (store_ c !! key) as [b|]; [|done]. simpl.
    induction vs as [|w vs IH]; [done|]. exact IH.
  - induction (addresses c) as [|b l IH]; [done|]. exact IH.
Qed.

Lemma hdata_set a b v c :
  hdata_ v = hdata_ (value_of c a) →
  hdata_ (value_of (set_value a v c) b) = hdata_ (value_of c b).
Proof.
  intros Hv. destruct (decide (a = b)) as [<-|Hne];
    [by rewrite value_of_set|by rewrite value_of_set_ne].
Qed.

Lemma hdata_push a b vs c :
  hdata_ (value_of (push_value_data a vs c) b) =
    hdata_ (value_of c b) ++ if decide (b = a) then vs else [].
Proof.
  unfold push_value_data. destruct (decide (b = a)) as [->|Hne].
  - by rewrite value_of_set.
  - by rewrite value_of_set_ne, app_nil_r by done.
Qed.

Lemma cancel_each_data l c a :
  hdata_ (value_of (cancel_each l c) a) = hdata_ (value_of c a).
Proof.
  revert c. induction l as [|b l IH]; intros c; [done|]. simpl. rewrite IH.
  by apply hdata_set.
Qed.

Lemma push_each_data l v c a :
  hdata_ (value_of (push_each l v c) a) =
    hdata_ (value_of c a) ++ pushed a ((λ b, EvPush b v) <$> l).
Proof.
  revert c. induction l as [|b l IH]; intros c; [by rewrite app_nil_r|].
  simpl. by rewrite IH, hdata_push, <-(assoc_L (++)).
Qed.

Lemma addresses_wf c : cq_wf c → Forall (λ a, (a < next_ c)%nat) (addresses c).
Proof.
  intros Hwf. apply Forall_fmap, Forall_forall. intros [k a] Hk.
  apply elem_of_map_to_list in Hk. by apply (wf_store c Hwf k).
Qed.

Lemma fold_wf (f : nat → condition_queues V → condition_queues V) l c :
  (∀ a c, cq_wf c → (a < next_ c)%nat → cq_wf (f a c) ∧ next_ (f a c) = next_ c) →
  cq_wf c → Forall (λ a, (a < next_ c)%nat) l →
  cq_wf (foldl (λ c a, f a c) c l) ∧ next_ (foldl (λ c a, f a c) c l) = next_ c.
Proof.
  intros Hf. revert c. induction l as [|a l IH]; intros c Hc Hl; [done|].
  inversion Hl; subst. destruct (Hf a c) as [Hwf Hn]; [done..|]. simpl.
  destruct (IH (f a c)) as [? Hn']; [done|by rewrite Hn|]. split; [done|]. by rewrite Hn', Hn.
Qed.

Lemma cancel_each_wf l c :
  cq_wf c → Forall (λ a, (a < next_ c)%nat) l →
  cq_wf (cancel_each l c) ∧ next_ (cancel_each l c) = next_ c.
Proof. apply (fold_wf cancel_value). intros a c' ? ?. split; [by apply set_value_wf|done]. Qed.

Lemma push_each_wf l v c :
  cq_wf c → Forall (λ a, (a < next_ c)%nat) l →
  cq_wf (push_each l v c) ∧ next_ (push_each l v c) = next_ c.
Proof.
  apply (fold_wf (λ a, push_value_data a [v])). intros a c' ? ?. split; [by apply set_value_wf|done].
Qed.

Lemma add_queue_wf k c : cq_wf c → cq_wf (add_queue k c).2.
Proof.
  intros [Hh Hs Hi]. unfold add_queue. destruct (store_ c !! k) eqn:E; [done|]. split; simpl.
  - intros a. destruct (decide (a = next_ c)) as [->|Hne].
    + rewrite lookup_insert_eq. split; [lia|by eexists].
    + rewrite lookup_insert_ne by done. rewrite Hh. lia.
  - intros k' a. rewrite lookup_insert_Some. intros [[_ <-]|[_ H]]; [lia|].
    apply Hs in H. lia.
  - intros k1 k2 a. rewrite !lookup_insert_Some.
    intros [[<- <-]|[? H1]] [[<- H2']|[? H2]]; try done.
    + apply Hs in H2. lia.
    + subst. apply Hs in H1. lia.
    + by eapply Hi.
Qed.

Lemma delete_wf k c : cq_wf c → cq_wf (CQ (heap_ c) (delete k (store_ c)) (next_ c)).
Proof.
  intros [Hh Hs Hi]. split; simpl; [done| |].
  - intros k' a H. apply lookup_delete_Some in H as [_ H]. by eapply Hs.
  - intros k1 k2 a H1 H2. apply lookup_delete_Some in H1 as [_ H1].
    apply lookup_delete_Some in H2 as [_ H2]. by eapply Hi.
Qed.

(** Every locked operation keeps the structure, never forgets an address, and
    changes the contents only by what it pushes. *)
Lemma run_op_spec o c :
  cq_wf c →
  cq_wf (run_op o c).2 ∧ (next_ c ≤ next_ (run_op o c).2)%nat ∧
  ∀ a, hdata_ (value_of (run_op o c).2 a) = hdata_ (value_of c a) ++ pushed a (op_pushes o c).
Proof.
  intros Hc. assert (Hsame : ∀ a, hdata_ (value_of c a) = hdata_ (value_of c a) ++ [])
    by (intros; by rewrite app_nil_r).
  destruct o as [k|k| | |k|k v|k vs|v]; cbn [run_op op_pushes].
  - split; [by apply add_queue_wf|]. unfold add_queue.
    destruct (store_ c !! k) eqn:E; simpl; [by split; [|apply Hsame]|]. split; [lia|].
    intros a. rewrite app_nil_r. unfold value_of. simpl.
    destruct (decide (a = next_ c)) as [->|Hne]; [|by rewrite lookup_insert_ne].
    rewrite lookup_insert_eq. destruct (heap_ c !! next_ c) eqn:Eh; [|done].
    assert (next_ c < next_ c)%nat by (apply (wf_heap c Hc); by eexists). lia.
  - unfold erase_queue. destruct (store_ c !! k) as [b|] eqn:E; simpl; [|by split_and!; [|lia|apply Hsame]].
    split_and!; [|done|].
    + apply (delete_wf k (cancel_value b c)), set_value_wf; [done|by eapply wf_store].
    + intros a. rewrite app_nil_r. by apply (hdata_set b).
  - destruct (cancel_each_wf (addresses c) c Hc (addresses_wf c Hc)) as [Hwf Hn].
    split_and!.
    + destruct Hwf as [Hh Hs Hi]. split; simpl; [done| |]; intros *; by rewrite lookup_empty.
    + simpl. lia.
    + intros a. simpl. rewrite app_nil_r. apply cancel_each_data.
  - destruct (cancel_each_wf (addresses c) c Hc (addresses_wf c Hc)) as [Hwf Hn].
    split_and!; [done|simpl; lia|]. intros a. simpl. rewrite app_nil_r. apply cancel_each_data.
  - unfold cancel, bind, value_at_key. destruct (store_ c !! k) as [b|] eqn:E; simpl;
      [|by split_and!; [|lia|apply Hsame]].
    split_and!; [apply set_value_wf; [done|by eapply wf_store]|done|].
    intros a. rewrite app_nil_r. by apply (hdata_set b).
  - unfold write_queue, bind, value_at_key. destruct (store_ c !! k) as [b|] eqn:E; simpl;
      [|by split_and!; [|lia|apply Hsame]].
    split_and!; [apply set_value_wf; [done|by eapply wf_store]|done|].
    intros a. rewrite hdata_push. f_equal. apply (eq_sym (pushed_push a b [v])).
  - unfold write_queue_all, bind, value_at_key. destruct (store_ c !! k) as [b|] eqn:E; simpl;
      [|by split_and!; [|lia|apply Hsame]].
    split_and!; [apply set_value_wf; [done|by eapply wf_store]|done|].
    intros a. by rewrite hdata_push, pushed_push.
  - unfold bind, write_all. simpl.
    destruct (push_each_wf (addresses c) v c Hc (addresses_wf c Hc)) as [Hwf Hn].
    split_and!; [done|lia|]. intros a. apply push_each_data.
Qed.

Lemma finish_read_spec a res c code r c' :
  finish_read a res c = (Ok (code, r), c') → (a < next_ c)%nat → cq_wf c →
  cq_wf c' ∧ next_ c' = next_ c ∧
  ∀ b, hdata_ (value_of c b) = (if decide (b = a) then option_list r else []) ++ hdata_ (value_of c' b).
Proof.
  unfold finish_read. intros H Ha Hc.
  destruct (canceled_ (value_of c a)) eqn:Ec; [|destruct (hdata_ (value_of c a)) as [|v d] eqn:Ed];
    simplify_eq/=.
  1,2: split_and!; [done|done|]; intros b; by destruct (decide (b = a)).
  split_and!; [by apply set_value_wf|done|]. intros b. destruct (decide (b = a)) as [->|Hne].
  - by rewrite value_of_set, Ed.
  - by rewrite value_of_set_ne.
Qed.

Lemma finish_read_queue_spec a res c code r c' :
  finish_read_queue a res c = (Ok (code, r), c') → (a < next_ c)%nat → cq_wf c →
  cq_wf c' ∧ next_ c' = next_ c ∧
  ∀ b, hdata_ (value_of c b) = (if decide (b = a) then r else []) ++ hdata_ (value_of c' b).
Proof.
  unfold finish_read_queue. intros H Ha Hc. destruct res; simplify_eq/=.
  - split_and!; [by apply set_value_wf|done|]. intros b. destruct (decide (b = a)) as [->|Hne].
    + by rewrite value_of_set, app_nil_r.
    + by rewrite value_of_set_ne.
  - split_and!; [done|done|]. intros b. by destruct (decide (b = a)).
Qed.

(** The invariant when the queues change and a thread moves. *)
Lemma inv_move c ts h c' t x h' :
  sys_inv (Sys c ts h) → cq_wf c' → (next_ c ≤ next_ c')%nat →
  (∀ a, thread_address x = Some a → (a < next_ c')%nat) →
  (∀ a, pushed a h ++ pushed a h' =
     (delivered a h ++ delivered a h') ++ hdata_ (value_of c' a)) →
  sys_inv (Sys c' (<[t := x]> ts) (h ++ h')).
Proof.
  intros [Hwf Ht Hf] Hwf' Hn Hx Hd. split; simpl in *; [done| |].
  - intros t' y a. rewrite lookup_insert_Some. intros [[_ <-]|[_ Hy]] Ha; [by apply Hx|].
    eapply Nat.lt_le_trans; [by eapply Ht|done].
  - intros a. by rewrite pushed_app, delivered_app.
Qed.

Lemma step_inv (s s' : system V) : sys_inv s → step s s' → sys_inv s'.
Proof.
  intros Hinv Hstep. pose proof Hinv as [Hwf Ht Hf]. destruct Hstep; cbn [queues threads history] in *.
  - destruct (run_op_spec o c Hwf) as (Hwf' & Hn & Hd). split; simpl; [done| |].
    + intros t x a Hx Ha. eapply Nat.lt_le_trans; [by eapply Ht|done].
    + intros a. rewrite pushed_app, delivered_app, delivered_pushes, app_nil_r, Hd, Hf.
      by rewrite (assoc_L (++)).
  - unfold value_at_key in *. destruct (store_ c !! key) eqn:E; simplify_eq.
    rewrite <-(app_nil_r h). apply (inv_move c ts h c); [done|done|lia| |].
    + intros b. intros [= <-]. by eapply wf_store.
    + intros b. by rewrite !app_nil_r.
  - assert (Ha : (a < next_ c)%nat) by (by eapply Ht).
    rewrite <-(app_nil_r h). apply (inv_move c ts h); [done|by apply set_value_wf|simpl; lia| |].
    + by intros b [= <-].
    + intros b. unfold read_enter. cbn [snd]. rewrite !app_nil_r, (hdata_set a b) by done. apply Hf.
  - assert (Ha : (a < next_ c)%nat) by (by eapply Ht).
    destruct (finish_read_spec _ _ _ _ _ _ H1 Ha Hwf) as (Hwf' & Hn & Hd).
    apply (inv_move c ts h); [done|done|lia|done|]. intros b.
    rewrite pushed_deliver, app_nil_r, Hf, delivered_deliver, <-(assoc_L (++)), (Hd b). done.
  - assert (Ha : (a < next_ c)%nat) by (by eapply Ht).
    destruct (finish_read_queue_spec _ _ _ _ _ _ H1 Ha Hwf) as (Hwf' & Hn & Hd).
    apply (inv_move c ts h); [done|done|lia|done|]. intros b.
    rewrite pushed_deliver, app_nil_r, Hf, delivered_deliver, <-(assoc_L (++)), (Hd b). done.
  - rewrite <-(app_nil_r h). apply (inv_move c ts h c); [done|done|lia| |].
    + intros b. intros [= <-]. by eapply wf_store.
    + intros b. by rewrite !app_nil_r.
  - assert (Ha : (a < next_ c)%nat) by (by eapply Ht).
    apply (inv_move c ts h); [done|by apply set_value_wf|simpl; lia|done|]. intros b.
    cbn [pushed delivered]. by rewrite !app_nil_r, hdata_push, Hf, <-(assoc_L (++)).
Qed.

Lemma system_init_inv : sys_inv (system_init : system V).
Proof.
  split; simpl.
  - split; simpl; [|intros *; by rewrite lookup_empty..].
    intros a. rewrite lookup_empty. split; [by intros [? ?]|lia].
  - intros *. by rewrite lookup_empty.
  - intros a. unfold value_of. simpl. by rewrite lookup_empty.
Qed.

Lemma reachable_inv (s : system V) : reachable s → sys_inv s.
Proof. induction 1; [apply system_init_inv|by eapply step_inv]. Qed.
End CondQueuesLemmas.

(** ** A queue nobody can reach any more *)

Section Orphan.
Context {V : Type}.

(** The queue at [a] is empty, not canceled, not in the map, and the only thread
    that holds it is the reader [t]. *)
Record orphan (t a : nat) (s : system V) : Prop := {
  or_value : heap_ (queues s) !! a = Some (Hold false []);
  or_store k : store_ (queues s) !! k ≠ Some a;
  or_threads t' x :
    threads s !! t' = Some x → thread_address x = Some a → t' = t ∧ x = TReadWaiting a
}.

Lemma set_value_other a b v (c : condition_queues V) :
  a ≠ b → heap_ (set_value a v c) !! b = heap_ c !! b.
Proof. intros H. simpl. by rewrite lookup_insert_ne. Qed.

Lemma fold_other (f : nat → condition_queues V → condition_queues V) l c b :
  (∀ a c, a ≠ b → heap_ (f a c) !! b = heap_ c !! b) → b ∉ l →
  heap_ (foldl (λ c a, f a c) c l) !! b = heap_ c !! b.
Proof.
  intros Hf. revert c. induction l as [|a l IH]; intros c Hb; [done|]. simpl.
  apply not_elem_of_cons in Hb as [Hab Hb]. rewrite IH by done. by apply Hf.
Qed.

Lemma fold_store (f : nat → condition_queues V → condition_queues V) l c :
  (∀ a c, store_ (f a c) = store_ c) → store_ (foldl (λ c a, f a c) c l) = store_ c.
Proof. intros Hf. revert c. induction l as [|a l IH]; intros c; [done|]. simpl. by rewrite IH. Qed.

Lemma addresses_not a (c : condition_queues V) :
  (∀ k, store_ c !! k ≠ Some a) → a ∉ addresses c.
Proof.
  intros H Ha. apply list_elem_of_fmap in Ha as ([k b] & -> & Hk).
  apply elem_of_map_to_list in Hk. by eapply H.
Qed.

(** A locked operation neither touches an orphaned queue nor brings it back. *)
Lemma run_op_orphan o a (c : condition_queues V) :
  cq_wf c → is_Some (heap_ c !! a) → (∀ k, store_ c !! k ≠ Some a) →
  heap_ (run_op o c).2 !! a = heap_ c !! a ∧ ∀ k, store_ (run_op o c).2 !! k ≠ Some a.
Proof.
  intros Hwf Hin Hns. pose proof (addresses_not a c Hns) as Hna.
  assert (Hne : ∀ k b, store_ c !! k = Some b → b ≠ a) by (intros k b Hk ->; by eapply Hns).
  destruct o as [k|k| | |k|k v|k vs|v]; cbn [run_op].
  - unfold add_queue. destruct (store_ c !! k); [done|]. simpl.
    apply (wf_heap c Hwf) in Hin. split; [rewrite lookup_insert_ne; [done|lia]|].
    intros k'. rewrite lookup_insert_Some. intros [[_ H]|[_ H]]; [lia|by eapply Hns].
  - unfold erase_queue. destruct (store_ c !! k) as [b|] eqn:E; [|done]. simpl.
    split; [rewrite lookup_insert_ne; [done|by eapply Hne]|].
    intros k'. rewrite lookup_delete_Some. intros [_ H]. by eapply Hns.
  - simpl. split; [|by intros k; rewrite lookup_empty].
    apply (fold_other cancel_value); [intros; by apply set_value_other|done].
  - simpl. split; [apply (fold_other cancel_value); [intros; by apply set_value_other|done]|].
    unfold cancel_each. by rewrite (fold_store cancel_value).
  - unfold cancel, bind, value_at_key. destruct (store_ c !! k) as [b|] eqn:E; [|done].
    split; [by apply set_value_other; eapply Hne|done].
  - unfold write_queue, bind, value_at_key. destruct (store_ c !! k) as [b|] eqn:E; [|done].
    split; [by apply set_value_other; eapply Hne|done].
  - unfold write_queue_all, bind, value_at_key. destruct (store_ c !! k) as [b|] eqn:E; [|done].
    split; [by apply set_value_other; eapply Hne|done].
  - unfold bind, write_all. simpl. split.
    + apply (fold_other (λ b, push_value_data b [v])); [intros; by apply set_value_other|done].
    + unfold push_each. by rewrite (fold_store (λ b, push_value_data b [v])).
Qed.

(** Moving one thread that does not come to hold the queue. *)
Lemma orphan_move t a c ts h c' t' x h' :
  orphan t a (Sys c ts h) → heap_ c' !! a = heap_ c !! a → store_ c' = store_ c →
  thread_address x ≠ Some a → orphan t a (Sys c' (<[t' := x]> ts) h').
Proof.
  intros [Hv Hs Ht] Hheap Hst Hx. split; simpl in *; [by rewrite Hheap|by rewrite Hst|].
  intros t2 y. rewrite lookup_insert_Some. intros [[_ <-]|[_ Hy]] Ha; [done|by eapply Ht].
Qed.

(** Finishing a read leaves an empty queue that is not canceled as it is. *)
Lemma finish_read_heap a b res code r (c c' : condition_queues V) :
  finish_read b res c = (Ok (code, r), c') → heap_ c !! a = Some (Hold false []) →
  heap_ c' !! a = heap_ c !! a ∧ store_ c' = store_ c.
Proof.
  unfold finish_read. intros H Ha. destruct (canceled_ (value_of c b)); simplify_eq/=; [done|].
  destruct (hdata_ (value_of c b)) as [|v d] eqn:E; simplify_eq/=; [done|]. split; [|done].
  rewrite lookup_insert_ne; [done|]. intros ->. unfold value_of in E. by rewrite Ha in E.
Qed.

Lemma finish_read_queue_heap a b code r (c c' : condition_queues V) :
  finish_read_queue b (queue_empty_predicate (value_of c b)) c = (Ok (code, r), c') →
  heap_ c !! a = Some (Hold false []) →
  heap_ c' !! a = heap_ c !! a ∧ store_ c' = store_ c.
Proof.
  unfold finish_read_queue. intros H Ha.
  destruct (queue_empty_predicate (value_of c b)) eqn:E; simplify_eq/=; [|done]. split; [|done].
  rewrite lookup_insert_ne; [done|]. intros ->. unfold value_of in E. by rewrite Ha in E.
Qed.

Lemma step_orphan t a (s s' : system V) :
  sys_inv s → orphan t a s → step s s' → orphan t a s'.
Proof.
  intros [Hwf _ _] Hor Hstep. pose proof Hor as [Hv Hs Ht].
  destruct Hstep as [o c ts h|t' key b c ts h Hn Hl|t' b c ts h Hx|t' b c ts h res code r c' Hx Hres Hf
    |t' b c ts h res code r c' Hx Hres Hf|t' key v b c ts h Hn Hl|t' b v c ts h Hx];
    cbn [queues threads history] in *.
  - destruct (run_op_orphan o a c) as [Hheap Hst]; [done|by rewrite Hv|done|].
    split; simpl; [by rewrite Hheap|done|done].
  - eapply orphan_move; [done|done|done|]. unfold value_at_key in Hl.
    destruct (store_ c !! key) eqn:E; simplify_eq. simpl. intros [= ->]. by eapply Hs.
  - assert (b ≠ a) by (intros ->; by destruct (Ht _ _ Hx eq_refl) as [_ ?]).
    eapply orphan_move; [done|by apply set_value_other|done|simpl; congruence].
  - destruct (finish_read_heap a b res code r c c' Hf Hv). by eapply orphan_move.
  - subst res. destruct (finish_read_queue_heap a b code r c c' Hf Hv). by eapply orphan_move.
  - eapply orphan_move; [done|done|done|]. simpl. intros [= ->]. by eapply Hs.
  - assert (b ≠ a) by (intros ->; by destruct (Ht _ _ Hx eq_refl) as [_ ?]).
    by eapply orphan_move; [|apply set_value_other| |].
Qed.

Lemma steps_orphan t a (s s' : system V) :
  sys_inv s → orphan t a s → rtc step s s' → orphan t a s'.
Proof.
  intros Hinv Hor Hsteps. induction Hsteps as [|s1 s2 s3 H12 _ IH]; [done|].
  apply IH; [by eapply step_inv|by eapply step_orphan].
Qed.
End Orphan.

(** ** Properties *)

(** C32 (safety).  In every interleaving of any number of readers, writers,
    cancellations and erasures, each queue is first in, first out and loses
    nothing: the messages delivered to readers, followed by the messages still
    in the queue, are exactly the messages pushed to it, in order. *)
Theorem queues_fifo {V} (s : system V) a :
  reachable s →
  pushed a (history s) = delivered a (history s) ++ hdata_ (value_of (queues s) a).
Proof. intros Hs. apply (inv_fifo s (reachable_inv s Hs)). Qed.

Lemma queues_fifo_witness :
  ∃ s : system Z, reachable s ∧ history s = [EvPush 0 7; EvPush 0 8; EvDeliver 0 7] ∧
    pushed 0 (history s) = delivered 0 (history s) ++ hdata_ (value_of (queues s) 0).
Proof.
  pose proof (reachable_step (V := Z) _ _ reachable_init (step_op (OpAdd 5) _ _ _)) as H1.
  pose proof (reachable_step _ _ H1 (step_op (OpWrite 5 7) _ _ _)) as H2.
  pose proof (reachable_step _ _ H2 (step_op (OpWrite 5 8) _ _ _)) as H3.
  eassert (H4 : reachable _).
  { eapply reachable_step; [exact H3|].
    eapply (step_read_lookup 1%nat 5 0%nat); [apply lookup_empty|reflexivity]. }
  eassert (H5 : reachable _).
  { eapply reachable_step; [exact H4|].
    eapply (step_read_enter 1%nat 0%nat); apply lookup_insert_eq. }
  eassert (H6 : reachable _).
  { eapply reachable_step; [exact H5|].
    eapply (step_read_done 1%nat 0%nat); [apply lookup_insert_eq|reflexivity|reflexivity]. }
  eexists. split; [exact H6|]. split; [reflexivity|]. exact (queues_fifo _ 0 H6).
Defined.

(** What a reader is told is true: [read] reports success
    exactly when it takes a message, the oldest one; a timeout means there was
    none; a cancellation leaves the messages where they are; and the only error
    is a key that is not in the map. *)
Theorem read_results {V} key others (c c' : condition_queues V) r :
  read key others c = (r, c') →
  match r with
  | Ok (WAIT_RESULT_SUCCESS, v) => is_Some v
  | Ok (WAIT_RESULT_CANCELED, v) => v = None
  | Ok (WAIT_RESULT_TIMEOUT, v) => v = None
  | Raise e => (e = EOutOfRange "Bad queue index" ∧ store_ c !! key = None ∧ c' = c) ∨
      ∃ c1 a, others c1 = (Raise e, c') ∧ store_ c !! key = Some a
  end.
Proof.
  unfold read, bind, value_at_key. intros H.
  destruct (store_ c !! key) as [a|] eqn:Ek; simplify_eq/=; [|by left].
  unfold wait_for, bind in H. set (c1 := (read_enter a c).2) in *.
  assert (Hfin : ∀ c2 res, queue_empty_predicate (value_of c2 a) = res →
    finish_read a res c2 = (r, c') → match r with
      | Ok (WAIT_RESULT_SUCCESS, v) => is_Some v
      | Ok (_, v) => v = None
      | Raise e => False
      end).
  { intros c2 res <-. unfold finish_read, queue_empty_predicate.
    destruct (canceled_ (value_of c2 a)) eqn:Ec, (hdata_ (value_of c2 a)) as [|v d];
      intros; simplify_eq/=; done. }
  unfold read_enter in H. fold c1 in H.
  destruct (queue_empty_predicate (value_of _ a)) eqn:Ep in H.
  - specialize (Hfin c1 true Ep H). destruct r as [[[] ?]|]; [done..|by right].
  - destruct (others _) as [[[]|e] c2] eqn:Eo in H.
    + unfold gets in H. specialize (Hfin c2 _ eq_refl H). destruct r as [[[] ?]|]; [done..|by right].
    + simplify_eq. right. eauto.
Qed.

Lemma read_results_witness :
  let c := (run_op (OpAdd 5) (condition_queues_new (V := Z))).2 in
  ∃ c', read 5 (write_queue 5 7) c = (Ok (WAIT_RESULT_SUCCESS, Some 7), c') ∧ is_Some (Some 7).
Proof.
  intros c. eexists. split; [reflexivity|].
  exact (read_results 5 (write_queue 5 7) c _ (Ok (WAIT_RESULT_SUCCESS, Some 7)) eq_refl).
Defined.

(** The flag is cleared after the queue was looked up, so a
    cancellation in between is lost: a reader that found its queue before it was
    erased goes to sleep on it, and whatever any thread does afterwards the
    predicate it waits for never becomes true. *)
Theorem lost_cancellation {V} key :
  ∃ (s : system V) t a, reachable s ∧ threads s !! t = Some (TReadWaiting a) ∧
    store_ (queues s) !! key = None ∧
    ∀ s', rtc step s s' → queue_empty_predicate (value_of (queues s') a) = false.
Proof.
  assert (Hr : ∃ s, reachable s ∧ threads s = {[ 1%nat := TReadWaiting 0 ]} ∧
    heap_ (queues s) !! 0%nat = Some (Hold (V := V) false []) ∧ store_ (queues s) = ∅).
  { pose proof (reachable_step (V := V) _ _ reachable_init (step_op (OpAdd key) _ _ _)) as H1.
    assert (He : (run_op (OpAdd key) condition_queues_new).2 =
      CQ {[ 0%nat := hold_new (V := V) ]} {[ key := 0%nat ]} 1).
    { simpl. unfold add_queue. simpl. by rewrite lookup_empty. }
    rewrite He in H1. clear He.
    eassert (H2 : reachable _).
    { eapply reachable_step; [exact H1|].
      eapply (step_read_lookup 1%nat key 0%nat); [apply lookup_empty|].
      unfold value_at_key. simpl. by rewrite lookup_singleton_eq. }
    pose proof (reachable_step _ _ H2 (step_op (OpErase key) _ _ _)) as H3.
    eassert (H4 : reachable _).
    { eapply reachable_step; [exact H3|]. eapply (step_read_enter 1%nat 0%nat); apply lookup_insert_eq. }
    eexists. split; [exact H4|]. simpl. unfold erase_queue. simpl. rewrite lookup_singleton_eq. simpl.
    split_and!; [by rewrite insert_insert_eq| |by rewrite delete_singleton_eq].
    rewrite lookup_insert_eq. unfold value_of. simpl. rewrite lookup_insert_eq. simpl.
    unfold value_of. simpl. by rewrite lookup_singleton_eq. }
  destruct Hr as (s & Hr & Ht & Hh & Hs). exists s, 1%nat, 0%nat.
  split_and!; [done|by rewrite Ht, lookup_singleton_eq|by rewrite Hs|].
  intros s' Hsteps. assert (Hor : orphan 1 0 s').
  { eapply steps_orphan; [by apply reachable_inv| |done]. split; [done|by rewrite Hs|].
    rewrite Ht. intros t' x. rewrite lookup_singleton_Some. naive_solver. }
  destruct Hor as [Hv _ _]. unfold value_of. by rewrite Hv.
Qed.
