(* ===== verification/CallContext.v ===== *)
(** * CallContext: the stack of calls a thread is serving

    [lib/vtrc/common/call-context.cpp], the static part of
    [protocol_layer::impl] ([protocol-layer.cpp]) that keeps the thread's stack
    of contexts, [protocol_layer::context_holder] and [call-keeper.cpp].

    Contexts are objects reached through raw pointers, so they live in a heap
    and the stack holds their addresses; the thread-local pointer to the stack is
    null while the thread serves no call.  The deque owns its contexts: what is
    popped is freed, and following a pointer to it is undefined. *)

From S2P Require Import Prelude Messages.

(** ** call_context::impl *)

(** [llu_] and [done_] are pointers to the unit and the closure of the call. *)
Record call_context : Type := Context {
  cc_llu : nat;
  cc_parent : option nat;
  cc_opts : option rpc_options;
  cc_done : option nat;
  cc_depth : Z;
  cc_impersonated : bool
}.

Definition call_context_new (llu : nat) : call_context := Context llu None None None 1 false.

Definition set_call_options (o : option rpc_options) (c : call_context) : call_context :=
  Context (cc_llu c) (cc_parent c) o (cc_done c) (cc_depth c) (cc_impersonated c).
Definition set_done_closure (d : option nat) (c : call_context) : call_context :=
  Context (cc_llu c) (cc_parent c) (cc_opts c) d (cc_depth c) (cc_impersonated c).
Definition set_impersonated (b : bool) (c : call_context) : call_context :=
  Context (cc_llu c) (cc_parent c) (cc_opts c) (cc_done c) (cc_depth c) b.

(** ** The state of a thread *)

Record thread_state : Type := Thread {
  ctx_heap : gmap nat call_context;
  ctx_fresh : nat;
  s_call_context : option (list nat)
}.
Definition thread_new : thread_state := Thread ∅ 0 None.

Definition on_stack (f : option (list nat) → option (list nat)) (t : thread_state) : thread_state :=
  Thread (ctx_heap t) (ctx_fresh t) (f (s_call_context t)).

(** Follow a pointer. *)
Definition ctx_at (a : nat) : M thread_state call_context := λ t,
  match ctx_heap t !! a with
  | Some c => (Ok c, t)
  | None => (Raise (EUndefined "context"), t)
  end.
Definition ctx_set (a : nat) (c : call_context) : M thread_state unit :=
  modify (λ t, Thread (<[a := c]> (ctx_heap t)) (ctx_fresh t) (s_call_context t)).

Definition ctx_alloc (c : call_context) : M thread_state nat := λ t,
  (Ok (ctx_fresh t),
   Thread (<[ctx_fresh t := c]> (ctx_heap t)) (S (ctx_fresh t)) (s_call_context t)).

(** [set_next( parent )] *)
Definition set_next (a : nat) (parent : option nat) : M thread_state unit :=
  let* depth := match parent with
                | Some p => let* c := ctx_at p in ret (cc_depth c + 1)
                | None => ret 1
                end in
  let* c := ctx_at a in
  ctx_set a (Context (cc_llu c) parent (cc_opts c) (cc_done c) depth (cc_impersonated c)).

(** ** protocol_layer::impl, the call stack *)

Definition check_create_stack : M thread_state unit :=
  modify (on_stack (λ s, Some (default [] s))).

Definition top_call_context (t : thread_state) : option nat :=
  match s_call_context t with Some (a :: _) => Some a | _ => None end.
Definition get_call_context : thread_state → option nat := top_call_context.

Definition push_call_context (cc : nat) : M thread_state nat :=
  check_create_stack ;;;
  let* t := get in
  set_next cc (top_call_context t) ;;;
  modify (on_stack (λ s, Some (cc :: default [] s))) ;;;
  ret cc.

(** Popping frees the context; an empty stack is deleted. *)
Definition pop_call_context : M thread_state unit := λ t,
  match s_call_context t with
  | None => (Raise (EUndefined "null stack"), t)
  | Some (a :: b :: l) => (Ok tt, Thread (delete a (ctx_heap t)) (ctx_fresh t) (Some (b :: l)))
  | Some [a] => (Ok tt, Thread (delete a (ctx_heap t)) (ctx_fresh t) None)
  | Some [] => (Ok tt, Thread (ctx_heap t) (ctx_fresh t) None)
  end.

Definition reset_call_context : M thread_state unit := λ t,
  (Ok tt, Thread (foldr delete (ctx_heap t) (default [] (s_call_context t))) (ctx_fresh t) None).

(** Returns what the argument is left with. *)
Definition swap_call_stack (other : list nat) : M thread_state (list nat) := λ t,
  (Ok (default [] (s_call_context t)), Thread (ctx_heap t) (ctx_fresh t) (Some other)).

Definition clone_context (src : nat) : M thread_state nat :=
  let* c := ctx_at src in
  ctx_alloc c.

(** The loop of [clone_stack]: [last] is the previous context of the source. *)
Fixpoint clone_stack_loop (src : list nat) (last : option nat) : M thread_state (list nat) :=
  match src with
  | [] => ret []
  | b :: src =>
      let* c := clone_context b in
      (match last with
       | Some l => set_next l (Some b)
       | None => ret tt
       end) ;;;
      let* tmp := clone_stack_loop src (Some b) in
      ret (c :: tmp)
  end.
Definition clone_stack (src : list nat) : M thread_state (list nat) := clone_stack_loop src None.

Definition copy_call_stack : M thread_state (list nat) :=
  let* t := get in
  match s_call_context t with
  | None => ret []
  | Some s => clone_stack s
  end.

(** [context_holder ch( llu ); body]: the context is popped however the body
    ends. *)
Definition with_context {A} (llu : nat) (body : nat → M thread_state A) : M thread_state A := λ t,
  match (let* a := ctx_alloc (call_context_new llu) in push_call_context a) t with
  | (Ok a, t1) =>
      let '(r, t2) := body a t1 in
      match pop_call_context t2 with
      | (Raise (EUndefined w), t3) => (Raise (EUndefined w), t3)
      | (_, t3) => (r, t3)
      end
  | (Raise e, t1) => (Raise e, t1)
  end.

(** ** call_keeper::impl *)

(** The copy of the stack and the closure to run when the keeper dies. *)
Definition call_keeper_new : M thread_state (list nat * option nat) :=
  let* t := get in
  match get_call_context t with
  | None => raise (ERuntime "Call context is not found.")
  | Some _ =>
      let* stack := copy_call_stack in
      match stack with
      | [] => raise (EUndefined "front")
      | a :: _ => let* c := ctx_at a in ret (stack, cc_done c)
      end
  end.

Definition keeper_get_call_context (stack : list nat) : option nat := head stack.

(** ** Invariant

    The contexts of the stack are distinct and alive, each points to the one
    below it and knows how many there are from it down. *)
Fixpoint chain (h : gmap nat call_context) (l : list nat) : Prop :=
  match l with
  | [] => True
  | a :: l =>
      (∃ c, h !! a = Some c ∧ cc_parent c = head l ∧ cc_depth c = blen (a :: l)) ∧
      (a ∉ l) ∧ chain h l
  end.

Definition fresh_ok (t : thread_state) : Prop :=
  ∀ a, is_Some (ctx_heap t !! a) → (a < ctx_fresh t)%nat.

(** A null pointer when there is no call, a non-empty stack otherwise. *)
Record stack_ok (t : thread_state) : Prop := {
  so_chain : chain (ctx_heap t) (default [] (s_call_context t));
  so_fresh : fresh_ok t;
  so_null : s_call_context t ≠ Some []
}.

(** ** Lemmas *)

Lemma chain_insert h l a c : a ∉ l → chain (<[a := c]> h) l ↔ chain h l.
Proof.
  induction l as [|b l IH]; intros Ha; simpl; [done|].
  apply not_elem_of_cons in Ha as [Hab Ha]. rewrite lookup_insert_ne by done.
  by rewrite IH.
Qed.

Lemma chain_delete h l a : a ∉ l → chain (delete a h) l ↔ chain h l.
Proof.
  induction l as [|b l IH]; intros Ha; simpl; [done|].
  apply not_elem_of_cons in Ha as [Hab Ha]. rewrite lookup_delete_ne by done.
  by rewrite IH.
Qed.

Lemma chain_alive h l a : chain h l → a ∈ l → is_Some (h !! a).
Proof.
  induction l as [|b l IH]; intros Hc Ha; [by apply not_elem_of_nil in Ha|].
  destruct Hc as [(c & Hb & _) [_ Hc]]. apply elem_of_cons in Ha as [->|Ha]; [by eexists|by apply IH].
Qed.

Lemma top_head t : top_call_context t = head (default [] (s_call_context t)).
Proof. unfold top_call_context. by destruct (s_call_context t) as [[|]|]. Qed.

(** What [set_next] computes on a stack that is in order. *)
Lemma set_next_chain h f s a c l :
  h !! a = Some c → chain h l →
  set_next a (head l) (Thread h f s) =
    (Ok tt, Thread (<[a := Context (cc_llu c) (head l) (cc_opts c) (cc_done c)
                             (blen (a :: l)) (cc_impersonated c)]> h) f s).
Proof.
  intros Ha Hl. unfold set_next, bind, ctx_at. destruct l as [|b l]; simpl.
  - by rewrite Ha.
  - destruct Hl as [(cb & Hb & _ & Hd) _]. rewrite Hb. simpl. rewrite Ha. simpl.
    unfold ctx_set, modify. simpl. rewrite Hd. do 5 f_equal. unfold blen. simpl. lia.
Qed.

Lemma push_new_ok llu t :
  stack_ok t →
  let l := default [] (s_call_context t) in
  let a := ctx_fresh t in
  let t' := Thread (<[a := Context llu (head l) None None (blen (a :: l)) false]> (ctx_heap t))
              (S a) (Some (a :: l)) in
  (let* a := ctx_alloc (call_context_new llu) in push_call_context a) t = (Ok a, t') ∧
  stack_ok t' ∧ ctx_heap t !! a = None.
Proof.
  intros [Hc Hf Hn] l a t'. destruct t as [h f s].
  cbn [ctx_heap ctx_fresh s_call_context] in l, a, t', Hc, Hn |- *. assert (Hfl : f ∉ l).
  { intros Hin. apply (chain_alive _ _ _ Hc) in Hin. apply Hf in Hin. simpl in Hin. lia. }
  assert (Hfh : h !! f = None).
  { destruct (h !! f) eqn:E; [|done]. assert (f < f)%nat by (apply Hf; by eexists). lia. }
  split_and!; [| |done].
  - unfold bind at 1, ctx_alloc. cbn [ctx_heap ctx_fresh s_call_context].
    unfold push_call_context, bind at 1, check_create_stack, modify at 1.
    unfold on_stack. cbn [ctx_heap ctx_fresh s_call_context]. unfold bind at 1, get.
    rewrite top_head. cbn [s_call_context]. change (default [] (Some (default [] s))) with l.
    unfold bind at 1. rewrite (set_next_chain _ _ _ f (call_context_new llu) l).
    + unfold bind, modify, on_stack, ret, t'. cbn. by rewrite insert_insert_eq.
    + by rewrite lookup_insert_eq.
    + by apply chain_insert.
  - split; cbn.
    + split_and!; [|done|by apply chain_insert]. eexists. by rewrite lookup_insert_eq.
    + intros b Hb. cbn in *. destruct (decide (b = f)) as [->|Hne]; [unfold a; lia|].
      rewrite lookup_insert_ne in Hb by done. apply Hf in Hb. simpl in Hb. unfold a. lia.
    + done.
Qed.

Lemma pop_ok a l t :
  stack_ok t → s_call_context t = Some (a :: l) →
  pop_call_context t =
    (Ok tt, Thread (delete a (ctx_heap t)) (ctx_fresh t) (match l with [] => None | _ => Some l end)) ∧
  stack_ok (Thread (delete a (ctx_heap t)) (ctx_fresh t) (match l with [] => None | _ => Some l end)).
Proof.
  intros [Hc Hf Hn] Hs. rewrite Hs in Hc. cbn in Hc. destruct Hc as (_ & Ha & Hc).
  unfold pop_call_context. rewrite Hs. split; [by destruct l|]. split; cbn.
  - destruct l; [done|]. cbn [default]. by apply chain_delete.
  - intros b Hb. cbn in Hb. apply Hf. destruct (decide (b = a)) as [->|Hne].
    + by rewrite lookup_delete_eq in Hb; destruct Hb.
    + by rewrite lookup_delete_ne in Hb.
  - by destruct l.
Qed.

(** A bracketed body that leaves the stack as it found it. *)
Lemma with_context_ok {A} llu (body : nat → M thread_state A) t r h' f' :
  stack_ok t →
  let l := default [] (s_call_context t) in
  let a := ctx_fresh t in
  body a (Thread (<[a := Context llu (head l) None None (blen (a :: l)) false]> (ctx_heap t))
            (S a) (Some (a :: l))) = (r, Thread h' f' (Some (a :: l))) →
  stack_ok (Thread h' f' (Some (a :: l))) →
  with_context llu body t = (r, Thread (delete a h') f' (s_call_context t)) ∧
  stack_ok (Thread (delete a h') f' (s_call_context t)).
Proof.
  intros Ht l a Hbody Hok. unfold with_context.
  destruct (push_new_ok llu t Ht) as (-> & _ & _). fold l a. rewrite Hbody.
  destruct (pop_ok a l _ Hok eq_refl) as [-> Hok']. cbn [ctx_heap ctx_fresh] in *.
  assert (Hl : (match l with [] => None | _ => Some l end) = s_call_context t).
  { unfold l. pose proof (so_null t Ht). by destruct (s_call_context t) as [[|]|]. }
  by rewrite Hl in *.
Qed.

(** *** Cloning *)

(** Every context of a stack in order already points where [clone_stack] makes
    it point, so the source is left as it is. *)
Lemma chain_set_next_id h f s a b l :
  chain h (a :: b :: l) → set_next a (Some b) (Thread h f s) = (Ok tt, Thread h f s).
Proof.
  intros [(c & Ha & Hp & Hd) [_ Hl]].
  change (Some b) with (head (b :: l)). rewrite (set_next_chain h f s a c (b :: l)) by done.
  rewrite insert_id; [done|]. rewrite Ha. f_equal. destruct c. simpl in *. by subst.
Qed.

Lemma clone_loop_ok h f s last l :
  chain h (option_list last ++ l) → (∀ a, is_Some (h !! a) → (a < f)%nat) →
  ∃ h' cs, clone_stack_loop l last (Thread h f s) = (Ok cs, Thread h' (f + length l)%nat s) ∧
    cs = seq f (length l) ∧
    (∀ a, (a < f)%nat → h' !! a = h !! a) ∧
    Forall2 (λ a c, h' !! c = h !! a) l cs.
Proof.
  revert h f last. induction l as [|b l IH]; intros h f last Hc Hf; cbn [clone_stack_loop].
  { exists h, []. rewrite Nat.add_0_r. split_and!; [done|done|done|constructor]. }
  assert (Hb : ∃ cb, h !! b = Some cb).
  { eapply chain_alive; [exact Hc|]. apply elem_of_app. right. by left. }
  destruct Hb as [cb Hb].
  set (h1 := <[f := cb]> h).
  assert (Hlt : ∀ a, a ∈ option_list last ++ b :: l → (a < f)%nat).
  { intros a Ha. apply Hf. by eapply chain_alive. }
  assert (Hc1 : chain h1 (option_list last ++ b :: l)).
  { apply chain_insert; [|done]. intros Hin. apply Hlt in Hin. lia. }
  assert (Hclone : clone_context b (Thread h f s) = (Ok f, Thread h1 (S f) s)).
  { unfold clone_context, bind, ctx_at. cbn. by rewrite Hb. }
  rewrite (bind_ok _ _ _ _ _ Hclone).
  assert (Hset : (match last with Some l => set_next l (Some b) | None => ret tt end)
    (Thread h1 (S f) s) = (Ok tt, Thread h1 (S f) s)).
  { destruct last as [a|]; [|done]. apply (chain_set_next_id h1 (S f) s a b l), Hc1. }
  rewrite (bind_ok _ _ _ _ _ Hset).
  destruct (IH h1 (S f) (Some b)) as (h' & cs & Hl & -> & Hsame & Hall).
  { destruct last as [a|]; [|done]. apply Hc1. }
  { intros a Ha. unfold h1 in Ha. destruct (decide (a = f)) as [->|Hne]; [lia|].
    rewrite lookup_insert_ne in Ha by done. apply Hf in Ha. lia. }
  rewrite (bind_ok _ _ _ _ _ Hl). exists h', (f :: seq (S f) (length l)).
  split_and!.
  - unfold ret. cbn [length]. by replace (f + S (length l))%nat with (S f + length l)%nat by lia.
  - done.
  - intros a Ha. rewrite Hsame by lia. unfold h1. by rewrite lookup_insert_ne by lia.
  - constructor.
    + rewrite Hsame by lia. unfold h1. by rewrite lookup_insert_eq, Hb.
    + apply Forall2_same_length_lookup_2; [by rewrite length_seq|]. intros i a c Ha Hcs.
      pose proof (Forall2_lookup_lr _ _ _ _ _ _ Hall Ha Hcs) as H. cbn in H. rewrite H.
      unfold h1. rewrite lookup_insert_ne; [done|]. intros ->.
      apply list_elem_of_lookup_2 in Ha. specialize (Hlt a).
      assert (a < a)%nat; [|lia]. apply Hlt, elem_of_app. right. by right.
Qed.

(** Popping everything frees exactly the contexts of the stack. *)
Lemma pop_all_heap a l h f x :
  let t2 := Nat.iter (length (a :: l)) (λ t, (pop_call_context t).2) (Thread h f (Some (a :: l))) in
  s_call_context t2 = None ∧ ctx_heap t2 !! x = if decide (x ∈ a :: l) then None else h !! x.
Proof.
  revert a h. induction l as [|b l IH]; intros a h t2.
  - cbn. split; [done|]. destruct (decide (x ∈ [a])) as [Hx|Hx].
    + apply list_elem_of_singleton in Hx as ->. apply lookup_delete_eq.
    + apply lookup_delete_ne. intros ->. by destruct Hx; left.
  - unfold t2. cbn [length]. rewrite Nat.iter_succ_r. cbn [pop_call_context s_call_context snd].
    destruct (IH b (delete a h)) as [H1 H2]. cbn [length] in H1, H2. split; [exact H1|].
    etransitivity; [exact H2|]. destruct (decide (x ∈ b :: l)), (decide (x ∈ a :: b :: l)) as [Hx|Hx].
    + done.
    + destruct Hx. by right.
    + apply elem_of_cons in Hx as [->|?]; [apply lookup_delete_eq|done].
    + apply lookup_delete_ne. intros ->. destruct Hx. by left.
Qed.

(** ** Properties *)

(** Serving a call inside a context pushes one context on top
    of the thread's stack, whose depth is the number of calls being served, and
    takes it off again however the call ends: the stack, and the null pointer of
    a thread that serves nothing, are what they were. *)
Theorem context_bracket {A} llu (body : nat → M thread_state A) t r h' f' :
  stack_ok t →
  let l := default [] (s_call_context t) in
  let a := ctx_fresh t in
  let inside := Thread (<[a := Context llu (head l) None None (blen l + 1) false]> (ctx_heap t))
                  (S a) (Some (a :: l)) in
  body a inside = (r, Thread h' f' (Some (a :: l))) →
  stack_ok (Thread h' f' (Some (a :: l))) →
  stack_ok inside ∧
  with_context llu body t = (r, Thread (delete a h') f' (s_call_context t)) ∧
  stack_ok (Thread (delete a h') f' (s_call_context t)).
Proof.
  intros Ht l a inside Hbody Hok.
  assert (Hd : blen l + 1 = blen (a :: l)) by (unfold blen; simpl; lia).
  unfold inside in *. rewrite Hd in *. split; [by apply push_new_ok|].
  by apply with_context_ok.
Qed.

Lemma context_bracket_witness :
  with_context 7 (λ a, let* c := ctx_at a in ret (cc_depth c)) thread_new =
    (Ok 1, Thread ∅ 1 None) ∧ stack_ok (Thread ∅ 1 None).
Proof.
  assert (Hnew : stack_ok thread_new).
  { split; [exact I| |discriminate]. intros a [c H]. exfalso. vm_compute in H. discriminate. }
  refine (proj2 (context_bracket 7 (λ a, let* c := ctx_at a in ret (cc_depth c)) thread_new
    (Ok 1) {[ 0%nat := Context 7 None None None 1 false ]} 1 Hnew eq_refl _)).
  split; cbn.
  - split; [eexists; split; [reflexivity|split; reflexivity]|].
    split; [apply not_elem_of_nil|exact I].
  - intros a [c H]. cbn in *. apply lookup_singleton_Some in H. lia.
  - discriminate.
Defined.

(** The stack a call keeper copies has new contexts, but each still
    points to the original below it, not to its copy: when the thread has
    finished the calls it was serving, the pointer from the kept context leads to
    freed memory. *)
Theorem cloned_stack_dangles t a b l :
  stack_ok t → s_call_context t = Some (a :: b :: l) →
  ∃ cs t' c, copy_call_stack t = (Ok cs, t') ∧ length cs = length (a :: b :: l) ∧
    Forall (λ x, (ctx_fresh t ≤ x)%nat) cs ∧
    head cs = Some c ∧ (λ x, cc_parent x) <$> ctx_heap t' !! c = Some (Some b) ∧
    s_call_context t' = s_call_context t ∧
    ∀ n t2, n = length (a :: b :: l) → Nat.iter n (λ t, (pop_call_context t).2) t' = t2 →
      s_call_context t2 = None ∧ ctx_heap t2 !! b = None ∧
      (λ x, cc_parent x) <$> ctx_heap t2 !! c = Some (Some b).
Proof.
  intros Ht Hs. pose proof Ht as [Hc Hf Hn]. destruct t as [h f s]. cbn in Hs. subst s.
  cbn [s_call_context default] in Hc. change (ctx_heap _) with h in Hc.
  destruct (clone_loop_ok h f (Some (a :: b :: l)) None (a :: b :: l)) as (h' & cs & He & Hcs & Hsame & Hall);
    [exact Hc|exact Hf|].
  exists cs, (Thread h' (f + length (a :: b :: l)) (Some (a :: b :: l))), f.
  destruct Hc as [(ca & Ha & Hpa & Hda) [Hna Hc']]. inversion Hall as [|? c0 ? cs0 Hc0 _]; subst.
  cbn [length seq] in *. simplify_eq.
  assert (Hpar : (λ x, cc_parent x) <$> h' !! f = Some (Some b)) by (rewrite Hc0, Ha; simpl; by rewrite Hpa).
  split_and!; [exact He|cbn; by rewrite length_seq| |done|exact Hpar|done|].
  { cbn. constructor; [lia|]. constructor; [lia|]. apply Forall_seq. lia. }
  intros n t2 -> <-. pose proof (pop_all_heap a (b :: l) h' (f + S (S (length l))) b) as [Hs Hb].
  pose proof (pop_all_heap a (b :: l) h' (f + S (S (length l))) f) as [_ Hfr].
  cbn [length] in Hs, Hb, Hfr. rewrite Hs, Hb, Hfr. split_and!; [done| |].
  - rewrite decide_True; [done|]. right. by left.
  - rewrite decide_False; [exact Hpar|]. intros Hin.
    assert (is_Some (h !! f)) as Hsome; [|apply Hf in Hsome; cbn in Hsome; lia].
    eapply chain_alive; [|exact Hin]. split; [|split; [exact Hna|exact Hc']].
    exists ca. split_and!; done.
Qed.

Lemma cloned_stack_dangles_witness :
  let t := Thread {[ 0%nat := Context 1 None None None 1 false;
                     1%nat := Context 2 (Some 0%nat) None None 2 false ]} 2 (Some [1%nat; 0%nat]) in
  ∃ cs t' c, copy_call_stack t = (Ok cs, t') ∧ head cs = Some c ∧
    (λ x, cc_parent x) <$> ctx_heap t' !! c = Some (Some 0%nat).
Proof.
  intros t. destruct (cloned_stack_dangles t 1 0 []) as (cs & t' & c & H1 & _ & _ & H2 & H3 & _).
  - split.
    + cbn. split; [eexists; split; [reflexivity|split; reflexivity]|].
      split; [intros H; apply list_elem_of_singleton in H; discriminate|].
      split; [eexists; split; [reflexivity|split; reflexivity]|].
      split; [apply not_elem_of_nil|exact I].
    + intros a [c H]. cbn in H. apply lookup_insert_Some in H as [[<- _]|[_ H]]; [cbn; lia|].
      apply lookup_singleton_Some in H as [<- _]. cbn. lia.
    + discriminate.
  - reflexivity.
  - exists cs, t', c. exact (conj H1 (conj H2 H3)).
Defined.
