(* ===== verification/ProtocolLayer.v ===== *)
(** * ProtocolLayer: calls, answers and the slots that wait for them

    [lib/vtrc/common/protocol-layer.cpp] ([protocol_layer::impl]) with
    [rpc-controller.cpp]: the numbering of calls, the slots a caller waits on,
    and the execution of a call that came from the other side, including the
    life of the [closure_holder_type] that ties the service's closure, the
    message to answer and the internal [done] callback together.

    Messages and holders are shared objects, so they live in heaps.  A holder is
    referenced by the frame of [make_local_call] and by the closure given to the
    service; it dies, and its destructor runs, when both are gone. *)

From S2P Require Import Prelude Messages CondQueues CallContext.

(** ** rpc_controller *)

Record rpc_controller : Type := Controller {
  failed_ : bool;
  error_string_ : string;
  ctl_canceled_ : bool;
  cancel_cl_ : option nat
}.
Definition controller_new : rpc_controller := Controller false "" false None.
Definition Reset (_ : rpc_controller) : rpc_controller := Controller false "" false None.
Definition SetFailed (reason : string) (c : rpc_controller) : rpc_controller :=
  Controller true reason (ctl_canceled_ c) (cancel_cl_ c).
(** The second component is the closure that is run. *)
Definition StartCancel (c : rpc_controller) : rpc_controller * option nat :=
  (Controller (failed_ c) (error_string_ c) true (cancel_cl_ c), cancel_cl_ c).
Definition NotifyOnCancel (callback : nat) (c : rpc_controller) : rpc_controller * option nat :=
  if ctl_canceled_ c then (c, Some callback)
  else (Controller (failed_ c) (error_string_ c) (ctl_canceled_ c) (Some callback), None).
Definition IsCanceled (c : rpc_controller) : bool := ctl_canceled_ c.
Definition Failed (c : rpc_controller) : bool := failed_ c.
Definition ErrorText (c : rpc_controller) : string := error_string_ c.

(** ** State *)

(** [connection_] is null until [make_local_call_impl] assigns it, together with
    [llu_]; [internal_closure_] is the callback when it is set and not empty;
    [hd_local] is the reference of [make_local_call]'s frame and [proto_closure_]
    the closure, which holds the other. *)
Record closure_holder_type : Type := Holder {
  hd_connected : bool;
  hd_llu : nat;
  hd_res : bytes;
  hd_controller : rpc_controller;
  hd_internal : bool;
  proto_closure_ : bool;
  hd_local : bool
}.

(** [connection_] is the owning connection, to which holders have weak pointers;
    [sent_] is what was handed to it and [dones_] the calls of the internal
    callback, oldest first. *)
Record layer : Type := Layer {
  rpc_queue_ : condition_queues lowlevel_unit;
  rpc_index_ : Z;
  session_opts_ : session_options;
  ready_ : bool;
  thread_ : thread_state;
  connection_ : bool;
  units_ : gmap nat lowlevel_unit;
  unit_fresh_ : nat;
  holders_ : gmap nat closure_holder_type;
  holder_fresh_ : nat;
  sent_ : list lowlevel_unit;
  dones_ : list container
}.

Definition layer_new (odd : bool) (opts : session_options) : layer :=
  Layer condition_queues_new (if odd then 101 else 100) opts false thread_new true
    ∅ 0 ∅ 0 [] [].

Definition with_rpc_queue (q : condition_queues lowlevel_unit) (l : layer) : layer :=
  Layer q (rpc_index_ l) (session_opts_ l) (ready_ l) (thread_ l) (connection_ l)
    (units_ l) (unit_fresh_ l) (holders_ l) (holder_fresh_ l) (sent_ l) (dones_ l).
Definition with_rpc_index (i : Z) (l : layer) : layer :=
  Layer (rpc_queue_ l) i (session_opts_ l) (ready_ l) (thread_ l) (connection_ l)
    (units_ l) (unit_fresh_ l) (holders_ l) (holder_fresh_ l) (sent_ l) (dones_ l).
Definition with_session (o : session_options) (l : layer) : layer :=
  Layer (rpc_queue_ l) (rpc_index_ l) o (ready_ l) (thread_ l) (connection_ l)
    (units_ l) (unit_fresh_ l) (holders_ l) (holder_fresh_ l) (sent_ l) (dones_ l).
Definition with_ready (b : bool) (l : layer) : layer :=
  Layer (rpc_queue_ l) (rpc_index_ l) (session_opts_ l) b (thread_ l) (connection_ l)
    (units_ l) (unit_fresh_ l) (holders_ l) (holder_fresh_ l) (sent_ l) (dones_ l).
Definition with_thread (t : thread_state) (l : layer) : layer :=
  Layer (rpc_queue_ l) (rpc_index_ l) (session_opts_ l) (ready_ l) t (connection_ l)
    (units_ l) (unit_fresh_ l) (holders_ l) (holder_fresh_ l) (sent_ l) (dones_ l).
Definition with_units (u : gmap nat lowlevel_unit) (n : nat) (l : layer) : layer :=
  Layer (rpc_queue_ l) (rpc_index_ l) (session_opts_ l) (ready_ l) (thread_ l) (connection_ l)
    u n (holders_ l) (holder_fresh_ l) (sent_ l) (dones_ l).
Definition with_holders (h : gmap nat closure_holder_type) (n : nat) (l : layer) : layer :=
  Layer (rpc_queue_ l) (rpc_index_ l) (session_opts_ l) (ready_ l) (thread_ l) (connection_ l)
    (units_ l) (unit_fresh_ l) h n (sent_ l) (dones_ l).
Definition with_sent (s : list lowlevel_unit) (l : layer) : layer :=
  Layer (rpc_queue_ l) (rpc_index_ l) (session_opts_ l) (ready_ l) (thread_ l) (connection_ l)
    (units_ l) (unit_fresh_ l) (holders_ l) (holder_fresh_ l) s (dones_ l).
Definition with_dones (d : list container) (l : layer) : layer :=
  Layer (rpc_queue_ l) (rpc_index_ l) (session_opts_ l) (ready_ l) (thread_ l) (connection_ l)
    (units_ l) (unit_fresh_ l) (holders_ l) (holder_fresh_ l) (sent_ l) d.

Definition on_rpc_queue {A} (m : M (condition_queues lowlevel_unit) A) : M layer A := λ l,
  let '(r, q) := m (rpc_queue_ l) in (r, with_rpc_queue q l).
Definition on_thread {A} (m : M thread_state A) : M layer A := λ l,
  let '(r, t) := m (thread_ l) in (r, with_thread t l).

(** ** Shared messages *)

Definition unit_new (u : lowlevel_unit) : M layer nat := λ l,
  (Ok (unit_fresh_ l), with_units (<[unit_fresh_ l := u]> (units_ l)) (S (unit_fresh_ l)) l).
Definition unit_at (l : layer) (a : nat) : lowlevel_unit := default unit_empty (units_ l !! a).
Definition unit_modify (a : nat) (f : lowlevel_unit → lowlevel_unit) : M layer unit :=
  modify (λ l, with_units (<[a := f (unit_at l a)]> (units_ l)) (unit_fresh_ l) l).

(** [mutable_error( )->set_code( c )] and [->set_additional( s )] *)
Definition set_error_code (c : Z) (u : lowlevel_unit) : lowlevel_unit :=
  let e := u_error u in
  set_error (Some (Container (Some c) (c_category e) (c_fatal e) (c_additional e))) u.
Definition set_error_additional (s : string) (u : lowlevel_unit) : lowlevel_unit :=
  let e := u_error u in
  set_error (Some (Container (c_code e) (c_category e) (c_fatal e) (Some s))) u.
Definition clear_channel_data (u : lowlevel_unit) : lowlevel_unit :=
  Unit (f_id u) (f_target_id u) (f_info u) (f_call u) (f_error u) (f_opt u)
    None (f_lowlevel_data u) (f_request u) (f_response u).

(** ** Sending, slots *)

Definition set_ready (b : bool) : M layer unit := modify (with_ready b).
Definition send_message (u : lowlevel_unit) : M layer unit :=
  modify (λ l, with_sent (sent_ l ++ [u]) l).

(** [rpc_index_ += 2], an atomic 64-bit counter *)
Definition next_index : M layer Z := λ l,
  let i := u64 (rpc_index_ l + 2) in (Ok i, with_rpc_index i l).

Definition push_rpc_message (slot_id : Z) (mess : lowlevel_unit) : M layer bool :=
  on_rpc_queue (write_queue_if_exists slot_id mess).
Definition push_rpc_message_all (mess : lowlevel_unit) : M layer Z :=
  on_rpc_queue (write_all mess).

(** [call_rpc_method( slot_id, llu )] and [call_rpc_method( llu )] *)
Definition call_rpc_method_slot (slot_id : Z) (llu : lowlevel_unit) : M layer unit :=
  let* l := get in
  if ready_ l then
    on_rpc_queue (add_queue slot_id) ;;;
    send_message llu
  else raise (EVtrc ERR_COMM CATEGORY_INTERNAL "").
Definition call_rpc_method (llu : lowlevel_unit) : M layer unit :=
  let* l := get in
  if ready_ l then send_message llu
  else raise (EVtrc ERR_COMM CATEGORY_INTERNAL "").

(** [mess] is the caller's fresh message; [others] is what happens to the queues
    while it waits. *)
Definition read_slot_for (slot_id : Z) (mess : lowlevel_unit)
    (others : M (condition_queues lowlevel_unit) unit) : M layer lowlevel_unit :=
  let* (qwr, r) := on_rpc_queue (read slot_id others) in
  let mess := default mess r in
  ret (match qwr with
       | WAIT_RESULT_SUCCESS => mess
       | WAIT_RESULT_CANCELED => set_error_code ERR_CANCELED mess
       | WAIT_RESULT_TIMEOUT => set_error_code ERR_TIMEOUT mess
       end).

Definition erase_slot (slot_id : Z) : M layer unit := on_rpc_queue (erase_queue slot_id).
Definition cancel_slot (slot_id : Z) : M layer unit := on_rpc_queue (cancel slot_id).
Definition slot_exists (slot_id : Z) (l : layer) : bool := queue_exists slot_id (rpc_queue_ l).
Definition erase_all_slots : M layer unit := on_rpc_queue erase_all.
Definition cancel_all_slots : M layer unit := on_rpc_queue cancel_all.

(** A transport error reaches every waiting caller. *)
Definition on_system_error (value : Z) (add : string) : M layer unit :=
  set_ready false ;;;
  push_rpc_message_all
    (set_error (Some (Container (Some value) (Some CATEGORY_SYSTEM) (Some true) (Some add)))
       unit_empty) ;;;
  ret tt.
Definition on_write_error (value : Z) : M layer unit := on_system_error value "Transport write error.".
Definition on_read_error (value : Z) : M layer unit := on_system_error value "Transport read error.".

(** [raise_error( code )] *)
Definition raise_error {A} (code : Z) : M layer A := raise (EVtrc code CATEGORY_INTERNAL "").

(** ** Holders *)

Definition holder_new (h : closure_holder_type) : M layer nat := λ l,
  (Ok (holder_fresh_ l), with_holders (<[holder_fresh_ l := h]> (holders_ l)) (S (holder_fresh_ l)) l).
Definition holder_at (a : nat) : M layer closure_holder_type := λ l,
  match holders_ l !! a with
  | Some h => (Ok h, l)
  | None => (Raise (EUndefined "holder"), l)
  end.
Definition holder_set (a : nat) (h : closure_holder_type) : M layer unit :=
  modify (λ l, with_holders (<[a := h]> (holders_ l)) (holder_fresh_ l) l).
Definition holder_modify (a : nat) (f : closure_holder_type → closure_holder_type) : M layer unit :=
  let* h := holder_at a in holder_set a (f h).

Definition hd_set_res (r : bytes) (h : closure_holder_type) : closure_holder_type :=
  Holder (hd_connected h) (hd_llu h) r (hd_controller h) (hd_internal h) (proto_closure_ h) (hd_local h).
Definition hd_set_controller (f : rpc_controller → rpc_controller) (h : closure_holder_type) : closure_holder_type :=
  Holder (hd_connected h) (hd_llu h) (hd_res h) (f (hd_controller h)) (hd_internal h) (proto_closure_ h) (hd_local h).
Definition hd_set_internal (b : bool) (h : closure_holder_type) : closure_holder_type :=
  Holder (hd_connected h) (hd_llu h) (hd_res h) (hd_controller h) b (proto_closure_ h) (hd_local h).
Definition hd_set_closure (b : bool) (h : closure_holder_type) : closure_holder_type :=
  Holder (hd_connected h) (hd_llu h) (hd_res h) (hd_controller h) (hd_internal h) b (hd_local h).
Definition hd_set_local (b : bool) (h : closure_holder_type) : closure_holder_type :=
  Holder (hd_connected h) (hd_llu h) (hd_res h) (hd_controller h) (hd_internal h) (proto_closure_ h) b.

(** [call_internal( )], run by the destructor. *)
Definition call_internal (h : closure_holder_type) : M layer unit :=
  modify (λ l,
    if hd_internal h && (hd_connected h && connection_ l)
    then with_dones (dones_ l ++ [u_error (unit_at l (hd_llu h))]) l else l).

(** A reference was dropped: the last one runs the destructor. *)
Definition holder_release (a : nat) : M layer unit :=
  let* h := holder_at a in
  if negb (proto_closure_ h) && negb (hd_local h) then
    call_internal h ;;;
    modify (λ l, with_holders (delete a (holders_ l)) (holder_fresh_ l) l)
  else ret tt.

(** ** The answer *)

Definition closure_done (a : nat) : M layer unit :=
  let* h := holder_at a in
  let c := hd_controller h in
  let failed := IsCanceled c || Failed c in
  let errorcode := if IsCanceled c then ERR_CANCELED else ERR_CALL_FAILED in
  unit_modify (hd_llu h) (λ u, clear_channel_data (set_call None (set_request None u))) ;;;
  (if failed then
     unit_modify (hd_llu h) (λ u, set_response None (set_error_code errorcode u)) ;;;
     (if bool_decide (ErrorText c = ""%string) then ret tt
      else unit_modify (hd_llu h) (set_error_additional (ErrorText c)))
   else
     unit_modify (hd_llu h) (λ u,
       if uo_accept_response' (u_opt u) then set_response (Some (hd_res h)) u else u)) ;;;
  let* l := get in
  send_message (unit_at l (hd_llu h)).

(** [closure_impl::Run( )]: running a closure that was already deleted is
    undefined.  [uncaught] is [std::uncaught_exception( )]. *)
Definition closure_runner (a : nat) (uncaught : bool) : M layer unit :=
  let* h := holder_at a in
  if proto_closure_ h then
    holder_modify a (hd_set_closure false) ;;;
    let* l := get in
    (if hd_connected h && connection_ l then
       if negb uncaught then closure_done a
       else match get_call_context (thread_ l) with
            | None =>
                holder_modify a (hd_set_controller (SetFailed "Uncaught exception while running closure")) ;;;
                closure_done a
            | Some _ => ret tt
            end
     else ret tt) ;;;
    holder_release a
  else raise (EUndefined "closure").

(** ** The services *)

(** What a service's method does with the request, the response, the controller
    and the closure; [AGuard] is a [closure_holder] on the method's stack, which
    runs the closure when the method is left.  A method that does none of the
    last three keeps the closure and runs it later. *)
Inductive svc_action : Type :=
  | ASetResponse (r : bytes)
  | ASetFailed (reason : string)
  | AStartCancel
  | ARun
  | AGuard
  | AThrow (e : exn).

Definition method_impl : Type := bytes → list svc_action.

(** [rpc_service_wrapper]: a null service is possible; [get_method] is the
    descriptor's lookup. *)
Record rpc_service_wrapper : Type := Wrapper {
  wr_service : option (string → option method_impl)
}.

Fixpoint call_method (a : nat) (acts : list svc_action) (guard : bool) : M layer unit :=
  match acts with
  | [] => if guard then closure_runner a false else ret tt
  | ASetResponse r :: acts => holder_modify a (hd_set_res r) ;;; call_method a acts guard
  | ASetFailed s :: acts =>
      holder_modify a (hd_set_controller (SetFailed s)) ;;; call_method a acts guard
  | AStartCancel :: acts =>
      holder_modify a (hd_set_controller (fst ∘ StartCancel)) ;;; call_method a acts guard
  | ARun :: acts => closure_runner a false ;;; call_method a acts guard
  | AGuard :: acts => call_method a acts true
  | AThrow e :: acts =>
      (if guard then closure_runner a true else ret tt) ;;; raise e
  end.

(** [context_holder ch( llu )] around a body. *)
Definition with_layer_context {A} (llu : nat) (body : nat → M layer A) : M layer A := λ l,
  match on_thread (let* a := ctx_alloc (call_context_new llu) in push_call_context a) l with
  | (Ok a, l1) =>
      let '(r, l2) := body a l1 in
      match on_thread pop_call_context l2 with
      | (Raise (EUndefined w), l3) => (Raise (EUndefined w), l3)
      | (_, l3) => (r, l3)
      end
  | (Raise e, l1) => (Raise e, l1)
  end.

Definition ERR_BAD_FILE : Z := 9.

Section LocalCalls.
(** The virtual [get_service_by_name]. *)
Context (get_service : string → option rpc_service_wrapper).

Definition find_method (llu : lowlevel_unit) : M layer method_impl :=
  match (get_service (u_service_id llu) ≫= wr_service) with
  | None => raise (EVtrc ERR_BAD_FILE CATEGORY_INTERNAL "Service not found")
  | Some s =>
      match s (u_method_id llu) with
      | None => raise (EVtrc ERR_NO_FUNC CATEGORY_INTERNAL "Method not found")
      | Some m => ret m
      end
  end.

Definition make_local_call_impl (llu : nat) (a : nat) : M layer unit :=
  with_layer_context llu (λ ctx,
    let* c := on_thread (ctx_at ctx) in
    let* l := get in
    if default 0 (so_max_stack_size (session_opts_ l)) <? cc_depth c then
      raise (EVtrc ERR_OVERFLOW CATEGORY_INTERNAL "")
    else
      let* m := find_method (unit_at l llu) in
      on_thread (let* c := ctx_at ctx in
                 ctx_set ctx (set_call_options (Some default_method_options) c)) ;;;
      holder_modify a (λ h, Holder true llu [] controller_new (hd_internal h) true (hd_local h)) ;;;
      on_thread (let* c := ctx_at ctx in ctx_set ctx (set_done_closure (Some a) c)) ;;;
      call_method a (m (u_request (unit_at l llu))) false).

(** The code and text a caught exception leaves in the message. *)
Definition exception_code (e : exn) : Z :=
  match e with
  | EVtrc code _ _ => code
  | EUnknown => ERR_UNKNOWN
  | _ => ERR_INTERNAL
  end.
Definition exception_text (e : exn) : string :=
  match e with
  | EVtrc _ _ add => add
  | EUnknown => "..."
  | ELength w | EOutOfRange w | ERuntime w | EStd w => w
  | EUndefined w => w
  end.

(** [done] says whether the callback is not empty. *)
Definition make_local_call (llu : nat) (done_ : bool) : M layer unit :=
  let* a := holder_new (Holder false llu [] controller_new done_ false true) in
  let* failed := try_catch
    (make_local_call_impl llu a ;;; ret false)
    (λ e,
       unit_modify llu (set_error_additional (exception_text e)) ;;;
       unit_modify llu (λ u, set_response None (set_error_code (exception_code e) u)) ;;;
       ret true) in
  let* l := get in
  (if failed && uo_wait' (u_opt (unit_at l llu)) then
     send_message (unit_at l llu) ;;;
     holder_modify a (hd_set_internal false) ;;;
     (if done_ then modify (λ l, with_dones (dones_ l ++ [u_error (unit_at l llu)]) l) else ret tt)
   else ret tt) ;;;
  holder_modify a (hd_set_local false) ;;;
  holder_release a.
End LocalCalls.

(** ** Lemmas *)

Lemma holder_modify_ok a f h l :
  holders_ l !! a = Some h →
  holder_modify a f l = (Ok tt, with_holders (<[a := f h]> (holders_ l)) (holder_fresh_ l) l).
Proof. intros H. unfold holder_modify, bind, holder_at. by rewrite H. Qed.

Lemma layer_ext l k :
  rpc_queue_ l = rpc_queue_ k → rpc_index_ l = rpc_index_ k → session_opts_ l = session_opts_ k →
  ready_ l = ready_ k → thread_ l = thread_ k → connection_ l = connection_ k →
  units_ l = units_ k → unit_fresh_ l = unit_fresh_ k → holders_ l = holders_ k →
  holder_fresh_ l = holder_fresh_ k → sent_ l = sent_ k → dones_ l = dones_ k → l = k.
Proof. destruct l, k. cbn. intros. by subst. Qed.

(** *** Invariants of a call *)

(** A property of the layer that looks only at one holder and at the calls of the
    callback is kept by the whole execution of a call when it is kept by changes
    of the holder that leave its callback and its references, and by the release
    of a reference. *)
Section Frame.
Context (a : nat) (I : layer → Prop).
Hypothesis I_thread : ∀ t l, I l → I (with_thread t l).
Hypothesis I_units : ∀ u n l, I l → I (with_units u n l).
Hypothesis I_sent : ∀ s l, I l → I (with_sent s l).
Hypothesis I_modify : ∀ f,
  (∀ h, hd_local (f h) = hd_local h ∧ hd_internal (f h) = hd_internal h) →
  keeps I (holder_modify a f).
Hypothesis I_release : keeps I (holder_release a).

Lemma frame_thread {A} (m : M thread_state A) : keeps I (on_thread m).
Proof. intros l Hl. unfold on_thread. destruct (m (thread_ l)). by apply I_thread. Qed.
Lemma frame_unit_modify u f : keeps I (unit_modify u f).
Proof. apply keeps_modify. intros l Hl. by apply I_units. Qed.
Lemma frame_send u : keeps I (send_message u).
Proof. apply keeps_modify. intros l Hl. by apply I_sent. Qed.
Lemma frame_holder_at : keeps I (holder_at a).
Proof. intros l Hl. unfold holder_at. by destruct (holders_ l !! a). Qed.

Lemma frame_closure_done : keeps I (closure_done a).
Proof.
  unfold closure_done. apply keeps_bind; [apply frame_holder_at|]. intros h.
  apply keeps_bind; [apply frame_unit_modify|]. intros _.
  apply keeps_bind; [|intros _; apply keeps_bind; [auto with vtrc|intros; apply frame_send]].
  apply keeps_if; [|apply frame_unit_modify]. apply keeps_bind; [apply frame_unit_modify|].
  intros _. apply keeps_if; [auto with vtrc|apply frame_unit_modify].
Qed.

Lemma frame_closure_runner b : keeps I (closure_runner a b).
Proof.
  unfold closure_runner. apply keeps_bind; [apply frame_holder_at|]. intros h.
  apply keeps_if; [|auto with vtrc]. apply keeps_bind; [by apply I_modify|]. intros _.
  apply keeps_bind; [auto with vtrc|]. intros l. apply keeps_bind; [|intros _; apply I_release].
  apply keeps_if; [|auto with vtrc]. apply keeps_if; [apply frame_closure_done|].
  destruct (get_call_context (thread_ l)); [auto with vtrc|].
  apply keeps_bind; [by apply I_modify|]. intros _. apply frame_closure_done.
Qed.

Lemma frame_call_method acts g : keeps I (call_method a acts g).
Proof.
  revert g. induction acts as [|[] acts IH]; intros g; cbn [call_method];
    repeat first [apply keeps_bind; [|intros _] | apply keeps_if | apply frame_closure_runner
                 | by apply I_modify | apply IH | auto with vtrc; fail].
Qed.

Lemma frame_context {A} llu (body : nat → M layer A) :
  (∀ x, keeps I (body x)) → keeps I (with_layer_context llu body).
Proof.
  intros Hb l Hl. unfold with_layer_context.
  match goal with |- context [on_thread ?m l] => pose proof (frame_thread m l Hl) as H1;
    destruct (on_thread m l) as [[x|e] l1] end; cbn [snd] in *; [|done].
  specialize (Hb x l1 H1). destruct (body x l1) as [r l2]. cbn [snd] in Hb.
  pose proof (frame_thread pop_call_context l2 Hb) as H3.
  destruct (on_thread pop_call_context l2) as [[|[]] l3]; done.
Qed.

Lemma frame_make_local_call_impl gs llu : keeps I (make_local_call_impl gs llu a).
Proof.
  unfold make_local_call_impl. apply frame_context. intros x.
  apply keeps_bind; [apply frame_thread|]. intros c. apply keeps_bind; [auto with vtrc|]. intros l.
  apply keeps_if; [auto with vtrc|]. apply keeps_bind.
  { unfold find_method. destruct (_ ≫= _) as [s|]; [|auto with vtrc].
    destruct (s _); auto with vtrc. }
  intros m. apply keeps_bind; [apply frame_thread|]. intros _.
  apply keeps_bind; [by apply I_modify|]. intros _.
  apply keeps_bind; [apply frame_thread|]. intros _. apply frame_call_method.
Qed.
End Frame.

(** While the frame of [make_local_call] holds the holder, nothing runs its
    destructor: the callback is not called and stays with the holder. *)
Definition held (a : nat) (dn : bool) (d : list container) (l : layer) : Prop :=
  dones_ l = d ∧ ∃ h, holders_ l !! a = Some h ∧ hd_local h = true ∧ hd_internal h = dn.

Lemma held_modify a dn d f :
  (∀ h, hd_local (f h) = hd_local h ∧ hd_internal (f h) = hd_internal h) →
  keeps (held a dn d) (holder_modify a f).
Proof.
  intros Hf l [Hd (h & Hh & Hlocal & Hint)]. unfold holder_modify, bind, holder_at.
  rewrite Hh. split; [done|]. exists (f h). cbn. rewrite lookup_insert_eq.
  destruct (Hf h) as [-> ->]. done.
Qed.

Lemma held_release a dn d : keeps (held a dn d) (holder_release a).
Proof.
  intros l [Hd (h & Hh & Hlocal & Hint)]. unfold holder_release, bind, holder_at. rewrite Hh, Hlocal.
  rewrite andb_false_r. cbn. split; [done|]. by exists h.
Qed.

(** The callback was not called, or it was called once and cannot be again. *)
Definition settled (a : nat) (l : layer) : Prop :=
  ∀ h, holders_ l !! a = Some h → hd_internal h = false.
Definition once (a : nat) (d : list container) (l : layer) : Prop :=
  dones_ l = d ∨ (∃ e, dones_ l = d ++ [e]) ∧ settled a l.

Lemma once_modify a d f :
  (∀ h, hd_local (f h) = hd_local h ∧ hd_internal (f h) = hd_internal h) →
  keeps (once a d) (holder_modify a f).
Proof.
  intros Hf l Hl. unfold holder_modify, bind, holder_at.
  destruct (holders_ l !! a) as [h|] eqn:Hh; [|done]. destruct Hl as [Hl|[He Hs]]; [by left|].
  right. split; [done|]. intros h' Hh'. cbn in Hh'. rewrite lookup_insert_eq in Hh'. simplify_eq.
  destruct (Hf h) as [_ ->]. by apply Hs.
Qed.

Lemma once_release a d : keeps (once a d) (holder_release a).
Proof.
  intros l Hl. unfold holder_release, bind, holder_at.
  destruct (holders_ l !! a) as [h|] eqn:Hh; [|done]. step_if; [|done].
  unfold call_internal, modify. cbn.
  assert (Hdel : ∀ l', settled a (with_holders (delete a (holders_ l')) (holder_fresh_ l') l')).
  { intros l' h'. cbn. by rewrite lookup_delete_eq. }
  destruct Hl as [Hl|[He Hs]].
  - destruct (hd_internal h && (hd_connected h && connection_ l)); [|by left].
    right. split; [|apply Hdel]. cbn. rewrite Hl. by eexists.
  - rewrite (Hs h Hh). cbn. right. split; [done|apply Hdel].
Qed.

Lemma once_closure_runner a d b : keeps (once a d) (closure_runner a b).
Proof. apply frame_closure_runner; [done..|apply once_modify|apply once_release]. Qed.

(** A whole call: the callback is called at most once, and if so the holder that
    is left, if any, has lost it. *)
Lemma make_local_call_once gs llu dn l :
  once (holder_fresh_ l) (dones_ l) (make_local_call gs llu dn l).2.
Proof.
  set (a := holder_fresh_ l). set (d := dones_ l). unfold make_local_call.
  unfold bind at 1, holder_new. fold a.
  match goal with |- context [with_holders ?x ?n l] => set (l1 := with_holders x n l) end.
  assert (H1 : held a dn d l1).
  { split; [done|]. eexists. split; [apply lookup_insert_eq|done]. }
  clearbody l1. unfold bind at 1.
  match goal with |- context [try_catch ?m ?h l1] => set (m0 := m); set (h0 := h) end.
  assert (H2 : held a dn d (try_catch m0 h0 l1).2).
  { assert (Hm : keeps (held a dn d) m0).
    { apply keeps_bind; [|auto with vtrc].
      apply frame_make_local_call_impl; [done..|apply held_modify|apply held_release]. }
    assert (Hh : ∀ e, keeps (held a dn d) (h0 e)).
    { intros e. unfold h0. apply keeps_bind; [by apply keeps_modify|]. intros _.
      apply keeps_bind; [by apply keeps_modify|auto with vtrc]. }
    unfold try_catch. specialize (Hm l1 H1).
    destruct (m0 l1) as [[x|e] l2]; [done|]. cbn [snd] in Hm. destruct e; try by apply Hh. done. }
  destruct (try_catch m0 h0 l1) as [[failed|e] l2]; [|left; apply H2]. cbn [snd] in H2.
  unfold bind at 1, get. destruct H2 as [Hd2 (h & Hh & Hlocal & Hint)].
  match goal with |- context [bind ?m ?k l2] => set (m1 := m); set (k1 := k) end.
  assert (H3 : ∃ l3, m1 l2 = (Ok tt, l3) ∧ ∃ h', holders_ l3 !! a = Some h' ∧
    (dones_ l3 = d ∨ (∃ e, dones_ l3 = d ++ [e]) ∧ hd_internal h' = false)).
  { unfold m1. step_if.
    - unfold bind, send_message, modify at 1. cbn.
      erewrite holder_modify_ok by exact Hh. destruct dn; cbn; eexists; (split; [done|]); cbn;
        rewrite lookup_insert_eq; eexists; (split; [done|]).
      + right. rewrite Hd2. split; [by eexists|done].
      + by left.
    - exists l2. split; [done|]. exists h. split; [done|]. by left. }
  destruct H3 as (l3 & H3 & h' & Hh' & Hcase). unfold bind at 1. rewrite H3. unfold k1.
  unfold bind at 1. erewrite holder_modify_ok by exact Hh'.
  apply once_release. destruct Hcase as [Hcase|[He Hi]]; [by left|]. right. split; [done|].
  intros h2. cbn. rewrite lookup_insert_eq. intros [= <-]. exact Hi.
Qed.

(** *** What single operations compute *)

(** The message an answer is, from the call it answers. *)
Definition answer (h : closure_holder_type) (u : lowlevel_unit) : lowlevel_unit :=
  let c := hd_controller h in
  let u := clear_channel_data (set_call None (set_request None u)) in
  if IsCanceled c || Failed c then
    let u := set_response None
      (set_error_code (if IsCanceled c then ERR_CANCELED else ERR_CALL_FAILED) u) in
    if bool_decide (ErrorText c = ""%string) then u else set_error_additional (ErrorText c) u
  else if uo_accept_response' (u_opt u) then set_response (Some (hd_res h)) u else u.

Definition put_unit (a : nat) (u : lowlevel_unit) (l : layer) : layer :=
  with_units (<[a := u]> (units_ l)) (unit_fresh_ l) l.

Lemma unit_at_put a u l : unit_at (put_unit a u l) a = u.
Proof. unfold unit_at, put_unit. cbn. by rewrite lookup_insert_eq. Qed.

Lemma put_put a u v l : put_unit a v (put_unit a u l) = put_unit a v l.
Proof. unfold put_unit, with_units. cbn. by rewrite insert_insert_eq. Qed.

Lemma unit_modify_put a f l : unit_modify a f l = (Ok tt, put_unit a (f (unit_at l a)) l).
Proof. done. Qed.

Lemma closure_done_ok a h l :
  holders_ l !! a = Some h →
  let u := answer h (unit_at l (hd_llu h)) in
  closure_done a l = (Ok tt, with_sent (sent_ l ++ [u]) (put_unit (hd_llu h) u l)).
Proof.
  intros Hh u. unfold closure_done, bind at 1, holder_at. rewrite Hh.
  unfold bind at 1. rewrite unit_modify_put.
  set (l1 := put_unit _ _ l). set (x := hd_llu h) in *.
  assert (Hrest : (if IsCanceled (hd_controller h) || Failed (hd_controller h)
     then unit_modify x (λ u, set_response None (set_error_code
            (if IsCanceled (hd_controller h) then ERR_CANCELED else ERR_CALL_FAILED) u)) ;;;
          (if bool_decide (ErrorText (hd_controller h) = ""%string) then ret tt
           else unit_modify x (set_error_additional (ErrorText (hd_controller h))))
     else unit_modify x (λ u, if uo_accept_response' (u_opt u)
            then set_response (Some (hd_res h)) u else u)) l1 = (Ok tt, put_unit x u l)).
  { unfold u, answer, l1. destruct (IsCanceled _ || Failed _).
    - unfold bind. rewrite unit_modify_put, unit_at_put, put_put.
      destruct (bool_decide _); [done|]. by rewrite unit_modify_put, unit_at_put, put_put.
    - by rewrite unit_modify_put, unit_at_put, put_put. }
  rewrite (bind_ok _ _ _ _ _ Hrest). unfold bind, get, send_message, modify.
  by rewrite unit_at_put.
Qed.

(** *** Setters of the response and the controller *)

Definition apply_setter (x : svc_action) (h : closure_holder_type) : option closure_holder_type :=
  match x with
  | ASetResponse r => Some (hd_set_res r h)
  | ASetFailed s => Some (hd_set_controller (SetFailed s) h)
  | AStartCancel => Some (hd_set_controller (fst ∘ StartCancel) h)
  | _ => None
  end.
Fixpoint apply_setters (xs : list svc_action) (h : closure_holder_type) : option closure_holder_type :=
  match xs with
  | [] => Some h
  | x :: xs => apply_setter x h ≫= apply_setters xs
  end.

Lemma apply_setters_frame xs h h' :
  apply_setters xs h = Some h' →
  hd_connected h' = hd_connected h ∧ hd_llu h' = hd_llu h ∧ hd_internal h' = hd_internal h ∧
  proto_closure_ h' = proto_closure_ h ∧ hd_local h' = hd_local h.
Proof.
  revert h. induction xs as [|[] xs IH]; intros h H; simplify_eq/=; [done|by apply IH in H..].
Qed.

Lemma call_method_setters a xs k g h h' l :
  holders_ l !! a = Some h → apply_setters xs h = Some h' →
  call_method a (xs ++ k) g l =
    call_method a k g (with_holders (<[a := h']> (holders_ l)) (holder_fresh_ l) l).
Proof.
  revert h l. induction xs as [|x xs IH]; intros h l Hh H.
  - simplify_eq/=. rewrite insert_id by done. by destruct l.
  - cbn [app call_method]. destruct x; simplify_eq/=; try done;
      erewrite bind_ok by (by apply holder_modify_ok);
      erewrite IH by (done || (cbn; apply lookup_insert_eq)); cbn;
      by rewrite insert_insert_eq.
Qed.

(** *** The context around the call *)

Definition enter (llu : nat) (l : layer) : layer :=
  let t := thread_ l in
  let st := default [] (s_call_context t) in
  with_thread (Thread (<[ctx_fresh t := Context llu (head st) None None
                 (blen (ctx_fresh t :: st)) false]> (ctx_heap t))
               (S (ctx_fresh t)) (Some (ctx_fresh t :: st))) l.

Lemma with_layer_context_ok {A} llu (body : nat → M layer A) l r l2 h' :
  stack_ok (thread_ l) →
  let a := ctx_fresh (thread_ l) in
  let st := default [] (s_call_context (thread_ l)) in
  body a (enter llu l) = (r, l2) →
  thread_ l2 = Thread (<[a := h']> (ctx_heap (thread_ l))) (S a) (Some (a :: st)) →
  with_layer_context llu body l =
    (r, with_thread (Thread (ctx_heap (thread_ l)) (S a) (s_call_context (thread_ l))) l2).
Proof.
  intros Ht a st Hbody Hl2. unfold with_layer_context, on_thread.
  destruct (push_new_ok llu (thread_ l) Ht) as (-> & Hok & Hfree).
  fold a. fold st. change (with_thread _ l) with (enter llu l). rewrite Hbody, Hl2.
  pose proof (so_null _ Ht) as Hnull.
  assert (Hdel : delete a (<[a := h']> (ctx_heap (thread_ l))) = ctx_heap (thread_ l))
    by by rewrite delete_insert_id.
  unfold pop_call_context. cbn. unfold st. destruct (s_call_context (thread_ l)) as [[|b s]|] eqn:E;
    cbn; [done|by rewrite Hdel|by rewrite Hdel].
Qed.

(** *** Calls that are refused and calls that are served *)

(** Why a call is refused before any service sees it. *)
Definition refusal (gs : string → option rpc_service_wrapper) (l : layer) (u : lowlevel_unit) : option exn :=
  if default 0 (so_max_stack_size (session_opts_ l)) <?
     blen (default [] (s_call_context (thread_ l))) + 1
  then Some (EVtrc ERR_OVERFLOW CATEGORY_INTERNAL "")
  else match gs (u_service_id u) ≫= wr_service with
       | None => Some (EVtrc ERR_BAD_FILE CATEGORY_INTERNAL "Service not found")
       | Some s => match s (u_method_id u) with
                   | None => Some (EVtrc ERR_NO_FUNC CATEGORY_INTERNAL "Method not found")
                   | Some _ => None
                   end
       end.

(** The thread after a call: only the number of contexts ever made has grown. *)
Definition called (l : layer) : layer :=
  with_thread (Thread (ctx_heap (thread_ l)) (S (ctx_fresh (thread_ l)))
                 (s_call_context (thread_ l))) l.

Lemma depth_cons a (st : list nat) : blen (a :: st) = blen st + 1.
Proof. unfold blen. simpl. lia. Qed.

Lemma impl_refused gs llu a l e :
  stack_ok (thread_ l) → refusal gs l (unit_at l llu) = Some e →
  make_local_call_impl gs llu a l = (Raise e, called l).
Proof.
  intros Ht Hr. unfold make_local_call_impl.
  match goal with |- context [with_layer_context llu ?b l] => set (body := b) end.
  assert (Hb : body (ctx_fresh (thread_ l)) (enter llu l) = (Raise e, enter llu l)).
  { unfold body, bind at 1, on_thread at 1, ctx_at at 1. cbn. rewrite lookup_insert_eq. cbn.
    unfold bind at 1, get. unfold refusal in Hr. rewrite <-(depth_cons (ctx_fresh (thread_ l))) in Hr. cbn.
    destruct (_ <? _); [apply (inj Some) in Hr as ->; reflexivity|].
    unfold bind at 1, find_method.
    change (unit_at _ llu) with (unit_at l llu).
    destruct (gs _ ≫= wr_service) as [s|]; [|apply (inj Some) in Hr as ->; reflexivity].
    destruct (s _); [discriminate|apply (inj Some) in Hr as ->; reflexivity]. }
  rewrite (with_layer_context_ok llu body l _ _ _ Ht Hb eq_refl). reflexivity.
Qed.

(** The message a refused call is answered with. *)
Definition refused_unit (e : exn) (u : lowlevel_unit) : lowlevel_unit :=
  set_response None (set_error_code (exception_code e) (set_error_additional (exception_text e) u)).

Lemma refusal_exn gs l u e : refusal gs l u = Some e → ∃ c t, e = EVtrc c CATEGORY_INTERNAL t.
Proof.
  unfold refusal. intros H. step_if; [simplify_eq; eauto|].
  destruct (_ ≫= _) as [s|]; [destruct (s _)|]; simplify_eq; eauto.
Qed.

(** The layer after a call that left no holder behind. *)
Definition finished (l : layer) (llu : nat) (u : lowlevel_unit) (sent : list lowlevel_unit)
    (dones : list container) : layer :=
  Layer (rpc_queue_ l) (rpc_index_ l) (session_opts_ l) (ready_ l)
    (Thread (ctx_heap (thread_ l)) (S (ctx_fresh (thread_ l))) (s_call_context (thread_ l)))
    (connection_ l) (<[llu := u]> (units_ l)) (unit_fresh_ l)
    (holders_ l) (S (holder_fresh_ l)) (sent_ l ++ sent) (dones_ l ++ dones).

(** The frame of [make_local_call] is left when the closure is gone already. *)
Lemma frame_drop a h l :
  holders_ l !! a = Some h → proto_closure_ h = false →
  (holder_modify a (hd_set_local false) ;;; holder_release a) l =
    (Ok tt, with_holders (delete a (holders_ l)) (holder_fresh_ l)
       (with_dones (dones_ l ++
          (if hd_internal h && (hd_connected h && connection_ l)
           then [u_error (unit_at l (hd_llu h))] else [])) l)).
Proof.
  intros Hh Hp. rewrite (bind_ok _ _ _ _ _ (holder_modify_ok a _ h l Hh)).
  unfold holder_release, holder_at, bind, call_internal, modify. cbn.
  rewrite lookup_insert_eq. cbn. rewrite Hp. cbn.
  destruct (hd_internal h && _); unfold with_holders, with_dones, unit_at; cbn;
    by rewrite delete_insert_eq, ?app_nil_r.
Qed.

Lemma make_local_call_refused gs llu dn l e :
  stack_ok (thread_ l) → holders_ l !! holder_fresh_ l = None →
  refusal gs l (unit_at l llu) = Some e →
  let u := unit_at l llu in
  let u' := refused_unit e u in
  make_local_call gs llu dn l =
    (Ok tt, finished l llu u'
       (if uo_wait' (u_opt u) then [u'] else [])
       (if uo_wait' (u_opt u) && dn then [u_error u'] else [])).
Proof.
  intros Ht Hf Hr u u'. destruct (refusal_exn gs l u e Hr) as (code & txt & He).
  unfold make_local_call. unfold bind at 1, holder_new.
  set (h0 := Holder false llu [] controller_new dn false true).
  set (l1 := with_holders (<[holder_fresh_ l := h0]> (holders_ l)) (S (holder_fresh_ l)) l).
  assert (Hi : make_local_call_impl gs llu (holder_fresh_ l) l1 = (Raise e, called l1))
    by by apply impl_refused.
  unfold bind at 1, try_catch, bind at 1. rewrite Hi.
  assert (Hu1 : unit_at (called l1) llu = u) by reflexivity.
  rewrite He. unfold bind at 1. rewrite unit_modify_put, Hu1.
  unfold bind at 1. rewrite unit_modify_put, unit_at_put, put_put. rewrite <-He. fold (refused_unit e u). fold u'.
  cbn [ret]. unfold ret at 1. unfold bind at 1, get. rewrite unit_at_put.
  assert (Hw : uo_wait' (u_opt u') = uo_wait' (u_opt u)) by reflexivity. rewrite Hw.
  assert (Hdel : ∀ h, delete (holder_fresh_ l) (<[holder_fresh_ l := h]> (holders_ l)) = holders_ l)
    by (intros h; by apply delete_insert_id).
  cbn [andb]. destruct (uo_wait' (u_opt u)); cbn [andb].
  - unfold bind at 1, bind at 1, send_message, modify at 1.
    unfold bind at 1. erewrite holder_modify_ok by (cbn; apply lookup_insert_eq).
    unfold finished. destruct dn; [unfold modify at 1|];
      (erewrite frame_drop; [|cbn; apply lookup_insert_eq|done]); cbn;
      unfold with_holders; cbn; rewrite insert_insert_eq, Hdel, app_nil_r; [|done].
    unfold unit_at. cbn. by rewrite lookup_insert_eq.
  - unfold ret at 1. unfold bind at 1.
    erewrite frame_drop; [|cbn; apply lookup_insert_eq|done]. cbn. rewrite !andb_false_r.
    unfold finished, with_holders. cbn. by rewrite Hdel, !app_nil_r.
Qed.

(** Running the closure of a call that is being made. *)
Lemma closure_runner_ok a h l :
  holders_ l !! a = Some h → proto_closure_ h = true → hd_connected h = true →
  hd_local h = true → connection_ l = true →
  let u := answer h (unit_at l (hd_llu h)) in
  closure_runner a false l =
    (Ok tt, with_sent (sent_ l ++ [u]) (put_unit (hd_llu h) u
       (with_holders (<[a := hd_set_closure false h]> (holders_ l)) (holder_fresh_ l) l))).
Proof.
  intros Hh Hc Hconn Hlocal Hal u. unfold closure_runner. unfold bind at 1, holder_at at 1.
  rewrite Hh, Hc. unfold bind at 1. erewrite holder_modify_ok by done.
  unfold bind at 1, get. cbn [connection_ with_holders]. rewrite Hconn, Hal. cbn [andb negb].
  erewrite bind_ok; [|apply closure_done_ok; cbn; apply lookup_insert_eq].
  unfold holder_release, bind, holder_at. cbn. rewrite lookup_insert_eq. cbn. rewrite Hlocal.
  reflexivity.
Qed.

(** The two ways a method completes its call before it returns. *)
Definition completes (acts xs : list svc_action) : Prop := acts = xs ++ [ARun] ∨ acts = AGuard :: xs.

Definition called_holder (llu : nat) (dn : bool) : closure_holder_type :=
  Holder true llu [] controller_new dn true true.

Lemma call_method_completes a acts xs llu dn h' l :
  completes acts xs → holders_ l !! a = Some (called_holder llu dn) → connection_ l = true →
  apply_setters xs (called_holder llu dn) = Some h' →
  let u := answer h' (unit_at l llu) in
  call_method a acts false l =
    (Ok tt, with_sent (sent_ l ++ [u]) (put_unit llu u
       (with_holders (<[a := hd_set_closure false h']> (holders_ l)) (holder_fresh_ l) l))).
Proof.
  intros Hacts Hh Hal Hs u. destruct (apply_setters_frame _ _ _ Hs) as (Hc & Hl & Hi & Hp & Hlo).
  cbn in Hc, Hl, Hi, Hp, Hlo.
  assert (Hrun : closure_runner a false
      (with_holders (<[a := h']> (holders_ l)) (holder_fresh_ l) l) =
    (Ok tt, with_sent (sent_ l ++ [u]) (put_unit llu u
       (with_holders (<[a := hd_set_closure false h']> (holders_ l)) (holder_fresh_ l) l)))).
  { erewrite closure_runner_ok; [|cbn; apply lookup_insert_eq|done..]. rewrite Hl.
    unfold with_holders, put_unit, with_sent, with_units. cbn. by rewrite insert_insert_eq. }
  destruct Hacts as [->| ->].
  - rewrite (call_method_setters a xs [ARun] false (called_holder llu dn) h' l) by done.
    cbn [call_method]. by rewrite (bind_ok _ _ _ _ _ Hrun).
  - cbn [call_method]. rewrite <-(app_nil_r xs).
    rewrite (call_method_setters a xs [] true (called_holder llu dn) h' l) by done. exact Hrun.
Qed.

Lemma ctx_update_ok x c f l :
  ctx_heap (thread_ l) !! x = Some c →
  on_thread (let* c := ctx_at x in ctx_set x (f c)) l =
    (Ok tt, with_thread (Thread (<[x := f c]> (ctx_heap (thread_ l))) (ctx_fresh (thread_ l))
                           (s_call_context (thread_ l))) l).
Proof. intros H. unfold on_thread, bind, ctx_at. by rewrite H. Qed.

Lemma ctx_read_ok x c l :
  ctx_heap (thread_ l) !! x = Some c → on_thread (ctx_at x) l = (Ok c, with_thread (thread_ l) l).
Proof. intros H. unfold on_thread, ctx_at. by rewrite H. Qed.

Lemma impl_served gs llu a l (m : method_impl) (s : string → option method_impl) acts xs dn h' :
  stack_ok (thread_ l) → refusal gs l (unit_at l llu) = None →
  gs (u_service_id (unit_at l llu)) ≫= wr_service = Some s →
  s (u_method_id (unit_at l llu)) = Some m → m (u_request (unit_at l llu)) = acts →
  completes acts xs → connection_ l = true →
  holders_ l !! a = Some (Holder false llu [] controller_new dn false true) →
  apply_setters xs (called_holder llu dn) = Some h' →
  let u := answer h' (unit_at l llu) in
  make_local_call_impl gs llu a l =
    (Ok tt, with_sent (sent_ l ++ [u]) (put_unit llu u
       (with_holders (<[a := hd_set_closure false h']> (holders_ l)) (holder_fresh_ l) (called l)))).
Proof.
  intros Ht Hr Hs Hm Hacts Hcomp Hal Hh Hset u. unfold make_local_call_impl.
  match goal with |- context [with_layer_context llu ?b l] => set (body := b) end.
  set (x := ctx_fresh (thread_ l)). set (st := default [] (s_call_context (thread_ l))).
  set (hd := with_holders (<[a := hd_set_closure false h']> (holders_ l)) (holder_fresh_ l)).
  set (c := Context llu (head st) (Some default_method_options) (Some a) (blen (x :: st)) false).
  assert (Hb : body x (enter llu l) =
    (Ok tt, with_sent (sent_ l ++ [u]) (put_unit llu u (hd (with_thread
       (Thread (<[x := c]> (ctx_heap (thread_ l))) (S x) (Some (x :: st))) l))))).
  { unfold body. erewrite bind_ok by (apply ctx_read_ok; apply lookup_insert_eq).
    erewrite bind_ok by reflexivity.
    unfold refusal in Hr. rewrite <-(depth_cons x) in Hr. fold st in Hr.
    change (session_opts_ (with_thread _ _)) with (session_opts_ l). cbn [cc_depth].
    fold x st. destruct (_ <? _); [discriminate|].
    change (unit_at (with_thread _ _) llu) with (unit_at l llu).
    erewrite bind_ok by (unfold find_method; rewrite Hs, Hm; reflexivity).
    erewrite bind_ok by (eapply ctx_update_ok; apply lookup_insert_eq).
    erewrite bind_ok by (apply holder_modify_ok; exact Hh).
    erewrite bind_ok by (eapply ctx_update_ok; apply lookup_insert_eq).
    rewrite Hacts.
    match goal with |- call_method _ _ _ ?L = _ => set (L0 := L) end.
    assert (HL : holders_ L0 !! a = Some (called_holder llu dn)) by apply lookup_insert_eq.
    rewrite (call_method_completes a acts xs llu dn h' L0 Hcomp HL Hal Hset).
    assert (Hu : answer h' (unit_at L0 llu) = u) by reflexivity. rewrite Hu. clearbody u.
    f_equal. apply layer_ext; cbn; rewrite ?insert_insert_eq; reflexivity. }
  clearbody u c body.
  rewrite (with_layer_context_ok llu body l _ _ _ Ht Hb eq_refl). reflexivity.
Qed.

Lemma refusal_none gs l u (m : method_impl) (s : string → option method_impl) :
  blen (default [] (s_call_context (thread_ l))) < default 0 (so_max_stack_size (session_opts_ l)) →
  gs (u_service_id u) ≫= wr_service = Some s → s (u_method_id u) = Some m →
  refusal gs l u = None.
Proof.
  intros Hd Hs Hm. unfold refusal. destruct (Z.ltb_spec (default 0 (so_max_stack_size (session_opts_ l)))
    (blen (default [] (s_call_context (thread_ l))) + 1)); [lia|]. by rewrite Hs, Hm.
Qed.

(** A call that a method completes. *)
Lemma make_local_call_served gs llu dn l (s : string → option method_impl) (m : method_impl) xs h' :
  stack_ok (thread_ l) → holders_ l !! holder_fresh_ l = None → connection_ l = true →
  blen (default [] (s_call_context (thread_ l))) < default 0 (so_max_stack_size (session_opts_ l)) →
  gs (u_service_id (unit_at l llu)) ≫= wr_service = Some s →
  s (u_method_id (unit_at l llu)) = Some m →
  completes (m (u_request (unit_at l llu))) xs →
  apply_setters xs (called_holder llu dn) = Some h' →
  let u := answer h' (unit_at l llu) in
  make_local_call gs llu dn l =
    (Ok tt, finished l llu u [u] (if dn then [u_error u] else [])).
Proof.
  intros Ht Hf Hal Hd Hs Hm Hcomp Hset u.
  destruct (apply_setters_frame _ _ _ Hset) as (Hc & Hl & Hi & Hp & Hlo). cbn in Hc, Hl, Hi, Hp, Hlo.
  pose proof (refusal_none gs l (unit_at l llu) m s Hd Hs Hm) as Hr.
  set (h0 := Holder false llu [] controller_new dn false true).
  set (l1 := with_holders (<[holder_fresh_ l := h0]> (holders_ l)) (S (holder_fresh_ l)) l).
  assert (Hh1 : holders_ l1 !! holder_fresh_ l = Some h0) by apply lookup_insert_eq.
  pose proof (impl_served gs llu (holder_fresh_ l) l1 m s _ xs dn h' Ht Hr Hs Hm eq_refl Hcomp
                Hal Hh1 Hset) as Hserved.
  cbv zeta in Hserved. change (unit_at l1 llu) with (unit_at l llu) in Hserved. fold u in Hserved.
  clearbody u.
  unfold make_local_call. erewrite bind_ok by reflexivity. fold h0. fold l1.
  match type of Hserved with _ = (_, ?L) => set (l2 := L) in Hserved end.
  assert (Htry : ∀ k : exn → M layer bool,
    try_catch (make_local_call_impl gs llu (holder_fresh_ l) ;;; ret false) k l1 = (Ok false, l2)).
  { intros k. unfold try_catch, bind. by rewrite Hserved. }
  erewrite bind_ok by apply Htry. erewrite bind_ok by reflexivity. cbn [andb].
  erewrite bind_ok by reflexivity.
  erewrite frame_drop; [|apply lookup_insert_eq|done].
  assert (Hcond : hd_internal (hd_set_closure false h') &&
    (hd_connected (hd_set_closure false h') && connection_ l2) = dn).
  { cbn. by rewrite Hi, Hc, Hal, andb_true_r. }
  rewrite Hcond. cbn [hd_set_closure hd_llu]. rewrite Hl.
  assert (Hu : unit_at l2 llu = u) by apply unit_at_put. rewrite Hu.
  f_equal. apply layer_ext; try reflexivity. cbn. by rewrite insert_insert_eq, delete_insert_id.
Qed.

(** *** Slots *)

(** What a reader gets, from the state of its queue when it stops waiting. *)
Definition outcome (mess : lowlevel_unit) (h : hold_value_type lowlevel_unit) : lowlevel_unit :=
  if canceled_ h then set_error_code ERR_CANCELED mess
  else match hdata_ h with
       | v :: _ => v
       | [] => set_error_code ERR_TIMEOUT mess
       end.

Lemma finish_outcome mess a (c : condition_queues lowlevel_unit) :
  ∃ code r c', finish_read a (queue_empty_predicate (value_of c a)) c = (Ok (code, r), c') ∧
    match code with
    | WAIT_RESULT_SUCCESS => default mess r
    | WAIT_RESULT_CANCELED => set_error_code ERR_CANCELED (default mess r)
    | WAIT_RESULT_TIMEOUT => set_error_code ERR_TIMEOUT (default mess r)
    end = outcome mess (value_of c a).
Proof.
  unfold finish_read, outcome, queue_empty_predicate.
  destruct (canceled_ (value_of c a)) eqn:Ec, (hdata_ (value_of c a)) as [|v d]; cbn; eauto.
Qed.

Lemma read_slot_waits id mess others l a c2 :
  store_ (rpc_queue_ l) !! id = Some a → hdata_ (value_of (rpc_queue_ l) a) = [] →
  others (set_value a (Hold false []) (rpc_queue_ l)) = (Ok tt, c2) →
  (read_slot_for id mess others l).1 = Ok (outcome mess (value_of c2 a)).
Proof.
  intros Ha Hd Ho. unfold read_slot_for, bind at 1, on_rpc_queue, read, value_at_key, bind at 1.
  rewrite Ha. unfold bind at 1, wait_for, bind at 1, read_enter. rewrite value_of_set, Hd.
  change (queue_empty_predicate (Hold false [])) with false. cbv iota beta.
  unfold bind at 1. rewrite Ho. unfold gets.
  destruct (finish_outcome mess a c2) as (code & r & c' & Hf & <-). rewrite Hf. by destruct code.
Qed.

Lemma read_slot_takes id mess others l a v d :
  store_ (rpc_queue_ l) !! id = Some a → hdata_ (value_of (rpc_queue_ l) a) = v :: d →
  read_slot_for id mess others l =
    (Ok v, with_rpc_queue (set_value a (Hold false d)
             (set_value a (Hold false (v :: d)) (rpc_queue_ l))) l).
Proof.
  intros Ha Hd. unfold read_slot_for, bind at 1, on_rpc_queue, read, value_at_key, bind at 1.
  rewrite Ha. unfold bind at 1, wait_for, bind at 1, read_enter. rewrite value_of_set, Hd.
  change (queue_empty_predicate (Hold false (v :: d))) with true. cbv iota beta.
  unfold ret at 1, finish_read. by rewrite value_of_set.
Qed.

Lemma read_slot_ready id mess others l a v d :
  store_ (rpc_queue_ l) !! id = Some a → hdata_ (value_of (rpc_queue_ l) a) = v :: d →
  (read_slot_for id mess others l).1 = Ok v.
Proof. intros Ha Hd. by rewrite (read_slot_takes id mess others l a v d Ha Hd). Qed.

Lemma pushed_once {V} a (v : V) l : NoDup l → a ∈ l → pushed a ((λ b, EvPush b v) <$> l) = [v].
Proof.
  induction l as [|b l IH]; intros Hnd Ha; [by apply not_elem_of_nil in Ha|].
  apply NoDup_cons in Hnd as [Hb Hnd]. cbn. destruct (decide (a = b)) as [->|Hne].
  - cbn. f_equal. clear IH Ha Hnd. induction l as [|x l IH]; [done|]. cbn.
    apply not_elem_of_cons in Hb as [Hx Hb]. rewrite decide_False by done. by apply IH.
  - apply IH; [done|]. by apply elem_of_cons in Ha as [|].
Qed.

Lemma addresses_NoDup {V} (c : condition_queues V) : cq_wf c → NoDup (addresses c).
Proof.
  intros Hwf. unfold addresses. apply NoDup_fmap_2_strong; [|apply NoDup_map_to_list].
  intros [k1 a1] [k2 a2] H1 H2 Heq. cbn in Heq. subst. apply elem_of_map_to_list in H1, H2.
  by rewrite (wf_inj c Hwf k1 k2 a2).
Qed.

Lemma write_all_value {V} (v : V) (c : condition_queues V) id a :
  cq_wf c → store_ c !! id = Some a →
  hdata_ (value_of (push_each (addresses c) v c) a) = hdata_ (value_of c a) ++ [v].
Proof.
  intros Hwf Ha. rewrite push_each_data, pushed_once; [done|by apply addresses_NoDup|].
  apply list_elem_of_fmap. exists (id, a). split; [done|]. by apply elem_of_map_to_list.
Qed.

Lemma push_each_store {V} (v : V) (c : condition_queues V) l :
  store_ (push_each l v c) = store_ c.
Proof. revert c. induction l as [|b l IH]; intros c; [done|]. simpl. by rewrite IH. Qed.

(** ** Properties *)

(** C9 (safety).  The callback that ends a call is called at most once, whatever
    the service does with its closure: neither the call itself nor any number of
    later runs of the closure, with or without an exception in flight, calls it a
    second time. *)
Theorem done_at_most_once gs llu dn l runs :
  let after := (make_local_call gs llu dn l).2 in
  let late := foldl (λ k b, (closure_runner (holder_fresh_ l) b k).2) after runs in
  dones_ late = dones_ l ∨ ∃ e, dones_ late = dones_ l ++ [e].
Proof.
  intros after late.
  assert (H : once (holder_fresh_ l) (dones_ l) late).
  { unfold late. assert (H0 : once (holder_fresh_ l) (dones_ l) after) by apply make_local_call_once.
    clearbody after. clear late. revert after H0.
    induction runs as [|b runs IH]; intros k Hk; [done|]. simpl. apply IH.
    by apply once_closure_runner. }
  destruct H as [H|[H _]]; eauto.
Qed.

(** A call that is nested too deep, or names a service or a method
    the side does not have, reaches no service.  If the caller waits it gets one
    answer, which carries the reason and no response, and the callback is called;
    if it does not wait nothing is sent and the callback is not called at all. *)
Theorem refused_call gs llu dn l e :
  stack_ok (thread_ l) → holders_ l !! holder_fresh_ l = None →
  refusal gs l (unit_at l llu) = Some e →
  let u := unit_at l llu in
  let u' := refused_unit e u in
  make_local_call gs llu dn l =
    (Ok tt, finished l llu u'
       (if uo_wait' (u_opt u) then [u'] else [])
       (if uo_wait' (u_opt u) && dn then [u_error u'] else [])).
Proof. apply make_local_call_refused. Qed.

(** A call of method [m] of service [s], from the heap of messages. *)
Definition example_call (wait : bool) : lowlevel_unit :=
  set_opt (Some (UnitOptions (Some wait) (Some true) (Some true)))
    (set_request (Some [7]) (set_call (Some (CallInfo (Some "s"%string) (Some "m"%string))) unit_empty)).
Definition example_layer (wait : bool) : layer :=
  with_units {[ 0%nat := example_call wait ]} 1 (layer_new false default_session_options).
Definition no_services : string → option rpc_service_wrapper := λ _, None.

Lemma refused_call_witness :
  (make_local_call no_services 0 true (example_layer true)).1 = Ok tt ∧
  dones_ (make_local_call no_services 0 true (example_layer true)).2 =
    [Container (Some ERR_BAD_FILE) None None (Some "Service not found"%string)] ∧
  dones_ (make_local_call no_services 0 true (example_layer false)).2 = [].
Proof.
  assert (H : ∀ w, stack_ok (thread_ (example_layer w))).
  { intros w. split; [done| |done]. intros a [c Hc]. cbn in Hc. by rewrite lookup_empty in Hc. }
  assert (Hr : ∀ w, make_local_call no_services 0 true (example_layer w) = _)
    by (intros w; exact (refused_call no_services 0 true (example_layer w) _ (H w) eq_refl eq_refl)).
  split_and!; [by rewrite Hr|rewrite Hr; reflexivity|rewrite Hr; reflexivity].
Defined.

(** C14 (functional).  A method that fills its response or its controller and then
    runs its closure, directly or by a guard, is answered by exactly one message:
    the response when the caller accepts one, the error when the method failed or
    was cancelled.  The callback is called once with the error of that message,
    the thread's call stack is what it was and no holder is left. *)
Theorem served_call gs llu dn l (s : string → option method_impl) (m : method_impl) xs h' :
  stack_ok (thread_ l) → holders_ l !! holder_fresh_ l = None → connection_ l = true →
  blen (default [] (s_call_context (thread_ l))) < default 0 (so_max_stack_size (session_opts_ l)) →
  gs (u_service_id (unit_at l llu)) ≫= wr_service = Some s →
  s (u_method_id (unit_at l llu)) = Some m →
  completes (m (u_request (unit_at l llu))) xs →
  apply_setters xs (called_holder llu dn) = Some h' →
  let u := answer h' (unit_at l llu) in
  make_local_call gs llu dn l =
    (Ok tt, finished l llu u [u] (if dn then [u_error u] else [])).
Proof. apply make_local_call_served. Qed.

(** A service whose method answers with its request. *)
Definition echo_services : string → option rpc_service_wrapper := λ _,
  Some (Wrapper (Some (λ _, Some (λ r, [AGuard; ASetResponse r])))).

Lemma served_call_witness :
  sent_ (make_local_call echo_services 0 true (example_layer true)).2 =
    [set_response (Some [7]) (set_request None (set_call None (example_call true)))].
Proof.
  assert (H : stack_ok (thread_ (example_layer true))).
  { split; [done| |done]. intros a [c Hc]. cbn in Hc. by rewrite lookup_empty in Hc. }
  rewrite (served_call echo_services 0 true (example_layer true)
    (λ _, Some (λ r, [AGuard; ASetResponse r])) (λ r, [AGuard; ASetResponse r])
    [ASetResponse [7]] (hd_set_res [7] (called_holder 0 true)) H eq_refl eq_refl);
    [reflexivity|reflexivity|reflexivity|reflexivity|by right|reflexivity].
Defined.

(** C22 (functional).  One call over its own slot: the request is sent; the answer
    reaches the caller whether it comes before or while the caller waits; silence
    is reported as a timeout and the closing or cancelling of the slot as a
    cancellation; and once the slot is erased a late answer finds nobody. *)
Theorem slot_call id req ans mess l :
  ready_ l = true → slot_exists id l = false →
  let l1 := (call_rpc_method_slot id req l).2 in
  let wait others l := (read_slot_for id mess others l).1 in
  (call_rpc_method_slot id req l).1 = Ok tt ∧ sent_ l1 = sent_ l ++ [req] ∧
  wait (ret tt) (push_rpc_message id ans l1).2 = Ok ans ∧
  wait (write_queue_if_exists id ans ;;; ret tt) l1 = Ok ans ∧
  wait (ret tt) l1 = Ok (set_error_code ERR_TIMEOUT mess) ∧
  wait (cancel id) l1 = Ok (set_error_code ERR_CANCELED mess) ∧
  wait (erase_queue id) l1 = Ok (set_error_code ERR_CANCELED mess) ∧
  (let l2 := (erase_slot id l1).2 in
   (push_rpc_message id ans l2).1 = Ok false ∧ slot_exists id l2 = false).
Proof.
  intros Hr Hs l1 wait. unfold slot_exists, queue_exists in *.
  apply bool_decide_eq_false, eq_None_not_Some in Hs.
  set (a := next_ (rpc_queue_ l)).
  assert (Hl1 : call_rpc_method_slot id req l = (Ok tt, l1) ∧ sent_ l1 = sent_ l ++ [req] ∧
    store_ (rpc_queue_ l1) !! id = Some a ∧ value_of (rpc_queue_ l1) a = hold_new).
  { unfold l1, call_rpc_method_slot, bind, get. rewrite Hr. unfold on_rpc_queue, add_queue. rewrite Hs.
    cbn. rewrite lookup_insert_eq. unfold value_of. cbn. rewrite lookup_insert_eq. done. }
  destruct Hl1 as (-> & Hsent & Ha & Hv). clearbody l1 a. clear Hr Hs.
  assert (Hst : ∀ h, store_ (set_value a h (rpc_queue_ l1)) !! id = Some a) by done.
  split_and!; [done|done| | | | | | |].
  - apply (read_slot_ready id mess _ _ a ans []); unfold push_rpc_message, on_rpc_queue,
      write_queue_if_exists, value_by_key; rewrite Ha; cbn; [done|].
    by rewrite hdata_push, Hv, decide_True.
  - eapply (eq_trans (y := Ok (outcome mess _))).
    + apply (read_slot_waits id mess _ _ a); [done|by rewrite Hv|].
      unfold bind, write_queue_if_exists, value_by_key. by rewrite Hst.
    + unfold push_value_data. rewrite !value_of_set. done.
  - eapply (eq_trans (y := Ok (outcome mess _)));
      [apply (read_slot_waits id mess _ _ a); [done|by rewrite Hv|reflexivity]|].
    by rewrite value_of_set.
  - eapply (eq_trans (y := Ok (outcome mess _))).
    + apply (read_slot_waits id mess _ _ a); [done|by rewrite Hv|].
      unfold cancel, bind, value_at_key. by rewrite Hst.
    + unfold cancel_value. rewrite !value_of_set. done.
  - eapply (eq_trans (y := Ok (outcome mess _))).
    + apply (read_slot_waits id mess _ _ a); [done|by rewrite Hv|].
      unfold erase_queue. by rewrite Hst.
    + unfold cancel_value, value_of. cbn. by rewrite !lookup_insert_eq.
  - unfold push_rpc_message, erase_slot, on_rpc_queue, erase_queue. rewrite Ha. cbn.
    unfold write_queue_if_exists, value_by_key. cbn. by rewrite lookup_delete_eq.
  - unfold erase_slot, on_rpc_queue, erase_queue. rewrite Ha. cbn. rewrite lookup_delete_eq.
    by rewrite bool_decide_eq_false, <-eq_None_not_Some.
Qed.

Lemma slot_call_witness :
  (read_slot_for 103 unit_empty (write_queue_if_exists 103 (example_call true) ;;; ret tt)
     (call_rpc_method_slot 103 unit_empty
        (with_ready true (layer_new true default_session_options))).2).1 = Ok (example_call true).
Proof.
  apply (slot_call 103 unit_empty (example_call true) unit_empty
           (with_ready true (layer_new true default_session_options))); reflexivity.
Defined.

(** A transport error ends every open call: whoever waits on an empty
    slot gets the system error, and new calls are refused with [ERR_COMM] without
    changing anything. *)
Theorem transport_error id id' a req mess value add l :
  cq_wf (rpc_queue_ l) → store_ (rpc_queue_ l) !! id = Some a →
  hdata_ (value_of (rpc_queue_ l) a) = [] →
  let l' := (on_system_error value add l).2 in
  (read_slot_for id mess (ret tt) l').1 =
    Ok (set_error (Some (Container (Some value) (Some CATEGORY_SYSTEM) (Some true) (Some add)))
          unit_empty) ∧
  call_rpc_method_slot id' req l' = (Raise (EVtrc ERR_COMM CATEGORY_INTERNAL ""), l') ∧
  call_rpc_method req l' = (Raise (EVtrc ERR_COMM CATEGORY_INTERNAL ""), l').
Proof.
  intros Hwf Ha Hd l'. split_and!; [|done|done].
  set (err := set_error _ unit_empty).
  assert (Hq : rpc_queue_ l' = push_each (addresses (rpc_queue_ l)) err (rpc_queue_ l)) by reflexivity.
  apply (read_slot_ready id mess _ l' a _ []); rewrite Hq.
  - by rewrite push_each_store.
  - by rewrite (write_all_value _ _ id a) by done; rewrite Hd.
Qed.

Lemma transport_error_witness :
  let l := (call_rpc_method_slot 103 unit_empty
              (with_ready true (layer_new true default_session_options))).2 in
  ∃ e, (read_slot_for 103 unit_empty (ret tt) (on_system_error 32 "Transport read error." l).2).1 = Ok e.
Proof.
  intros l. eexists.
  apply (transport_error 103 105 0 unit_empty unit_empty 32 "Transport read error." l);
    [|reflexivity|reflexivity].
  apply (add_queue_wf 103 condition_queues_new), system_init_inv.
Defined.

(** [n] calls numbered by one side. *)
Fixpoint indices (n : nat) (l : layer) : list Z :=
  match n with
  | O => []
  | S n => match next_index l with
           | (Ok i, l') => i :: indices n l'
           | (Raise _, _) => []
           end
  end.

Lemma indices_values n l :
  indices n l = (λ k, u64 (rpc_index_ l + 2 * Z.of_nat (S k))) <$> seq 0 n.
Proof.
  revert l. induction n as [|n IH]; intros l; [done|]. cbn [indices next_index]. rewrite IH.
  cbn [seq fmap list_fmap]. f_equal. rewrite <-fmap_S_seq, <-list_fmap_compose.
  apply list_fmap_ext. intros _ k _. cbn [compose rpc_index_ with_rpc_index].
  rewrite wrap_add_l. f_equal. lia.
Qed.

Lemma wrap_even w z : 0 < w → (wrap w z) mod 2 = z mod 2.
Proof.
  intros Hw. unfold wrap. pose proof (Z.div_mod z (2 ^ w) ltac:(lia)) as Hz.
  replace (2 ^ w) with (2 * 2 ^ (w - 1)) in * by (rewrite <-Z.pow_succ_r by lia; f_equal; lia).
  rewrite Hz at 2. rewrite <-Z.mul_assoc, Z.add_comm, (Z.mul_comm 2 (_ * _)).
  by rewrite Z_mod_plus_full.
Qed.

(**  The numbers of calls do not clash: a client uses odd numbers
    and a server even ones, and within [2^63] calls no side uses one twice. *)
Theorem call_numbers n l :
  0 ≤ rpc_index_ l → Z.of_nat n ≤ 2 ^ 63 →
  NoDup (indices n l) ∧ Forall (λ i, i mod 2 = rpc_index_ l mod 2) (indices n l).
Proof.
  intros H0 Hn. rewrite indices_values. split.
  - apply NoDup_fmap_2_strong; [|apply NoDup_seq]. intros x y Hx Hy Heq.
    apply elem_of_seq in Hx, Hy. unfold wrap in Heq.
    assert (H : (2 * (Z.of_nat x - Z.of_nat y)) mod 2 ^ 64 = 0).
    { replace (2 * (Z.of_nat x - Z.of_nat y)) with
        ((rpc_index_ l + 2 * Z.of_nat (S x)) - (rpc_index_ l + 2 * Z.of_nat (S y))) by lia.
      rewrite Zminus_mod, Heq, Z.sub_diag. done. }
    apply Z.mod_divide in H as [k Hk]; [|done]. lia.
  - apply Forall_fmap, Forall_forall. intros k _. cbn. rewrite wrap_even by lia.
    by rewrite Z.mul_comm, Z_mod_plus_full.
Qed.

Lemma call_numbers_witness :
  indices 3 (layer_new true default_session_options) = [103; 105; 107] ∧
  NoDup (indices 3 (layer_new true default_session_options)).
Proof.
  split; [reflexivity|].
  apply (call_numbers 3 (layer_new true default_session_options)); simpl; lia.
Defined.
