(* ===== verification/ServerLayer.v ===== *)
(** * ServerLayer: the server side of the protocol

    [lib/vtrc/server/protocol-layer-s.cpp] ([protocol_layer_s::impl]) on top of
    [common::protocol_layer], with the parts of [server/application.cpp] it uses.
    Messages that are complete are popped and dispatched: calls are handed to the
    RPC pool as long as fewer than [max_active_calls] are active, answers go to
    the slot that waits for them, insertions to the slot they target.

    [executing_] is what was posted to the pool and did not start yet; tasks may
    start in any order.  The callback of a call decrements [current_calls_], so
    that an operation of the base class is followed by the decrements for the
    callbacks it ran ([on_base]). *)

From S2P Require Import Prelude DataQueue Hash Transformer Messages LowLevel CondQueues CallContext ProtocolLayer.

(** ** State *)

Record protocol_layer_s : Type := Server {
  base_ : layer;
  ll_processor_ : default_protocol;
  services_ : gmap string rpc_service_wrapper;
  client_id_ : string;
  current_calls_ : Z;
  closed_ : bool;
  conn_closed_ : bool;
  executing_ : list nat
}.

Definition with_base (l : layer) (s : protocol_layer_s) : protocol_layer_s :=
  Server l (ll_processor_ s) (services_ s) (client_id_ s) (current_calls_ s) (closed_ s)
    (conn_closed_ s) (executing_ s).
Definition with_ll (p : default_protocol) (s : protocol_layer_s) : protocol_layer_s :=
  Server (base_ s) p (services_ s) (client_id_ s) (current_calls_ s) (closed_ s)
    (conn_closed_ s) (executing_ s).
Definition with_services (m : gmap string rpc_service_wrapper) (s : protocol_layer_s) : protocol_layer_s :=
  Server (base_ s) (ll_processor_ s) m (client_id_ s) (current_calls_ s) (closed_ s)
    (conn_closed_ s) (executing_ s).
Definition with_current (n : Z) (s : protocol_layer_s) : protocol_layer_s :=
  Server (base_ s) (ll_processor_ s) (services_ s) (client_id_ s) n (closed_ s)
    (conn_closed_ s) (executing_ s).
Definition with_closed (b : bool) (s : protocol_layer_s) : protocol_layer_s :=
  Server (base_ s) (ll_processor_ s) (services_ s) (client_id_ s) (current_calls_ s) b
    (conn_closed_ s) (executing_ s).
Definition with_conn_closed (b : bool) (s : protocol_layer_s) : protocol_layer_s :=
  Server (base_ s) (ll_processor_ s) (services_ s) (client_id_ s) (current_calls_ s) (closed_ s)
    b (executing_ s).
Definition with_executing (e : list nat) (s : protocol_layer_s) : protocol_layer_s :=
  Server (base_ s) (ll_processor_ s) (services_ s) (client_id_ s) (current_calls_ s) (closed_ s)
    (conn_closed_ s) e.
Definition set_client_id (id : string) (s : protocol_layer_s) : protocol_layer_s :=
  Server (base_ s) (ll_processor_ s) (services_ s) id (current_calls_ s) (closed_ s)
    (conn_closed_ s) (executing_ s).

#[export] Instance server_protocol : HasProtocol protocol_layer_s := {|
  protocol := ll_processor_;
  set_protocol := with_ll
|}.

(** ** Operations of the base class *)

(** [--current_calls_], an atomic unsigned *)
Definition call_done (s : protocol_layer_s) : protocol_layer_s :=
  with_current (u32 (current_calls_ s - 1)) s.

Definition on_base {A} (m : M layer A) : M protocol_layer_s A := λ s,
  let '(r, l) := m (base_ s) in
  (r, Nat.iter (length (dones_ l) - length (dones_ (base_ s))) call_done (with_base l s)).

Definition configure_session (opts : session_options) : M protocol_layer_s unit :=
  modify (λ s, with_ll (configure opts (ll_processor_ s)) (with_base (with_session opts (base_ s)) s)).
Definition set_lowlevel (ll : default_protocol) : M protocol_layer_s unit :=
  modify (λ s, with_ll (configure (session_opts_ (base_ s)) ll) s).
Definition parse_and_pop `{Codec lowlevel_unit} : M protocol_layer_s (option lowlevel_unit) :=
  on_protocol pop_proto_message.
Definition ready_messages_count (s : protocol_layer_s) : Z := protocol_queue_size (ll_processor_ s).
Definition message_queue_empty (s : protocol_layer_s) : bool :=
  protocol_queue_size (ll_processor_ s) =? 0.

(** ** Helpers of the file *)

Definition alone_callback (llu : lowlevel_unit) : bool :=
  negb (Z.land (u_message_flags llu) FLAG_CALLBACK_ALONE =? 0).

Definition fill_error (code : Z) (message : string) (fatal : bool) (llu : lowlevel_unit) : lowlevel_unit :=
  let e := u_error llu in
  set_error (Some (Container (Some code) (c_category e) (Some fatal) (Some message))) llu.

Section Server.
Context `{Codec lowlevel_unit}.
(** The factory assigned to the application; a service is its table of methods. *)
Context (factory_ : string → option (string → option method_impl)).

(** ** application *)

Definition app_get_service_by_name (name : string) : option rpc_service_wrapper :=
  match factory_ name with
  | Some svc => Some (Wrapper (Some svc))
  | None => None
  end.

(** ** Services *)

Definition get_service (name : string) : M protocol_layer_s (option rpc_service_wrapper) := λ s,
  match services_ s !! name with
  | Some f => (Ok (Some f), s)
  | None =>
      match app_get_service_by_name name with
      | Some r => (Ok (Some r), with_services (<[name := r]> (services_ s)) s)
      | None => (Ok None, s)
      end
  end.
Definition drop_service (name : string) : M protocol_layer_s unit :=
  modify (λ s, with_services (delete name (services_ s)) s).
Definition drop_all_services : M protocol_layer_s unit := modify (with_services ∅).

Definition get_pop_message : M protocol_layer_s (option lowlevel_unit) :=
  let* check := parse_and_pop in
  (match check with
   | None => modify (with_conn_closed true)
   | Some _ => ret tt
   end) ;;;
  ret check.

(** ** Calls *)

(** Whether the call gets as far as asking for its service. *)
Definition asks_service (l : layer) : bool :=
  negb (default 0 (so_max_stack_size (session_opts_ l)) <?
        blen (default [] (s_call_context (thread_ l))) + 1).

(** A task of the pool: [make_local_call( llu, call_done )]. *)
Definition push_call (llu : nat) : M protocol_layer_s unit :=
  let* s := get in
  let* svc := if asks_service (base_ s) then get_service (u_service_id (unit_at (base_ s) llu))
              else ret None in
  on_base (make_local_call (λ _, svc) llu true).

Definition send_busy (llu : nat) : M protocol_layer_s unit :=
  let* s := get in
  if uo_wait' (u_opt (unit_at (base_ s) llu)) then
    on_base (unit_modify llu (λ u,
      set_error_code ERR_BUSY (set_response None (set_request None (set_call None u))))) ;;;
    let* s := get in
    on_base (call_rpc_method (unit_at (base_ s) llu))
  else ret tt.

Definition max_calls (s : protocol_layer_s) : Z :=
  default 0 (so_max_active_calls (session_opts_ (base_ s))).

Definition process_call (llu : nat) : M protocol_layer_s unit :=
  modify (λ s, with_current (u32 (current_calls_ s + 1)) s) ;;;
  let* s := get in
  if current_calls_ s <=? max_calls s then
    modify (λ s, with_executing (executing_ s ++ [llu]) s)
  else
    send_busy llu ;;;
    modify (λ s, with_current (u32 (current_calls_ s - 1)) s).

Definition process_answer (llu : nat) : M protocol_layer_s unit :=
  let* s := get in
  let u := unit_at (base_ s) llu in
  on_base (push_rpc_message (u_id u) u) ;;; ret tt.

Definition process_insertion (llu : nat) : M protocol_layer_s unit :=
  let* s := get in
  let u := unit_at (base_ s) llu in
  let* pushed := on_base (push_rpc_message (u_target_id u) u) in
  if pushed then ret tt
  else if alone_callback u then process_call llu
  else if uo_wait' (u_opt u) then
    on_base (unit_modify llu (λ u,
      fill_error ERR_CONTEXT "Context was not found." false
        (set_opt None (set_call None (set_response None (set_request None u)))))) ;;;
    let* s := get in
    on_base (call_rpc_method (unit_at (base_ s) llu))
  else ret tt.

(** The [switch] of [on_rcp_call_ready]. *)
Definition process_message (llu : nat) : M protocol_layer_s unit :=
  let* s := get in
  let t := u_message_type (unit_at (base_ s) llu) in
  if t =? MESSAGE_CLIENT_CALL then process_call llu
  else if t =? MESSAGE_CLIENT_CALLBACK then process_insertion llu
  else if (t =? MESSAGE_SERVER_CALL) || (t =? MESSAGE_SERVER_CALLBACK) then process_answer llu
  else ret tt.

(** A message that was popped becomes a shared object. *)
Definition receive (u : lowlevel_unit) : M protocol_layer_s unit :=
  let* llu := on_base (unit_new u) in
  process_message llu.

(** One turn of the loop: whether to go on. *)
Definition process_next : M protocol_layer_s bool :=
  let* m := get_pop_message in
  match m with
  | None => ret false
  | Some u => receive u ;;; ret true
  end.

Fixpoint on_rcp_call_ready_loop (fuel : nat) : M protocol_layer_s unit :=
  let* s := get in
  if message_queue_empty s then ret tt
  else match fuel with
       | O => ret tt
       | S fuel =>
           let* go := process_next in
           if go then on_rcp_call_ready_loop fuel else ret tt
       end.
(** Every turn takes a message from the queue. *)
Definition on_rcp_call_ready : M protocol_layer_s unit := λ s,
  on_rcp_call_ready_loop (length (packed_ (queue_ (ll_processor_ s)))) s.

(** [message_ready( )] and [data_ready_( )] *)
Definition message_ready : M protocol_layer_s unit :=
  let* s := get in
  if connection_ (base_ s) then on_rcp_call_ready else ret tt.

Definition close : M protocol_layer_s unit :=
  on_base cancel_all_slots ;;;
  modify (with_closed true).

(** ** What happens to a server

    Bytes arrive or are consumed, a message is popped and dispatched, the
    connection is closed because of a bad one, a task of the pool runs, a service
    runs a closure it kept, services are dropped, the layer is closed. *)
Inductive step : protocol_layer_s → protocol_layer_s → Prop :=
  | step_data s p : step s (with_ll p s)
  | step_message s u : step s (receive u s).2
  | step_bad s : step s (with_conn_closed true s)
  | step_task s i a :
      executing_ s !! i = Some a →
      step s (push_call a (with_executing (delete i (executing_ s)) s)).2
  | step_closure s a b : step s (on_base (closure_runner a b) s).2
  | step_drop s name : step s (drop_service name s).2
  | step_drop_all s : step s (drop_all_services s).2
  | step_close s : step s (close s).2.
End Server.

Definition server_new (opts : session_options) : protocol_layer_s :=
  Server (layer_new false opts) default_protocol_new ∅ "" 0 false false [].

(** ** Lemmas *)

(** *** Calls that are not finished

    The callbacks that were called and those that still may be. *)

Definition unfinished (m : gmap nat closure_holder_type) : nat :=
  base.size (filter (λ p, hd_internal p.2 = true) m).
Definition potential (l : layer) : nat := (length (dones_ l) + unfinished (holders_ l))%nat.

Lemma unfinished_insert a h m :
  unfinished (<[a := h]> m) = ((if hd_internal h then 1 else 0) + unfinished (delete a m))%nat.
Proof.
  unfold unfinished. rewrite <-insert_delete_eq, map_filter_insert.
  destruct (decide _) as [Hi|Hi]; cbn in Hi.
  - rewrite Hi, map_size_insert_None; [done|].
    apply map_lookup_filter_None. left. apply lookup_delete_eq.
  - rewrite delete_delete_eq. destruct (hd_internal h); done.
Qed.

Lemma unfinished_lookup a h m :
  m !! a = Some h → unfinished m = ((if hd_internal h then 1 else 0) + unfinished (delete a m))%nat.
Proof. intros Ha. rewrite <-unfinished_insert. by rewrite insert_id. Qed.

Lemma unfinished_modify a h h' m :
  m !! a = Some h → hd_internal h' = hd_internal h → unfinished (<[a := h']> m) = unfinished m.
Proof. intros Ha Hi. by rewrite unfinished_insert, (unfinished_lookup a h m Ha), Hi. Qed.

Lemma potential_modify a f n :
  (∀ h, hd_local (f h) = hd_local h ∧ hd_internal (f h) = hd_internal h) →
  keeps (λ l, potential l ≤ n)%nat (holder_modify a f).
Proof.
  intros Hf l Hl. unfold holder_modify, bind, holder_at.
  destruct (holders_ l !! a) as [h|] eqn:Hh; [|done]. unfold potential in *. cbn.
  by rewrite (unfinished_modify a h) by (done || apply Hf).
Qed.

Lemma potential_release a n : keeps (λ l, potential l ≤ n)%nat (holder_release a).
Proof.
  intros l Hl. unfold holder_release, bind, holder_at.
  destruct (holders_ l !! a) as [h|] eqn:Hh; [|done]. step_if; [|done].
  unfold call_internal, modify, potential in *. cbn.
  rewrite (unfinished_lookup a h _ Hh) in Hl. destruct (hd_internal h); cbn.
  - destruct (hd_connected h && connection_ l); cbn; rewrite ?length_app; cbn; lia.
  - lia.
Qed.

Lemma potential_closure_runner a b n : keeps (λ l, potential l ≤ n)%nat (closure_runner a b).
Proof. apply frame_closure_runner; [done..|intros f; apply potential_modify|apply potential_release]. Qed.

(** The call while its frame is alive. *)
Definition running (a : nat) (dn : bool) (d : list container) (n : nat) (l : layer) : Prop :=
  held a dn d l ∧ (potential l ≤ n)%nat.

Lemma running_impl gs llu a dn d n : keeps (running a dn d n) (make_local_call_impl gs llu a).
Proof.
  intros l [Hh Hp]. split.
  - apply frame_make_local_call_impl; [done..|apply held_modify|apply held_release|done].
  - apply (frame_make_local_call_impl a (λ l, potential l ≤ n)%nat);
      [done..|intros f; apply potential_modify|apply potential_release|done].
Qed.

Lemma running_unit a dn d n u f : keeps (running a dn d n) (unit_modify u f).
Proof. by apply keeps_modify. Qed.

Lemma potential_make_local_call gs llu dn l :
  holders_ l !! holder_fresh_ l = None →
  (potential (make_local_call gs llu dn l).2 ≤ potential l + if dn then 1 else 0)%nat.
Proof.
  intros Hfresh. set (a := holder_fresh_ l) in *. set (n := (potential l + if dn then 1 else 0)%nat).
  set (h0 := Holder false llu [] controller_new dn false true).
  set (l1 := with_holders (<[a := h0]> (holders_ l)) (S a) l).
  assert (H1 : running a dn (dones_ l) n l1).
  { split; [split; [done|]; eexists; split; [apply lookup_insert_eq|done]|].
    unfold potential, n, l1. cbn. rewrite unfinished_insert, delete_id by done.
    unfold potential. cbn. lia. }
  unfold make_local_call. erewrite bind_ok by reflexivity. fold a h0 l1. clearbody l1. unfold bind at 1.
  match goal with |- context [try_catch ?m ?h l1] => set (m0 := m); set (k0 := h) end.
  assert (H2 : running a dn (dones_ l) n (try_catch m0 k0 l1).2).
  { unfold try_catch.
    assert (Hm : keeps (running a dn (dones_ l) n) m0)
      by (apply keeps_bind; [apply running_impl|intros; apply keeps_ret]).
    assert (Hk : ∀ e, keeps (running a dn (dones_ l) n) (k0 e)).
    { intros e. repeat (apply keeps_bind; [apply running_unit|intros _]). apply keeps_ret. }
    specialize (Hm l1 H1). destruct (m0 l1) as [[x|e] l2]; [done|]. cbn [snd] in Hm.
    destruct e; try by apply Hk. done. }
  clearbody m0 k0.
  destruct (try_catch m0 k0 l1) as [[failed|e] l2]; cbn [snd] in H2; [|apply H2].
  erewrite bind_ok by reflexivity. destruct H2 as [[Hd (h & Hh & Hloc & Hi)] Hp].
  match goal with |- context [bind ?m ?k l2] => set (m1 := m); set (k1 := k) end.
  assert (H3 : ∃ l3, m1 l2 = (Ok tt, l3) ∧ (potential l3 ≤ n)%nat ∧ is_Some (holders_ l3 !! a)).
  { unfold m1. step_if; [|by eexists; split; [done|]]. unfold bind, send_message, modify at 1. cbn.
    erewrite holder_modify_ok by exact Hh. unfold potential in Hp.
    rewrite (unfinished_lookup a h _ Hh), Hi in Hp.
    destruct dn; eexists; (split; [done|]); cbn; rewrite lookup_insert_eq;
      (split; [|done]); unfold potential; cbn; rewrite unfinished_insert, ?length_app; cbn; lia. }
  destruct H3 as (l3 & H3 & Hp3 & h3 & Hh3). rewrite (bind_ok _ _ _ _ _ H3). unfold k1.
  erewrite bind_ok by (apply holder_modify_ok; exact Hh3). apply potential_release.
  unfold potential in *. cbn. by rewrite (unfinished_modify a h3).
Qed.

(** *** Addresses of holders are handed out once *)

Definition holders_fresh (l : layer) : Prop :=
  ∀ a, is_Some (holders_ l !! a) → (a < holder_fresh_ l)%nat.

Lemma holders_fresh_none l : holders_fresh l → holders_ l !! holder_fresh_ l = None.
Proof.
  intros H. destruct (holders_ l !! holder_fresh_ l) eqn:E; [|done].
  specialize (H _ (mk_is_Some _ _ E)). lia.
Qed.

Lemma fresh_modify a f : keeps holders_fresh (holder_modify a f).
Proof.
  intros l Hl. unfold holder_modify, bind, holder_at.
  destruct (holders_ l !! a) as [h|] eqn:Hh; [|done]. intros b. cbn.
  destruct (decide (a = b)) as [->|Hne]; [intros _; apply Hl; by eexists|].
  rewrite lookup_insert_ne by done. apply Hl.
Qed.

Lemma fresh_release a : keeps holders_fresh (holder_release a).
Proof.
  intros l Hl. unfold holder_release, bind, holder_at.
  destruct (holders_ l !! a) as [h|] eqn:Hh; [|done]. step_if; [|done].
  unfold call_internal, modify. cbn. intros b [h' Hb]. cbn in *.
  assert (He : holders_ (if hd_internal h && (hd_connected h && connection_ l)
    then with_dones (dones_ l ++ [u_error (unit_at l (hd_llu h))]) l else l) = holders_ l)
    by by destruct (hd_internal h && _).
  rewrite He in Hb. apply lookup_delete_Some in Hb as [_ Hb].
  destruct (hd_internal h && _); apply Hl; by eexists.
Qed.

Lemma fresh_closure_runner a b : keeps holders_fresh (closure_runner a b).
Proof. apply frame_closure_runner; [done..|intros f _; apply fresh_modify|apply fresh_release]. Qed.

Lemma fresh_make_local_call gs llu dn : keeps holders_fresh (make_local_call gs llu dn).
Proof.
  intros l Hl. unfold make_local_call.
  match goal with |- context [bind ?m ?k l] => set (k0 := k) end.
  erewrite bind_ok by reflexivity. set (l1 := with_holders _ _ _).
  assert (H1 : holders_fresh l1).
  { intros b. cbn. destruct (decide (holder_fresh_ l = b)) as [<-|Hne]; [lia|].
    rewrite lookup_insert_ne by done. intros Hb. specialize (Hl b Hb). lia. }
  revert l1 H1. cut (∀ a, keeps holders_fresh (k0 a)); [intros H l1 H1; by apply H|].
  intros a. unfold k0. apply keeps_bind.
  { assert (Hu : ∀ u f, keeps holders_fresh (unit_modify u f)) by (intros; by apply keeps_modify).
    intros l1 H1. unfold try_catch.
    assert (Hm : keeps holders_fresh (make_local_call_impl gs llu a ;;; ret false)).
    { apply keeps_bind; [|intros; apply keeps_ret]. apply frame_make_local_call_impl;
        [done..|intros f _; apply fresh_modify|apply fresh_release]. }
    specialize (Hm l1 H1). destruct (bind _ _ l1) as [[x|e] l2]; [done|]. cbn [snd] in Hm.
    destruct e; try done; repeat (apply keeps_bind; [apply Hu|intros _]); try apply keeps_ret; done. }
  intros failed. apply keeps_bind; [apply keeps_get|]. intros l0. apply keeps_bind.
  { apply keeps_if; [|apply keeps_ret]. apply keeps_bind; [by apply keeps_modify|intros _].
    apply keeps_bind; [apply fresh_modify|intros _]. apply keeps_if; [by apply keeps_modify|apply keeps_ret]. }
  intros _. apply keeps_bind; [apply fresh_modify|intros _; apply fresh_release].
Qed.

(** *** Fields that calls leave alone *)

Section CallFrame.
Context (I : layer → Prop).
Hypothesis I_thread : ∀ t l, I l → I (with_thread t l).
Hypothesis I_units : ∀ u n l, I l → I (with_units u n l).
Hypothesis I_sent : ∀ s l, I l → I (with_sent s l).
Hypothesis I_dones : ∀ d l, I l → I (with_dones d l).
Hypothesis I_holders : ∀ h n l, I l → I (with_holders h n l).

Lemma call_frame_modify a f : keeps I (holder_modify a f).
Proof.
  intros l Hl. unfold holder_modify, bind, holder_at. destruct (holders_ l !! a); [|done].
  by apply I_holders.
Qed.
Lemma call_frame_release a : keeps I (holder_release a).
Proof.
  intros l Hl. unfold holder_release, bind, holder_at. destruct (holders_ l !! a); [|done].
  step_if; [|done]. unfold call_internal, modify. apply I_holders. step_if; [by apply I_dones|done].
Qed.
Lemma call_frame_runner a b : keeps I (closure_runner a b).
Proof. apply frame_closure_runner; [done..|intros f _; apply call_frame_modify|apply call_frame_release]. Qed.

Lemma call_frame gs llu dn : keeps I (make_local_call gs llu dn).
Proof.
  unfold make_local_call. apply keeps_bind; [intros l Hl; by apply I_holders|]. intros a.
  apply keeps_bind.
  { assert (Hu : ∀ u f, keeps I (unit_modify u f)) by (intros; apply keeps_modify; intros; by apply I_units).
    intros l1 H1.
    match goal with |- context [try_catch _ ?h l1] => set (k0 := h) end.
    assert (Hk : ∀ e, keeps I (k0 e)).
    { intros e. repeat (apply keeps_bind; [apply Hu|intros _]). apply keeps_ret. }
    clearbody k0. unfold try_catch.
    assert (Hm : keeps I (make_local_call_impl gs llu a ;;; ret false)).
    { apply keeps_bind; [|intros; apply keeps_ret]. apply frame_make_local_call_impl;
        [done..|intros f _; apply call_frame_modify|apply call_frame_release]. }
    specialize (Hm l1 H1). destruct (bind _ _ l1) as [[x|e] l2]; [done|]. cbn [snd] in Hm.
    destruct e; done || by apply Hk. }
  intros failed. apply keeps_bind; [apply keeps_get|]. intros l0. apply keeps_bind.
  { apply keeps_if; [|apply keeps_ret].
    apply keeps_bind; [apply keeps_modify; intros; by apply I_sent|intros _].
    apply keeps_bind; [apply call_frame_modify|intros _].
    apply keeps_if; [apply keeps_modify; intros; by apply I_dones|apply keeps_ret]. }
  intros _. apply keeps_bind; [apply call_frame_modify|intros _; apply call_frame_release].
Qed.
End CallFrame.

Lemma call_session gs llu dn l :
  session_opts_ (make_local_call gs llu dn l).2 = session_opts_ l.
Proof. by apply (call_frame (λ k, session_opts_ k = session_opts_ l)). Qed.
Lemma runner_session a b l : session_opts_ (closure_runner a b l).2 = session_opts_ l.
Proof. by apply (call_frame_runner (λ k, session_opts_ k = session_opts_ l)). Qed.

(** *** The counter *)

(** What an operation of the base class does to the counter: [k] callbacks. *)
Lemma on_base_eq {A} (m : M layer A) s :
  (on_base m s).2 = Nat.iter (length (dones_ (m (base_ s)).2) - length (dones_ (base_ s))) call_done
                      (with_base (m (base_ s)).2 s).
Proof. unfold on_base. by destruct (m (base_ s)). Qed.

Lemma iter_call_done k s :
  Z.of_nat k ≤ current_calls_ s < 2 ^ 32 →
  Nat.iter k call_done s = with_current (current_calls_ s - Z.of_nat k) s.
Proof.
  induction k as [|k IH]; intros Hk.
  - destruct s. unfold with_current. cbn. by rewrite Z.sub_0_r.
  - change (Nat.iter (S k) call_done s) with (call_done (Nat.iter k call_done s)). rewrite IH by lia. unfold call_done, with_current. cbn.
    rewrite wrap_small; [f_equal; lia|]. unfold in_word. lia.
Qed.

(** [n] bounds the counter: it counts the steps made so far. *)
Record server_inv (n : Z) (s : protocol_layer_s) : Prop := {
  si_fresh : holders_fresh (base_ s);
  si_counted : blen (executing_ s) + Z.of_nat (unfinished (holders_ (base_ s))) ≤ current_calls_ s;
  si_bounded : blen (executing_ s) + Z.of_nat (unfinished (holders_ (base_ s))) ≤ max_calls s;
  si_small : current_calls_ s ≤ n
}.

Lemma server_inv_le n n' s : server_inv n s → n ≤ n' → server_inv n' s.
Proof. intros [] ?. split; [done..|lia]. Qed.

Lemma on_base_inv {A} (m : M layer A) s n d :
  n < 2 ^ 32 →
  holders_fresh (m (base_ s)).2 → session_opts_ (m (base_ s)).2 = session_opts_ (base_ s) →
  (length (dones_ (base_ s)) ≤ length (dones_ (m (base_ s)).2))%nat →
  (potential (m (base_ s)).2 ≤ potential (base_ s) + d)%nat →
  blen (executing_ s) + Z.of_nat (unfinished (holders_ (base_ s))) + Z.of_nat d ≤ current_calls_ s →
  blen (executing_ s) + Z.of_nat (unfinished (holders_ (base_ s))) + Z.of_nat d ≤ max_calls s →
  current_calls_ s ≤ n →
  server_inv n (on_base m s).2.
Proof.
  intros Hn Hf Ho Hd Hp Hc Hm Hs. rewrite on_base_eq. unfold potential in Hp.
  pose proof (blen_nonneg (executing_ s)).
  rewrite iter_call_done by (cbn; lia). split; cbn; [done|lia| |lia].
  unfold max_calls in *. cbn. rewrite Ho. lia.
Qed.

(** Operations of the base class that concern no call. *)
Definition plain {A} (m : M layer A) : Prop := ∀ l,
  dones_ (m l).2 = dones_ l ∧ holders_ (m l).2 = holders_ l ∧
  holder_fresh_ (m l).2 = holder_fresh_ l ∧ session_opts_ (m l).2 = session_opts_ l.

Lemma plain_same {A} (m : M layer A) s :
  plain m → (on_base m s).2 = with_base (m (base_ s)).2 s.
Proof. intros Hm. rewrite on_base_eq. destruct (Hm (base_ s)) as [-> _]. by rewrite Nat.sub_diag. Qed.

Lemma plain_queue {A} (m : M (condition_queues lowlevel_unit) A) : plain (on_rpc_queue m).
Proof. intros l. unfold on_rpc_queue. by destruct (m (rpc_queue_ l)). Qed.
Lemma plain_unit_modify u f : plain (unit_modify u f).
Proof. done. Qed.
Lemma plain_unit_new u : plain (unit_new u).
Proof. done. Qed.
Lemma plain_call u : plain (call_rpc_method u).
Proof. intros l. unfold call_rpc_method, bind, get. by destruct (ready_ l). Qed.
#[export] Hint Resolve plain_queue plain_unit_modify plain_unit_new plain_call : vtrc.

(** Operations of the server that change only the base class, and no call. *)
Definition same_calls (l' l : layer) : Prop :=
  dones_ l' = dones_ l ∧ holders_ l' = holders_ l ∧ holder_fresh_ l' = holder_fresh_ l ∧
  session_opts_ l' = session_opts_ l.
Definition harmless {A} (m : M protocol_layer_s A) : Prop := ∀ s,
  ∃ l', (m s).2 = with_base l' s ∧ same_calls l' (base_ s).

Lemma with_base_id s : with_base (base_ s) s = s.
Proof. by destruct s. Qed.

Lemma harmless_state {A} (m : M protocol_layer_s A) : (∀ s, (m s).2 = s) → harmless m.
Proof. intros Hm s. exists (base_ s). by rewrite Hm, with_base_id. Qed.
Lemma harmless_ret {A} (x : A) : harmless (ret x).
Proof. by apply harmless_state. Qed.
Lemma harmless_get : harmless get.
Proof. by apply harmless_state. Qed.
Lemma harmless_bind {A B} (m : M protocol_layer_s A) (k : A → M protocol_layer_s B) :
  harmless m → (∀ x, harmless (k x)) → harmless (bind m k).
Proof.
  intros Hm Hk s. unfold bind. destruct (Hm s) as (l1 & H1 & S1). destruct (m s) as [[x|e] s1].
  - cbn in H1. subst. destruct (Hk x (with_base l1 s)) as (l2 & H2 & S2).
    exists l2. split; [done|]. destruct S1 as (?&?&?&?), S2 as (?&?&?&?). cbn in *.
    split_and!; congruence.
  - by exists l1.
Qed.
Lemma harmless_if {A} (b : bool) (m k : M protocol_layer_s A) :
  harmless m → harmless k → harmless (if b then m else k).
Proof. by destruct b. Qed.
Lemma harmless_on_base {A} (m : M layer A) : plain m → harmless (on_base m).
Proof. intros Hm s. rewrite plain_same by done. eexists. split; [done|apply Hm]. Qed.

Lemma harmless_inv {A} (m : M protocol_layer_s A) n s :
  harmless m → server_inv n s → server_inv n (m s).2.
Proof.
  intros Hm [Hf Hc Hb Hs]. destruct (Hm s) as (l' & -> & _ & Hh & Hn & Ho).
  split; unfold max_calls, holders_fresh in *; cbn; rewrite ?Hh, ?Hn, ?Ho; done.
Qed.
#[export] Hint Resolve harmless_ret harmless_get harmless_if harmless_on_base : vtrc.

Ltac harmless := repeat first [apply harmless_bind; [|intros ?] | apply harmless_if]; eauto with vtrc.

Lemma harmless_send_busy llu : harmless (send_busy llu).
Proof. unfold send_busy. harmless. Qed.
Lemma harmless_process_answer llu : harmless (process_answer llu).
Proof. unfold process_answer. harmless. Qed.

Lemma process_call_inv llu n s :
  n + 1 < 2 ^ 32 → server_inv n s → server_inv (n + 1) (process_call llu s).2.
Proof.
  intros Hn [Hf Hc Hb Hs]. pose proof (blen_nonneg (executing_ s)).
  unfold process_call. erewrite bind_ok by reflexivity. erewrite bind_ok by reflexivity.
  rewrite wrap_small by (unfold in_word; lia).
  set (s1 := with_current (current_calls_ s + 1) s).
  destruct (current_calls_ s1 <=? max_calls s1) eqn:E; bool_props.
  - unfold max_calls, s1 in *. cbn in *. assert (H1 : blen [llu] = 1) by done.
    split; cbn; [done|rewrite blen_app; lia| |lia]. unfold max_calls. cbn. rewrite blen_app. lia.
  - destruct (harmless_send_busy llu s1) as (l' & H2 & _ & Hh & Hfr & Ho).
    unfold bind. destruct (send_busy llu s1) as [[x|e] s2]; cbn in H2; subst s2; unfold modify; cbn in *.
    + rewrite wrap_small by (unfold in_word; lia).
      split; unfold max_calls, holders_fresh in *; cbn; rewrite ?Hh, ?Hfr, ?Ho; lia || done.
    + split; unfold max_calls, holders_fresh in *; cbn; rewrite ?Hh, ?Hfr, ?Ho; lia || done.
Qed.

(** A bound that harmless operations keep and a call moves by one is moved by at
    most one by any message. *)
Section Dispatch.
Context (P : Z → protocol_layer_s → Prop).
Hypothesis P_le : ∀ n n' s, P n s → n ≤ n' → P n' s.
Hypothesis P_harmless : ∀ A (m : M protocol_layer_s A) n s, harmless m → P n s → P n (m s).2.
Hypothesis P_call : ∀ llu n s, n + 1 < 2 ^ 32 → P n s → P (n + 1) (process_call llu s).2.

Lemma dispatch_bind {A B} (m : M protocol_layer_s A) (k : A → M protocol_layer_s B) n n' s :
  P n (m s).2 → n ≤ n' → (∀ x s, P n s → P n' (k x s).2) → P n' (bind m k s).2.
Proof.
  intros Hm Hle Hk. unfold bind. destruct (m s) as [[x|e] s1]; [by apply Hk|by eapply P_le].
Qed.

Lemma dispatch_insertion llu n s : n + 1 < 2 ^ 32 → P n s → P (n + 1) (process_insertion llu s).2.
Proof.
  intros Hn Hs. unfold process_insertion. erewrite bind_ok by reflexivity.
  apply (dispatch_bind _ _ n); [by apply P_harmless, Hs; apply harmless_on_base, plain_queue|lia|].
  intros x s1 H1. destruct x; [apply (P_le n); [done|lia]|].
  destruct (alone_callback _); [by apply P_call|].
  apply (P_le n); [|lia]. apply P_harmless; [|done]. harmless.
Qed.

Lemma dispatch_message llu n s : n + 1 < 2 ^ 32 → P n s → P (n + 1) (process_message llu s).2.
Proof.
  intros Hn Hs. unfold process_message. erewrite bind_ok by reflexivity.
  step_if; [by apply P_call|]. step_if; [by apply dispatch_insertion|].
  apply (P_le n); [|lia]. apply P_harmless; [|done].
  apply harmless_if; [apply harmless_process_answer|apply harmless_ret].
Qed.

Lemma dispatch_receive u n s : n + 1 < 2 ^ 32 → P n s → P (n + 1) (receive u s).2.
Proof.
  intros Hn Hs. unfold receive. apply (dispatch_bind _ _ n); [|lia|].
  - by apply P_harmless, Hs; apply harmless_on_base.
  - intros a s1 H1. by apply dispatch_message.
Qed.

Lemma dispatch_close n s : (∀ s, P n s → P n (with_closed true s)) → P n s → P n (close s).2.
Proof.
  intros Hc Hs. unfold close. apply (dispatch_bind _ _ n); [|lia|by intros _].
  by apply P_harmless, Hs; apply harmless_on_base, plain_queue.
Qed.
End Dispatch.

Lemma receive_inv u n s : n + 1 < 2 ^ 32 → server_inv n s → server_inv (n + 1) (receive u s).2.
Proof.
  apply dispatch_receive; [intros *; apply server_inv_le|intros *; apply harmless_inv|
                           intros *; apply process_call_inv].
Qed.

Lemma with_ll_inv n p s : server_inv n s → server_inv n (with_ll p s).
Proof. by intros []. Qed.

Lemma get_service_frame fac name s :
  let s' := (get_service fac name s).2 in
  base_ s' = base_ s ∧ executing_ s' = executing_ s ∧ current_calls_ s' = current_calls_ s.
Proof.
  unfold get_service. destruct (services_ s !! name); [done|].
  by destruct (app_get_service_by_name fac name).
Qed.

Lemma length_delete {A} (l : list A) i x : l !! i = Some x → length l = S (length (delete i l)).
Proof. intros Hi. exact (Permutation_length (delete_Permutation l i x Hi)). Qed.

Lemma push_call_inv fac i a n s :
  n < 2 ^ 32 → executing_ s !! i = Some a → server_inv n s →
  server_inv n (push_call fac a (with_executing (delete i (executing_ s)) s)).2.
Proof.
  intros Hn Hi [Hf Hc Hb Hs]. set (s1 := with_executing _ s). unfold push_call.
  erewrite bind_ok by reflexivity. set (name := u_service_id _).
  assert (H2 : ∃ svc s2, (if asks_service (base_ s1) then get_service fac name else ret None) s1 =
    (Ok svc, s2) ∧ base_ s2 = base_ s1 ∧ executing_ s2 = executing_ s1 ∧
    current_calls_ s2 = current_calls_ s1).
  { destruct (asks_service (base_ s1)); [|by eexists _, _].
    destruct (get_service_frame fac name s1) as (? & ? & ?). unfold get_service in *.
    destruct (services_ s1 !! name); [by eexists _, _|].
    by destruct (app_get_service_by_name fac name); eexists _, _. }
  destruct H2 as (svc & s2 & H2 & Hbase & Hex & Hcur). rewrite (bind_ok _ _ _ _ _ H2).
  pose proof (length_delete _ _ _ Hi) as Hlen.
  assert (Hbl : blen (executing_ s) = blen (delete i (executing_ s)) + 1) by (unfold blen; lia).
  apply (on_base_inv _ _ _ 1); rewrite ?Hbase, ?Hex, ?Hcur; change (base_ s1) with (base_ s);
    change (executing_ s1) with (delete i (executing_ s));
    change (current_calls_ s1) with (current_calls_ s).
  - done.
  - by apply fresh_make_local_call.
  - apply call_session.
  - destruct (make_local_call_once (λ _, svc) a true (base_ s)) as [->|[[e ->] _]];
      rewrite ?length_app; lia.
  - by apply potential_make_local_call, holders_fresh_none.
  - lia.
  - unfold max_calls in *. rewrite Hbase. cbn. lia.
  - done.
Qed.

Lemma server_step_inv fac n s s' :
  n + 1 < 2 ^ 32 → server_inv n s → step fac s s' → server_inv (n + 1) s'.
Proof.
  intros Hn Hs Hst. destruct Hst as [s p|s u|s|s i a Hi|s a b|s name|s|s].
  - apply (server_inv_le n); [by apply with_ll_inv|lia].
  - by apply receive_inv.
  - apply (server_inv_le n); [by destruct Hs|lia].
  - apply (server_inv_le n); [|lia]. apply push_call_inv; [lia|done|done].
  - destruct Hs as [Hf Hc Hb Hs]. apply (on_base_inv _ _ _ 0); try (done || lia).
    + by apply fresh_closure_runner.
    + apply runner_session.
    + destruct (once_closure_runner a (dones_ (base_ s)) b (base_ s)) as [->|[[e ->] _]];
        [by left|done|rewrite length_app; lia].
    + rewrite Nat.add_0_r. by apply potential_closure_runner.
  - apply (server_inv_le n); [by destruct Hs|lia].
  - apply (server_inv_le n); [by destruct Hs|lia].
  - apply (server_inv_le n); [|lia]. apply dispatch_close; [intros *; apply server_inv_le|
      intros *; apply harmless_inv|by intros ? []|done].
Qed.

(** *** A server that has lost its calls *)

Record stuck (n : Z) (s : protocol_layer_s) : Prop := {
  st_fresh : holders_fresh (base_ s);
  st_idle : executing_ s = [];
  st_none : unfinished (holders_ (base_ s)) = 0%nat;
  st_full : 0 ≤ max_calls s ≤ current_calls_ s;
  st_small : current_calls_ s ≤ n
}.

Lemma stuck_le n n' s : stuck n s → n ≤ n' → stuck n' s.
Proof. intros [] ?. split; [done..|lia]. Qed.

Lemma stuck_harmless {A} (m : M protocol_layer_s A) n s : harmless m → stuck n s → stuck n (m s).2.
Proof.
  intros Hm [Hf Hi Hu Hc Hs]. destruct (Hm s) as (l' & -> & _ & Hh & Hn & Ho).
  split; unfold max_calls, holders_fresh in *; cbn; rewrite ?Hh, ?Hn, ?Ho; done.
Qed.

Lemma stuck_call llu n s : n + 1 < 2 ^ 32 → stuck n s → stuck (n + 1) (process_call llu s).2.
Proof.
  intros Hn [Hf Hi Hu Hc Hs].
  unfold process_call. erewrite bind_ok by reflexivity. erewrite bind_ok by reflexivity.
  rewrite wrap_small by (unfold in_word; lia).
  set (s1 := with_current (current_calls_ s + 1) s).
  destruct (current_calls_ s1 <=? max_calls s1) eqn:E; bool_props.
  { unfold max_calls, s1 in *. cbn in *. lia. }
  destruct (harmless_send_busy llu s1) as (l' & H2 & _ & Hh & Hfr & Ho).
  unfold bind. destruct (send_busy llu s1) as [[x|e] s2]; cbn in H2; subst s2; unfold modify; cbn in *;
    rewrite ?wrap_small by (unfold in_word; lia);
    split; unfold max_calls, holders_fresh in *; cbn; rewrite ?Hh, ?Hfr, ?Ho; lia || done.
Qed.

Lemma stuck_step fac n s s' : n + 1 < 2 ^ 32 → stuck n s → step fac s s' → stuck (n + 1) s'.
Proof.
  intros Hn Hs Hst. destruct Hst as [s p|s u|s|s i a Hi|s a b|s name|s|s].
  2: { apply dispatch_receive; [intros *; apply stuck_le|intros *; apply stuck_harmless|
         intros *; apply stuck_call|done|done]. }
  2: { apply (stuck_le n); [by destruct Hs|lia]. }
  2: { by rewrite (st_idle _ _ Hs) in Hi. }
  - apply (stuck_le n); [by destruct Hs|lia].
  - destruct Hs as [Hf Hi Hu Hc Hs].
    destruct (once_closure_runner a (dones_ (base_ s)) b (base_ s)) as [Hd|[[e Hd] _]]; [by left| |].
    2: { pose proof (potential_closure_runner a b _ (base_ s) (le_n _)) as Hp. cbv beta in Hp.
         unfold potential in Hp. rewrite Hd, length_app, Hu in Hp. cbn in Hp. lia. }
    pose proof (potential_closure_runner a b _ (base_ s) (le_n _)) as Hp. cbv beta in Hp.
    unfold potential in Hp. rewrite Hd, Hu in Hp.
    rewrite on_base_eq, Hd, Nat.sub_diag. cbn [Nat.iter nat_rect].
    pose proof (fresh_closure_runner a b _ Hf) as Hf'. pose proof (runner_session a b (base_ s)) as Ho.
    split; unfold max_calls in *; cbn [base_ with_base executing_ current_calls_];
      rewrite ?Ho; first [done|lia].
  - apply (stuck_le n); [by destruct Hs|lia].
  - apply (stuck_le n); [by destruct Hs|lia].
  - apply (stuck_le n); [|lia]. apply dispatch_close; [intros *; apply stuck_le|
      intros *; apply stuck_harmless|by intros ? []|done].
Qed.

Lemma stuck_steps fac k n s s' :
  n + Z.of_nat k < 2 ^ 32 → stuck n s → nsteps (step fac) k s s' → stuck (n + Z.of_nat k) s'.
Proof.
  intros Hn Hs Hst. revert n Hn Hs. induction Hst as [s|k s s1 s' H1 _ IH]; intros n Hn Hs.
  - apply (stuck_le n); [done|lia].
  - apply (stuck_le (n + 1 + Z.of_nat k)); [|lia]. apply IH; [lia|]. eapply stuck_step; [lia|done|done].
Qed.

(** A call that wants no answer, of a service nobody has. *)
Definition one_way_call : lowlevel_unit :=
  set_opt (Some (UnitOptions (Some false) (Some false) (Some false)))
    (set_message_type MESSAGE_CLIENT_CALL unit_empty).

Definition no_factory : string → option (string → option method_impl) := λ _, None.

Record losing (opts : session_options) (k : Z) (s : protocol_layer_s) : Prop := {
  lo_fresh : holders_fresh (base_ s);
  lo_idle : executing_ s = [];
  lo_none : unfinished (holders_ (base_ s)) = 0%nat;
  lo_thread : stack_ok (thread_ (base_ s));
  lo_session : session_opts_ (base_ s) = opts;
  lo_services : services_ s = ∅;
  lo_current : current_calls_ s = k
}.

Lemma on_base_plain {A} (m : M layer A) s :
  plain m → on_base m s = ((m (base_ s)).1, with_base (m (base_ s)).2 s).
Proof. intros Hm. rewrite <-plain_same by done. unfold on_base. by destruct (m (base_ s)). Qed.

(** A call below the limit is queued. *)
Lemma receive_call u s :
  u_message_type u = MESSAGE_CLIENT_CALL → 0 ≤ current_calls_ s → current_calls_ s + 1 < 2 ^ 32 →
  current_calls_ s + 1 ≤ max_calls s →
  receive u s = (Ok tt,
    with_executing (executing_ s ++ [unit_fresh_ (base_ s)])
      (with_current (current_calls_ s + 1) (with_base (unit_new u (base_ s)).2 s))).
Proof.
  intros Ht H0 H1 Hmax. unfold receive. rewrite (bind_ok _ _ _ _ _ (on_base_plain _ _ (plain_unit_new u))).
  unfold process_message. erewrite bind_ok by reflexivity.
  assert (Hu : unit_at (unit_new u (base_ s)).2 (unit_fresh_ (base_ s)) = u).
  { unfold unit_at, unit_new. cbn. by rewrite lookup_insert_eq. }
  cbn [base_ with_base]. rewrite Hu, Ht. change (MESSAGE_CLIENT_CALL =? MESSAGE_CLIENT_CALL) with true.
  cbv iota. unfold process_call. erewrite bind_ok by reflexivity. erewrite bind_ok by reflexivity.
  cbn [current_calls_ with_base]. rewrite wrap_small by (unfold in_word; lia).
  assert (Hle : (current_calls_ s + 1 <=? max_calls (with_current (current_calls_ s + 1)
    (with_base (unit_new u (base_ s)).2 s))) = true) by (apply Z.leb_le; apply Hmax).
  cbn [current_calls_ with_current]. by rewrite Hle.
Qed.

Lemma stack_ok_called l : stack_ok (thread_ l) → stack_ok (thread_ (called l)).
Proof.
  intros [Hc Hf Hn]. split; [done| |done]. intros a Ha. specialize (Hf a Ha). cbn. lia.
Qed.

Lemma lose_one opts k s :
  losing opts k s → 0 ≤ k → k + 1 < 2 ^ 32 → k + 1 ≤ default 0 (so_max_active_calls opts) →
  ∃ s', nsteps (step no_factory) 2 s s' ∧ losing opts (k + 1) s'.
Proof.
  intros [Hf Hi Hu Ht Ho Hsv Hk] H0 Hw Hm.
  set (a := unit_fresh_ (base_ s)). set (l1 := (unit_new one_way_call (base_ s)).2).
  set (s1 := with_executing [a] (with_current (k + 1) (with_base l1 s))).
  assert (H1 : (receive one_way_call s).2 = s1).
  { rewrite receive_call by (done || unfold max_calls; rewrite ?Ho, ?Hk; lia). by rewrite Hi, Hk. }
  assert (Hua : unit_at l1 a = one_way_call).
  { unfold unit_at, l1, unit_new. cbn. by rewrite lookup_insert_eq. }
  assert (Hr : ∃ e, refusal (λ _, None) l1 (unit_at l1 a) = Some e).
  { unfold refusal. cbn. step_if; eauto. }
  destruct Hr as [e Hr].
  pose proof (make_local_call_refused (λ _, None) a true l1 e Ht (holders_fresh_none _ Hf) Hr) as Hc.
  cbv zeta in Hc. rewrite Hua in Hc. change (uo_wait' (u_opt one_way_call)) with false in Hc.
  cbn [andb] in Hc. set (l2 := finished _ _ _ _ _) in Hc.
  assert (H2 : push_call no_factory a (with_executing [] s1) =
    (Ok tt, with_base l2 (with_executing [] s1))).
  { unfold push_call. erewrite bind_ok by reflexivity.
    assert (Hsvc : (if asks_service (base_ (with_executing [] s1))
      then get_service no_factory (u_service_id (unit_at (base_ (with_executing [] s1)) a))
      else ret None) (with_executing [] s1) = (Ok None, with_executing [] s1)).
    { destruct (asks_service _); [|done]. unfold get_service. cbn. by rewrite Hsv, lookup_empty. }
    rewrite (bind_ok _ _ _ _ _ Hsvc). unfold on_base. cbn [base_ with_executing s1 with_current with_base].
    rewrite Hc. cbn. by rewrite app_nil_r, Nat.sub_diag. }
  exists (with_base l2 (with_executing [] s1)). split.
  - apply nsteps_l with s1; [rewrite <-H1; apply step_message|].
    apply nsteps_l with (with_base l2 (with_executing [] s1)); [|apply nsteps_O].
    pose proof (step_task no_factory s1 0 a eq_refl) as Hst. cbn [s1 executing_ with_executing] in Hst.
    change (delete 0%nat [a]) with (@nil nat) in Hst. by rewrite H2 in Hst.
  - split; try done.
    + intros b Hb. specialize (Hf b Hb). cbn. lia.
    + by apply (stack_ok_called l1).
Qed.

Lemma lose_many opts k :
  Z.of_nat k < 2 ^ 32 → Z.of_nat k ≤ default 0 (so_max_active_calls opts) →
  ∃ s, nsteps (step no_factory) (k * 2) (server_new opts) s ∧ losing opts (Z.of_nat k) s.
Proof.
  induction k as [|k IH]; intros Hw Hm.
  - exists (server_new opts). split; [apply nsteps_O|]. split; try done.
    + intros a [h Hh]. cbn in Hh. by rewrite lookup_empty in Hh.
    + split; [done| |done]. intros a [c Hc]. cbn in Hc. by rewrite lookup_empty in Hc.
  - destruct IH as (s & Hs & Hl); [lia..|].
    destruct (lose_one opts (Z.of_nat k) s Hl) as (s' & Hs' & Hl'); [lia..|].
    exists s'. replace (Z.of_nat (S k)) with (Z.of_nat k + 1) by lia. split; [|done].
    replace (S k * 2)%nat with (k * 2 + 2)%nat by lia. by apply nsteps_trans with s.
Qed.

Lemma server_new_inv opts :
  0 ≤ default 0 (so_max_active_calls opts) → server_inv 0 (server_new opts).
Proof.
  intros Hm. split; try done. intros a [h Hh]. cbn in Hh. by rewrite lookup_empty in Hh.
Qed.

Lemma steps_inv fac k n s s' :
  n + Z.of_nat k < 2 ^ 32 → server_inv n s → nsteps (step fac) k s s' →
  server_inv (n + Z.of_nat k) s'.
Proof.
  intros Hn Hs Hst. revert n Hn Hs. induction Hst as [s|k s s1 s' H1 _ IH]; intros n Hn Hs.
  - apply (server_inv_le n); [done|lia].
  - apply (server_inv_le (n + 1 + Z.of_nat k)); [|lia]. apply IH; [lia|].
    eapply server_step_inv; [lia|done|done].
Qed.

(** *** The reading loop *)

(** Dispatch touches neither the protocol's queue nor the connection. *)
Definition apart (p : default_protocol) (c : bool) (s : protocol_layer_s) : Prop :=
  ll_processor_ s = p ∧ conn_closed_ s = c.

Lemma apart_on_base {A} p c (m : M layer A) : keeps (apart p c) (on_base m).
Proof.
  intros s Hs. rewrite on_base_eq. set (k := (_ - _)%nat). clearbody k.
  induction k as [|k IH]; [done|]. exact IH.
Qed.

Lemma apart_receive p c u : keeps (apart p c) (receive u).
Proof.
  assert (Hcall : ∀ llu, keeps (apart p c) (process_call llu)).
  { intros llu. unfold process_call, send_busy.
    repeat first [apply keeps_bind; [|intros ?]|apply keeps_if|apply apart_on_base
                 |apply keeps_get|apply keeps_ret|by apply keeps_modify]. }
  unfold receive, process_message, process_insertion, process_answer.
  repeat first [apply keeps_bind; [|intros ?]|apply Hcall|apply keeps_if|apply apart_on_base
               |apply keeps_get|apply keeps_ret].
Qed.

Lemma pop_shrinks `{Codec lowlevel_unit} p r p' :
  pop_proto_message p = (Ok r, p') →
  length (packed_ (queue_ p)) = S (length (packed_ (queue_ p'))).
Proof.
  unfold pop_proto_message, bind, on_queue, front, pop_front, get, modify, ret, check_message, deref.
  destruct (packed_ (queue_ p)) as [|x ms] eqn:Hp; [done|]. cbn.
  destruct (transform (revertor_ p) x) as [[y t]|]; [|done]. cbn.
  destruct (hash_checker_ p) as [h|] eqn:Hh; [|done]. cbn.
  destruct (Hash.size h <=? blen y); cbn.
  - destruct (check_data_hash h _ y) as [b|]; [|done]. cbn. rewrite Hh. cbn. rewrite Hp.
    by intros [= _ <-].
  - rewrite Hh. cbn. rewrite Hp. by intros [= _ <-].
Qed.

Lemma get_pop_message_eq `{Codec lowlevel_unit} s :
  get_pop_message s =
    match pop_proto_message (ll_processor_ s) with
    | (Ok (Some u), p) => (Ok (Some u), with_ll p s)
    | (Ok None, p) => (Ok None, with_conn_closed true (with_ll p s))
    | (Raise e, p) => (Raise e, with_ll p s)
    end.
Proof.
  unfold get_pop_message, parse_and_pop, on_protocol, bind. cbn [protocol server_protocol set_protocol].
  by destruct (pop_proto_message (ll_processor_ s)) as [[[u|]|e] p].
Qed.

Lemma process_next_spec `{Codec lowlevel_unit} fac s r s' :
  process_next s = (r, s') →
  rtc (step fac) s s' ∧
  match r with
  | Ok true => length (packed_ (queue_ (ll_processor_ s))) = S (length (packed_ (queue_ (ll_processor_ s'))))
  | Ok false => conn_closed_ s' = true
  | Raise _ => True
  end.
Proof.
  unfold process_next, bind at 1. rewrite get_pop_message_eq.
  destruct (pop_proto_message (ll_processor_ s)) as [[[u|]|e] p] eqn:Hpop.
  - unfold bind. set (s1 := with_ll p s).
    pose proof (apart_receive p (conn_closed_ s) u s1 (conj eq_refl eq_refl)) as Hap.
    pose proof (step_message fac s1 u) as Hm.
    destruct (receive u s1) as [[[]|e] s2]; intros [= <- <-]; (split; [
      eapply rtc_l; [apply (step_data fac s p)|]; by apply rtc_once|]); [|done].
    destruct Hap as [Hap _]. cbn in Hap. rewrite Hap. by apply (pop_shrinks _ (Some u)).
  - intros [= <- <-]. split; [|done].
    eapply rtc_l; [apply (step_data fac s p)|]. apply rtc_once. apply step_bad.
  - intros [= <- <-]. split; [|done]. apply rtc_once, step_data.
Qed.

Lemma loop_spec `{Codec lowlevel_unit} fac fuel s r s' :
  (length (packed_ (queue_ (ll_processor_ s))) ≤ fuel)%nat →
  on_rcp_call_ready_loop fuel s = (r, s') →
  rtc (step fac) s s' ∧ (r = Ok tt → message_queue_empty s' = true ∨ conn_closed_ s' = true).
Proof.
  revert s r s'. induction fuel as [|fuel IH]; intros s r s' Hf Hr; cbn [on_rcp_call_ready_loop] in Hr;
    unfold bind at 1, get in Hr; destruct (message_queue_empty s) eqn:He;
    try (unfold ret in Hr; simplify_eq; split; [reflexivity|by left]).
  - unfold message_queue_empty, protocol_queue_size, blen in He. apply Z.eqb_neq in He. lia.
  - unfold bind in Hr. destruct (process_next s) as [[go|e] s1] eqn:Hn;
      destruct (process_next_spec fac _ _ _ Hn) as [Hst Hgo]; [|by simplify_eq].
    destruct go.
    + destruct (IH s1 r s') as [Hst' Hres]; [lia|done|]. split; [by etrans|done].
    + unfold ret in Hr. simplify_eq. split; [done|by right].
Qed.

(** ** Properties *)

(** C5 (bounds).  However messages, pool tasks and late closures interleave,
    the calls that are queued or running and have not called back yet never
    exceed [max_active_calls], and the counter covers them, so that its decrement
    never wraps below zero.  The bound on the number of steps keeps the 32-bit
    counter from wrapping above. *)
Theorem active_calls_bounded fac opts n s :
  0 ≤ default 0 (so_max_active_calls opts) → Z.of_nat n < 2 ^ 32 →
  nsteps (step fac) n (server_new opts) s →
  blen (executing_ s) + Z.of_nat (unfinished (holders_ (base_ s))) ≤ max_calls s ∧
  blen (executing_ s) + Z.of_nat (unfinished (holders_ (base_ s))) ≤ current_calls_ s.
Proof.
  intros Hm Hn Hst. destruct (steps_inv fac n 0 _ _ Hn (server_new_inv opts Hm) Hst). done.
Qed.

Lemma active_calls_bounded_witness :
  ∃ s, nsteps (step no_factory) 1 (server_new default_session_options) s ∧
    blen (executing_ s) = 1 ∧ blen (executing_ s) + 0 ≤ max_calls s.
Proof.
  set (s := (receive one_way_call (server_new default_session_options)).2).
  assert (Hst : nsteps (step no_factory) 1 (server_new default_session_options) s)
    by (apply nsteps_once, step_message).
  exists s. split_and!; [exact Hst|reflexivity|].
  apply (active_calls_bounded no_factory default_session_options 1 s); [done|done|exact Hst].
Defined.

(** One-way calls of services that do not exist are never counted
    off: as many of them as the limit allows leave a server that is idle, has no
    call in progress, and from then on never executes a call again, whatever it
    receives and even if the services appear. *)
Theorem leaked_calls_block opts m :
  so_max_active_calls opts = Some (Z.of_nat m) → Z.of_nat m < 2 ^ 31 →
  ∃ s, nsteps (step no_factory) (m * 2) (server_new opts) s ∧
    executing_ s = [] ∧ unfinished (holders_ (base_ s)) = 0%nat ∧
    ∀ fac n s', nsteps (step fac) n s s' → Z.of_nat n < 2 ^ 31 →
      executing_ s' = [] ∧ max_calls s' < current_calls_ s' + 1.
Proof.
  intros Ho Hm. destruct (lose_many opts m) as (s & Hst & [Hf Hi Hu Ht Hs Hsv Hc]).
  { lia. } { rewrite Ho. done. }
  exists s. split_and!; [done..|]. intros fac n s' Hst' Hn.
  destruct (stuck_steps fac n (Z.of_nat m) s s') as [_ Hi' _ Hfull _]; [lia| |done|split; [done|lia]].
  split; try done; unfold max_calls; rewrite ?Hs, ?Ho, ?Hc; cbn; lia.
Qed.

Lemma leaked_calls_block_witness :
  ∃ s, nsteps (step no_factory) 10 (server_new default_session_options) s ∧ executing_ s = [].
Proof.
  destruct (leaked_calls_block default_session_options 5 eq_refl eq_refl) as (s & H & Hi & _).
  exists s. split; [exact H|exact Hi].
Defined.

(** The reading loop ends with an empty queue, or because a
    message was bad and the connection is being closed; every turn takes one
    message, so the number of complete messages is enough fuel; and what it does
    is a sequence of the server's steps. *)
Theorem reading_loop `{Codec lowlevel_unit} fac s :
  rtc (step fac) s (on_rcp_call_ready s).2 ∧
  ((on_rcp_call_ready s).1 = Ok tt →
   message_queue_empty (on_rcp_call_ready s).2 = true ∨ conn_closed_ (on_rcp_call_ready s).2 = true).
Proof.
  unfold on_rcp_call_ready. destruct (on_rcp_call_ready_loop _ s) as [r s'] eqn:Hl.
  by apply (loop_spec fac _ s r s' (le_n _) Hl).
Qed.

Lemma receive_eq u s :
  receive u s = process_message (unit_fresh_ (base_ s)) (with_base (unit_new u (base_ s)).2 s).
Proof. unfold receive. by rewrite (bind_ok _ _ _ _ _ (on_base_plain _ _ (plain_unit_new u))). Qed.

Lemma received_unit u l : unit_at (unit_new u l).2 (unit_fresh_ l) = u.
Proof. unfold unit_at, unit_new. cbn. by rewrite lookup_insert_eq. Qed.

(** The answers a server gives by itself. *)
Definition busy_unit (u : lowlevel_unit) : lowlevel_unit :=
  set_error_code ERR_BUSY (set_response None (set_request None (set_call None u))).
Definition context_unit (u : lowlevel_unit) : lowlevel_unit :=
  fill_error ERR_CONTEXT "Context was not found." false
    (set_opt None (set_call None (set_response None (set_request None u)))).

(** Change a message and send it. *)
Lemma answer_with llu f s :
  ready_ (base_ s) = true →
  let u := f (unit_at (base_ s) llu) in
  (on_base (unit_modify llu f) ;;;
   let* s := get in on_base (call_rpc_method (unit_at (base_ s) llu))) s =
  (Ok tt, with_base (with_sent (sent_ (base_ s) ++ [u]) (put_unit llu u (base_ s))) s).
Proof.
  intros Hr u. rewrite (bind_ok _ _ _ _ _ (on_base_plain _ _ (plain_unit_modify llu f))).
  erewrite bind_ok by reflexivity. rewrite on_base_plain by apply plain_call.
  rewrite unit_modify_put. cbn [snd base_ with_base]. fold u. rewrite unit_at_put.
  unfold call_rpc_method, bind, get. cbn. rewrite Hr. by destruct s.
Qed.

(**  A call over the limit is not executed and does not count: a
    caller that waits gets one answer with [ERR_BUSY] and nothing of its request,
    one that does not wait gets nothing. *)
Theorem busy_call u s :
  u_message_type u = MESSAGE_CLIENT_CALL → ready_ (base_ s) = true →
  0 ≤ max_calls s ≤ current_calls_ s → current_calls_ s + 1 < 2 ^ 32 →
  let s' := (receive u s).2 in
  (receive u s).1 = Ok tt ∧ executing_ s' = executing_ s ∧ current_calls_ s' = current_calls_ s ∧
  rpc_queue_ (base_ s') = rpc_queue_ (base_ s) ∧
  sent_ (base_ s') = sent_ (base_ s) ++ (if uo_wait' (u_opt u) then [busy_unit u] else []).
Proof.
  intros Ht Hr Hc Hw s'. unfold s'. rewrite receive_eq. set (l1 := (unit_new u (base_ s)).2).
  set (s1 := with_current (current_calls_ s + 1) (with_base l1 s)). set (a := unit_fresh_ (base_ s)).
  assert (Hu : unit_at (base_ s1) a = u) by apply received_unit.
  assert (Hm : process_message a (with_base l1 s) =
    (send_busy a ;;; modify (λ s, with_current (u32 (current_calls_ s - 1)) s)) s1).
  { unfold process_message. erewrite bind_ok by reflexivity.
    change (unit_at (base_ (with_base l1 s)) a) with (unit_at (base_ s1) a). rewrite Hu, Ht.
    change (MESSAGE_CLIENT_CALL =? MESSAGE_CLIENT_CALL) with true. cbv iota. unfold process_call.
    erewrite bind_ok by reflexivity. erewrite bind_ok by reflexivity.
    cbn [current_calls_ with_base]. rewrite wrap_small by (unfold in_word; lia). fold s1.
    destruct (Z.leb_spec (current_calls_ s1) (max_calls s1)) as [Hle|]; [|done].
    unfold max_calls, s1 in *. cbn in *. lia. }
  rewrite Hm. unfold send_busy.
  destruct (uo_wait' (u_opt u)) eqn:Ew.
  - erewrite bind_ok; [|erewrite bind_ok by reflexivity; rewrite Hu, Ew; apply answer_with; exact Hr].
    rewrite Hu. unfold modify. cbn. rewrite wrap_small by (unfold in_word; lia).
    split_and!; try done. lia.
  - erewrite bind_ok; [|erewrite bind_ok by reflexivity; rewrite Hu, Ew; reflexivity].
    unfold modify. cbn. rewrite wrap_small by (unfold in_word; lia). rewrite app_nil_r.
    split_and!; try done. lia.
Qed.

Lemma busy_call_witness :
  let u := set_message_type MESSAGE_CLIENT_CALL (example_call true) in
  let s := with_current 5 (with_base (with_ready true (layer_new false default_session_options))
             (server_new default_session_options)) in
  sent_ (base_ (receive u s).2) = [busy_unit u].
Proof.
  intros u s.
  destruct (busy_call u s eq_refl eq_refl) as (_ & _ & _ & _ & H); [done|done|exact H].
Defined.

(** Where other messages go.  An answer is delivered to the slot
    with its id, an insertion to the slot it targets; an answer nobody waits for
    is dropped; an insertion whose slot is gone is answered with [ERR_CONTEXT] if
    its sender waits, unless it may run alone. *)
Theorem message_routing u s :
  let t := u_message_type u in
  let answer := (t =? MESSAGE_SERVER_CALL) || (t =? MESSAGE_SERVER_CALLBACK) in
  let insertion := t =? MESSAGE_CLIENT_CALLBACK in
  let slot := store_ (rpc_queue_ (base_ s)) !! (if insertion then u_target_id u else u_id u) in
  let s' := (receive u s).2 in
  ready_ (base_ s) = true → answer || insertion = true → insertion && alone_callback u = false →
  (receive u s).1 = Ok tt ∧ executing_ s' = executing_ s ∧ current_calls_ s' = current_calls_ s ∧
  match slot with
  | Some a => rpc_queue_ (base_ s') = push_value_data a [u] (rpc_queue_ (base_ s)) ∧
              sent_ (base_ s') = sent_ (base_ s)
  | None => rpc_queue_ (base_ s') = rpc_queue_ (base_ s) ∧
            sent_ (base_ s') = sent_ (base_ s) ++
              (if insertion && uo_wait' (u_opt u) then [context_unit u] else [])
  end.
Proof.
  intros t answer insertion slot s' Hr Hk Hal. unfold s'. rewrite receive_eq.
  set (l1 := (unit_new u (base_ s)).2). set (a := unit_fresh_ (base_ s)).
  assert (Hu : unit_at (base_ (with_base l1 s)) a = u) by apply received_unit.
  assert (Hq : rpc_queue_ l1 = rpc_queue_ (base_ s)) by done.
  assert (Hpush : ∀ id, on_base (push_rpc_message id u) (with_base l1 s) =
    match store_ (rpc_queue_ (base_ s)) !! id with
    | Some b => (Ok true, with_base (with_rpc_queue (push_value_data b [u] (rpc_queue_ l1)) l1) s)
    | None => (Ok false, with_base (with_rpc_queue (rpc_queue_ l1) l1) s)
    end).
  { intros id. rewrite on_base_plain by apply plain_queue. unfold push_rpc_message, on_rpc_queue,
      write_queue_if_exists, value_by_key. cbn [base_ with_base]. rewrite Hq.
    by destruct (store_ (rpc_queue_ (base_ s)) !! id). }
  unfold process_message. erewrite bind_ok by reflexivity. rewrite Hu. fold t.
  destruct (t =? MESSAGE_CLIENT_CALL) eqn:E1.
  { apply Z.eqb_eq in E1. unfold answer, insertion in Hk. by rewrite E1 in Hk. }
  fold insertion. fold answer. destruct insertion; cbn [andb] in *.
  - unfold process_insertion. erewrite bind_ok by reflexivity. rewrite Hu. unfold slot.
    specialize (Hpush (u_target_id u)).
    destruct (store_ (rpc_queue_ (base_ s)) !! u_target_id u) as [b|];
      rewrite (bind_ok _ _ _ _ _ Hpush); [done|]. rewrite Hal.
    destruct (uo_wait' (u_opt u)); [|by cbn; rewrite app_nil_r].
    rewrite answer_with by exact Hr.
    change (unit_at _ a) with (unit_at (base_ (with_base l1 s)) a). by rewrite Hu.
  - rewrite orb_false_r in Hk. rewrite Hk. unfold process_answer. erewrite bind_ok by reflexivity.
    rewrite Hu. unfold slot. specialize (Hpush (u_id u)).
    destruct (store_ (rpc_queue_ (base_ s)) !! u_id u) as [b|];
      rewrite (bind_ok _ _ _ _ _ Hpush); [done|by cbn; rewrite app_nil_r].
Qed.

Lemma message_routing_witness :
  let u := set_message_type MESSAGE_CLIENT_CALLBACK (example_call true) in
  let s := with_base (with_ready true (layer_new false default_session_options))
             (server_new default_session_options) in
  sent_ (base_ (receive u s).2) = [context_unit u].
Proof.
  intros u s. destruct (message_routing u s eq_refl eq_refl eq_refl) as (_ & _ & _ & _ & H). exact H.
Defined.
