(* ===== verification/Registry.v ===== *)
(** * Registry: what a process knows about its connections and services

    [lib/vtrc/common/enviroment.cpp] (a map of strings), [connection-list.cpp]
    (the connections of a server, kept alive by the list) and the handlers of
    [lib/vtrc/client/base.cpp] ([base::impl]), which are reached through strong
    and weak pointers.  Every operation is one critical section. *)

From stdpp Require Import sorting.
From S2P Require Import Prelude.

(** ** environment *)

Module Environment.

Record environment : Type := Env { data_ : gmap string string }.

Definition environment_new : environment := Env ∅.
Definition get_data (e : environment) : gmap string string := data_ e.
Definition copy_from (other e : environment) : environment := Env (get_data other).
Definition set (name value : string) (e : environment) : environment :=
  match data_ e !! name with
  | None => Env (<[name := value]> (data_ e))
  | Some _ => Env (alter (λ _, value) name (data_ e))
  end.
Definition get (name default_value : string) (e : environment) : string :=
  match data_ e !! name with
  | None => default_value
  | Some v => v
  end.
(** The number of entries removed. *)
Definition remove (name : string) : M environment Z := λ e,
  (Ok (if bool_decide (is_Some (data_ e !! name)) then 1 else 0), Env (delete name (data_ e))).
Definition exists_ (name : string) (e : environment) : bool :=
  bool_decide (is_Some (data_ e !! name)).

End Environment.

(** ** connection_list

    [std::map] keeps its keys, the addresses of the connections, in order; the
    value of a key is the pointer that keeps the connection alive. *)

Module ConnectionList.

Record connection_list : Type := Clients { clients_ : list nat }.

Definition create : connection_list := Clients [].
Definition clear : M connection_list unit := modify (λ _, Clients []).

(** [insert] leaves an entry that is there. *)
Fixpoint insert_sorted (c : nat) (l : list nat) : list nat :=
  match l with
  | [] => [c]
  | x :: l' => if decide (c < x)%nat then c :: l
               else if decide (c = x) then l
               else x :: insert_sorted c l'
  end.
Definition store (c : nat) : M connection_list unit :=
  modify (λ l, Clients (insert_sorted c (clients_ l))).
Definition lock (c : nat) (l : connection_list) : option nat :=
  if decide (c ∈ clients_ l) then Some c else None.
Definition drop (c : nat) : M connection_list unit :=
  modify (λ l, Clients (filter (λ x, x ≠ c) (clients_ l))).

(** [func] may change the state [S] of the program. *)
Section ForeachWhile.
Context {S : Type} (func : nat → M S bool).

Fixpoint foreach_while_loop (cs : list nat) (result : Z) : M S Z :=
  match cs with
  | [] => ret result
  | b :: cs =>
      let* ot := func b in
      let result := result + (if ot then 1 else 0) in
      if ot then foreach_while_loop cs result else ret result
  end.
Definition foreach_while (l : connection_list) : M S Z := foreach_while_loop (clients_ l) 0.
End ForeachWhile.

(** [application::impl::stop_all_clients( )]: [close] is the connection's. *)
Section StopAll.
Context {S : Type} (close : nat → M S unit).

Definition close_all_connection (next : nat) : M S bool := close next ;;; ret true.
Definition stop_all_clients (l : connection_list) : M S unit :=
  foreach_while close_all_connection l ;;; ret tt.
End StopAll.

End ConnectionList.

(** ** client::base: the handlers of calls from the server

    Services and their wrappers are shared objects known by their addresses;
    [full_name] is what the descriptor of a service says.  An object lives while
    a strong pointer to it does: one of [hold_services_], one the application has
    ([user_wrappers], [user_services]), or for a service the one of a wrapper that
    lives. *)

Module ClientBase.

Record base : Type := Base {
  full_name : gmap nat string;
  wrapped : gmap nat nat;
  wrapper_fresh : nat;
  user_wrappers : gset nat;
  user_services : gset nat;
  weak_native_services_ : gmap string nat;
  weak_services_ : gmap string nat;
  hold_services_ : gmap string nat;
  factory_ : option (string → option nat);
  session_id_ : string
}.

Definition base_new : base := Base ∅ ∅ 0 ∅ ∅ ∅ ∅ ∅ None "".

Definition with_native (m : gmap string nat) (b : base) : base :=
  Base (full_name b) (wrapped b) (wrapper_fresh b) (user_wrappers b) (user_services b)
    m (weak_services_ b) (hold_services_ b) (factory_ b) (session_id_ b).
Definition with_weak (m : gmap string nat) (b : base) : base :=
  Base (full_name b) (wrapped b) (wrapper_fresh b) (user_wrappers b) (user_services b)
    (weak_native_services_ b) m (hold_services_ b) (factory_ b) (session_id_ b).
Definition with_hold (m : gmap string nat) (b : base) : base :=
  Base (full_name b) (wrapped b) (wrapper_fresh b) (user_wrappers b) (user_services b)
    (weak_native_services_ b) (weak_services_ b) m (factory_ b) (session_id_ b).

Definition set_session_id (id : string) (b : base) : base :=
  Base (full_name b) (wrapped b) (wrapper_fresh b) (user_wrappers b) (user_services b)
    (weak_native_services_ b) (weak_services_ b) (hold_services_ b) (factory_ b) id.
Definition reset_session_id : base → base := set_session_id "".
Definition get_session_id (b : base) : string := session_id_ b.
Definition assign_service_factory (f : option (string → option nat)) (b : base) : base :=
  Base (full_name b) (wrapped b) (wrapper_fresh b) (user_wrappers b) (user_services b)
    (weak_native_services_ b) (weak_services_ b) (hold_services_ b) f (session_id_ b).

(** *** Lifetimes *)

Definition held (b : base) (w : nat) : Prop := map_Exists (λ _ v, v = w) (hold_services_ b).
#[export] Instance held_dec b w : Decision (held b w).
Proof. unfold held. apply _. Defined.

Definition wrapper_alive (b : base) (w : nat) : bool :=
  bool_decide (w ∈ user_wrappers b) || bool_decide (held b w).
(** Wrappers that are alive keep their service. *)
Definition service_kept (b : base) (s : nat) : Prop :=
  map_Exists (λ w v, v = s ∧ wrapper_alive b w = true) (wrapped b).
#[export] Instance service_kept_dec b s : Decision (service_kept b s).
Proof. unfold service_kept. apply _. Defined.
Definition service_alive (b : base) (s : nat) : bool :=
  bool_decide (s ∈ user_services b) || bool_decide (service_kept b s).

Definition lock_wrapper (w : nat) (b : base) : option nat :=
  if wrapper_alive b w then Some w else None.
Definition lock_service (s : nat) (b : base) : option nat :=
  if service_alive b s then Some s else None.

Definition service_name (s : nat) (b : base) : string := default ""%string (full_name b !! s).
Definition wrapper_name (w : nat) (b : base) : string :=
  from_option (λ s, service_name s b) ""%string (wrapped b !! w).

(** [wrap_service( serv )], in the hands of its caller. *)
Definition wrap_service (s : nat) : M base nat := λ b,
  let w := wrapper_fresh b in
  (Ok w, Base (full_name b) (<[w := s]> (wrapped b)) (S w) ({[w]} ∪ user_wrappers b)
           (user_services b) (weak_native_services_ b) (weak_services_ b) (hold_services_ b)
           (factory_ b) (session_id_ b)).

(** The application drops its pointers to a wrapper or to a service. *)
Definition release_wrapper (w : nat) (b : base) : base :=
  Base (full_name b) (wrapped b) (wrapper_fresh b) (user_wrappers b ∖ {[w]}) (user_services b)
    (weak_native_services_ b) (weak_services_ b) (hold_services_ b) (factory_ b) (session_id_ b).
Definition release_service (s : nat) (b : base) : base :=
  Base (full_name b) (wrapped b) (wrapper_fresh b) (user_wrappers b) (user_services b ∖ {[s]})
    (weak_native_services_ b) (weak_services_ b) (hold_services_ b) (factory_ b) (session_id_ b).

(** *** Handlers *)

Definition assign_weak_handler (s : nat) : M base unit :=
  modify (λ b, match lock_service s b with
               | Some s => with_native (<[service_name s b := s]> (weak_native_services_ b)) b
               | None => b
               end).

Definition assign_handler_wrap (w : nat) : M base unit :=
  modify (λ b,
    let serv_name := wrapper_name w b in
    match hold_services_ b !! serv_name with
    | Some _ => with_weak (<[serv_name := w]> (weak_services_ b))
                  (with_hold (alter (λ _, w) serv_name (hold_services_ b)) b)
    | None => with_weak (<[serv_name := w]> (weak_services_ b))
                (with_hold (<[serv_name := w]> (hold_services_ b)) b)
    end).
(** The wrapper made here is left to the map. *)
Definition assign_handler (s : nat) : M base unit :=
  let* w := wrap_service s in
  assign_handler_wrap w ;;;
  modify (release_wrapper w).

Definition assign_weak_handler_wrap (w : nat) : M base unit :=
  modify (λ b, match lock_wrapper w b with
               | Some w => with_weak (<[wrapper_name w b := w]> (weak_services_ b)) b
               | None => b
               end).

(** The three places a handler is looked for; expired entries are erased. *)
Definition find_weak (name : string) : M base (option nat) := λ b,
  match weak_services_ b !! name with
  | Some w => match lock_wrapper w b with
              | Some w => (Ok (Some w), b)
              | None => (Ok None, with_weak (delete name (weak_services_ b)) b)
              end
  | None => (Ok None, b)
  end.
Definition find_native (name : string) : M base (option nat) := λ b,
  match weak_native_services_ b !! name with
  | Some s => match lock_service s b with
              | Some s => (let* w := wrap_service s in ret (Some w)) b
              | None => (Ok None, with_native (delete name (weak_native_services_ b)) b)
              end
  | None => (Ok None, b)
  end.
Definition make_service (name : string) : M base (option nat) := λ b,
  (Ok (factory_ b ≫= λ f, f name), b).

Definition get_handler (name : string) : M base (option nat) :=
  let* result := find_weak name in
  let* result := match result with Some w => ret (Some w) | None => find_native name end in
  match result with Some w => ret (Some w) | None => make_service name end.

Definition erase_rpc_handler (name : string) : M base unit :=
  modify (λ b,
    let b := with_hold (delete name (hold_services_ b)) b in
    let b := with_weak (delete name (weak_services_ b)) b in
    with_native (delete name (weak_native_services_ b)) b).
Definition erase_all_rpc_handlers : M base unit :=
  modify (λ b, with_weak ∅ (with_hold ∅ b)).

End ClientBase.

(** ** Lemmas *)

Section ConnectionListLemmas.
Import ConnectionList.

Lemma insert_sorted_elem c x l : x ∈ insert_sorted c l ↔ x = c ∨ x ∈ l.
Proof.
  induction l as [|y l IH]; simpl; [rewrite elem_of_cons, elem_of_nil; tauto|].
  destruct (decide (c < y)%nat); [by rewrite elem_of_cons|].
  destruct (decide (c = y)) as [->|]; [rewrite !elem_of_cons; tauto|].
  rewrite !elem_of_cons, IH. tauto.
Qed.

Lemma insert_sorted_sorted c l : StronglySorted lt l → StronglySorted lt (insert_sorted c l).
Proof.
  induction 1 as [|y l Hl IH Hy]; simpl; [repeat constructor|].
  destruct (decide (c < y)%nat) as [Hlt|Hge].
  - constructor; [by constructor|]. constructor; [done|].
    eapply Forall_impl; [exact Hy|]. intros z Hz. simpl in Hz. lia.
  - destruct (decide (c = y)) as [->|Hne]; [by constructor|]. constructor; [done|].
    apply Forall_forall. intros z Hz. apply insert_sorted_elem in Hz as [->|Hz]; [lia|].
    by eapply Forall_forall in Hy.
Qed.
End ConnectionListLemmas.

(** ** Properties *)

(** The operations on the list of clients and the set they should maintain. *)
Inductive client_op : Type := OpStore (c : nat) | OpDrop (c : nat) | OpClear.
Definition run_client_op (l : ConnectionList.connection_list) (o : client_op) :
    ConnectionList.connection_list :=
  match o with
  | OpStore c => (ConnectionList.store c l).2
  | OpDrop c => (ConnectionList.drop c l).2
  | OpClear => (ConnectionList.clear l).2
  end.
Definition set_op (s : gset nat) (o : client_op) : gset nat :=
  match o with
  | OpStore c => s ∪ {[c]}
  | OpDrop c => s ∖ {[c]}
  | OpClear => ∅
  end.

Lemma client_ops_spec ops l s :
  StronglySorted lt (ConnectionList.clients_ l) → (∀ c, c ∈ ConnectionList.clients_ l ↔ c ∈ s) →
  let l' := foldl run_client_op l ops in
  StronglySorted lt (ConnectionList.clients_ l') ∧
  (∀ c, c ∈ ConnectionList.clients_ l' ↔ c ∈ foldl set_op s ops).
Proof.
  revert l s. induction ops as [|o ops IH]; intros l s Hl Hs; [done|]. apply IH; destruct o; cbn.
  - by apply insert_sorted_sorted.
  - by apply StronglySorted_filter.
  - constructor.
  - intros c'. rewrite insert_sorted_elem, elem_of_union, elem_of_singleton, Hs. tauto.
  - intros c'. rewrite list_elem_of_filter, elem_of_difference, elem_of_singleton, Hs. tauto.
  - intros c'. by rewrite elem_of_nil, elem_of_empty.
Qed.

(** The clients a predicate is asked about: up to the first it refuses. *)
Fixpoint visited (test : nat → bool) (cs : list nat) : list nat :=
  match cs with
  | [] => []
  | c :: cs => c :: if test c then visited test cs else []
  end.
Definition accepted (test : nat → bool) (cs : list nat) : Z :=
  blen (filter (λ c, test c = true) (visited test cs)).

Lemma foreach_spec {S} (log : S → list nat) (func : nat → M S bool) (test : nat → bool) cs r s :
  (∀ c s, (func c s).1 = Ok (test c) ∧ log (func c s).2 = log s ++ [c]) →
  (ConnectionList.foreach_while_loop func cs r s).1 = Ok (r + accepted test cs) ∧
  log (ConnectionList.foreach_while_loop func cs r s).2 = log s ++ visited test cs.
Proof.
  intros Hf. unfold accepted. revert r s. induction cs as [|c cs IH]; intros r s;
    cbn [ConnectionList.foreach_while_loop visited].
  - by rewrite app_nil_r, Z.add_0_r.
  - destruct (Hf c s) as [Ht Hl]. unfold bind. destruct (func c s) as [x s1]. cbn in Ht, Hl. subst x.
    destruct (test c) eqn:Ec.
    + destruct (IH (r + 1) s1) as [-> ->]. rewrite filter_cons_True by done. unfold blen. cbn [length].
      split; [f_equal; lia|]. by rewrite Hl, <-app_assoc.
    + rewrite filter_cons_False by by rewrite Ec. split; [cbn; f_equal; unfold blen; cbn; lia|done].
Qed.

Lemma visited_all cs : visited (λ _, true) cs = cs.
Proof. induction cs as [|c cs IH]; [done|]. cbn. by rewrite IH. Qed.

(** The list of clients implements a set of connections: after
    any sequence of operations [lock] finds exactly the connections that were
    stored and neither dropped nor cleared since; a walk meets each of them at
    most once, in order, stops at the first refusal and counts the others; and
    closing all of them closes each one exactly once. *)
Theorem client_list_refines_set ops {S} (log : S → list nat) (func : nat → M S bool) test
    (close : nat → M S unit) (s : S) :
  (∀ c s, (func c s).1 = Ok (test c) ∧ log (func c s).2 = log s ++ [c]) →
  (∀ c s, (close c s).1 = Ok tt ∧ log (close c s).2 = log s ++ [c]) →
  let l := foldl run_client_op ConnectionList.create ops in
  let spec := foldl set_op ∅ ops in
  (∀ c, ConnectionList.lock c l = if decide (c ∈ spec) then Some c else None) ∧
  NoDup (ConnectionList.clients_ l) ∧
  (ConnectionList.foreach_while func l s).1 = Ok (accepted test (ConnectionList.clients_ l)) ∧
  log (ConnectionList.foreach_while func l s).2 = log s ++ visited test (ConnectionList.clients_ l) ∧
  ∃ closed, log (ConnectionList.stop_all_clients close l s).2 = log s ++ closed ∧
    closed ≡ₚ elements spec.
Proof.
  intros Hf Hc l spec.
  destruct (client_ops_spec ops ConnectionList.create ∅) as [Hs Hm]; [constructor|set_solver|].
  fold l in Hs, Hm. fold spec in Hm.
  assert (Hnd : NoDup (ConnectionList.clients_ l)).
  { clear -Hs. induction Hs as [|c cs _ IH Hc]; constructor; [|done].
    intros Hin. eapply Forall_forall in Hc; [|exact Hin]. lia. }
  split_and!; [|done|..].
  - intros c. unfold ConnectionList.lock. destruct (decide (c ∈ spec)) as [H|H];
      destruct (decide (c ∈ ConnectionList.clients_ l)) as [H'|H']; rewrite ?Hm in H'; done.
  - unfold ConnectionList.foreach_while. by destruct (foreach_spec log func test (ConnectionList.clients_ l) 0 s Hf) as [-> _].
  - unfold ConnectionList.foreach_while. by destruct (foreach_spec log func test (ConnectionList.clients_ l) 0 s Hf) as [_ ->].
  - exists (ConnectionList.clients_ l). split.
    + assert (Hcl : ∀ c s, (ConnectionList.close_all_connection close c s).1 = Ok true ∧
        log (ConnectionList.close_all_connection close c s).2 = log s ++ [c]).
      { intros c s'. destruct (Hc c s') as [H1 H2]. unfold ConnectionList.close_all_connection, bind.
        destruct (close c s') as [x s1]. cbn in H1. by subst x. }
      destruct (foreach_spec log _ (λ _, true) (ConnectionList.clients_ l) 0 s Hcl) as [H1 H2].
      unfold ConnectionList.stop_all_clients, bind, ConnectionList.foreach_while.
      destruct (ConnectionList.foreach_while_loop _ _ 0 s) as [x s1]. cbn in H1, H2. subst x. cbn.
      by rewrite H2, visited_all.
    + apply NoDup_Permutation; [done|apply NoDup_elements|]. intros c. by rewrite elem_of_elements.
Qed.

Lemma client_list_refines_set_witness :
  let log_call (c : nat) : M (list nat) unit := modify (λ l, l ++ [c]) in
  ConnectionList.clients_ (foldl run_client_op ConnectionList.create
    [OpStore 7; OpStore 3; OpStore 5; OpStore 3; OpDrop 5]) = [3; 7]%nat ∧
  NoDup (ConnectionList.clients_ (foldl run_client_op ConnectionList.create
    [OpStore 7; OpStore 3; OpStore 5; OpStore 3; OpDrop 5])).
Proof.
  intros log_call. split; [reflexivity|].
  apply (client_list_refines_set [OpStore 7; OpStore 3; OpStore 5; OpStore 3; OpDrop 5]
    (λ l : list nat, l) (λ c, log_call c ;;; ret true) (λ _, true) log_call []).
  - intros c s. split; reflexivity.
  - intros c s. split; reflexivity.
Defined.

(** *** Handlers of the client *)

Section Handlers.
Import ClientBase.

(** Wrappers live while the maps hold them. *)
Lemma held_alive b name w : hold_services_ b !! name = Some w → wrapper_alive b w = true.
Proof.
  intros H. unfold wrapper_alive. apply orb_true_iff. right. apply bool_decide_eq_true.
  exists name, w. done.
Qed.

Lemma find_weak_alive name w b :
  weak_services_ b !! name = Some w → wrapper_alive b w = true →
  get_handler name b = (Ok (Some w), b).
Proof.
  intros Hw Ha. unfold get_handler, bind, find_weak, lock_wrapper. by rewrite Hw, Ha.
Qed.

Lemma get_handler_factory name b :
  weak_services_ b !! name = None → weak_native_services_ b !! name = None →
  get_handler name b = (Ok (factory_ b ≫= λ f, f name), b).
Proof.
  intros Hw Hn. unfold get_handler, bind, find_weak. rewrite Hw. unfold find_native. by rewrite Hn.
Qed.

Lemma assign_handler_wrap_maps w b :
  let b' := (assign_handler_wrap w b).2 in
  hold_services_ b' = <[wrapper_name w b := w]> (hold_services_ b) ∧
  weak_services_ b' = <[wrapper_name w b := w]> (weak_services_ b) ∧
  factory_ b' = factory_ b.
Proof.
  unfold assign_handler_wrap, modify. cbn.
  destruct (hold_services_ b !! wrapper_name w b) eqn:E; [|done]. cbn. split_and!; [|done..].
  apply map_eq. intros i. destruct (decide (wrapper_name w b = i)) as [<-|Hne].
  - by rewrite lookup_alter_eq, lookup_insert_eq, E.
  - by rewrite lookup_alter_ne, lookup_insert_ne.
Qed.
End Handlers.

(** The life of a client's handler: an assigned wrapper is found
    under its service's name even after the application has dropped its own
    pointer, until the name is erased; after that only the factory can provide
    the service.  A weak handler is found while the application keeps it and is
    forgotten when it does not. *)
Theorem handler_lifecycle w b :
  let name := ClientBase.wrapper_name w b in
  let assigned := ClientBase.release_wrapper w (ClientBase.assign_handler_wrap w b).2 in
  let erased := (ClientBase.erase_rpc_handler name assigned).2 in
  let weak := (ClientBase.assign_weak_handler_wrap w b).2 in
  ClientBase.get_handler name assigned = (Ok (Some w), assigned) ∧
  ClientBase.get_handler name erased = (Ok (ClientBase.factory_ b ≫= λ f, f name), erased) ∧
  (ClientBase.wrapper_alive b w = true → ClientBase.get_handler name weak = (Ok (Some w), weak)) ∧
  (ClientBase.wrapper_alive b w = true →
   let gone := ClientBase.release_wrapper w weak in
   ClientBase.wrapper_alive gone w = false →
   ClientBase.weak_services_ (ClientBase.get_handler name gone).2 !! name = None).
Proof.
  intros name assigned erased weak.
  destruct (assign_handler_wrap_maps w b) as (Hh & Hw & Hf). fold name in Hh, Hw.
  assert (Hweak : ClientBase.wrapper_alive b w = true →
    weak = ClientBase.with_weak (<[name := w]> (ClientBase.weak_services_ b)) b).
  { intros Ha. unfold weak, ClientBase.assign_weak_handler_wrap, modify, ClientBase.lock_wrapper.
    cbn. by rewrite Ha. }
  split_and!.
  - apply find_weak_alive; [|apply (held_alive _ name)].
    + change (ClientBase.weak_services_ assigned)
        with (ClientBase.weak_services_ (ClientBase.assign_handler_wrap w b).2).
      rewrite Hw. apply lookup_insert_eq.
    + change (ClientBase.hold_services_ assigned)
        with (ClientBase.hold_services_ (ClientBase.assign_handler_wrap w b).2).
      rewrite Hh. apply lookup_insert_eq.
  - rewrite get_handler_factory; [|apply lookup_delete_eq..].
    change (ClientBase.factory_ erased)
      with (ClientBase.factory_ (ClientBase.assign_handler_wrap w b).2). by rewrite Hf.
  - intros Ha. rewrite (Hweak Ha). apply find_weak_alive; [cbn; apply lookup_insert_eq|exact Ha].
  - intros Ha gone Hg. unfold gone in *. rewrite (Hweak Ha) in *.
    unfold ClientBase.get_handler, bind, ClientBase.find_weak, ClientBase.lock_wrapper.
    cbn [ClientBase.release_wrapper ClientBase.weak_services_ ClientBase.with_weak].
    rewrite lookup_insert_eq, Hg. unfold ClientBase.find_native, ClientBase.make_service.
    cbn. destruct (ClientBase.weak_native_services_ b !! name) as [s|];
      [destruct (ClientBase.lock_service s _)|]; cbn; apply lookup_delete_eq.
Qed.

(** Erasing all handlers leaves the native weak ones: a service
    assigned that way is still served afterwards, although erasing its name would
    have removed it. *)
Theorem erase_all_keeps_native s name b :
  ClientBase.weak_native_services_ b !! name = Some s →
  s ∈ ClientBase.user_services b →
  let cleared := (ClientBase.erase_all_rpc_handlers b).2 in
  (∃ w, (ClientBase.get_handler name cleared).1 = Ok (Some w) ∧
        ClientBase.wrapped (ClientBase.get_handler name cleared).2 !! w = Some s) ∧
  (ClientBase.get_handler name (ClientBase.erase_rpc_handler name b).2).1 =
    Ok (ClientBase.factory_ b ≫= λ f, f name).
Proof.
  intros Hn Hu cleared. split.
  - exists (ClientBase.wrapper_fresh b).
    assert (Hl : ClientBase.lock_service s cleared = Some s).
    { unfold ClientBase.lock_service, ClientBase.service_alive. cbn. by rewrite bool_decide_true. }
    unfold ClientBase.get_handler, bind, ClientBase.find_weak. cbn. rewrite lookup_empty.
    unfold ClientBase.find_native. cbn. rewrite Hn. fold cleared. unfold cleared in Hl. cbn in Hl.
    rewrite Hl. cbn. split; [done|apply lookup_insert_eq].
  - rewrite get_handler_factory; [done|cbn; apply lookup_delete_eq..].
Qed.

Lemma erase_all_keeps_native_witness :
  let b := ClientBase.with_native {[ "s"%string := 1%nat ]}
    (ClientBase.Base {[ 1%nat := "s"%string ]} ∅ 0 ∅ {[1%nat]} ∅ ∅ ∅ None "") in
  ∃ w, (ClientBase.get_handler "s" (ClientBase.erase_all_rpc_handlers b).2).1 = Ok (Some w).
Proof.
  intros b. destruct (erase_all_keeps_native 1 "s" b eq_refl) as [(w & H & _) _];
    [change (1%nat ∈ ({[1%nat]} : gset nat)); set_solver|]. exists w. exact H.
Defined.
