(* ===== verification/Listener.v ===== *)
(** * Listener: accepting connections and counting them

    [lib/vtrc/server/listener/listener.cpp] (the base class: the counter of the
    clients and the signals), [listener/impl.h] (the accept loop that the TCP, SSL
    and local listeners share), [listener/tcp.cpp] and [unix-local.cpp] (their
    virtual functions), and of [connection/impl.h] the life of an accepted connection: its creation, the
    close closure, the reading handler.

    The acceptor and the sockets are the operating system's: what they answer is
    an argument of the step that asks.  A call of [async_accept] is remembered in
    [pending] until its handler runs; a handler whose call was made on an open
    acceptor may still bring a connection after the acceptor was closed, one on a
    closed acceptor cannot. *)

From stdpp Require Import pretty.
From S2P Require Import Prelude Registry.

(** ** listener.cpp *)

Inductive signal : Type :=
  | on_start
  | on_stop
  | on_accept_failed (err : Z)
  | on_new_connection (c : nat)
  | on_stop_connection (c : nat).
#[export] Instance signal_eq_dec : EqDecision signal.
Proof. solve_decision. Defined.

(** [listener::impl] with the clients and the environment of its application;
    [signals] are the signals that were raised. *)
Record listener : Type := Listener {
  app_env : Environment.environment;
  clients : ConnectionList.connection_list;
  env_ : Environment.environment;
  client_count_ : Z;
  lowlevel_factory_ : option nat;
  signals : list signal
}.

Definition with_clients (c : ConnectionList.connection_list) (l : listener) : listener :=
  Listener (app_env l) c (env_ l) (client_count_ l) (lowlevel_factory_ l) (signals l).
Definition with_count (n : Z) (l : listener) : listener :=
  Listener (app_env l) (clients l) (env_ l) n (lowlevel_factory_ l) (signals l).
Definition with_factory (f : option nat) (l : listener) : listener :=
  Listener (app_env l) (clients l) (env_ l) (client_count_ l) f (signals l).
Definition with_signals (x : list signal) (l : listener) : listener :=
  Listener (app_env l) (clients l) (env_ l) (client_count_ l) (lowlevel_factory_ l) x.

Definition listener_new (app : Environment.environment) : listener :=
  Listener app ConnectionList.create (Environment.copy_from app Environment.environment_new) 0 None [].
Definition clients_count (l : listener) : Z := client_count_ l.
Definition assign_lowlevel_protocol_factory (f : option nat) : M listener unit :=
  modify (with_factory f).
Definition lowlevel_protocol_factory (l : listener) : option nat := lowlevel_factory_ l.

(** [get_clients( )->store( conn )] and [->drop( conn )] *)
Definition on_clients {A} (m : M ConnectionList.connection_list A) : M listener A := λ l,
  let '(r, c) := m (clients l) in (r, with_clients c l).
Definition store_client (c : nat) : M listener unit := on_clients (ConnectionList.store c).
Definition drop_client (c : nat) : M listener unit := on_clients (ConnectionList.drop c).

(** What the application connected to the signals: a slot may throw. *)
Section Signals.
Context (slot : signal → option exn).

Definition raise_signal (x : signal) : M listener unit :=
  modify (λ l, with_signals (signals l ++ [x]) l) ;;;
  match slot x with Some e => raise e | None => ret tt end.

Definition new_connection (c : nat) : M listener unit :=
  modify (λ l, with_count (u64 (client_count_ l + 1)) l) ;;;
  raise_signal (on_new_connection c).
Definition stop_connection (c : nat) : M listener unit :=
  modify (λ l, with_count (u64 (client_count_ l - 1)) l) ;;;
  raise_signal (on_stop_connection c).
Definition call_on_accept_failed (err : Z) : M listener unit := raise_signal (on_accept_failed err).
Definition call_on_stop : M listener unit := raise_signal on_stop.
Definition call_on_start : M listener unit := raise_signal on_start.
End Signals.

(** ** impl.h: listener_impl and its connections *)

(** What the operating system has to say about an accepted socket: the outcomes
    of [set_no_delay], [remote_endpoint] and [SO_PEERCRED], and what the first
    message written to it ends with. *)
Record socket : Type := Socket {
  so_no_delay : bool → option exn;
  so_remote_endpoint : exn + string;
  so_peercred : Z + Z * Z * Z;
  so_init : option exn
}.

(** [connection_impl] and the [transport_impl] it derives from, as far as the
    listener is concerned; [protocol_errors] counts the errors its protocol layer was
    told of, [announced] remembers that the connection was counted. *)
Record connection : Type := Connection {
  conn_env : Environment.environment;
  conn_factory : option nat;
  conn_name : string;
  closed_ : bool;
  protocol_closed : bool;
  handle_open : bool;
  reading : bool;
  protocol_errors : nat;
  announced : bool
}.

Definition with_conn_factory (f : option nat) (c : connection) : connection :=
  Connection (conn_env c) f (conn_name c) (closed_ c) (protocol_closed c) (handle_open c)
    (reading c) (protocol_errors c) (announced c).
Definition with_name (n : string) (c : connection) : connection :=
  Connection (conn_env c) (conn_factory c) n (closed_ c) (protocol_closed c) (handle_open c)
    (reading c) (protocol_errors c) (announced c).
Definition with_closed (c : connection) : connection :=
  Connection (conn_env c) (conn_factory c) (conn_name c) true (protocol_closed c) (handle_open c)
    (reading c) (protocol_errors c) (announced c).
Definition with_protocol_closed (c : connection) : connection :=
  Connection (conn_env c) (conn_factory c) (conn_name c) (closed_ c) true (handle_open c)
    (reading c) (protocol_errors c) (announced c).
Definition with_handle_closed (c : connection) : connection :=
  Connection (conn_env c) (conn_factory c) (conn_name c) (closed_ c) (protocol_closed c) false
    (reading c) (protocol_errors c) (announced c).
Definition with_reading (r : bool) (c : connection) : connection :=
  Connection (conn_env c) (conn_factory c) (conn_name c) (closed_ c) (protocol_closed c)
    (handle_open c) r (protocol_errors c) (announced c).
(** [protocol_->on_read_error( )] and [on_write_error( )] *)
Definition with_protocol_error (c : connection) : connection :=
  Connection (conn_env c) (conn_factory c) (conn_name c) (closed_ c) (protocol_closed c)
    (handle_open c) (reading c) (S (protocol_errors c)) (announced c).
Definition with_announced (c : connection) : connection :=
  Connection (conn_env c) (conn_factory c) (conn_name c) (closed_ c) (protocol_closed c)
    (handle_open c) (reading c) (protocol_errors c) true.

(** A call of [async_accept]: on which acceptor, and whether it was open. *)
Record accept_op : Type := AcceptOp { ao_acceptor : nat; ao_open : bool }.

(** Connections and acceptors are known by numbers, in the order of their creation.
    [open_acceptor] is the one that is open: a new acceptor closes the old one.
    [alive] holds until the listener is destroyed, [held] are the connections that
    somebody beside the list of clients has a strong pointer to, [unlinked] the
    paths that were removed. *)
Record listener_impl : Type := ListenerImpl {
  base : listener;
  alive : bool;
  acceptor_ : option nat;
  working_ : bool;
  listener_name : string;
  open_acceptor : option nat;
  acceptor_fresh : nat;
  pending : list accept_op;
  conns : list connection;
  held : gset nat;
  unlinked : list string
}.

Definition on_base {A} (m : M listener A) : M listener_impl A := λ w,
  let '(r, l) := m (base w) in
  (r, ListenerImpl l (alive w) (acceptor_ w) (working_ w) (listener_name w) (open_acceptor w)
        (acceptor_fresh w) (pending w) (conns w) (held w) (unlinked w)).
Definition with_alive (a : bool) (w : listener_impl) : listener_impl :=
  ListenerImpl (base w) a (acceptor_ w) (working_ w) (listener_name w) (open_acceptor w)
    (acceptor_fresh w) (pending w) (conns w) (held w) (unlinked w).
Definition with_working (b : bool) (w : listener_impl) : listener_impl :=
  ListenerImpl (base w) (alive w) (acceptor_ w) b (listener_name w) (open_acceptor w)
    (acceptor_fresh w) (pending w) (conns w) (held w) (unlinked w).
Definition with_listener_name (n : string) (w : listener_impl) : listener_impl :=
  ListenerImpl (base w) (alive w) (acceptor_ w) (working_ w) n (open_acceptor w)
    (acceptor_fresh w) (pending w) (conns w) (held w) (unlinked w).
Definition with_open (a : option nat) (w : listener_impl) : listener_impl :=
  ListenerImpl (base w) (alive w) (acceptor_ w) (working_ w) (listener_name w) a
    (acceptor_fresh w) (pending w) (conns w) (held w) (unlinked w).
Definition with_pending (p : list accept_op) (w : listener_impl) : listener_impl :=
  ListenerImpl (base w) (alive w) (acceptor_ w) (working_ w) (listener_name w) (open_acceptor w)
    (acceptor_fresh w) p (conns w) (held w) (unlinked w).
Definition with_conns (c : list connection) (w : listener_impl) : listener_impl :=
  ListenerImpl (base w) (alive w) (acceptor_ w) (working_ w) (listener_name w) (open_acceptor w)
    (acceptor_fresh w) (pending w) c (held w) (unlinked w).
Definition with_held (h : gset nat) (w : listener_impl) : listener_impl :=
  ListenerImpl (base w) (alive w) (acceptor_ w) (working_ w) (listener_name w) (open_acceptor w)
    (acceptor_fresh w) (pending w) (conns w) h (unlinked w).
Definition with_unlinked (u : list string) (w : listener_impl) : listener_impl :=
  ListenerImpl (base w) (alive w) (acceptor_ w) (working_ w) (listener_name w) (open_acceptor w)
    (acceptor_fresh w) (pending w) (conns w) (held w) u.

Definition listener_impl_new (app : Environment.environment) (name : string) : listener_impl :=
  ListenerImpl (listener_new app) true None false name None 0 [] [] ∅ [].

(** [acceptor_.reset( new acceptor_type( ios_, endpoint_ ) )], when the
    constructor did not throw. *)
Definition reset_acceptor : M listener_impl unit :=
  modify (λ w, ListenerImpl (base w) (alive w) (Some (acceptor_fresh w)) (working_ w)
                 (listener_name w) (Some (acceptor_fresh w)) (S (acceptor_fresh w)) (pending w)
                 (conns w) (held w) (unlinked w)).

Definition update (c : nat) (f : connection → connection) : M listener_impl unit :=
  modify (λ w, with_conns (alter f c (conns w)) w).

(** The functions a listener overrides. *)
Class Virtuals : Type := {
  start_success : M listener_impl unit;
  stop_impl : M listener_impl unit;
  connection_setup : nat → socket → M listener_impl unit;
  is_local : bool
}.

(** [listener_tcp]; [local_endpoint] is the port the acceptor was given. *)
Section Tcp.
Context (address : string) (port local_port : Z) (no_delay_ : bool).

Definition tcp_name : string := "tcp://" +:+ address +:+ ":" +:+ pretty port.
Definition tcp_start_success : M listener_impl unit :=
  modify (with_listener_name ("tcp://" +:+ address +:+ ":" +:+ pretty local_port)).
Definition tcp_connection_setup (con : nat) (sock : socket) : M listener_impl unit :=
  (match so_no_delay sock no_delay_ with Some e => raise e | None => ret tt end) ;;;
  match so_remote_endpoint sock with
  | inl e => raise e
  | inr ep => update con (with_name ("tcp://" +:+ ep))
  end.
#[export] Instance listener_tcp : Virtuals := {|
  start_success := tcp_start_success;
  stop_impl := ret tt;
  connection_setup := tcp_connection_setup;
  is_local := false
|}.
Definition listener_tcp_new (app : Environment.environment) : listener_impl := listener_impl_new app tcp_name.
End Tcp.

(** [listener_unix] *)
Section Unix.
Context (path : string).

Definition unix_name : string := "unix://" +:+ path.
Definition unix_stop_impl : M listener_impl unit :=
  modify (λ w, with_unlinked (unlinked w ++ [path]) w).
Definition unix_connection_setup (con : nat) (sock : socket) : M listener_impl unit :=
  let oss := "unix://" +:+ path in
  update con (with_name
    match so_peercred sock with
    | inr (pid, gid, uid) =>
        oss +:+ "[p:" +:+ pretty pid +:+ ", g:" +:+ pretty gid +:+ ", u:" +:+ pretty uid +:+ "]"
    | inl errno => oss +:+ "[get PEERCRED error " +:+ pretty errno +:+ "]"
    end).
Definition listener_unix : Virtuals := {|
  start_success := ret tt;
  stop_impl := unix_stop_impl;
  connection_setup := unix_connection_setup;
  is_local := true
|}.
Definition listener_unix_new (app : Environment.environment) : listener_impl := listener_impl_new app unix_name.
End Unix.

(** *** The operations *)

Section ListenerImpl.
Context (slot : signal → option exn) {V : Virtuals}.

Definition start_accept : M listener_impl unit :=
  let* w := get in
  match acceptor_ w with
  | None => raise (EUndefined "null acceptor")
  | Some a => modify (with_pending (pending w ++ [AcceptOp a (bool_decide (open_acceptor w = Some a))]))
  end.

(** [bound] and [listening]: the outcomes of the acceptor's constructor and of
    [listen]. *)
Definition start (bound listening : option exn) : M listener_impl unit :=
  (match bound with Some e => raise e | None => reset_acceptor end) ;;;
  (match listening with Some e => raise e | None => ret tt end) ;;;
  start_accept ;;;
  modify (with_working true) ;;;
  start_success ;;;
  on_base (call_on_start slot).

Definition acceptor_close : M listener_impl unit :=
  let* w := get in
  match acceptor_ w with
  | None => raise (EUndefined "null acceptor")
  | Some _ => modify (with_open None)
  end.
Definition stop : M listener_impl unit :=
  modify (with_working false) ;;;
  acceptor_close ;;;
  stop_impl.
Definition is_active (w : listener_impl) : bool := working_ w.
(** [~listener_impl( )] closes the acceptor. *)
Definition destroy (w : listener_impl) : listener_impl := with_open None (with_alive false w).

(** The close closure: a weak pointer to the listener. *)
Definition on_client_destroy (conn : nat) : M listener_impl unit :=
  let* w := get in
  if alive w then on_base (stop_connection slot conn) else ret tt.

Definition conn_on_close (c : nat) : M listener_impl unit :=
  update c with_protocol_closed ;;;
  on_client_destroy c.
(** [connection_impl::close( )] and [transport_impl::close( )] *)
Definition close (c : nat) : M listener_impl unit :=
  let* w := get in
  match conns w !! c with
  | None => raise (EUndefined "no such connection")
  | Some co =>
      if negb (closed_ co) then
        update c with_closed ;;;
        conn_on_close c ;;;
        update c with_handle_closed
      else ret tt
  end.
Definition close_drop (c : nat) : M listener_impl unit :=
  close c ;;;
  on_base (drop_client c).

(** [connection_impl::create( *this, sock, get_on_close_cb( ) )] *)
Definition create_connection : M listener_impl nat :=
  let* w := get in
  modify (with_conns (conns w ++ [Connection (Environment.copy_from (env_ (base w)) Environment.environment_new) None ""
                                    false false true false 0 false])) ;;;
  ret (length (conns w)).
(** [assign_lowlevel_factory( fac )]: an empty function stands for the default. *)
Definition assign_lowlevel_factory (c : nat) (fac : option nat) : M listener_impl unit :=
  update c (with_conn_factory fac).
(** [init( )] hands the first message to the transport; its closure starts to read. *)
Definition init (c : nat) (sock : socket) : M listener_impl unit :=
  match so_init sock with Some e => raise e | None => ret tt end.

Definition announce (c : nat) : M listener_impl unit :=
  update c with_announced ;;;
  on_base (new_connection slot c).

(** The body of the try block, [new_conn] being what [create] gave. *)
Definition setup_connection (new_conn : nat) (sock : socket) : M listener_impl unit :=
  connection_setup new_conn sock ;;;
  (let* w := get in assign_lowlevel_factory new_conn (lowlevel_protocol_factory (base w))) ;;;
  on_base (store_client new_conn) ;;;
  announce new_conn ;;;
  init new_conn sock.
Definition accept_connection (sock : socket) : M listener_impl unit :=
  let* new_conn := create_connection in
  try_catch (setup_connection new_conn sock) (λ _, on_base (drop_client new_conn)).

(** The accepted socket, or the error. *)
Definition on_accept (result : Z + socket) : M listener_impl unit :=
  let* w := get in
  if negb (alive w) then ret tt
  else
    match result with
    | inr sock => accept_connection sock ;;; start_accept
    | inl error =>
        if working_ w then
          stop ;;;
          on_base (call_on_accept_failed slot error)
        else on_base (call_on_stop slot)
    end.

(** *** Reading *)

Definition start_reading (c : nat) : M listener_impl unit := update c (with_reading true).

(** A weak pointer to the connection can be locked. *)
Definition conn_alive (w : listener_impl) (c : nat) : Prop :=
  c ∈ ConnectionList.clients_ (clients (base w)) ∨ c ∈ held w.
#[export] Instance conn_alive_dec w c : Decision (conn_alive w c).
Proof. unfold conn_alive. apply _. Defined.

Definition start_read_clos (c : nat) : M listener_impl unit :=
  let* w := get in
  if decide (conn_alive w c) then start_reading c else ret tt.

(** [process] is what [protocol_->process_data] throws; only [std::exception] is
    caught. *)
Definition read_handler (c : nat) (error : bool) (process : option exn) : M listener_impl unit :=
  update c (with_reading false) ;;;
  let* w := get in
  if negb (bool_decide (conn_alive w c)) then ret tt
  else if negb error then
    match process with
    | None => start_reading c
    | Some EUnknown => raise EUnknown
    | Some _ => update c with_protocol_error ;;; close_drop c
    end
  else update c with_protocol_error ;;; close_drop c.
(** The transport reports an error of a write. *)
Definition on_write_error (c : nat) : M listener_impl unit := update c with_protocol_error ;;; close c.

(** [application::stop_all_clients( )] *)
Definition stop_clients : M listener_impl unit :=
  let* w := get in ConnectionList.stop_all_clients close (clients (base w)).

(** *** Steps

    The application starts and stops the listener, destroys it, takes and leaves
    pointers to connections and closes them; the reactor runs handlers. *)

Definition complete (i : nat) (result : Z + socket) : M listener_impl unit :=
  let* w := get in
  modify (with_pending (delete i (pending w))) ;;;
  on_accept result.

(** What the system or the application throws is an exception of the language. *)
Definition defined (e : exn) : Prop := ∀ what, e ≠ EUndefined what.
Definition socket_defined (sock : socket) : Prop :=
  (∀ b e, so_no_delay sock b = Some e → defined e) ∧
  (∀ e, so_remote_endpoint sock = inl e → defined e) ∧
  (∀ e, so_init sock = Some e → defined e).

(** Whatever happens but a start. *)
Inductive run_step : listener_impl → listener_impl → Prop :=
  | step_stop w : alive w = true → is_Some (acceptor_ w) → run_step w (stop w).2
  | step_destroy w : run_step w (destroy w)
  | step_complete i op result w :
      pending w !! i = Some op →
      (∀ sock, result = inr sock → ao_open op = true ∧ socket_defined sock) →
      run_step w (complete i result w).2
  | step_close c w : conn_alive w c → run_step w (close c w).2
  | step_write_error c w : conn_alive w c → run_step w (on_write_error c w).2
  | step_read_start c w : run_step w (start_read_clos c w).2
  | step_read c error process w : run_step w (read_handler c error process w).2
  | step_stop_clients w : run_step w (stop_clients w).2
  | step_hold c w : conn_alive w c → run_step w (with_held ({[c]} ∪ held w) w)
  | step_release c w : run_step w (with_held (held w ∖ {[c]}) w).
Inductive step : listener_impl → listener_impl → Prop :=
  | step_start bound listening w : alive w = true → step w (start bound listening w).2
  | step_run w w' : run_step w w' → step w w'.
End ListenerImpl.

(** ** What the listeners override

    They set names and remove the path, and leave the rest alone. *)

Definition strip (co : connection) : connection := with_name "" co.
Definition core (w : listener_impl) : listener_impl :=
  with_listener_name "" (with_unlinked [] (with_conns (strip <$> conns w) w)).
Definition quiet (m : M listener_impl unit) : Prop := ∀ w, core (m w).2 = core w.

Class VirtualLaws (V : Virtuals) : Prop := {
  vl_start : quiet start_success;
  vl_stop w : (stop_impl w).1 = Ok tt;
  vl_stop_quiet : quiet stop_impl;
  vl_setup c sock : quiet (connection_setup c sock);
  vl_setup_defined c sock w e :
    socket_defined sock → (connection_setup c sock w).1 = Raise e → defined e
}.

Lemma fmap_update {B} (g : connection → B) (f : connection → connection) (c : nat) (l : list connection) :
  (∀ co, g (f co) = g co) → g <$> alter f c l = g <$> l.
Proof.
  intros Hf. apply list_eq. intros i. rewrite !list_lookup_fmap. destruct (decide (i = c)) as [->|Hi].
  - rewrite list_lookup_alter_eq. destruct (l !! c); cbn; [by rewrite Hf|done].
  - by rewrite list_lookup_alter_ne.
Qed.

Lemma alter_twice {B} (f g : B → B) (c : nat) (l : list B) :
  alter f c (alter g c l) = alter (λ x, f (g x)) c l.
Proof.
  apply list_eq. intros i. destruct (decide (i = c)) as [->|Hi].
  - rewrite !list_lookup_alter_eq. by destruct (l !! c).
  - by rewrite !list_lookup_alter_ne.
Qed.

Lemma quiet_name c n : quiet (update c (with_name n)).
Proof. intros w. unfold core, update. cbn. by rewrite (fmap_update strip). Qed.

Lemma quiet_core {B} (f : listener_impl → B) (Hf : ∀ w, f (core w) = f w) m :
  quiet m → ∀ w, f (m w).2 = f w.
Proof. intros Hm w. by rewrite <-Hf, Hm, Hf. Qed.

#[export] Instance listener_tcp_laws address port no_delay : VirtualLaws (listener_tcp address port no_delay).
Proof.
  split; try done; intros c sock w; cbn; unfold tcp_connection_setup, bind;
    destruct (so_no_delay sock no_delay) eqn:Hn, (so_remote_endpoint sock) eqn:He; cbn; try done.
  - apply quiet_name.
  - intros e' (H & _) [= <-]. by eapply H.
  - intros e' (H & _) [= <-]. by eapply H.
  - intros e' (_ & H & _) [= <-]. by eapply H.
Qed.
#[export] Instance listener_unix_laws path : VirtualLaws (listener_unix path).
Proof. split; try done; intros c sock. apply quiet_name. Qed.

(** ** Counting *)

Definition live (co : connection) : bool := announced co && negb (closed_ co).
(** The connections that were announced and are not closed. *)
Fixpoint counted (l : list connection) : Z :=
  match l with
  | [] => 0
  | co :: l => (if live co then 1 else 0) + counted l
  end.

Lemma counted_app l k : counted (l ++ k) = counted l + counted k.
Proof. induction l as [|co l IH]; cbn [counted app]; [done|]. rewrite IH. lia. Qed.
Lemma counted_alter (f : connection → connection) c l co :
  l !! c = Some co →
  counted (alter f c l) = counted l + (if live (f co) then 1 else 0) - (if live co then 1 else 0).
Proof.
  revert c. induction l as [|x l IH]; intros [|c] Hc; try done; cbn [counted alter list_alter] in *.
  - injection Hc as ->. unfold alter. cbn. lia.
  - change (alter f (S c) (x :: l)) with (x :: alter f c l). cbn [counted]. rewrite (IH c Hc). lia.
Qed.
Definition flags (co : connection) : bool * bool := (announced co, closed_ co).
Lemma counted_same l k : flags <$> l = flags <$> k → counted l = counted k.
Proof.
  revert k. induction l as [|x l IH]; intros [|y k]; try done. cbn. intros [= Hx Hy Hl].
  unfold live. by rewrite Hx, Hy, (IH k Hl).
Qed.
Lemma counted_range l : 0 ≤ counted l ≤ blen l.
Proof. induction l as [|x l IH]; [done|]. unfold blen in *. cbn [counted length]. destruct (live x); lia. Qed.

(** What the invariant of the counter is about. *)
Definition count_view (w : listener_impl) :=
  (alive w, client_count_ (base w), clients (base w), held w, flags <$> conns w).

Definition counter_ok (w : listener_impl) : Prop :=
  alive w = true → client_count_ (base w) = u64 (counted (conns w)).
(** Who can be reached was announced. *)
Definition known_ok (w : listener_impl) : Prop :=
  ∀ c, conn_alive w c → ∃ co, conns w !! c = Some co ∧ announced co = true.
Definition count_inv (w : listener_impl) : Prop := counter_ok w ∧ known_ok w.

Lemma count_inv_view w w' : count_view w' = count_view w → count_inv w → count_inv w'.
Proof.
  unfold count_view. intros [= Ha Hn Hc Hh Hf] [H1 H2]. split.
  - intros Ha'. rewrite Hn, H1 by by rewrite <-Ha. f_equal. by apply counted_same.
  - intros c Hal. destruct (H2 c) as (co & Hco & Han).
    { unfold conn_alive in *. by rewrite <-Hc, <-Hh. }
    assert (Hx : (flags <$> conns w') !! c = Some (flags co)) by by rewrite Hf, list_lookup_fmap, Hco.
    rewrite list_lookup_fmap in Hx. destruct (conns w' !! c) as [co'|]; [|done].
    injection Hx as Hx _. exists co'. by rewrite Hx.
Qed.

(** A computation that leaves a view of the listener as it is. *)
Definition same {B} (view : listener_impl → B) {A} (m : M listener_impl A) : Prop :=
  ∀ v, keeps (λ w, view w = v) m.

Section Same.
Context {B : Type} (view : listener_impl → B).
Lemma same_eq {A} (m : M listener_impl A) w : same view m → view (m w).2 = view w.
Proof. intros H. by apply (H _ w). Qed.
Lemma same_bind {A A'} (m : M listener_impl A) (k : A → M listener_impl A') :
  same view m → (∀ x, same view (k x)) → same view (bind m k).
Proof. intros Hm Hk v. apply keeps_bind; [apply Hm|]. intros x. apply Hk. Qed.
Lemma same_ret {A} (x : A) : same view (ret x).
Proof. intros v. apply keeps_ret. Qed.
Lemma same_raise {A} e : same view (A := A) (raise e).
Proof. intros v. apply keeps_raise. Qed.
Lemma same_get : same view get.
Proof. intros v. apply keeps_get. Qed.
Lemma same_modify f : (∀ w, view (f w) = view w) → same view (modify f).
Proof. intros H v w Hw. cbn. by rewrite H. Qed.
Lemma same_quiet m : (∀ w, view (core w) = view w) → quiet m → same view m.
Proof. intros Hf Hm v w <-. by apply quiet_core. Qed.
End Same.
Abbreviation same_count := (same count_view).

Lemma count_view_core w : count_view (core w) = count_view w.
Proof.
  unfold count_view. cbn. f_equal. etransitivity; [symmetry; apply list_fmap_compose|].
  by apply list_fmap_ext.
Qed.
Lemma same_count_update c f : (∀ co, flags (f co) = flags co) → same_count (update c f).
Proof. intros H. apply same_modify. intros w. unfold count_view. cbn. by rewrite fmap_update. Qed.
Lemma same_count_signal slot x : same_count (on_base (raise_signal slot x)).
Proof.
  intros v w <-. unfold on_base, raise_signal, bind, modify. cbn. by destruct (slot x).
Qed.
#[export] Hint Resolve same_bind same_ret same_raise same_get same_quiet count_view_core
  same_count_signal vl_start vl_stop_quiet vl_setup : vtrc.
#[export] Hint Extern 1 (same _ (modify _)) => apply same_modify; by intros [] : vtrc.
#[export] Hint Extern 1 (same_count (update _ _)) => apply same_count_update; by intros [] : vtrc.
Ltac step_same :=
  repeat first [apply same_bind; [|intros ?] | progress auto with vtrc
               | match goal with |- same _ (match ?x with _ => _ end) => destruct x end].

(** *** The invariant *)

Section Counter.
Context (slot : signal → option exn) {V : Virtuals} `{!VirtualLaws V}.

Lemma same_count_start_accept : same_count start_accept.
Proof. unfold start_accept. step_same. Qed.
Lemma same_count_stop : same_count stop.
Proof. unfold stop, acceptor_close. step_same. Qed.
Lemma same_count_start bound listening : same_count (start slot bound listening).
Proof.
  unfold start, reset_acceptor, call_on_start. pose proof same_count_start_accept.
  destruct bound; step_same.
Qed.

(** A live connection is closed: it leaves the count. *)
Lemma close_live c w co :
  conns w !! c = Some co → closed_ co = false →
  let w' := (close slot c w).2 in
  alive w' = alive w ∧ clients (base w') = clients (base w) ∧ held w' = held w ∧
  (∃ f, conns w' = alter f c (conns w) ∧ ∀ co, announced (f co) = announced co ∧ closed_ (f co) = true) ∧
  (alive w = true → client_count_ (base w') = u64 (client_count_ (base w) - 1)).
Proof.
  intros Hco Hcl. unfold close, conn_on_close, on_client_destroy, bind, get. rewrite Hco, Hcl. cbn.
  destruct (alive w) eqn:Ha; cbn; [unfold on_base, stop_connection, raise_signal, bind, modify; cbn;
    destruct (slot _); cbn|]; rewrite ?Ha; split_and!; try done.
  all: rewrite ?alter_twice; eexists; split; [reflexivity|]; by intros [].
Qed.

Lemma close_reach c w d : conn_alive (close slot c w).2 d ↔ conn_alive w d.
Proof.
  destruct (conns w !! c) as [co|] eqn:Hco; [destruct (closed_ co) eqn:Hcl|].
  - unfold close, bind, get. by rewrite Hco, Hcl.
  - destruct (close_live c w co Hco Hcl) as (_ & Hc & Hh & _). unfold conn_alive. by rewrite Hc, Hh.
  - unfold close, bind, get. by rewrite Hco.
Qed.

(** A connection nobody knows yet. *)
Definition unknown (c : nat) (w : listener_impl) : Prop :=
  (flags <$> conns w) !! c = Some (false, false).
Lemma unknown_same {A} (m : M listener_impl A) c w : same_count m → unknown c w → unknown c (m w).2.
Proof.
  intros Hm. unfold unknown. pose proof (same_eq count_view m w Hm) as Hv. unfold count_view in Hv.
  by injection Hv as _ _ _ _ ->.
Qed.

(** What is done to a connection before it is stored. *)
Definition prepare (c : nat) (sock : socket) : M listener_impl unit :=
  connection_setup c sock ;;;
  (let* w := get in assign_lowlevel_factory c (lowlevel_protocol_factory (base w))).
Lemma same_prepare c sock : same_count (prepare c sock).
Proof. unfold prepare, assign_lowlevel_factory. step_same. Qed.
Lemma setup_split c sock w :
  setup_connection slot c sock w =
  (prepare c sock ;;; (on_base (store_client c) ;;; announce slot c) ;;; init c sock) w.
Proof. unfold setup_connection, prepare, bind. by destruct (connection_setup c sock w) as [[]]. Qed.

(** *** What a property of the view has to survive *)

Record count_rules (I : listener_impl → Prop) : Prop := {
  cr_view w w' : count_view w' = count_view w → I w → I w';
  cr_close c w : conn_alive w c → I w → I (close slot c w).2;
  cr_drop c w : I w → I (on_base (drop_client c) w).2;
  cr_add w co : flags co = (false, false) → I w → I (with_conns (conns w ++ [co]) w);
  cr_announce c w : unknown c w → I w → I ((on_base (store_client c) ;;; announce slot c) w).2;
  cr_destroy w : I w → I (destroy w);
  cr_hold c w : conn_alive w c → I w → I (with_held ({[c]} ∪ held w) w);
  cr_release c w : I w → I (with_held (held w ∖ {[c]}) w)
}.

Section Rules.
Context (I : listener_impl → Prop) (HI : count_rules I).

Lemma rules_same {A} (m : M listener_impl A) w : same_count m → I w → I (m w).2.
Proof. intros Hm. by apply (cr_view I HI), same_eq. Qed.

Lemma close_drop_inv c w : conn_alive w c → I w → I (close_drop slot c w).2.
Proof.
  intros Hal Hw. unfold close_drop, bind. pose proof (cr_close I HI c w Hal Hw) as Hi.
  destruct (close slot c w) as [[[]|e] w']; [by apply (cr_drop I HI)|done].
Qed.

(** The protocol layer is told of an error. *)
Lemma report_reach c d w :
  conn_alive (update c with_protocol_error w).2 d ↔ conn_alive w d.
Proof. done. Qed.
Lemma report_inv c w : I w → I (update c with_protocol_error w).2.
Proof. apply rules_same. auto with vtrc. Qed.
Lemma report_drop_inv c w :
  conn_alive w c → I w → I ((update c with_protocol_error ;;; close_drop slot c) w).2.
Proof.
  intros Hal Hw. erewrite bind_ok by reflexivity. apply close_drop_inv; [done|by apply (report_inv c)].
Qed.
Lemma write_error_inv c w : conn_alive w c → I w → I (on_write_error slot c w).2.
Proof.
  intros Hal Hw. unfold on_write_error. erewrite bind_ok by reflexivity.
  apply (cr_close I HI); [done|by apply (report_inv c)].
Qed.

Lemma read_handler_inv c error process w :
  I w → I (read_handler slot c error process w).2.
Proof.
  intros Hw. unfold read_handler. erewrite bind_ok by reflexivity. rewrite bind_get.
  set (w1 := with_conns _ w). assert (Hw1 : I w1).
  { apply (rules_same (update c (with_reading false)) w); auto with vtrc. }
  destruct (bool_decide _) eqn:Hal; bool_props; cbn [negb]; [|done].
  destruct error; cbn [negb]; [by apply report_drop_inv|].
  destruct process as [[]|]; try (by apply report_drop_inv); [done|].
  apply (rules_same (start_reading c) w1); [|done]. unfold start_reading. auto with vtrc.
Qed.

Lemma start_read_inv c w : I w → I (start_read_clos c w).2.
Proof. apply rules_same. unfold start_read_clos, start_reading. step_same. Qed.

(** Closing some of the clients, one after the other. *)
Lemma close_clients_inv cs r w :
  (∀ c, c ∈ cs → conn_alive w c) → I w →
  I (ConnectionList.foreach_while_loop (ConnectionList.close_all_connection (close slot)) cs r w).2.
Proof.
  revert r w. induction cs as [|c cs IH]; intros r w Hcs Hw; [done|].
  cbn [ConnectionList.foreach_while_loop]. unfold ConnectionList.close_all_connection at 1.
  pose proof (cr_close I HI c w (Hcs c ltac:(by left)) Hw) as Hi.
  pose proof (close_reach c w) as Hr. unfold bind at 1 2.
  destruct (close slot c w) as [[[]|e] w']; [|done]. cbn. apply IH; [|done].
  intros d Hd. apply Hr, Hcs. by right.
Qed.
Lemma stop_clients_inv w : I w → I (stop_clients slot w).2.
Proof.
  intros Hw. unfold stop_clients, ConnectionList.stop_all_clients, ConnectionList.foreach_while.
  rewrite bind_get.
  pose proof (close_clients_inv (ConnectionList.clients_ (clients (base w))) 0 w
    ltac:(intros c Hc; by left) Hw) as Hi. unfold bind.
  by destruct (ConnectionList.foreach_while_loop _ _ _ w) as [[r|e] w'].
Qed.

Lemma setup_connection_inv c sock w :
  unknown c w → I w → I (setup_connection slot c sock w).2.
Proof.
  intros Hu Hw. rewrite setup_split. pose proof (same_prepare c sock) as Hp.
  pose proof (rules_same _ w Hp Hw) as Hi. pose proof (unknown_same _ c w Hp Hu) as Hc.
  unfold bind at 1. destruct (prepare c sock w) as [[[]|e] w1]; [|done]. cbn in Hi, Hc.
  pose proof (cr_announce I HI c w1 Hc Hi) as Hi2.
  unfold bind at 1. destruct ((on_base (store_client c) ;;; announce slot c) w1) as [[[]|e] w2]; [|done].
  unfold init. by destruct (so_init sock).
Qed.

Lemma accept_connection_inv sock w : I w → I (accept_connection slot sock w).2.
Proof.
  intros Hw. unfold accept_connection. erewrite bind_ok by reflexivity.
  set (w1 := with_conns _ w).
  assert (Hi : I (setup_connection slot (length (conns w)) sock w1).2).
  { apply setup_connection_inv; [|by apply (cr_add I HI)]. unfold unknown, w1. cbn.
    by rewrite fmap_app, lookup_app_r, length_fmap, Nat.sub_diag by by rewrite length_fmap. }
  unfold try_catch. destruct (setup_connection _ _ _ w1) as [[[]|[]] w2]; cbn [snd] in Hi |- *;
    done || by apply (cr_drop I HI).
Qed.

Lemma on_accept_inv result w : I w → I (on_accept slot result w).2.
Proof.
  intros Hw. unfold on_accept. rewrite bind_get. destruct (alive w); cbn [negb]; [|done].
  destruct result as [error|sock].
  - apply rules_same; [|done]. unfold call_on_accept_failed, call_on_stop. pose proof same_count_stop.
    destruct (working_ w); step_same.
  - unfold bind. pose proof (accept_connection_inv sock w Hw) as Hi.
    destruct (accept_connection slot sock w) as [[[]|e] w1]; [|done].
    apply rules_same; [apply same_count_start_accept|done].
Qed.

Lemma complete_counted i result w : I w → I (complete slot i result w).2.
Proof.
  intros Hw. unfold complete. rewrite bind_get, bind_modify. apply on_accept_inv.
  by apply (cr_view I HI w).
Qed.

Lemma run_step_rules w w' : run_step slot w w' → I w → I w'.
Proof.
  destruct 1 as [w Ha Hac|w|i op result w Hop Hr|c w Hal|c w Hal|c w|c error process w|w|c w Hal|c w];
    intros Hw.
  - apply rules_same; [apply same_count_stop|done].
  - by apply (cr_destroy I HI).
  - by apply complete_counted.
  - by apply (cr_close I HI).
  - by apply write_error_inv.
  - by apply start_read_inv.
  - by apply read_handler_inv.
  - by apply stop_clients_inv.
  - by apply (cr_hold I HI).
  - by apply (cr_release I HI).
Qed.

Lemma steps_rules w w' : rtc (step slot) w w' → I w → I w'.
Proof.
  induction 1 as [|w w1 w' Hs _ IH]; [done|]. intros Hw. apply IH.
  destruct Hs as [bound listening w Ha|w w1 Hs]; [apply rules_same; [apply same_count_start|done]|].
  by eapply run_step_rules.
Qed.
End Rules.

(** *** The count *)

Lemma close_counted c w : conn_alive w c → count_inv w → count_inv (close slot c w).2.
Proof.
  intros Hal [H1 H2]. destruct (H2 c Hal) as (co & Hco & Han). destruct (closed_ co) eqn:Hcl.
  - unfold close, bind, get. rewrite Hco, Hcl. by split.
  - destruct (close_live c w co Hco Hcl) as (Ha & Hc & Hh & (f & Hf & Hfl) & Hn). split.
    + intros Ha'. rewrite Ha in Ha'. rewrite Hn, H1, Hf by done.
      rewrite (counted_alter f c _ co Hco). unfold live at 1 2. destruct (Hfl co) as [-> ->].
      rewrite Han, Hcl. cbn. unfold wrap. rewrite Zminus_mod_idemp_l. f_equal. lia.
    + intros d Hd. unfold conn_alive in Hd. rewrite Hc, Hh in Hd. destruct (H2 d Hd) as (x & Hx & Hxa).
      rewrite Hf. destruct (decide (d = c)) as [->|Hne].
      * rewrite list_lookup_alter_eq, Hx. exists (f x). split; [done|]. by rewrite (proj1 (Hfl x)).
      * rewrite list_lookup_alter_ne by done. eauto.
Qed.

(** It is stored and announced: it is counted, whether the slot threw or not. *)
Lemma announce_inv c w co :
  conns w !! c = Some co → announced co = false → closed_ co = false → count_inv w →
  count_inv ((on_base (store_client c) ;;; announce slot c) w).2.
Proof.
  intros Hco Han Hcl [H1 H2]. split.
  - intros Ha. unfold announce, new_connection, raise_signal, on_base, bind, modify in *. cbn in *.
    assert (Hn : u64 (client_count_ (base w) + 1) = u64 (counted (alter with_announced c (conns w)))).
    { rewrite (counted_alter _ _ _ _ Hco). unfold live. cbn. rewrite Han, Hcl. cbn.
      rewrite H1 by by destruct (slot _). rewrite wrap_add_l. f_equal. lia. }
    by destruct (slot _).
  - intros d Hd.
    assert (Hd' : d = c ∨ conn_alive w d).
    { unfold announce, new_connection, raise_signal, on_base, bind, modify, conn_alive in *. cbn in Hd.
      destruct (slot _); cbn in Hd; rewrite insert_sorted_elem in Hd; tauto. }
    assert (Hc : ((on_base (store_client c) ;;; announce slot c) w).2.(conns) = alter with_announced c (conns w)).
    { unfold announce, new_connection, raise_signal, on_base, bind, modify. cbn. by destruct (slot _). }
    rewrite Hc. destruct (decide (d = c)) as [->|Hne].
    + rewrite list_lookup_alter_eq, Hco. eexists. by split; [|].
    + rewrite list_lookup_alter_ne by done. destruct Hd' as [|Hd']; [done|]. by apply H2.
Qed.

Lemma count_inv_rules : count_rules count_inv.
Proof.
  split.
  - apply count_inv_view.
  - apply close_counted.
  - intros c w [H1 H2]. split; [done|]. intros d [Hd|Hd]; apply H2; [left|by right].
    cbn in Hd. by apply list_elem_of_filter in Hd as [_ Hd].
  - intros w co Hf [H1 H2]. injection Hf as Han Hcl. split.
    + intros Ha. cbn in *. rewrite counted_app. cbn [counted]. unfold live. rewrite Han, Z.add_0_r. by apply H1.
    + intros c Hc. destruct (H2 c Hc) as (x & Hx & Hxa). exists x. split; [|done].
      cbn. by apply lookup_app_l_Some.
  - intros c w Hu. unfold unknown in Hu. rewrite list_lookup_fmap in Hu.
    destruct (conns w !! c) as [co|] eqn:Hco; [|done]. injection Hu as Han Hcl. by apply announce_inv with co.
  - by intros w [_ H2].
  - intros c w Hal [H1 H2]. split; [done|]. intros d [Hd|Hd]; [apply H2; by left|].
    cbn in Hd. apply elem_of_union in Hd as [->%elem_of_singleton|Hd]; apply H2; [done|by right].
  - intros c w [H1 H2]. split; [done|]. intros d [Hd|Hd]; apply H2; [by left|right].
    cbn in Hd. by apply elem_of_difference in Hd as [Hd _].
Qed.

Lemma new_count_inv app name : count_inv (listener_impl_new app name).
Proof. split; [done|]. intros c [Hc|Hc]; cbn in Hc; [by apply elem_of_nil in Hc|by apply elem_of_empty in Hc]. Qed.

Lemma counted_live (l : list connection) c : (flags <$> l) !! c = Some (true, false) → 1 ≤ counted l.
Proof.
  revert c. induction l as [|co l IH]; intros [|c] Hc; try done; cbn [counted] in *.
  - injection Hc as Ha Hc. unfold live. rewrite Ha, Hc. cbn. pose proof (counted_range l). lia.
  - specialize (IH c Hc). destruct (live co); lia.
Qed.

(** *** A connection that nobody can reach any more *)

Definition orphan (c : nat) (w : listener_impl) : Prop :=
  (flags <$> conns w) !! c = Some (true, false) ∧ ¬ conn_alive w c.

Lemma orphan_alter c d f w : d ≠ c →
  (flags <$> alter f d (conns w)) !! c = (flags <$> conns w) !! c.
Proof. intros Hne. by rewrite !list_lookup_fmap, list_lookup_alter_ne. Qed.

Lemma orphan_announce c d w :
  unknown d w → orphan c w → orphan c ((on_base (store_client d) ;;; announce slot d) w).2.
Proof.
  intros Hu [Hf Ho]. assert (d ≠ c) by (intros ->; unfold unknown in Hu; congruence).
  unfold orphan, conn_alive, announce, new_connection, raise_signal, on_base, bind, modify in *. cbn.
  destruct (slot _); cbn; rewrite orphan_alter, insert_sorted_elem by done; 
    (split; [done|]; intros [[->|Hd]|Hd]; tauto).
Qed.

Lemma orphan_rules c : count_rules (orphan c).
Proof.
  unfold orphan. split.
  - intros w w' [= Ha Hn Hc Hh Hf]. unfold conn_alive. by rewrite Hf, Hc, Hh.
  - intros d w Hal [Hf Ho]. rewrite close_reach. split; [|done].
    assert (d ≠ c) by congruence.
    destruct (conns w !! d) as [co|] eqn:Hco; [destruct (closed_ co) eqn:Hcl|].
    + unfold close, bind, get. by rewrite Hco, Hcl.
    + destruct (close_live d w co Hco Hcl) as (_ & _ & _ & (f & -> & _) & _). by rewrite orphan_alter.
    + unfold close, bind, get. by rewrite Hco.
  - intros d w [Hf Ho]. split; [done|]. intros [Hd|Hd]; apply Ho; [left|by right].
    cbn in Hd. by apply list_elem_of_filter in Hd as [_ Hd].
  - intros w co _ [Hf Ho]. split; [|done]. cbn. rewrite fmap_app. by apply lookup_app_l_Some.
  - intros d w. apply orphan_announce.
  - done.
  - intros d w Hal [Hf Ho]. split; [done|]. intros [Hd|Hd]; [apply Ho; by left|].
    cbn in Hd. apply elem_of_union in Hd as [->%elem_of_singleton|Hd]; apply Ho; [done|by right].
  - intros d w [Hf Ho]. split; [done|]. intros [Hd|Hd]; apply Ho; [by left|right].
    cbn in Hd. by apply elem_of_difference in Hd as [Hd _].
Qed.

Lemma announced_view c w :
  slot (on_new_connection c) = None → unknown c w →
  ∃ w', (on_base (store_client c) ;;; announce slot c) w = (Ok tt, w') ∧
    (flags <$> conns w') !! c = Some (true, false) ∧ held w' = held w ∧
    clients (base w') = (ConnectionList.store c (clients (base w))).2.
Proof.
  intros Hs Hu. unfold announce, new_connection, raise_signal, on_base, bind, modify. cbn. rewrite Hs. cbn.
  eexists. split; [reflexivity|]. cbn. split; [|done]. unfold unknown in Hu. rewrite list_lookup_fmap in *.
  rewrite list_lookup_alter_eq. destruct (conns w !! c) as [co|]; [|done]. injection Hu as Ha Hc.
  cbn. unfold flags. by rewrite <-Hc.
Qed.

Lemma failed_init_orphan sock e w (c := length (conns w)) :
  count_inv w → (∀ w', (connection_setup c sock w').1 = Ok tt) → slot (on_new_connection c) = None →
  so_init sock = Some e → defined e → orphan c (accept_connection slot sock w).2.
Proof.
  intros [_ Hk] Hset Hslot Hi He. unfold accept_connection. erewrite bind_ok by reflexivity.
  fold c. set (w0 := with_conns _ w). assert (Hu : unknown c w0).
  { unfold unknown, w0, c. cbn. by rewrite fmap_app, lookup_app_r, length_fmap, Nat.sub_diag by by rewrite length_fmap. }
  assert (Hp : prepare c sock w0 = (Ok tt, (prepare c sock w0).2)).
  { unfold prepare, bind. specialize (Hset w0). by destruct (connection_setup c sock w0) as [[[]|] ?]. }
  pose proof (unknown_same _ c w0 (same_prepare c sock) Hu) as Hu1.
  pose proof (same_eq count_view _ w0 (same_prepare c sock)) as Hv.
  destruct (announced_view c _ Hslot Hu1) as (w2 & Hw2 & Hf2 & Hh2 & _).
  assert (Hr : setup_connection slot c sock w0 = (Raise e, w2)).
  { rewrite setup_split, (bind_ok _ _ _ _ _ Hp), (bind_ok _ _ _ _ _ Hw2). unfold init. by rewrite Hi. }
  assert (Hd : orphan c (on_base (drop_client c) w2).2).
  { split; [done|]. intros [Hc|Hc]; cbn in Hc; [by apply list_elem_of_filter in Hc as [Hc _]|].
    rewrite Hh2 in Hc. unfold count_view in Hv. injection Hv as _ _ _ Hh _. rewrite Hh in Hc.
    destruct (Hk c ltac:(by right)) as (co & Hco & _). apply lookup_lt_Some in Hco. unfold c in Hco. lia. }
  unfold try_catch. rewrite Hr. destruct e; try done. by destruct (He what).
Qed.

End Counter.

(** ** The accept loop *)

(** The signals that end it. *)
Definition terminal (x : signal) : bool :=
  match x with on_stop | on_accept_failed _ => true | _ => false end.
Definition ended (l : listener) : list signal := filter (λ x, terminal x = true) (signals l).

Definition accept_view (w : listener_impl) :=
  (alive w, acceptor_ w, working_ w, open_acceptor w, pending w, ended (base w)).

(** While the listener lives there is a call of [async_accept] under way, or the
    loop was left with one signal; a working listener has an open acceptor. *)
Definition accept_inv (w : listener_impl) : Prop :=
  alive w = true → ∃ a, acceptor_ w = Some a ∧
    if working_ w then open_acceptor w = Some a ∧ pending w = [AcceptOp a true] ∧ ended (base w) = []
    else open_acceptor w = None ∧
         ((∃ o, pending w = [AcceptOp a o] ∧ ended (base w) = []) ∨
          (pending w = [] ∧ length (ended (base w)) = 1%nat)).

Lemma accept_inv_view w w' : accept_view w' = accept_view w → accept_inv w → accept_inv w'.
Proof. unfold accept_view, accept_inv. by intros [= -> -> -> -> -> ->]. Qed.

Section AcceptLoop.
Context (slot : signal → option exn) {V : Virtuals} `{!VirtualLaws V}.
Hypothesis (Hslot : ∀ x e, slot x = Some e → defined e).
Abbreviation same_accept := (same accept_view).

(** A signal that does not end the loop. *)
Ltac signal_frame :=
  intros ? ? <-; unfold on_base, new_connection, stop_connection, raise_signal, bind, modify, accept_view, ended;
  cbn; destruct (slot _); cbn; by rewrite filter_app, filter_cons_False, app_nil_r by (cbn; congruence).
Lemma same_accept_update c f : same_accept (update c f).
Proof. by apply same_modify. Qed.
Lemma same_accept_drop c : same_accept (on_base (drop_client c)).
Proof. by intros v w <-. Qed.
Lemma same_accept_store c : same_accept (on_base (store_client c)).
Proof. by intros v w <-. Qed.
Lemma same_accept_new c : same_accept (on_base (new_connection slot c)).
Proof. signal_frame. Qed.
Lemma same_accept_stop c : same_accept (on_base (stop_connection slot c)).
Proof. signal_frame. Qed.
#[local] Hint Resolve same_accept_update same_accept_drop same_accept_store same_accept_new
  same_accept_stop : vtrc.

Lemma accept_view_core w : accept_view (core w) = accept_view w.
Proof. done. Qed.
#[local] Hint Resolve accept_view_core : vtrc.

Lemma same_accept_close c : same_accept (close slot c).
Proof.
  unfold close, conn_on_close, on_client_destroy. step_same.
Qed.
#[local] Hint Resolve same_accept_close : vtrc.
Lemma same_accept_write c : same_accept (on_write_error slot c).
Proof. unfold on_write_error. step_same. Qed.
#[local] Hint Resolve same_accept_write : vtrc.
Lemma same_accept_read c error process : same_accept (read_handler slot c error process).
Proof.
  unfold read_handler, close_drop, start_reading. step_same.
Qed.
Lemma same_accept_clients cs r :
  same_accept (ConnectionList.foreach_while_loop (ConnectionList.close_all_connection (close slot)) cs r).
Proof.
  revert r. induction cs as [|c cs IH]; intros r; cbn [ConnectionList.foreach_while_loop];
    unfold ConnectionList.close_all_connection; step_same.
Qed.
Lemma same_accept_stop_clients : same_accept (stop_clients slot).
Proof.
  unfold stop_clients, ConnectionList.stop_all_clients, ConnectionList.foreach_while.
  pose proof same_accept_clients. step_same.
Qed.
Lemma same_accept_setup c sock : same_accept (setup_connection slot c sock).
Proof.
  unfold setup_connection, assign_lowlevel_factory, announce, init. step_same.
Qed.

(** Setting up a connection ends with an exception of the language, if it throws. *)
Lemma setup_defined c sock w e :
  socket_defined sock → (setup_connection slot c sock w).1 = Raise e → defined e.
Proof.
  intros Hs. unfold setup_connection, bind at 1. pose proof (vl_setup_defined c sock w) as Hd.
  destruct (connection_setup c sock w) as [[[]|e'] w1]; cbn; [|by intros [= ->]; apply Hd].
  clear Hd. unfold assign_lowlevel_factory, announce, new_connection, raise_signal, init, on_base, bind, modify.
  cbn. destruct (slot _) as [e1|] eqn:E1; cbn; [intros [= <-]; by eapply Hslot|].
  destruct Hs as (_ & _ & Hi). destruct (so_init sock) as [e2|] eqn:E2; cbn; [|done].
  intros [= <-]. by eapply Hi.
Qed.

Lemma accept_connection_ok sock w :
  socket_defined sock →
  (accept_connection slot sock w).1 = Ok tt ∧ accept_view (accept_connection slot sock w).2 = accept_view w.
Proof.
  intros Hs. unfold accept_connection. erewrite bind_ok by reflexivity. set (w1 := with_conns _ w).
  pose proof (setup_defined (length (conns w)) sock w1) as Hd.
  pose proof (same_eq accept_view _ w1 (same_accept_setup (length (conns w)) sock)) as Hv.
  unfold try_catch. destruct (setup_connection slot (length (conns w)) sock w1) as [[[]|e] w2]; [done|].
  specialize (Hd e Hs eq_refl).
  assert (Hdr : (on_base (drop_client (length (conns w))) w2).1 = Ok tt ∧
    accept_view (on_base (drop_client (length (conns w))) w2).2 = accept_view w) by done.
  destruct e; try exact Hdr. by destruct (Hd what).
Qed.
Lemma accept_inv_same {A} (m : M listener_impl A) w : same_accept m → accept_inv w → accept_inv (m w).2.
Proof. intros Hm. by apply accept_inv_view, same_eq. Qed.

Lemma acceptor_close_eq w a : acceptor_ w = Some a → acceptor_close w = (Ok tt, with_open None w).
Proof. intros Ha. unfold acceptor_close. by rewrite bind_get, Ha. Qed.
Lemma stop_eq w a : acceptor_ w = Some a →
  (stop w).1 = Ok tt ∧ accept_view (stop w).2 = accept_view (with_open None (with_working false w)).
Proof.
  intros Ha. unfold stop. rewrite bind_modify, (bind_ok _ _ _ _ _ (acceptor_close_eq (with_working false w) a Ha)).
  split; [apply vl_stop|].
  exact (same_eq accept_view stop_impl _ (same_quiet _ _ accept_view_core vl_stop_quiet)).
Qed.

Lemma signal_ends x w :
  terminal x = true →
  accept_view (on_base (raise_signal slot x) w).2 =
  (alive w, acceptor_ w, working_ w, open_acceptor w, pending w, ended (base w) ++ [x]).
Proof.
  intros Hx. unfold on_base, raise_signal, bind, modify, accept_view, ended. cbn.
  destruct (slot x); cbn; by rewrite filter_app, filter_cons_True.
Qed.

(** The two ways a handler leaves the loop. *)
Lemma accept_error error w a :
  alive w = true → acceptor_ w = Some a → (working_ w = false → open_acceptor w = None) →
  accept_view (on_accept slot (inl error) w).2 =
  (true, Some a, false, None, pending w,
   ended (base w) ++ [if working_ w then on_accept_failed error else on_stop]).
Proof.
  intros Hal Ha Ho. unfold on_accept. rewrite bind_get, Hal. cbn [negb].
  destruct (working_ w) eqn:Hw.
  - destruct (stop_eq w a Ha) as [Hok Hv]. unfold bind. destruct (stop w) as [r w1]. cbn in Hok, Hv. subst r.
    unfold call_on_accept_failed. rewrite signal_ends by done.
    unfold accept_view in Hv. injection Hv as -> -> -> -> -> ->. cbn. by rewrite Hal, Ha.
  - unfold call_on_stop. rewrite signal_ends by done. by rewrite Hal, Ha, Hw, Ho.
Qed.

(** A connection is accepted and the next one asked for. *)
Lemma accept_again sock w a :
  socket_defined sock → alive w = true → acceptor_ w = Some a → pending w = [] →
  accept_view (on_accept slot (inr sock) w).2 =
  (true, Some a, working_ w, open_acceptor w,
   [AcceptOp a (bool_decide (open_acceptor w = Some a))], ended (base w)).
Proof.
  intros Hs Hal Ha Hp. unfold on_accept. rewrite bind_get, Hal. cbn [negb].
  destruct (accept_connection_ok sock w Hs) as [Hok Hv]. unfold bind.
  destruct (accept_connection slot sock w) as [r w1]. cbn in Hok, Hv. subst r.
  unfold accept_view in Hv. injection Hv as Ha1 Ha2 Ha3 Ha4 Ha5 Ha6. unfold start_accept. rewrite bind_get.
  rewrite Ha2, Ha. unfold accept_view. cbn. by rewrite Ha1, Ha2, Ha3, Ha4, Ha5, Ha6, Hal, Ha, Hp.
Qed.

Lemma completed_eq i result w : complete slot i result w = on_accept slot result (with_pending (delete i (pending w)) w).
Proof. done. Qed.

Lemma complete_accept_inv i op result w :
  pending w !! i = Some op → (∀ sock, result = inr sock → ao_open op = true ∧ socket_defined sock) →
  accept_inv w → accept_inv (complete slot i result w).2.
Proof.
  intros Hop Hr Hw. rewrite completed_eq. set (w1 := with_pending _ w).
  destruct (alive w) eqn:Hal.
  2: { intros Ha. unfold on_accept in Ha. rewrite bind_get in Ha. cbn in Ha. rewrite Hal in Ha. cbn in Ha.
       by rewrite Hal in Ha. }
  destruct (Hw Hal) as (a & Ha & Hst).
  assert (Hp : pending w1 = [] ∧ ended (base w1) = [] ∧ (working_ w1 = false → open_acceptor w1 = None) ∧
    (working_ w1 = true → open_acceptor w1 = Some a)).
  { cbn. destruct (working_ w); [destruct Hst as (Ho & Hp & He)|destruct Hst as (Ho & [(o & Hp & He)|[Hp _]])];
      rewrite Hp in Hop |- *; [destruct i as [|]|destruct i as [|]|]; done. }
  destruct Hp as (Hp & He & Hf & Ht). change (alive w1 = true) in Hal. change (acceptor_ w1 = Some a) in Ha.
  clearbody w1. destruct result as [error|sock].
  - pose proof (accept_error error w1 a Hal Ha Hf) as Hv. rewrite Hp, He in Hv. unfold accept_view in Hv.
    injection Hv as H1 H2 H3 H4 H5 H6. intros _. exists a. rewrite H2, H3, H4, H5, H6.
    split; [done|]. split; [done|]. by right.
  - destruct (Hr sock eq_refl) as [_ Hs]. pose proof (accept_again sock w1 a Hs Hal Ha Hp) as Hv.
    unfold accept_view in Hv. injection Hv as H1 H2 H3 H4 H5 H6. intros _. exists a.
    rewrite H2, H3, H4, H5, H6, He.
    split; [done|]. destruct (working_ w1) eqn:Hwk.
    + rewrite Ht by done. by rewrite bool_decide_true.
    + rewrite Hf by done. split; [done|]. left. eauto.
Qed.

Lemma run_step_accept_inv w w' : run_step slot w w' → accept_inv w → accept_inv w'.
Proof.
  destruct 1 as [w Ha Hac|w|i op result w Hop Hr|c w Hal|c w Hal|c w|c error process w|w|c w Hal|c w];
    intros Hw; try (by eapply complete_accept_inv); try (apply accept_inv_same; by auto with vtrc).
  - destruct (Hw Ha) as (a & Hacc & Hst). destruct (stop_eq w a Hacc) as [_ Hv]. intros _. exists a.
    unfold accept_view in Hv. injection Hv as H1 H2 H3 H4 H5 H6. rewrite H2, H3, H4, H5, H6. cbn.
    split; [done|]. split; [done|]. destruct (working_ w); [|by destruct Hst as [_ Hst]].
    left. destruct Hst as (_ & Hp & He). eauto.
  - done.
  - apply accept_inv_same; [|done]. unfold start_read_clos, start_reading. step_same.
  - apply accept_inv_same; [|done]. apply same_accept_read.
  - apply accept_inv_same; [|done]. apply same_accept_stop_clients.
  - exact Hw.
  - exact Hw.
Qed.

Lemma runs_accept_inv w w' : rtc (run_step slot) w w' → accept_inv w → accept_inv w'.
Proof. induction 1 as [|w w1 w' Hs _ IH]; [done|]. intros Hw. by eapply IH, run_step_accept_inv. Qed.

(** A start that succeeds. *)
Lemma start_view w :
  let a := acceptor_fresh w in
  accept_view (start slot None None w).2 =
  (alive w, Some a, true, Some a, pending w ++ [AcceptOp a true], ended (base w)).
Proof.
  unfold start. erewrite bind_ok by reflexivity. erewrite bind_ok by reflexivity.
  erewrite bind_ok by (unfold start_accept; rewrite bind_get; cbn; by rewrite bool_decide_true).
  assert (Hs : same_accept (start_success ;;; on_base (call_on_start slot))).
  { unfold call_on_start. step_same. signal_frame. }
  rewrite bind_modify. by rewrite (same_eq accept_view _ _ Hs).
Qed.

End AcceptLoop.

(** ** Properties *)

(** The handlers that can run next: of a call made on an acceptor that was closed
    only errors. *)
Definition may_complete (w : listener_impl) (i : nat) (result : Z + socket) : Prop :=
  ∃ op, pending w !! i = Some op ∧
        ∀ sock, result = inr sock → ao_open op = true ∧ socket_defined sock.
(** However the next handlers run, after [n] of them none is left. *)
Fixpoint drains {V : Virtuals} (slot : signal → option exn) (n : nat) (w : listener_impl) : Prop :=
  match n with
  | O => pending w = []
  | S n => ∀ i result, may_complete w i result → drains slot n (complete slot i result w).2
  end.

Section Drains.
Context {V : Virtuals} `{!VirtualLaws V} (slot : signal → option exn).
Hypothesis (Hslot : ∀ x e, slot x = Some e → defined e).

Lemma drains_none n w : pending w = [] → drains slot n w.
Proof. intros Hp. destruct n; [done|]. intros i result (op & Hop & _). by rewrite Hp in Hop. Qed.

(** A stopped listener asks at most once more, on a closed acceptor. *)
Lemma drains_stopped n w a o :
  alive w = true → acceptor_ w = Some a → working_ w = false → open_acceptor w = None →
  pending w = [AcceptOp a o] → ended (base w) = [] → drains slot (S (if o then S n else n)) w.
Proof.
  revert w o. assert (Herr : ∀ w n error, alive w = true → acceptor_ w = Some a → working_ w = false →
    open_acceptor w = None → ended (base w) = [] → drains slot n (complete slot 0 (inl error) w).2 ∨
    length (pending w) ≠ 1%nat).
  { intros w k error Hal Ha Hw Ho He. rewrite completed_eq.
    destruct (decide (length (pending w) = 1%nat)) as [Hl|]; [left|by right]. apply drains_none.
    destruct (pending w) as [|op [|]] eqn:Hp; try done.
    pose proof (accept_error slot error (with_pending [] w) a Hal Ha (λ _, Ho)) as Hv.
    unfold accept_view in Hv. by injection Hv as _ _ _ _ Hv _. }
  intros w o Hal Ha Hw Ho Hp He i result (op & Hop & Hr). rewrite Hp in Hop.
  destruct i; [|done]. injection Hop as <-. destruct result as [error|sock].
  - destruct (Herr w (if o then S n else n) error Hal Ha Hw Ho He) as [|Hl]; [done|by rewrite Hp in Hl].
  - destruct (Hr sock eq_refl) as [Hot Hs]. cbn in Hot. subst o. rewrite completed_eq, Hp.
    pose proof (accept_again slot Hslot sock (with_pending [] w) a Hs Hal Ha eq_refl) as Hv.
    change (drains slot (S n) (on_accept slot (inr sock) (with_pending [] w)).2). revert Hv.
    generalize (on_accept slot (inr sock) (with_pending [] w)).2. intros w1 Hv. unfold accept_view in Hv.
    injection Hv as H1 H2 H3 H4 H5 H6. cbn in H3, H4, H5, H6. rewrite Ho in H5. cbn in H5.
    intros j result (op & Hop & Hr'). cbn in Hop. rewrite H5 in Hop. destruct j; [|done]. injection Hop as <-.
    destruct result as [error|sock']; [|by destruct (Hr' sock' eq_refl)].
    destruct (Herr w1 n error H1 H2) as [|Hl]; [by rewrite H3|by rewrite H4|by rewrite H6|done|].
    by rewrite H5 in Hl.
Qed.

Lemma started_inv app name : accept_inv (start slot None None (listener_impl_new app name)).2.
Proof.
  pose proof (start_view slot (listener_impl_new app name)) as Hv. revert Hv.
  generalize (start slot None None (listener_impl_new app name)).2. intros w Hv _. exists 0%nat.
  unfold accept_view in Hv. cbn in Hv. injection Hv as H1 H2 H3 H4 H5 H6. by rewrite H2, H3, H4, H5, H6.
Qed.
End Drains.

(** C15 (invariant).  The counter of the clients is exact: whatever is started,
    stopped, accepted, read, closed and dropped, as long as the listener lives,
    [clients_count( )] is the number of connections that were announced and are
    not closed, as a 64-bit number, and every connection somebody can reach was
    announced. *)
Theorem clients_counted {V : Virtuals} `{!VirtualLaws V} (slot : signal → option exn) app name w :
  rtc (step slot) (listener_impl_new app name) w → alive w = true →
  clients_count (base w) = u64 (counted (conns w)) ∧
  ∀ c, conn_alive w c → ∃ co, conns w !! c = Some co ∧ announced co = true.
Proof.
  intros Hw Ha.
  destruct (steps_rules slot count_inv (count_inv_rules slot) _ w Hw (new_count_inv app name)) as [H1 H2].
  split; [by apply H1|done].
Qed.

(** A connection that fails in [init( )], after it was announced, is
    dropped without being closed and counted for ever: from then on, as long as
    the listener lives, [clients_count( )] is at least one, although nobody can
    reach the connection any more. *)
Theorem failed_init_counted {V : Virtuals} `{!VirtualLaws V} (slot : signal → option exn) app name w
    sock e (w1 := (on_accept slot (inr sock) w).2) (c := length (conns w)) :
  rtc (step slot) (listener_impl_new app name) w → alive w = true →
  (∀ w', (connection_setup c sock w').1 = Ok tt) → slot (on_new_connection c) = None →
  so_init sock = Some e → defined e →
  ¬ conn_alive w1 c ∧
  ∀ w2, rtc (step slot) w1 w2 → alive w2 = true → blen (conns w2) < 2 ^ 64 → 1 ≤ clients_count (base w2).
Proof.
  intros Hw Ha Hset Hslot Hi He. pose proof (count_inv_rules slot) as Hr.
  pose proof (steps_rules slot count_inv Hr _ w Hw (new_count_inv app name)) as Hc.
  assert (Ho : orphan c w1).
  { unfold w1, on_accept. rewrite bind_get, Ha. cbn [negb]. unfold bind.
    pose proof (failed_init_orphan slot sock e w Hc Hset Hslot Hi He) as Ho.
    destruct (accept_connection slot sock w) as [[[]|] w']; [|done].
    by apply (rules_same slot _ (orphan_rules slot c)); [apply same_count_start_accept|]. }
  split; [apply Ho|]. intros w2 Hs Ha2 Hb.
  destruct (steps_rules slot (orphan c) (orphan_rules slot c) _ _ Hs Ho) as [Hf _].
  assert (Hc1 : count_inv w1) by by apply (on_accept_inv slot _ Hr).
  destruct (steps_rules slot count_inv Hr _ _ Hs Hc1) as [Hn _].
  unfold clients_count. rewrite (Hn Ha2). pose proof (counted_live _ _ Hf). pose proof (counted_range (conns w2)).
  rewrite wrap_small; [done|]. unfold in_word. lia.
Qed.

(** C18 (termination).  Once started, a listener that lives is in one of two states:
    a single call of [async_accept] is under way and its loop has not ended, or
    none is and one signal, [on_stop] or [on_accept_failed], was raised; a working
    listener is in the first with its acceptor open, and when it was stopped the
    loop ends after at most two handlers. *)
Theorem accept_loop {V : Virtuals} `{!VirtualLaws V} (slot : signal → option exn) app name w :
  (∀ x e, slot x = Some e → defined e) →
  rtc (run_step slot) (start slot None None (listener_impl_new app name)).2 w → alive w = true →
  (length (pending w) + length (ended (base w)) = 1)%nat ∧
  (is_active w = true → ∃ a, acceptor_ w = Some a ∧ open_acceptor w = Some a ∧ pending w = [AcceptOp a true]) ∧
  (is_active w = false → drains slot 2 w).
Proof.
  intros Hslot Hw Ha.
  destruct (runs_accept_inv slot Hslot _ w Hw (started_inv slot app name) Ha) as (a & Hacc & Hst).
  unfold is_active. destruct (working_ w) eqn:Hwk.
  - destruct Hst as (Ho & Hp & He). rewrite Hp, He. split_and!; [done|by eauto|done].
  - destruct Hst as (Ho & [(o & Hp & He)|[Hp He]]); rewrite Hp; (split_and!; [by rewrite He|done|intros _]).
    + pose proof (drains_stopped slot Hslot (if o then 0 else 1) w a o Ha Hacc Hwk Ho Hp He) as Hd. by destruct o.
    + by apply drains_none.
Qed.

(** A listener that is started again before the handler of the
    acceptor it stopped has run does not stay: that handler takes the error for
    one of the new acceptor, closes it and reports a failure. *)
Theorem restart_stopped {V : Virtuals} `{!VirtualLaws V} (slot : signal → option exn) app name w error
    (w1 := (start slot None None w).2) (w2 := (complete slot 0 (inl error) w1).2) :
  (∀ x e, slot x = Some e → defined e) →
  rtc (run_step slot) (start slot None None (listener_impl_new app name)).2 w →
  alive w = true → is_active w = false → pending w ≠ [] →
  is_active w1 = true ∧ is_Some (open_acceptor w1) ∧
  is_active w2 = false ∧ open_acceptor w2 = None ∧ ended (base w2) = [on_accept_failed error].
Proof.
  intros Hslot Hw Ha Hwk Hp.
  destruct (runs_accept_inv slot Hslot _ w Hw (started_inv slot app name) Ha) as (a & Hacc & Hst).
  unfold is_active in *. rewrite Hwk in Hst. destruct Hst as (Ho & [(o & Hp' & He)|[Hp' _]]); [|done].
  pose proof (start_view slot w) as Hv. fold w1 in Hv. subst w2. clearbody w1. unfold accept_view in Hv.
  injection Hv as H1 H2 H3 H4 H5 H6. rewrite Hp' in H5.
  split_and!; [done|by rewrite H4|..].
  all: pose proof (accept_error slot error (with_pending (delete 0%nat (pending w1)) w1) (acceptor_fresh w)
         ltac:(by cbn; rewrite H1) H2 ltac:(cbn; congruence)) as Hv;
    rewrite <-completed_eq in Hv; revert Hv; generalize (complete slot 0 (inl error) w1).2; intros w2 Hv;
    unfold accept_view in Hv; cbn [working_ base with_pending] in Hv; rewrite H3, H6, He in Hv;
    by injection Hv as _ _ Hv1 Hv2 _ Hv3.
Qed.

(** ** Witnesses *)

Definition example_slot (x : signal) : option exn := None.
Definition example_tcp : Virtuals := listener_tcp "127.0.0.1" 8080 true.
Definition example_socket (i : option exn) : socket :=
  Socket (λ _, None) (inr "127.0.0.1:40000") (inl 0) i.
Definition example_start : listener_impl :=
  (start (V := example_tcp) example_slot None None (listener_impl_new Environment.environment_new "tcp")).2.
(** Two clients came, the first was closed. *)
Definition example_accepted : listener_impl :=
  (complete (V := example_tcp) example_slot 0 (inr (example_socket None)) example_start).2.
Definition example_two : listener_impl :=
  (complete (V := example_tcp) example_slot 0 (inr (example_socket None)) example_accepted).2.
Definition example_closed : listener_impl := (close example_slot 0 example_two).2.
Definition example_stopped : listener_impl := (stop (V := example_tcp) example_closed).2.

Lemma example_slot_defined x e : example_slot x = Some e → defined e.
Proof. done. Qed.
Lemma example_socket_defined : socket_defined (example_socket None).
Proof. by split_and!. Qed.
Lemma example_runs : rtc (run_step (V := example_tcp) example_slot) example_start example_stopped.
Proof.
  eapply rtc_l.
  { eapply (step_complete _ 0%nat _ (inr (example_socket None))); [reflexivity|]. intros ? [= <-].
    split; [done|apply example_socket_defined]. }
  eapply rtc_l.
  { eapply (step_complete _ 0%nat _ (inr (example_socket None))); [reflexivity|]. intros ? [= <-].
    split; [done|apply example_socket_defined]. }
  eapply rtc_l; [apply (step_close _ 0%nat); left; by apply (bool_decide_eq_true_1 _)|].
  apply rtc_once. apply step_stop; [done|]. by eexists.
Qed.
Lemma example_listener_reachable w :
  rtc (run_step (V := example_tcp) example_slot) example_start w →
  rtc (step (V := example_tcp) example_slot) (listener_impl_new Environment.environment_new "tcp") w.
Proof.
  intros H. eapply rtc_l; [by apply step_start|]. eapply rtc_subrel; [|exact H]. intros. by apply step_run.
Qed.

Lemma clients_counted_witness : clients_count (base example_stopped) = 1.
Proof.
  rewrite (proj1 (clients_counted (V := example_tcp) example_slot Environment.environment_new "tcp"
    example_stopped (example_listener_reachable _ example_runs) eq_refl)). reflexivity.
Defined.

Lemma failed_init_counted_witness :
  ¬ conn_alive (on_accept (V := example_tcp) example_slot (inr (example_socket (Some (EStd "write")))) example_start).2 0.
Proof.
  refine (proj1 (failed_init_counted (V := example_tcp) example_slot Environment.environment_new "tcp" example_start
    (example_socket (Some (EStd "write"))) (EStd "write") (example_listener_reachable _ (rtc_refl _ _)) eq_refl _ eq_refl eq_refl _)).
  - by intros w'.
  - by intros what.
Defined.

Lemma accept_loop_witness : drains (V := example_tcp) example_slot 2 example_stopped.
Proof.
  exact (proj2 (proj2 (accept_loop (V := example_tcp) example_slot Environment.environment_new "tcp"
    example_stopped example_slot_defined example_runs eq_refl)) eq_refl).
Defined.

Lemma restart_stopped_witness :
  ended (base (complete (V := example_tcp) example_slot 0 (inl 125)
    (start (V := example_tcp) example_slot None None example_stopped).2).2) = [on_accept_failed 125].
Proof.
  refine (proj2 (proj2 (proj2 (proj2 (restart_stopped (V := example_tcp) example_slot Environment.environment_new "tcp"
    example_stopped 125 example_slot_defined example_runs eq_refl eq_refl _))))). done.
Defined.
