(* ===== verification/Application.v ===== *)
(** * Application: the server application and its connections' entrances

    [lib/vtrc/server/application.cpp]: which io services an application owns, what
    its destructor does, the factory of its services and its defaults for the
    handshake; and what a connection of [connection/impl.h] does for its users
    beside reading and closing.

    Io services are objects known by numbers, with the calls posted to them; closing
    a connection is the connection's, over a state of its own, and may throw. *)

From S2P Require Import Prelude Messages CondQueues CallContext ProtocolLayer Registry LowLevel ServerLayer.

Definition service_factory : Type := string → option (string → option method_impl).
Definition default_factory : service_factory := λ _, None.

Record application : Type := Application {
  env_ : Environment.environment;
  ios_ : nat;
  rpc_ios_ : nat;
  app_clients_ : ConnectionList.connection_list;
  factory_ : service_factory;
  own_ios_ : bool;
  own_rpc_ios_ : bool
}.

(** The application, the io services that exist, and the connections. *)
Record world (S : Type) : Type := World {
  app : application;
  ios : gmap nat (list nat);
  conns : S
}.
#[global] Arguments World {S}.
#[global] Arguments app {S}.
#[global] Arguments ios {S}.
#[global] Arguments conns {S}.

Section Application.
Context {S : Type} (close : nat → M S unit).
Implicit Types w : world S.

Definition with_app (a : application) w : world S := World a (ios w) (conns w).
Definition with_ios (i : gmap nat (list nat)) w : world S := World (app w) i (conns w).
Definition with_app_clients (c : ConnectionList.connection_list) (a : application) : application :=
  Application (env_ a) (ios_ a) (rpc_ios_ a) c (factory_ a) (own_ios_ a) (own_rpc_ios_ a).

(** ** Construction *)

(** [ios_(new io_service)]: a service that did not exist. *)
Definition application_new (i : gmap nat (list nat)) (s : S) : world S :=
  let n := fresh (dom i) in
  World (Application Environment.environment_new n n ConnectionList.create default_factory true false) (<[n := []]> i) s.
Definition application_ios (n : nat) (i : gmap nat (list nat)) (s : S) : world S :=
  World (Application Environment.environment_new n n ConnectionList.create default_factory false false) i s.
(** Also that of a pool pair, with its two services. *)
Definition application_ios2 (n rpc : nat) (i : gmap nat (list nat)) (s : S) : world S :=
  World (Application Environment.environment_new n rpc ConnectionList.create default_factory false false) i s.

(** ** Destruction *)

(** [delete]; a service that was deleted before is undefined behaviour. *)
Definition delete_ios (n : nat) : M (world S) unit := λ w,
  match ios w !! n with
  | None => (Raise (EUndefined "double delete"), w)
  | Some _ => (Ok tt, with_ios (delete n (ios w)) w)
  end.
Definition on_conns {A} (m : M S A) : M (world S) A := λ w,
  let '(r, s) := m (conns w) in (r, World (app w) (ios w) s).
Definition stop_all_clients : M (world S) unit :=
  let* w := get in
  on_conns (ConnectionList.stop_all_clients close (app_clients_ (app w))).
Definition destroy : M (world S) unit :=
  try_catch
    (stop_all_clients ;;;
     modify (λ w, with_app (with_app_clients (ConnectionList.Clients []) (app w)) w) ;;;
     (let* w := get in if own_ios_ (app w) then delete_ios (ios_ (app w)) else ret tt) ;;;
     (let* w := get in if own_rpc_ios_ (app w) then delete_ios (rpc_ios_ (app w)) else ret tt))
    (λ _, ret tt).

(** ** Services *)

(** [rpc_ios_->post( call )] *)
Definition execute (call : nat) : M (world S) unit := λ w,
  let n := rpc_ios_ (app w) in
  match ios w !! n with
  | None => (Raise (EUndefined "deleted io_service"), w)
  | Some q => (Ok tt, with_ios (<[n := q ++ [call]]> (ios w)) w)
  end.
Definition assign_service_factory (factory : option service_factory) : M (world S) unit :=
  modify (λ w, let a := app w in with_app
    (Application (env_ a) (ios_ a) (rpc_ios_ a) (app_clients_ a) (default default_factory factory) (own_ios_ a) (own_rpc_ios_ a)) w).
Definition get_service_by_name (w : world S) (name : string) : option rpc_service_wrapper :=
  app_get_service_by_name (factory_ (app w)) name.

Definition get_enviroment w : Environment.environment := env_ (app w).
Definition get_io_service w : nat := ios_ (app w).
Definition get_rpc_service w : nat := rpc_ios_ (app w).
Definition get_clients w : ConnectionList.connection_list := app_clients_ (app w).
End Application.

(** ** Defaults for the handshake *)

Definition configure_session (opts : session_options) : session_options := opts.
Definition get_session_key (id : bytes) : bytes := [].
Definition session_key_required (id : bytes) : bool := false.

(** ** A connection's entrances

    [protocol_] is a pointer: a connection without a protocol throws. *)

Section Connection.
Context (get_service : string → option rpc_service_wrapper).

Definition raw_call_local (protocol_ : bool) (ll_mess : nat) : M layer unit :=
  if negb protocol_ then raise (ERuntime "Not connected.")
  else make_local_call get_service ll_mess true.
Definition active (l : layer) : bool := ready_ l.
End Connection.

(** ** Lemmas *)

Section Destruction.
Context {S : Type} (close : nat → M S unit).

(** Closing every connection, one after the other. *)
Definition closed_in_order (cs : list nat) : M S unit := foldr (λ c k, close c ;;; k) (ret tt) cs.
Lemma close_loop_eq cs z s :
  (ConnectionList.foreach_while_loop (ConnectionList.close_all_connection close) cs z ;;; ret tt) s = closed_in_order cs s.
Proof.
  revert z s. induction cs as [|c cs IH]; intros z s; [done|].
  cbn [ConnectionList.foreach_while_loop closed_in_order foldr]. unfold ConnectionList.close_all_connection at 1, bind at 1 2 3 4.
  destruct (close c s) as [[[]|e] s1]; [|done]. cbn. apply (IH (z + 1)).
Qed.
Lemma stop_all_eq (l : ConnectionList.connection_list) s :
  ConnectionList.stop_all_clients close l s = closed_in_order (ConnectionList.clients_ l) s.
Proof. apply close_loop_eq. Qed.
End Destruction.

(** An application owns no service for its calls beside the one of its own. *)
Definition app_wf {S} (w : world S) : Prop :=
  own_rpc_ios_ (app w) = false ∧ (own_ios_ (app w) = true → is_Some (ios w !! ios_ (app w))).

Lemma application_new_wf {S} i (s : S) : app_wf (application_new i s).
Proof. split; [done|]. intros _. cbn. rewrite lookup_insert_eq. by eexists. Qed.
Lemma application_ios_wf {S} n rpc i (s : S) : app_wf (application_ios n i s) ∧ app_wf (application_ios2 n rpc i s).
Proof. by split; split. Qed.
Lemma execute_wf {S} call (w : world S) : app_wf w → app_wf (execute call w).2.
Proof.
  intros [H1 H2]. unfold execute. destruct (ios w !! rpc_ios_ (app w)) as [q|]; [|done]. split; [done|].
  intros Ho. cbn. apply lookup_insert_is_Some'. right. by apply H2.
Qed.
Lemma assign_wf {S} f (w : world S) : app_wf w → app_wf (assign_service_factory f w).2.
Proof. by intros [H1 H2]. Qed.

(** ** Properties *)

(** Destroying an application closes its connections one after the other.  If no
    closing throws, the list is empty then, and the io service is deleted exactly when the
    application made it itself, never twice and never one that it was given; if a
    closing throws, the exception is swallowed, the connections after it stay open and
    in the list, and nothing is deleted. *)
Theorem application_destroyed {S} (close : nat → M S unit) (w : world S) r s' :
  app_wf w → (∀ what, r ≠ Raise (EUndefined what)) →
  closed_in_order close (ConnectionList.clients_ (app_clients_ (app w))) (conns w) = (r, s') →
  let '(r', w') := destroy close w in
  r' = Ok tt ∧ conns w' = s' ∧
  match r with
  | Ok _ =>
      ConnectionList.clients_ (app_clients_ (app w')) = [] ∧
      ios w' = if own_ios_ (app w) then delete (ios_ (app w)) (ios w) else ios w
  | Raise _ => app w' = app w ∧ ios w' = ios w
  end.
Proof.
  intros [Hrpc Hown] Hdef Hcl. unfold destroy, try_catch, stop_all_clients, on_conns.
  unfold bind at 1 2, get at 1. rewrite stop_all_eq, Hcl. destruct w as [[e n rpc l f own own_rpc] i s].
  cbn [app ios own_rpc_ios_ own_ios_ ios_] in *. subst own_rpc. destruct r as [[]|ex].
  - destruct own; [|done]. destruct (Hown eq_refl) as [q Hq]. unfold bind, modify, get, with_app, delete_ios, with_ios, ret.
    cbn -[lookup delete]. by rewrite Hq.
  - destruct ex as [| | | | | |what]; try done. by destruct (Hdef what).
Qed.

(** The calls of an application are posted in the order they are executed in, to the
    service for calls, which is the only one the application has, or the second. *)
Theorem calls_posted {S} (w : world S) cs q :
  ios w !! rpc_ios_ (app w) = Some q →
  let w' := foldl (λ w c, (execute c w).2) w cs in
  ios w' = <[rpc_ios_ (app w) := q ++ cs]> (ios w) ∧ app w' = app w.
Proof.
  revert w q. induction cs as [|c cs IH]; intros w q Hq; cbn [foldl].
  - rewrite app_nil_r, insert_id by done. by destruct w.
  - assert (He : (execute c w).2 = with_ios (<[rpc_ios_ (app w) := q ++ [c]]> (ios w)) w) by (unfold execute; by rewrite Hq).
    rewrite He. destruct (IH (with_ios (<[rpc_ios_ (app w) := q ++ [c]]> (ios w)) w) (q ++ [c])) as [H1 H2].
    { cbn. apply lookup_insert_eq. }
    cbn in H1, H2. rewrite H1, H2. cbn. by rewrite insert_insert_eq, <-app_assoc.
Qed.

(** ** Witnesses *)

(** Closing is remembered; the connection 2 throws. *)
Definition example_close (c : nat) : M (list nat) unit := λ s,
  (if bool_decide (c = 2%nat) then Raise (EStd "close") else Ok tt, s ++ [c]).
Definition example_app (cs : list nat) : world (list nat) :=
  let w := application_new {[ 0%nat := [] ]} [] in with_app (with_app_clients (ConnectionList.Clients cs) (app w)) w.
Lemma example_app_wf cs : app_wf (example_app cs).
Proof. exact (application_new_wf _ _). Qed.

Lemma application_destroyed_witness :
  ios (destroy example_close (example_app [1; 3]%nat)).2 = {[ 0%nat := [] ]} ∧
  ios (destroy example_close (example_app [1; 2; 3]%nat)).2 = ios (example_app [1; 2; 3]%nat).
Proof.
  split.
  - pose proof (application_destroyed example_close (example_app [1; 3]%nat) (Ok tt) [1; 3]%nat (example_app_wf _)
      ltac:(done) eq_refl) as H. destruct (destroy _ _) as [r w]. cbn [snd]. destruct H as (_ & _ & _ & ->). vm_compute. reflexivity.
  - pose proof (application_destroyed example_close (example_app [1; 2; 3]%nat) (Raise (EStd "close")) [1; 2]%nat (example_app_wf _)
      ltac:(done) eq_refl) as H. destruct (destroy _ _) as [r w]. cbn [snd]. destruct H as (_ & _ & _ & ->). reflexivity.
Defined.
