(* ===== verification/Custom.v ===== *)
(** * Custom: a listener whose connections the application makes

    [lib/vtrc/server/listener/custom.cpp], on the base class of Listener.  The
    application hands a connection over, is given the protocol layer for it and
    says when the client is gone; [init] and [proto_init] are what the
    initialization of the connection and the one of the protocol end with. *)

From S2P Require Import Prelude Registry Listener.

Record custom : Type := CustomListener { base : listener; custom_name : string; active_ : bool }.

Definition on_listener {A} (m : M listener A) : M custom A := λ c,
  let '(r, l) := m (base c) in (r, CustomListener l (custom_name c) (active_ c)).
Definition custom_new (app : Environment.environment) (name : string) : custom :=
  CustomListener (listener_new app) name false.
Definition name (c : custom) : string := custom_name c.
Definition start : M custom unit := modify (λ c, CustomListener (base c) (custom_name c) true).
Definition stop : M custom unit := modify (λ c, CustomListener (base c) (custom_name c) false).
Definition is_active (c : custom) : bool := active_ c.
Definition is_local (c : custom) : bool := true.

Definition outcome {S} (r : option exn) : M S unit :=
  match r with Some e => raise e | None => ret tt end.

(** The protocol that is returned knows its factory. *)
Definition init_protocol (slot : signal → option exn) (init proto_init : option exn) (conn : nat) :
    M custom (option nat) :=
  let* c := get in
  let proto := lowlevel_protocol_factory (base c) in
  on_listener (store_client conn) ;;;
  on_listener (new_connection slot conn) ;;;
  try_catch (outcome init ;;; outcome proto_init)
    (λ e, on_listener (drop_client conn) ;;; raise e) ;;;
  ret proto.
Definition stop_client (slot : signal → option exn) (con : nat) : M custom unit :=
  on_listener (stop_connection slot con) ;;;
  on_listener (drop_client con).

(** ** What is counted *)

(** The custom listener drops a connection whose initialization failed, and goes
    on counting it too. *)
Lemma custom_failed_init slot init proto_init conn (c : custom) e :
  slot (on_new_connection conn) = None → init = Some e ∨ init = None ∧ proto_init = Some e → defined e →
  let r := init_protocol slot init proto_init conn c in
  r.1 = Raise e ∧
  client_count_ (base r.2) = u64 (client_count_ (base c) + 1) ∧
  conn ∉ ConnectionList.clients_ (clients (base r.2)).
Proof.
  intros Hs Hi He. unfold init_protocol, new_connection, raise_signal, on_listener, bind, get, modify,
    try_catch, outcome. cbn. rewrite Hs. cbn.
  destruct Hi as [->|[-> ->]]; cbn; (destruct e; try (by destruct (He what)); cbn;
    (split; [done|]); (split; [done|]); rewrite list_elem_of_filter; by intros [? _]).
Qed.
