(* ===== verification/Ssl.v ===== *)
(** * Ssl: the listener of encrypted connections

    [lib/vtrc/server/listener/ssl.cpp]: a listener of its own, whose connections
    answer a TLS handshake, watched by a timer of five seconds, before the protocol
    starts.  The state and the operations that are those of [connection_impl] and
    of the base class are Listener's.

    The TLS library and the timers belong to the system: [handshakes] are the
    handshakes whose handlers have still to run, and of the timer of a connection
    ([timers::once], used for one wait) the state of its wait is kept. *)

From stdpp Require Import pretty.
From S2P Require Import Prelude Timer Registry Listener.

(** [succeeded] are the connections whose handshake was successful: their protocol
    was started, and its first message starts to read. *)
Record listener_ssl : Type := ListenerSsl {
  inner : listener_impl;
  handshakes : list nat;
  keepalive_calls_ : gmap nat wait;
  succeeded : gset nat
}.

Definition with_inner (i : listener_impl) (w : listener_ssl) : listener_ssl :=
  ListenerSsl i (handshakes w) (keepalive_calls_ w) (succeeded w).
Definition with_handshakes (h : list nat) (w : listener_ssl) : listener_ssl :=
  ListenerSsl (inner w) h (keepalive_calls_ w) (succeeded w).
Definition with_timers (t : gmap nat wait) (w : listener_ssl) : listener_ssl :=
  ListenerSsl (inner w) (handshakes w) t (succeeded w).
Definition with_succeeded (s : gset nat) (w : listener_ssl) : listener_ssl :=
  ListenerSsl (inner w) (handshakes w) (keepalive_calls_ w) s.

Definition on_inner {A} (m : M listener_impl A) : M listener_ssl A := λ w,
  let '(r, i) := m (inner w) in (r, with_inner i w).

(** ** The listener's own functions *)

Section Names.
Context (address : string) (port : Z) (no_delay_ : bool).

Definition name : string := "ssl://" +:+ address +:+ ":" +:+ pretty port.
Definition ssl_connection_setup (con : nat) (sock : socket) : M listener_impl unit :=
  (match so_no_delay sock no_delay_ with Some e => raise e | None => ret tt end) ;;;
  match so_remote_endpoint sock with
  | inl e => raise e
  | inr ep => update con (with_name ("ssl://" +:+ ep))
  end.
(** The functions of the shared accept loop this listener has no use for are empty. *)
Definition listener_ssl_virtuals : Virtuals := {|
  start_success := ret tt;
  stop_impl := ret tt;
  connection_setup := ssl_connection_setup;
  is_local := false
|}.
Definition listener_ssl_new (app : Environment.environment) : listener_ssl :=
  ListenerSsl (listener_impl_new app name) [] ∅ ∅.
End Names.

#[export] Instance listener_ssl_laws no_delay : VirtualLaws (listener_ssl_virtuals no_delay).
Proof.
  split; try done; intros c sock w; cbn; unfold ssl_connection_setup, bind;
    destruct (so_no_delay sock no_delay) eqn:Hn, (so_remote_endpoint sock) eqn:He; cbn; try done.
  - apply quiet_name.
  - intros e' (H & _) [= <-]. by eapply H.
  - intros e' (H & _) [= <-]. by eapply H.
  - intros e' (_ & H & _) [= <-]. by eapply H.
Qed.

Section Ssl.
Context (slot : signal → option exn) (no_delay_ : bool).
#[local] Instance ssl_virtuals : Virtuals := listener_ssl_virtuals no_delay_.

(** *** The timer of a connection: [common::timers::once] *)

Definition keepalive_call (c : nat) : M listener_ssl unit :=
  modify (λ w, with_timers (<[c := armed]> (keepalive_calls_ w)) w).
(** A handler that is queued already cannot be cancelled. *)
Definition keepalive_cancel (c : nat) : M listener_ssl unit :=
  modify (λ w, with_timers (alter abort c (keepalive_calls_ w)) w).

(** *** A connection *)

(** A member function of an object that is no more. *)
Definition destroyed : exn := EUndefined "a member of a destroyed connection".

(** The handler has a plain pointer to the connection; with an error it looks at
    nothing of it. *)
Definition on_init_timeout (c : nat) (error : bool) : M listener_ssl unit :=
  if error then ret tt
  else
    let* w := get in
    if bool_decide (conn_alive (inner w) c) then on_inner (close slot c) else raise destroyed.

(** [sent] is what [init_success] ends with. *)
Definition ssl_handshake_handler (c : nat) (err : bool) (sent : option exn) : M listener_ssl unit :=
  let* w := get in
  if negb (bool_decide (conn_alive (inner w) c)) then ret tt
  else
    keepalive_cancel c ;;;
    if negb err then
      modify (λ w, with_succeeded ({[c]} ∪ succeeded w) w) ;;;
      match sent with Some e => raise e | None => ret tt end
    else on_inner (close slot c).

Definition init (c : nat) : M listener_ssl unit :=
  keepalive_call c ;;;
  modify (λ w, with_handshakes (handshakes w ++ [c]) w).

(** *** The listener *)

(** [setup] is what [setup_cb_] throws, [bound] and [listening] the outcomes of the
    acceptor's constructor and of [listen]. *)
Definition start (setup bound listening : option exn) : M listener_ssl unit :=
  (match setup with Some e => raise e | None => ret tt end) ;;;
  on_inner (modify (with_working true)) ;;;
  (match bound with Some e => raise e | None => on_inner reset_acceptor end) ;;;
  (match listening with Some e => raise e | None => ret tt end) ;;;
  on_inner start_accept ;;;
  on_inner (on_base (call_on_start slot)).
Definition stop : M listener_ssl unit :=
  on_inner (modify (with_working false)) ;;;
  on_inner acceptor_close.
Definition is_active (w : listener_ssl) : bool := working_ (inner w).

(** The body of the try block, [new_conn] being what [create] gave. *)
Definition setup_connection (new_conn : nat) (sock : socket) : M listener_ssl unit :=
  on_inner (ssl_connection_setup no_delay_ new_conn sock) ;;;
  on_inner (let* w := get in assign_lowlevel_factory new_conn (lowlevel_protocol_factory (base w))) ;;;
  on_inner (on_base (store_client new_conn)) ;;;
  on_inner (announce slot new_conn) ;;;
  init new_conn.
Definition accept_connection (new_conn : nat) (sock : socket) : M listener_ssl unit :=
  try_catch (setup_connection new_conn sock) (λ _, on_inner (on_base (drop_client new_conn))).
Definition on_accept (result : Z + socket) : M listener_ssl unit :=
  let* w := get in
  if negb (alive (inner w)) then ret tt
  else
    match result with
    | inr sock =>
        let* new_conn := on_inner create_connection in
        accept_connection new_conn sock ;;;
        on_inner start_accept
    | inl error =>
        if working_ (inner w) then
          stop ;;;
          on_inner (on_base (call_on_accept_failed slot error))
        else on_inner (on_base (call_on_stop slot))
    end.

(** *** Steps *)

Definition complete (i : nat) (result : Z + socket) : M listener_ssl unit :=
  let* w := get in
  on_inner (modify (with_pending (delete i (pending (inner w))))) ;;;
  on_accept result.
Definition handshake_done (i : nat) (c : nat) (err : bool) (sent : option exn) : M listener_ssl unit :=
  modify (λ w, with_handshakes (delete i (handshakes w)) w) ;;;
  ssl_handshake_handler c err sent.
(** The timer of a connection that lives runs out; the one of a connection that was
    destroyed was cancelled with it. *)
Definition expire (c : nat) : M listener_ssl unit :=
  modify (λ w, with_timers (<[c := due]> (keepalive_calls_ w)) w).
Definition timer_handler (c : nat) (t : wait) : M listener_ssl unit :=
  modify (λ w, with_timers (delete c (keepalive_calls_ w)) w) ;;;
  on_init_timeout c (negb (bool_decide (t = due))).

Definition reads (c : nat) (w : listener_ssl) : Prop :=
  ∃ co, conns (inner w) !! c = Some co ∧ reading co = true.

Inductive step : listener_ssl → listener_ssl → Prop :=
  | st_start setup bound listening w : alive (inner w) = true → step w (start setup bound listening w).2
  | st_stop w : alive (inner w) = true → is_Some (acceptor_ (inner w)) → step w (stop w).2
  | st_destroy w : step w (with_inner (destroy (inner w)) w)
  | st_complete i op result w :
      pending (inner w) !! i = Some op →
      (∀ sock, result = inr sock → ao_open op = true ∧ socket_defined sock) → step w (complete i result w).2
  | st_handshake i c err sent w : handshakes w !! i = Some c → step w (handshake_done i c err sent w).2
  | st_expire c w : keepalive_calls_ w !! c = Some armed → conn_alive (inner w) c → step w (expire c w).2
  | st_timer c t w :
      keepalive_calls_ w !! c = Some t → (t = armed → ¬ conn_alive (inner w) c) → step w (timer_handler c t w).2
  | st_read_start c w : c ∈ succeeded w → step w (on_inner (start_read_clos c) w).2
  | st_read c error process w : reads c w → step w (on_inner (read_handler slot c error process) w).2
  | st_close c w : conn_alive (inner w) c → step w (on_inner (close slot c) w).2
  | st_write_error c w : conn_alive (inner w) c → step w (on_inner (on_write_error slot c) w).2
  | st_stop_clients w : step w (on_inner (stop_clients slot) w).2
  | st_hold c w : conn_alive (inner w) c → step w (with_inner (with_held ({[c]} ∪ held (inner w)) (inner w)) w)
  | st_release c w : step w (with_inner (with_held (held (inner w) ∖ {[c]}) (inner w)) w).

(** ** Lemmas *)

Lemma inner_on {A} (m : M listener_impl A) w : inner (on_inner m w).2 = (m (inner w)).2.
Proof. unfold on_inner. by destruct (m (inner w)). Qed.
Lemma rest_on {A} (m : M listener_impl A) w :
  handshakes (on_inner m w).2 = handshakes w ∧ keepalive_calls_ (on_inner m w).2 = keepalive_calls_ w ∧
  succeeded (on_inner m w).2 = succeeded w.
Proof. unfold on_inner. by destruct (m (inner w)). Qed.

(** Operations of the inner listener compose. *)
Lemma on_inner_bind {A B} (m : M listener_impl A) (k : A → M listener_impl B) w :
  bind (on_inner m) (λ x, on_inner (k x)) w = on_inner (bind m k) w.
Proof. unfold bind, on_inner. by destruct (m (inner w)) as [[x|e] i]. Qed.
Lemma on_inner_bind2 {A B} (m1 : M listener_impl unit) (m2 : M listener_impl A) (k : A → M listener_ssl B) w :
  bind (bind (on_inner m1) (λ _, on_inner m2)) k w = bind (on_inner (bind m1 (λ _, m2))) k w.
Proof. unfold bind at 1 3. by rewrite on_inner_bind. Qed.
Lemma bind_ext {S A B} (m : M S A) (k k' : A → M S B) w : (∀ x w, k x w = k' x w) → bind m k w = bind m k' w.
Proof. intros H. unfold bind. destruct (m w) as [[x|e] w']; [apply H|done]. Qed.

(** What the system says of a socket, there being no first message to write yet. *)
Definition plain (sock : socket) : socket :=
  Socket (so_no_delay sock) (so_remote_endpoint sock) (so_peercred sock) None.
Definition plain_result (result : Z + socket) : Z + socket :=
  match result with inl e => inl e | inr sock => inr (plain sock) end.

(** Up to the handshake a connection is set up as the shared loop does it. *)
Lemma setup_inner c sock w :
  let m := Listener.setup_connection slot c (plain sock) (inner w) in
  ∃ w', setup_connection c sock w = (m.1, w') ∧ inner w' = m.2 ∧
    match m.1 with
    | Ok _ => handshakes w' = handshakes w ++ [c] ∧ keepalive_calls_ w' = <[c := armed]> (keepalive_calls_ w)
    | Raise _ => handshakes w' = handshakes w ∧ keepalive_calls_ w' = keepalive_calls_ w
    end ∧ succeeded w' = succeeded w.
Proof.
  unfold setup_connection, Listener.setup_connection, Listener.init, on_inner, bind, connection_setup, ssl_virtuals,
    listener_ssl_virtuals, plain, ret, assign_lowlevel_factory, update, modify, get. cbn [so_init].
  change (ssl_connection_setup no_delay_ c (Socket _ _ _ _)) with (ssl_connection_setup no_delay_ c sock).
  destruct (ssl_connection_setup no_delay_ c sock (inner w)) as [[[]|e] i1]; [|eexists; split; [reflexivity|done]].
  cbn [inner with_inner]. destruct (on_base (store_client c) _) as [[[]|e] i4]; [|eexists; split; [reflexivity|done]].
  cbn [inner with_inner]. destruct (announce slot c i4) as [[[]|e] i5]; (eexists; split; [reflexivity|done]).
Qed.

Lemma accept_inner c sock w :
  let m := try_catch (Listener.setup_connection slot c (plain sock)) (λ _, on_base (drop_client c)) (inner w) in
  ∃ w', accept_connection c sock w = (m.1, w') ∧ inner w' = m.2 ∧ succeeded w' = succeeded w ∧
    match (Listener.setup_connection slot c (plain sock) (inner w)).1 with
    | Ok _ => handshakes w' = handshakes w ++ [c] ∧ keepalive_calls_ w' = <[c := armed]> (keepalive_calls_ w)
    | Raise _ => handshakes w' = handshakes w ∧ keepalive_calls_ w' = keepalive_calls_ w
    end.
Proof.
  destruct (setup_inner c sock w) as (w2 & Hs & Hi & Hr & Hk). unfold accept_connection, try_catch. rewrite Hs.
  destruct (Listener.setup_connection slot c (plain sock) (inner w)) as [[[]|[]] i3]; cbn [fst snd] in *; subst i3;
    eexists; (split; [reflexivity|]); done.
Qed.
Lemma rest_bind {A} (m : M listener_ssl A) (k : A → M listener_impl unit) r w w' :
  m w = (r, w') →
  inner (bind m (λ x, on_inner (k x)) w).2 = match r with Ok x => (k x (inner w')).2 | Raise _ => inner w' end ∧
  handshakes (bind m (λ x, on_inner (k x)) w).2 = handshakes w' ∧
  keepalive_calls_ (bind m (λ x, on_inner (k x)) w).2 = keepalive_calls_ w' ∧
  succeeded (bind m (λ x, on_inner (k x)) w).2 = succeeded w'.
Proof.
  intros Hm. unfold bind. rewrite Hm. destruct r as [x|e]; [|done].
  split; [apply inner_on|apply (rest_on (k x) w')].
Qed.

(** Accepting is what the shared loop does, but for the handshake. *)
Lemma complete_inner i result w :
  inner (complete i result w).2 = (Listener.complete slot i (plain_result result) (inner w)).2 ∧
  succeeded (complete i result w).2 = succeeded w.
Proof.
  unfold complete, Listener.complete. rewrite !bind_get, bind_modify. erewrite bind_ok by reflexivity.
  set (i1 := with_pending _ (inner w)). change (with_inner _ w) with (with_inner i1 w). clearbody i1.
  unfold on_accept, Listener.on_accept. rewrite !bind_get. cbn [inner with_inner].
  destruct (alive i1); cbn [negb]; [|done]. destruct result as [error|sock]; cbn [plain_result].
  - destruct (working_ i1).
    + unfold stop. rewrite on_inner_bind2, on_inner_bind.
      split; [|by apply (rest_on _ (with_inner i1 w))]. rewrite inner_on. unfold Listener.stop, bind, modify.
      cbn [inner with_inner]. by destruct (acceptor_close (with_working false i1)) as [[[]|e] i2].
    + rewrite inner_on. split; [done|]. by apply (rest_on _ (with_inner i1 w)).
  - assert (Hc : ∃ c i2, create_connection i1 = (Ok c, i2)) by (eexists _, _; reflexivity).
    destruct Hc as (c & i2 & Hc).
    rewrite (bind_ok (on_inner create_connection) _ _ c (with_inner i2 w))
      by (unfold on_inner; cbn [inner with_inner]; by rewrite Hc).
    destruct (accept_inner c sock (with_inner i2 w)) as (w3 & Hg & Hi & Hk & _). cbn [inner with_inner] in *.
    destruct (rest_bind _ (λ _, start_accept) _ _ _ Hg) as (-> & _ & _ & ->). split; [|done].
    unfold Listener.accept_connection, bind. rewrite Hc.
    destruct (try_catch (Listener.setup_connection slot c (plain sock)) _ i2) as [[[]|e] i3]; cbn [fst snd] in *; by subst.
Qed.

(** *** The count of the clients *)

Lemma close_inner c w : inner (on_inner (close slot c) w).2 = (close slot c (inner w)).2.
Proof. apply inner_on. Qed.

(** Whatever happens after a start, the inner listener takes steps of its own. *)
Lemma step_inner w w' :
  step w w' →
  rtc (run_step slot) (inner w) (inner w') ∨
  ∃ setup bound listening, w' = (start setup bound listening w).2.
Proof.
  destruct 1 as [su b l w Ha|w Ha Hac|w|i op result w Hop Hr|i c err sent w Hi|c w Ht Hal|c t w Ht Hne|c w Hc
    |c error process w Hrd|c w Hal|c w Hal|w|c w Hal|c w]; [by right; exists su, b, l|left..].
  - apply rtc_once. unfold stop. rewrite on_inner_bind, inner_on.
    replace ((modify (with_working false) ;;; acceptor_close) (inner w)).2 with (Listener.stop (inner w)).2; [by apply step_stop|].
    unfold Listener.stop, bind, modify. by destruct (acceptor_close _) as [[[]|e] i].
  - apply rtc_once, step_destroy.
  - rewrite (proj1 (complete_inner i result w)). apply rtc_once. apply (step_complete slot i op); [done|].
    intros sock. destruct result as [e|s]; [done|]. intros [= <-]. destruct (Hr s eq_refl) as [Ho (H1 & H2 & H3)].
    split; [done|]. by split_and!.
  - unfold handshake_done, ssl_handshake_handler. rewrite bind_modify, bind_get. cbn [inner with_handshakes].
    destruct (bool_decide _) eqn:Hal; bool_props; cbn [negb]; [|done].
    unfold keepalive_cancel. rewrite bind_modify. destruct err; cbn [negb].
    + rewrite inner_on. by apply rtc_once, step_close.
    + rewrite bind_modify. by destruct sent.
  - done.
  - unfold timer_handler, on_init_timeout. rewrite bind_modify. destruct (negb _); [done|]. rewrite bind_get.
    cbn [inner with_timers]. destruct (bool_decide (conn_alive _ _)) eqn:Hal; bool_props; [|done].
    rewrite inner_on. by apply rtc_once, step_close.
  - rewrite inner_on. apply rtc_once, step_read_start.
  - rewrite inner_on. apply rtc_once, step_read.
  - rewrite inner_on. by apply rtc_once, step_close.
  - rewrite inner_on. by apply rtc_once, step_write_error.
  - rewrite inner_on. apply rtc_once, step_stop_clients.
  - by apply rtc_once, step_hold.
  - apply rtc_once, step_release.
Qed.

Definition same_inner {A} (m : M listener_ssl A) : Prop := ∀ w, count_view (inner (m w).2) = count_view (inner w).
Lemma same_inner_bind {A B} (m : M listener_ssl A) (k : A → M listener_ssl B) :
  same_inner m → (∀ x, same_inner (k x)) → same_inner (bind m k).
Proof. intros Hm Hk w. unfold bind. specialize (Hm w). destruct (m w) as [[x|e] w1]; [by rewrite Hk|done]. Qed.
Lemma same_inner_on {A} (m : M listener_impl A) : same_count m → same_inner (on_inner m).
Proof. intros Hm w. rewrite inner_on. by apply same_eq. Qed.
Lemma same_inner_outcome (e : option exn) (m : M listener_ssl unit) :
  same_inner m → same_inner (match e with Some e => raise e | None => m end).
Proof. by destruct e. Qed.
Lemma start_same setup bound listening : same_inner (start setup bound listening).
Proof.
  unfold start, call_on_start, reset_acceptor. pose proof same_count_start_accept.
  repeat first [apply same_inner_bind; [|intros ?] | apply same_inner_outcome | apply same_inner_on]; auto with vtrc; done.
Qed.

Lemma run_steps_rules I i i' : count_rules slot I → rtc (run_step slot) i i' → I i → I i'.
Proof. intros HI. induction 1 as [|i i1 i' Hs _ IH]; [done|]. intros Hi. by apply IH, (run_step_rules slot I HI i). Qed.
Lemma step_counted w w' : step w w' → count_inv (inner w) → count_inv (inner w').
Proof.
  intros Hs Hi. destruct (step_inner w w' Hs) as [Hr|(su & b & l & ->)].
  - by apply (run_steps_rules _ (inner w) _ (count_inv_rules slot)).
  - by apply (count_inv_view (inner w)); [apply start_same|].
Qed.

(** *** Operations that start nothing

    A connection somebody can reach was reachable, stays announced or not and stays
    closed, reads only if it did or may ([R]), and stays among the clients unless
    it may read. *)

Record quieter (P : nat → Prop) (R : gset nat) (i i' : listener_impl) : Prop := {
  q_alive c : P c → conn_alive i' c → conn_alive i c;
  q_len : length (conns i') = length (conns i);
  q_conns c co' : conns i' !! c = Some co' →
    ∃ co, conns i !! c = Some co ∧ (closed_ co = true → closed_ co' = true) ∧
          (reading co' = true → reading co = true ∨ c ∈ R);
  q_clients c : P c → c ∈ ConnectionList.clients_ (clients (base i)) →
    c ∈ ConnectionList.clients_ (clients (base i')) ∨ c ∈ R
}.

Section Quiet.
Context (P : nat → Prop) (R : gset nat).

Lemma quieter_refl i : quieter P R i i.
Proof. split; [done|done| |by left]. intros c co' Hco. exists co'. split_and!; try done. by left. Qed.
Lemma quieter_trans i i1 i' : quieter P R i i1 → quieter P R i1 i' → quieter P R i i'.
Proof.
  intros [A1 N1 C1 L1] [A2 N2 C2 L2]. split.
  - auto.
  - by rewrite N2.
  - intros c co' Hco. destruct (C2 c co' Hco) as (co1 & Hco1 & Hc1 & Hr1).
    destruct (C1 c co1 Hco1) as (co & Hco0 & Hc0 & Hr0). exists co. split_and!; [done|auto|].
    intros Hrd. destruct (Hr1 Hrd) as [Hrd'|]; [by apply Hr0|by right].
  - intros c Hp Hc. destruct (L1 c Hp Hc) as [Hc1|]; [by apply L2|by right].
Qed.

Definition shrinks {A} (m : M listener_impl A) : Prop := ∀ i, quieter P R i (m i).2.
Lemma shrinks_bind {A B} (m : M listener_impl A) (k : A → M listener_impl B) :
  shrinks m → (∀ x, shrinks (k x)) → shrinks (bind m k).
Proof.
  intros Hm Hk i. unfold bind. specialize (Hm i). destruct (m i) as [[x|e] i1]; [|done].
  eapply quieter_trans; [exact Hm|apply Hk].
Qed.
Lemma shrinks_ret {A} (x : A) : shrinks (ret x).
Proof. intros i. apply quieter_refl. Qed.
Lemma shrinks_raise {A} e : shrinks (A := A) (raise e).
Proof. intros i. apply quieter_refl. Qed.
Lemma shrinks_get : shrinks get.
Proof. intros i. apply quieter_refl. Qed.
Lemma quieter_same i i' :
  clients (base i') = clients (base i) → held i' = held i → conns i' = conns i → quieter P R i i'.
Proof.
  intros Hc Hh Hn. split.
  - intros c _. unfold conn_alive. by rewrite Hc, Hh.
  - by rewrite Hn.
  - intros c co'. rewrite Hn. intros Hco. exists co'. split_and!; try done. by left.
  - intros c _. rewrite Hc. by left.
Qed.
Lemma shrinks_modify f :
  (∀ i, clients (base (f i)) = clients (base i) ∧ held (f i) = held i ∧ conns (f i) = conns i) → shrinks (modify f).
Proof. intros H i. destruct (H i) as (? & ? & ?). by apply quieter_same. Qed.
Lemma shrinks_update c f :
  (∀ co, closed_ co = true → closed_ (f co) = true) → (∀ co, reading (f co) = true → reading co = true ∨ c ∈ R) →
  shrinks (update c f).
Proof.
  intros Hcl Hr i. split; [done|apply length_alter| |by left]. intros d co'. cbn. destruct (decide (d = c)) as [->|Hne].
  - rewrite list_lookup_alter_eq. destruct (conns i !! c) as [co|]; [|done]. intros [= <-]. exists co. auto.
  - rewrite list_lookup_alter_ne by done. intros Hco. exists co'. split_and!; try done. by left.
Qed.
Lemma shrinks_signal x : shrinks (on_base (raise_signal slot x)).
Proof.
  intros i. unfold on_base, raise_signal, bind, modify. destruct (slot x); cbn; by apply quieter_same.
Qed.
Lemma shrinks_drop c : (P c → c ∈ R) → shrinks (on_base (drop_client c)).
Proof.
  intros Hc i. split.
  - intros d _ [Hd|Hd]; [left|by right]. cbn in Hd. by apply list_elem_of_filter in Hd as [_ Hd].
  - done.
  - intros d co' Hco. exists co'. split_and!; try done. by left.
  - intros d Hp Hd. destruct (decide (d = c)) as [->|Hne]; [right; by apply Hc|left]. cbn. by apply list_elem_of_filter.
Qed.
#[local] Hint Resolve shrinks_bind shrinks_ret shrinks_raise shrinks_get shrinks_signal : vtrc.
#[local] Hint Extern 1 (shrinks (modify _)) => apply shrinks_modify; by intros [] : vtrc.
#[local] Hint Extern 1 (shrinks (update _ _)) =>
  apply shrinks_update; intros [] ?; cbn in *; [done|by left] : vtrc.
Ltac step_shrinks :=
  repeat first [assumption | apply shrinks_bind; [|intros ?] | progress auto with vtrc
               | match goal with |- shrinks (match ?x with _ => _ end) => destruct x end].

Lemma shrinks_stop_connection c : shrinks (on_base (stop_connection slot c)).
Proof.
  intros i. unfold on_base, stop_connection, raise_signal, bind, modify. destruct (slot _); cbn; by apply quieter_same.
Qed.
Lemma shrinks_close c : shrinks (close slot c).
Proof. unfold close, conn_on_close, on_client_destroy. pose proof (shrinks_stop_connection c). step_shrinks. Qed.
Lemma shrinks_write_error c : shrinks (on_write_error slot c).
Proof. unfold on_write_error. pose proof (shrinks_close c). step_shrinks. Qed.
Lemma shrinks_close_drop c : (P c → c ∈ R) → shrinks (close_drop slot c).
Proof. intros Hc. unfold close_drop. pose proof (shrinks_close c). pose proof (shrinks_drop c Hc). step_shrinks. Qed.
Lemma shrinks_stop_clients : shrinks (stop_clients slot).
Proof.
  unfold stop_clients, ConnectionList.stop_all_clients, ConnectionList.foreach_while. apply shrinks_bind; [apply shrinks_get|].
  intros i. apply shrinks_bind; [|step_shrinks].
  generalize (ConnectionList.clients_ (clients (base i))) 0. intros cs. induction cs as [|c cs IH]; intros r; [step_shrinks|].
  cbn [ConnectionList.foreach_while_loop]. unfold ConnectionList.close_all_connection at 1.
  pose proof (shrinks_close c). step_shrinks.
Qed.
Lemma shrinks_start_reading c : c ∈ R → shrinks (start_reading c).
Proof. intros Hc. apply shrinks_update; [by intros []|]. intros co _. by right. Qed.
Lemma shrinks_read_handler c error process : c ∈ R → shrinks (read_handler slot c error process).
Proof.
  intros Hc. unfold read_handler. pose proof (shrinks_close_drop c (λ _, Hc)). pose proof (shrinks_start_reading c Hc).
  assert (shrinks (update c (with_reading false))) by (apply shrinks_update; [by intros []|done]). step_shrinks.
Qed.
Lemma shrinks_start_read c : c ∈ R → shrinks (start_read_clos c).
Proof. intros Hc. unfold start_read_clos. pose proof (shrinks_start_reading c Hc). step_shrinks. Qed.
Lemma shrinks_start_accept : shrinks start_accept.
Proof. unfold start_accept. step_shrinks. Qed.
Lemma shrinks_acceptor_close : shrinks acceptor_close.
Proof. unfold acceptor_close. step_shrinks. Qed.
Lemma shrinks_working b : shrinks (modify (with_working b)).
Proof. auto with vtrc. Qed.
End Quiet.

(** ** The watch over the handshakes *)

Definition running (w : listener_ssl) (c : nat) : Prop :=
  keepalive_calls_ w !! c = Some armed ∨ keepalive_calls_ w !! c = Some due.
Definition covered (w : listener_ssl) (c : nat) : Prop :=
  c ∈ succeeded w ∨ (c ∈ handshakes w ∧ running w c).
Definition shut (i : listener_impl) (c : nat) : Prop :=
  conn_alive i c → ∀ co, conns i !! c = Some co → closed_ co = true.

Record watched (w : listener_ssl) : Prop := {
  wt_count : count_inv (inner w);
  wt_once : NoDup (handshakes w);
  wt_shakes c : c ∈ handshakes w → (c < length (conns (inner w)))%nat ∧ c ∉ succeeded w;
  wt_succ c : c ∈ succeeded w → (c < length (conns (inner w)))%nat;
  wt_reads c co : conns (inner w) !! c = Some co → reading co = true → c ∈ succeeded w;
  wt_covered c : covered w c ∨ shut (inner w) c
}.

(** What an operation does to the handshakes; [new] is the connection it set up. *)
Definition old (new : option nat) (c : nat) : Prop := Some c ≠ new.
Record moves (new : option nat) (w w' : listener_ssl) : Prop := {
  mv_quiet : quieter (old new) (succeeded w') (inner w) (inner w');
  mv_count : count_inv (inner w');
  mv_once : NoDup (handshakes w');
  mv_keep : succeeded w ⊆ succeeded w';
  mv_shakes c : c ∈ handshakes w' → (c ∈ handshakes w ∨ new = Some c) ∧ c ∉ succeeded w';
  mv_succ c : c ∈ succeeded w' → c ∈ succeeded w ∨ c ∈ handshakes w;
  mv_covered c : new = Some c ∨ covered w c → covered w' c ∨ shut (inner w') c
}.
Inductive moved (w w' : listener_ssl) : Prop :=
  | moved_none : moves None w w' → moved w w'
  | moved_new i co :
      conns i = conns (inner w) ++ [co] → reading co = false →
      clients (base i) = clients (base (inner w)) → held i = held (inner w) →
      moves (Some (length (conns (inner w)))) (with_inner i w) w' → moved w w'.

Lemma quieter_shut P R i i' c : P c → quieter P R i i' → shut i c → shut i' c.
Proof.
  intros Hp Hq Hs Hal co' Hco'. destruct (q_conns _ _ _ _ Hq c co' Hco') as (co & Hco & Hcl & _).
  apply Hcl, Hs; [|done]. by apply (q_alive _ _ _ _ Hq).
Qed.

Lemma moves_watched new w w' :
  (∀ c, new = Some c → (c < length (conns (inner w)))%nat) → moves new w w' →
  (∀ c, c ∈ handshakes w → (c < length (conns (inner w)))%nat) → (∀ c, c ∈ succeeded w → (c < length (conns (inner w)))%nat) →
  (∀ c co, conns (inner w) !! c = Some co → reading co = true → c ∈ succeeded w) →
  (∀ c, old new c → covered w c ∨ shut (inner w) c) → watched w'.
Proof.
  intros Hnew [Hq Hcnt Ho Hk Hs Hsu Hc] Wh Ws Wr Wc. pose proof (q_len _ _ _ _ Hq) as Hl. split; [done|done|..].
  - intros c Hin. destruct (Hs c Hin) as [[Hx|Hx] Hns]; rewrite Hl; auto.
  - intros c Hin. rewrite Hl. destruct (Hsu c Hin); auto.
  - intros c co' Hco' Hr'. destruct (q_conns _ _ _ _ Hq c co' Hco') as (co & Hco & _ & Hr).
    destruct (Hr Hr') as [Hr0|]; [|done]. apply Hk. by eapply Wr.
  - intros c. destruct (decide (Some c = new)) as [Hn|Hn]; [apply Hc; left; by symmetry|].
    destruct (Wc c Hn) as [Hcv|Hsh]; [apply Hc; by right|]. right. by apply (quieter_shut (old new) _ (inner w) _ c Hn Hq).
Qed.

Lemma moved_watched w w' : moved w w' → watched w → watched w'.
Proof.
  intros Hm [Hcnt Ho Hs Hsu Hr Hc]. destruct Hm as [Hm|i co Hconns Hrd Hcl Hh Hm].
  - apply (moves_watched None w w'); try done. intros c Hin. by apply Hs.
  - assert (Hlen : length (conns i) = S (length (conns (inner w)))) by (rewrite Hconns, length_app; cbn; lia).
    apply (moves_watched _ _ _) in Hm; cbn [inner with_inner handshakes succeeded] in *; [done|..].
    + intros c [= <-]. lia.
    + intros c Hin. destruct (Hs c Hin). lia.
    + intros c Hin. specialize (Hsu c Hin). lia.
    + intros c co'. rewrite Hconns. intros [Hco|[_ Hx]]%lookup_app_Some; [by apply Hr|].
      apply list_lookup_singleton_Some in Hx as [_ <-]. congruence.
    + intros c _. destruct (Hc c) as [Hcv|Hsh]; [by left|right]. intros Hal co'. rewrite Hconns. unfold conn_alive in Hal.
      rewrite Hcl, Hh in Hal. intros [Hco|[Hge _]]%lookup_app_Some; [by apply Hsh|].
      destruct (proj2 Hcnt c Hal) as (co1 & Hco1 & _). apply lookup_lt_Some in Hco1. lia.
Qed.

(** A connection that is closed and whose handshake did not succeed. *)
Definition stuck (c : nat) (w : listener_ssl) : Prop :=
  c ∈ ConnectionList.clients_ (clients (base (inner w))) ∧ (c ∉ succeeded w) ∧ (c ∉ handshakes w) ∧
  ∃ co, conns (inner w) !! c = Some co ∧ closed_ co = true.

Lemma moves_stuck new c w w' : new ≠ Some c → moves new w w' → stuck c w → stuck c w'.
Proof.
  intros Hn [Hq _ _ Hk Hs Hsu _] (Hin & Hns & Hnh & co & Hco & Hcl).
  assert (Hns' : c ∉ succeeded w') by by intros [|]%Hsu.
  split_and!; [|done|by intros [[|] _]%Hs|].
  - destruct (q_clients _ _ _ _ Hq c) as [|]; [congruence|done..].
  - assert (Hx : is_Some (conns (inner w') !! c)).
    { apply lookup_lt_is_Some. rewrite (q_len _ _ _ _ Hq). by eapply lookup_lt_Some. }
    destruct Hx as [co' Hco']. destruct (q_conns _ _ _ _ Hq c co' Hco') as (co0 & Hco0 & Hc & _).
    exists co'. split; [done|]. apply Hc. congruence.
Qed.
Lemma moved_stuck c w w' : moved w w' → stuck c w → stuck c w'.
Proof.
  intros [Hm|i co Hconns Hrd Hcl Hh Hm] Hst; [by apply (moves_stuck None c w w')|].
  destruct Hst as (Hin & Hns & Hnh & co1 & Hco1 & Hclo). pose proof (lookup_lt_Some _ _ _ Hco1).
  apply (moves_stuck (Some (length (conns (inner w)))) c (with_inner i w) w' ltac:(intros [=]; lia) Hm). split_and!; [by cbn; rewrite Hcl|done|done|].
  exists co1. split; [|done]. cbn. rewrite Hconns. by apply lookup_app_l_Some.
Qed.

(** *** The steps *)

Hypothesis (Hslot : ∀ x e, slot x = Some e → defined e).

Lemma watched_drop i (h : list nat) : NoDup h → NoDup (delete i h).
Proof. intros H. eapply sublist_NoDup; [exact H|apply sublist_delete]. Qed.

(** A handshake and a timer are settled at once. *)
Lemma moves_settled w w' :
  watched w → quieter (old None) (succeeded w') (inner w) (inner w') → count_inv (inner w') →
  (NoDup (handshakes w')) → succeeded w ⊆ succeeded w' →
  (∀ c, c ∈ handshakes w' → c ∈ handshakes w ∧ (c ∉ succeeded w')) →
  (∀ c, c ∈ succeeded w' → c ∈ succeeded w ∨ c ∈ handshakes w) →
  (∀ c, covered w c → covered w' c ∨ shut (inner w') c) → moved w w'.
Proof.
  intros Hw Hq Hc Ho Hk Hs Hsu Hcv. left. split; try done.
  - intros c Hin. destruct (Hs c Hin). split; [by left|done].
  - intros c [|]; [done|auto].
Qed.
(** An operation of the inner listener alone. *)
Lemma moves_inner w i' :
  watched w → quieter (old None) (succeeded w) (inner w) i' → count_inv i' → moved w (with_inner i' w).
Proof.
  intros Hw Hq Hc. apply moves_settled; try done; [apply Hw|intros c Hin|by left|by left].
  split; [done|]. by apply (wt_shakes w Hw).
Qed.
Lemma on_inner_eq {A} (m : M listener_impl A) w : (on_inner m w).2 = with_inner (m (inner w)).2 w.
Proof. unfold on_inner. by destruct (m (inner w)). Qed.
Lemma moves_on {A} (m : M listener_impl A) w :
  watched w → shrinks (old None) (succeeded w) m → count_inv (inner (on_inner m w).2) → moved w (on_inner m w).2.
Proof. rewrite inner_on, on_inner_eq. intros Hw Hm Hc. by apply moves_inner. Qed.

Lemma update_lookup c f i co :
  conns (update c f i).2 !! c = Some co → ∃ co0, conns i !! c = Some co0 ∧ co = f co0.
Proof.
  cbn. rewrite list_lookup_alter_eq. destruct (conns i !! c) as [co0|]; [|done]. intros [= <-]. by exists co0.
Qed.
Lemma close_closes c i co : conns (close slot c i).2 !! c = Some co → closed_ co = true.
Proof.
  unfold close. rewrite bind_get. destruct (conns i !! c) as [co0|] eqn:Hco; [|cbn; by rewrite Hco].
  destruct (closed_ co0) eqn:Hcl; cbn [negb]; [cbn; congruence|].
  set (rest := λ _ : unit, conn_on_close slot c ;;; update c with_handle_closed).
  assert (Hr : shrinks (λ _, True) ∅ (rest tt)).
  { unfold rest, conn_on_close, on_client_destroy. pose proof (shrinks_stop_connection (λ _, True) ∅ c).
    repeat first [apply shrinks_bind; [|intros ?] | apply shrinks_get
                 | apply shrinks_update; intros [] ?; cbn in *; [done|by left]]. destruct (alive _); [done|apply shrinks_ret]. }
  rewrite (bind_ok (update c with_closed) rest i tt (update c with_closed i).2 eq_refl).
  intros Hx. destruct (q_conns _ _ _ _ (Hr _) c co Hx) as (co1 & Hco1 & Hk & _). apply Hk.
  apply update_lookup in Hco1 as (co2 & _ & ->). by destruct co2.
Qed.
Lemma close_shut c i : shut (close slot c i).2 c.
Proof. intros _ co. apply close_closes. Qed.

(** Setting up a connection lets only the new one in. *)
Lemma shrinks_store R n : shrinks (old (Some n)) R (on_base (store_client n)).
Proof.
  intros i. split.
  - intros d Hd [Hx|Hx]; [left|by right]. cbn in Hx. apply insert_sorted_elem in Hx as [->|]; [by destruct Hd|done].
  - done.
  - intros d co' Hco. exists co'. split_and!; try done. by left.
  - intros d _ Hd. left. cbn. apply insert_sorted_elem. by right.
Qed.

Definition outer (w : listener_ssl) := (handshakes w, keepalive_calls_ w, succeeded w).
(** A computation over the inner listener alone. *)
Definition tame (R : gset nat) {A} (m : M listener_ssl A) : Prop :=
  ∀ w, outer (m w).2 = outer w ∧ quieter (old None) R (inner w) (inner (m w).2).
Lemma tame_bind R {A B} (m : M listener_ssl A) (k : A → M listener_ssl B) :
  tame R m → (∀ x, tame R (k x)) → tame R (bind m k).
Proof.
  intros Hm Hk w. unfold bind. destruct (Hm w) as [Ho Hq]. destruct (m w) as [[x|e] w1]; [|done].
  destruct (Hk x w1) as [Ho1 Hq1]. split; [by rewrite Ho1|]. by eapply quieter_trans.
Qed.
Lemma tame_on R {A} (m : M listener_impl A) : shrinks (old None) R m → tame R (on_inner m).
Proof. intros H w. rewrite on_inner_eq. by split. Qed.
Lemma tame_outcome R (e : option exn) (m : M listener_ssl unit) : tame R m → tame R (match e with Some e => raise e | None => m end).
Proof. intros Hm. destruct e; [|done]. intros w. split; [done|apply quieter_refl]. Qed.
Lemma tame_moved {A} (m : M listener_ssl A) w i :
  watched w → quieter (old None) (succeeded w) (inner w) i → tame (succeeded w) m →
  count_inv (inner (m (with_inner i w)).2) → moved w (m (with_inner i w)).2.
Proof.
  intros Hw Hi Hm Hc. destruct (Hm (with_inner i w)) as [Ho Hq]. destruct (m _) as [r [i' h t s]].
  unfold outer in Ho. cbn in *. injection Ho as -> -> ->. apply (moves_inner w i'); [done| |done].
  by eapply quieter_trans.
Qed.

Lemma tame_ret R {A} (x : A) : tame R (ret x).
Proof. intros w. split; [done|apply quieter_refl]. Qed.
Lemma tame_start R setup bound listening : tame R (start setup bound listening).
Proof.
  unfold start, call_on_start, reset_acceptor. pose proof (shrinks_start_accept (old None) R).
  pose proof (tame_ret R tt).
  repeat first [apply tame_bind; [|intros ?] | apply tame_outcome | apply tame_on]; try done;
    first [apply shrinks_modify; by intros [] | apply shrinks_signal].
Qed.
Lemma tame_stop R : tame R stop.
Proof.
  unfold stop. apply tame_bind; [|intros _]; apply tame_on; [apply shrinks_working|apply shrinks_acceptor_close].
Qed.

Lemma shrinks_setup R c sock : shrinks (old (Some c)) R (Listener.setup_connection slot c (plain sock)).
Proof.
  unfold Listener.setup_connection, connection_setup, assign_lowlevel_factory, announce, new_connection, Listener.init.
  cbn [ssl_virtuals listener_ssl_virtuals]. unfold ssl_connection_setup.
  pose proof (shrinks_store R c). pose proof (shrinks_get (old (Some c)) R).
  repeat first [assumption | apply shrinks_bind; [|intros ?] | apply shrinks_ret | apply shrinks_raise
    | apply shrinks_update; intros [] ?; cbn in *; [done|by left]
    | match goal with |- shrinks _ _ (match ?x with _ => _ end) => destruct x end].
  intros i. unfold on_base, raise_signal, bind, modify. destruct (slot _); cbn; by apply quieter_same.
Qed.
Lemma held_on_base {A} (m : M listener A) : same held (on_base m).
Proof. intros v i <-. unfold on_base. by destruct (m (base i)). Qed.
Lemma held_setup c sock : same held (Listener.setup_connection slot c sock).
Proof.
  unfold Listener.setup_connection, connection_setup, assign_lowlevel_factory, announce, Listener.init.
  cbn [ssl_virtuals listener_ssl_virtuals]. unfold ssl_connection_setup, update.
  repeat first [apply held_on_base | apply same_bind; [|intros ?] | apply same_ret | apply same_raise | apply same_get
    | by apply same_modify | match goal with |- same _ (match ?x with _ => _ end) => destruct x end].
Qed.

Lemma drop_caught e c i :
  defined e → (match e with EUndefined x => (Raise (EUndefined x), i) | _ => on_base (drop_client c) i end).2 =
              (on_base (drop_client c) i).2.
Proof. intros He. destruct e as [| | | | | |x]; try done. by destruct (He x). Qed.
Lemma moves_accept c i2 sock w w3 w' (m := Listener.setup_connection slot c (plain sock) i2) :
  watched w → c = length (conns (inner w)) → socket_defined (plain sock) → (c ∉ held i2) →
  inner w3 = (try_catch (Listener.setup_connection slot c (plain sock)) (λ _, on_base (drop_client c)) i2).2 →
  succeeded w3 = succeeded w →
  match m.1 with
  | Ok _ => handshakes w3 = handshakes w ++ [c] ∧ keepalive_calls_ w3 = <[c := armed]> (keepalive_calls_ w)
  | Raise _ => handshakes w3 = handshakes w ∧ keepalive_calls_ w3 = keepalive_calls_ w
  end →
  quieter (old None) (succeeded w) (inner w3) (inner w') → outer w' = outer w3 → count_inv (inner w') →
  moves (Some c) (with_inner i2 w) w'.
Proof.
  intros Hw Hc Hsock Hheld Hi Hs Hm Hq Ho Hcnt. unfold outer in Ho. injection Ho as Hoh Hot Hos.
  pose proof (shrinks_setup (succeeded w) c sock i2) as Hsh. pose proof (held_setup c (plain sock) _ i2 eq_refl) as Hh.
  pose proof (setup_defined slot Hslot c (plain sock) i2) as Hd. cbn in Hh. subst m. unfold try_catch in Hi.
  assert (Hfresh : (c ∉ handshakes w) ∧ (c ∉ succeeded w)).
  { split; intros Hin; [destruct (wt_shakes w Hw c Hin)|pose proof (wt_succ w Hw c Hin)]; lia. }
  assert (Hqo : quieter (old (Some c)) (succeeded w) (inner w3) (inner w')).
  { destruct Hq as [A N C L]. split; [by intros d _; apply A|done|done|by intros d _; apply L]. }
  destruct (Listener.setup_connection slot c (plain sock) i2) as [[[]|e] i3]; cbn [fst snd] in *;
    destruct Hm as [Hmh Hmt]; (split; cbn [inner with_inner handshakes succeeded keepalive_calls_];
      unfold covered, running; rewrite ?Hoh, ?Hot, ?Hos, ?Hs, ?Hmh, ?Hmt;
      [|done| |done| |by left|]).
  - rewrite Hi in Hqo. by eapply quieter_trans.
  - apply NoDup_app. split_and!; [apply Hw|intros d Hd1 Hx; apply list_elem_of_singleton in Hx as ->; by destruct Hfresh|apply NoDup_singleton].
  - intros d [Hin|Hx]%elem_of_app; [|apply list_elem_of_singleton in Hx as ->; by split; [right|apply Hfresh]].
    split; [by left|]. by apply (wt_shakes w Hw).
  - intros d Hd1. left. destruct (decide (d = c)) as [->|Hne].
    + right. split; [apply elem_of_app; right; by apply list_elem_of_singleton|left; by rewrite lookup_insert_eq].
    + destruct Hd1 as [[=]|[|[Hin Hr]]]; [by destruct Hne|by left|right]. cbn in Hr.
      rewrite lookup_insert_ne by done. split; [apply elem_of_app; by left|done].
  - rewrite (drop_caught e) in Hi by by eapply Hd. rewrite Hi in Hqo. eapply quieter_trans; [exact Hsh|].
    eapply quieter_trans; [|exact Hqo]. apply shrinks_drop. intros H0. by destruct H0.
  - apply Hw.
  - intros d Hin. split; [by left|]. by apply (wt_shakes w Hw).
  - rewrite (drop_caught e) in Hi by by eapply Hd. intros d Hd1. destruct (decide (d = c)) as [->|Hne].
    + right. apply (quieter_shut (old None) (succeeded w) (inner w3)); [done|done|]. intros [Hal|Hal] co; exfalso; rewrite Hi in Hal; cbn in Hal.
      * by apply list_elem_of_filter in Hal as [? _].
      * by rewrite Hh in Hal.
    + left. destruct Hd1 as [[=]|Hd1]; [by destruct Hne|]. exact Hd1.
Qed.

Lemma plain_defined sock : socket_defined sock → socket_defined (plain sock).
Proof. by intros (H1 & H2 & _). Qed.
Lemma complete_moved i result w :
  watched w → (∀ sock, result = inr sock → socket_defined sock) → count_inv (inner (complete i result w).2) →
  moved w (complete i result w).2.
Proof.
  intros Hw Hsock. unfold complete. rewrite bind_get. erewrite bind_ok by reflexivity.
  set (i1 := with_pending _ (inner w)). change (on_inner _ w).2 with (with_inner i1 w).
  assert (Hi1 : quieter (old None) (succeeded w) (inner w) i1) by by apply quieter_same.
  assert (Hc1 : count_inv i1) by (apply (count_inv_view (inner w)); [done|apply Hw]).
  assert (H0 : conns i1 = conns (inner w) ∧ clients (base i1) = clients (base (inner w)) ∧ held i1 = held (inner w)) by done.
  clearbody i1. destruct H0 as (Hcs & Hcl & Hh).
  unfold on_accept. rewrite bind_get. cbn [inner with_inner].
  destruct (alive i1); cbn [negb]; [|intros _; by apply moves_inner].
  destruct result as [error|sock].
  - intros Hc. apply (tame_moved _ w i1); [done|done| |done]. unfold call_on_accept_failed, call_on_stop.
    destruct (working_ i1).
    + apply tame_bind; [apply tame_stop|]. intros _. apply tame_on, shrinks_signal.
    + apply tame_on, shrinks_signal.
  - set (co := Connection (Environment.copy_from (env_ (base i1)) Environment.environment_new) None "" false false true false 0 false).
    set (c := length (conns i1)). set (i2 := with_conns (conns i1 ++ [co]) i1).
    rewrite (bind_ok (on_inner create_connection) _ _ c (with_inner i2 w)) by reflexivity.
    destruct (accept_inner c sock (with_inner i2 w)) as (w3 & Hg & Hi & Hs & Hr). cbn [inner with_inner] in *.
    destruct (rest_bind _ (λ _, start_accept) _ _ _ Hg) as (Hi' & H1 & H2 & H3). intros Hc.
    apply (moved_new w _ i2 co); [by cbn; rewrite Hcs|done|done|done|]. rewrite <-Hcs.
    apply (moves_accept c i2 sock w w3); try done.
    + by rewrite <-Hcs.
    + by apply plain_defined, Hsock.
    + intros Hin. destruct (proj2 Hc1 c) as (co1 & Hco1 & _); [by right|]. apply lookup_lt_Some in Hco1. unfold c in Hco1. lia.
    + rewrite Hi'. destruct (try_catch _ _ _).1; [apply shrinks_start_accept|apply quieter_refl].
    + unfold outer. by rewrite H1, H2, H3.
Qed.

Lemma handshake_moved i c err sent w :
  watched w → handshakes w !! i = Some c → count_inv (inner (handshake_done i c err sent w).2) →
  moved w (handshake_done i c err sent w).2.
Proof.
  intros Hw Hi. assert (Hsplit : handshakes w ≡ₚ c :: delete i (handshakes w)) by by apply delete_Permutation.
  pose proof (wt_once w Hw) as Hnd. rewrite Hsplit in Hnd. apply NoDup_cons in Hnd as [Hnin Hnd].
  assert (Hin : c ∈ handshakes w) by by eapply list_elem_of_lookup_2.
  assert (Hdel : ∀ d, d ∈ delete i (handshakes w) → d ∈ handshakes w ∧ d ≠ c).
  { intros d Hd. split; [rewrite Hsplit; by right|by intros ->]. }
  assert (Hkeep : ∀ d, d ∈ handshakes w → d ≠ c → d ∈ delete i (handshakes w)).
  { intros d Hd Hne. rewrite Hsplit in Hd. apply elem_of_cons in Hd as [->|]; [by destruct Hne|done]. }
  unfold handshake_done, ssl_handshake_handler. rewrite bind_modify, bind_get. cbn [inner with_handshakes].
  destruct (bool_decide _) eqn:Hal; bool_props; cbn [negb].
  2:{ intros Hc. apply moves_settled; try done.
      - apply quieter_refl.
      - intros d Hd. destruct (Hdel d Hd). split; [done|]. by apply (wt_shakes w Hw).
      - by left.
      - intros d Hcov. destruct (decide (d = c)) as [->|Hne]; [right; intros Hx; by destruct Hal|left].
        destruct Hcov as [|[Hd Hr]]; [by left|right]. split; [by apply Hkeep|done]. }
  unfold keepalive_cancel. rewrite bind_modify. destruct err; cbn [negb].
  - rewrite on_inner_eq. cbn [inner with_inner with_timers with_handshakes]. intros Hc. apply moves_settled; try done.
    + apply shrinks_close.
    + intros d Hd. destruct (Hdel d Hd). split; [done|]. by apply (wt_shakes w Hw).
    + by left.
    + intros d Hcov. destruct (decide (d = c)) as [->|Hne]; [right; apply close_shut|left].
      destruct Hcov as [|[Hd Hr]]; [by left|right]. split; [by apply Hkeep|]. unfold running in *. cbn in *. by rewrite !lookup_alter_ne.
  - rewrite bind_modify. replace (match sent with Some e => raise e | None => ret tt end) with
      (λ st : listener_ssl, (match sent with Some e => Raise e | None => Ok tt end, st)) by by destruct sent.
    cbn [snd]. intros Hc. apply moves_settled; try done.
    + apply quieter_refl.
    + apply union_subseteq_r.
    + intros d Hd. destruct (Hdel d Hd). split; [done|]. cbn. intros [Hx|]%elem_of_union;
        [by apply elem_of_singleton in Hx|by apply (wt_shakes w Hw d)].
    + intros d [Hd|Hd]%elem_of_union; [apply elem_of_singleton in Hd as ->; by right|by left].
    + intros d Hcov. left. destruct (decide (d = c)) as [->|Hne]; [left; apply elem_of_union; left; by apply elem_of_singleton|].
      destruct Hcov as [|[Hd Hr]]; [left; apply elem_of_union; by right|right]. split; [by apply Hkeep|].
      unfold running in *. cbn in *. by rewrite !lookup_alter_ne.
Qed.

Lemma timer_moved c t w :
  watched w → keepalive_calls_ w !! c = Some t → (t = armed → ¬ conn_alive (inner w) c) →
  count_inv (inner (timer_handler c t w).2) → moved w (timer_handler c t w).2.
Proof.
  intros Hw Ht Harm. unfold timer_handler, on_init_timeout. rewrite bind_modify. cbn [inner with_timers].
  assert (Hrun : ∀ d, d ≠ c → running w d → running (with_timers (delete c (keepalive_calls_ w)) w) d).
  { intros d Hne. unfold running. cbn. by rewrite lookup_delete_ne. }
  assert (Hns : ∀ d, d ∈ handshakes w → d ∈ handshakes w ∧ (d ∉ succeeded w)).
  { intros d Hd. split; [done|]. by apply (wt_shakes w Hw). }
  destruct (decide (t = due)) as [->|Hd].
  - rewrite bool_decide_true by done. cbn [negb]. rewrite bind_get. cbn [inner with_timers].
    assert (Hgo : ∀ i', quieter (old None) (succeeded w) (inner w) i' → shut i' c → count_inv i' →
      moved w (with_inner i' (with_timers (delete c (keepalive_calls_ w)) w))).
    { intros i' Hq Hs Hc. apply moves_settled; try done; [apply Hw|by left|]. intros d Hcov.
      destruct (decide (d = c)) as [->|Hne]; [by right|left]. destruct Hcov as [|[Hd Hr]]; [by left|right]. by split; [|apply Hrun]. }
    destruct (bool_decide (conn_alive _ _)) eqn:Hal; bool_props.
    + rewrite on_inner_eq. apply Hgo; [apply shrinks_close|apply close_shut].
    + apply (Hgo (inner w)); [apply quieter_refl|intros Hx; by destruct Hal].
  - rewrite bool_decide_false by done. cbn [negb snd ret]. intros Hc. apply moves_settled; try done; [apply quieter_refl|apply Hw|by left|].
    intros d Hcov. destruct (decide (d = c)) as [->|Hne].
    + destruct t; [right; intros Hal; by destruct (Harm eq_refl)|by destruct Hd|left].
      destruct Hcov as [|[_ [Hr|Hr]]]; [by left|congruence..].
    + left. destruct Hcov as [|[Hd1 Hr]]; [by left|right]. by split; [|apply Hrun].
Qed.

Lemma step_moved w w' : step w w' → watched w → moved w w'.
Proof.
  intros Hs Hw. pose proof (step_counted w w' Hs (wt_count w Hw)) as Hc. pose proof (step_inner w w' Hs) as _.
  destruct Hs as [su b l w Ha|w Ha Hac|w|i op result w Hop Hr|i c err sent w Hi|c w Ht Hal|c t w Ht Hne|c w Hcs
    |c error process w Hrd|c w Hal|c w Hal|w|c w Hal|c w].
  - apply (tame_moved (start su b l) w (inner w)) in Hw; [|apply quieter_refl|apply tame_start|]; by destruct w.
  - apply (tame_moved stop w (inner w)) in Hw; [|apply quieter_refl|apply tame_stop|]; by destruct w.
  - apply moves_inner; [done|by apply quieter_same|done].
  - apply complete_moved; [done| |done]. intros sock ->. by apply Hr.
  - by apply handshake_moved.
  - apply moves_settled; try done; [apply quieter_refl|apply Hw| |by left|].
    + intros d Hd. split; [done|]. by apply (wt_shakes w Hw).
    + intros d Hcov. left. destruct Hcov as [|[Hd Hr]]; [by left|right]. split; [done|]. unfold running in *. cbn.
      destruct (decide (d = c)) as [->|Hne]; [right; by rewrite lookup_insert_eq|by rewrite lookup_insert_ne].
  - by apply timer_moved.
  - apply moves_on; [done| |done]. by apply shrinks_start_read.
  - apply moves_on; [done| |done]. apply shrinks_read_handler. destruct Hrd as (co & Hco & Hr). by apply (wt_reads w Hw c co).
  - apply moves_on; [done|apply shrinks_close|done].
  - apply moves_on; [done|apply shrinks_write_error|done].
  - apply moves_on; [done|apply shrinks_stop_clients|done].
  - apply moves_inner; [done| |done]. split; [|done|intros d co' Hco; exists co'; split_and!; try done; by left|by left].
    intros d _ [Hd|[->%elem_of_singleton|Hd]%elem_of_union]; [by left|done|by right].
  - apply moves_inner; [done| |done]. split; [|done|intros d co' Hco; exists co'; split_and!; try done; by left|by left].
    intros d _ [Hd|[Hd _]%elem_of_difference]; [by left|by right].
Qed.

Lemma steps_watched w w' : rtc step w w' → watched w → watched w'.
Proof. induction 1 as [|w w1 w' Hs _ IH]; [done|]. intros Hw. apply IH, (moved_watched w); [|done]. by apply step_moved. Qed.
Lemma steps_stuck c w w' : rtc step w w' → watched w → stuck c w → stuck c w'.
Proof.
  induction 1 as [|w w1 w' Hs _ IH]; [done|]. intros Hw Hst. pose proof (step_moved _ _ Hs Hw) as Hm.
  apply IH; [by apply (moved_watched w)|by apply (moved_stuck c w)].
Qed.
Lemma failed_stuck i c sent w :
  watched w → handshakes w !! i = Some c → c ∈ ConnectionList.clients_ (clients (base (inner w))) →
  stuck c (handshake_done i c true sent w).2.
Proof.
  intros Hw Hi Hin. pose proof (wt_once w Hw) as Hnd. rewrite (delete_Permutation _ _ _ Hi) in Hnd.
  apply NoDup_cons in Hnd as [Hnin _]. destruct (wt_shakes w Hw c) as [Hlt Hns]; [by eapply list_elem_of_lookup_2|].
  unfold handshake_done, ssl_handshake_handler, keepalive_cancel. rewrite bind_modify, bind_get. cbn [inner with_handshakes].
  rewrite bool_decide_true by by left. cbn [negb]. rewrite bind_modify, on_inner_eq. cbn [inner with_handshakes with_timers].
  pose proof (shrinks_close (λ _, True) ∅ c (inner w)) as Hq.
  split_and!; cbn [inner with_inner succeeded handshakes with_handshakes with_timers]; [|done|done|].
  - by destruct (q_clients _ _ _ _ Hq c I Hin) as [|Hx%not_elem_of_empty].
  - destruct (lookup_lt_is_Some_2 (conns (close slot c (inner w)).2) c) as [co Hco]; [by rewrite (q_len _ _ _ _ Hq)|].
    exists co. split; [done|]. by eapply close_closes.
Qed.
End Ssl.

Lemma new_watched app address port : watched (listener_ssl_new address port app).
Proof.
  split.
  - apply new_count_inv.
  - apply NoDup_nil_2.
  - intros c Hc. by apply elem_of_nil in Hc.
  - intros c Hc. cbn in Hc. set_solver.
  - intros c co Hco. done.
  - intros c. right. intros _ co. done.
Qed.

(** ** Properties *)

(** C19 (invariant).  Every connection somebody can reach is closed, or its handshake
    has succeeded, or its handshake is under way and its timer is waiting or has
    expired; and only connections whose handshake succeeded read.  The handler of a
    timer that expired closes the connection. *)
Theorem handshake_watched slot no_delay address port app w :
  (∀ x e, slot x = Some e → defined e) →
  rtc (step slot no_delay) (listener_ssl_new address port app) w →
  (∀ c co, conns (inner w) !! c = Some co →
     (reading co = true → c ∈ succeeded w) ∧
     (conn_alive (inner w) c → closed_ co = true ∨ c ∈ succeeded w ∨ (c ∈ handshakes w ∧ running w c))) ∧
  (∀ c co, conn_alive (inner w) c → conns (inner (timer_handler slot c due w).2) !! c = Some co → closed_ co = true).
Proof.
  intros Hslot Hs. pose proof (steps_watched slot no_delay Hslot _ w Hs (new_watched app address port)) as Hw. split.
  - intros c co Hco. split; [by apply (wt_reads w Hw)|]. intros Hal.
    destruct (wt_covered w Hw c) as [Hc|Hsh]; [by right|left]. by apply Hsh.
  - intros c co Hal. unfold timer_handler, on_init_timeout. rewrite bind_modify.
    rewrite (bool_decide_true (due = due)) by done. cbn [negb]. rewrite bind_get. cbn [inner with_timers].
    rewrite bool_decide_true by done. rewrite inner_on. apply close_closes.
Qed.

(** A connection whose handshake failed is closed and yet stays in the
    list of the clients whatever happens later: only a read that fails drops a
    connection, and this one never reads. *)
Theorem failed_handshake_kept slot no_delay address port app w i c sent w2 :
  (∀ x e, slot x = Some e → defined e) →
  rtc (step slot no_delay) (listener_ssl_new address port app) w →
  handshakes w !! i = Some c → c ∈ ConnectionList.clients_ (clients (base (inner w))) →
  rtc (step slot no_delay) (handshake_done slot i c true sent w).2 w2 →
  c ∈ ConnectionList.clients_ (clients (base (inner w2))) ∧
  ∃ co, conns (inner w2) !! c = Some co ∧ closed_ co = true ∧ reading co = false.
Proof.
  intros Hslot Hs Hi Hin Hs2. pose proof (steps_watched slot no_delay Hslot _ w Hs (new_watched app address port)) as Hw.
  assert (Hstep : step slot no_delay w (handshake_done slot i c true sent w).2) by by apply st_handshake.
  pose proof (moved_watched _ _ (step_moved slot no_delay Hslot _ _ Hstep Hw) Hw) as Hw1.
  pose proof (failed_stuck slot i c sent w Hw Hi Hin) as Hst.
  pose proof (steps_watched slot no_delay Hslot _ w2 Hs2 Hw1) as Hw2.
  destruct (steps_stuck slot no_delay Hslot c _ w2 Hs2 Hw1 Hst) as (H1 & H2 & _ & co & Hco & Hcl).
  split; [done|]. exists co. split_and!; [done..|]. destruct (reading co) eqn:Hr; [|done]. by destruct (H2 (wt_reads w2 Hw2 c co Hco Hr)).
Qed.

(** A listener whose acceptor could not be made counts as working, and stopping it
    uses an acceptor that is not there. *)
Lemma failed_start slot e listening w :
  acceptor_ (inner w) = None →
  let w1 := (start slot None (Some e) listening w).2 in
  is_active w1 = true ∧ (stop w1).1 = Raise (EUndefined "null acceptor").
Proof.
  intros Ha. unfold start, stop, acceptor_close, on_inner, bind, modify, get, raise, ret. cbn. rewrite Ha. done.
Qed.

(** ** Witnesses *)

Definition example_new : listener_ssl := listener_ssl_new "127.0.0.1" 443 Environment.environment_new.
Definition example_started : listener_ssl := (start example_slot None None None example_new).2.
(** A client came, and its handshake is under way. *)
Definition example_accept : listener_ssl :=
  (complete example_slot true 0 (inr (example_socket None)) example_started).2.
Abbreviation example_failed := (handshake_done example_slot 0 0 true None example_accept).2.
(** The timer ran out as the handshake succeeded, then the client hung up. *)
Definition example_late : listener_ssl :=
  (on_inner (read_handler example_slot 0 true None)
    (on_inner (start_read_clos 0)
      (handshake_done example_slot 0 0 false None (expire 0 example_accept).2).2).2).2.

Lemma example_accept_reachable : rtc (step example_slot true) example_new example_accept.
Proof.
  eapply rtc_l; [by apply st_start|]. eapply rtc_l; [|apply rtc_refl].
  eapply (st_complete _ _ 0%nat _ (inr (example_socket None))); [reflexivity|]. intros sock [= <-].
  split; [done|apply example_socket_defined].
Qed.
Lemma example_alive : conn_alive (inner example_accept) 0.
Proof. left. by apply (bool_decide_eq_true_1 _). Qed.
Lemma example_late_reachable : rtc (step example_slot true) example_new example_late.
Proof.
  etransitivity; [apply example_accept_reachable|].
  eapply rtc_l; [apply (st_expire _ _ 0); [reflexivity|apply example_alive]|].
  eapply rtc_l; [by apply (st_handshake _ _ 0%nat 0%nat false None)|].
  eapply rtc_l; [apply (st_read_start _ _ 0); by apply (bool_decide_eq_true_1 _)|].
  eapply rtc_l; [|apply rtc_refl]. apply (st_read _ _ 0 true None). eexists. split; reflexivity.
Qed.

(** The handler of a timer that had expired may find the connection destroyed. *)
Lemma late_timeout :
  ∃ w, rtc (step example_slot true) example_new w ∧ keepalive_calls_ w !! 0%nat = Some due ∧
       (timer_handler example_slot 0 due w).1 = Raise destroyed.
Proof. exists example_late. split; [apply example_late_reachable|]. split; vm_compute; reflexivity. Qed.

Lemma example_open : ∃ co, conns (inner example_accept) !! 0%nat = Some co ∧ closed_ co = false.
Proof. eexists. split; vm_compute; reflexivity. Qed.
Lemma example_waits : 0%nat ∉ succeeded example_accept.
Proof. by apply (bool_decide_eq_true_1 _). Qed.
Lemma handshake_watched_witness :
  0%nat ∈ handshakes example_accept ∧ running example_accept 0.
Proof.
  destruct example_open as (co & Hco & Hcl).
  destruct (proj2 (proj1 (handshake_watched example_slot true "127.0.0.1" 443 Environment.environment_new example_accept
    example_slot_defined example_accept_reachable) 0%nat co Hco) example_alive) as [H|[H|H]].
  - congruence.
  - by destruct (example_waits H).
  - exact H.
Defined.

Lemma example_stop : rtc (step example_slot true) example_failed (on_inner (stop_clients example_slot) example_failed).2.
Proof. apply rtc_once, st_stop_clients. Qed.
Lemma example_stored : 0%nat ∈ ConnectionList.clients_ (clients (base (inner example_accept))).
Proof. by apply (bool_decide_eq_true_1 _). Qed.
Lemma failed_handshake_kept_witness :
  0%nat ∈ ConnectionList.clients_ (clients (base (inner (on_inner (stop_clients example_slot) example_failed).2))).
Proof.
  exact (proj1 (failed_handshake_kept example_slot true "127.0.0.1" 443 Environment.environment_new example_accept 0 0 None
    (on_inner (stop_clients example_slot) example_failed).2 example_slot_defined example_accept_reachable eq_refl
    example_stored example_stop)).
Defined.
