(* ===== verification/Pipe.v ===== *)
(** * Pipe: the listener of Windows pipes

    [lib/vtrc/server/listener/win-pipe.cpp], compiled on Windows only.  The connections, the counter and the signals of the listener are those of Listener,
    whose acceptor a pipe listener does not have: it makes an instance of the pipe for
    every client, and asks the system to connect it with an operation that
    [overlapped_] owns until it is released to the system or completed.

    The answers of the system are arguments of the step that asks: a handle or an
    error, and what [ConnectNamedPipe] says of it.  [overlapped_ptr] is asio's:
    [reset] begins to own a new operation, [release] leaves it to the system,
    [complete] posts its handler with an error code, and does nothing if it owns none. *)

From S2P Require Import Prelude Registry Listener.

(** ** The listener *)

Inductive connect_answer : Type :=
  | io_pending
  | pipe_connected
  | connect_failed (last_error : Z).

(** Operations are known by the number of their pipe.  [connecting] are those that the
    system has, [posted] the handlers that were posted, with their error codes. *)
Record pipe_listener : Type := PipeListener {
  impl_ : listener_impl;
  overlapped_ : option nat;
  connecting : list nat;
  posted : list (Z * nat);
  pipes : nat
}.

Definition on_impl {A} (m : M listener_impl A) : M pipe_listener A := λ w,
  let '(r, i) := m (impl_ w) in (r, PipeListener i (overlapped_ w) (connecting w) (posted w) (pipes w)).
Definition working (w : pipe_listener) : bool := working_ (impl_ w).

Definition endpoint_name (endpoint_ : string) : string := "pipe://" +:+ endpoint_.
Definition pipe_listener_new (app : Environment.environment) (endpoint_ : string) : pipe_listener :=
  PipeListener (listener_impl_new app (endpoint_name endpoint_)) None [] [] 0.

(** *** asio's [overlapped_ptr] *)

Definition overlapped_reset (pipe : nat) : M pipe_listener unit :=
  modify (λ w, PipeListener (impl_ w) (Some pipe) (connecting w) (posted w) (pipes w)).
Definition overlapped_release : M pipe_listener unit :=
  modify (λ w, PipeListener (impl_ w) None (connecting w ++ option_list (overlapped_ w)) (posted w) (pipes w)).
Definition overlapped_complete (ec : Z) : M pipe_listener unit :=
  modify (λ w, PipeListener (impl_ w) None (connecting w) (posted w ++ (pair ec <$> option_list (overlapped_ w))) (pipes w)).

Definition ERROR_CANCELLED : Z := 1223.
(** [bsys::system_error( ec )] *)
Definition system_error : exn := EStd "system_error".

Section Operations.
Context (slot : signal → option exn) (endpoint_ : string).

Definition start_accept (throw_if_fail : bool) (pipe_hdl : Z + connect_answer) : M pipe_listener unit :=
  let* w := get in
  if negb (working w) then ret tt
  else
    match pipe_hdl with
    | inr res =>
        let pipe := pipes w in
        modify (λ w, PipeListener (impl_ w) (overlapped_ w) (connecting w) (posted w) (S (pipes w))) ;;;
        overlapped_reset pipe ;;;
        match res with
        | io_pending => overlapped_release
        | pipe_connected => overlapped_complete 0
        | connect_failed last_error =>
            if throw_if_fail then raise system_error else overlapped_complete last_error
        end
    | inl last_error =>
        if throw_if_fail then raise system_error else overlapped_complete last_error
    end.

Definition start (pipe_hdl : Z + connect_answer) : M pipe_listener unit :=
  on_impl (modify (with_working true)) ;;;
  start_accept true pipe_hdl ;;;
  on_impl (on_base (call_on_start slot)).
Definition stop : M pipe_listener unit :=
  on_impl (modify (with_working false)) ;;;
  overlapped_complete ERROR_CANCELLED ;;;
  on_impl (on_base (call_on_stop slot)).
Definition is_active (w : pipe_listener) : bool := working w.
Definition destroy (w : pipe_listener) : pipe_listener :=
  PipeListener (with_alive false (impl_ w)) None (connecting w) (posted w) (pipes w).

(** [init] is dispatched to the service that runs the handler, that is, run. *)
Definition setup_connection (sock : socket) : M listener_impl unit :=
  let* new_conn := create_connection in
  update new_conn (with_name (endpoint_name endpoint_)) ;;;
  (let* w := get in assign_lowlevel_factory new_conn (lowlevel_protocol_factory (base w))) ;;;
  on_base (store_client new_conn) ;;;
  announce slot new_conn ;;;
  init new_conn sock.

(** The error code, [0] being none; the new connection; the answers for the next pipe. *)
Definition on_accept (error : Z) (sock : socket) (pipe_hdl : Z + connect_answer) : M pipe_listener unit :=
  let* w := get in
  if negb (alive (impl_ w)) then ret tt
  else if error =? 0 then
    on_impl (try_catch (setup_connection sock) (λ _, ret tt)) ;;;
    start_accept false pipe_hdl
  else if working w then
    stop ;;;
    on_impl (on_base (call_on_accept_failed slot error))
  else on_impl (on_base (call_on_stop slot)).

(** The system ends the [i]th operation it has; a posted handler runs. *)
Definition complete (i : nat) (error : Z) (sock : socket) (pipe_hdl : Z + connect_answer) : M pipe_listener unit :=
  modify (λ w, PipeListener (impl_ w) (overlapped_ w) (delete i (connecting w)) (posted w) (pipes w)) ;;;
  on_accept error sock pipe_hdl.
Definition run_posted (sock : socket) (pipe_hdl : Z + connect_answer) : M pipe_listener unit :=
  let* w := get in
  match posted w with
  | [] => ret tt
  | (ec, _) :: rest =>
      modify (λ w, PipeListener (impl_ w) (overlapped_ w) (connecting w) rest (pipes w)) ;;;
      on_accept ec sock pipe_hdl
  end.

(** What happens after a start, [made] being the answers the system may give. *)
Inductive run_step (made : Z + connect_answer → Prop) : pipe_listener → pipe_listener → Prop :=
  | pipe_stop w : run_step made w (stop w).2
  | pipe_destroy w : run_step made w (destroy w)
  | pipe_complete i p error sock hdl w :
      connecting w !! i = Some p → made hdl → socket_defined sock → run_step made w (complete i error sock hdl w).2
  | pipe_posted sock hdl w : made hdl → socket_defined sock → run_step made w (run_posted sock hdl w).2
  | pipe_close c w : run_step made w (on_impl (close slot c) w).2
  | pipe_read c error process w : run_step made w (on_impl (read_handler slot c error process) w).2.
End Operations.

(** ** Lemmas *)

(** The accepts under way. *)
Definition accepts (w : pipe_listener) : nat :=
  length (option_list (overlapped_ w)) + length (connecting w) + length (posted w).
Definition pipe_made (hdl : Z + connect_answer) : Prop := hdl = inr io_pending ∨ hdl = inr pipe_connected.

(** While the listener lives and works, exactly one accept is under way. *)
Definition loop_inv (w : pipe_listener) : Prop :=
  overlapped_ w = None ∧ (accepts w ≤ 1)%nat ∧ (alive (impl_ w) = true → working w = true → accepts w = 1%nat).

Definition run_view (i : listener_impl) : bool * bool := (alive i, working_ i).
Lemma same_run {A} (m : M listener_impl A) : same accept_view m → same run_view m.
Proof. intros H v i <-. specialize (H _ i eq_refl). unfold accept_view, run_view in *. by injection H as -> _ -> _ _ _. Qed.
Lemma same_run_base {A} (m : M listener A) : same run_view (on_base m).
Proof. intros v i <-. unfold on_base. by destruct (m (base i)). Qed.

Lemma on_impl_eq {A} (m : M listener_impl A) w :
  on_impl m w = ((m (impl_ w)).1, PipeListener (m (impl_ w)).2 (overlapped_ w) (connecting w) (posted w) (pipes w)).
Proof. unfold on_impl. by destruct (m (impl_ w)). Qed.
Lemma on_impl_inv {A} (m : M listener_impl A) w : same run_view m → loop_inv w → loop_inv (on_impl m w).2.
Proof.
  intros Hm. rewrite on_impl_eq. specialize (Hm _ (impl_ w) eq_refl). unfold run_view in Hm.
  injection Hm as Ha Hw. unfold loop_inv, accepts, working. cbn. by rewrite Ha, Hw.
Qed.

Section Loop.
Context (slot : signal → option exn) (endpoint_ : string).
Hypothesis (Hslot : ∀ x e, slot x = Some e → defined e).

Lemma same_run_setup sock : same run_view (setup_connection slot endpoint_ sock).
Proof.
  apply same_run. unfold setup_connection, create_connection, assign_lowlevel_factory, announce, init.
  pose proof (same_accept_update). pose proof same_accept_store. pose proof (same_accept_new slot). step_same.
Qed.
Lemma setup_throws sock i e :
  socket_defined sock → (setup_connection slot endpoint_ sock i).1 = Raise e → defined e.
Proof.
  intros (_ & _ & Hi). unfold setup_connection, create_connection, assign_lowlevel_factory, announce, new_connection,
    raise_signal, init, on_base, bind, modify. cbn.
  destruct (slot _) as [e1|] eqn:E1; cbn; [intros [= <-]; by eapply Hslot|].
  destruct (so_init sock) as [e2|] eqn:E2; cbn; [|done]. intros [= <-]. by eapply Hi.
Qed.
(** A handler goes on, whatever the setup of the connection throws. *)
Lemma setup_caught sock w :
  socket_defined sock →
  ∃ i, on_impl (try_catch (setup_connection slot endpoint_ sock) (λ _, ret tt)) w =
         (Ok tt, PipeListener i (overlapped_ w) (connecting w) (posted w) (pipes w)) ∧
       run_view i = run_view (impl_ w) ∧ i = (setup_connection slot endpoint_ sock (impl_ w)).2.
Proof.
  intros Hs. rewrite on_impl_eq. eexists; split_and!; [|exact (same_run_setup sock _ (impl_ w) eq_refl)|reflexivity].
  unfold try_catch. pose proof (setup_throws sock (impl_ w)) as Hd.
  destruct (setup_connection slot endpoint_ sock (impl_ w)) as [[[]|e] i]; [done|].
  specialize (Hd e Hs eq_refl). destruct e; try done. by destruct (Hd what).
Qed.

Lemma start_accept_inv b hdl w :
  overlapped_ w = None → accepts w = 0%nat → pipe_made hdl →
  (start_accept b hdl w).1 = Ok tt ∧ loop_inv (start_accept b hdl w).2 ∧ impl_ (start_accept b hdl w).2 = impl_ w.
Proof.
  unfold accepts. intros Ho Ha Hm. unfold start_accept. rewrite bind_get. destruct (working w) eqn:Hw; cbn [negb].
  - assert (H0 : connecting w = [] ∧ posted w = []) by (destruct (connecting w), (posted w); cbn in Ha; by try lia).
    destruct H0 as [Hc Hp].
    destruct Hm as [->| ->]; cbn; (split; [done|]); (split; [|done]); unfold loop_inv, accepts; cbn; by rewrite Hc, Hp.
  - split; [done|]. split; [|done]. split; [done|]. unfold accepts. cbn. split; [lia|]. by rewrite Hw.
Qed.

(** Stopping, when the system has the operation, leaves it there. *)
Lemma stop_inv w : overlapped_ w = None → (accepts w ≤ 1)%nat → loop_inv (stop slot w).2.
Proof.
  intros Ho Ha. unfold stop. unfold on_impl at 1. erewrite bind_ok by reflexivity.
  unfold overlapped_complete. rewrite bind_modify. apply on_impl_inv; [apply same_run_base|].
  unfold loop_inv, accepts, working in *. cbn. rewrite Ho in *. cbn in *. rewrite app_nil_r. by split_and!.
Qed.

Lemma pipe_on_accept_inv error sock hdl w :
  overlapped_ w = None → accepts w = 0%nat → socket_defined sock → pipe_made hdl →
  loop_inv (on_accept slot endpoint_ error sock hdl w).2.
Proof.
  intros Ho Ha Hs Hm. unfold on_accept. rewrite bind_get. destruct (alive (impl_ w)) eqn:Hl; cbn [negb].
  2: { unfold loop_inv. cbn. rewrite Ho, Ha, Hl. by split_and!; [|lia|]. }
  destruct (error =? 0).
  - destruct (setup_caught sock w Hs) as (i & Hi & _). rewrite (bind_ok _ _ _ _ _ Hi). by apply start_accept_inv.
  - destruct (working w) eqn:Hw.
    + pose proof (stop_inv w Ho ltac:(lia)) as Hstop. unfold bind. destruct (stop slot w) as [[[]|e] w1]; [|exact Hstop].
      by apply on_impl_inv; [apply same_run_base|].
    + apply on_impl_inv; [apply same_run_base|]. unfold loop_inv. rewrite Ho, Ha, Hw. by split_and!; [|lia|].
Qed.

Lemma run_step_inv w w' : run_step slot endpoint_ pipe_made w w' → loop_inv w → loop_inv w'.
Proof.
  intros Hst Hw. pose proof Hw as (Ho & Ha & _). destruct Hst as [w|w|i p error sock hdl w Hp Hm Hs|sock hdl w Hm Hs|c w|c error process w].
  - by apply stop_inv.
  - unfold loop_inv, accepts in *. cbn. rewrite Ho in Ha. cbn in *. by split_and!.
  - unfold complete. rewrite bind_modify. apply pipe_on_accept_inv; [done| |done|done].
    apply lookup_lt_Some in Hp as Hlt. unfold accepts in *. cbn. rewrite Ho in *. cbn in *. rewrite length_delete by (by eexists). lia.
  - unfold run_posted. rewrite bind_get. destruct (posted w) as [|[ec p] rest] eqn:Hp; [exact Hw|]. rewrite bind_modify.
    apply pipe_on_accept_inv; [done| |done|done]. unfold accepts in *. cbn. rewrite Ho, Hp in Ha. rewrite Ho. cbn in *. lia.
  - apply on_impl_inv; [|exact Hw]. apply same_run, same_accept_close.
  - apply on_impl_inv; [|exact Hw]. apply same_run, same_accept_read.
Qed.
End Loop.

(** ** Properties *)

(** As long as the system gives the pipes that it is asked for, a listener that was
    started has exactly one accept under way while it lives and works, whatever its
    connections, its slots and its clients do: no client is lost between two pipes and
    none is waited for twice. *)
Theorem pipe_accepts slot endpoint_ app hdl w :
  (∀ x e, slot x = Some e → defined e) → pipe_made hdl →
  rtc (run_step slot endpoint_ pipe_made) (start slot hdl (pipe_listener_new app endpoint_)).2 w →
  (accepts w ≤ 1)%nat ∧ (alive (impl_ w) = true → is_active w = true → accepts w = 1%nat).
Proof.
  intros Hslot Hm Hr. assert (H : loop_inv (start slot hdl (pipe_listener_new app endpoint_)).2).
  { unfold start. unfold on_impl at 1. erewrite bind_ok by reflexivity.
    set (w0 := PipeListener _ _ _ _ _). destruct (start_accept_inv true hdl w0) as (H1 & H2 & _); [done|done|done|].
    unfold bind. destruct (start_accept true hdl w0) as [[[]|e] w1]; [|done]. by apply on_impl_inv; [apply same_run_base|]. }
  clear Hm. induction Hr as [w|w w1 w' Hst _ IH]; [by destruct H as (_ & H1 & H2)|].
  apply IH. by eapply run_step_inv.
Qed.

(** A pipe that the system does not make after a client has come ends the loop
    unnoticed: no operation is left that could fail, so the listener stays active, with
    no accept under way and no signal. *)
Theorem lost_pipe slot endpoint_ sock last_error p w
    (r := complete slot endpoint_ 0 0 sock (inl last_error) w) :
  (∀ x e, slot x = Some e → defined e) → socket_defined sock →
  alive (impl_ w) = true → is_active w = true → connecting w = [p] → posted w = [] → overlapped_ w = None →
  r.1 = Ok tt ∧ is_active r.2 = true ∧ accepts r.2 = 0%nat ∧ ended (base (impl_ r.2)) = ended (base (impl_ w)).
Proof.
  intros Hslot Hs Ha Hw Hc Hp Ho. unfold r, complete. rewrite bind_modify, Hc. unfold on_accept. rewrite bind_get.
  cbn [impl_ working]. rewrite Ha. cbn [negb Z.eqb].
  set (w1 := PipeListener _ _ _ _ _). destruct (setup_caught slot endpoint_ Hslot sock w1 Hs) as (i & Hi & Hv & Hi').
  rewrite (bind_ok _ _ _ _ _ Hi). unfold run_view in Hv. injection Hv as Hva Hvw.
  unfold start_accept. rewrite bind_get. unfold is_active, working in *. cbn [impl_] in *. rewrite Hvw, Hw. cbn [negb].
  split; [done|]. split; [by cbn; rewrite Hvw|]. split; [by unfold accepts; cbn; rewrite Ho, Hp|].
  cbn. rewrite Hi'. cbn [w1 impl_]. assert (Hsame : same accept_view (setup_connection slot endpoint_ sock)).
  { unfold setup_connection, create_connection, assign_lowlevel_factory, announce, init.
    pose proof (same_accept_update). pose proof same_accept_store. pose proof (same_accept_new slot). step_same. }
  specialize (Hsame _ (impl_ w) eq_refl). unfold accept_view in Hsame. by injection Hsame.
Qed.

(** A connection that is set up is announced. *)
Lemma setup_announces slot endpoint_ sock i :
  slot (on_new_connection (length (conns i))) = None → so_init sock = None →
  ∃ i', setup_connection slot endpoint_ sock i = (Ok tt, i') ∧ run_view i' = run_view i ∧
    signals (base i') = signals (base i) ++ [on_new_connection (length (conns i))].
Proof.
  intros Hn Hi. eexists. split.
  - unfold setup_connection, create_connection, assign_lowlevel_factory, announce, new_connection, raise_signal, init,
      on_base, bind, modify, get. cbn. rewrite Hn, Hi. reflexivity.
  - by split.
Qed.
(** A stop that finds nothing to complete. *)
Lemma stop_silent_eq slot w :
  overlapped_ w = None → slot on_stop = None →
  stop slot w = (Ok tt, PipeListener (on_base (call_on_stop slot) (with_working false (impl_ w))).2 None (connecting w) (posted w) (pipes w)).
Proof.
  intros Ho Hs. unfold stop. erewrite bind_ok by reflexivity.
  unfold overlapped_complete. rewrite bind_modify. cbn [overlapped_]. rewrite Ho, on_impl_eq. cbn [option_list fmap list_fmap].
  rewrite app_nil_r. unfold on_base, call_on_stop, raise_signal, bind, modify. cbn. by rewrite Hs.
Qed.

(** A listener that is stopped while the system has its operation cannot take it back:
    the next client is accepted and announced after the listener said that it stopped. *)
Theorem stopped_accepts slot endpoint_ sock hdl p w
    (w1 := (stop slot w).2) (r := complete slot endpoint_ 0 0 sock hdl w1) :
  slot on_stop = None → (∀ c, slot (on_new_connection c) = None) → so_init sock = None →
  alive (impl_ w) = true → connecting w = [p] → overlapped_ w = None →
  is_active r.2 = false ∧ accepts r.2 = length (posted w) ∧
  signals (base (impl_ r.2)) = signals (base (impl_ w)) ++ [on_stop; on_new_connection (length (conns (impl_ w)))].
Proof.
  intros Hs Hn Hi Ha Hc Ho. unfold r, w1. rewrite stop_silent_eq by done. cbn [snd].
  set (i1 := (on_base _ _).2). assert (Hi1 : alive i1 = true ∧ working_ i1 = false ∧ conns i1 = conns (impl_ w) ∧
    signals (base i1) = signals (base (impl_ w)) ++ [on_stop]).
  { unfold i1, on_base, call_on_stop, raise_signal, bind, modify. cbn. by rewrite Hs. }
  clearbody i1. destruct Hi1 as (Ha1 & Hw1 & Hc1 & Hs1).
  unfold complete. rewrite bind_modify, Hc. unfold on_accept. rewrite bind_get. cbn [impl_ alive]. rewrite Ha1. cbn [negb Z.eqb].
  rewrite <-Hc1. change ([on_stop; on_new_connection (length (conns i1))]) with ([on_stop] ++ [on_new_connection (length (conns i1))]). rewrite app_assoc, <-Hs1.
  destruct (setup_announces slot endpoint_ sock i1 (Hn _) Hi) as (i2 & Hset & Hv & Hsig).
  erewrite bind_ok; [|rewrite on_impl_eq; unfold try_catch; cbn [impl_]; rewrite Hset; reflexivity].
  cbn [snd]. unfold run_view in Hv. injection Hv as _ Hw2. unfold start_accept. rewrite bind_get. unfold is_active, working.
  cbn [impl_]. rewrite Hw2, Hw1. cbn. rewrite Hw2. by split_and!.
Qed.

(** A start that fails leaves the listener active. *)
Theorem failed_start_active slot endpoint_ app last_error
    (r := start slot (inl last_error) (pipe_listener_new app endpoint_)) :
  r.1 = Raise system_error ∧ is_active r.2 = true ∧ accepts r.2 = 0%nat.
Proof. done. Qed.

Lemma lost_pipe_witness :
  let w := (start (λ _, None) (inr io_pending) (pipe_listener_new Environment.environment_new "demo")).2 in
  let r := complete (λ _, None) "demo" 0 0 (example_socket None) (inl 5) w in
  r.1 = Ok tt ∧ is_active r.2 = true ∧ accepts r.2 = 0%nat ∧ ended (base (impl_ r.2)) = ended (base (impl_ w)).
Proof.
  apply (lost_pipe (λ _, None) "demo" (example_socket None) 5 0); done.
Defined.
Lemma pipe_accepts_witness :
  let w0 := (start (λ _, None) (inr io_pending) (pipe_listener_new Environment.environment_new "demo")).2 in
  let w := (complete (λ _, None) "demo" 0 0 (example_socket None) (inr pipe_connected) w0).2 in
  (accepts w ≤ 1)%nat ∧ (alive (impl_ w) = true → is_active w = true → accepts w = 1%nat).
Proof.
  apply (pipe_accepts (λ _, None) "demo" Environment.environment_new (inr io_pending)); [done|by left|].
  apply rtc_once. eapply (pipe_complete _ _ _ 0 0); [done|by right|apply example_socket_defined].
Defined.
