(* ===== verification/ClientLayer.v ===== *)
(** * ClientLayer: the client side of the protocol

    [lib/vtrc/client/protocol-layer-c.cpp] ([protocol_layer_c::impl]) on top of
    [common::protocol_layer] and of [client::base], which finds the handlers of
    calls from the server and executes them.  [callbacks_] is the log of the
    signals, oldest first. *)

From S2P Require Import Prelude DataQueue Hash Transformer Messages LowLevel.
From S2P Require Import CondQueues CallContext ProtocolLayer Registry ServerLayer.

(** ** State *)

Inductive client_signal : Type :=
  | on_init_error (err : container) (message : string)
  | on_connect
  | on_disconnect
  | on_ready (value : bool).

(** [services] is what the wrappers' addresses stand for; [client_alive] says
    whether the client object still exists; [executing_] is what was handed to its
    executor. *)
Record protocol_layer_c : Type := Client {
  c_base : layer;
  c_ll_processor : default_protocol;
  client_ : ClientBase.base;
  client_alive : bool;
  callbacks_ : list client_signal;
  c_closed : bool;
  c_conn_closed : bool;
  c_executing : list nat
}.

Definition client_new (cl : ClientBase.base) : protocol_layer_c :=
  Client (layer_new true default_session_options) default_protocol_new cl true [] false false [].

Definition c_with_base (l : layer) (c : protocol_layer_c) : protocol_layer_c :=
  Client l (c_ll_processor c) (client_ c) (client_alive c) (callbacks_ c) (c_closed c)
    (c_conn_closed c) (c_executing c).
Definition c_with_ll (p : default_protocol) (c : protocol_layer_c) : protocol_layer_c :=
  Client (c_base c) p (client_ c) (client_alive c) (callbacks_ c) (c_closed c)
    (c_conn_closed c) (c_executing c).
Definition c_with_client (b : ClientBase.base) (c : protocol_layer_c) : protocol_layer_c :=
  Client (c_base c) (c_ll_processor c) b (client_alive c) (callbacks_ c) (c_closed c)
    (c_conn_closed c) (c_executing c).
Definition c_with_closed (closed conn : bool) (c : protocol_layer_c) : protocol_layer_c :=
  Client (c_base c) (c_ll_processor c) (client_ c) (client_alive c) (callbacks_ c) closed
    conn (c_executing c).
Definition c_with_executing (e : list nat) (c : protocol_layer_c) : protocol_layer_c :=
  Client (c_base c) (c_ll_processor c) (client_ c) (client_alive c) (callbacks_ c) (c_closed c)
    (c_conn_closed c) e.
Definition emit (s : client_signal) : M protocol_layer_c unit :=
  modify (λ c, Client (c_base c) (c_ll_processor c) (client_ c) (client_alive c)
    (callbacks_ c ++ [s]) (c_closed c) (c_conn_closed c) (c_executing c)).

#[export] Instance client_protocol : HasProtocol protocol_layer_c := {|
  protocol := c_ll_processor;
  set_protocol := c_with_ll
|}.

Definition c_on_base {A} (m : M layer A) : M protocol_layer_c A := λ c,
  let '(r, l) := m (c_base c) in (r, c_with_base l c).
Definition c_on_client {A} (m : M ClientBase.base A) : M protocol_layer_c A := λ c,
  let '(r, b) := m (client_ c) in (r, c_with_client b c).

Definition close_connection : M protocol_layer_c unit :=
  modify (λ c, c_with_closed (c_closed c) true c).

(** ** protocol_accessor *)

Definition error (err : container) (mes : string) : M protocol_layer_c unit := emit (on_init_error err mes).
Definition ready (value : bool) : M protocol_layer_c unit :=
  c_on_base (set_ready value) ;;;
  emit (on_ready value).
Definition accessor_close : M protocol_layer_c unit :=
  modify (λ c, c_with_closed true (c_conn_closed c) c) ;;;
  close_connection.
Definition accessor_configure_session (opts : session_options) : M protocol_layer_c unit :=
  modify (λ c, c_with_ll (configure opts (c_ll_processor c)) (c_with_base (with_session opts (c_base c)) c)).

(** [create_error( code, add )] *)
Definition create_error (code : Z) (add : string) : container :=
  Container (Some code) (Some CATEGORY_INTERNAL) None (Some add).

Definition client_id (c : protocol_layer_c) : string := ClientBase.get_session_id (client_ c).

(** ** Helpers of the file *)

Definition alone_callback (llu : lowlevel_unit) : bool :=
  negb (Z.land (u_message_flags llu) FLAG_CALLBACK_ALONE =? 0).
Definition fill_error (code : Z) (message : string) (fatal : bool) (llu : lowlevel_unit) : lowlevel_unit :=
  let e := u_error llu in
  set_error (Some (Container (Some code) (c_category e) (Some fatal) (Some message))) llu.

Section Client.
Context `{Codec lowlevel_unit}.
(** The methods of the service a wrapper holds. *)
Context (methods : nat → rpc_service_wrapper).

Definition get_service_by_name (name : string) : M protocol_layer_c (option rpc_service_wrapper) :=
  let* w := c_on_client (ClientBase.get_handler name) in
  ret (w ≫= λ w, Some (methods w)).

(** A task of the executor; the client may be gone when it runs. *)
Definition process_call_task (llu : nat) : M protocol_layer_c unit :=
  let* c := get in
  if client_alive c then
    let* svc := if asks_service (c_base c)
                then get_service_by_name (u_service_id (unit_at (c_base c) llu)) else ret None in
    c_on_base (make_local_call (λ _, svc) llu false)
  else ret tt.

(** A call without an id is the server telling every caller something. *)
Definition process_call (llu : nat) : M protocol_layer_c unit :=
  let* c := get in
  let u := unit_at (c_base c) llu in
  if negb (u_id u =? 0) then modify (λ c, c_with_executing (c_executing c ++ [llu]) c)
  else c_on_base (push_rpc_message_all u) ;;; ret tt.

Definition process_answer (llu : nat) : M protocol_layer_c unit :=
  let* c := get in
  let u := unit_at (c_base c) llu in
  c_on_base (push_rpc_message (u_id u) u) ;;; ret tt.

Definition process_insertion (llu : nat) : M protocol_layer_c unit :=
  let* c := get in
  let u := unit_at (c_base c) llu in
  let* pushed := c_on_base (push_rpc_message (u_target_id u) u) in
  if pushed then ret tt
  else if alone_callback u then process_call llu
  else if uo_wait' (u_opt u) then
    c_on_base (unit_modify llu (λ u,
      fill_error ERR_CONTEXT "Context was not found." false
        (set_opt None (set_call None (set_response None (set_request None u)))))) ;;;
    let* c := get in
    c_on_base (call_rpc_method (unit_at (c_base c) llu))
  else ret tt.

(** Services and internals are not implemented, other types are ignored. *)
Definition process_message (llu : nat) : M protocol_layer_c unit :=
  let* c := get in
  let t := u_message_type (unit_at (c_base c) llu) in
  if t =? MESSAGE_SERVER_CALL then process_call llu
  else if t =? MESSAGE_SERVER_CALLBACK then process_insertion llu
  else if (t =? MESSAGE_CLIENT_CALL) || (t =? MESSAGE_CLIENT_CALLBACK) then process_answer llu
  else ret tt.

Definition receive (u : lowlevel_unit) : M protocol_layer_c unit :=
  let* llu := c_on_base (unit_new u) in
  process_message llu.

(** What everybody who waits gets when a message is bad. *)
Definition bad_message : lowlevel_unit :=
  fill_error ERR_PROTOCOL "Bad message was received" true unit_empty.

Definition process_next : M protocol_layer_c bool :=
  let* m := on_protocol pop_proto_message in
  match m with
  | None =>
      c_on_base (push_rpc_message_all bad_message) ;;;
      close_connection ;;;
      ret false
  | Some u => receive u ;;; ret true
  end.

Fixpoint on_rpc_process_loop (fuel : nat) : M protocol_layer_c unit :=
  let* c := get in
  if protocol_queue_size (c_ll_processor c) =? 0 then ret tt
  else match fuel with
       | O => ret tt
       | S fuel =>
           let* go := process_next in
           if go then on_rpc_process_loop fuel else ret tt
       end.
Definition on_rpc_process : M protocol_layer_c unit := λ c,
  on_rpc_process_loop (length (packed_ (queue_ (c_ll_processor c)))) c.
Definition message_ready : M protocol_layer_c unit := on_rpc_process.

Definition drop_service (name : string) : M protocol_layer_c unit :=
  c_on_client (ClientBase.erase_rpc_handler name).
Definition drop_all_services : M protocol_layer_c unit :=
  c_on_client ClientBase.erase_all_rpc_handlers.

(** [protocol_layer_c::close( )]; [setup_close] is the low-level protocol's. *)
Definition close (setup_close : M protocol_layer_c unit) : M protocol_layer_c unit :=
  setup_close ;;;
  c_on_base cancel_all_slots ;;;
  emit on_disconnect.
End Client.

(** ** Lemmas *)

Lemma c_on_base_eq {A} (m : M layer A) c :
  c_on_base m c = ((m (c_base c)).1, c_with_base (m (c_base c)).2 c).
Proof. unfold c_on_base. by destruct (m (c_base c)). Qed.

Lemma c_receive_eq u c :
  receive u c = process_message (unit_fresh_ (c_base c)) (c_with_base (unit_new u (c_base c)).2 c).
Proof. unfold receive, bind at 1. by rewrite c_on_base_eq. Qed.

(** What a message leaves alone: the connection and the low-level protocol. *)
Definition c_apart (p : default_protocol) (b : bool) (c : protocol_layer_c) : Prop :=
  c_ll_processor c = p ∧ c_conn_closed c = b.

Lemma c_apart_on_base {A} p b (m : M layer A) : keeps (c_apart p b) (c_on_base m).
Proof. intros c Hc. by rewrite c_on_base_eq. Qed.

Lemma c_apart_receive p b u : keeps (c_apart p b) (receive u).
Proof.
  unfold receive, process_message, process_insertion, process_answer, process_call.
  repeat first [apply keeps_bind; [|intros ?]|apply keeps_if|apply c_apart_on_base
               |apply keeps_get|apply keeps_ret|by apply keeps_modify].
Qed.

Lemma c_process_next_eq `{Codec lowlevel_unit} c :
  process_next c =
    match pop_proto_message (c_ll_processor c) with
    | (Ok (Some u), p) => (receive u ;;; ret true) (c_with_ll p c)
    | (Ok None, p) =>
        (Ok false, c_with_closed (c_closed c) true
           (c_with_base (push_rpc_message_all bad_message (c_base c)).2 (c_with_ll p c)))
    | (Raise e, p) => (Raise e, c_with_ll p c)
    end.
Proof.
  unfold process_next, on_protocol, bind at 1. cbn [protocol client_protocol set_protocol].
  by destruct (pop_proto_message (c_ll_processor c)) as [[[u|]|e] p].
Qed.

Lemma c_loop_spec `{Codec lowlevel_unit} fuel c r c' :
  (length (packed_ (queue_ (c_ll_processor c))) ≤ fuel)%nat →
  on_rpc_process_loop fuel c = (r, c') →
  r = Ok tt → packed_ (queue_ (c_ll_processor c')) = [] ∨ c_conn_closed c' = true.
Proof.
  revert c r c'. induction fuel as [|fuel IH]; intros c r c' Hf Hr Hok; cbn [on_rpc_process_loop] in Hr;
    unfold bind at 1, get in Hr; unfold protocol_queue_size, blen in Hr;
    destruct (Z.of_nat (length (packed_ (queue_ (c_ll_processor c)))) =? 0) eqn:He.
  - unfold ret in Hr. simplify_eq. left. apply Z.eqb_eq in He. apply length_zero_iff_nil. lia.
  - apply Z.eqb_neq in He. lia.
  - unfold ret in Hr. simplify_eq. left. apply Z.eqb_eq in He. apply length_zero_iff_nil. lia.
  - unfold bind in Hr. rewrite c_process_next_eq in Hr.
    destruct (pop_proto_message (c_ll_processor c)) as [[[u|]|e] p] eqn:Hpop; [| |by simplify_eq].
    + unfold bind at 1 in Hr.
      pose proof (c_apart_receive p (c_conn_closed c) u (c_with_ll p c) (conj eq_refl eq_refl)) as Hap.
      destruct (receive u (c_with_ll p c)) as [[[]|e] c1]; [|by simplify_eq]. cbn in Hr.
      destruct Hap as [Hap _]. cbn in Hap. apply (IH c1 r c'); [|done|done].
      rewrite Hap. pose proof (pop_shrinks _ _ _ Hpop). lia.
    + cbn in Hr. unfold ret in Hr. simplify_eq. by right.
Qed.

(** ** Properties *)

(** A client that finds a bad message closes the connection and tells
    every caller that waits with an empty slot, with a fatal [ERR_PROTOCOL]; it
    looks at no later message. *)
Theorem client_bad_message `{Codec lowlevel_unit} c p id a mess :
  pop_proto_message (c_ll_processor c) = (Ok None, p) →
  cq_wf (rpc_queue_ (c_base c)) → store_ (rpc_queue_ (c_base c)) !! id = Some a →
  hdata_ (value_of (rpc_queue_ (c_base c)) a) = [] →
  let c' := (on_rpc_process c).2 in
  (on_rpc_process c).1 = Ok tt ∧ c_conn_closed c' = true ∧ c_ll_processor c' = p ∧
  (read_slot_for id mess (ret tt) (c_base c')).1 = Ok bad_message.
Proof.
  intros Hpop Hwf Ha Hd c'. pose proof (pop_shrinks _ _ _ Hpop) as Hlen.
  assert (Hrun : on_rpc_process c = (Ok tt, c_with_closed (c_closed c) true
    (c_with_base (push_rpc_message_all bad_message (c_base c)).2 (c_with_ll p c)))).
  { unfold on_rpc_process. rewrite Hlen. cbn [on_rpc_process_loop]. erewrite bind_ok by reflexivity.
    unfold protocol_queue_size, blen. rewrite Hlen.
    destruct (Z.of_nat (S (length (packed_ (queue_ p)))) =? 0) eqn:E; [apply Z.eqb_eq in E; lia|].
    unfold bind at 1. rewrite c_process_next_eq, Hpop. done. }
  unfold c'. rewrite Hrun. split_and!; [done..|]. cbn [snd c_base c_with_closed c_with_base].
  set (l' := (push_rpc_message_all bad_message (c_base c)).2).
  assert (Hq : rpc_queue_ l' = push_each (addresses (rpc_queue_ (c_base c))) bad_message
    (rpc_queue_ (c_base c))) by reflexivity.
  apply (read_slot_ready id mess _ l' a _ []); rewrite Hq.
  - by rewrite push_each_store.
  - by rewrite (write_all_value _ _ id a) by done; rewrite Hd.
Qed.

(** A client with one open slot and one broken message. *)
Definition example_client : protocol_layer_c :=
  c_with_ll (set_queue (Queue [] [[1]] 100) (set_hash_checker (Some hasher_crc32) default_protocol_new))
    (c_with_base (call_rpc_method_slot 103 unit_empty
       (with_ready true (layer_new true default_session_options))).2 (client_new ClientBase.base_new)).

#[local] Instance unit_codec : Codec lowlevel_unit := countable_codec.
Lemma client_bad_message_witness :
  (read_slot_for 103 unit_empty (ret tt) (c_base (on_rpc_process example_client).2)).1 = Ok bad_message.
Proof.
  destruct (client_bad_message example_client
    (set_queue (Queue [] [] 100) (set_hash_checker (Some hasher_crc32) default_protocol_new))
    103 0 unit_empty eq_refl) as (_ & _ & _ & H1);
    [apply (add_queue_wf 103 condition_queues_new), system_init_inv|reflexivity|reflexivity|exact H1].
Defined.

(**  What a client does with calls and answers: a call with an id
    is handed to the executor once, a call without one reaches every open slot,
    an answer reaches its slot and is dropped if there is none; nothing is sent
    back. *)
Theorem client_routing u c :
  let t := u_message_type u in
  let c' := (receive u c).2 in
  let q := rpc_queue_ (c_base c) in
  cq_wf q → t = MESSAGE_SERVER_CALL ∨ t = MESSAGE_CLIENT_CALL ∨ t = MESSAGE_CLIENT_CALLBACK →
  (receive u c).1 = Ok tt ∧ sent_ (c_base c') = sent_ (c_base c) ∧
  c_executing c' = c_executing c ++
    (if (t =? MESSAGE_SERVER_CALL) && negb (u_id u =? 0) then [unit_fresh_ (c_base c)] else []) ∧
  ∀ id a, store_ q !! id = Some a →
    hdata_ (value_of (rpc_queue_ (c_base c')) a) = hdata_ (value_of q a) ++
      (if t =? MESSAGE_SERVER_CALL then (if u_id u =? 0 then [u] else [])
       else if u_id u =? id then [u] else []).
Proof.
  intros t c' q Hwf Ht. unfold c'. rewrite c_receive_eq.
  set (l1 := (unit_new u (c_base c)).2). set (x := unit_fresh_ (c_base c)).
  assert (Hu : unit_at (c_base (c_with_base l1 c)) x = u) by apply received_unit.
  assert (Hq : rpc_queue_ l1 = q) by done.
  unfold process_message. erewrite bind_ok by reflexivity. rewrite Hu. fold t.
  destruct (t =? MESSAGE_SERVER_CALL) eqn:E1.
  - unfold process_call. erewrite bind_ok by reflexivity. rewrite Hu.
    destruct (u_id u =? 0) eqn:E0; cbn [negb andb].
    + unfold bind at 1. rewrite c_on_base_eq. unfold push_rpc_message_all, on_rpc_queue, write_all.
      cbn [c_base c_with_base fst snd]. rewrite Hq, app_nil_r. split_and!; [done..|].
      intros id a Ha. by apply (write_all_value u q id a).
    + split_and!; [done..|]. intros id a Ha. by rewrite app_nil_r.
  - assert (E2 : (t =? MESSAGE_SERVER_CALLBACK) = false).
    { destruct Ht as [->|[->| ->]]; done. }
    assert (E3 : (t =? MESSAGE_CLIENT_CALL) || (t =? MESSAGE_CLIENT_CALLBACK) = true).
    { destruct Ht as [->|[->| ->]]; done. }
    rewrite E2, E3. unfold process_answer. erewrite bind_ok by reflexivity. rewrite Hu.
    assert (Hm : (c_on_base (push_rpc_message (u_id u) u) ;;; ret tt) (c_with_base l1 c) =
      (Ok tt, c_with_base (with_rpc_queue (write_queue_if_exists (u_id u) u q).2 l1) c)).
    { unfold bind. rewrite c_on_base_eq. unfold push_rpc_message, on_rpc_queue.
      cbn [c_base c_with_base]. rewrite Hq. unfold write_queue_if_exists, value_by_key.
      by destruct (store_ q !! u_id u). }
    rewrite Hm. unfold write_queue_if_exists, value_by_key.
    destruct (store_ q !! u_id u) as [b|] eqn:Eb; cbn; rewrite app_nil_r; split_and!; try done;
      intros id a Ha.
    + rewrite hdata_push. destruct (u_id u =? id) eqn:Ei.
      * apply Z.eqb_eq in Ei. subst id. rewrite Ha in Eb. simplify_eq. by rewrite decide_True.
      * apply Z.eqb_neq in Ei. rewrite decide_False; [done|]. intros ->. by apply Ei, (wf_inj q Hwf _ _ b).
    + destruct (u_id u =? id) eqn:Ei; [|by rewrite app_nil_r].
      apply Z.eqb_eq in Ei. subst id. congruence.
Qed.

Lemma client_routing_witness :
  let u := set_id 103 (set_message_type MESSAGE_CLIENT_CALL unit_empty) in
  hdata_ (value_of (rpc_queue_ (c_base (receive u example_client).2)) 0) = [u].
Proof.
  intros u. destruct (client_routing u example_client) as (_ & _ & _ & H).
  - apply (add_queue_wf 103 condition_queues_new), system_init_inv.
  - right. left. reflexivity.
  - exact (H 103 0%nat eq_refl).
Defined.
