(* ===== verification/Handshake.v ===== *)
(** * Handshake: how two ends agree on a session

    [lib/vtrc/server/connection/default.cpp] and
    [lib/vtrc/client/connection-default.cpp]: the two [iface] structures that
    extend [lowlevel::default_protocol] with the exchange that selects the digest
    and the cipher, proves the session key and hands over the session's options.

    Each end is a machine whose input is the data of the messages it pops and
    whose output is the sequence of calls it makes on its [protocol_accessor].  A
    message handed to the accessor is packed by the strand of the transport before
    the next thing happens to the protocol, since every stage sends last; its
    closure runs after the packing or after the sending, as its flag says. *)

From S2P Require Import Prelude SizePack DataQueue Hash ChaCha Transformer Messages LowLevel.

#[local] Existing Instances varint_policy varint_policy_laws.

(** ** The accessor *)

Inductive accessor_event : Type :=
  | AWrite (packed : bytes)
  | AError (err : container) (message : string)
  | AClose
  | AConnClose
  | AReady (value : bool)
  | AConfigure (opts : session_options)
  | AClientId (id : bytes).

(** [create_error( code, add )] *)
Definition create_error (code : Z) (add : string) : container :=
  Container (Some code) (Some CATEGORY_INTERNAL) None (Some add).

Definition capsule_empty : init_capsule := InitCapsule None None None None.
Definition ic_ready' (c : init_capsule) : bool := default false (ic_ready c).
Definition ic_body' (c : init_capsule) : bytes := default [] (ic_body c).
Definition ic_error' (c : init_capsule) : container := default container_empty (ic_error c).
Definition ic_set_ready (b : bool) (c : init_capsule) : init_capsule :=
  InitCapsule (ic_text c) (Some b) (ic_error c) (ic_body c).
Definition ic_set_text (t : string) (c : init_capsule) : init_capsule :=
  InitCapsule (Some t) (ic_ready c) (ic_error c) (ic_body c).
Definition ic_set_error (e : container) (c : init_capsule) : init_capsule :=
  InitCapsule (ic_text c) (ic_ready c) (Some e) (ic_body c).
Definition ic_set_body (b : bytes) (c : init_capsule) : init_capsule :=
  InitCapsule (ic_text c) (ic_ready c) (ic_error c) (Some b).

(** [enum hash_variant] of vtrc-auth.proto is in [Hash]. *)
Definition default_hash_value : Z := HASH_CRC_32.

(** [ParseFromString] whose result is not looked at: bytes that do not parse leave the
    message with what the parser had read of them, which is protobuf's business. *)
Class PartialParse (A : Type) : Type := partial_of : bytes → A.
Definition parse_into {A} `{Codec A} `{PartialParse A} (b : bytes) : A :=
  default (partial_of b) (ParseFromString b).

(** The serialization of the five messages of the exchange, and what is read of four of
    them when they do not parse. *)
Class AuthCodec : Type := {
  ac_capsule :: Codec init_capsule;
  ac_protocol :: Codec init_protocol;
  ac_selection :: Codec client_selection;
  ac_transformer :: Codec transformer_setup;
  ac_session :: Codec session_setup;
  ac_protocol_partial :: PartialParse init_protocol;
  ac_selection_partial :: PartialParse client_selection;
  ac_transformer_partial :: PartialParse transformer_setup;
  ac_session_partial :: PartialParse session_setup
}.
Class AuthCodecLaws `{AuthCodec} : Prop := {
  al_capsule :: CodecLaws init_capsule;
  al_protocol :: CodecLaws init_protocol;
  al_selection :: CodecLaws client_selection;
  al_transformer :: CodecLaws transformer_setup;
  al_session :: CodecLaws session_setup
}.

(** ** The server's end *)

Module Server.

(** What [stage_function_] is bound to. *)
Inductive stage_function : Type := client_selection_stage | client_transformer_stage.

(** [keepalive_calls_] is armed until it fires or is cancelled. *)
Record iface : Type := Iface {
  protocol_ : default_protocol;
  stage_function_ : stage_function;
  client_id_ : bytes;
  session_opts_ : session_options;
  ready_ : bool;
  keepalive_calls_ : bool;
  events : list accessor_event
}.

Definition iface_new (opts : session_options) : iface :=
  Iface default_protocol_new client_selection_stage [] opts false false [].

#[global] Instance iface_protocol : HasProtocol iface := {|
  protocol := protocol_;
  set_protocol p i := Iface p (stage_function_ i) (client_id_ i) (session_opts_ i) (ready_ i)
    (keepalive_calls_ i) (events i)
|}.

Definition on_self (f : default_protocol → default_protocol) : M iface unit :=
  modify (λ i, set_protocol (f (protocol_ i)) i).
Definition emit (e : accessor_event) : M iface unit :=
  modify (λ i, Iface (protocol_ i) (stage_function_ i) (client_id_ i) (session_opts_ i) (ready_ i)
    (keepalive_calls_ i) (events i ++ [e])).
Definition set_stage_function (s : stage_function) : M iface unit :=
  modify (λ i, Iface (protocol_ i) s (client_id_ i) (session_opts_ i) (ready_ i)
    (keepalive_calls_ i) (events i)).
Definition set_client_id (id : bytes) : M iface unit :=
  modify (λ i, Iface (protocol_ i) (stage_function_ i) id (session_opts_ i) (ready_ i)
    (keepalive_calls_ i) (events i)).
Definition set_ready (b : bool) : M iface unit :=
  modify (λ i, Iface (protocol_ i) (stage_function_ i) (client_id_ i) (session_opts_ i) b
    (keepalive_calls_ i) (events i)).
Definition set_keepalive (b : bool) : M iface unit :=
  modify (λ i, Iface (protocol_ i) (stage_function_ i) (client_id_ i) (session_opts_ i) (ready_ i)
    b (events i)).

Section Server.
Context `{AuthCodec}.
(** The application: the key of a client, whether it needs one, its options; and
    the values of the random device. *)
Context (get_session_key : bytes → bytes) (session_key_required : bytes → bool)
  (configure_session : session_options → session_options) (rd : nat → Z).

Definition first_message : bytes :=
  SerializeAsString
    (ic_set_body (SerializeAsString
        (InitProtocol [HASH_NONE; HASH_CRC_32; HASH_SHA2_256] [TRANSFORM_NONE; TRANSFORM_ERSEEFOR]))
      (ic_set_ready true (ic_set_text "Tervetuloa!" capsule_empty))).

(** [accessor( )->write( data, .. )] with a closure that does nothing. *)
Definition write (data : bytes) : M iface unit :=
  let* w := on_protocol (pack_message data) in
  emit (AWrite w).
Definition send_proto_message (mess : init_capsule) : M iface unit :=
  write (SerializeAsString mess).

(** The closure of [send_and_close] runs when the message is on its way. *)
Definition close_client : M iface unit :=
  set_ready false ;;;
  emit AConnClose.
Definition send_and_close (mess : init_capsule) : M iface unit :=
  send_proto_message mess ;;;
  close_client.

Definition on_init_timeout (error : bool) : M iface unit :=
  let* i := get in
  if negb error && negb (ready_ i) then
    send_and_close
      (ic_set_ready false
         (ic_set_error (Container (Some ERR_TIMEOUT) None None None) capsule_empty))
  else ret tt.

Definition set_client_ready (capsule : init_capsule) : M iface unit :=
  set_keepalive false ;;;
  let capsule := ic_set_text "Kiva nahda sinut!" (ic_set_ready true capsule) in
  let* i := get in
  let opts := configure_session (session_opts_ i) in
  on_self (configure opts) ;;;
  let capsule := ic_set_body (SerializeAsString (SessionSetup (Some opts))) capsule in
  set_ready true ;;;
  send_proto_message capsule.

Definition on_client_transformer (data : bytes) : M iface unit :=
  match ParseFromString data with
  | None => emit AClose
  | Some capsule =>
      if negb (ic_ready' capsule) then emit AConnClose
      else
        let tsetup := parse_into (A := transformer_setup) (ic_body' capsule) in
        let* i := get in
        let key := create_key (get_session_key (client_id_ i))
                     (default [] (ts_salt1 tsetup)) (default [] (ts_salt2 tsetup)) in
        let* t := deref (chacha_create key) in
        on_self (set_transformer t) ;;;
        set_client_ready capsule_empty
  end.

Definition refuse (code : Z) (add : string) : M iface unit :=
  send_and_close
    (ic_set_error (Container (Some code) (Some CATEGORY_INTERNAL) None (Some add))
       (ic_set_ready false capsule_empty)).

Definition setup_transformer (id : Z) : M iface unit :=
  let* i := get in
  if id =? TRANSFORM_NONE then
    if negb (session_key_required (client_id_ i)) then set_client_ready capsule_empty
    else refuse ERR_ACCESS "Session key required"
  else if id =? TRANSFORM_ERSEEFOR then
    let '(s1, s2, key) := generate_key_infos rd (get_session_key (client_id_ i)) in
    let* t := deref (chacha_create key) in
    on_self (set_revertor t) ;;;
    set_stage_function client_transformer_stage ;;;
    send_proto_message
      (ic_set_body (SerializeAsString (TransformerSetup (Some s1) (Some s2)))
         (ic_set_ready true capsule_empty))
  else refuse ERR_INVALID_VALUE "Invalid transformer".

Definition on_client_selection (data : bytes) : M iface unit :=
  match ParseFromString data with
  | None => emit AClose
  | Some capsule =>
      if negb (ic_ready' capsule) then ret tt
      else
        let cs := parse_into (A := client_selection) (ic_body' capsule) in
        match Hash.create_by_index (default 0 (cs_hash cs)) with
        | None => emit AClose
        | Some h =>
            let id := default [] (cs_id cs) in
            set_client_id id ;;;
            emit (AClientId id) ;;;
            on_self (set_hash_checker (Some h)) ;;;
            on_self (set_hash_maker (Some h)) ;;;
            setup_transformer (default 0 (cs_transform cs))
        end
  end.

Definition stage_function_call (data : bytes) : M iface unit :=
  let* i := get in
  match stage_function_ i with
  | client_selection_stage => on_client_selection data
  | client_transformer_stage => on_client_transformer data
  end.

(** The closure [cb] given to [init] is the caller's. *)
Definition init (cb : M iface unit) : M iface unit :=
  on_self switch_to_handshake ;;;
  write first_message ;;;
  cb ;;;
  set_keepalive true.

Definition do_handshake : M iface unit :=
  let* data := on_protocol pop_raw_message in
  match data with
  | None =>
      emit (AError (create_error ERR_INTERNAL "") "Bad hash.") ;;;
      emit AClose
  | Some data =>
      stage_function_call data ;;;
      let* i := get in
      if ready_ i then
        on_self switch_to_ready ;;;
        emit (AReady true)
      else ret tt
  end.
End Server.

End Server.

(** ** The client's end *)

Module Client.

Inductive protocol_stage : Type := STAGE_HELLO | STAGE_SETUP | STAGE_ERROR | STAGE_READY.

(** [stage_call_] is bound by [change_stage] to the function of a stage. *)
Record iface : Type := Iface {
  protocol_ : default_protocol;
  stage_call_ : option protocol_stage;
  stage_ : protocol_stage;
  ready_ : bool;
  events : list accessor_event
}.

Definition iface_new : iface := Iface default_protocol_new None STAGE_HELLO false [].

#[global] Instance iface_protocol : HasProtocol iface := {|
  protocol := protocol_;
  set_protocol p i := Iface p (stage_call_ i) (stage_ i) (ready_ i) (events i)
|}.

Definition on_self (f : default_protocol → default_protocol) : M iface unit :=
  modify (λ i, set_protocol (f (protocol_ i)) i).
Definition emit (e : accessor_event) : M iface unit :=
  modify (λ i, Iface (protocol_ i) (stage_call_ i) (stage_ i) (ready_ i) (events i ++ [e])).
Definition set_ready (b : bool) : M iface unit :=
  modify (λ i, Iface (protocol_ i) (stage_call_ i) (stage_ i) b (events i)).

Definition change_stage (stage : protocol_stage) : M iface unit :=
  modify (λ i, Iface (protocol_ i) (Some stage) stage (ready_ i) (events i)).

(** [accessor( )->error( .. )] followed by [accessor( )->close( )] *)
Definition fail (err : container) (message : string) : M iface unit :=
  emit (AError err message) ;;;
  emit AClose.

Section Client.
Context `{AuthCodec}.
(** The client's environment and session, and its random device. *)
Context (session_key : option bytes) (session_id : bytes) (rd : nat → Z).

(** [client_->env( ).get( "session_key" )] *)
Definition env_session_key : bytes := default [] session_key.

Definition write (data : bytes) : M iface unit :=
  let* w := on_protocol (pack_message data) in
  emit (AWrite w).

(** The closure of the first message runs when it is packed. *)
Definition set_options : M iface unit :=
  on_self (set_hash_maker (Hash.create_by_index default_hash_value)).

Definition server_has_transformer (cap : init_capsule) (transformer_type : Z) : bool :=
  let init := parse_into (A := init_protocol) (ic_body' cap) in
  bool_decide (transformer_type ∈ ip_transform_supported init).

Definition check_disconnect_stage : M iface unit :=
  let* i := get in
  match stage_ i with
  | STAGE_HELLO => emit (AError (create_error ERR_BUSY "") "Server in not ready")
  | STAGE_SETUP => emit (AError (create_error ERR_INVALID_VALUE "") "Bad setup info.")
  | STAGE_READY => emit (AError (create_error ERR_INTERNAL "") "Bad session key.")
  | STAGE_ERROR => ret tt
  end.

Definition close : M iface unit :=
  let* i := get in
  if negb (ready_ i) then check_disconnect_stage else ret tt.

Definition on_trans_error (_ : bytes) : M iface unit := ret tt.

Definition on_trans_setup (data : bytes) : M iface unit :=
  match ParseFromString data with
  | None =>
      fail (create_error ERR_INTERNAL "") "Server's 'Ready' has bad hash. Bad session key."
  | Some capsule =>
      if negb (ic_ready' capsule) then
        fail (ic_error' capsule) "Server is not ready; stage: 'Setup'"
      else
        let tsetup := parse_into (A := transformer_setup) (ic_body' capsule) in
        let s1 := default [] (ts_salt1 tsetup) in
        let s2 := default [] (ts_salt2 tsetup) in
        let key := create_key env_session_key s1 s2 in
        let* t := deref (chacha_create key) in
        on_self (set_transformer t) ;;;
        let '(s1, s2, key) := generate_key_infos rd env_session_key in
        let* t := deref (chacha_create key) in
        on_self (set_revertor t) ;;;
        change_stage STAGE_READY ;;;
        write (SerializeAsString
          (ic_set_body (SerializeAsString (TransformerSetup (Some s1) (Some s2)))
             (ic_set_ready true capsule)))
  end.

(** The capsule is the server's, its own fields overwritten. *)
Definition on_hello_call (data : bytes) : M iface unit :=
  match ParseFromString data with
  | None => fail (create_error ERR_INTERNAL "") "Server's 'Hello' has bad hash."
  | Some capsule =>
      if negb (ic_ready' capsule) then
        fail (ic_error' capsule) "Server is not ready; stage: 'Hello'"
      else
        let key_set := bool_decide (is_Some session_key) in
        let init :=
          if key_set && server_has_transformer capsule TRANSFORM_ERSEEFOR
          then ClientSelection (Some default_hash_value) (Some TRANSFORM_ERSEEFOR) (Some session_id)
          else ClientSelection (Some default_hash_value) (Some TRANSFORM_NONE) None in
        on_self (set_hash_checker (Hash.create_by_index default_hash_value)) ;;;
        change_stage (if key_set then STAGE_SETUP else STAGE_READY) ;;;
        write (SerializeAsString
          (ic_set_body (SerializeAsString init)
             (ic_set_text "Miten menee?" (ic_set_ready true capsule)))) ;;;
        set_options
  end.

Definition on_server_ready (data : bytes) : M iface unit :=
  match ParseFromString data with
  | None =>
      fail (create_error ERR_INTERNAL "") "Server's 'Ready' has bad hash. Bad session key."
  | Some capsule =>
      if negb (ic_ready' capsule) then
        let add := default ""%string (c_additional (ic_error' capsule)) in
        emit (AError (ic_error' capsule)
          (if bool_decide (add = ""%string) then "Server is not ready; stage: 'Ready'" else add)) ;;;
        change_stage STAGE_ERROR ;;;
        emit AClose
      else
        let opts := default (SessionOptions None None None None None)
                      (ss_options (parse_into (A := session_setup) (ic_body' capsule))) in
        emit (AConfigure opts) ;;;
        on_self (configure opts) ;;;
        set_ready true
  end.

(** An empty function throws. *)
Definition stage_call (data : bytes) : M iface unit :=
  let* i := get in
  match stage_call_ i with
  | Some STAGE_HELLO => on_hello_call data
  | Some STAGE_SETUP => on_trans_setup data
  | Some STAGE_ERROR => on_trans_error data
  | Some STAGE_READY => on_server_ready data
  | None => raise (EStd "bad_function_call")
  end.

Definition init (cb : M iface unit) : M iface unit :=
  on_self switch_to_handshake ;;;
  cb ;;;
  let* i := get in
  change_stage (stage_ i).

Definition do_handshake : M iface unit :=
  let* data := on_protocol pop_raw_message in
  match data with
  | None =>
      change_stage STAGE_ERROR ;;;
      fail (create_error ERR_INTERNAL "") "Bad hash."
  | Some data =>
      stage_call data ;;;
      let* i := get in
      if ready_ i then
        on_self switch_to_ready ;;;
        emit (AReady true)
      else ret tt
  end.
End Client.

End Client.

(** ** Two ends and the wires between them

    What an end writes is delivered to the other in order; the stage that is
    bound to the protocol runs as the low-level protocol says.  The RPC stage is
    not part of the handshake: [rpc] is what it does. *)

Record link : Type := Link { srv : Server.iface; cli : Client.iface; to_client : nat; to_server : nat }.

Fixpoint written (es : list accessor_event) : list bytes :=
  match es with
  | [] => []
  | AWrite w :: es => w :: written es
  | _ :: es => written es
  end.

Section Link.
Context `{AuthCodec}.
Context (get_session_key : bytes → bytes) (session_key_required : bytes → bool)
  (configure_session : session_options → session_options) (srd crd : nat → Z)
  (session_key : option bytes) (session_id : bytes).

Definition server_stage (s : stage) : M Server.iface unit :=
  match s with
  | stage_do_handshake =>
      Server.do_handshake get_session_key session_key_required configure_session srd
  | stage_ready_call => ret tt
  | stage_none => raise (EStd "bad_function_call")
  end.
Definition client_stage_with (rpc : M Client.iface unit) (s : stage) : M Client.iface unit :=
  match s with
  | stage_do_handshake => Client.do_handshake session_key session_id crd
  | stage_ready_call => rpc
  | stage_none => raise (EStd "bad_function_call")
  end.
Definition client_stage : stage → M Client.iface unit := client_stage_with (ret tt).

(** Everything one end has written since the last time reaches the other. *)
Definition deliver_to_client (l : link) : link :=
  let ws := written (Server.events (srv l)) in
  Link (srv l) (process_data client_stage (concat (drop (to_client l) ws)) (cli l)).2
    (length ws) (to_server l).
Definition deliver_to_server (l : link) : link :=
  let ws := written (Client.events (cli l)) in
  Link (process_data server_stage (concat (drop (to_server l) ws)) (srv l)).2 (cli l)
    (to_client l) (length ws).
Definition exchange (l : link) : link := deliver_to_server (deliver_to_client l).

(** The connection is open and both ends are initialized; the server's first
    message is written. *)
Definition link_init (opts : session_options) : link :=
  Link (Server.init (ret tt) (Server.iface_new opts)).2
    (Client.init (ret tt) Client.iface_new).2 0 0.
End Link.

(** ** Lemmas *)

(** A protocol between two messages, and one with a message to pop. *)
Definition proto (hm hc : Hash.iface) (t r : transformer) (max : Z) (st : stage) : default_protocol :=
  Protocol (Some hm) (Some hc) t r (Queue [] [] max) st.
Definition proto_with (ws : list bytes) (hm hc : Hash.iface) (t r : transformer) (max : Z) (st : stage) :
    default_protocol :=
  Protocol (Some hm) (Some hc) t r (Queue [] ws max) st.

(** Small enough for the limit before the session is configured, digest included. *)
Definition first_limit : Z := 65536.
Definition sized (m : bytes) : Prop := blen m + 32 ≤ first_limit.

Class ProtocolOwner (S : Type) `{HasProtocol S} : Prop := {
  owner_get p (s : S) : protocol (set_protocol p s) = p;
  owner_set p q (s : S) : set_protocol p (set_protocol q s) = set_protocol p s
}.
#[export] Instance server_owner : ProtocolOwner Server.iface.
Proof. done. Qed.
#[export] Instance client_owner : ProtocolOwner Client.iface.
Proof. done. Qed.

Lemma encoded_none h m :
  HashLaws h → encoded1 h transformer_none m (get_data_hash h m ++ m) transformer_none.
Proof.
  intros Hh. split_and!; [done|done| |done]. rewrite blen_app, hl_get_length. lia.
Qed.

Lemma crc_small : Hash.size hasher_crc32 ≤ 32. Proof. done. Qed.
Lemma first_limit_word : 0 ≤ first_limit < 2 ^ 63. Proof. done. Qed.

Lemma pack_proto hm hc t r max st m w t' :
  HashLaws hm → encoded1 hm t m w t' → Hash.size hm ≤ 32 → sized m →
  pack_message m (proto hm hc t r max st) = (Ok (frame w), proto hm hc t' r max st).
Proof.
  intros Hh He Hs Hm. unfold sized, first_limit in Hm.
  by rewrite (pack_message_ok hm m w t') by (done || lia || apply hl_size).
Qed.

Lemma pop_proto w ws hm hc t r r' max st m :
  HashLaws hc → encoded1 hc r m w r' →
  pop_raw_message (proto_with (w :: ws) hm hc t r max st) =
    (Ok (Some m), proto_with ws hm hc t r' max st).
Proof.
  intros Hh (_ & Hd & _).
  rewrite (pop_raw_message_ok hc w ws (get_data_hash hc m ++ m) r'
    (proto_with (w :: ws) hm hc t r max st) Hh eq_refl eq_refl Hd).
  by rewrite pop_result_good.
Qed.

(** The parser cuts exactly the frames off. *)
Lemma parse_frames ws max :
  0 ≤ max < 2 ^ 63 → Forall (λ w, blen w ≤ max) ws →
  parser_process (Queue (concat (frame <$> ws)) [] max) = (Ok tt, Queue [] ws max).
Proof.
  intros Hmax Hw. pose proof sp_max_length_word as Hs.
  destruct (parser_process_spec (Queue (concat (frame <$> ws)) [] max)) as (ms & d & o & Hp & ->).
  { unfold limit_ok. cbn [max_valid_length_]. lia. }
  assert (Hnil : parse_front max [] (Ok None)).
  { constructor. pose proof (sp_size_length_bound []). unfold blen in *. simpl in *. lia. }
  pose proof (parsed_frames max ws [] Hw ltac:(lia) Hnil) as Hf.
  rewrite app_nil_r in Hf. cbn [data_ packed_ max_valid_length_] in Hp.
  by destruct (parsed_fun _ _ _ _ _ _ _ _ Hp Hf) as (-> & -> & ->).
Qed.

(** Frames arrive: the stage runs once with all of their messages in the queue. *)
Lemma data_frames {S} `{ProtocolOwner S} call_stage w ws (s : S) hm hc t r max st :
  protocol s = proto hm hc t r max st → 0 ≤ max < 2 ^ 63 → Forall (λ w, blen w ≤ max) (w :: ws) →
  process_data call_stage (concat (frame <$> w :: ws)) s =
    call_stage st (set_protocol (proto_with (w :: ws) hm hc t r max st) s).
Proof.
  intros Hp Hmax Hw. unfold process_data.
  assert (Hf : (0 <? blen (concat (frame <$> w :: ws))) = true).
  { apply Z.ltb_lt. cbn [fmap list_fmap concat]. unfold frame at 1. rewrite !blen_app.
    pose proof (blen_nonneg w). pose proof (blen_nonneg (concat (frame <$> ws))).
    apply Forall_cons in Hw as [Hw _].
    pose proof (sp_pack_length (blen w)) as Hl. unfold in_word in Hl.
    specialize (Hl ltac:(lia)). lia. }
  rewrite Hf. unfold bind at 1, get at 1. rewrite Hp.
  unfold bind at 1, on_protocol at 1, on_queue at 1, append, modify. rewrite Hp.
  cbn [proto queue_ set_queue].
  unfold bind at 1, on_protocol at 1, on_queue at 1. rewrite owner_get. cbn [queue_ set_queue].
  unfold with_data. cbn [data_ packed_ max_valid_length_ app]. rewrite parse_frames by done.
  rewrite owner_set. unfold bind, get. rewrite owner_get. done.
Qed.

Lemma data_proto {S} `{ProtocolOwner S} call_stage w (s : S) hm hc t r max st :
  protocol s = proto hm hc t r max st → 0 ≤ max < 2 ^ 63 → blen w ≤ max →
  process_data call_stage (frame w) s = call_stage st (set_protocol (proto_with [w] hm hc t r max st) s).
Proof.
  intros Hp Hmax Hw. rewrite <-(data_frames call_stage w [] s hm hc t r max st Hp Hmax).
  - cbn [fmap list_fmap concat]. by rewrite app_nil_r.
  - by repeat constructor.
Qed.

Lemma bind_same {S A B} (m m' : M S A) (k : A → M S B) s : m s = m' s → bind m k s = bind m' k s.
Proof. intros H. unfold bind. by rewrite H. Qed.

Lemma data_nil {S} `{HasProtocol S} call_stage (s : S) : process_data call_stage [] s = (Ok tt, s).
Proof. done. Qed.

(** *** The messages of the exchange *)

Section Messages.
Context `{AuthCodec}.

Definition hello_capsule : init_capsule :=
  ic_set_body (SerializeAsString
      (InitProtocol [HASH_NONE; HASH_CRC_32; HASH_SHA2_256] [TRANSFORM_NONE; TRANSFORM_ERSEEFOR]))
    (ic_set_ready true (ic_set_text "Tervetuloa!" capsule_empty)).
Definition selection (session_key : option bytes) (session_id : bytes) : client_selection :=
  if bool_decide (is_Some session_key)
  then ClientSelection (Some HASH_CRC_32) (Some TRANSFORM_ERSEEFOR) (Some session_id)
  else ClientSelection (Some HASH_CRC_32) (Some TRANSFORM_NONE) None.
Definition selection_capsule (cs : client_selection) : init_capsule :=
  ic_set_body (SerializeAsString cs) (ic_set_text "Miten menee?" (ic_set_ready true hello_capsule)).
Definition ready_capsule (opts : session_options) : init_capsule :=
  ic_set_body (SerializeAsString (SessionSetup (Some opts)))
    (ic_set_text "Kiva nahda sinut!" (ic_set_ready true capsule_empty)).
Definition salts_capsule (s1 s2 : bytes) (c : init_capsule) : init_capsule :=
  ic_set_body (SerializeAsString (TransformerSetup (Some s1) (Some s2))) (ic_set_ready true c).
Definition refusal_capsule (code : Z) (add : string) : init_capsule :=
  ic_set_error (Container (Some code) (Some CATEGORY_INTERNAL) None (Some add))
    (ic_set_ready false capsule_empty).
End Messages.

#[local] Opaque pack_message pop_raw_message process_data chacha_create create_key frame.

Section Phases.
Context `{AuthCodecLaws}.
Context (get_session_key : bytes → bytes) (session_key_required : bytes → bool)
  (configure_session : session_options → session_options) (srd crd : nat → Z)
  (session_key : option bytes) (session_id : bytes) (opts : session_options).

#[local] Abbreviation N := transformer_none.
#[local] Abbreviation none := hasher_none.
#[local] Abbreviation crc := hasher_crc32.
#[local] Abbreviation hs := stage_do_handshake.
#[local] Abbreviation server_stage :=
  (server_stage get_session_key session_key_required configure_session srd).
#[local] Abbreviation client_stage := (client_stage crd session_key session_id).

Lemma parse_capsule (c : init_capsule) : ParseFromString (SerializeAsString c) = Some c.
Proof. apply parse_serialize. Qed.

Lemma client_write m i hm hc t r max st w t' :
  Client.protocol_ i = proto hm hc t r max st → HashLaws hm → encoded1 hm t m w t' →
  Hash.size hm ≤ 32 → sized m →
  Client.write m i = (Ok tt, Client.Iface (proto hm hc t' r max st) (Client.stage_call_ i)
    (Client.stage_ i) (Client.ready_ i) (Client.events i ++ [AWrite (frame w)])).
Proof.
  intros Hp Hh He Hs Hm. unfold Client.write, bind at 1, on_protocol. cbn [protocol Client.iface_protocol].
  by rewrite Hp, (pack_proto hm hc t r max st m w t').
Qed.

Lemma server_write m i hm hc t r max st w t' :
  Server.protocol_ i = proto hm hc t r max st → HashLaws hm → encoded1 hm t m w t' →
  Hash.size hm ≤ 32 → sized m →
  Server.write m i = (Ok tt, Server.Iface (proto hm hc t' r max st) (Server.stage_function_ i)
    (Server.client_id_ i) (Server.session_opts_ i) (Server.ready_ i) (Server.keepalive_calls_ i)
    (Server.events i ++ [AWrite (frame w)])).
Proof.
  intros Hp Hh He Hs Hm. unfold Server.write, bind at 1, on_protocol. cbn [protocol Server.iface_protocol].
  by rewrite Hp, (pack_proto hm hc t r max st m w t').
Qed.

(** Messages arrive during the handshake: the first is taken. *)
Lemma client_takes rpc m i hm hc t r max w ws r' :
  Client.protocol_ i = proto hm hc t r max hs → HashLaws hc → encoded1 hc r m w r' →
  0 ≤ max < 2 ^ 63 → Forall (λ w, blen w ≤ max) (w :: ws) →
  process_data (client_stage_with crd session_key session_id rpc) (concat (frame <$> w :: ws)) i =
    (Client.stage_call session_key session_id crd m ;;;
     let* i := get in
     if Client.ready_ i then Client.on_self switch_to_ready ;;; Client.emit (AReady true) else ret tt)
    (Client.Iface (proto_with ws hm hc t r' max hs) (Client.stage_call_ i) (Client.stage_ i)
       (Client.ready_ i) (Client.events i)).
Proof.
  intros Hp Hh He Hmax Hw. rewrite (data_frames _ w ws i hm hc t r max hs) by done.
  unfold client_stage_with, Client.do_handshake, bind at 1, on_protocol.
  cbn [protocol Client.iface_protocol set_protocol Client.protocol_].
  by rewrite (pop_proto w ws hm hc t r r' max hs m).
Qed.

Lemma client_receives m i hm hc t r max w r' :
  Client.protocol_ i = proto hm hc t r max hs → HashLaws hc → encoded1 hc r m w r' →
  0 ≤ max < 2 ^ 63 → blen w ≤ max →
  process_data client_stage (frame w) i =
    (Client.stage_call session_key session_id crd m ;;;
     let* i := get in
     if Client.ready_ i then Client.on_self switch_to_ready ;;; Client.emit (AReady true) else ret tt)
    (Client.Iface (proto hm hc t r' max hs) (Client.stage_call_ i) (Client.stage_ i)
       (Client.ready_ i) (Client.events i)).
Proof.
  intros Hp Hh He Hmax Hw.
  transitivity (process_data client_stage (concat (frame <$> [w])) i).
  { cbn [fmap list_fmap concat]. by rewrite app_nil_r. }
  apply (client_takes (ret tt) m i hm hc t r max w [] r'); [done..|]. by repeat constructor.
Qed.

Lemma server_receives m i hm hc t r max w r' :
  Server.protocol_ i = proto hm hc t r max hs → HashLaws hc → encoded1 hc r m w r' →
  0 ≤ max < 2 ^ 63 → blen w ≤ max →
  process_data server_stage (frame w) i =
    (Server.stage_function_call get_session_key session_key_required configure_session srd m ;;;
     let* i := get in
     if Server.ready_ i then Server.on_self switch_to_ready ;;; Server.emit (AReady true) else ret tt)
    (Server.Iface (proto hm hc t r' max hs) (Server.stage_function_ i) (Server.client_id_ i)
       (Server.session_opts_ i) (Server.ready_ i) (Server.keepalive_calls_ i) (Server.events i)).
Proof.
  intros Hp Hh He Hmax Hw. rewrite (data_proto server_stage w i hm hc t r max hs) by done.
  unfold Handshake.server_stage, Server.do_handshake, bind at 1, on_protocol.
  cbn [protocol Server.iface_protocol set_protocol Server.protocol_].
  by rewrite (pop_proto w [] hm hc t r r' max hs m).
Qed.

Lemma server_has_hello : Client.server_has_transformer hello_capsule TRANSFORM_ERSEEFOR = true.
Proof.
  unfold Client.server_has_transformer, parse_into, hello_capsule. cbn [ic_set_body ic_body' ic_body default].
  unfold id. rewrite parse_serialize. cbn. apply bool_decide_eq_true. set_solver.
Qed.

(** The client answers the hello. *)
Lemma client_hello w :
  let st := if bool_decide (is_Some session_key) then Client.STAGE_SETUP else Client.STAGE_READY in
  let m := SerializeAsString (selection_capsule (selection session_key session_id)) in
  encoded1 none N Server.first_message w N → blen w ≤ first_limit → sized m →
  process_data client_stage (frame w) (Client.init (ret tt) Client.iface_new).2 =
    (Ok tt, Client.Iface (proto crc crc N N first_limit hs) (Some st) st false
       [AWrite (frame (get_data_hash none m ++ m))]).
Proof.
  intros st m He Hw Hm.
  erewrite (client_receives Server.first_message _ none none N N first_limit w N);
    [|reflexivity|apply _|done..].
  set (i0 := Client.Iface _ _ _ _ _).
  change i0 with (Client.Iface (proto none none N N first_limit hs) (Some Client.STAGE_HELLO)
    Client.STAGE_HELLO false []). clear i0.
  erewrite bind_ok.
  2: { unfold Client.stage_call. erewrite bind_ok by reflexivity. cbn [Client.stage_call_].
    unfold Client.on_hello_call. change Server.first_message with (SerializeAsString hello_capsule).
    rewrite parse_capsule. change (ic_ready' _) with true. cbn [negb].
    match goal with |- context [SerializeAsString (ic_set_body (SerializeAsString ?x) _)] =>
      replace x with (selection session_key session_id) end.
    2: { unfold selection. rewrite server_has_hello, andb_true_r. done. }
    fold st. erewrite bind_ok by reflexivity. erewrite bind_ok by reflexivity.
    erewrite bind_ok by (apply (client_write m _ none crc N N first_limit hs
      (get_data_hash none m ++ m) N); [reflexivity|apply _|apply encoded_none, _|done|done]).
    reflexivity. }
  done.
Qed.

(** The options the session ends up with. *)
Definition session : session_options := configure_session opts.
Definition session_limit : Z := default 0 (so_max_message_length session).
Definition id_of_client : bytes := default [] (cs_id (selection session_key session_id)).
Definition hello_sent : list accessor_event :=
  [AWrite (frame (get_data_hash none Server.first_message ++ Server.first_message))].

(** What a server has made of the selection before it looks at the cipher. *)
Lemma server_selects m w :
  m = SerializeAsString (selection_capsule (selection session_key session_id)) →
  encoded1 none N m w N → blen w ≤ first_limit →
  process_data server_stage (frame w) (Server.Iface (proto none none N N first_limit hs)
      Server.client_selection_stage [] opts false true hello_sent) =
    (Server.setup_transformer get_session_key session_key_required configure_session srd
       (if bool_decide (is_Some session_key) then TRANSFORM_ERSEEFOR else TRANSFORM_NONE) ;;;
     let* i := get in
     if Server.ready_ i then Server.on_self switch_to_ready ;;; Server.emit (AReady true) else ret tt)
    (Server.Iface (proto crc crc N N first_limit hs) Server.client_selection_stage id_of_client opts
       false true (hello_sent ++ [AClientId id_of_client])).
Proof.
  intros Hm He Hw.
  erewrite (server_receives m _ none none N N first_limit w N); [|reflexivity|apply _|done..].
  cbn [Server.stage_function_ Server.client_id_ Server.session_opts_ Server.ready_
    Server.keepalive_calls_ Server.events].
  unfold bind at 1. unfold bind at 2.
  assert (Hs : Server.stage_function_call get_session_key session_key_required configure_session srd m
      (Server.Iface (proto none none N N first_limit hs) Server.client_selection_stage [] opts false
         true hello_sent) =
    Server.setup_transformer get_session_key session_key_required configure_session srd
      (if bool_decide (is_Some session_key) then TRANSFORM_ERSEEFOR else TRANSFORM_NONE)
      (Server.Iface (proto crc crc N N first_limit hs) Server.client_selection_stage id_of_client opts
         false true (hello_sent ++ [AClientId id_of_client]))).
  { unfold Server.stage_function_call. erewrite bind_ok by reflexivity. cbn [Server.stage_function_].
    unfold Server.on_client_selection. rewrite Hm, parse_capsule.
    change (ic_ready' _) with true. cbn [negb]. unfold parse_into. change (ic_body' (selection_capsule _))
      with (SerializeAsString (selection session_key session_id)).
    rewrite parse_serialize. cbn [default].
    assert (Hh : create_by_index (default 0 (cs_hash (selection session_key session_id))) = Some crc).
    { unfold selection. by destruct (bool_decide (is_Some session_key)). }
    unfold from_option, id. unfold default, from_option, id in Hh. rewrite Hh.
    erewrite bind_ok by reflexivity. erewrite bind_ok by reflexivity.
    erewrite bind_ok by reflexivity. erewrite bind_ok by reflexivity.
    unfold selection, id_of_client, selection. by destruct (bool_decide (is_Some session_key)). }
  by rewrite Hs.
Qed.

(** The server is ready: its options go to the client. *)
Lemma server_ready m hc t r max fn id ka es w t' :
  m = SerializeAsString (ready_capsule session) → encoded1 crc t m w t' → sized m →
  (Server.set_client_ready configure_session capsule_empty ;;;
   let* i := get in
   if Server.ready_ i then Server.on_self switch_to_ready ;;; Server.emit (AReady true) else ret tt)
    (Server.Iface (proto crc hc t r max hs) fn id opts false ka es) =
  (Ok tt, Server.Iface (proto crc hc t' r session_limit stage_ready_call) fn id opts true false
            (es ++ [AWrite (frame w); AReady true])).
Proof.
  intros Hm He Hs. erewrite bind_ok.
  2: { unfold Server.set_client_ready. erewrite bind_ok by reflexivity. erewrite bind_ok by reflexivity.
    erewrite bind_ok by reflexivity. erewrite bind_ok by reflexivity.
    unfold Server.send_proto_message. rewrite <-Hm || fold session.
    match goal with |- context [Server.write (SerializeAsString ?c)] =>
      change (SerializeAsString c) with (SerializeAsString (ready_capsule session)) end.
    rewrite <-Hm.
    apply (server_write m _ crc hc t r session_limit hs w t'); [reflexivity|apply _|done|done|done]. }
  erewrite bind_ok by reflexivity. cbn [Server.ready_]. erewrite bind_ok by reflexivity.
  unfold Server.emit, modify. cbn. by rewrite <-app_assoc.
Qed.

(** The client takes the options; what came with them waits. *)
Lemma client_takes_ready rpc m hm t r w ws r' sc es :
  m = SerializeAsString (ready_capsule session) → encoded1 crc r m w r' →
  Forall (λ w, blen w ≤ first_limit) (w :: ws) →
  process_data (client_stage_with crd session_key session_id rpc) (concat (frame <$> w :: ws))
    (Client.Iface (proto hm crc t r first_limit hs) (Some Client.STAGE_READY) sc false es) =
  (Ok tt, Client.Iface (proto_with ws hm crc t r' session_limit stage_ready_call)
            (Some Client.STAGE_READY) sc true (es ++ [AConfigure session; AReady true])).
Proof.
  intros Hm He Hw.
  erewrite (client_takes rpc m _ hm crc t r first_limit w ws r');
    [|reflexivity|apply _|exact He|exact first_limit_word|exact Hw].
  cbn [Client.stage_call_ Client.stage_ Client.ready_ Client.events].
  erewrite bind_ok.
  2: { unfold Client.stage_call. erewrite bind_ok by reflexivity. cbn [Client.stage_call_].
    unfold Client.on_server_ready. rewrite Hm, parse_capsule.
    change (ic_ready' _) with true. cbn [negb]. unfold parse_into.
    change (ic_body' (ready_capsule session)) with (SerializeAsString (SessionSetup (Some session))).
    rewrite parse_serialize. cbn [default from_option id ss_options].
    erewrite bind_ok by reflexivity. erewrite bind_ok by reflexivity. reflexivity. }
  erewrite bind_ok by reflexivity. cbn [Client.ready_]. erewrite bind_ok by reflexivity.
  unfold Client.emit, modify. cbn. by rewrite <-app_assoc.
Qed.

Lemma client_ready m hm t r w r' sc es :
  m = SerializeAsString (ready_capsule session) → encoded1 crc r m w r' → blen w ≤ first_limit →
  process_data client_stage (frame w)
    (Client.Iface (proto hm crc t r first_limit hs) (Some Client.STAGE_READY) sc false es) =
  (Ok tt, Client.Iface (proto hm crc t r' session_limit stage_ready_call) (Some Client.STAGE_READY)
            sc true (es ++ [AConfigure session; AReady true])).
Proof.
  intros Hm He Hw.
  transitivity (process_data client_stage (concat (frame <$> [w]))
    (Client.Iface (proto hm crc t r first_limit hs) (Some Client.STAGE_READY) sc false es)).
  { cbn [fmap list_fmap concat]. by rewrite app_nil_r. }
  apply (client_takes_ready (ret tt) m hm t r w [] r' sc es Hm He). by repeat constructor.
Qed.

(** The cipher of a key that was exchanged. *)
Lemma cipher_exists k s1 s2 : ∃ t, chacha_create (create_key k s1 s2) = Some t ∧ transformer_ok t.
Proof. apply chacha_create_ok. unfold blen. by rewrite create_key_length. Qed.

Lemma server_setup id es s1 s2 t m :
  generate_key_infos srd (get_session_key id) = (s1, s2, create_key (get_session_key id) s1 s2) →
  chacha_create (create_key (get_session_key id) s1 s2) = Some t →
  m = SerializeAsString (salts_capsule s1 s2 capsule_empty) → sized m →
  (Server.setup_transformer get_session_key session_key_required configure_session srd TRANSFORM_ERSEEFOR ;;;
   let* i := get in
   if Server.ready_ i then Server.on_self switch_to_ready ;;; Server.emit (AReady true) else ret tt)
    (Server.Iface (proto crc crc N N first_limit hs) Server.client_selection_stage id opts false true es) =
  (Ok tt, Server.Iface (proto crc crc N t first_limit hs) Server.client_transformer_stage id opts false
            true (es ++ [AWrite (frame (get_data_hash crc m ++ m))])).
Proof.
  intros Hg Ht Hm Hs. erewrite bind_ok.
  2: { unfold Server.setup_transformer. erewrite bind_ok by reflexivity.
    change (TRANSFORM_ERSEEFOR =? TRANSFORM_NONE) with false.
    change (TRANSFORM_ERSEEFOR =? TRANSFORM_ERSEEFOR) with true. cbn [Server.client_id_]. rewrite Hg, Ht.
    erewrite bind_ok by reflexivity. erewrite bind_ok by reflexivity. erewrite bind_ok by reflexivity.
    unfold Server.send_proto_message.
    change (ic_set_body _ _) with (salts_capsule s1 s2 capsule_empty). rewrite <-Hm.
    apply (server_write m _ crc crc N t first_limit hs (get_data_hash crc m ++ m) N);
      [reflexivity|apply _|apply encoded_none, _|exact crc_small|exact Hs]. }
  erewrite bind_ok by reflexivity. reflexivity.
Qed.

Lemma client_setup k s1 s2 s1' s2' t1 t2 m1 m2 w1 w2 t1' es :
  Client.env_session_key session_key = k →
  generate_key_infos crd k = (s1', s2', create_key k s1' s2') →
  chacha_create (create_key k s1 s2) = Some t1 → chacha_create (create_key k s1' s2') = Some t2 →
  m1 = SerializeAsString (salts_capsule s1 s2 capsule_empty) →
  m2 = SerializeAsString (salts_capsule s1' s2' (salts_capsule s1 s2 capsule_empty)) →
  encoded1 crc N m1 w1 N → blen w1 ≤ first_limit → encoded1 crc t1 m2 w2 t1' → sized m2 →
  process_data client_stage (frame w1)
    (Client.Iface (proto crc crc N N first_limit hs) (Some Client.STAGE_SETUP) Client.STAGE_SETUP false es) =
  (Ok tt, Client.Iface (proto crc crc t1' t2 first_limit hs) (Some Client.STAGE_READY)
            Client.STAGE_READY false (es ++ [AWrite (frame w2)])).
Proof.
  intros Hk Hg Ht1 Ht2 Hm1 Hm2 He1 Hw1 He2 Hs.
  erewrite (client_receives m1 _ crc crc N N first_limit w1 N); 
    [|reflexivity|apply _|exact He1|exact first_limit_word|exact Hw1].
  cbn [Client.stage_call_ Client.stage_ Client.ready_ Client.events].
  erewrite bind_ok.
  2: { unfold Client.stage_call. erewrite bind_ok by reflexivity. cbn [Client.stage_call_].
    unfold Client.on_trans_setup. rewrite Hm1, parse_capsule.
    change (ic_ready' _) with true. cbn [negb]. unfold parse_into.
    change (ic_body' (salts_capsule s1 s2 capsule_empty))
      with (SerializeAsString (TransformerSetup (Some s1) (Some s2))).
    rewrite parse_serialize. cbn [default from_option id ts_salt1 ts_salt2]. rewrite Hk, Ht1.
    erewrite bind_ok by reflexivity. erewrite bind_ok by reflexivity. rewrite Hg, Ht2.
    erewrite bind_ok by reflexivity. erewrite bind_ok by reflexivity. erewrite bind_ok by reflexivity.
    change (ic_set_body _ _) with (salts_capsule s1' s2' (salts_capsule s1 s2 capsule_empty)).
    rewrite <-Hm2.
    apply (client_write m2 _ crc crc t1 t2 first_limit hs w2 t1'); 
      [reflexivity|apply _|exact He2|exact crc_small|exact Hs]. }
  erewrite bind_ok by reflexivity. reflexivity.
Qed.

Lemma server_transformer id ka es s1 s2 c t1 t1' t2 t2' m w mr wr :
  m = SerializeAsString (salts_capsule s1 s2 c) → mr = SerializeAsString (ready_capsule session) →
  chacha_create (create_key (get_session_key id) s1 s2) = Some t2 →
  encoded1 crc t1 m w t1' → blen w ≤ first_limit → encoded1 crc t2 mr wr t2' → sized mr →
  process_data server_stage (frame w)
    (Server.Iface (proto crc crc N t1 first_limit hs) Server.client_transformer_stage id opts false ka es) =
  (Ok tt, Server.Iface (proto crc crc t2' t1' session_limit stage_ready_call)
            Server.client_transformer_stage id opts true false (es ++ [AWrite (frame wr); AReady true])).
Proof.
  intros Hm Hmr Ht He1 Hw1 He2 Hs.
  erewrite (server_receives m _ crc crc N t1 first_limit w t1');
    [|reflexivity|apply _|exact He1|exact first_limit_word|exact Hw1].
  cbn [Server.stage_function_ Server.client_id_ Server.session_opts_ Server.ready_
    Server.keepalive_calls_ Server.events].
  rewrite <-(server_ready mr crc t2 t1' first_limit Server.client_transformer_stage id ka es wr t2'
    Hmr He2 Hs).
  unfold bind at 1. unfold bind at 2.
  match goal with |- context [Server.stage_function_call ?a ?b ?c ?d ?e ?i] =>
    assert (Hcall : Server.stage_function_call a b c d e i =
      Server.set_client_ready configure_session capsule_empty
        (Server.Iface (proto crc crc t2 t1' first_limit hs) Server.client_transformer_stage id opts
           false ka es)) end.
  { unfold Server.stage_function_call. erewrite bind_ok by reflexivity. cbn [Server.stage_function_].
    unfold Server.on_client_transformer. rewrite Hm, parse_capsule.
    change (ic_ready' _) with true. cbn [negb]. unfold parse_into.
    change (ic_body' (salts_capsule s1 s2 c)) with (SerializeAsString (TransformerSetup (Some s1) (Some s2))).
    rewrite parse_serialize. cbn [default from_option Datatypes.id ts_salt1 ts_salt2].
    erewrite bind_ok by reflexivity. cbn [Server.client_id_]. rewrite Ht.
    erewrite bind_ok by reflexivity. erewrite bind_ok by reflexivity. reflexivity. }
  rewrite Hcall. reflexivity.
Qed.

(** The server after [init]. *)
Lemma server_init :
  sized Server.first_message →
  (Server.init (ret tt) (Server.iface_new opts)).2 =
    Server.Iface (proto none none N N first_limit hs) Server.client_selection_stage [] opts false true
      hello_sent.
Proof.
  intros Hs. unfold Server.init. erewrite bind_ok by reflexivity.
  erewrite bind_ok; [|apply (server_write Server.first_message _ none none N N first_limit hs
    (get_data_hash none Server.first_message ++ Server.first_message) N);
    [reflexivity|apply _|apply encoded_none, _|done|exact Hs]].
  reflexivity.
Qed.

(** The application would not have the client without a key. *)
Lemma server_refuses code add id ka es fn m :
  m = SerializeAsString (refusal_capsule code add) → sized m →
  (Server.refuse code add ;;;
   let* i := get in
   if Server.ready_ i then Server.on_self switch_to_ready ;;; Server.emit (AReady true) else ret tt)
    (Server.Iface (proto crc crc N N first_limit hs) fn id opts false ka es) =
  (Ok tt, Server.Iface (proto crc crc N N first_limit hs) fn id opts false ka
            (es ++ [AWrite (frame (get_data_hash crc m ++ m)); AConnClose])).
Proof.
  intros Hm Hs. erewrite bind_ok.
  2: { unfold Server.refuse, Server.send_and_close.
    erewrite bind_ok; [|unfold Server.send_proto_message; 
      match goal with |- context [Server.write (SerializeAsString ?c)] =>
        change (SerializeAsString c) with (SerializeAsString (refusal_capsule code add)) end;
      rewrite <-Hm;
      apply (server_write m _ crc crc N N first_limit hs (get_data_hash crc m ++ m) N);
      [reflexivity|apply _|apply encoded_none, _|exact crc_small|exact Hs]].
    reflexivity. }
  erewrite bind_ok by reflexivity. cbn. by rewrite <-app_assoc.
Qed.

Lemma client_refused code add m hm t w sc es :
  m = SerializeAsString (refusal_capsule code add) → add ≠ ""%string →
  encoded1 crc N m w N → blen w ≤ first_limit →
  process_data client_stage (frame w)
    (Client.Iface (proto hm crc t N first_limit hs) (Some Client.STAGE_READY) sc false es) =
  (Ok tt, Client.Iface (proto hm crc t N first_limit hs) (Some Client.STAGE_ERROR) Client.STAGE_ERROR
     false (es ++ [AError (Container (Some code) (Some CATEGORY_INTERNAL) None (Some add)) add; AClose])).
Proof.
  intros Hm Hadd He Hw.
  erewrite (client_receives m _ hm crc t N first_limit w N);
    [|reflexivity|apply _|exact He|exact first_limit_word|exact Hw].
  cbn [Client.stage_call_ Client.stage_ Client.ready_ Client.events].
  erewrite bind_ok.
  2: { unfold Client.stage_call. erewrite bind_ok by reflexivity. cbn [Client.stage_call_].
    unfold Client.on_server_ready. rewrite Hm, parse_capsule.
    change (ic_ready' _) with false. cbn [negb]. cbv zeta.
    change (default ""%string (c_additional (ic_error' (refusal_capsule code add)))) with add.
    rewrite bool_decide_false by exact Hadd.
    erewrite bind_ok by reflexivity. erewrite bind_ok by reflexivity. reflexivity. }
  erewrite bind_ok by reflexivity. cbn. by rewrite <-app_assoc.
Qed.

(** *** One round of the wires *)

Lemma exchange_round S C a b wc ws C' S' :
  concat (drop a (written (Server.events S))) = wc → process_data client_stage wc C = (Ok tt, C') →
  concat (drop b (written (Client.events C'))) = ws → process_data server_stage ws S = (Ok tt, S') →
  exchange get_session_key session_key_required configure_session srd crd session_key session_id
    (Link S C a b) = Link S' C' (length (written (Server.events S))) (length (written (Client.events C'))).
Proof.
  intros H1 H2 H3 H4. unfold exchange, deliver_to_server, deliver_to_client. cbn [srv cli to_client to_server].
  rewrite H1, H2. cbn [snd cli srv to_client to_server]. by rewrite H3, H4.
Qed.

Lemma frame_size (h : Hash.iface) m :
  HashLaws h → Hash.size h ≤ 32 → sized m → blen (get_data_hash h m ++ m) ≤ first_limit.
Proof. intros Hh Hs Hm. rewrite blen_app, hl_get_length. unfold sized in Hm. lia. Qed.
Lemma encoded_size h t m w t' :
  encoded1 h t m w t' → Hash.size h ≤ 32 → sized m → blen w ≤ first_limit.
Proof. intros (_ & _ & Hl & _) Hs Hm. unfold sized in Hm. lia. Qed.

(** The first round, up to what the server makes of the selection. *)
Lemma first_round S' :
  let m1 := SerializeAsString (selection_capsule (selection session_key session_id)) in
  let st := if bool_decide (is_Some session_key) then Client.STAGE_SETUP else Client.STAGE_READY in
  let w1 := get_data_hash none m1 ++ m1 in
  sized Server.first_message → sized m1 →
  (Server.setup_transformer get_session_key session_key_required configure_session srd
     (if bool_decide (is_Some session_key) then TRANSFORM_ERSEEFOR else TRANSFORM_NONE) ;;;
   let* i := get in
   if Server.ready_ i then Server.on_self switch_to_ready ;;; Server.emit (AReady true) else ret tt)
  (Server.Iface (proto crc crc N N first_limit hs) Server.client_selection_stage id_of_client opts
     false true (hello_sent ++ [AClientId id_of_client])) = (Ok tt, S') →
  exchange get_session_key session_key_required configure_session srd crd session_key session_id
    (link_init opts) =
  Link S' (Client.Iface (proto crc crc N N first_limit hs) (Some st) st false [AWrite (frame w1)]) 1 1.
Proof.
  intros m1 st w1 Hz0 Hz1 HS. unfold link_init. rewrite server_init by exact Hz0.
  assert (He0 : encoded1 none N Server.first_message
    (get_data_hash none Server.first_message ++ Server.first_message) N) by apply encoded_none, _.
  assert (He1 : encoded1 none N m1 w1 N) by apply encoded_none, _.
  rewrite (exchange_round _ _ 0 0
    (frame (get_data_hash none Server.first_message ++ Server.first_message)) (frame w1)
    (Client.Iface (proto crc crc N N first_limit hs) (Some st) st false [AWrite (frame w1)]) S').
  - reflexivity.
  - apply app_nil_r.
  - apply client_hello; [exact He0|apply frame_size; [apply _|done|exact Hz0]|exact Hz1].
  - apply app_nil_r.
  - rewrite (server_selects m1 w1 eq_refl He1); [exact HS|apply frame_size; [apply _|done|exact Hz1]].
Qed.

(** A round in which nobody has written anything. *)
Lemma idle_round S C :
  let a := length (written (Server.events S)) in
  let b := length (written (Client.events C)) in
  exchange get_session_key session_key_required configure_session srd crd session_key session_id
    (Link S C a b) = Link S C a b.
Proof.
  intros a b. apply (exchange_round S C a b [] [] C S); [|apply data_nil| |apply data_nil];
    unfold a, b; by rewrite drop_all.
Qed.

(** What the application and the client must agree on. *)
Definition key_agreed : Prop :=
  match session_key with
  | None => session_key_required id_of_client = false
  | Some k => get_session_key id_of_client = k
  end.

Definition salts (rd : nat → Z) (key : bytes) : bytes * bytes :=
  let '(s1, s2, _) := generate_key_infos rd key in (s1, s2).
Lemma generate_salts rd key :
  let '(s1, s2) := salts rd key in generate_key_infos rd key = (s1, s2, create_key key s1 s2).
Proof. unfold salts, generate_key_infos. reflexivity. Qed.

(** The messages of the exchange, for their sizes. *)
Definition exchange_messages : list bytes :=
  let setup := let '(s1, s2) := salts srd (default [] session_key) in
               salts_capsule s1 s2 capsule_empty in
  let reply := let '(s1, s2) := salts crd (default [] session_key) in salts_capsule s1 s2 setup in
  [Server.first_message; SerializeAsString (selection_capsule (selection session_key session_id));
   SerializeAsString (ready_capsule session)] ++
  (if bool_decide (is_Some session_key) then [SerializeAsString setup; SerializeAsString reply] else []).

(** Both ends are ready for calls, with the same options and ciphers in step. *)
Record established (l : link) : Prop := {
  es_server : Server.ready_ (srv l) = true ∧ process_stage_ (Server.protocol_ (srv l)) = stage_ready_call;
  es_client : Client.ready_ (cli l) = true ∧ process_stage_ (Client.protocol_ (cli l)) = stage_ready_call;
  es_id : Server.client_id_ (srv l) = id_of_client;
  es_up : in_sync crc (Client.protocol_ (cli l)) (Server.protocol_ (srv l));
  es_down : in_sync crc (Server.protocol_ (srv l)) (Client.protocol_ (cli l));
  es_options : AConfigure session ∈ Client.events (cli l);
  es_quiet : quiet (queue_ (Server.protocol_ (srv l))) ∧ quiet (queue_ (Client.protocol_ (cli l)));
  es_signals : AReady true ∈ Server.events (srv l) ∧ AReady true ∈ Client.events (cli l)
}.

Lemma established_intro ts rs t r fn id ka ses sc st' ces a b :
  0 ≤ session_limit < 2 ^ 63 → ts = r → t = rs → transformer_ok ts → transformer_ok rs →
  id = id_of_client → AConfigure session ∈ ces → AReady true ∈ ses → AReady true ∈ ces →
  established (Link
    (Server.Iface (proto crc crc ts rs session_limit stage_ready_call) fn id opts true ka ses)
    (Client.Iface (proto crc crc t r session_limit stage_ready_call) st' sc true ces) a b).
Proof.
  intros Hl -> -> Ht Hr -> H1 H2 H3. pose proof sp_max_length_word as Hs.
  assert (Hlim : limit_ok (Queue [] [] session_limit)).
  { unfold limit_ok. cbn [max_valid_length_]. lia. }
  split; cbn [srv cli Server.ready_ Client.ready_ Server.protocol_ Client.protocol_ Server.client_id_
    Server.events Client.events proto process_stage_ queue_]; try done.
  - split; cbn; (apply _ || done || exact Hlim).
  - split; cbn; (apply _ || done || exact Hlim).
Qed.

Lemma handshake_none :
  session_key = None → key_agreed → 0 ≤ session_limit < 2 ^ 63 → Forall sized exchange_messages →
  established (Nat.iter 3 (exchange get_session_key session_key_required configure_session srd crd
    session_key session_id) (link_init opts)).
Proof.
  intros Hk Hag Hlim Hsz. unfold key_agreed in Hag. rewrite Hk in Hag.
  unfold exchange_messages in Hsz. apply Forall_app in Hsz as [Hsz _].
  rewrite !Forall_cons in Hsz. destruct Hsz as (Hz0 & Hz1 & Hz2 & _).
  set (m2 := SerializeAsString (ready_capsule session)) in *.
  assert (He2 : encoded1 crc N m2 (get_data_hash crc m2 ++ m2) N) by apply encoded_none, _.
  set (w2 := get_data_hash crc m2 ++ m2) in *.
  assert (Hb : bool_decide (is_Some session_key) = false).
  { apply bool_decide_eq_false. rewrite Hk. by intros [? ?]. }
  set (S1 := Server.Iface (proto crc crc N N first_limit hs) Server.client_selection_stage id_of_client
    opts false true (hello_sent ++ [AClientId id_of_client])).
  assert (Hst : Server.setup_transformer get_session_key session_key_required configure_session srd
    TRANSFORM_NONE S1 = Server.set_client_ready configure_session capsule_empty S1).
  { unfold Server.setup_transformer. erewrite bind_ok by reflexivity.
    change (TRANSFORM_NONE =? TRANSFORM_NONE) with true. cbn [S1 Server.client_id_]. by rewrite Hag. }
  pose proof (server_ready m2 crc N N first_limit Server.client_selection_stage id_of_client true
    (hello_sent ++ [AClientId id_of_client]) w2 N eq_refl He2 Hz2) as Hready. fold S1 in Hready.
  rewrite <-(bind_same _ _ _ _ Hst) in Hready.
  rewrite !Nat.iter_succ. cbn [Nat.iter nat_rect].
  erewrite (first_round _ Hz0 Hz1) by (rewrite Hb; exact Hready). rewrite Hb.
  erewrite (exchange_round _ _ 1 1 (frame w2) []); [|apply app_nil_r|
    apply (client_ready m2 crc N N w2 N _ _ eq_refl He2); apply frame_size; [apply _|done|exact Hz2]
    |reflexivity|apply data_nil].
  rewrite (idle_round _ _). clear -Hlim.
  apply established_intro; [exact Hlim|reflexivity|reflexivity|exact I|exact I|reflexivity|..];
    rewrite !elem_of_app, ?elem_of_cons; tauto.
Qed.

Lemma handshake_keyed k :
  session_key = Some k → key_agreed → 0 ≤ session_limit < 2 ^ 63 → Forall sized exchange_messages →
  established (Nat.iter 3 (exchange get_session_key session_key_required configure_session srd crd
    session_key session_id) (link_init opts)).
Proof.
  intros Hk Hag Hlim Hsz. unfold key_agreed in Hag. rewrite Hk in Hag.
  assert (Henv : Client.env_session_key session_key = k) by by rewrite Hk.
  assert (Hb : bool_decide (is_Some session_key) = true).
  { apply bool_decide_eq_true. rewrite Hk. by eexists. }
  unfold exchange_messages in Hsz. rewrite Hb in Hsz. cbv zeta in Hsz.
  assert (Hd : default [] session_key = k) by by rewrite Hk. rewrite Hd in Hsz.
  pose proof (generate_salts srd k) as Hg. pose proof (generate_salts crd k) as Hg'.
  destruct (salts srd k) as [s1 s2], (salts crd k) as [s1' s2'].
  apply Forall_app in Hsz as [Hsz Hsz']. rewrite !Forall_cons in Hsz. rewrite !Forall_cons in Hsz'.
  destruct Hsz as (Hz0 & Hz1 & Hz2 & _), Hsz' as (Hz3 & Hz4 & _).
  set (ms := SerializeAsString (salts_capsule s1 s2 capsule_empty)) in *.
  set (mc := SerializeAsString (salts_capsule s1' s2' (salts_capsule s1 s2 capsule_empty))) in *.
  set (mr := SerializeAsString (ready_capsule session)) in *.
  destruct (cipher_exists k s1 s2) as (t1 & Ht1 & Hok1).
  destruct (cipher_exists k s1' s2') as (t2 & Ht2 & Hok2).
  assert (Hes : encoded1 crc N ms (get_data_hash crc ms ++ ms) N) by apply encoded_none, _.
  set (ws := get_data_hash crc ms ++ ms) in *.
  destruct (encode1 crc t1 mc _ Hok1) as (wc & t1' & Hec).
  destruct (encode1 crc t2 mr _ Hok2) as (wr & t2' & Her).
  assert (Hbs : blen ws ≤ first_limit) by (apply (encoded_size _ _ _ _ _ Hes crc_small Hz3)).
  assert (Hbc : blen wc ≤ first_limit) by (apply (encoded_size _ _ _ _ _ Hec crc_small Hz4)).
  assert (Hbr : blen wr ≤ first_limit) by (apply (encoded_size _ _ _ _ _ Her crc_small Hz2)).
  assert (Hok1' : transformer_ok t1') by apply Hec. assert (Hok2' : transformer_ok t2') by apply Her.
  rewrite !Nat.iter_succ. cbn [Nat.iter nat_rect]. rewrite <-Hag in Ht1, Ht2, Hg.
  erewrite (first_round _ Hz0 Hz1).
  2: { rewrite Hb. refine (server_setup id_of_client _ s1 s2 t1 ms Hg Ht1 eq_refl Hz3). }
  rewrite Hb.
  match goal with |- context [Link ?S ?C 1 1] => set (S1 := S); set (C1 := C) end.
  assert (Hclient : ∃ C2, process_data client_stage (frame ws) C1 = (Ok tt, C2) ∧
    C2 = Client.Iface (proto crc crc t1' t2 first_limit hs) (Some Client.STAGE_READY)
           Client.STAGE_READY false (Client.events C1 ++ [AWrite (frame wc)])).
  { rewrite Hag in Ht1, Ht2. eexists. split; [|reflexivity].
    exact (client_setup k s1 s2 s1' s2' t1 t2 ms mc ws wc t1' _ Henv Hg' Ht1 Ht2 eq_refl eq_refl
      Hes Hbs Hec Hz4). }
  destruct Hclient as (C2 & Hclient & HC2).
  assert (Hserver : ∃ S2, process_data server_stage (frame wc) S1 = (Ok tt, S2) ∧
    S2 = Server.Iface (proto crc crc t2' t1' session_limit stage_ready_call)
           Server.client_transformer_stage id_of_client opts true false
           (Server.events S1 ++ [AWrite (frame wr); AReady true])).
  { eexists. split; [|reflexivity].
    exact (server_transformer id_of_client _ _ s1' s2' _ t1 t1' t2 t2' mc wc mr wr eq_refl eq_refl
      Ht2 Hec Hbc Her Hz2). }
  destruct Hserver as (S2 & Hserver & HS2).
  rewrite (exchange_round S1 C1 1 1 (frame ws) (frame wc) C2 S2 (app_nil_r _) Hclient);
    [|rewrite HC2; apply app_nil_r|exact Hserver].
  rewrite HC2, HS2.
  erewrite (exchange_round _ _ _ _ (frame wr) []); [|apply app_nil_r|
    exact (client_ready mr crc t1' t2 wr t2' _ _ eq_refl Her Hbr)|reflexivity|apply data_nil].
  clear -Hlim Hok1' Hok2'.
  apply established_intro; [exact Hlim|reflexivity|reflexivity|exact Hok2'|exact Hok1'|reflexivity|..];
    rewrite !elem_of_app, ?elem_of_cons; tauto.
Qed.
End Phases.

Section Refused.
Context `{AuthCodecLaws}.
Context (get_session_key : bytes → bytes) (session_key_required : bytes → bool)
  (configure_session : session_options → session_options) (srd crd : nat → Z)
  (session_id : bytes) (opts : session_options).

#[local] Abbreviation refusal := (refusal_capsule ERR_ACCESS "Session key required"%string).

Lemma refused_rounds :
  session_key_required [] = true →
  Forall sized [Server.first_message; SerializeAsString (selection_capsule (selection None session_id));
    SerializeAsString refusal] →
  ∃ hello choice answer,
    Nat.iter 2 (exchange get_session_key session_key_required configure_session srd crd
      None session_id) (link_init opts) =
    Link (Server.Iface (proto hasher_crc32 hasher_crc32 transformer_none transformer_none first_limit
            stage_do_handshake) Server.client_selection_stage [] opts false true
            [AWrite hello; AClientId []; AWrite answer; AConnClose])
         (Client.Iface (proto hasher_crc32 hasher_crc32 transformer_none transformer_none first_limit
            stage_do_handshake) (Some Client.STAGE_ERROR) Client.STAGE_ERROR false
            [AWrite choice; AError (Container (Some ERR_ACCESS) (Some CATEGORY_INTERNAL) None
               (Some "Session key required"%string)) "Session key required"; AClose]) 2 1.
Proof.
  intros Hreq Hsz. rewrite !Forall_cons in Hsz. destruct Hsz as (Hz0 & Hz1 & Hz2 & _).
  set (m := SerializeAsString refusal) in *.
  set (w := get_data_hash hasher_crc32 m ++ m).
  assert (He : encoded1 hasher_crc32 transformer_none m w transformer_none) by apply encoded_none, _.
  pose proof (server_refuses opts ERR_ACCESS "Session key required" [] true
    (hello_sent ++ [AClientId []]) Server.client_selection_stage m eq_refl Hz2) as HS.
  set (S1 := Server.Iface _ _ _ _ _ _ (hello_sent ++ [AClientId []])) in HS.
  assert (Hst : Server.setup_transformer get_session_key session_key_required configure_session srd
    TRANSFORM_NONE S1 = Server.refuse ERR_ACCESS "Session key required" S1).
  { unfold Server.setup_transformer. erewrite bind_ok by reflexivity.
    change (TRANSFORM_NONE =? TRANSFORM_NONE) with true. cbn [S1 Server.client_id_]. by rewrite Hreq. }
  rewrite <-(bind_same _ _ _ _ Hst) in HS.
  rewrite !Nat.iter_succ. cbn [Nat.iter nat_rect].
  erewrite (first_round get_session_key session_key_required configure_session srd crd None session_id
    opts _ Hz0 Hz1) by exact HS.
  erewrite (exchange_round _ _ _ _ _ _ _ _ _ 1 1 (frame w) []); [|apply app_nil_r|
    apply (client_refused crd None session_id ERR_ACCESS "Session key required" m _ _ w _ _ eq_refl);
      [discriminate|exact He|apply frame_size; [apply _|done|exact Hz2]]
    |reflexivity|apply data_nil].
  by eexists _, _, _.
Qed.
End Refused.

(** ** Properties *)

(** C3 (liveness). A client and a server that agree on the session key, or a client
    without one and a server that does not ask for it, are both ready after three
    rounds of deliveries, whichever salts they draw: both have left the handshake for
    calls, the server knows the client's identifier, the client took the options the
    application settled on, and in both directions the packer of one end is in step
    with the popper of the other, digest and cipher included, with nothing left in
    either queue. *)
Theorem handshake_agreement `{AuthCodecLaws}
    (get_session_key : bytes → bytes) (session_key_required : bytes → bool)
    (configure_session : session_options → session_options) (srd crd : nat → Z)
    (session_key : option bytes) (session_id : bytes) (opts : session_options) :
  key_agreed get_session_key session_key_required session_key session_id →
  0 ≤ session_limit configure_session opts < 2 ^ 63 →
  Forall sized (exchange_messages configure_session srd crd session_key session_id opts) →
  established configure_session session_key session_id opts
    (Nat.iter 3 (exchange get_session_key session_key_required configure_session srd crd
       session_key session_id) (link_init opts)).
Proof.
  intros Hag Hlim Hsz. destruct session_key as [k|].
  - by apply (handshake_keyed _ _ _ _ _ _ _ _ k).
  - by apply handshake_none.
Qed.

(** A client without a key is turned away by a server that requires
    one: the server writes its refusal and closes the connection after it, the client
    raises the error of the refusal, enters its error stage and closes, and neither
    end ever announces that it is ready. *)
Theorem handshake_refused `{AuthCodecLaws}
    (get_session_key : bytes → bytes) (session_key_required : bytes → bool)
    (configure_session : session_options → session_options) (srd crd : nat → Z)
    (session_id : bytes) (opts : session_options) :
  session_key_required [] = true →
  Forall sized [Server.first_message; SerializeAsString (selection_capsule (selection None session_id));
    SerializeAsString (refusal_capsule ERR_ACCESS "Session key required")] →
  let l := Nat.iter 2 (exchange get_session_key session_key_required configure_session srd crd
             None session_id) (link_init opts) in
  (∃ hello answer, Server.events (srv l) = [AWrite hello; AClientId []; AWrite answer; AConnClose]) ∧
  (∃ choice err, Client.events (cli l) = [AWrite choice; AError err "Session key required"; AClose] ∧
     c_code err = Some ERR_ACCESS) ∧
  Client.stage_ (cli l) = Client.STAGE_ERROR ∧
  Server.ready_ (srv l) = false ∧ Client.ready_ (cli l) = false.
Proof.
  intros Hreq Hsz l.
  destruct (refused_rounds get_session_key session_key_required configure_session srd crd session_id
    opts Hreq Hsz) as (hello & choice & answer & Hl).
  fold l in Hl. rewrite Hl. cbn. split_and!; [by eexists _, _|by eexists _, _|done..].
Qed.

(** The client takes one message for each read during the handshake:
    when the server's options arrive together with further messages, the client
    becomes ready and announces it, and every further message stays in the queue
    without the calls' stage, whatever it is, having been run. *)
Theorem ready_leaves_the_rest `{AuthCodecLaws}
    (configure_session : session_options → session_options) (crd : nat → Z)
    (session_key : option bytes) (session_id : bytes) (opts : session_options)
    (rpc : M Client.iface unit) (hm : Hash.iface) (t r r' : transformer) (w : bytes)
    (ws : list bytes) (sc : Client.protocol_stage) (es : list accessor_event) :
  encoded1 hasher_crc32 r (SerializeAsString (ready_capsule (session configure_session opts))) w r' →
  Forall (λ w, blen w ≤ first_limit) (w :: ws) →
  let '(res, i) := process_data (client_stage_with crd session_key session_id rpc)
        (concat (frame <$> w :: ws))
        (Client.Iface (proto hm hasher_crc32 t r first_limit stage_do_handshake)
           (Some Client.STAGE_READY) sc false es) in
  res = Ok tt ∧ Client.ready_ i = true ∧
  process_stage_ (Client.protocol_ i) = stage_ready_call ∧
  Client.events i = es ++ [AConfigure (session configure_session opts); AReady true] ∧
  packed_ (queue_ (Client.protocol_ i)) = ws.
Proof.
  intros He Hw.
  rewrite (client_takes_ready configure_session crd session_key session_id opts rpc _ hm t r w ws r'
    sc es eq_refl He Hw).
  done.
Qed.

(** *** Witnesses *)

#[local] Instance auth_countable : AuthCodec := {|
  ac_capsule := countable_codec; ac_protocol := countable_codec; ac_selection := countable_codec;
  ac_transformer := countable_codec; ac_session := countable_codec;
  ac_protocol_partial _ := InitProtocol [] []; ac_selection_partial _ := ClientSelection None None None;
  ac_transformer_partial _ := TransformerSetup None None; ac_session_partial _ := SessionSetup None
|}.
#[local] Instance auth_countable_laws : AuthCodecLaws.
Proof. split; apply countable_codec_laws. Qed.

Lemma handshake_agreement_witness :
  let l := Nat.iter 3 (exchange (λ _, [1; 2; 3]) (λ _, true) (λ o, o)
             (λ i, Z.of_nat i) (λ i, Z.of_nat i) (Some [1; 2; 3]) [7])
             (link_init default_session_options) in
  established (λ o, o) (Some [1; 2; 3]) [7] default_session_options l.
Proof.
  apply (handshake_agreement).
  - reflexivity.
  - vm_compute. split; [discriminate|reflexivity].
  - apply (bool_decide_unpack _). vm_compute. exact I.
Defined.

Lemma handshake_refused_witness :
  let l := Nat.iter 2 (exchange (λ _, []) (λ _, true) (λ o, o)
             (λ _, 0) (λ _, 0) None []) (link_init default_session_options) in
  Server.ready_ (srv l) = false ∧ Client.ready_ (cli l) = false.
Proof.
  apply (handshake_refused (λ _, []) (λ _, true)
    (λ o, o) (λ _, 0) (λ _, 0) [] default_session_options).
  - reflexivity.
  - apply (bool_decide_unpack _). vm_compute. exact I.
Defined.

Lemma ready_leaves_the_rest_witness :
  let m := SerializeAsString
             (ready_capsule default_session_options) in
  let w := get_data_hash hasher_crc32 m ++ m in
  packed_ (queue_ (Client.protocol_ (process_data
    (client_stage_with (λ _, 0) None [] (Client.emit (AReady false)))
    (concat (frame <$> [w; [1; 2]]))
    (Client.Iface (proto hasher_crc32 hasher_crc32 transformer_none transformer_none first_limit
       stage_do_handshake) (Some Client.STAGE_READY) Client.STAGE_READY false [])).2)) = [[1; 2]].
Proof.
  intros m w.
  assert (He : encoded1 hasher_crc32 transformer_none m w transformer_none) by apply encoded_none, _.
  assert (Hw : Forall (λ w, blen w ≤ first_limit) [w; [1; 2]]).
  { apply (bool_decide_unpack _). vm_compute. exact I. }
  pose proof (ready_leaves_the_rest (λ o, o) (λ _, 0)
    None [] default_session_options (Client.emit (AReady false)) hasher_crc32 transformer_none
    transformer_none transformer_none w [[1; 2]] Client.STAGE_READY [] He Hw) as Hr.
  destruct (process_data _ _ _) as [res i]. apply Hr.
Defined.
