(* ===== verification/Session.v ===== *)
(** * Session: a call from end to end

    The client of ClientLayer and the server of ServerLayer, joined by the bytes of
    their low-level protocols: the caller opens a slot and hands its request to
    the connection, the connection packs it, the transport delivers the bytes in
    any pieces, the server's layer pops the message and queues the call, a thread
    of the pool runs it against the service, the answer travels back the same way
    and reaches the slot. *)

From S2P Require Import Prelude SizePack DataQueue Hash ChaCha Transformer Messages LowLevel CondQueues.
From S2P Require Import CallContext ProtocolLayer ServerLayer Registry ClientLayer Handshake.

#[local] Existing Instances varint_policy varint_policy_laws.

#[export] Instance server_layer_owner : ProtocolOwner protocol_layer_s.
Proof. done. Qed.
#[export] Instance client_layer_owner : ProtocolOwner protocol_layer_c.
Proof. done. Qed.

(** ** The two ends *)

(** Blocks of bytes reach the owner of a protocol, in order. *)
Fixpoint arrive {S} `{HasProtocol S} (call_stage : stage → M S unit) (ds : list bytes) : M S unit :=
  match ds with
  | [] => ret tt
  | d :: ds => process_data call_stage d ;;; arrive call_stage ds
  end.

Section Session.
Context `{Codec lowlevel_unit}.
Context (factory_ : string → option (string → option method_impl)).

(** The stages of a connection that is ready; an empty function throws. *)
Definition server_stage (st : stage) : M protocol_layer_s unit :=
  match st with
  | stage_ready_call => ServerLayer.message_ready
  | _ => raise (EStd "bad_function_call")
  end.
Definition client_stage (st : stage) : M protocol_layer_c unit :=
  match st with
  | stage_ready_call => ClientLayer.message_ready
  | _ => raise (EStd "bad_function_call")
  end.

(** [connection->send( )] of a message of the base class. *)
Definition send_unit {S} `{HasProtocol S} (u : lowlevel_unit) : M S bytes :=
  on_protocol (pack_message (serialize_lowlevel u)).
Fixpoint send_units {S} `{HasProtocol S} (us : list lowlevel_unit) : M S bytes :=
  match us with
  | [] => ret []
  | u :: us => let* w := send_unit u in let* ws := send_units us in ret (w ++ ws)
  end.

(** The caller opens the slot of its call; what it wrote. *)
Definition client_call (id : Z) (req : lowlevel_unit) : M protocol_layer_c bytes :=
  let* c := get in
  c_on_base (call_rpc_method_slot id req) ;;;
  let* c' := get in
  send_units (drop (length (sent_ (c_base c))) (sent_ (c_base c'))).
(** The caller waits on its slot and leaves it. *)
Definition client_wait (id : Z) (mess : lowlevel_unit) : M protocol_layer_c lowlevel_unit :=
  let* u := c_on_base (read_slot_for id mess (ret tt)) in
  c_on_base (erase_slot id) ;;;
  ret u.

(** A thread of the pool takes the task at place [i]; what was written meanwhile. *)
Definition run_task (i : nat) : M protocol_layer_s bytes :=
  let* s := get in
  match executing_ s !! i with
  | None => ret []
  | Some a =>
      modify (with_executing (delete i (executing_ s))) ;;;
      push_call factory_ a ;;;
      let* s' := get in
      send_units (drop (length (sent_ (base_ s))) (sent_ (base_ s')))
  end.
End Session.

(** ** Lemmas *)

(** *** One message on its way *)

Section Arrival.
Context {S : Type} `{ProtocolOwner S} (call_stage : stage → M S unit).

Lemma arrive_nothing ds (s : S) : concat ds = [] → arrive call_stage ds s = (Ok tt, s).
Proof.
  induction ds as [|d ds IH]; intros E; [done|]. apply app_eq_nil in E as [-> E].
  cbn [arrive]. rewrite (bind_ok _ _ _ _ _ (data_nil call_stage s)). by apply IH.
Qed.

(** The state while a message is arriving: the bytes [d] of it are here. *)
Definition waiting (p : default_protocol) (d : bytes) : default_protocol :=
  set_queue (Queue d [] (max_valid_length_ (queue_ p))) p.

Lemma process_data_eq d p (s : S) o q :
  d ≠ [] → protocol s = p → parser_process (with_data (data_ (queue_ p) ++ d) (queue_ p)) = (Ok o, q) →
  process_data call_stage d s =
    (if blen (packed_ (queue_ p)) <? blen (packed_ q)
     then call_stage (process_stage_ p) (set_protocol (set_queue q p) s)
     else (Ok tt, set_protocol (set_queue q p) s)).
Proof.
  intros Hd Hp He. unfold process_data.
  destruct (0 <? blen d) eqn:E; bool_props; [|by destruct d; unfold blen in E; simpl in E; [|lia]].
  rewrite bind_get, Hp. unfold bind at 1, on_protocol at 1, on_queue at 1, append, modify. rewrite Hp.
  unfold bind at 1, on_protocol at 1, on_queue at 1. rewrite owner_get. cbn [queue_ set_queue].
  rewrite He. rewrite owner_set, bind_get, owner_get. unfold protocol_queue_size. cbn [queue_ set_queue].
  by destruct (_ <? _).
Qed.

Lemma arrive_one p w ds d0 (s s' : S) :
  limit_ok (queue_ p) → blen w ≤ max_valid_length_ (queue_ p) →
  protocol s = waiting p d0 → parse_front (max_valid_length_ (queue_ p)) d0 (Ok None) →
  d0 ++ concat ds = frame w →
  call_stage (process_stage_ p)
    (set_protocol (set_queue (Queue [] [w] (max_valid_length_ (queue_ p))) p) s) = (Ok tt, s') →
  arrive call_stage ds s = (Ok tt, s').
Proof.
  intros Hlim Hw. revert d0 s. pose proof Hlim as [Hl0 Hl1]. pose proof sp_max_length_word as Hsp.
  set (max := max_valid_length_ (queue_ p)) in *.
  induction ds as [|d ds IH]; intros d0 s Hs Hf Hcat Hst.
  { exfalso. cbn [concat] in Hcat. rewrite app_nil_r in Hcat. subst d0.
    pose proof (parse_front_frame max w [] Hw ltac:(lia)) as Hf'. rewrite app_nil_r in Hf'.
    by pose proof (parse_front_fun _ _ _ _ Hf Hf'). }
  cbn [arrive]. destruct (decide (d = [])) as [->|Hd].
  { rewrite (bind_ok _ _ _ _ _ (data_nil call_stage s)). by eapply IH. }
  destruct (parser_process_spec (Queue (d0 ++ d) [] max)) as (ms & d1 & o & Hp & He); [done|].
  cbn [data_ packed_ max_valid_length_] in Hp, He.
  assert (Hcat' : (d0 ++ d) ++ concat ds = concat (frame <$> [w])).
  { cbn [fmap list_fmap concat]. by rewrite app_nil_r, <-Hcat, <-app_assoc. }
  destruct (parsed_prefix max (d0 ++ d) (concat ds) ms d1 o [w] Hp ltac:(lia) ltac:(by repeat constructor) Hcat')
    as (-> & ws' & Ems & Hrest).
  pose proof (process_data_eq d (waiting p d0) s tt _ Hd Hs He) as Hpd. cbn in Hpd.
  destruct ms as [|m ms].
  - assert (d1 = d0 ++ d) as -> by (by inversion Hp).
    rewrite (bind_ok _ _ _ _ _ Hpd). apply (IH (d0 ++ d)).
    + apply owner_get.
    + by apply parsed_stops in Hp.
    + by rewrite <-app_assoc.
    + by rewrite owner_set.
  - injection Ems as <- Ems. symmetry in Ems. apply app_eq_nil in Ems as [-> ->].
    cbn in Hrest. apply app_eq_nil in Hrest as [-> Hnil].
    rewrite (bind_ok _ _ _ _ _ (eq_trans Hpd Hst)). by apply arrive_nothing.
Qed.
End Arrival.

(** *** One message in a protocol *)

Section Messages.
Context `{CodecLaws lowlevel_unit}.

Lemma pop_proto_raw p :
  pop_proto_message (A := lowlevel_unit) p =
    (match (pop_raw_message p).1 with
     | Ok o => Ok (o ≫= ParseFromString)
     | Raise e => Raise e
     end, (pop_raw_message p).2).
Proof.
  unfold pop_proto_message, pop_raw_message, bind, get, deref, ret, raise.
  repeat (case_match; simplify_eq/=; try done).
Qed.

Lemma pop_proto_ok h (u : lowlevel_unit) w ws t' p :
  HashLaws h → hash_checker_ p = Some h → packed_ (queue_ p) = w :: ws →
  encoded1 h (revertor_ p) (serialize_lowlevel u) w t' →
  pop_proto_message p = (Ok (Some u), with_queue (with_packed ws (queue_ p)) t' p).
Proof.
  intros Hh Hc Hq (_ & Hd & _). rewrite pop_proto_raw.
  rewrite (pop_raw_message_ok h w ws _ t' p Hh Hc Hq Hd), pop_result_good by done. cbn.
  unfold serialize_lowlevel. by rewrite parse_serialize.
Qed.

(** A ready channel from one end to the other, with nothing on its way. *)
Record channel (h : Hash.iface) (s r : default_protocol) : Prop := {
  ch_sync : in_sync h s r;
  ch_quiet : quiet (queue_ r);
  ch_ready : process_stage_ r = stage_ready_call
}.
Definition fits (h : Hash.iface) (u : lowlevel_unit) (r : default_protocol) : Prop :=
  blen (serialize_lowlevel u) + Hash.size h ≤ max_valid_length_ (queue_ r).

(** The receiver after a message, and the channel then. *)
Definition taken (t : transformer) (r : default_protocol) : default_protocol :=
  with_queue (Queue [] [] (max_valid_length_ (queue_ r))) t r.

(** Sending one message: its frame, and how the channel stands once it is taken. *)
Lemma send_unit_ok {St} `{ProtocolOwner St} h u (st : St) r :
  channel h (protocol st) r → fits h u r →
  ∃ w t', send_unit u st = (Ok (frame w), set_protocol (set_transformer t' (protocol st)) st) ∧
    encoded1 h (revertor_ r) (serialize_lowlevel u) w t' ∧
    blen w ≤ max_valid_length_ (queue_ r) ∧
    channel h (set_transformer t' (protocol st)) (taken t' r).
Proof.
  intros [[Hh Hm Hc Hci Hok Hlim] Hq Hst] Hf. unfold fits in Hf.
  destruct (encode1 h (revertor_ r) (serialize_lowlevel u) Hh Hok) as (w & t' & He).
  exists w, t'. pose proof (proj1 (proj2 (proj2 He))) as Hl. destruct Hlim as [Hl0 Hl1].
  pose proof sp_max_length_word. pose proof (hl_size (h := h)). split_and!; [|done|lia|].
  - unfold send_unit, on_protocol. rewrite (pack_message_ok h _ w t') by (done || lia || by rewrite Hci). done.
  - split; [|done..]. split; try done. apply He.
Qed.

(** The owner of the receiving end when a message is complete. *)
Definition reached {St} `{HasProtocol St} (w : bytes) (st : St) : St :=
  set_protocol (set_queue (Queue [] [w] (max_valid_length_ (queue_ (protocol st)))) (protocol st)) st.

Lemma arrive_message {St} `{ProtocolOwner St} (call_stage : stage → M St unit) h snd w ds (st st' : St) :
  channel h snd (protocol st) → blen w ≤ max_valid_length_ (queue_ (protocol st)) → concat ds = frame w →
  call_stage stage_ready_call (reached w st) = (Ok tt, st') → arrive call_stage ds st = (Ok tt, st').
Proof.
  intros [[_ _ _ _ _ Hlim] [Hpk Hdt] Hst] Hw Hcat Hrun.
  apply (arrive_one call_stage (protocol st) w ds []); [done|done| | |done|by rewrite Hst].
  - unfold waiting. destruct (protocol st) as [? ? ? ? [? ? ?] ?]. simpl in *. by subst.
  - constructor. pose proof (sp_size_length_bound []). unfold blen in *. simpl in *. lia.
Qed.

Lemma pop_reached h u w t' p :
  HashLaws h → hash_checker_ p = Some h → encoded1 h (revertor_ p) (serialize_lowlevel u) w t' →
  pop_proto_message (set_queue (Queue [] [w] (max_valid_length_ (queue_ p))) p) = (Ok (Some u), taken t' p).
Proof.
  intros Hh Hc He.
  by rewrite (pop_proto_ok h u w [] t' (set_queue (Queue [] [w] (max_valid_length_ (queue_ p))) p) Hh Hc eq_refl He).
Qed.
End Messages.

(** *** The server's side *)

Section ServerSide.
Context `{CodecLaws lowlevel_unit}.
Context (factory_ : string → option (string → option method_impl)).

(** The server after it took a call off the wire. *)
Definition accepted (t : transformer) (u : lowlevel_unit) (s : protocol_layer_s) : protocol_layer_s :=
  with_executing (executing_ s ++ [unit_fresh_ (base_ s)])
    (with_current (current_calls_ s + 1)
       (with_base (unit_new u (base_ s)).2 (with_ll (taken t (ll_processor_ s)) s))).

Lemma server_takes h u w t' s :
  HashLaws h → hash_checker_ (ll_processor_ s) = Some h → connection_ (base_ s) = true →
  encoded1 h (revertor_ (ll_processor_ s)) (serialize_lowlevel u) w t' →
  u_message_type u = MESSAGE_CLIENT_CALL → 0 ≤ current_calls_ s → current_calls_ s + 1 < 2 ^ 32 →
  current_calls_ s + 1 ≤ max_calls s →
  server_stage stage_ready_call (reached w s) = (Ok tt, accepted t' u s).
Proof.
  intros Hh Hc Hal He Ht H0 H1 Hmax. unfold server_stage, ServerLayer.message_ready, reached.
  rewrite bind_get. cbn [base_ with_ll set_protocol server_protocol protocol]. rewrite Hal.
  unfold on_rcp_call_ready. cbn [ll_processor_ with_ll queue_ set_queue packed_ length on_rcp_call_ready_loop].
  rewrite bind_get. unfold message_queue_empty. cbn [ll_processor_ with_ll].
  match goal with |- context [protocol_queue_size ?x =? 0] =>
    change (protocol_queue_size x =? 0) with false end. cbv iota.
  assert (Hn : ServerLayer.process_next (with_ll (set_queue (Queue [] [w] (max_valid_length_
      (queue_ (ll_processor_ s)))) (ll_processor_ s)) s) = (Ok true, accepted t' u s)).
  { unfold ServerLayer.process_next, bind at 1. rewrite get_pop_message_eq. cbn [ll_processor_ with_ll].
    rewrite (pop_reached h u w t' _ Hh Hc He). unfold bind at 1.
    change (with_ll (taken t' (ll_processor_ s)) (with_ll _ s)) with (with_ll (taken t' (ll_processor_ s)) s).
    by rewrite (receive_call u (with_ll (taken t' (ll_processor_ s)) s)). }
  by rewrite (bind_ok _ _ _ _ _ Hn).
Qed.

(** A service of the factory that the connection has not seen, or has cached. *)
Definition offers (s : protocol_layer_s) (name : string) (svc : string → option method_impl) : Prop :=
  match services_ s !! name with
  | Some w => w = Wrapper (Some svc)
  | None => factory_ name = Some svc
  end.

Lemma get_service_offered s name svc :
  offers s name svc →
  get_service factory_ name s =
    (Ok (Some (Wrapper (Some svc))), with_services (<[name := Wrapper (Some svc)]> (services_ s)) s).
Proof.
  unfold offers, get_service. destruct (services_ s !! name) as [w|] eqn:E.
  - intros ->. rewrite insert_id by done. by destruct s.
  - intros Hf. unfold app_get_service_by_name. by rewrite Hf.
Qed.

(** The task of a call that its method completes. *)
Lemma push_call_served s a svc m xs h' :
  let l := base_ s in let u := unit_at l a in let ans := answer h' u in
  stack_ok (thread_ l) → holders_ l !! holder_fresh_ l = None → connection_ l = true →
  blen (default [] (s_call_context (thread_ l))) < default 0 (so_max_stack_size (session_opts_ l)) →
  offers s (u_service_id u) svc → svc (u_method_id u) = Some m →
  completes (m (u_request u)) xs → apply_setters xs (called_holder a true) = Some h' →
  1 ≤ current_calls_ s < 2 ^ 32 →
  push_call factory_ a s =
    (Ok tt, with_current (current_calls_ s - 1)
      (with_base (finished l a ans [ans] [u_error ans])
         (with_services (<[u_service_id u := Wrapper (Some svc)]> (services_ s)) s))).
Proof.
  intros l u ans Hst Hf Hal Hd Ho Hm Hcomp Hset Hcur. pose proof (get_service_offered s _ svc Ho) as Hg.
  unfold push_call. rewrite bind_get. fold l.
  assert (asks_service l = true) as ->.
  { unfold asks_service. apply negb_true_iff, Z.ltb_ge. lia. }
  rewrite (bind_ok _ _ _ _ _ Hg). unfold on_base. cbn [base_ with_services]. fold l.
  rewrite (make_local_call_served _ a true l svc m xs h') by done. fold u ans.
  cbn [finished dones_]. rewrite length_app, Nat.add_comm, Nat.add_sub. cbn [length Nat.iter nat_rect].
  unfold call_done. rewrite wrap_small by (unfold in_word; cbn; lia). done.
Qed.
End ServerSide.

(** *** The client's side *)

Section ClientSide.
Context `{CodecLaws lowlevel_unit}.

(** The base class with the slot of a call just open, empty, and the request sent. *)
Definition opened (id : Z) (req : lowlevel_unit) (l : layer) : layer :=
  with_sent (sent_ l ++ [req]) (with_rpc_queue (add_queue id (rpc_queue_ l)).2 l).

Lemma call_opens id req l :
  ready_ l = true → slot_exists id l = false →
  call_rpc_method_slot id req l = (Ok tt, opened id req l) ∧
  let a := next_ (rpc_queue_ l) in
  rpc_queue_ (opened id req l) =
    CQ (<[a := hold_new]> (heap_ (rpc_queue_ l))) (<[id := a]> (store_ (rpc_queue_ l))) (S a).
Proof.
  intros Hr Hs. unfold slot_exists, queue_exists in Hs.
  apply bool_decide_eq_false, eq_None_not_Some in Hs.
  unfold opened, call_rpc_method_slot, on_rpc_queue, add_queue, send_message.
  rewrite bind_get, Hr. unfold bind, modify. by rewrite Hs.
Qed.

Lemma client_calls id req c :
  ready_ (c_base c) = true → slot_exists id (c_base c) = false →
  client_call id req c = send_units [req] (c_with_base (opened id req (c_base c)) c).
Proof.
  intros Hr Hs. destruct (call_opens id req (c_base c) Hr Hs) as [Ho _].
  unfold client_call. rewrite bind_get. unfold bind at 1. rewrite c_on_base_eq, Ho. cbn [fst snd].
  rewrite bind_get. cbn [c_base c_with_base opened sent_ with_sent]. by rewrite drop_app_length.
Qed.

(** The client after it took an answer off the wire, for the slot at [a]. *)
Definition answered (t : transformer) (u : lowlevel_unit) (a : nat) (c : protocol_layer_c) : protocol_layer_c :=
  let l := (unit_new u (c_base c)).2 in
  c_with_base (with_rpc_queue (push_value_data a [u] (rpc_queue_ l)) l)
    (c_with_ll (taken t (c_ll_processor c)) c).

Lemma client_takes_answer h u (w : bytes) t' a c :
  HashLaws h → hash_checker_ (c_ll_processor c) = Some h →
  encoded1 h (revertor_ (c_ll_processor c)) (serialize_lowlevel u) w t' →
  u_message_type u = MESSAGE_CLIENT_CALL → store_ (rpc_queue_ (c_base c)) !! u_id u = Some a →
  client_stage stage_ready_call (reached w c) = (Ok tt, answered t' u a c).
Proof.
  intros Hh Hc He Ht Ha. unfold client_stage, ClientLayer.message_ready, on_rpc_process, reached.
  cbn [c_ll_processor c_with_ll set_protocol client_protocol protocol queue_ set_queue packed_ length on_rpc_process_loop].
  rewrite bind_get. cbn [c_ll_processor c_with_ll].
  match goal with |- context [protocol_queue_size ?x =? 0] =>
    change (protocol_queue_size x =? 0) with false end. cbv iota.
  set (c1 := c_with_ll (taken t' (c_ll_processor c)) c).
  assert (Hr : ClientLayer.receive u c1 = (Ok tt, answered t' u a c)).
  { rewrite c_receive_eq. unfold ClientLayer.process_message. rewrite bind_get.
    assert (Hu : unit_at (unit_new u (c_base c)).2 (unit_fresh_ (c_base c)) = u).
    { unfold unit_at, unit_new. cbn. by rewrite lookup_insert_eq. }
    cbn [c_base c_with_base c_with_ll c1]. rewrite Hu, Ht.
    change (MESSAGE_CLIENT_CALL =? MESSAGE_SERVER_CALL) with false.
    change (MESSAGE_CLIENT_CALL =? MESSAGE_SERVER_CALLBACK) with false.
    change (MESSAGE_CLIENT_CALL =? MESSAGE_CLIENT_CALL) with true. cbn [orb]. cbv iota.
    unfold ClientLayer.process_answer. rewrite bind_get. cbn [c_base c_with_base c_with_ll c1]. rewrite Hu.
    unfold bind at 1. rewrite c_on_base_eq. cbn [c_base c_with_base c_with_ll c1].
    unfold push_rpc_message, on_rpc_queue, write_queue_if_exists, value_by_key.
    change (rpc_queue_ (unit_new u (c_base c)).2) with (rpc_queue_ (c_base c)). by rewrite Ha. }
  assert (Hn : ClientLayer.process_next (c_with_ll (set_queue (Queue [] [w] (max_valid_length_
      (queue_ (c_ll_processor c)))) (c_ll_processor c)) c) = (Ok true, answered t' u a c)).
  { rewrite c_process_next_eq. cbn [c_ll_processor c_with_ll].
    rewrite (pop_reached h u w t' _ Hh Hc He).
    change (c_with_ll (taken t' (c_ll_processor c)) (c_with_ll _ c)) with c1.
    by rewrite (bind_ok _ _ _ _ _ Hr). }
  by rewrite (bind_ok _ _ _ _ _ Hn).
Qed.

(** The queues [q'] are the queues [q] but for what is at the address [a]. *)
Definition same_off (a : nat) (q q' : condition_queues lowlevel_unit) : Prop :=
  next_ q' = next_ q ∧ ∀ b, b ≠ a → heap_ q' !! b = heap_ q !! b.

(** The caller takes its answer and its slot is gone. *)
Lemma client_waits id mess a u d c :
  let q := rpc_queue_ (c_base c) in
  store_ q !! id = Some a → hdata_ (value_of q a) = u :: d →
  ∃ q', client_wait id mess c = (Ok u, c_with_base (with_rpc_queue q' (c_base c)) c) ∧
    store_ q' = delete id (store_ q) ∧ same_off a q q'.
Proof.
  intros q Ha Hd. unfold client_wait, bind at 1.
  rewrite c_on_base_eq, (read_slot_takes id mess (ret tt) (c_base c) a u d Ha Hd). cbn [fst snd]. fold q.
  unfold bind. rewrite c_on_base_eq. unfold erase_slot, on_rpc_queue, erase_queue.
  cbn [c_base c_with_base rpc_queue_ with_rpc_queue store_ set_value]. rewrite Ha.
  eexists. split; [reflexivity|]. split; [done|]. split; [done|].
  intros b Hb. cbn. by rewrite !lookup_insert_ne by done.
Qed.
End ClientSide.

(** Two ends that finished their handshake are joined by channels both ways. *)
Lemma established_channels `{AuthCodec} cs key id opts l :
  established cs key id opts l →
  channel hasher_crc32 (Client.protocol_ (cli l)) (Server.protocol_ (srv l)) ∧
  channel hasher_crc32 (Server.protocol_ (srv l)) (Client.protocol_ (cli l)).
Proof. intros [[_ Hs] [_ Hc] _ Hup Hdown _ [Hqs Hqc] _]. by split; split. Qed.

(** ** A remote call *)

(** The server can serve the request: a free place among the active calls, room on
    the call stack, the service and its method [m]. *)
Record can_serve (factory_ : string → option (string → option method_impl)) (s : protocol_layer_s)
    (req : lowlevel_unit) (m : method_impl) : Prop := {
  cs_stack : stack_ok (thread_ (base_ s));
  cs_holder : holders_ (base_ s) !! holder_fresh_ (base_ s) = None;
  cs_alive : connection_ (base_ s) = true;
  cs_depth : blen (default [] (s_call_context (thread_ (base_ s)))) <
             default 0 (so_max_stack_size (session_opts_ (base_ s)));
  cs_place : 0 ≤ current_calls_ s < max_calls s;
  cs_word : max_calls s < 2 ^ 32;
  cs_method : ∃ svc, offers factory_ s (u_service_id req) svc ∧ svc (u_method_id req) = Some m
}.

Lemma answer_id h u : u_id (answer h u) = u_id u ∧ u_message_type (answer h u) = u_message_type u.
Proof. unfold answer. by repeat case_match. Qed.

(** The base class of the server after the call, and that of the client after the
    answer was taken: every component is written out, so what stands unchanged here
    is unchanged. *)
Definition served (ans : lowlevel_unit) (l : layer) : layer :=
  Layer (rpc_queue_ l) (rpc_index_ l) (session_opts_ l) (ready_ l)
    (Thread (ctx_heap (thread_ l)) (S (ctx_fresh (thread_ l))) (s_call_context (thread_ l)))
    (connection_ l) (<[unit_fresh_ l := ans]> (units_ l)) (S (unit_fresh_ l))
    (holders_ l) (S (holder_fresh_ l)) (sent_ l ++ [ans]) (dones_ l ++ [u_error ans]).
Definition returned (req ans : lowlevel_unit) (q : condition_queues lowlevel_unit) (l : layer) : layer :=
  Layer q (rpc_index_ l) (session_opts_ l) (ready_ l) (thread_ l) (connection_ l)
    (<[unit_fresh_ l := ans]> (units_ l)) (S (unit_fresh_ l)) (holders_ l) (holder_fresh_ l)
    (sent_ l ++ [req]) (dones_ l).

(** The queues after a call whose own queue was allocated, used and dropped: the
    same slots, every other queue as it was. *)
Definition slots_restored (q q' : condition_queues lowlevel_unit) : Prop :=
  store_ q' = store_ q ∧ next_ q' = S (next_ q) ∧ ∀ a, a ≠ next_ q → heap_ q' !! a = heap_ q !! a.

(** The server [s2] after the call: its protocol, its cached service and its base
    class have moved on; the client [c3] after it: its protocol and its base class. *)
Definition server_moved (factory_ : string → option (string → option method_impl))
    (req ans : lowlevel_unit) (s s2 : protocol_layer_s) : Prop :=
  ∃ svc, offers factory_ s (u_service_id req) svc ∧
    s2 = with_ll (ll_processor_ s2)
           (with_services (<[u_service_id req := Wrapper (Some svc)]> (services_ s))
              (with_base (served ans (base_ s)) s)).
Definition client_moved (req ans : lowlevel_unit) (c c3 : protocol_layer_c) : Prop :=
  ∃ q, slots_restored (rpc_queue_ (c_base c)) q ∧
    c3 = c_with_ll (c_ll_processor c3) (c_with_base (returned req ans q (c_base c)) c).

Section RemoteCall.
Context `{CodecLaws lowlevel_unit}.
Context (factory_ : string → option (string → option method_impl)).

(** The client after it sent the request, with its cipher moved to [t]. *)
Definition called_out (id : Z) (req : lowlevel_unit) (t : transformer) (c : protocol_layer_c) : protocol_layer_c :=
  c_with_ll (set_transformer t (c_ll_processor c)) (c_with_base (opened id req (c_base c)) c).

Lemma request_sent h c r id req :
  channel h (c_ll_processor c) r → ready_ (c_base c) = true → slot_exists id (c_base c) = false → fits h req r →
  ∃ w t, client_call id req c = (Ok (frame w), called_out id req t c) ∧
    encoded1 h (revertor_ r) (serialize_lowlevel req) w t ∧ blen w ≤ max_valid_length_ (queue_ r) ∧
    channel h (set_transformer t (c_ll_processor c)) (taken t r).
Proof.
  intros Hch Hr Hs Hf. set (c0 := c_with_base (opened id req (c_base c)) c).
  assert (Hch0 : channel h (protocol c0) r) by exact Hch.
  destruct (send_unit_ok h req c0 r Hch0 Hf) as (w & t & Hw & He & Hl & Hch').
  exists w, t. split_and!; [|done..]. rewrite client_calls by done. cbn [send_units].
  rewrite (bind_ok _ _ _ _ _ Hw). unfold bind, ret. by rewrite app_nil_r.
Qed.

(** The server after the task of the request, with its cipher moved to [t2]. *)
Lemma request_run h r s req t m xs hld :
  can_serve factory_ s req m → completes (m (u_request req)) xs →
  apply_setters xs (called_holder (unit_fresh_ (base_ s)) true) = Some hld →
  let ans := answer hld req in
  channel h (ll_processor_ s) r → fits h ans r →
  ∃ w t2 s2, run_task factory_ (length (executing_ s)) (accepted t req s) = (Ok (frame w), s2) ∧
    encoded1 h (revertor_ r) (serialize_lowlevel ans) w t2 ∧ blen w ≤ max_valid_length_ (queue_ r) ∧
    server_moved factory_ req ans s s2 ∧
    ll_processor_ s2 = set_transformer t2 (taken t (ll_processor_ s)) ∧
    channel h (ll_processor_ s2) (taken t2 r).
Proof.
  intros [Hst Hho Hal Hde Hpl Hwd (svc & Hof & Hme)] Hcomp Hset ans Hch Hf.
  set (b := unit_fresh_ (base_ s)) in *. set (s0 := with_executing (executing_ s) (accepted t req s)).
  assert (Hub : unit_at (base_ s0) b = req) by (unfold unit_at; cbn; by rewrite lookup_insert_eq).
  pose proof (push_call_served factory_ s0 b svc m xs hld) as Hpush. cbv zeta in Hpush.
  rewrite Hub in Hpush. specialize (Hpush Hst Hho Hal Hde Hof Hme Hcomp Hset ltac:(cbn; lia)). fold ans in Hpush. set (s2 := with_current _ _) in Hpush.
  assert (Hch2 : channel h (protocol s2) r) by (destruct Hch as [[]]; by split).
  destruct (send_unit_ok h ans s2 r Hch2 Hf) as (w & t2 & Hw & He & Hl & Hch').
  exists w, t2, (set_protocol (set_transformer t2 (protocol s2)) s2).
  split_and!; [|done|done| |done|exact Hch'].
  2: { exists svc. split; [exact Hof|]. unfold s2, with_ll, with_services, with_base, with_current.
       cbn. rewrite Z.add_simpl_r. unfold finished, served, with_units. cbn. by rewrite insert_insert_eq. }
  unfold run_task. rewrite bind_get. change (executing_ (accepted t req s)) with (executing_ s ++ [b]).
  rewrite list_lookup_middle by done. rewrite bind_modify, delete_middle, app_nil_r.
  change (with_executing (executing_ s) (accepted t req s)) with s0.
  rewrite (bind_ok _ _ _ _ _ Hpush), bind_get.
  change (sent_ (base_ s2)) with (sent_ (base_ s) ++ [ans]).
  change (sent_ (base_ (accepted t req s))) with (sent_ (base_ s)).
  rewrite drop_app_length. cbn [send_units]. rewrite (bind_ok _ _ _ _ _ Hw).
  unfold bind, ret. by rewrite app_nil_r.
Qed.

(** The answer reaches the slot and the caller takes it. *)
Lemma answer_taken h snd c id req t ans w t2 mess ds :
  let c1 := called_out id req t c in
  channel h snd (c_ll_processor c1) → ready_ (c_base c) = true → slot_exists id (c_base c) = false →
  u_id ans = id → u_message_type ans = MESSAGE_CLIENT_CALL →
  encoded1 h (revertor_ (c_ll_processor c1)) (serialize_lowlevel ans) w t2 →
  blen w ≤ max_valid_length_ (queue_ (c_ll_processor c1)) → concat ds = frame w →
  ∃ c2 l, arrive client_stage ds c1 = (Ok tt, c2) ∧ client_wait id mess c2 = (Ok ans, c_with_base l c2) ∧
    client_moved req ans c (c_with_base l c2) ∧ c_ll_processor c2 = taken t2 (c_ll_processor c1).
Proof.
  intros c1 Hch Hr Hs Hid Ht He Hl Hds. destruct (call_opens id req (c_base c) Hr Hs) as [_ Hq].
  set (q := rpc_queue_ (c_base c)) in *. set (a := next_ q) in *. cbv zeta in Hq.
  assert (Hno : store_ q !! id = None).
  { unfold slot_exists, queue_exists in Hs. by apply bool_decide_eq_false, eq_None_not_Some in Hs. }
  assert (Ha : store_ (rpc_queue_ (opened id req (c_base c))) !! u_id ans = Some a).
  { rewrite Hq, Hid. apply lookup_insert_eq. }
  pose proof (ch_sync _ _ _ Hch) as Sy.
  assert (Hans : client_stage stage_ready_call (reached w c1) = (Ok tt, answered t2 ans a c1)).
  { by apply (client_takes_answer h); [apply Sy|apply Sy|..]. }
  destruct (client_waits id mess a ans [] (answered t2 ans a c1)) as (q' & Hwait & Hst & Hnx & Hoff).
  { by rewrite <-Hid. }
  { change (rpc_queue_ (c_base (answered t2 ans a c1)))
      with (push_value_data a [ans] (rpc_queue_ (opened id req (c_base c)))).
    unfold push_value_data. rewrite value_of_set. cbn [hdata_]. rewrite Hq. unfold value_of. cbn.
    by rewrite lookup_insert_eq. }
  exists (answered t2 ans a c1), (with_rpc_queue q' (c_base (answered t2 ans a c1))).
  assert (Hch1 : channel h snd (protocol c1)) by exact Hch.
  split_and!; [exact (arrive_message client_stage h snd w ds c1 _ Hch1 Hl Hds Hans)|exact Hwait| |done].
  exists q'. split; [|done]. change (rpc_queue_ (c_base (answered t2 ans a c1)))
    with (push_value_data a [ans] (rpc_queue_ (opened id req (c_base c)))) in Hst, Hnx, Hoff.
  rewrite Hq in Hst, Hnx, Hoff. cbn in Hst, Hnx, Hoff. split_and!; [|done|].
  - rewrite Hst. by apply delete_insert_id.
  - intros b Hb. rewrite Hoff by done. by rewrite !lookup_insert_ne by done.
Qed.
End RemoteCall.

(** C1 (functional). A remote call, from the caller's slot to the service and back.
    Between a client and a server whose protocols are in step, with other calls
    running on both sides or not, however the transport cuts the bytes each way:
    the request reaches the server as one more task; when a thread of the pool
    runs it, the method of the service sees the request and the answer is what the
    method filled in, sent once; the caller that waits on the slot gets exactly
    that answer, its slot is gone afterwards, and both directions are in step
    again. What else each side keeps is as it was: on the server only the protocol,
    the cache of services (which holds the called one), the counters of the thread's
    contexts, of holders and of messages, the message of the call, the record of
    what was sent and of the callback called once have moved, on the client only the
    protocol, the message of the answer, the record of what was sent and the address
    of the dropped slot, so every other slot and its queue is untouched. *)
Theorem remote_call `{CodecLaws lowlevel_unit} factory_ h1 h2 c s id req mess m xs hld :
  channel h1 (c_ll_processor c) (ll_processor_ s) → channel h2 (ll_processor_ s) (c_ll_processor c) →
  ready_ (c_base c) = true → slot_exists id (c_base c) = false →
  u_id req = id → u_message_type req = MESSAGE_CLIENT_CALL →
  can_serve factory_ s req m → completes (m (u_request req)) xs →
  apply_setters xs (called_holder (unit_fresh_ (base_ s)) true) = Some hld →
  let ans := answer hld req in
  fits h1 req (ll_processor_ s) → fits h2 ans (c_ll_processor c) →
  ∃ w1 c1, client_call id req c = (Ok w1, c1) ∧
  ∀ ds1, concat ds1 = w1 → ∃ s1, arrive server_stage ds1 s = (Ok tt, s1) ∧
  ∃ w2 s2, run_task factory_ (length (executing_ s)) s1 = (Ok w2, s2) ∧
    sent_ (base_ s2) = sent_ (base_ s) ++ [ans] ∧
  ∀ ds2, concat ds2 = w2 → ∃ c2 c3, arrive client_stage ds2 c1 = (Ok tt, c2) ∧
    client_wait id mess c2 = (Ok ans, c3) ∧ slot_exists id (c_base c3) = false ∧
    current_calls_ s2 = current_calls_ s ∧ executing_ s2 = executing_ s ∧
    server_moved factory_ req ans s s2 ∧ client_moved req ans c c3 ∧
    channel h1 (c_ll_processor c3) (ll_processor_ s2) ∧ channel h2 (ll_processor_ s2) (c_ll_processor c3).
Proof.
  intros Hup Hdown Hr Hs Hid Ht Hserve Hcomp Hset ans Hf1 Hf2. destruct (answer_id hld req) as [Hai Hat].
  destruct (request_sent h1 c _ id req Hup Hr Hs Hf1) as (w & t & Hcall & He & Hl & Hup').
  exists (frame w), (called_out id req t c). split; [exact Hcall|]. intros ds1 Hds1.
  exists (accepted t req s). split.
  { assert (Hup0 : channel h1 (c_ll_processor c) (protocol s)) by exact Hup.
    apply (arrive_message server_stage h1 (c_ll_processor c) w ds1 s _ Hup0 Hl Hds1).
    pose proof (ch_sync _ _ _ Hup) as Sy. destruct Hserve.
    apply (server_takes h1); [apply Sy|apply Sy|done|done|done|lia|lia|lia]. }
  destruct (request_run factory_ h2 (c_ll_processor c) s req t m xs hld Hserve Hcomp Hset Hdown Hf2)
    as (w' & t2 & s2 & Hrun & He' & Hl' & Hmoved & Hll & Hdown').
  assert (sent_ (base_ s2) = sent_ (base_ s) ++ [ans] ∧ current_calls_ s2 = current_calls_ s ∧
    executing_ s2 = executing_ s) as (Hsent & Hcur & Hex) by (by destruct Hmoved as (? & _ & ->)).
  exists (frame w'), s2. split; [exact Hrun|]. split; [exact Hsent|]. intros ds2 Hds2.
  destruct (answer_taken h2 (ll_processor_ s) c id req t ans w' t2 mess ds2)
    as (c2 & l & Harr & Hwait & Hback & Hll2); [|done..| | |done|done|done|].
  { destruct Hdown as [[]]. by split. }
  { by rewrite <-Hid. }
  { by rewrite <-Ht. }
  exists c2, (c_with_base l c2). split_and!; [exact Harr|exact Hwait| |done|done|done|exact Hback| |].
  - destruct Hback as (q & [Hst _] & ->). unfold slot_exists, queue_exists in *. cbn. by rewrite Hst.
  - cbn [c_ll_processor c_with_base]. rewrite Hll2, Hll. destruct Hup' as [[]]. by split.
  - cbn [c_ll_processor c_with_base]. rewrite Hll2. destruct Hdown' as [[]]. by split.
Qed.

#[local] Instance session_codec : Codec lowlevel_unit := countable_codec.
#[local] Instance session_codec_laws : CodecLaws lowlevel_unit := countable_codec_laws.

(** An echo: the service answers with its request. *)
Definition echo_factory : string → option (string → option method_impl) :=
  λ _, Some (λ _, Some (λ r, [AGuard; ASetResponse r])).
Definition echo_client : protocol_layer_c :=
  c_with_ll (switch_to_ready default_protocol_new)
    (c_with_base (with_ready true (layer_new true default_session_options)) (client_new ClientBase.base_new)).
Definition echo_server : protocol_layer_s :=
  with_ll (switch_to_ready default_protocol_new) (server_new default_session_options).

Lemma remote_call_witness :
  let req := set_message_type MESSAGE_CLIENT_CALL (example_call true) in
  let ans := set_response (Some [7]) (set_request None (set_call None req)) in
  ∃ w1 c1, client_call (u_id req) req echo_client = (Ok w1, c1) ∧
  ∃ s1, arrive server_stage [w1] echo_server = (Ok tt, s1) ∧
  ∃ w2 s2, run_task echo_factory 0 s1 = (Ok w2, s2) ∧
  ∃ c2 c3, arrive client_stage [w2] c1 = (Ok tt, c2) ∧ client_wait (u_id req) unit_empty c2 = (Ok ans, c3).
Proof.
  intros req ans.
  assert (Hch : channel hasher_none (switch_to_ready default_protocol_new) (switch_to_ready default_protocol_new)).
  { split; [split; [apply _|reflexivity|reflexivity|reflexivity|exact I|]|split; reflexivity|reflexivity].
    split; vm_compute; [discriminate|reflexivity]. }
  destruct (remote_call echo_factory hasher_none hasher_none echo_client echo_server (u_id req) req unit_empty
    (λ r, [AGuard; ASetResponse r]) [ASetResponse [7]] (hd_set_res [7] (called_holder 0 true)))
    as (w1 & c1 & H1 & Hrest);
    [exact Hch|exact Hch|reflexivity|reflexivity|reflexivity|reflexivity| |by right|reflexivity|
     vm_compute; discriminate|vm_compute; discriminate|].
  { split; [|reflexivity|reflexivity|vm_compute; reflexivity|split; vm_compute; [discriminate|reflexivity]
            |vm_compute; reflexivity|exists (λ _, Some (λ r, [AGuard; ASetResponse r])); by split].
    split; [done| |done]. intros a [k Hk]. cbn in Hk. by rewrite lookup_empty in Hk. }
  exists w1, c1. split; [exact H1|]. destruct (Hrest [w1]) as (s1 & H2 & w2 & s2 & H3 & _ & Hrest2); [apply app_nil_r|].
  exists s1. split; [exact H2|]. exists w2, s2. split; [exact H3|].
  destruct (Hrest2 [w2]) as (c2 & c3 & H4 & H5 & _); [apply app_nil_r|]. exists c2, c3. split; [exact H4|exact H5].
Defined.
