(* ===== verification/Transport.v ===== *)
(** * Transport: writing messages to a stream

    [transport_impl] of [lib/vtrc/common/transport/stream-impl.h], which the TCP,
    SSL, local socket and pipe connections share: messages are posted to a strand,
    which packs them with the low-level protocol of the connection and writes them
    one after the other with asynchronous writes that may take a part only.

    The strand runs its tasks one at a time in the order of the posts, and the
    handler of a write runs in it too, between any two of them.  The stream is the
    environment: it takes some of the bytes it was offered, or reports an error.
    A connection that is gone takes its transport along, so the handlers that find
    their weak pointer dead are not among the steps. *)

From S2P Require Import Prelude SizePack DataQueue Hash Transformer Messages LowLevel.

Record message_holder : Type := Holder { message_ : bytes; closure_ : option nat; on_send_ : bool }.

(** A write the stream has not finished: where it reads from, and [handler_params]. *)
Record write_op : Type := WriteOp { wo_offset : nat; wo_length : nat; wo_total : nat }.

(** [in_flight] lists the writes that are under way, [wire] what the stream took,
    [ran] the closures that were called with the error they were given, [packed]
    the messages as they entered the queue and [posts] every message posted. *)
Record transport (P : Type) : Type := Transport {
  parent_ : P;
  closed_ : bool;
  handle_open : bool;
  write_queue_ : list message_holder;
  write_dispatcher_ : list message_holder;
  in_flight : list write_op;
  wire : bytes;
  ran : list (nat * bool);
  write_errors : nat;
  packed : list message_holder;
  posts : list message_holder
}.
Arguments Transport {P}. Arguments parent_ {P}. Arguments closed_ {P}. Arguments handle_open {P}.
Arguments write_queue_ {P}. Arguments write_dispatcher_ {P}. Arguments in_flight {P}.
Arguments wire {P}. Arguments ran {P}. Arguments write_errors {P}. Arguments packed {P}.
Arguments posts {P}.

Definition transport_new {P} (p : P) : transport P :=
  Transport p false true [] [] [] [] [] 0 [] [].

Section Setters.
Context {P : Type}.
Implicit Types t : transport P.
Definition with_parent (p : P) t : transport P :=
  Transport p (closed_ t) (handle_open t) (write_queue_ t) (write_dispatcher_ t) (in_flight t)
    (wire t) (ran t) (write_errors t) (packed t) (posts t).
Definition with_closed (c h : bool) t : transport P :=
  Transport (parent_ t) c h (write_queue_ t) (write_dispatcher_ t) (in_flight t)
    (wire t) (ran t) (write_errors t) (packed t) (posts t).
Definition with_queue (q : list message_holder) t : transport P :=
  Transport (parent_ t) (closed_ t) (handle_open t) q (write_dispatcher_ t) (in_flight t)
    (wire t) (ran t) (write_errors t) (packed t) (posts t).
Definition with_dispatcher (d : list message_holder) t : transport P :=
  Transport (parent_ t) (closed_ t) (handle_open t) (write_queue_ t) d (in_flight t)
    (wire t) (ran t) (write_errors t) (packed t) (posts t).
Definition with_flight (f : list write_op) (w : bytes) t : transport P :=
  Transport (parent_ t) (closed_ t) (handle_open t) (write_queue_ t) (write_dispatcher_ t) f
    w (ran t) (write_errors t) (packed t) (posts t).
Definition with_ran (r : list (nat * bool)) t : transport P :=
  Transport (parent_ t) (closed_ t) (handle_open t) (write_queue_ t) (write_dispatcher_ t)
    (in_flight t) (wire t) r (write_errors t) (packed t) (posts t).
Definition with_errors (n : nat) t : transport P :=
  Transport (parent_ t) (closed_ t) (handle_open t) (write_queue_ t) (write_dispatcher_ t)
    (in_flight t) (wire t) (ran t) n (packed t) (posts t).
Definition with_packed (l : list message_holder) t : transport P :=
  Transport (parent_ t) (closed_ t) (handle_open t) (write_queue_ t) (write_dispatcher_ t)
    (in_flight t) (wire t) (ran t) (write_errors t) l (posts t).
Definition with_posts (l : list message_holder) t : transport P :=
  Transport (parent_ t) (closed_ t) (handle_open t) (write_queue_ t) (write_dispatcher_ t)
    (in_flight t) (wire t) (ran t) (write_errors t) (packed t) l.
Definition on_parent {A} (m : M P A) : M (transport P) A := λ t,
  let '(r, p) := m (parent_ t) in (r, with_parent p t).
End Setters.

(** What the transport asks of the connection it belongs to: the packing of
    [get_protocol( ).get_lowlevel( )], the closures of the posted messages and the
    handlers of its own events, which may use the transport in turn. *)
Class ConnectionParent (P : Type) : Type := {
  pack : bytes → M P bytes;
  run_closure : nat → bool → M (transport P) unit;
  on_close : M P unit;
  on_write_error : M (transport P) unit
}.

Section Transport.
Context {P : Type} `{ConnectionParent P}.

Definition close : M (transport P) unit :=
  let* t := get in
  if negb (closed_ t) then
    modify (λ t, with_closed true (handle_open t) t) ;;;
    on_parent on_close ;;;
    modify (λ t, with_closed (closed_ t) false t)
  else ret tt.

Definition make_holder (data : bytes) (closure : option nat) (on_send : bool) : message_holder :=
  Holder data closure on_send.

Definition post (h : message_holder) : M (transport P) unit :=
  modify (λ t, with_dispatcher (write_dispatcher_ t ++ [h]) (with_posts (posts t ++ [h]) t)).
Definition write (data : bytes) : M (transport P) unit := post (make_holder data None false).
Definition write_with (data : bytes) (success : nat) (on_send : bool) : M (transport P) unit :=
  post (make_holder data (Some success) on_send).

(** [async_write_some] of [length] bytes of the message at the front. *)
Definition async_write (offset length total : nat) : M (transport P) unit :=
  let* t := get in
  if negb (closed_ t) then
    modify (λ t, with_flight (in_flight t ++ [WriteOp offset length total]) (wire t) t)
  else ret tt.
Definition front : M (transport P) message_holder :=
  let* t := get in
  match write_queue_ t with
  | [] => raise (EUndefined "front of an empty deque")
  | h :: _ => ret h
  end.
Definition async_write_front : M (transport P) unit :=
  let* h := front in
  async_write 0 (length (message_ h)) 0.

Definition call_closure (c : nat) (error : bool) : M (transport P) unit :=
  modify (λ t, with_ran (ran t ++ [(c, error)]) t) ;;;
  run_closure c error.

Definition write_impl (data : message_holder) : M (transport P) unit :=
  let* t := get in
  let empty := bool_decide (write_queue_ t = []) in
  let* m := on_parent (pack (message_ data)) in
  let data := Holder m (closure_ data) (on_send_ data) in
  modify (λ t, with_queue (write_queue_ t ++ [data]) (with_packed (packed t ++ [data]) t)) ;;;
  match closure_ data with
  | Some c => if negb (on_send_ data) then call_closure c false else ret tt
  | None => ret tt
  end ;;;
  if empty then async_write_front else ret tt.

Definition sent_closure (h : message_holder) (error : bool) : M (transport P) unit :=
  match closure_ h with
  | Some c => if on_send_ h then call_closure c error else ret tt
  | None => ret tt
  end.

Definition write_handler (error : bool) (bytes : nat) (params : write_op) : M (transport P) unit :=
  let* top_holder := front in
  if negb error then
    if (bytes <? wo_length params)%nat then
      let total := (wo_total params + bytes)%nat in
      async_write total (length (message_ top_holder) - total) total
    else
      sent_closure top_holder error ;;;
      modify (λ t, with_queue (tail (write_queue_ t)) t) ;;;
      let* t := get in
      if bool_decide (write_queue_ t = []) then ret tt else async_write_front
  else
    sent_closure top_holder error ;;;
    modify (λ t, with_errors (S (write_errors t)) t) ;;;
    on_write_error.

(** ** Steps *)

(** The strand takes its next task. *)
Definition run_task : M (transport P) unit :=
  let* t := get in
  match write_dispatcher_ t with
  | [] => ret tt
  | h :: d => modify (with_dispatcher d) ;;; write_impl h
  end.

(** The stream has taken [bytes] of what the oldest write offered it. *)
Definition complete (error : bool) (bytes : nat) : M (transport P) unit :=
  let* t := get in
  match in_flight t with
  | [] => ret tt
  | op :: f =>
      let* h := front in
      modify (with_flight f (wire t ++ take bytes (drop (wo_offset op) (message_ h)))) ;;;
      write_handler error bytes op
  end.

Inductive step : transport P → transport P → Prop :=
  | step_write data t : step t (write data t).2
  | step_write_with data c on_send t : step t (write_with data c on_send t).2
  | step_close t : step t (close t).2
  | step_task t : step t (run_task t).2
  | step_complete error bytes op f t :
      in_flight t = op :: f → (bytes ≤ wo_length op)%nat → (error = false → (0 < bytes)%nat) →
      step t (complete error bytes t).2.
End Transport.

(** ** What the connection promises *)

(** A computation of the connection may use the transport as anybody may: post
    messages and close it.  It does not throw.  [I] holds of the parent before and
    after and [R] relates the two: what else may happen to it. *)
Record passive {P} (I : P → Prop) (R : relation P) (m : M (transport P) unit) : Prop := {
  pa_ok t : (m t).1 = Ok tt;
  pa_parent t : I (parent_ t) → I (parent_ (m t).2) ∧ R (parent_ t) (parent_ (m t).2);
  pa_queue t : write_queue_ (m t).2 = write_queue_ t;
  pa_flight t : in_flight (m t).2 = in_flight t;
  pa_wire t : wire (m t).2 = wire t;
  pa_ran t : ran (m t).2 = ran t;
  pa_errors t : write_errors (m t).2 = write_errors t;
  pa_packed t : packed (m t).2 = packed t;
  pa_posts t : ∃ ps, write_dispatcher_ (m t).2 = write_dispatcher_ t ++ ps ∧
                     posts (m t).2 = posts t ++ ps;
  pa_closed t : closed_ t = true → closed_ (m t).2 = true
}.

(** Packing succeeds and gives at least the length prefix. *)
Class ParentLaws (P : Type) `{ConnectionParent P} (I : P → Prop) (R : relation P) : Prop := {
  pl_order : PreOrder R;
  pl_pack p m : I p → ∃ w p', pack m p = (Ok w, p') ∧ w ≠ [] ∧ I p';
  pl_closure c e : passive I R (run_closure c e);
  pl_close p : (on_close p).1 = Ok tt ∧ (I p → I (on_close p).2 ∧ R p (on_close p).2);
  pl_error : passive I R on_write_error
}.

(** The messages [hs] were packed one after the other, in this order, by a parent that
    was [p0] at first and is [p] now, which gave [ws]: each is what [pack] made of the
    posted bytes, with the closure of its post.  Between two of them the parent moved
    as [R] allows. *)
Inductive packing {P} `{ConnectionParent P} (R : relation P) (p0 : P) :
    list message_holder → list message_holder → P → Prop :=
  | packing_nil p : R p0 p → packing R p0 [] [] p
  | packing_snoc hs ws p h w p' q :
      packing R p0 hs ws p → pack (message_ h) p = (Ok w, p') → R p' q →
      packing R p0 (hs ++ [h]) (ws ++ [Holder w (closure_ h) (on_send_ h)]) q.

(** ** The invariant *)

Definition front_message {P} (t : transport P) : bytes :=
  match write_queue_ t with [] => [] | h :: _ => message_ h end.

(** The closures that are called when a message is packed, and when it is sent. *)
Definition packed_closure (h : message_holder) : list (nat * bool) :=
  match closure_ h with Some c => if on_send_ h then [] else [(c, false)] | None => [] end.
Definition flushed_closure (error : bool) (h : message_holder) : list (nat * bool) :=
  match closure_ h with Some c => if on_send_ h then [(c, error)] else [] | None => [] end.
Definition failed_closure {P} (t : transport P) : list (nat * bool) :=
  match write_errors t, write_queue_ t with
  | S _, h :: _ => flushed_closure true h
  | _, _ => []
  end.

Lemma passive_ret {P} (I : P → Prop) (R : relation P) `{!Reflexive R} : passive I R (ret tt).
Proof. split; intros t; try done. exists []. by rewrite !app_nil_r. Qed.

Section Invariant.
Context {P : Type} `{ConnectionParent P} {I : P → Prop} {R : relation P} `{!ParentLaws P I R} (p0 : P).
#[local] Existing Instance pl_order.
Implicit Types t : transport P.

Lemma packing_moves hs ws p q : packing R p0 hs ws p → R p q → packing R p0 hs ws q.
Proof.
  intros Hp Hr. inversion Hp; subst.
  - apply packing_nil. by transitivity p.
  - eapply packing_snoc; [done..|]. by transitivity p.
Qed.

(** [fin] are the messages that were sent, [k] how much of the front one was. *)
Definition expected (fin : list message_holder) t : list (nat * bool) :=
  (packed t ≫= packed_closure) ++ (fin ≫= flushed_closure false) ++ failed_closure t.
Record inv_core (fin : list message_holder) (k : nat) (r : list (nat * bool)) t : Prop := {
  ic_parent : I (parent_ t);
  ic_packed : packed t = fin ++ write_queue_ t;
  ic_full : Forall (λ h, message_ h ≠ []) (write_queue_ t);
  ic_wire : wire t = concat (message_ <$> fin) ++ take k (front_message t);
  ic_ran : ran t ≡ₚ r;
  ic_posts : ∃ hs, posts t = hs ++ write_dispatcher_ t ∧ packing R p0 hs (packed t) (parent_ t)
}.

(** At most one write, for exactly the rest of the front message. *)
Definition flight_ok (k : nat) t : Prop :=
  match write_queue_ t with
  | [] => k = 0%nat ∧ in_flight t = [] ∧ write_errors t = 0%nat
  | h :: _ =>
      (k ≤ length (message_ h))%nat ∧
      (in_flight t = [] ∧ (closed_ t = true ∨ write_errors t ≠ 0%nat) ∨
       in_flight t = [WriteOp k (length (message_ h) - k) k] ∧ write_errors t = 0%nat ∧
       (k < length (message_ h))%nat)
  end.

Definition transport_inv t : Prop := ∃ fin k, inv_core fin k (expected fin t) t ∧ flight_ok k t.

Lemma passive_run m t : passive I R m → m t = (Ok tt, (m t).2).
Proof. intros Hm. pose proof (pa_ok I R m Hm t) as Ho. destruct (m t); by simpl in *; subst. Qed.

Lemma passive_core m fin k r t : passive I R m → inv_core fin k r t → inv_core fin k r (m t).2.
Proof.
  intros Hm [H1 H2 H3 H4 H5 H6]. destruct (pa_posts I R m Hm t) as (ps & Hd & Hp).
  split; unfold front_message in *;
    rewrite ?(pa_packed I R m Hm), ?(pa_queue I R m Hm), ?(pa_wire I R m Hm), ?(pa_ran I R m Hm); try done.
  - by apply (pa_parent I R m Hm).
  - destruct H6 as (hs & Hps & Hpk). exists hs. rewrite Hd, Hp, Hps, app_assoc. split; [done|].
    eapply packing_moves; [done|]. by apply (pa_parent I R m Hm).
Qed.

Lemma passive_expected m fin t : passive I R m → expected fin (m t).2 = expected fin t.
Proof.
  intros Hm. unfold expected, failed_closure.
  by rewrite (pa_packed I R m Hm), (pa_errors I R m Hm), (pa_queue I R m Hm).
Qed.

Lemma passive_inv m t : passive I R m → transport_inv t → transport_inv (m t).2.
Proof.
  intros Hm (fin & k & Hc & Hf). exists fin, k. rewrite (passive_expected m) by done.
  split; [by apply passive_core|]. revert Hf. unfold flight_ok.
  rewrite (pa_queue I R m Hm), (pa_flight I R m Hm), (pa_errors I R m Hm).
  pose proof (pa_closed I R m Hm t) as Hcl. destruct (write_queue_ t); [done|]. tauto.
Qed.

Lemma passive_flight m k t : passive I R m → flight_ok k t → flight_ok k (m t).2.
Proof.
  intros Hm. unfold flight_ok. rewrite (pa_queue I R m Hm), (pa_flight I R m Hm), (pa_errors I R m Hm).
  pose proof (pa_closed I R m Hm t) as Hc. destruct (write_queue_ t); [done|].
  intros [Hk [[Hf [Hcl|He]]|Hf]]; split; try done; [|left; tauto|by right].
  left. split; [done|]. left. by apply Hc.
Qed.

Lemma call_closure_eq c e t :
  call_closure c e t = run_closure c e (with_ran (ran t ++ [(c, e)]) t).
Proof. done. Qed.

(** A closure is called: the log grows, the rest is the closure's doing. *)
Definition logged (l : list (nat * bool)) (m : M (transport P) unit) : Prop :=
  ∃ m', passive I R m' ∧ ∀ t, m t = m' (with_ran (ran t ++ l) t).

Lemma logged_ret : logged [] (ret tt).
Proof.
  exists (ret tt). split; [apply passive_ret, _|]. intros []. cbn. unfold with_ran, ret. cbn.
  by rewrite app_nil_r.
Qed.
Lemma logged_call c e : logged [(c, e)] (call_closure c e).
Proof. exists (run_closure c e). split; [apply pl_closure|]. intros t. apply call_closure_eq. Qed.
Lemma logged_sent h e : logged (flushed_closure e h) (sent_closure h e).
Proof.
  unfold sent_closure, flushed_closure. destruct (closure_ h); [|apply logged_ret].
  destruct (on_send_ h); [apply logged_call|apply logged_ret].
Qed.

(** *** Each step *)

Lemma front_eq t h q : write_queue_ t = h :: q → front t = (Ok h, t).
Proof. intros Hq. unfold front, bind, get. cbn. by rewrite Hq. Qed.

(** The front message starts to be written. *)
Lemma async_front_ok fin t :
  inv_core fin 0 (expected fin t) t → in_flight t = [] → write_errors t = 0%nat → write_queue_ t ≠ [] →
  (async_write_front t).1 = Ok tt ∧ transport_inv (async_write_front t).2.
Proof.
  intros Hc Hf He Hq. destruct (write_queue_ t) as [|h q] eqn:E; [done|].
  pose proof (ic_full _ _ _ _ Hc) as Hfull. rewrite E, Forall_cons in Hfull.
  assert (Hl : (0 < length (message_ h))%nat) by (destruct (message_ h); [by destruct Hfull|simpl; lia]).
  unfold async_write_front. erewrite bind_ok by by apply (front_eq t h q).
  unfold async_write, bind, get. destruct (closed_ t) eqn:Ecl; cbn [negb].
  - split; [done|]. exists fin, 0%nat. split; [done|]. unfold flight_ok. cbn. rewrite E.
    split; [cbn; lia|]. left. split; [done|]. by left.
  - split; [done|]. exists fin, 0%nat. split; [destruct Hc; by split|].
    unfold flight_ok. cbn. rewrite E, Hf. split; [lia|]. right.
    split_and!; [|done|done]. cbn. do 2 f_equal. lia.
Qed.

(** A packed message joins the queue and its closure is logged. *)
Definition pushed (p : P) (h : message_holder) (d : list message_holder) t : transport P :=
  Transport p (closed_ t) (handle_open t) (write_queue_ t ++ [h]) d (in_flight t) (wire t)
    (ran t ++ packed_closure h) (write_errors t) (packed t ++ [h]) (posts t).

Lemma pushed_core fin k p h h0 d t :
  inv_core fin k (expected fin t) t → flight_ok k t → write_dispatcher_ t = h0 :: d →
  h = Holder (message_ h) (closure_ h0) (on_send_ h0) → pack (message_ h0) (parent_ t) = (Ok (message_ h), p) →
  message_ h ≠ [] → I p → inv_core fin k (expected fin (pushed p h d t)) (pushed p h d t).
Proof.
  intros [H1 H2 H3 H4 H5 H6] Hf Hd Hl Hpk Hw HI. unfold flight_ok in Hf.
  split; unfold expected, front_message, failed_closure in *; cbn [pushed parent_ packed write_queue_ wire ran
    write_errors write_dispatcher_ posts].
  - done.
  - by rewrite H2, app_assoc.
  - by apply Forall_app_2; [|repeat constructor].
  - rewrite H4. destruct (write_queue_ t); [|done]. destruct Hf as (-> & _). by rewrite !take_0.
  - rewrite H5, bind_app. cbn [mbind list_bind app]. rewrite app_nil_r.
    destruct (write_queue_ t); [|solve_Permutation]. destruct Hf as (_ & _ & ->). solve_Permutation.
  - destruct H6 as (hs & Hps & Hpack). exists (hs ++ [h0]). rewrite Hps, Hd, <-app_assoc. split; [done|].
    rewrite Hl. by eapply packing_snoc.
Qed.

Lemma run_task_eq t :
  run_task t = match write_dispatcher_ t with
               | [] => (Ok tt, t) | h :: d => write_impl h (with_dispatcher d t)
               end.
Proof. unfold run_task, bind, get. cbn. by destruct (write_dispatcher_ t). Qed.
Lemma complete_eq error bytes op f t h q :
  in_flight t = op :: f → write_queue_ t = h :: q →
  complete error bytes t =
    write_handler error bytes op
      (with_flight f (wire t ++ take bytes (drop (wo_offset op) (message_ h))) t).
Proof.
  intros Hf Hq. unfold complete. erewrite bind_ok by reflexivity. rewrite Hf.
  by erewrite bind_ok by by apply (front_eq t h q).
Qed.

Lemma run_task_ok t : transport_inv t → (run_task t).1 = Ok tt ∧ transport_inv (run_task t).2.
Proof.
  intros (fin & k & Hc & Hf). rewrite run_task_eq.
  destruct (write_dispatcher_ t) as [|h d] eqn:Ed; [split; [done|exists fin, k; split; [exact Hc|exact Hf]]|].
  set (t0 := with_dispatcher d t).
  unfold write_impl. erewrite bind_ok by reflexivity.
  destruct (pl_pack (parent_ t) (message_ h) (ic_parent _ _ _ _ Hc)) as (w & p' & Hp & Hw & HI).
  erewrite (bind_ok (on_parent _)).
  2: { unfold on_parent. change (parent_ t0) with (parent_ t). rewrite Hp. reflexivity. }
  erewrite bind_ok by reflexivity. cbn [closure_ on_send_].
  set (h' := Holder w (closure_ h) (on_send_ h)).
  assert (Hlog : logged (packed_closure h') (match closure_ h with
      | Some c => if negb (on_send_ h) then call_closure c false else ret tt | None => ret tt end)).
  { unfold packed_closure. cbn. destruct (closure_ h); [|apply logged_ret].
    destruct (on_send_ h); [apply logged_ret|apply logged_call]. }
  destruct Hlog as (m' & Hm' & Heq).
  erewrite bind_ok.
  2: { rewrite Heq. by apply passive_run. }
  match goal with |- context [m' ?x] => change x with (pushed p' h' d t) end.
  set (t2 := pushed p' h' d t).
  assert (Hc2 : inv_core fin k (expected fin t2) t2) by (by apply (pushed_core fin k p' h' h d t)).
  case_bool_decide as Hq.
  - change (write_queue_ t = []) in Hq. unfold flight_ok in Hf. rewrite Hq in Hf.
    destruct Hf as (-> & Hfl & Herr).
    apply (async_front_ok fin).
    + rewrite passive_expected by done. by apply passive_core.
    + by rewrite (pa_flight I R m' Hm').
    + by rewrite (pa_errors I R m' Hm').
    + rewrite (pa_queue I R m' Hm'). unfold t2. cbn. rewrite Hq. discriminate.
  - split; [done|]. apply (passive_inv m' t2 Hm'). exists fin, k. split; [done|].
    change (write_queue_ t ≠ []) in Hq. unfold flight_ok in *. unfold t2. cbn.
    destruct (write_queue_ t); [done|exact Hf].
Qed.

(** The stream reports on the write that is under way. *)
Section Complete.
Context (fin : list message_holder) (k : nat) (h : message_holder) (q : list message_holder).
Context (t1 : transport P).
Hypothesis (Hq : write_queue_ t1 = h :: q) (Hfl : in_flight t1 = []) (He : write_errors t1 = 0%nat).
Abbreviation len := (length (message_ h)).

Lemma failed_ok op bytes :
  inv_core fin k (expected fin t1) t1 → (k ≤ len)%nat →
  (write_handler true bytes op t1).1 = Ok tt ∧ transport_inv (write_handler true bytes op t1).2.
Proof.
  intros Hc Hk. unfold write_handler. erewrite bind_ok by by apply (front_eq t1 h q). cbn [negb].
  destruct (logged_sent h true) as (m' & Hm' & Heq).
  erewrite bind_ok by by rewrite Heq; apply passive_run. erewrite bind_ok by reflexivity.
  set (t2 := with_ran _ t1). split; [apply (pa_ok I R _ pl_error)|].
  apply (passive_inv _ _ pl_error).
  assert (Hex : expected fin (with_errors (S (write_errors (m' t2).2)) (m' t2).2) =
    expected fin t1 ++ flushed_closure true h).
  { unfold expected, failed_closure. cbn. rewrite (pa_packed I R m' Hm'), (pa_queue I R m' Hm'). cbn.
    by rewrite Hq, He, app_nil_r, app_assoc. }
  exists fin, k. rewrite Hex. split.
  - assert (Hc2 : inv_core fin k (expected fin t1 ++ flushed_closure true h) (m' t2).2).
    { apply passive_core; [done|]. destruct Hc as [H1 H2 H3 H4 H5 H6]. split; try done. cbn. by rewrite H5. }
    destruct Hc2. by split.
  - unfold flight_ok. cbn. rewrite (pa_queue I R m' Hm'), (pa_flight I R m' Hm'). cbn. rewrite Hq, Hfl.
    split; [done|]. left. split; [done|]. by right.
Qed.

Lemma partly_ok bytes op :
  inv_core fin (k + bytes) (expected fin t1) t1 → wo_total op = k → wo_length op = (len - k)%nat →
  (bytes < len - k)%nat →
  (write_handler false bytes op t1).1 = Ok tt ∧ transport_inv (write_handler false bytes op t1).2.
Proof.
  intros Hc Ht Hl Hb. unfold write_handler. erewrite bind_ok by by apply (front_eq t1 h q). cbn [negb].
  rewrite Hl, Ht. rewrite (proj2 (Nat.ltb_lt _ _) Hb).
  unfold async_write, bind, get. cbn. destruct (closed_ t1) eqn:Ecl; cbn; (split; [done|]);
    exists fin, (k + bytes)%nat.
  - split; [done|]. unfold flight_ok. rewrite Hq. split; [cbn; lia|]. left. split; [done|]. by left.
  - split; [destruct Hc; by split|]. unfold flight_ok. cbn. rewrite Hq, Hfl. split; [lia|]. right.
    split_and!; [done|done|lia].
Qed.

Lemma flushed_ok bytes op :
  inv_core fin len (expected fin t1) t1 → (wo_length op ≤ bytes)%nat →
  (write_handler false bytes op t1).1 = Ok tt ∧ transport_inv (write_handler false bytes op t1).2.
Proof.
  intros Hc Hl. unfold write_handler. erewrite bind_ok by by apply (front_eq t1 h q). cbn [negb].
  rewrite (proj2 (Nat.ltb_ge _ _) Hl).
  destruct (logged_sent h false) as (m' & Hm' & Heq).
  erewrite bind_ok by by rewrite Heq; apply passive_run. erewrite bind_ok by reflexivity.
  erewrite bind_ok by reflexivity. set (t2 := with_ran _ t1).
  assert (Hq2 : write_queue_ (m' t2).2 = h :: q) by by rewrite (pa_queue I R m' Hm').
  rewrite Hq2. cbn [tail]. set (t3 := with_queue q (m' t2).2).
  assert (Hc3 : inv_core (fin ++ [h]) 0 (expected (fin ++ [h]) t3) t3).
  { assert (Hex : expected (fin ++ [h]) t3 ≡ₚ expected fin t1 ++ flushed_closure false h).
    { unfold expected, failed_closure. cbn. rewrite (pa_packed I R m' Hm'), (pa_errors I R m' Hm'). cbn.
      rewrite He, bind_app. cbn. solve_Permutation. }
    assert (Hc2 : inv_core fin len (expected fin t1 ++ flushed_closure false h) (m' t2).2).
    { apply passive_core; [done|]. destruct Hc as [H1 H2 H3 H4 H5 H6]. split; try done. cbn. by rewrite H5. }
    destruct Hc2 as [H1 H2 H3 H4 H5 H6]. rewrite Hq2 in H2, H3. unfold front_message in H4.
    rewrite Hq2, take_ge in H4 by done. split; try done.
    - cbn. rewrite H2. by rewrite <-app_assoc.
    - by apply Forall_cons in H3 as [_ H3].
    - cbn. rewrite H4, fmap_app, concat_app. cbn. by rewrite take_0, !app_nil_r.
    - change (ran (m' t2).2 ≡ₚ expected (fin ++ [h]) t3). by rewrite H5, Hex. }
  case_bool_decide as Hq3.
  - change (q = []) in Hq3. split; [done|]. exists (fin ++ [h]), 0%nat. split; [done|].
    unfold flight_ok, t3. cbn. rewrite Hq3. by rewrite (pa_flight I R m' Hm'), (pa_errors I R m' Hm').
  - apply (async_front_ok (fin ++ [h])); [done| | |done]; cbn.
    + by rewrite (pa_flight I R m' Hm').
    + by rewrite (pa_errors I R m' Hm').
Qed.
End Complete.

Lemma complete_ok error bytes op f t :
  transport_inv t → in_flight t = op :: f → (bytes ≤ wo_length op)%nat →
  (complete error bytes t).1 = Ok tt ∧ transport_inv (complete error bytes t).2.
Proof.
  intros (fin & k & Hc & Hf) Hfl Hb. unfold flight_ok in Hf. rewrite Hfl in Hf.
  destruct (write_queue_ t) as [|h q] eqn:Eq; [by destruct Hf as (_ & ? & _)|].
  destruct Hf as [_ [[? _]|(Hop & He & Hk)]]; [done|]. simplify_eq. cbn [wo_length] in Hb.
  rewrite (complete_eq error bytes _ _ t h q Hfl Eq). cbn [wo_offset]. set (t1 := with_flight _ _ t).
  assert (Hc1 : inv_core fin (k + bytes) (expected fin t1) t1).
  { assert (Hf1 : front_message t = message_ h) by (unfold front_message; by rewrite Eq).
    destruct Hc as [H1 H2 H3 H4 H5 H6]. split; try done. cbn.
    change (front_message t1) with (front_message t).
    rewrite H4, Hf1, <-app_assoc. f_equal. by rewrite take_take_drop. }
  destruct error; [by apply (failed_ok fin (k + bytes) h q); [..|done|lia]|].
  destruct (decide (bytes < length (message_ h) - k)%nat) as [Hlt|Hge].
  - by apply (partly_ok fin k h q).
  - apply (flushed_ok fin h q); [done..| |cbn; lia].
    by replace (length (message_ h)) with (k + bytes)%nat by lia.
Qed.
End Invariant.

(** ** Every reachable state *)

Section Reachable.
Context {P : Type} `{ConnectionParent P} {I : P → Prop} {R : relation P} `{!ParentLaws P I R} (p0 : P).
#[local] Existing Instance pl_order.
Implicit Types t : transport P.

Lemma new_inv : I p0 → transport_inv (I := I) (R := R) p0 (transport_new p0).
Proof.
  intros HI. pose proof (pl_order (R := R)). exists [], 0%nat. split; [|done]. split; try done.
  exists []. split; [done|]. by apply packing_nil.
Qed.

Lemma post_inv h t : transport_inv (I := I) (R := R) p0 t → transport_inv (I := I) (R := R) p0 (post h t).2.
Proof.
  intros (fin & k & [H1 H2 H3 H4 H5 H6] & Hf). exists fin, k. split; [|done].
  split; try done. destruct H6 as (hs & Hps & Hpk). exists hs. cbn. split; [|done].
  by rewrite Hps, app_assoc.
Qed.

Lemma close_inv t : transport_inv (I := I) (R := R) p0 t → transport_inv (I := I) (R := R) p0 (close t).2.
Proof.
  intros (fin & k & Hc & Hf). unfold close, bind at 1, get. destruct (closed_ t) eqn:Ecl; cbn [negb].
  { exists fin, k. by split. }
  erewrite bind_ok by reflexivity. destruct (pl_close (parent_ t)) as [Hok HI].
  unfold bind, on_parent. cbn. destruct (on_close (parent_ t)) as [r p]. cbn in *. subst r.
  exists fin, k. split.
  - destruct Hc as [H1 H2 H3 H4 H5 H6]. destruct (HI H1) as [HI' HR]. split; try done.
    destruct H6 as (hs & Hps & Hpk). exists hs. split; [done|]. by eapply packing_moves.
  - unfold flight_ok in *. cbn. destruct (write_queue_ t); [done|]. tauto.
Qed.

Lemma step_inv_transport t t' : step t t' → transport_inv (I := I) (R := R) p0 t → transport_inv (I := I) (R := R) p0 t'.
Proof.
  destruct 1 as [d t|d c s t|t|t|e n op f t Hfl Hn _]; intros Hi.
  - by apply post_inv.
  - by apply post_inv.
  - by apply close_inv.
  - by apply run_task_ok.
  - by eapply complete_ok.
Qed.

Lemma reachable_transport t : I p0 → rtc step (transport_new p0) t → transport_inv (I := I) (R := R) p0 t.
Proof.
  intros HI Hs. pose proof (new_inv HI) as Hi. induction Hs as [|t t1 t2 Hst _ IH]; [done|].
  by apply IH, (step_inv_transport t).
Qed.

(** How many bytes of the packed messages the stream has not taken. *)
Definition unsent t : nat := length (concat (message_ <$> packed t)) - length (wire t).

(** The stream takes what it likes of each write, at least a byte. *)
Definition bite (chunk : nat → nat) (fuel : nat) (op : write_op) : nat :=
  Nat.max 1 (Nat.min (chunk fuel) (wo_length op)).
Fixpoint flush (chunk : nat → nat) (fuel : nat) : M (transport P) unit :=
  match fuel with
  | O => ret tt
  | S fuel =>
      let* t := get in
      match in_flight t with
      | [] => ret tt
      | op :: _ => complete false (bite chunk fuel op) ;;; flush chunk fuel
      end
  end.

(** What a handler without an error leaves alone. *)
Definition apart (w : bytes) (l : list message_holder) t : Prop :=
  wire t = w ∧ packed t = l ∧ write_errors t = 0%nat.

Lemma apart_async w l o n k : keeps (apart w l) (async_write (P := P) o n k).
Proof.
  unfold async_write. apply keeps_bind; [apply keeps_get|intros t].
  apply keeps_if; [by apply keeps_modify|apply keeps_ret].
Qed.
Lemma apart_front w l : keeps (apart w l) (front (P := P)).
Proof.
  unfold front. apply keeps_bind; [apply keeps_get|intros t].
  destruct (write_queue_ t); [apply keeps_raise|apply keeps_ret].
Qed.
Lemma apart_sent w l h e : keeps (apart w l) (sent_closure h e).
Proof.
  intros t (Hw & Hl & He). destruct (logged_sent (I := I) (R := R) h e) as (m' & Hm' & Heq). rewrite Heq.
  unfold apart. by rewrite (pa_wire I R m' Hm'), (pa_packed I R m' Hm'), (pa_errors I R m' Hm').
Qed.
Lemma apart_handler w l n op : keeps (apart w l) (write_handler false n op).
Proof.
  unfold write_handler. apply keeps_bind; [apply apart_front|intros h]. cbn [negb].
  apply keeps_if; [apply apart_async|].
  apply keeps_bind; [apply apart_sent|intros _]. apply keeps_bind; [by apply keeps_modify|intros _].
  apply keeps_bind; [apply keeps_get|intros t]. apply keeps_if; [apply keeps_ret|].
  apply keeps_bind; [apply apart_front|intros h']. apply apart_async.
Qed.

(** A write that is under way has a byte to give, and takes it from the front. *)
Lemma flight_step t op f n :
  transport_inv (I := I) (R := R) p0 t → in_flight t = op :: f → (n ≤ wo_length op)%nat →
  (0 < wo_length op ≤ unsent t)%nat ∧ unsent (complete false n t).2 = (unsent t - n)%nat ∧
  packed (complete false n t).2 = packed t ∧ write_errors (complete false n t).2 = 0%nat.
Proof.
  intros (fin & k & [H1 H2 H3 H4 H5 H6] & Hf) Hfl Hn. unfold flight_ok in Hf. rewrite Hfl in Hf.
  unfold front_message in H4.
  destruct (write_queue_ t) as [|h q] eqn:Eq; [by destruct Hf as (_ & ? & _)|].
  destruct Hf as [_ [[? _]|(Hop & He & Hk)]]; [done|]. simplify_eq. cbn [wo_length] in *.
  rewrite (complete_eq false n _ _ t h q Hfl Eq). cbn [wo_offset].
  match goal with |- context [with_flight [] ?w t] =>
    destruct (apart_handler w (packed t) n (WriteOp k (length (message_ h) - k) k)
      (with_flight [] w t) (conj eq_refl (conj eq_refl He))) as (Hw & Hp & He') end.
  unfold unsent. rewrite Hw, Hp, He', H2, H4, fmap_app, concat_app. cbn.
  rewrite !length_app, !length_take, length_drop. split_and!; (done || lia).
Qed.

Lemma complete_inv t op f n :
  transport_inv (I := I) (R := R) p0 t → in_flight t = op :: f → (n ≤ wo_length op)%nat →
  (complete false n t).1 = Ok tt ∧ transport_inv (I := I) (R := R) p0 (complete false n t).2.
Proof. intros Hi Hf Hn. by eapply complete_ok. Qed.

Lemma bite_bound chunk fuel op :
  (0 < wo_length op)%nat → (0 < bite chunk fuel op ≤ wo_length op)%nat.
Proof. unfold bite. lia. Qed.

Lemma flush_ok chunk fuel t :
  transport_inv (I := I) (R := R) p0 t → write_errors t = 0%nat → (unsent t ≤ fuel)%nat →
  let '(r, t') := flush chunk fuel t in
  r = Ok tt ∧ transport_inv (I := I) (R := R) p0 t' ∧ in_flight t' = [] ∧ packed t' = packed t ∧
  write_errors t' = 0%nat.
Proof.
  revert t. induction fuel as [|fuel IH]; intros t Hi He Hu; cbn [flush].
  - split_and!; try done. destruct (in_flight t) as [|op f] eqn:Hf; [done|].
    destruct (flight_step t op f 0 Hi Hf ltac:(lia)) as (Hb & _). exfalso. lia.
  - erewrite bind_ok by reflexivity. destruct (in_flight t) as [|op f] eqn:Hf; [done|].
    assert (Hl : (0 < wo_length op)%nat) by (apply (flight_step t op f 0 Hi Hf); lia).
    pose proof (bite_bound chunk fuel op Hl) as Hb. set (n := bite chunk fuel op) in *.
    destruct (flight_step t op f n Hi Hf ltac:(lia)) as (_ & Hun & Hp & He').
    destruct (complete_inv t op f n Hi Hf ltac:(lia)) as [Hok Hi'].
    unfold bind. destruct (complete false n t) as [r t1]. cbn [fst snd] in *. subst r.
    specialize (IH t1 Hi' He' ltac:(lia)). destruct (flush chunk fuel t1) as [r t']. by rewrite <-Hp.
Qed.
End Reachable.

(** ** The connections *)

(** The connections of the servers and the clients, whose protocol packs with
    [lowlevel::default_protocol].  [protocol_close] and [protocol_error] are what
    the RPC layer does about the end of the connection and about an error. *)
Section Connections.
Context (closures : nat → bool → M (transport default_protocol) unit).
Context (protocol_close : M default_protocol unit) (protocol_error : M default_protocol unit).

(** The protocol layer hears of the error, then the connection is closed. *)
Definition report_and_close : M (transport default_protocol) unit :=
  on_parent protocol_error ;;;
  close (H := {| pack := pack_message; run_closure := closures; on_close := protocol_close;
                 on_write_error := ret tt |}).
(** [connection_impl::on_write_error] of the server. *)
Definition server_connection : ConnectionParent default_protocol := {|
  pack := pack_message;
  run_closure := closures;
  on_close := protocol_close;
  on_write_error := report_and_close
|}.
(** [client_tcp::on_write_error], and that of the other clients: what
    [client_stream_impl::on_write_error] does, and [close( )]. *)
Definition client_connection : ConnectionParent default_protocol := {|
  pack := pack_message;
  run_closure := closures;
  on_close := protocol_close;
  on_write_error := report_and_close
|}.
End Connections.

(** A protocol that can pack. *)
Definition packs (p : default_protocol) : Prop :=
  (∃ h, hash_maker_ p = Some h ∧ HashLaws h) ∧ transformer_ok (transformer_ p).

Lemma pack_message_packs p m :
  packs p → ∃ w p', pack_message m p = (Ok w, p') ∧ w ≠ [] ∧ packs p'.
Proof.
  intros [(h & Hh & Hl) Ht].
  destruct (transform_laws (transformer_ p) (get_data_hash h m ++ m) Ht) as (w & t' & Hw & _ & _ & Ht' & _).
  eexists _, _. split_and!.
  - unfold pack_message, pack_message_impl. erewrite bind_ok by reflexivity. rewrite Hh.
    erewrite bind_ok by reflexivity. cbv zeta. rewrite Hw. erewrite bind_ok by reflexivity. reflexivity.
  - intros Hn. apply app_eq_nil in Hn as [Hn _].
    pose proof (sp_pack_length (P := varint_policy) (u64 (blen m + Hash.size h))
      (wrap_range 64 _ ltac:(lia))) as [Hs _].
    change (sp_pack (SizePolicy := varint_policy) ?n) with (varint_pack_size n) in Hs.
    rewrite Hn in Hs. unfold blen in Hs. simpl in Hs. lia.
  - split; [|done]. by exists h.
Qed.

Section Passive.
Context {P : Type} (I : P → Prop) (R : relation P) `{!PreOrder R}.

Lemma passive_bind (m n : M (transport P) unit) : passive I R m → passive I R n → passive I R (m ;;; n).
Proof.
  intros Hm Hn. split; intros t; unfold bind; rewrite (passive_run m t Hm).
  - apply (pa_ok I R n Hn).
  - intros Hi. destruct (pa_parent I R m Hm t Hi) as [Hi1 Hr1].
    destruct (pa_parent I R n Hn _ Hi1) as [Hi2 Hr2]. split; [done|]. by etransitivity.
  - by rewrite (pa_queue I R n Hn), (pa_queue I R m Hm).
  - by rewrite (pa_flight I R n Hn), (pa_flight I R m Hm).
  - by rewrite (pa_wire I R n Hn), (pa_wire I R m Hm).
  - by rewrite (pa_ran I R n Hn), (pa_ran I R m Hm).
  - by rewrite (pa_errors I R n Hn), (pa_errors I R m Hm).
  - by rewrite (pa_packed I R n Hn), (pa_packed I R m Hm).
  - destruct (pa_posts I R m Hm t) as (ps & Hd & Hp), (pa_posts I R n Hn (m t).2) as (qs & Hd' & Hp').
    exists (ps ++ qs). by rewrite Hd', Hd, Hp', Hp, !app_assoc.
  - intros Hc. by apply (pa_closed I R n Hn), (pa_closed I R m Hm).
Qed.

Lemma passive_post h : passive I R (post h).
Proof. split; intros t; try done. by exists [h]. Qed.

Lemma passive_on_parent (m : M P unit) :
  (∀ p, (m p).1 = Ok tt ∧ (I p → I (m p).2 ∧ R p (m p).2)) → passive I R (on_parent m).
Proof.
  intros Hm. split; intros t; unfold on_parent; destruct (Hm (parent_ t)) as [Ho Hi];
    destruct (m (parent_ t)) as [r p]; cbn in *; try done.
  exists []. by rewrite !app_nil_r.
Qed.

Lemma passive_close `{ConnectionParent P} :
  (∀ p, (on_close p).1 = Ok tt ∧ (I p → I (on_close p).2 ∧ R p (on_close p).2)) → passive I R close.
Proof.
  intros Hm. split; intros t; unfold close, bind, get, modify, on_parent; destruct (closed_ t) eqn:Ec;
    cbn; try done; try (exists []; by rewrite !app_nil_r);
    destruct (Hm (parent_ t)) as [Ho Hi]; destruct (on_close (parent_ t)) as [r p];
    cbn in *; subst r; cbn; try done.
  exists []. by rewrite !app_nil_r.
Qed.
End Passive.

Section ConnectionLaws.
Context (closures : nat → bool → M (transport default_protocol) unit).
Context (protocol_close : M default_protocol unit) (protocol_error : M default_protocol unit).
Context (R : relation default_protocol) `{!PreOrder R}.
Hypothesis (Hclosures : ∀ c e, passive packs R (closures c e)).
Hypothesis (Hclose : ∀ p, (protocol_close p).1 = Ok tt ∧ (packs p → packs (protocol_close p).2 ∧ R p (protocol_close p).2)).
Hypothesis (Herror : ∀ p, (protocol_error p).1 = Ok tt ∧ (packs p → packs (protocol_error p).2 ∧ R p (protocol_error p).2)).

Lemma report_and_close_passive :
  passive packs R (report_and_close closures protocol_close protocol_error).
Proof. apply passive_bind; [done|by apply passive_on_parent|by apply passive_close]. Qed.
Lemma server_connection_laws :
  ParentLaws (H := server_connection closures protocol_close protocol_error) default_protocol packs R.
Proof.
  split; [done|..].
  - intros p m Hp. by apply pack_message_packs.
  - exact Hclosures.
  - exact Hclose.
  - apply report_and_close_passive.
Qed.
Lemma client_connection_laws :
  ParentLaws (H := client_connection closures protocol_close protocol_error) default_protocol packs R.
Proof.
  split; [done|..].
  - intros p m Hp. by apply pack_message_packs.
  - exact Hclosures.
  - exact Hclose.
  - apply report_and_close_passive.
Qed.
End ConnectionLaws.

(** ** Properties *)

(** C8 (invariant). Whatever is posted, whenever the strand runs and however much of
    each write the stream takes: the messages the strand has taken are the first of
    the posts, and they were packed one after the other in the order of the posts, each
    from its own bytes and each by the parent as the one before left it; the stream has
    taken a prefix of what the packing gave, end to end, there is at most one write
    under way, and a transport that is open and has seen no error has no write under
    way only when everything packed has been taken. *)
Theorem stream_order {P} `{ConnectionParent P} {I : P → Prop} {R : relation P} `{!ParentLaws P I R} (p : P)
    (t : transport P) :
  I p → rtc step (transport_new p) t →
  (∃ hs, posts t = hs ++ write_dispatcher_ t ∧ packing R p hs (packed t) (parent_ t)) ∧
  wire t `prefix_of` concat (message_ <$> packed t) ∧
  (length (in_flight t) ≤ 1)%nat ∧
  (closed_ t = false → write_errors t = 0%nat → in_flight t = [] →
   wire t = concat (message_ <$> packed t)).
Proof.
  intros HI Hs. destruct (reachable_transport p t HI Hs) as (fin & k & [_ H2 _ H4 _ H6] & Hf).
  unfold front_message in H4. unfold flight_ok in Hf.
  assert (Hall : concat (message_ <$> packed t) =
    concat (message_ <$> fin) ++ concat (message_ <$> write_queue_ t)).
  { by rewrite H2, fmap_app, concat_app. }
  rewrite H4, Hall. split_and!; [done| | |]; destruct (write_queue_ t) as [|h q].
  - rewrite take_nil. apply prefix_app, prefix_nil.
  - apply prefix_app. cbn. exists (drop k (message_ h) ++ concat (message_ <$> q)).
    by rewrite app_assoc, take_drop.
  - destruct Hf as (_ & -> & _). cbn. lia.
  - destruct Hf as (_ & [(-> & _)|(-> & _)]); cbn; lia.
  - intros _ _ _. by rewrite take_nil.
  - destruct Hf as (_ & [(_ & [?|?])|(-> & _)]); [congruence|congruence|done].
Qed.

(** With the protocol of the connections, and closures and error handlers that leave its
    sending side alone, the stream takes a prefix of what [send_all] makes of the posts:
    the stream that [LowLevel.reliable_channel] starts from. *)
Definition sender_kept (p q : default_protocol) : Prop :=
  hash_maker_ p = hash_maker_ q ∧ transformer_ p = transformer_ q.
#[export] Instance sender_kept_order : PreOrder sender_kept.
Proof. split; [by split|]. intros p q r [? ?] [? ?]. split; congruence. Qed.

Lemma pack_kept m p q w p' : sender_kept p q → pack_message m p = (Ok w, p') →
  ∃ q', pack_message m q = (Ok w, q') ∧ sender_kept p' q'.
Proof.
  intros [Hh Ht]. unfold pack_message, pack_message_impl, bind, get, modify, deref, ret, raise.
  rewrite <-Hh. destruct (hash_maker_ p) as [h|] eqn:Eh; [|done]. rewrite <-Ht.
  destruct (transform _ _) as [[x t]|]; [|done]. intros [= <- <-]. eexists. split; [done|].
  by split; cbn; congruence.
Qed.

Lemma send_all_snoc ms m p w q w' q' :
  send_all ms p = (Ok w, q) → pack_message m q = (Ok w', q') → send_all (ms ++ [m]) p = (Ok (w ++ w'), q').
Proof.
  revert p w. induction ms as [|x ms IH]; intros p w; cbn [send_all app].
  - intros [= <- <-] Hm. rewrite (bind_ok _ _ _ _ _ Hm). unfold bind, ret. by rewrite app_nil_r.
  - unfold bind at 1. destruct (pack_message x p) as [[wx|e] p1] eqn:Ex; [|done].
    unfold bind at 1. destruct (send_all ms p1) as [[ws|e] p2] eqn:Es; [|done].
    intros [= <- <-] Hm. rewrite (bind_ok _ _ _ _ _ Ex), (bind_ok _ _ _ _ _ (IH _ _ Es Hm)).
    unfold ret. by rewrite app_assoc.
Qed.

Lemma packing_sends `{CP : ConnectionParent default_protocol} p0 hs ws p :
  (∀ m q, pack m q = pack_message m q) → packing sender_kept p0 hs ws p →
  ∃ q, send_all (message_ <$> hs) p0 = (Ok (concat (message_ <$> ws)), q) ∧ sender_kept q p.
Proof.
  intros Hpack. induction 1 as [p Hr|hs ws p h w p' q _ (q1 & Hs & Hk) Hp Hr]; [by exists p0|].
  rewrite Hpack in Hp. destruct (pack_kept _ _ q1 _ _ ltac:(by split; destruct Hk) Hp) as (q2 & Hq2 & Hk2).
  exists q2. rewrite !fmap_app, concat_app. cbn. rewrite app_nil_r. split.
  - by apply (send_all_snoc _ _ _ _ q1).
  - destruct Hk2, Hr. split; congruence.
Qed.

Theorem stream_is_send_all `{CP : ConnectionParent default_protocol} {I : default_protocol → Prop}
    `{!ParentLaws default_protocol I sender_kept} p t :
  (∀ m q, pack m q = pack_message m q) → I p → rtc step (transport_new p) t →
  ∃ hs w q, posts t = hs ++ write_dispatcher_ t ∧ send_all (message_ <$> hs) p = (Ok w, q) ∧
    wire t `prefix_of` w.
Proof.
  intros Hpack HI Hs. destruct (reachable_transport p t HI Hs) as (fin & k & [_ H2 _ H4 _ (hs & Hp & Hk)] & _).
  destruct (packing_sends _ _ _ _ Hpack Hk) as (q & Hsend & _). exists hs, (concat (message_ <$> packed t)), q.
  split_and!; [done|done|]. rewrite H4, H2, fmap_app, concat_app. apply prefix_app. unfold front_message.
  destruct (write_queue_ t) as [|h l]; [rewrite take_nil; apply prefix_nil|]. cbn.
  exists (drop k (message_ h) ++ concat (message_ <$> l)). by rewrite app_assoc, take_drop.
Qed.

(** Every closure is called exactly as often as its message asks for:
    those that wait for the packing once when their message is packed, those that
    wait for the sending once when the last byte of their message was taken or, with
    the error, when the write of their message failed. *)
Theorem closures_called {P} `{ConnectionParent P} {I : P → Prop} {R : relation P} `{!ParentLaws P I R} (p : P)
    (t : transport P) :
  I p → rtc step (transport_new p) t →
  ∃ sent, packed t = sent ++ write_queue_ t ∧
    (length (concat (message_ <$> sent)) ≤ length (wire t))%nat ∧
    ran t ≡ₚ (packed t ≫= packed_closure) ++ (sent ≫= flushed_closure false) ++ failed_closure t.
Proof.
  intros HI Hs. destruct (reachable_transport p t HI Hs) as (fin & k & [_ H2 _ H4 H5 _] & _).
  exists fin. split_and!; [done| |done]. rewrite H4, length_app. lia.
Qed.

(** C12 (termination). As long as the stream takes at least a byte of each write it
    reports on, the writes come to an end within as many reports as bytes were left,
    with nothing thrown; if nobody closed the transport meanwhile, the stream has
    then taken every packed message completely and every closure of theirs was
    called, without an error. *)
Theorem writes_finish {P} `{ConnectionParent P} {I : P → Prop} {R : relation P} `{!ParentLaws P I R} (p : P)
    (t : transport P) (chunk : nat → nat) :
  I p → rtc step (transport_new p) t → write_errors t = 0%nat →
  let '(r, t') := flush chunk (unsent t) t in
  r = Ok tt ∧ in_flight t' = [] ∧ packed t' = packed t ∧
  (closed_ t' = false →
   wire t' = concat (message_ <$> packed t) ∧
   ran t' ≡ₚ (packed t ≫= packed_closure) ++ (packed t ≫= flushed_closure false)).
Proof.
  intros HI Hs He.
  pose proof (flush_ok p chunk (unsent t) t (reachable_transport p t HI Hs) He (le_n _)) as Hok.
  destruct (flush chunk (unsent t) t) as [r t']. destruct Hok as (Hr & Hi & Hf & Hp & He').
  split_and!; try done. intros Hc. destruct Hi as (fin & k & [_ H2 _ H4 H5 _] & Hfl).
  unfold flight_ok in Hfl. unfold expected, failed_closure in H5. unfold front_message in H4.
  rewrite Hf, Hc, He' in Hfl. rewrite He', Hp in H5. rewrite Hp in H2.
  destruct (write_queue_ t') as [|h q].
  - rewrite app_nil_r in H2. subst fin. rewrite take_nil, app_nil_r in H4. by rewrite app_nil_r in H5.
  - destruct Hfl as (_ & [(_ & [?|?])|(? & _)]); done.
Qed.

(** *** Witnesses *)

(** A server whose first closure posts a message and whose others close. *)
Definition example_closures (c : nat) (_ : bool) : M (transport default_protocol) unit :=
  match c with O => post (make_holder [9; 9] None false) | _ => ret tt end.
#[local] Instance example_parent : ConnectionParent default_protocol :=
  server_connection example_closures (ret tt) (ret tt).
#[local] Instance example_laws : ParentLaws default_protocol packs sender_kept.
Proof.
  apply server_connection_laws; [apply _| |done..].
  intros [|c] e; [apply passive_post|apply passive_ret]; apply _.
Qed.
Lemma example_packs : packs default_protocol_new.
Proof. split; [|done]. eexists. split; [reflexivity|apply _]. Qed.

(** One message posted, packed and partly taken. *)
Definition example_transport : transport default_protocol :=
  (complete false 2 (run_task (write_with [1; 2; 3] 0 true
     (transport_new default_protocol_new)).2).2).2.
Lemma example_reachable : rtc step (transport_new default_protocol_new) example_transport.
Proof.
  eapply rtc_l; [apply (step_write_with [1; 2; 3] 0 true)|].
  eapply rtc_l; [apply step_task|].
  eapply rtc_l; [|apply rtc_refl].
  eapply (step_complete false 2); [reflexivity|vm_compute; lia|lia].
Qed.

Lemma stream_order_witness :
  packing sender_kept default_protocol_new [make_holder [1; 2; 3] (Some 0%nat) true]
    (packed example_transport) (parent_ example_transport) ∧
  wire example_transport `prefix_of` concat (message_ <$> packed example_transport).
Proof.
  destruct (stream_order (I := packs) (R := sender_kept) default_protocol_new _ example_packs example_reachable)
    as ((hs & Hp & Hk) & Hw & _).
  change (posts example_transport) with ([make_holder [1; 2; 3] (Some 0%nat) true] ++ []) in Hp.
  change (write_dispatcher_ example_transport) with (@nil message_holder) in Hp. apply app_inv_tail in Hp as <-.
  split; [exact Hk|exact Hw].
Defined.

Lemma stream_is_send_all_witness : ∃ w q, send_all [[1; 2; 3]] default_protocol_new = (Ok w, q) ∧
  wire example_transport `prefix_of` w.
Proof.
  destruct (stream_is_send_all (CP := example_parent) (I := packs) default_protocol_new _ (λ _ _, eq_refl) example_packs example_reachable)
    as (hs & w & q & Hp & Hs & Hw).
  change (posts example_transport) with ([make_holder [1; 2; 3] (Some 0%nat) true] ++ []) in Hp.
  change (write_dispatcher_ example_transport) with (@nil message_holder) in Hp. apply app_inv_tail in Hp as <-.
  by exists w, q.
Defined.

Lemma closures_called_witness : ∃ sent, packed example_transport = sent ++ write_queue_ example_transport.
Proof.
  destruct (closures_called default_protocol_new _ example_packs example_reachable) as (sent & Hs & _).
  exists sent. exact Hs.
Defined.

Lemma writes_finish_witness :
  let t' := (flush (λ _, 1%nat) (unsent example_transport) example_transport).2 in
  in_flight t' = [] ∧ ran t' = [(0%nat, false)] ∧ write_dispatcher_ t' ≠ [].
Proof.
  intros t'.
  pose proof (writes_finish default_protocol_new example_transport (λ _, 1%nat) example_packs
    example_reachable eq_refl) as Hw.
  assert (Ht : flush (λ _, 1%nat) (unsent example_transport) example_transport =
    ((flush (λ _, 1%nat) (unsent example_transport) example_transport).1, t')).
  { apply surjective_pairing. }
  rewrite Ht in Hw. destruct Hw as (_ & Hf & _). split_and!; [exact Hf|reflexivity|discriminate].
Defined.
