(* ===== verification/RpcChannel.v ===== *)
(** * RpcChannel: calling a remote method

    [lib/vtrc/common/rpc-channel.cpp], the client's channel of
    [lib/vtrc/client/rpc-channel-c.cpp] and the channels of
    [lib/vtrc/server/channels.cpp]: how a call becomes a message, how the caller
    waits over its slot while it serves the callbacks of the other side, and how a
    message reaches many clients.

    A channel works on the protocol layer of its connection; the message of a call
    is an object of the layer's heap, since the context of the call points to it.
    A request is the bytes it serializes to. *)

From S2P Require Import Prelude DataQueue Hash Transformer Messages CondQueues CallContext.
From S2P Require Import ProtocolLayer Registry.

(** ** The channel *)

Definition DEFAULT : Z := 0.
Definition DISABLE_WAIT : Z := 1.
Definition USE_CONTEXT_CALL : Z := 2.
Definition USE_STATIC_CONTEXT : Z := 4.
Definition CONTEXT_NOT_REQUIRE : Z := 8.
Definition has_flag (flags f : Z) : bool := negb (Z.land flags f =? 0).

Definition can_accept_callbacks (llu : lowlevel_unit) : bool :=
  uo_wait' (u_opt llu) && uo_accept_callbacks' (u_opt llu).

(** The message of the call the thread is in, [call_context::get( )]. *)
Definition current_message (l : layer) : option lowlevel_unit :=
  match top_call_context (thread_ l) ≫= (λ a, ctx_heap (thread_ l) !! a) with
  | Some c => Some (unit_at l (cc_llu c))
  | None => None
  end.

Record rpc_channel : Type := Channel {
  direct_type_ : Z;
  callback_type_ : Z;
  flags_ : Z;
  static_target_ : Z;
  accept_callbacks_ : bool;
  data_ : bytes;
  timeout_ : Z
}.

Definition channel_new (direct_call_type callback_type : Z) (cc : option lowlevel_unit) : rpc_channel :=
  Channel direct_call_type callback_type DEFAULT
    (match cc with Some u => u_id u | None => 0 end)
    (match cc with Some u => can_accept_callbacks u | None => false end) [] 30000000.

Definition set_channel_data (data : bytes) (c : rpc_channel) : rpc_channel :=
  Channel (direct_type_ c) (callback_type_ c) (flags_ c) (static_target_ c) (accept_callbacks_ c)
    data (timeout_ c).
Definition set_flags (flags : Z) (c : rpc_channel) : rpc_channel :=
  Channel (direct_type_ c) (callback_type_ c) flags (static_target_ c) (accept_callbacks_ c)
    (data_ c) (timeout_ c).
Definition get_flags (c : rpc_channel) : Z := flags_ c.
Definition set_flag (value : Z) (c : rpc_channel) : rpc_channel := set_flags (Z.lor (flags_ c) value) c.
Definition reset_flag (value : Z) (c : rpc_channel) : rpc_channel :=
  set_flags (Z.ldiff (flags_ c) value) c.
Definition set_timeout (new_value : Z) (c : rpc_channel) : rpc_channel :=
  Channel (direct_type_ c) (callback_type_ c) (flags_ c) (static_target_ c) (accept_callbacks_ c)
    (data_ c) new_value.
Definition set_static_context (ctx : option lowlevel_unit) (c : rpc_channel) : rpc_channel :=
  match ctx with
  | Some u => Channel (direct_type_ c) (callback_type_ c) (flags_ c) (u_id u)
                (can_accept_callbacks u) (data_ c) (timeout_ c)
  | None => Channel (direct_type_ c) (callback_type_ c) (flags_ c) 0 false (data_ c) (timeout_ c)
  end.

Definition set_wait (b : bool) (u : lowlevel_unit) : lowlevel_unit :=
  set_opt (Some (UnitOptions (Some b) (uo_accept_callbacks (u_opt u)) (uo_accept_response (u_opt u)))) u.
Definition set_accept_callbacks (b : bool) (u : lowlevel_unit) : lowlevel_unit :=
  set_opt (Some (UnitOptions (uo_wait (u_opt u)) (Some b) (uo_accept_response (u_opt u)))) u.
Definition set_accept_response (b : bool) (u : lowlevel_unit) : lowlevel_unit :=
  set_opt (Some (UnitOptions (uo_wait (u_opt u)) (uo_accept_callbacks (u_opt u)) (Some b))) u.
Definition set_unit_channel_data (d : bytes) (u : lowlevel_unit) : lowlevel_unit :=
  Unit (f_id u) (f_target_id u) (f_info u) (f_call u) (f_error u) (f_opt u)
    (Some d) (f_lowlevel_data u) (f_request u) (f_response u).

(** [response] says whether the caller gave a message to fill. *)
Definition create_lowlevel (serv_name meth_name : string) (response : bool) : lowlevel_unit :=
  set_accept_response response (set_call (Some (CallInfo (Some serv_name) (Some meth_name))) unit_empty).

(** What [configure_message] makes of a message that got [id], and whether it
    reports an invalid context. *)
Definition configured (c : rpc_channel) (flags : Z) (cc : option lowlevel_unit) (id mess_type : Z)
    (req : option bytes) (llu : lowlevel_unit) : lowlevel_unit * bool :=
  let llu := set_id id llu in
  let llu := match req with Some r => set_request (Some r) llu | None => llu end in
  if mess_type =? callback_type_ c then
    let llu := if has_flag flags CONTEXT_NOT_REQUIRE
               then set_message_flags FLAG_CALLBACK_ALONE llu else llu in
    if has_flag flags USE_STATIC_CONTEXT then
      if negb (accept_callbacks_ c) then (llu, true)
      else (set_target_id (static_target_ c) (set_message_type mess_type llu), false)
    else match cc with
         | Some u =>
             if can_accept_callbacks u
             then (set_target_id (u_id u) (set_message_type mess_type llu), false)
             else (set_message_type (direct_type_ c) llu, false)
         | None => (set_message_type (direct_type_ c) llu, false)
         end
  else (set_message_type mess_type llu, false).

(** The destructor of [closure_holder] runs the closure, if there is one, and
    swallows what it throws. *)
Definition with_closure_holder {S A} (done : option (M S unit)) (m : M S A) : M S A := λ l,
  let '(r, l1) := m l in
  match done with
  | None => (r, l1)
  | Some d =>
      match d l1 with
      | (Raise (EUndefined w), l2) => (Raise (EUndefined w), l2)
      | (_, l2) => (r, l2)
      end
  end.

(** ** Waiting *)

Section Calls.
(** The services of this side; the callbacks of the channel for its errors. *)
Context (get_service : string → option rpc_service_wrapper).
Context (chan_error_cb : string → M layer unit) (error_cb : Z → Z → string → M layer unit).

Definition configure_message (c : rpc_channel) (mess_type : Z) (req : option bytes) (llu : nat) :
    M layer unit :=
  let* id := next_index in
  let* l := get in
  let '(u, bad) :=
    configured c (get_flags c) (current_message l) id mess_type req (unit_at l llu) in
  unit_modify llu (λ _, u) ;;;
  if bad then chan_error_cb "Invalid context." else ret tt.

(** The destructor of [slot_erase]. *)
Definition with_slot_erase {A} (id : Z) (m : M layer A) : M layer A := λ l,
  let '(r, l1) := m l in (r, (erase_slot id l1).2).

(** Each turn reads the slot once, with what happens to the queues meanwhile; a
    loop that has used up its turns is still waiting. *)
Fixpoint call_and_wait_loop (turns : list (M (condition_queues lowlevel_unit) unit)) (call_id mess_type : Z)
    (response : bool) : M layer (option (bool * option bytes)) :=
  match turns with
  | [] => ret None
  | others :: turns =>
      let* top := read_slot_for call_id unit_empty others in
      let e := u_error top in
      if negb (default 0 (c_code e) =? ERR_NO_ERROR) then
        error_cb (default 0 (c_code e)) (default 0 (c_category e)) (default ""%string (c_additional e)) ;;;
        ret (Some (false, None))
      else if negb (u_message_type top =? mess_type) then
        let* t := unit_new top in
        make_local_call get_service t false ;;;
        call_and_wait_loop turns call_id mess_type response
      else ret (Some (true, if response then Some (u_response top) else None))
  end.

Definition call_and_wait (turns : list (M (condition_queues lowlevel_unit) unit)) (call_id : Z)
    (llu : nat) (response : bool) : M layer (option (bool * option bytes)) :=
  let* l := get in
  if negb (ready_ l) then
    chan_error_cb "Channel is not ready." ;;;
    ret (Some (false, None))
  else
    with_slot_erase call_id
      (let* l := get in
       call_rpc_method_slot call_id (unit_at l llu) ;;;
       call_and_wait_loop turns call_id (u_message_type (unit_at l llu)) response).

Fixpoint raw_loop (turns : list (M (condition_queues lowlevel_unit) unit)) (call_id mess_type : Z)
    (events : option (lowlevel_unit → M layer unit)) : M layer (option lowlevel_unit) :=
  match turns with
  | [] => ret None
  | others :: turns =>
      let* top := read_slot_for call_id unit_empty others in
      if negb (default 0 (c_code (u_error top)) =? ERR_NO_ERROR) then ret (Some top)
      else if negb (u_message_type top =? mess_type) then
        (match events with Some ev => ev top | None => ret tt end) ;;;
        raw_loop turns call_id mess_type events
      else ret (Some top)
  end.

(** [inl tt] is the null pointer of a channel that is not ready. *)
Definition call_and_wait_raw (turns : list (M (condition_queues lowlevel_unit) unit)) (call_id : Z)
    (llu : nat) (events : option (lowlevel_unit → M layer unit)) : M layer (unit + option lowlevel_unit) :=
  let* l := get in
  if negb (ready_ l) then
    chan_error_cb "Channel is not ready." ;;;
    ret (inl tt)
  else
    with_slot_erase call_id
      (let* l := get in
       call_rpc_method_slot call_id (unit_at l llu) ;;;
       let mess_type := u_message_type (unit_at l llu) in
       (if bool_decide (is_Some events) then ret tt
        else unit_modify llu (set_accept_callbacks false)) ;;;
       let* r := raw_loop turns call_id mess_type events in
       ret (inr r)).

(** *** A channel to one connection: [rpc_channel_c] and [unicast_channel] *)

Definition disable_wait (c : rpc_channel) : bool := has_flag (get_flags c) DISABLE_WAIT.
Definition message_type (c : rpc_channel) : Z :=
  if has_flag (get_flags c) USE_CONTEXT_CALL then callback_type_ c else direct_type_ c.

Definition get_method_options : rpc_options := default_method_options.
Definition set_call_opts (c : rpc_channel) (u : lowlevel_unit) : lowlevel_unit :=
  let call_opt := get_method_options in
  if disable_wait c then set_wait false u
  else set_accept_callbacks (default true (o_accept_callbacks call_opt))
         (set_wait (default true (o_wait call_opt)) u).

(** [SetFailed] of the caller's controller, if there is one; the closure of the
    call is [done], whose address the context keeps. *)
Definition send_message (c : rpc_channel)
    (turns : list (M (condition_queues lowlevel_unit) unit))
    (llu : nat) (set_failed : option (string → M layer unit)) (request : option bytes)
    (response : bool) (done : option (M layer unit)) (done_at : option nat) :
    M layer (option (bool * option bytes)) :=
  with_closure_holder done
    (let* l := get in
     if negb (connection_ l) then
       (match set_failed with Some f => f "Connection lost"%string | None => ret tt end) ;;;
       chan_error_cb "Connection lost" ;;;
       ret (Some (false, None))
     else
       unit_modify llu (set_call_opts c) ;;;
       configure_message c (message_type c) request llu ;;;
       let* l := get in
       let call_id := u_id (unit_at l llu) in
       if uo_wait' (u_opt (unit_at l llu)) then
         with_layer_context llu (λ ctx,
           on_thread (let* x := ctx_at ctx in ctx_set ctx (set_call_options (Some get_method_options) x)) ;;;
           on_thread (let* x := ctx_at ctx in ctx_set ctx (set_done_closure done_at x)) ;;;
           call_and_wait turns call_id llu response)
       else
         call_rpc_method (unit_at l llu) ;;;
         ret (Some (true, None))).

(** [CallMethod] *)
Definition CallMethod (c : rpc_channel)
    (turns : list (M (condition_queues lowlevel_unit) unit))
    (serv_name meth_name : string) (set_failed : option (string → M layer unit))
    (request : option bytes) (response : bool) (done : option (M layer unit)) (done_at : option nat) :
    M layer (option (bool * option bytes)) :=
  let u := create_lowlevel serv_name meth_name response in
  let* llu := unit_new (if bool_decide (data_ c = []) then u else set_unit_channel_data (data_ c) u) in
  send_message c turns llu set_failed request response done done_at.

Definition make_lowlevel (c : rpc_channel) (serv_name meth_name : string) (request : option bytes)
    (response : bool) : M layer (option nat) :=
  let* res := unit_new (create_lowlevel serv_name meth_name response) in
  let* l := get in
  if negb (connection_ l) then
    chan_error_cb "Connection lost" ;;;
    ret None
  else
    configure_message c (message_type c) request res ;;;
    ret (Some res).

Definition send_raw (c : rpc_channel) (turns : list (M (condition_queues lowlevel_unit) unit))
    (llu : nat) (request : option bytes) (cbacks : option (lowlevel_unit → M layer unit)) :
    M layer (unit + option lowlevel_unit) :=
  let* l := get in
  if negb (connection_ l) then
    chan_error_cb "Connection lost" ;;;
    ret (inl tt)
  else
    configure_message c (message_type c) request llu ;;;
    let* l := get in
    let call_id := u_id (unit_at l llu) in
    if uo_wait' (u_opt (unit_at l llu)) then
      with_layer_context llu (λ ctx,
        on_thread (let* x := ctx_at ctx in ctx_set ctx (set_call_options (Some (Options None None None None)) x)) ;;;
        call_and_wait_raw turns call_id llu cbacks)
    else
      call_rpc_method (unit_at l llu) ;;;
      ret (inl tt).
End Calls.

(** The channels of the two sides. *)
Definition rpc_channel_c (flags : Z) (cc : option lowlevel_unit) : rpc_channel :=
  set_flags flags (channel_new MESSAGE_CLIENT_CALL MESSAGE_CLIENT_CALLBACK cc).
Definition unicast_channel (flags : Z) (cc : option lowlevel_unit) : rpc_channel :=
  set_flags flags (channel_new MESSAGE_SERVER_CALL MESSAGE_SERVER_CALLBACK cc).

(** The default error callbacks throw. *)
Definition default_error_cb (code cat : Z) (mess : string) : M layer unit := raise (EVtrc code cat mess).
Definition default_chan_error_cb (mess : string) : M layer unit :=
  raise (EVtrc ERR_CHANNEL CATEGORY_INTERNAL mess).

(** ** Broadcast

    A broadcast walks over the list of the connections, whose protocol layers it
    uses in turn, with one message for all of them.  [sender_] is a weak pointer:
    the connection to leave out, if it is still there. *)

Module Broadcast.

Record broadcast_channel : Type := BroadcastChannel {
  base_ : rpc_channel;
  sender_ : option nat;
  message_type_ : Z
}.

Definition get_flags (c : broadcast_channel) : Z :=
  Z.lor DISABLE_WAIT (if message_type_ c =? MESSAGE_SERVER_CALLBACK then USE_CONTEXT_CALL else 0).

(** The connections and the message that is sent. *)
Record hub : Type := Hub { layers : gmap nat layer; mess : lowlevel_unit }.

Definition on_client {A} (next : nat) (m : M layer A) : M hub A := λ h,
  match layers h !! next with
  | None => (Raise (EUndefined "connection"), h)
  | Some l => let '(r, l') := m l in (r, Hub (<[next := l']> (layers h)) (mess h))
  end.
Definition set_mess (u : lowlevel_unit) : M hub unit := modify (λ h, Hub (layers h) u).

Section Broadcast.
Context (chan_error_cb : string → M hub unit).
(** The message of the call the sending thread is in. *)
Context (cc : option lowlevel_unit).

Definition configure_message (c : broadcast_channel) (next : nat) (mess_type : Z) (req : option bytes) :
    M hub unit :=
  let* id := on_client next next_index in
  let* h := get in
  let '(u, bad) := configured (base_ c) (get_flags c) cc id mess_type req (mess h) in
  set_mess u ;;;
  if bad then chan_error_cb "Invalid context." else ret tt.

Definition active (next : nat) (h : hub) : bool :=
  match layers h !! next with Some l => ready_ l | None => false end.

Definition send (c : broadcast_channel) (request : option bytes) (next : nat) : M hub unit :=
  configure_message c next (message_type_ c) request ;;;
  let* h := get in
  on_client next (call_rpc_method (mess h)).

(** [send_to_client], with the sender, and [send_to_client2] without. *)
Definition send_to_client (c : broadcast_channel) (sender : nat) (request : option bytes) (next : nat) :
    M hub bool :=
  let* h := get in
  (if negb (bool_decide (sender = next)) && active next h then send c request next else ret tt) ;;;
  ret true.
Definition send_to_client2 (c : broadcast_channel) (request : option bytes) (next : nat) : M hub bool :=
  let* h := get in
  (if active next h then send c request next else ret tt) ;;;
  ret true.

(** [clients] is the list of the connections, if it is still there. *)
Definition send_message (c : broadcast_channel) (clients : option ConnectionList.connection_list)
    (request : option bytes) (done : option (M hub unit)) : M hub unit :=
  with_closure_holder done
    match clients with
    | None => chan_error_cb "Connection lost"
    | Some l =>
        let* h := get in
        set_mess (set_wait false (set_message_type (message_type_ c) (mess h))) ;;;
        (match sender_ c with
         | Some s => ConnectionList.foreach_while (send_to_client c s request) l
         | None => ConnectionList.foreach_while (send_to_client2 c request) l
         end) ;;;
        ret tt
    end.
End Broadcast.

Definition create_event_channel (sender : option nat) (cc : option lowlevel_unit) : broadcast_channel :=
  BroadcastChannel (channel_new MESSAGE_SERVER_CALL MESSAGE_SERVER_CALLBACK cc) sender
    MESSAGE_SERVER_CALL.
Definition create_callback_channel (sender : option nat) (cc : option lowlevel_unit) : broadcast_channel :=
  BroadcastChannel (channel_new MESSAGE_SERVER_CALL MESSAGE_SERVER_CALLBACK cc) sender
    MESSAGE_SERVER_CALLBACK.

End Broadcast.

(** ** Lemmas *)

(** The closure of a holder runs once, after the body. *)
Lemma closure_holder_run {S A} (d : M S unit) (m : M S A) s :
  (with_closure_holder (Some d) m s).2 = (d (with_closure_holder None m s).2).2.
Proof.
  unfold with_closure_holder. destruct (m s) as [r s1]. cbn. destruct (d s1) as [[[]|e] s2]; [done|].
  by destruct e.
Qed.

(** *** Local calls do not touch the slots *)

(** A computation that neither looks at the queues nor changes them. *)
Definition blind {A} (m : M layer A) : Prop :=
  ∀ q l, m (with_rpc_queue q l) = ((m l).1, with_rpc_queue q (m l).2).

Lemma blind_ret {A} (x : A) : blind (ret x).
Proof. done. Qed.
Lemma blind_raise {A} e : blind (A := A) (raise e).
Proof. done. Qed.
Lemma blind_bind {A B} (m : M layer A) (k : A → M layer B) :
  blind m → (∀ x, blind (k x)) → blind (bind m k).
Proof.
  intros Hm Hk q l. unfold bind. rewrite Hm. destruct (m l) as [[x|e] l']; cbn; [apply Hk|done].
Qed.
Lemma blind_get {A} (k : layer → M layer A) :
  (∀ q l, k (with_rpc_queue q l) = k l) → (∀ l, blind (k l)) → blind (bind get k).
Proof. intros He Hk q l. unfold bind, get. rewrite He. apply Hk. Qed.
Lemma blind_modify f :
  (∀ q l, f (with_rpc_queue q l) = with_rpc_queue q (f l)) → blind (modify f).
Proof. intros Hf q l. unfold modify. by rewrite Hf. Qed.
Lemma blind_if {A} (b : bool) (m n : M layer A) : blind m → blind n → blind (if b then m else n).
Proof. by destruct b. Qed.
Lemma blind_thread {A} (m : M thread_state A) : blind (on_thread m).
Proof. intros q l. unfold on_thread. cbn. by destruct (m (thread_ l)). Qed.
Lemma blind_unit_modify a f : blind (unit_modify a f).
Proof. by apply blind_modify. Qed.
Lemma blind_unit_new u : blind (unit_new u).
Proof. done. Qed.
Lemma blind_send u : blind (ProtocolLayer.send_message u).
Proof. by apply blind_modify. Qed.
Lemma blind_holder_at a : blind (holder_at a).
Proof. intros q l. unfold holder_at. cbn. by destruct (holders_ l !! a). Qed.
Lemma blind_holder_new h : blind (holder_new h).
Proof. done. Qed.
Lemma blind_try {A} (m : M layer A) h : blind m → (∀ e, blind (h e)) → blind (try_catch m h).
Proof.
  intros Hm Hh q l. unfold try_catch. rewrite Hm. destruct (m l) as [[x|e] l']; cbn; [done|].
  destruct e; try apply Hh; done.
Qed.
Lemma blind_context {A} llu (body : nat → M layer A) :
  (∀ c, blind (body c)) → blind (with_layer_context llu body).
Proof.
  intros Hb q l. unfold with_layer_context. rewrite blind_thread.
  destruct (on_thread _ l) as [[a|e] l1]; cbn; [|done]. rewrite Hb. destruct (body a l1) as [r l2]. cbn.
  rewrite blind_thread. destruct (on_thread pop_call_context l2) as [[[]|e] l3]; cbn; [done|].
  by destruct e.
Qed.

Ltac blind :=
  repeat lazymatch goal with
  | |- blind (ret _) => apply blind_ret
  | |- blind (raise _) => apply blind_raise
  | |- blind (on_thread _) => apply blind_thread
  | |- blind (unit_modify _ _) => apply blind_unit_modify
  | |- blind (unit_new _) => apply blind_unit_new
  | |- blind (ProtocolLayer.send_message _) => apply blind_send
  | |- blind (holder_at _) => apply blind_holder_at
  | |- blind (holder_new _) => apply blind_holder_new
  | |- blind (bind get _) => apply blind_get; [intros ? ?; reflexivity|intros ?]
  | |- blind (bind _ _) => apply blind_bind; [|intros ?]
  | |- blind (if _ then _ else _) => apply blind_if
  | |- blind (try_catch _ _) => apply blind_try; [|intros ?]
  | |- blind (with_layer_context _ _) => apply blind_context; intros ?
  | |- blind _ => solve [eauto with blind]
  end.
Create HintDb blind.

Lemma blind_holder_modify a f : blind (holder_modify a f).
Proof. unfold holder_modify, holder_set. blind. by apply blind_modify. Qed.
#[local] Hint Resolve blind_holder_modify : blind.
Lemma blind_call_internal h : blind (call_internal h).
Proof. apply blind_modify. intros q l. cbn. by destruct (_ && _). Qed.
#[local] Hint Resolve blind_call_internal : blind.
Lemma blind_release a : blind (holder_release a).
Proof. unfold holder_release. blind. by apply blind_modify. Qed.
#[local] Hint Resolve blind_release : blind.
Lemma blind_closure_done a : blind (closure_done a).
Proof. unfold closure_done. cbv zeta. blind. Qed.
#[local] Hint Resolve blind_closure_done : blind.
Lemma blind_runner a b : blind (closure_runner a b).
Proof.
  unfold closure_runner. blind. destruct (get_call_context _); blind.
Qed.
#[local] Hint Resolve blind_runner : blind.
Lemma blind_call_method a acts g : blind (call_method a acts g).
Proof.
  revert g. induction acts as [|x acts IH]; intros g; [cbn; blind|].
  destruct x; cbn [call_method]; blind.
Qed.
#[local] Hint Resolve blind_call_method : blind.
Lemma blind_find_method gs u : blind (find_method gs u).
Proof.
  unfold find_method. destruct (gs _ ≫= wr_service) as [s|]; [|blind].
  destruct (s _); blind.
Qed.
#[local] Hint Resolve blind_find_method : blind.
Lemma blind_local_call gs llu dn : blind (make_local_call gs llu dn).
Proof.
  unfold make_local_call, make_local_call_impl. blind. by apply blind_modify.
Qed.
#[local] Hint Resolve blind_local_call : blind.

(** The calls of the other side, served one after the other. *)
Definition serve (gs : string → option rpc_service_wrapper) (cbs : list lowlevel_unit) : M layer unit :=
  foldr (λ m k, (let* t := unit_new m in make_local_call gs t false) ;;; k) (ret tt) cbs.
Lemma blind_serve gs cbs : blind (serve gs cbs).
Proof. induction cbs as [|m cbs IH]; cbn [serve foldr]; blind. Qed.

(** *** What a waiting caller reads *)

Definition deliver (id : Z) (ds : list lowlevel_unit) : M (condition_queues lowlevel_unit) unit :=
  foldr (λ m k, write_queue_if_exists id m ;;; k) (ret tt) ds.

(** The messages read in order, when each wait ends with messages: those that came
    during the wait of a turn, the first of which ends it, are left for the next
    turns. *)
Fixpoint arrivals (pending : list lowlevel_unit) (dss : list (list lowlevel_unit)) :
    option (list lowlevel_unit) :=
  match dss with
  | [] => Some []
  | ds :: dss =>
      match pending, ds with
      | m :: p, _ => cons m <$> arrivals p dss
      | [], m :: p => cons m <$> arrivals p dss
      | [], [] => None
      end
  end.

Lemma deliver_ok id a ds (c : condition_queues lowlevel_unit) :
  store_ c !! id = Some a →
  ∃ c', deliver id ds c = (Ok tt, c') ∧ store_ c' = store_ c ∧
    canceled_ (value_of c' a) = canceled_ (value_of c a) ∧
    hdata_ (value_of c' a) = hdata_ (value_of c a) ++ ds.
Proof.
  revert c. induction ds as [|m ds IH]; intros c Ha.
  - exists c. by rewrite app_nil_r.
  - set (c1 := push_value_data a [m] c).
    destruct (IH c1 Ha) as (c' & Hd & Hs & Hc & Hv). exists c'. split_and!.
    + cbn [deliver foldr]. erewrite bind_ok; [exact Hd|].
      unfold write_queue_if_exists, value_by_key. by rewrite Ha.
    + done.
    + rewrite Hc. unfold c1, push_value_data. by rewrite value_of_set.
    + rewrite Hv. unfold c1, push_value_data. rewrite value_of_set. cbn. by rewrite <-app_assoc.
Qed.

Lemma read_takes id a m rest pending ds mess l :
  store_ (rpc_queue_ l) !! id = Some a → hdata_ (value_of (rpc_queue_ l) a) = pending →
  pending = m :: rest ∨ pending = [] ∧ ds = m :: rest →
  ∃ q, read_slot_for id mess (deliver id ds) l = (Ok m, with_rpc_queue q l) ∧
    store_ q = store_ (rpc_queue_ l) ∧ hdata_ (value_of q a) = rest.
Proof.
  intros Ha Hd Hcase. set (c0 := set_value a (Hold false pending) (rpc_queue_ l)).
  assert (Hv0 : value_of c0 a = Hold false pending) by apply value_of_set.
  assert (Hwait : ∃ c1, wait_for a (deliver id ds) (rpc_queue_ l) = (Ok true, c1) ∧
    store_ c1 = store_ (rpc_queue_ l) ∧ canceled_ (value_of c1 a) = false ∧
    hdata_ (value_of c1 a) = m :: rest).
  { assert (He : read_enter a (rpc_queue_ l) = (Ok (queue_empty_predicate (Hold false pending)), c0)).
    { unfold read_enter. rewrite Hd. fold c0. by rewrite Hv0. }
    unfold wait_for. rewrite (bind_ok _ _ _ _ _ He). destruct Hcase as [->|[-> ->]].
    - exists c0. by rewrite Hv0.
    - destruct (deliver_ok id a (m :: rest) c0 Ha) as (c1 & Hdl & Hs & Hc & Hh).
      rewrite Hv0 in Hc, Hh. exists c1.
      change (queue_empty_predicate (Hold false [])) with false. cbv iota.
      rewrite (bind_ok _ _ _ _ _ Hdl). unfold gets, queue_empty_predicate. by rewrite Hh. }
  destruct Hwait as (c1 & Hw & Hs & Hc & Hh).
  exists (set_value a (Hold false rest) c1). split_and!; [|done|by rewrite value_of_set].
  unfold read_slot_for, on_rpc_queue, read, bind, value_at_key. rewrite Ha, Hw.
  unfold finish_read. by rewrite Hc, Hh.
Qed.

Section Loop.
Context (gs : string → option rpc_service_wrapper) (ce : string → M layer unit)
  (ee : Z → Z → string → M layer unit) (id mt : Z) (response : bool).

(** Neither an error nor of the type of the call. *)
Definition is_callback (u : lowlevel_unit) : Prop :=
  default 0 (c_code (u_error u)) = ERR_NO_ERROR ∧ u_message_type u ≠ mt.
Definition is_answer (u : lowlevel_unit) : Prop :=
  default 0 (c_code (u_error u)) = ERR_NO_ERROR ∧ u_message_type u = mt.

Lemma arrivals_cons pending dss m ms :
  arrivals pending dss = Some (m :: ms) →
  ∃ ds dss' rest, dss = ds :: dss' ∧ arrivals rest dss' = Some ms ∧
    (pending = m :: rest ∨ pending = [] ∧ ds = m :: rest).
Proof.
  destruct dss as [|ds dss']; [done|]. cbn. destruct pending as [|x p], ds as [|y q]; [done|..];
    intros Heq; apply fmap_Some in Heq as (zs & Hz & [= -> ->]); eauto 10.
Qed.

Lemma loop_serves cbs ans dss pending a l l1 :
  store_ (rpc_queue_ l) !! id = Some a → hdata_ (value_of (rpc_queue_ l) a) = pending →
  arrivals pending dss = Some (cbs ++ [ans]) → Forall is_callback cbs → is_answer ans →
  serve gs cbs l = (Ok tt, l1) →
  ∃ q, call_and_wait_loop gs ee (deliver id <$> dss) id mt response l =
    (Ok (Some (true, if response then Some (u_response ans) else None)), with_rpc_queue q l1) ∧
    store_ q = store_ (rpc_queue_ l).
Proof.
  revert dss pending l l1. induction cbs as [|m cbs IH]; intros dss pending l l1 Ha Hd Hr Hcb Hans Hsv.
  - apply arrivals_cons in Hr as (ds & dss' & rest & -> & _ & Hcase).
    destruct (read_takes id a ans rest pending ds unit_empty l Ha Hd Hcase) as (q & Hq & Hs & _).
    exists q. split; [|done]. cbn [fmap list_fmap call_and_wait_loop]. erewrite bind_ok by exact Hq.
    destruct Hans as [He Ht]. cbv zeta. rewrite He, Ht, !Z.eqb_refl. cbn [negb].
    cbn in Hsv. unfold ret in *. by simplify_eq.
  - apply Forall_cons in Hcb as [[He Ht] Hcb]. cbn [app] in Hr.
    apply arrivals_cons in Hr as (ds & dss' & rest & -> & Hr & Hcase).
    destruct (read_takes id a m rest pending ds unit_empty l Ha Hd Hcase) as (q & Hq & Hs & Hh).
    cbn [fmap list_fmap call_and_wait_loop]. erewrite bind_ok by exact Hq.
    cbv zeta. rewrite He, Z.eqb_refl. cbn [negb]. rewrite (proj2 (Z.eqb_neq _ _) Ht). cbn [negb].
    erewrite bind_ok by apply blind_unit_new.
    cbn [serve foldr] in Hsv. unfold bind at 1 2 in Hsv.
    change (unit_new m l) with (Ok (unit_fresh_ l), (unit_new m l).2) in *. cbv iota beta in Hsv.
    cbn [fst snd]. unfold bind. rewrite blind_local_call.
    destruct (make_local_call gs (unit_fresh_ l) false (unit_new m l).2) as [[[]|e] l3] eqn:Hcall;
      [|done]. cbn [fst snd].
    destruct (IH dss' rest (with_rpc_queue q l3) (with_rpc_queue q l1)) as (q' & Hl & Hs'); try done.
    { by rewrite <-Ha, <-Hs. }
    { rewrite blind_serve. unfold serve. by rewrite Hsv. }
    exists q'. split; [exact Hl|]. by rewrite Hs', <-Hs.
Qed.
End Loop.

(** *** Slots *)

Definition absent (i : Z) (l : layer) : Prop := store_ (rpc_queue_ l) !! i = None.

Lemma blind_queue {A} (m : M layer A) l : blind m → rpc_queue_ (m l).2 = rpc_queue_ l.
Proof.
  intros Hm. assert (Hl : with_rpc_queue (rpc_queue_ l) l = l) by by destruct l.
  rewrite <-Hl at 1. by rewrite Hm.
Qed.
Lemma blind_absent {A} i (m : M layer A) : blind m → keeps (absent i) m.
Proof. intros Hm l Hl. unfold absent. by rewrite (blind_queue m l Hm). Qed.

Section Absent.
Context (i : Z).
Context (gs : string → option rpc_service_wrapper) (ce : string → M layer unit)
  (ee : Z → Z → string → M layer unit).
Hypothesis (Hce : ∀ s, keeps (absent i) (ce s)) (Hee : ∀ c d s, keeps (absent i) (ee c d s)).

Lemma absent_queue {A} (m : M (condition_queues lowlevel_unit) A) :
  keeps (λ c, store_ c !! i = None) m → keeps (absent i) (on_rpc_queue m).
Proof.
  intros Hm l Hl. unfold on_rpc_queue. specialize (Hm (rpc_queue_ l) Hl).
  by destruct (m (rpc_queue_ l)).
Qed.

Lemma absent_read id others mess :
  keeps (λ c, store_ c !! i = None) others → keeps (absent i) (read_slot_for id mess others).
Proof.
  intros Ho. unfold read_slot_for. apply keeps_bind; [|intros [? ?]; apply keeps_ret].
  apply absent_queue. unfold read, wait_for. apply keeps_bind.
  { intros c Hc. unfold value_at_key. by destruct (store_ c !! id). }
  intros a. apply keeps_bind; [apply keeps_bind; [by intros c Hc|intros b]|intros b].
  - apply keeps_if; [apply keeps_ret|]. apply keeps_bind; [done|intros _]. by intros c Hc.
  - intros c Hc. unfold finish_read. by destruct (canceled_ (value_of c a)), (hdata_ (value_of c a)).
Qed.

Lemma absent_loop turns id mt response :
  Forall (keeps (λ c, store_ c !! i = None)) turns →
  keeps (absent i) (call_and_wait_loop gs ee turns id mt response).
Proof.
  induction 1 as [|others turns Ho _ IH]; cbn [call_and_wait_loop]; [apply keeps_ret|].
  apply keeps_bind; [by apply absent_read|intros top]. cbv zeta. apply keeps_if.
  { apply keeps_bind; [done|intros _; apply keeps_ret]. }
  apply keeps_if; [|apply keeps_ret].
  apply keeps_bind; [apply blind_absent, blind_unit_new|intros t].
  apply keeps_bind; [apply blind_absent, blind_local_call|intros _]. exact IH.
Qed.

(** Only the slot of the call is added, and it is erased. *)
Lemma absent_erase id (m : M layer (option (bool * option bytes))) :
  (i ≠ id → keeps (absent i) m) → keeps (absent i) (with_slot_erase id m).
Proof.
  intros Hm l Hl. unfold with_slot_erase. destruct (m l) as [r l1] eqn:Hr. cbn.
  unfold absent, erase_slot, on_rpc_queue, erase_queue.
  destruct (decide (i = id)) as [->|Hne].
  - destruct (store_ (rpc_queue_ l1) !! id) eqn:Ha; cbn; [apply lookup_delete_eq|done].
  - specialize (Hm Hne l Hl). rewrite Hr in Hm.
    destruct (store_ (rpc_queue_ l1) !! id) eqn:Ha; cbn; [by rewrite lookup_delete_ne|done].
Qed.

Lemma absent_call turns id llu response :
  Forall (keeps (λ c, store_ c !! i = None)) turns →
  keeps (absent i) (call_and_wait gs ce ee turns id llu response).
Proof.
  intros Ht. unfold call_and_wait. apply keeps_bind; [apply keeps_get|intros l]. apply keeps_if.
  { apply keeps_bind; [done|intros _; apply keeps_ret]. }
  apply absent_erase. intros Hne. apply keeps_bind; [apply keeps_get|intros l0].
  apply keeps_bind; [|intros _; by apply absent_loop].
  unfold call_rpc_method_slot. apply keeps_bind; [apply keeps_get|intros l1].
  apply keeps_if; [|apply keeps_raise]. apply keeps_bind; [|intros _; by apply keeps_modify].
  apply absent_queue. intros c Hc. unfold add_queue. destruct (store_ c !! id); [done|].
  cbn. by rewrite lookup_insert_ne.
Qed.

Lemma absent_context {A} llu (body : nat → M layer A) :
  (∀ c, keeps (absent i) (body c)) → keeps (absent i) (with_layer_context llu body).
Proof.
  intros Hb l Hl. unfold with_layer_context.
  pose proof (blind_absent i _ (blind_thread (let* a := ctx_alloc (call_context_new llu) in
    push_call_context a)) l Hl) as H1.
  destruct (on_thread _ l) as [[a|e] l1]; cbn; [|done]. specialize (Hb a l1 H1).
  destruct (body a l1) as [r l2]. cbn in Hb.
  pose proof (blind_absent i _ (blind_thread pop_call_context) l2 Hb) as H3.
  destruct (on_thread pop_call_context l2) as [[[]|e] l3]; cbn; [done|]. by destruct e.
Qed.

Lemma absent_send c turns llu set_failed request response done_at :
  Forall (keeps (λ c, store_ c !! i = None)) turns →
  (∀ f, set_failed = Some f → ∀ s, keeps (absent i) (f s)) →
  keeps (absent i) (send_message gs ce ee c turns llu set_failed request response None done_at).
Proof.
  intros Ht Hf l Hl. unfold send_message, with_closure_holder.
  match goal with |- absent i (let '(r, l1) := ?m l in (r, l1)).2 =>
    assert (Hm : keeps (absent i) m) end.
  - apply keeps_bind; [apply keeps_get|intros l0]. apply keeps_if.
    + apply keeps_bind; [|intros _; apply keeps_bind; [done|intros _; apply keeps_ret]].
      destruct set_failed as [f|]; [by apply Hf|apply keeps_ret].
    + apply keeps_bind; [apply blind_absent, blind_unit_modify|intros _].
      apply keeps_bind.
      { unfold configure_message. apply keeps_bind; [by intros k Hk|intros id].
        apply keeps_bind; [apply keeps_get|intros l1]. destruct (configured _ _ _ _ _ _ _) as [u bad].
        apply keeps_bind; [apply blind_absent, blind_unit_modify|intros _].
        apply keeps_if; [done|apply keeps_ret]. }
      intros _. apply keeps_bind; [apply keeps_get|intros l1]. cbv zeta. apply keeps_if.
      * apply absent_context. intros ctx. do 2 (apply keeps_bind; [apply blind_absent, blind_thread|intros _]).
        by apply absent_call.
      * apply keeps_bind; [|intros _; apply keeps_ret].
        unfold call_rpc_method. apply keeps_bind; [apply keeps_get|intros l2].
        apply keeps_if; [apply blind_absent, blind_send|apply keeps_raise].
  - specialize (Hm l Hl). revert Hm. by match goal with |- absent i (?x).2 → _ => destruct x end.
Qed.
End Absent.

(** *** Broadcast *)

Section BroadcastLemmas.
Import Broadcast.
Context (ce : string → M hub unit) (cc : option lowlevel_unit).

(** The message client [next] is sent, given what the walk has made of it so far. *)
Definition event_for (u : lowlevel_unit) (request : option bytes) (l : layer) : lowlevel_unit :=
  let u := set_id (u64 (rpc_index_ l + 2)) u in
  set_message_type MESSAGE_SERVER_CALL
    (match request with Some r => set_request (Some r) u | None => u end).

(** What a client that takes part is left with. *)
Definition received_event (u : lowlevel_unit) (request : option bytes) (l : layer) : layer :=
  with_sent (sent_ l ++ [event_for u request l]) (with_rpc_index (u64 (rpc_index_ l + 2)) l).

Lemma send_event c request next h l :
  callback_type_ (base_ c) = MESSAGE_SERVER_CALLBACK → message_type_ c = MESSAGE_SERVER_CALL →
  layers h !! next = Some l → ready_ l = true →
  send ce cc c request next h =
    (Ok tt, Hub (<[next := received_event (mess h) request l]> (layers h)) (event_for (mess h) request l)).
Proof.
  intros Hcb Hmt Hl Hr. unfold send, configure_message.
  set (l1 := with_rpc_index (u64 (rpc_index_ l + 2)) l).
  set (h1 := Hub (<[next := l1]> (layers h)) (mess h)).
  assert (Hid : on_client next next_index h = (Ok (u64 (rpc_index_ l + 2)), h1)).
  { unfold on_client. by rewrite Hl. }
  assert (Hc : configured (base_ c) (get_flags c) cc (u64 (rpc_index_ l + 2)) (message_type_ c) request (mess h) =
    (event_for (mess h) request l, false)).
  { unfold configured. by rewrite Hcb, Hmt. }
  erewrite bind_ok.
  2: { erewrite bind_ok by exact Hid. erewrite bind_ok by reflexivity. cbn [mess h1]. rewrite Hc.
       erewrite bind_ok by reflexivity. reflexivity. }
  erewrite bind_ok by reflexivity. unfold on_client. cbn [layers mess]. unfold h1. cbn [layers].
  rewrite lookup_insert_eq. unfold call_rpc_method, bind, get. unfold l1. cbn. rewrite Hr.
  unfold ProtocolLayer.send_message, modify. by rewrite insert_insert_eq.
Qed.

Lemma event_for_twice u r l l' : event_for (event_for u r l') r l = event_for u r l.
Proof. by destruct r. Qed.

(** What a broadcast does to a client. *)
Definition hears (u : lowlevel_unit) (request : option bytes) (l : layer) : layer :=
  if ready_ l then received_event u request l else l.
Definition visit (c : broadcast_channel) (request : option bytes) : nat → M hub bool :=
  match sender_ c with
  | Some s => send_to_client ce cc c s request
  | None => send_to_client2 ce cc c request
  end.

Lemma visit_ok c request u next h :
  callback_type_ (base_ c) = MESSAGE_SERVER_CALLBACK → message_type_ c = MESSAGE_SERVER_CALL →
  (∀ l, event_for (mess h) request l = event_for u request l) →
  ∃ h', visit c request next h = (Ok true, h') ∧
    (∀ l, event_for (mess h') request l = event_for u request l) ∧
    layers h' = if decide (sender_ c = Some next) then layers h else alter (hears u request) next (layers h).
Proof.
  intros Hcb Hmt Hu.
  assert (Hv : visit c request next h =
    ((if negb (bool_decide (sender_ c = Some next)) && active next h
      then send ce cc c request next else ret tt) ;;; ret true) h).
  { unfold visit, send_to_client, send_to_client2. destruct (sender_ c) as [s|].
    - erewrite bind_ok by reflexivity.
      by rewrite (bool_decide_ext (s = next) (Some s = Some next)) by (split; congruence).
    - erewrite bind_ok by reflexivity. by rewrite bool_decide_false. }
  rewrite Hv. destruct (decide (sender_ c = Some next)) as [Hs|Hs].
  - rewrite bool_decide_true by done. by exists h.
  - rewrite bool_decide_false by done. cbn [negb andb]. unfold active.
    destruct (layers h !! next) as [l|] eqn:Hl.
    + destruct (ready_ l) eqn:Hr.
      * erewrite bind_ok by by apply (send_event c request next h l).
        eexists. split; [reflexivity|]. cbn [layers mess]. split.
        { intros l'. by rewrite event_for_twice. }
        apply map_eq. intros k. destruct (decide (k = next)) as [->|Hk].
        { rewrite lookup_insert_eq. rewrite lookup_alter_eq, Hl. cbn. unfold hears, received_event.
          by rewrite Hr, Hu. }
        by rewrite lookup_insert_ne, lookup_alter_ne by done.
      * exists h. split_and!; [done|done|]. apply map_eq. intros k.
        destruct (decide (k = next)) as [->|Hk]; [|by rewrite lookup_alter_ne].
        rewrite lookup_alter_eq, Hl. cbn. unfold hears. by rewrite Hr.
    + exists h. split_and!; [done|done|]. apply map_eq. intros k.
      destruct (decide (k = next)) as [->|Hk]; [|by rewrite lookup_alter_ne].
      by rewrite lookup_alter_eq, Hl.
Qed.

Lemma walk_ok c request u cs n h :
  callback_type_ (base_ c) = MESSAGE_SERVER_CALLBACK → message_type_ c = MESSAGE_SERVER_CALL →
  NoDup cs → (∀ l, event_for (mess h) request l = event_for u request l) →
  ∃ h', ConnectionList.foreach_while_loop (visit c request) cs n h = (Ok (n + blen cs), h') ∧
    ∀ k, layers h' !! k =
      if decide (k ∈ cs ∧ sender_ c ≠ Some k) then hears u request <$> layers h !! k else layers h !! k.
Proof.
  intros Hcb Hmt. revert n h. induction cs as [|next cs IH]; intros n h Hnd Hu.
  - exists h. split; [by rewrite Z.add_0_r|]. intros k. rewrite decide_False; [done|].
    intros [Hk _]. by apply not_elem_of_nil in Hk.
  - apply NoDup_cons in Hnd as [Hn Hnd].
    destruct (visit_ok c request u next h Hcb Hmt Hu) as (h1 & Hv & Hu1 & Hl1).
    destruct (IH (n + 1) h1 Hnd Hu1) as (h' & Hw & Hl). exists h'. split.
    { cbn [ConnectionList.foreach_while_loop]. erewrite bind_ok by exact Hv.
      cbn. rewrite Hw. do 2 f_equal. unfold blen. cbn [length]. lia. }
    intros k. rewrite Hl, Hl1. destruct (decide (k = next)) as [->|Hk].
    + rewrite (decide_False (P := next ∈ cs ∧ _)) by tauto. destruct (decide (sender_ c = Some next)).
      * by rewrite decide_False by tauto.
      * rewrite decide_True by (split; [apply elem_of_cons; by left|done]). by rewrite lookup_alter_eq.
    + assert (Hlk : (if decide (sender_ c = Some next) then layers h
        else alter (hears u request) next (layers h)) !! k = layers h !! k).
      { case_decide; [done|]. by rewrite lookup_alter_ne. }
      rewrite Hlk. destruct (decide (k ∈ cs ∧ sender_ c ≠ Some k)) as [[Hin Hs]|Hno].
      * rewrite decide_True; [done|]. split; [by apply elem_of_cons; right|done].
      * rewrite decide_False; [done|]. intros [Hin Hs]. apply elem_of_cons in Hin as [|Hin]; tauto.
Qed.
End BroadcastLemmas.

(** ** Properties *)

(** C7 (functional). A call whose other side calls back before it answers: whatever
    comes in one wait or another, the callbacks are executed here one after the
    other in the order they came, the call then returns with the response of the
    answer if the caller wants it, the request has been sent once and before all of
    this, and the slots are those from before the call. *)
Theorem call_with_callbacks gs ce ee id llu response dss cbs ans l l1 :
  let mt := u_message_type (unit_at l llu) in
  ready_ l = true → absent id l → cq_wf (rpc_queue_ l) →
  arrivals [] dss = Some (cbs ++ [ans]) → Forall (is_callback mt) cbs → is_answer mt ans →
  serve gs cbs (with_sent (sent_ l ++ [unit_at l llu]) l) = (Ok tt, l1) →
  ∃ q, call_and_wait gs ce ee (deliver id <$> dss) id llu response l =
    (Ok (Some (true, if response then Some (u_response ans) else None)), with_rpc_queue q l1) ∧
    store_ q = store_ (rpc_queue_ l).
Proof.
  intros mt Hr Habs Hwf Harr Hcb Hans Hsv. unfold absent in Habs.
  set (q0 := rpc_queue_ l) in *. set (a := next_ q0).
  set (q1 := CQ (<[a := hold_new]> (heap_ q0)) (<[id := a]> (store_ q0)) (S a)).
  set (l0 := with_sent (sent_ l ++ [unit_at l llu]) l) in *.
  assert (Hsend : call_rpc_method_slot id (unit_at l llu) l = (Ok tt, with_rpc_queue q1 l0)).
  { unfold call_rpc_method_slot, bind, get. rewrite Hr. unfold on_rpc_queue, add_queue.
    fold q0. rewrite Habs. reflexivity. }
  destruct (loop_serves gs ee id mt response cbs ans dss [] a (with_rpc_queue q1 l0) (with_rpc_queue q1 l1))
    as (q & Hq & Hs); try done.
  { cbn. apply lookup_insert_eq. }
  { unfold value_of. cbn. by rewrite lookup_insert_eq. }
  { by rewrite blind_serve, Hsv. }
  exists (erase_queue id q).2. split.
  - unfold call_and_wait. erewrite bind_ok by reflexivity. rewrite Hr. cbn [negb].
    unfold with_slot_erase. erewrite bind_ok by reflexivity. erewrite bind_ok by exact Hsend.
    fold mt. rewrite Hq. unfold erase_slot, on_rpc_queue. cbn [rpc_queue_ with_rpc_queue].
    by destruct (erase_queue id q).
  - unfold erase_queue. rewrite Hs. cbn [rpc_queue_ with_rpc_queue q1 store_]. rewrite lookup_insert_eq.
    cbn [snd store_]. change (store_ (cancel_value a q)) with (store_ q). rewrite Hs.
    cbn. by rewrite delete_insert_id.
Qed.

(** C13 (safety). No call leaves a slot behind: whatever the message, the services,
    the messages that come, the way the wait ends and the errors that are raised, a
    slot that did not exist before a call through a channel does not exist after
    it; and the caller's closure runs once, when everything else is over. *)
Theorem call_leaves_no_slot i gs ce ee c turns llu set_failed request response d done_at :
  (∀ s, keeps (absent i) (ce s)) → (∀ x y s, keeps (absent i) (ee x y s)) →
  (∀ f, set_failed = Some f → ∀ s, keeps (absent i) (f s)) →
  Forall (keeps (λ q, store_ q !! i = None)) turns → keeps (absent i) d →
  let call := send_message gs ce ee c turns llu set_failed request response in
  (∀ l, (call (Some d) done_at l).2 = (d (call None done_at l).2).2) ∧
  keeps (absent i) (call (Some d) done_at).
Proof.
  intros Hce Hee Hf Ht Hd call.
  assert (Hrun : ∀ l, (call (Some d) done_at l).2 = (d (call None done_at l).2).2).
  { intros l. apply closure_holder_run. }
  split; [exact Hrun|]. intros l Hl. rewrite Hrun. apply Hd.
  by apply (absent_send i gs ce ee Hce Hee c turns llu set_failed request response done_at).
Qed.

(** C11 (functional). An event that is broadcast reaches every connection of the list
    that is ready, the sender's own apart, exactly once, under a number that is the
    receiver's next and with the request; no other connection changes at all, and
    the walk is never cut short. *)
Theorem broadcast_reaches ce cc c cs request h :
  c = Broadcast.create_event_channel (Broadcast.sender_ c) cc → NoDup (ConnectionList.clients_ cs) →
  let u := set_wait false (set_message_type MESSAGE_SERVER_CALL (Broadcast.mess h)) in
  let '(r, h') := Broadcast.send_message ce cc c (Some cs) request None h in
  r = Ok tt ∧
  ∀ k, Broadcast.layers h' !! k =
    if decide (k ∈ ConnectionList.clients_ cs ∧ Broadcast.sender_ c ≠ Some k)
    then (λ l, if ready_ l then received_event u request l else l) <$> Broadcast.layers h !! k
    else Broadcast.layers h !! k.
Proof.
  intros Hc Hnd u.
  assert (Hcb : callback_type_ (Broadcast.base_ c) = MESSAGE_SERVER_CALLBACK) by by rewrite Hc.
  assert (Hmt : Broadcast.message_type_ c = MESSAGE_SERVER_CALL) by by rewrite Hc.
  destruct (walk_ok ce cc c request u (ConnectionList.clients_ cs) 0 (Broadcast.Hub (Broadcast.layers h) u)
    Hcb Hmt Hnd) as (h' & Hw & Hl); [done|].
  assert (Hs : Broadcast.send_message ce cc c (Some cs) request None h = (Ok tt, h')).
  { unfold Broadcast.send_message, with_closure_holder. rewrite Hmt.
    erewrite bind_ok by reflexivity. erewrite bind_ok by reflexivity.
    change (Broadcast.Hub (Broadcast.layers h) _) with (Broadcast.Hub (Broadcast.layers h) u).
    unfold visit in Hw. unfold ConnectionList.foreach_while.
    destruct (Broadcast.sender_ c); by erewrite bind_ok by exact Hw. }
  rewrite Hs. split; [done|exact Hl].
Qed.

(** The raw call forbids callbacks when the caller has no use for them, but in its
    own copy of the message, after this was sent: the other side is told what the
    message said before. *)
Theorem raw_call_announces_callbacks ce id llu l :
  ready_ l = true →
  sent_ (call_and_wait_raw ce [] id llu None l).2 = sent_ l ++ [unit_at l llu] ∧
  uo_accept_callbacks' (u_opt (unit_at (call_and_wait_raw ce [] id llu None l).2 llu)) = false.
Proof.
  intros Hr. unfold call_and_wait_raw. erewrite bind_ok by reflexivity. rewrite Hr. cbn [negb].
  unfold with_slot_erase. erewrite bind_ok by reflexivity. unfold bind at 1 3.
  unfold call_rpc_method_slot, bind, get. rewrite Hr. unfold on_rpc_queue.
  destruct (add_queue id (rpc_queue_ l)) as [[[]|e] q] eqn:Hq;
    [|unfold add_queue in Hq; destruct (store_ (rpc_queue_ l) !! id); discriminate].
  cbn. unfold erase_slot, on_rpc_queue. cbn. destruct (erase_queue id q). cbn. split; [done|].
  unfold unit_at at 1. cbn. by rewrite lookup_insert_eq.
Qed.

(** *** Witnesses *)

(** A client's layer with one call to make, and the other side that calls back twice
    before it answers. *)
Definition waiting_layer : layer :=
  (unit_new (set_id 103 (set_message_type MESSAGE_CLIENT_CALL (create_lowlevel "s" "m" true)))
     (with_ready true (layer_new true default_session_options))).2.
Definition example_callback (n : Z) : lowlevel_unit :=
  set_id n (set_message_type MESSAGE_SERVER_CALLBACK (example_call true)).
Definition example_answer : lowlevel_unit :=
  set_response (Some [42]) (set_id 103 (set_message_type MESSAGE_CLIENT_CALL unit_empty)).

Lemma call_with_callbacks_witness :
  let '(r, l) := call_and_wait echo_services default_chan_error_cb default_error_cb
    (deliver 103 <$> [[example_callback 7; example_callback 9]; []; [example_answer]]) 103 0 true waiting_layer in
  r = Ok (Some (true, Some [42])) ∧ absent 103 l ∧ u_id <$> sent_ l = [103; 7; 9].
Proof.
  destruct (call_with_callbacks echo_services default_chan_error_cb default_error_cb 103 0 true
    [[example_callback 7; example_callback 9]; []; [example_answer]]
    [example_callback 7; example_callback 9] example_answer waiting_layer
    (serve echo_services [example_callback 7; example_callback 9]
       (with_sent (sent_ waiting_layer ++ [unit_at waiting_layer 0]) waiting_layer)).2)
    as (q & Hq & Hs).
  - reflexivity.
  - reflexivity.
  - apply system_init_inv.
  - reflexivity.
  - repeat constructor; discriminate.
  - split; reflexivity.
  - vm_compute. reflexivity.
  - rewrite Hq. split_and!; [reflexivity|unfold absent; cbn [rpc_queue_ with_rpc_queue]; rewrite Hs; reflexivity|].
    vm_compute. reflexivity.
Defined.

Lemma call_leaves_no_slot_witness :
  keeps (absent 103) (send_message echo_services default_chan_error_cb default_error_cb
    (rpc_channel_c DEFAULT None) [ret tt] 0 None (Some [1]) true (Some (raise EUnknown)) None).
Proof.
  apply (call_leaves_no_slot 103 echo_services default_chan_error_cb default_error_cb).
  - intros s l Hl. exact Hl.
  - intros x y s l Hl. exact Hl.
  - intros f Hf. discriminate Hf.
  - repeat constructor. intros q Hq. exact Hq.
  - intros l Hl. exact Hl.
Defined.

(** Three clients, the second of which sends and the third of which is not ready. *)
Definition example_hub : Broadcast.hub :=
  Broadcast.Hub {[ 1%nat := with_ready true (layer_new false default_session_options);
                   2%nat := with_ready true (layer_new false default_session_options);
                   3%nat := layer_new false default_session_options ]} unit_empty.
Lemma broadcast_reaches_witness :
  let h' := (Broadcast.send_message (λ _, ret tt) None (Broadcast.create_event_channel (Some 2%nat) None)
    (Some (ConnectionList.Clients [1; 2; 3]%nat)) (Some [5]) None example_hub).2 in
  (λ l, u_id <$> sent_ l) <$> Broadcast.layers h' !! 1%nat = Some [102] ∧
  Broadcast.layers h' !! 2%nat = Broadcast.layers example_hub !! 2%nat.
Proof.
  pose proof (broadcast_reaches (λ _, ret tt) None (Broadcast.create_event_channel (Some 2%nat) None)
    (ConnectionList.Clients [1; 2; 3]%nat) (Some [5]) example_hub eq_refl) as Hb.
  cbv zeta in Hb. cbv zeta. destruct (Broadcast.send_message _ _ _ _ _ _ _) as [r h'].
  destruct Hb as [_ Hb].
  - apply (bool_decide_unpack _). vm_compute. exact I.
  - cbn [snd]. rewrite !Hb. split; vm_compute; reflexivity.
Defined.
