(* ===== verification/ServerChannel.v ===== *)
(** * ServerChannel: calling the clients

    [lib/vtrc/server/channels.cpp]: the channel to one client and the rest of the
    broadcast channel.  Sending a message and the raw call are those of the client's
    channel word for word, over a channel with the other types; what differs is
    the preparation of a message for a raw call. *)

From S2P Require Import Prelude DataQueue Hash Transformer Messages CondQueues CallContext.
From S2P Require Import ProtocolLayer Registry RpcChannel.

Module Unicast.
Section Unicast.
Context (get_service : string → option rpc_service_wrapper).
Context (chan_error_cb : string → M layer unit) (error_cb : Z → Z → string → M layer unit).

Definition alive (l : layer) : bool := connection_ l.
Definition disable_wait (c : rpc_channel) : bool := has_flag (get_flags c) DISABLE_WAIT.
Definition message_type (c : rpc_channel) : Z :=
  if has_flag (get_flags c) USE_CONTEXT_CALL then MESSAGE_SERVER_CALLBACK else MESSAGE_SERVER_CALL.

Definition raw_call (c : rpc_channel) (turns : list (M (condition_queues lowlevel_unit) unit))
    (llu : nat) (req : option bytes) (events : option (lowlevel_unit → M layer unit)) :
    M layer (unit + option lowlevel_unit) :=
  let* l := get in
  if negb (alive l) then
    chan_error_cb "Connection lost" ;;;
    ret (inl tt)
  else
    configure_message chan_error_cb c (message_type c) req llu ;;;
    let* l := get in
    let call_id := u_id (unit_at l llu) in
    if uo_wait' (u_opt (unit_at l llu)) then
      with_layer_context llu (λ ctx,
        on_thread (let* x := ctx_at ctx in ctx_set ctx (set_call_options (Some (Options None None None None)) x)) ;;;
        call_and_wait_raw chan_error_cb turns call_id llu events)
    else
      call_rpc_method (unit_at l llu) ;;;
      ret (inl tt).

(** The options of a call; in the code this text stands twice. *)
Definition set_call_opts (c : rpc_channel) (u : lowlevel_unit) : lowlevel_unit :=
  let call_opt := get_method_options in
  if disable_wait c then set_wait false u
  else set_accept_callbacks (default true (o_accept_callbacks call_opt))
         (set_wait (default true (o_wait call_opt)) u).

Definition make_lowlevel (c : rpc_channel) (serv_name meth_name : string) (req : option bytes)
    (res : bool) : M layer (option nat) :=
  let* llu := unit_new (create_lowlevel serv_name meth_name res) in
  let* l := get in
  if negb (alive l) then
    chan_error_cb "Connection lost" ;;;
    ret None
  else
    unit_modify llu (set_call_opts c) ;;;
    configure_message chan_error_cb c (message_type c) req llu ;;;
    ret (Some llu).

Definition send_message (c : rpc_channel) (turns : list (M (condition_queues lowlevel_unit) unit))
    (llu : nat) (set_failed : option (string → M layer unit)) (request : option bytes)
    (response : bool) (done : option (M layer unit)) (done_at : option nat) :
    M layer (option (bool * option bytes)) :=
  with_closure_holder done
    (let* l := get in
     if negb (alive l) then
       (match set_failed with Some f => f "Connection lost"%string | None => ret tt end) ;;;
       chan_error_cb "Connection lost" ;;;
       ret (Some (false, None))
     else
       unit_modify llu (set_call_opts c) ;;;
       configure_message chan_error_cb c (message_type c) request llu ;;;
       let* l := get in
       let call_id := u_id (unit_at l llu) in
       if uo_wait' (u_opt (unit_at l llu)) then
         with_layer_context llu (λ ctx,
           on_thread (let* x := ctx_at ctx in ctx_set ctx (set_call_options (Some get_method_options) x)) ;;;
           on_thread (let* x := ctx_at ctx in ctx_set ctx (set_done_closure done_at x)) ;;;
           call_and_wait get_service chan_error_cb error_cb turns call_id llu response)
       else
         call_rpc_method (unit_at l llu) ;;;
         ret (Some (true, None))).
End Unicast.

(** [channels::unicast]; [cc] is the message of the call the thread is in. *)
Definition create (flags : Z) (cc : option lowlevel_unit) : rpc_channel := unicast_channel flags cc.
Definition create_event_channel (disable_wait : bool) (cc : option lowlevel_unit) : rpc_channel :=
  create (if disable_wait then DISABLE_WAIT else DEFAULT) cc.
Definition create_callback_channel (disable_wait : bool) (cc : option lowlevel_unit) : rpc_channel :=
  create (Z.lor USE_CONTEXT_CALL (if disable_wait then DISABLE_WAIT else DEFAULT)) cc.
End Unicast.

(** The rest of the broadcast channel: [clients] is the list, if it is still there. *)
Definition broadcast_alive (clients : option ConnectionList.connection_list) : bool :=
  bool_decide (is_Some clients).
Definition broadcast_make_lowlevel (chan_error_cb : string → M Broadcast.hub unit) (c : Broadcast.broadcast_channel)
    (clients : option ConnectionList.connection_list) (serv_name meth_name : string) (res : bool) :
    M Broadcast.hub (option lowlevel_unit) :=
  match clients with
  | None => chan_error_cb "Connection lost" ;;; ret None
  | Some _ =>
      ret (Some (set_wait false (set_message_type (Broadcast.message_type_ c)
        (create_lowlevel serv_name meth_name res))))
  end.

(** ** Lemmas *)

Section Channel.
Context (gs : string → option rpc_service_wrapper).
Context (ce : string → M layer unit) (ee : Z → Z → string → M layer unit).

(** Over a channel of the server the two sides run the same code. *)
Lemma unicast_message_type flags cc :
  Unicast.message_type (Unicast.create flags cc) = message_type (Unicast.create flags cc).
Proof. done. Qed.
Lemma unicast_raw_call flags cc : Unicast.raw_call ce (Unicast.create flags cc) = send_raw ce (Unicast.create flags cc).
Proof. done. Qed.
Lemma unicast_send_message flags cc :
  Unicast.send_message gs ce ee (Unicast.create flags cc) = send_message gs ce ee (Unicast.create flags cc).
Proof. done. Qed.

(** A message configured for a direct call. *)
Definition direct (mt i : Z) (req : option bytes) (u : lowlevel_unit) : lowlevel_unit :=
  set_message_type mt (match req with Some r => set_request (Some r) (set_id i u) | None => set_id i u end).
Definition configured_state (mt : Z) (req : option bytes) (llu : nat) (l : layer) : layer :=
  let i := u64 (rpc_index_ l + 2) in
  with_units (<[llu := direct mt i req (unit_at l llu)]> (units_ l)) (unit_fresh_ l) (with_rpc_index i l).
Lemma configure_direct c mt req llu l :
  mt ≠ callback_type_ c → configure_message ce c mt req llu l = (Ok tt, configured_state mt req llu l).
Proof.
  intros Hmt. unfold configure_message, bind, next_index, get, configured, unit_modify, modify.
  by rewrite (proj2 (Z.eqb_neq _ _) Hmt).
Qed.
Lemma configured_unit mt req llu l :
  unit_at (configured_state mt req llu l) llu = direct mt (u64 (rpc_index_ l + 2)) req (unit_at l llu).
Proof. unfold unit_at at 1. cbn. by rewrite lookup_insert_eq. Qed.
Lemma direct_wait mt i req u : uo_wait' (u_opt (direct mt i req u)) = uo_wait' (u_opt u).
Proof. by destruct req. Qed.

(** The state a message was prepared in, [f] being what is done to it first. *)
Definition prepared_state (f : lowlevel_unit → lowlevel_unit) (mt : Z) (req : option bytes) (u : lowlevel_unit)
    (l : layer) : layer :=
  configured_state mt req (unit_fresh_ l) (unit_modify (unit_fresh_ l) f (unit_new u l).2).2.
Lemma prepared_unit f mt req u l :
  unit_at (prepared_state f mt req u l) (unit_fresh_ l) = direct mt (u64 (rpc_index_ l + 2)) req (f u).
Proof.
  unfold prepared_state. rewrite configured_unit. unfold unit_at, unit_modify, unit_new. cbn.
  rewrite lookup_insert_eq. cbn. unfold unit_at. cbn. by rewrite lookup_insert_eq.
Qed.

Lemma server_prepares flags cc serv meth req res l (c := Unicast.create flags cc) :
  has_flag flags USE_CONTEXT_CALL = false → connection_ l = true →
  Unicast.make_lowlevel ce c serv meth req res l =
    (Ok (Some (unit_fresh_ l)),
     prepared_state (Unicast.set_call_opts c) MESSAGE_SERVER_CALL req (create_lowlevel serv meth res) l).
Proof.
  intros Hx Hc. unfold Unicast.make_lowlevel. erewrite bind_ok by reflexivity. rewrite bind_get.
  unfold Unicast.alive. cbn [connection_ unit_new with_units]. rewrite Hc. cbn [negb].
  unfold unit_modify at 1. rewrite bind_modify.
  assert (Ht : Unicast.message_type c = MESSAGE_SERVER_CALL) by (unfold Unicast.message_type; cbn; by rewrite Hx).
  rewrite Ht. by erewrite bind_ok by (apply configure_direct; discriminate).
Qed.
Lemma client_prepares flags cc serv meth req res l (c := rpc_channel_c flags cc) :
  has_flag flags USE_CONTEXT_CALL = false → connection_ l = true →
  make_lowlevel ce c serv meth req res l =
    (Ok (Some (unit_fresh_ l)), prepared_state (λ u, u) MESSAGE_CLIENT_CALL req (create_lowlevel serv meth res) l).
Proof.
  intros Hx Hc. unfold make_lowlevel. erewrite bind_ok by reflexivity. rewrite bind_get.
  cbn [connection_ unit_new with_units]. rewrite Hc. cbn [negb].
  assert (Ht : message_type c = MESSAGE_CLIENT_CALL) by (unfold message_type; cbn; by rewrite Hx).
  rewrite Ht. rewrite (bind_ok _ _ _ _ _ (configure_direct c MESSAGE_CLIENT_CALL req _ _ ltac:(discriminate))).
  unfold prepared_state, configured_state, unit_modify, modify, unit_at, ret. cbn.
  rewrite !insert_insert_eq, !lookup_insert_eq. cbn. rewrite ?lookup_insert_eq. reflexivity.
Qed.

(** The message [u] went out, under the second next number, and nobody waits. *)
Definition sent_at_once (l l2 : layer) (mt : Z) (req : option bytes) : Prop :=
  rpc_queue_ l2 = rpc_queue_ l ∧ thread_ l2 = thread_ l ∧
  ∃ u, sent_ l2 = sent_ l ++ [u] ∧ u_id u = u64 (u64 (rpc_index_ l + 2) + 2) ∧
       u_message_type u = mt ∧ f_request u = req.

Lemma prepared_sent f mt req u l :
  f_request (f u) = None →
  sent_at_once l
    (with_sent (sent_ (prepared_state f mt req u l) ++
       [direct mt (u64 (rpc_index_ (prepared_state f mt req u l) + 2)) req (unit_at (prepared_state f mt req u l) (unit_fresh_ l))])
       (configured_state mt req (unit_fresh_ l) (prepared_state f mt req u l))) mt req.
Proof.
  intros Hf. rewrite prepared_unit. split; [done|]. split; [done|]. eexists. split; [reflexivity|].
  by destruct req.
Qed.
Lemma server_wait flags cc mt req serv meth res l (f := Unicast.set_call_opts (Unicast.create flags cc)) :
  uo_wait' (u_opt (unit_at (prepared_state f mt req (create_lowlevel serv meth res) l) (unit_fresh_ l))) =
  negb (has_flag flags DISABLE_WAIT).
Proof.
  rewrite prepared_unit, direct_wait. unfold f, Unicast.set_call_opts, Unicast.disable_wait. cbn.
  by destruct (has_flag flags DISABLE_WAIT).
Qed.

(** A raw call of a message that says not to wait. *)
Lemma raw_sends c mt turns a req events l :
  message_type c = mt → mt ≠ callback_type_ c → connection_ l = true → ready_ l = true →
  uo_wait' (u_opt (unit_at l a)) = false →
  send_raw ce c turns a req events l =
    (Ok (inl tt), with_sent (sent_ l ++ [direct mt (u64 (rpc_index_ l + 2)) req (unit_at l a)]) (configured_state mt req a l)).
Proof.
  intros <- Hne Hc Hr Hw. unfold send_raw. rewrite bind_get, Hc. cbn [negb].
  rewrite (bind_ok _ _ _ _ _ (configure_direct c _ req a l Hne)), bind_get. cbv zeta.
  rewrite configured_unit, direct_wait, Hw. unfold call_rpc_method, bind, get. cbn [ready_ configured_state with_units with_rpc_index].
  by rewrite Hr.
Qed.
(** One that does not: without a turn the caller still waits. *)
Lemma raw_still_waits id a events l :
  ready_ l = true → ∃ l2, call_and_wait_raw ce [] id a events l = (Ok (inr None), l2) ∧ thread_ l2 = thread_ l.
Proof.
  intros Hr. unfold call_and_wait_raw. rewrite bind_get, Hr. cbn [negb]. unfold with_slot_erase.
  assert (Hq : ∃ q, add_queue id (rpc_queue_ l) = (Ok tt, q)).
  { unfold add_queue. destruct (store_ (rpc_queue_ l) !! id); by eexists. }
  destruct Hq as [q Hq]. rewrite bind_get.
  rewrite (bind_ok (call_rpc_method_slot id (unit_at l a)) _ l tt (with_sent (sent_ l ++ [unit_at l a]) (with_rpc_queue q l))).
  2: { unfold call_rpc_method_slot, on_rpc_queue, bind, get. by rewrite Hr, Hq. }
  destruct (bool_decide (is_Some events)); cbn [raw_loop]; unfold bind, ret, unit_modify, modify, erase_slot, on_rpc_queue;
    (eexists; split; [reflexivity|]); cbn; by destruct (erase_queue id q).
Qed.
Lemma raw_waiting c mt a req events l :
  stack_ok (thread_ l) → message_type c = mt → mt ≠ callback_type_ c → connection_ l = true → ready_ l = true →
  uo_wait' (u_opt (unit_at l a)) = true →
  ∃ l', send_raw ce c [] a req events l = (Ok (inr None), l').
Proof.
  intros Hst <- Hne Hc Hr Hw. unfold send_raw. rewrite bind_get, Hc. cbn [negb].
  rewrite (bind_ok _ _ _ _ _ (configure_direct c _ req a l Hne)), bind_get. cbv zeta.
  rewrite configured_unit, direct_wait, Hw. set (l1 := configured_state _ req a l). set (u := direct _ _ _ _).
  assert (Hr1 : ready_ l1 = true) by exact Hr. assert (Hst1 : stack_ok (thread_ l1)) by exact Hst. clearbody l1.
  match goal with |- context [with_layer_context a ?b l1] => set (body := b) end.
  set (l2 := with_thread (Thread (<[ctx_fresh (thread_ l1) := set_call_options (Some (Options None None None None))
      (Context a (head (default [] (s_call_context (thread_ l1)))) None None
         (blen (ctx_fresh (thread_ l1) :: default [] (s_call_context (thread_ l1)))) false)]> (ctx_heap (thread_ (enter a l1))))
    (ctx_fresh (thread_ (enter a l1))) (s_call_context (thread_ (enter a l1)))) (enter a l1)).
  destruct (raw_still_waits (u_id u) a events l2 Hr1) as (l3 & Hb & Ht).
  assert (Hbody : body (ctx_fresh (thread_ l1)) (enter a l1) = (Ok (inr None), l3)).
  { unfold body. erewrite bind_ok by (eapply ctx_update_ok; apply lookup_insert_eq). exact Hb. }
  eexists. eapply with_layer_context_ok; [exact Hst1|exact Hbody|]. rewrite Ht. cbn. by rewrite insert_insert_eq.
Qed.
End Channel.

(** ** Properties *)

(** A message that was prepared on a channel and is then sent with a
    raw call, the connection being ready.  On a channel of the server the call waits
    for an answer unless the channel is not to wait, and then the message is sent once,
    under its next number, no slot is opened and the call returns at once.  On a
    channel of the client the preparation sets no option, and the call never waits,
    whatever the flags of the channel. *)
Theorem raw_call_waits ce flags cc serv meth req res events l :
  has_flag flags USE_CONTEXT_CALL = false → connection_ l = true → ready_ l = true → stack_ok (thread_ l) →
  (∃ a l1 l2,
     Unicast.make_lowlevel ce (Unicast.create flags cc) serv meth req res l = (Ok (Some a), l1) ∧
     if has_flag flags DISABLE_WAIT
     then (∀ turns, Unicast.raw_call ce (Unicast.create flags cc) turns a req events l1 = (Ok (inl tt), l2)) ∧
          sent_at_once l l2 MESSAGE_SERVER_CALL req
     else Unicast.raw_call ce (Unicast.create flags cc) [] a req events l1 = (Ok (inr None), l2)) ∧
  (∃ a l1 l2,
     make_lowlevel ce (rpc_channel_c flags cc) serv meth req res l = (Ok (Some a), l1) ∧
     (∀ turns, send_raw ce (rpc_channel_c flags cc) turns a req events l1 = (Ok (inl tt), l2)) ∧
     sent_at_once l l2 MESSAGE_CLIENT_CALL req).
Proof.
  intros Hx Hc Hr Hst. split; exists (unit_fresh_ l).
  - assert (Ht : message_type (Unicast.create flags cc) = MESSAGE_SERVER_CALL) by (unfold message_type; cbn; by rewrite Hx).
    rewrite unicast_raw_call, server_prepares by done.
    pose proof (server_wait flags cc MESSAGE_SERVER_CALL req serv meth res l) as Hw.
    destruct (has_flag flags DISABLE_WAIT).
    + do 2 eexists. split; [done|]. split; [intros turns; by apply (raw_sends ce _ MESSAGE_SERVER_CALL)|].
      apply prepared_sent. unfold Unicast.set_call_opts. by destruct (Unicast.disable_wait _).
    + destruct (raw_waiting ce (Unicast.create flags cc) MESSAGE_SERVER_CALL (unit_fresh_ l) req events
        (prepared_state (Unicast.set_call_opts (Unicast.create flags cc)) MESSAGE_SERVER_CALL req
          (create_lowlevel serv meth res) l)) as [l2 Hl2]; try done. by do 2 eexists.
  - do 2 eexists. split; [by apply client_prepares|].
    assert (Ht : message_type (rpc_channel_c flags cc) = MESSAGE_CLIENT_CALL) by (unfold message_type; cbn; by rewrite Hx).
    split; [intros turns; apply (raw_sends ce _ MESSAGE_CLIENT_CALL); try done; by rewrite prepared_unit, direct_wait|].
    by apply prepared_sent.
Qed.

Lemma raw_call_waits_witness :
  ∃ a l1 l2, Unicast.make_lowlevel default_chan_error_cb (Unicast.create DEFAULT None) "s" "m" (Some [1]) true waiting_layer = (Ok (Some a), l1) ∧
    Unicast.raw_call default_chan_error_cb (Unicast.create DEFAULT None) [] a (Some [1]) None l1 = (Ok (inr None), l2).
Proof.
  refine (proj1 (raw_call_waits default_chan_error_cb DEFAULT None "s" "m" (Some [1]) true None waiting_layer
    eq_refl eq_refl eq_refl _)).
  split; [exact I| |discriminate]. intros a [c H]. by vm_compute in H.
Defined.
