(* ===== verification/DList.v ===== *)
(** * DList: the doubly linked list of the observers

    [details::list] of [include/vtrc/common/details/list.h]: nodes with two pointers
    in a heap of their own, and a header with the two ends and a counter.  Several
    lists share the heap, since [splice_back] moves nodes from one to another.

    An iterator is a node pointer; what follows a null or a dangling one is
    undefined.  The representation predicate [rep] ties a header to the sequence of
    its nodes, and each operation is proved against the operation of sequences it
    stands for, with the nodes it leaves alone. *)

From S2P Require Import Prelude.

Section DList.
Context {A : Type}.

Record node : Type := Node { prev_ : option nat; next_ : option nat; node_data : A }.

(** The allocator: the nodes that are alive and the next address. *)
Record store : Type := Store { nodes : gmap nat node; fresh : nat }.
Definition store_new : store := Store ∅ 0.

Record dlist : Type := DL { front_ : option nat; back_ : option nat; size_ : Z }.
Definition list_new : dlist := DL None None 0.

(** ** Pointers *)

Definition node_at (a : nat) : M store node := λ s,
  match nodes s !! a with
  | Some n => (Ok n, s)
  | None => (Raise (EUndefined "node"), s)
  end.
Definition node_put (a : nat) (n : node) : M store unit :=
  modify (λ s, Store (<[a := n]> (nodes s)) (fresh s)).
Definition set_next (p : option nat) (a : nat) : M store unit :=
  let* n := node_at a in node_put a (Node (prev_ n) p (node_data n)).
Definition set_prev (p : option nat) (a : nat) : M store unit :=
  let* n := node_at a in node_put a (Node p (next_ n) (node_data n)).
Definition node_delete (a : nat) : M store unit :=
  let* n := node_at a in modify (λ s, Store (delete a (nodes s)) (fresh s)).
Definition node_new (data : A) : M store nat := λ s,
  (Ok (fresh s), Store (<[fresh s := Node None None data]> (nodes s)) (Datatypes.S (fresh s))).

(** Dereferencing an iterator and moving it. *)
Definition deref_itr (itr : option nat) : M store node :=
  match itr with
  | Some a => node_at a
  | None => raise (EUndefined "iterator")
  end.
Definition itr_data (itr : option nat) : M store A := let* n := deref_itr itr in ret (node_data n).
Definition itr_next (itr : option nat) : M store (option nat) := let* n := deref_itr itr in ret (next_ n).
Definition itr_prev (itr : option nat) : M store (option nat) := let* n := deref_itr itr in ret (prev_ n).

(** ** The list *)

Definition begin (l : dlist) : option nat := front_ l.
Definition rbegin (l : dlist) : option nat := back_ l.
Definition size (l : dlist) : Z := size_ l.

(** [cerase], for a node pointer that is not null. *)
Definition cerase (a : nat) (l : dlist) : M store dlist :=
  let* n := node_at a in
  match prev_ n with Some p => set_next (next_ n) p | None => ret tt end ;;;
  let* n := node_at a in
  match next_ n with Some q => set_prev (prev_ n) q | None => ret tt end ;;;
  let* n := node_at a in
  let back := if bool_decide (Some a = back_ l) then prev_ n else back_ l in
  let front := if bool_decide (Some a = front_ l) then next_ n else front_ l in
  node_delete a ;;;
  ret (DL front back (u64 (size_ l - 1))).

Definition erase (itr : option nat) (l : dlist) : M store (option nat * dlist) :=
  match itr with
  | Some a =>
      let* n := node_at a in
      let* l := cerase a l in
      ret (next_ n, l)
  | None => ret (itr, l)
  end.
Definition rerase (itr : option nat) (l : dlist) : M store (option nat * dlist) :=
  match itr with
  | Some a =>
      let* n := node_at a in
      let* l := cerase a l in
      ret (prev_ n, l)
  | None => ret (itr, l)
  end.

Definition push_back (data : A) (l : dlist) : M store dlist :=
  let* a := node_new data in
  match front_ l with
  | Some _ =>
      set_prev (back_ l) a ;;;
      match back_ l with
      | Some b => set_next (Some a) b
      | None => raise (EUndefined "back_")
      end ;;;
      ret (DL (front_ l) (Some a) (u64 (size_ l + 1)))
  | None => ret (DL (Some a) (Some a) (u64 (size_ l + 1)))
  end.

Definition push_front (data : A) (l : dlist) : M store dlist :=
  let* a := node_new data in
  match front_ l with
  | Some f =>
      set_next (Some f) a ;;;
      set_prev (Some a) f ;;;
      ret (DL (Some a) (back_ l) (u64 (size_ l + 1)))
  | None => ret (DL (Some a) (Some a) (u64 (size_ l + 1)))
  end.

(** Two different lists; the result is both headers. *)
Definition splice_back (l other : dlist) : M store (dlist * dlist) :=
  let* ends :=
    match front_ l, front_ other with
    | None, _ => ret (front_ other, back_ other)
    | Some f, Some g =>
        match back_ l with
        | Some b => set_next (Some g) b
        | None => raise (EUndefined "back_")
        end ;;;
        set_prev (back_ l) g ;;;
        ret (Some f, back_ other)
    | Some f, None => ret (Some f, back_ l)
    end in
  ret (DL ends.1 ends.2 (u64 (size_ l + size_ other)), DL None None 0).

Definition swap (l other : dlist) : dlist * dlist := (other, l).

(** [clear] frees every node from the front, and leaves the counter. *)
Fixpoint clear_loop (fuel : nat) (p : option nat) : M store unit :=
  match p with
  | None => ret tt
  | Some a =>
      match fuel with
      | O => raise (EUndefined "fuel")
      | S fuel =>
          let* n := node_at a in
          node_delete a ;;;
          clear_loop fuel (next_ n)
      end
  end.
(** Each turn frees a node, so there are no more turns than nodes. *)
Definition clear (l : dlist) : M store dlist := λ s,
  (clear_loop (base.size (nodes s)) (front_ l) ;;; ret (DL None None (size_ l))) s.

(** [list( begin, end )] over the data of a sequence, and the copy constructor,
    which walks the other list. *)
Fixpoint push_all (xs : list A) (l : dlist) : M store dlist :=
  match xs with
  | [] => ret l
  | x :: xs => let* l := push_back x l in push_all xs l
  end.
Definition list_of (xs : list A) : M store dlist :=
  let* l := push_all xs list_new in
  ret (swap list_new l).1.

(** A client of the list: it moves iterators, reads, and runs a list of commands. *)
Fixpoint walk (k : nat) (itr : option nat) : M store (option nat) :=
  match k, itr with
  | S k, Some _ => let* itr := itr_next itr in walk k itr
  | _, _ => ret itr
  end.
Fixpoint walk_back (k : nat) (itr : option nat) : M store (option nat) :=
  match k, itr with
  | S k, Some _ => let* itr := itr_prev itr in walk_back k itr
  | _, _ => ret itr
  end.
Fixpoint read_forward (k : nat) (itr : option nat) : M store (list A) :=
  match k, itr with
  | S k, Some _ =>
      let* x := itr_data itr in let* itr := itr_next itr in
      let* xs := read_forward k itr in ret (x :: xs)
  | _, _ => ret []
  end.
Fixpoint read_back (k : nat) (itr : option nat) : M store (list A) :=
  match k, itr with
  | S k, Some _ =>
      let* x := itr_data itr in let* itr := itr_prev itr in
      let* xs := read_back k itr in ret (x :: xs)
  | _, _ => ret []
  end.

Inductive cmd : Type :=
  | CPushBack (x : A) | CPushFront (x : A)
  | CErase (k : nat) | CRerase (k : nat)
  | CSplice (zs : list A).
Definition run_cmd (c : cmd) (l : dlist) : M store dlist :=
  match c with
  | CPushBack x => push_back x l
  | CPushFront x => push_front x l
  | CErase k => let* itr := walk k (begin l) in let* r := erase itr l in ret r.2
  | CRerase k => let* itr := walk_back k (rbegin l) in let* r := rerase itr l in ret r.2
  | CSplice zs => let* o := list_of zs in let* r := splice_back l o in ret r.1
  end.
Fixpoint run_cmds (cs : list cmd) (l : dlist) : M store dlist :=
  match cs with
  | [] => ret l
  | c :: cs => let* l := run_cmd c l in run_cmds cs l
  end.

(** The same commands on a sequence. *)
Definition cut {B} (k : nat) (xs : list B) : list B := take k xs ++ drop (S k) xs.
Definition spec_cmd (c : cmd) (xs : list A) : list A :=
  match c with
  | CPushBack x => xs ++ [x]
  | CPushFront x => x :: xs
  | CErase k => cut k xs
  | CRerase k => reverse (cut k (reverse xs))
  | CSplice zs => xs ++ zs
  end.

(** ** The sequence a header stands for *)

Implicit Types (xs : list (nat * A)) (s : store).

Definition first (xs : list (nat * A)) (d : option nat) : option nat :=
  match xs with (a, _) :: _ => Some a | [] => d end.
Definition final (xs : list (nat * A)) (d : option nat) : option nat :=
  match last xs with Some (a, _) => Some a | None => d end.

(** Nodes linked in order, after [p] and before [n]. *)
Fixpoint linked (h : gmap nat node) (p : option nat) (xs : list (nat * A)) (n : option nat) : Prop :=
  match xs with
  | [] => True
  | (a, x) :: xs => h !! a = Some (Node p (first xs n) x) ∧ linked h (Some a) xs n
  end.

Record rep s (l : dlist) xs : Prop := {
  rep_nodup : NoDup xs.*1;
  rep_linked : linked (nodes s) None xs None;
  rep_front : front_ l = first xs None;
  rep_back : back_ l = final xs None;
  rep_size : size_ l = u64 (blen xs)
}.
Definition store_ok s : Prop := ∀ a, is_Some (nodes s !! a) → (a < fresh s)%nat.

(** The nodes outside [dom] are as they were. *)
Definition untouched (dom : list nat) s s' : Prop :=
  (∀ b, b ∉ dom → (b < fresh s)%nat → nodes s' !! b = nodes s !! b) ∧ (fresh s ≤ fresh s')%nat.

(** ** Lemmas on linked nodes *)

Lemma final_app xs ys d : final (xs ++ ys) d = final ys (final xs d).
Proof. unfold final. destruct ys as [|y ys _] using rev_ind; [by rewrite app_nil_r|].
  by rewrite app_assoc, !last_snoc. Qed.
Lemma first_app xs ys d : first (xs ++ ys) d = first xs (first ys d).
Proof. by destruct xs as [|[]]. Qed.
Lemma final_cons a x xs d : final ((a, x) :: xs) d = final xs (Some a).
Proof. exact (final_app [(a, x)] xs d). Qed.

Lemma linked_app h p xs ys n :
  linked h p (xs ++ ys) n ↔ linked h p xs (first ys n) ∧ linked h (final xs p) ys n.
Proof.
  revert p. induction xs as [|[a x] xs IH]; intros p; simpl; [by split; [intros|intros [??]]|].
  rewrite first_app, final_cons, IH. tauto.
Qed.

Lemma linked_frame h h' p xs n :
  (∀ a, a ∈ xs.*1 → h' !! a = h !! a) → linked h p xs n → linked h' p xs n.
Proof.
  revert p. induction xs as [|[a x] xs IH]; intros p Hf Hl; simpl in *; [done|].
  destruct Hl as [Ha Hl]. split; [rewrite Hf; [done|left]|].
  apply IH; [|done]. intros b Hb. apply Hf. by right.
Qed.

Lemma linked_node h p pre a x post n :
  linked h p (pre ++ (a, x) :: post) n → h !! a = Some (Node (final pre p) (first post n) x).
Proof. rewrite linked_app. simpl. tauto. Qed.

Lemma linked_live h p xs n a : linked h p xs n → a ∈ xs.*1 → is_Some (h !! a).
Proof.
  intros Hl Ha. apply list_elem_of_fmap in Ha as ([b x] & -> & (pre & post & ->)%list_elem_of_split).
  simpl. rewrite (linked_node _ _ _ _ _ _ _ Hl). eauto.
Qed.

(** Relinking an end of a chain. *)
Lemma linked_set_next h p pre b y m m' :
  NoDup (pre ++ [(b, y)]).*1 → linked h p (pre ++ [(b, y)]) m →
  linked (<[b := Node (final pre p) m' y]> h) p (pre ++ [(b, y)]) m'.
Proof.
  rewrite fmap_app, !linked_app. intros (_ & Hd & _)%NoDup_app [Hl _]. simpl. split.
  - apply linked_frame with h; [|done]. intros a Ha. apply lookup_insert_ne. intros <-.
    by apply (Hd b Ha), list_elem_of_singleton.
  - by rewrite lookup_insert_eq.
Qed.

Lemma linked_set_prev h p p' q z post n :
  NoDup ((q, z) :: post).*1 → linked h p ((q, z) :: post) n →
  linked (<[q := Node p' (first post n) z]> h) p' ((q, z) :: post) n.
Proof.
  simpl. intros [Hq _]%NoDup_cons [_ Hl]. split; [apply lookup_insert_eq|].
  apply linked_frame with h; [|done]. intros a Ha. apply lookup_insert_ne. by intros <-.
Qed.

Lemma rep_live s l xs a : rep s l xs → a ∈ xs.*1 → is_Some (nodes s !! a).
Proof. intros H. eapply linked_live, H. Qed.

(** The frame rule: a list whose nodes are left alone still stands for its sequence. *)
Lemma rep_frame dom s s' l xs :
  store_ok s → untouched dom s s' → (∀ a, a ∈ xs.*1 → a ∉ dom) → rep s l xs → rep s' l xs.
Proof.
  intros Hok [Hu _] Hd Hr. destruct Hr as [Hn Hl Hf Hb Hs] eqn:E. split; try done.
  apply linked_frame with (nodes s); [|done]. intros a Ha. apply Hu; [by apply Hd|].
  apply Hok. by eapply rep_live.
Qed.

(** ** The operations on sequences *)

Definition upd s (a : nat) (n : node) : store := Store (<[a := n]> (nodes s)) (fresh s).

Lemma runs_node_at s a n (Q : node → store → Prop) :
  nodes s !! a = Some n → Q n s → runs (node_at a) s Q.
Proof. unfold runs, node_at. by intros ->. Qed.
Lemma runs_set_next s p a n (Q : unit → store → Prop) :
  nodes s !! a = Some n → Q tt (upd s a (Node (prev_ n) p (node_data n))) → runs (set_next p a) s Q.
Proof. intros Hn HQ. apply runs_bind. by eapply runs_node_at. Qed.
Lemma runs_set_prev s p a n (Q : unit → store → Prop) :
  nodes s !! a = Some n → Q tt (upd s a (Node p (next_ n) (node_data n))) → runs (set_prev p a) s Q.
Proof. intros Hn HQ. apply runs_bind. by eapply runs_node_at. Qed.

Lemma runs_node_delete s a n (Q : unit → store → Prop) :
  nodes s !! a = Some n → Q tt (Store (delete a (nodes s)) (fresh s)) → runs (node_delete a) s Q.
Proof. intros Hn HQ. apply runs_bind. by eapply runs_node_at. Qed.

Lemma untouched_refl dom s : untouched dom s s.
Proof. by split. Qed.
Lemma untouched_trans dom s1 s2 s3 :
  untouched dom s1 s2 → untouched dom s2 s3 → untouched dom s1 s3.
Proof.
  intros [H1 F1] [H2 F2]. split; [|lia]. intros b Hb Hf. rewrite H2 by (done || lia). by apply H1.
Qed.
Lemma untouched_upd dom s a n : a ∈ dom ∨ (fresh s ≤ a)%nat → untouched dom s (upd s a n).
Proof.
  intros Ha. split; [|done]. intros b Hb Hf. simpl. apply lookup_insert_ne.
  intros ->. destruct Ha; [done|lia].
Qed.
Lemma upd_ok s a n : store_ok s → (a < fresh s)%nat → store_ok (upd s a n).
Proof.
  intros Hok Ha b. simpl. destruct (decide (a = b)) as [<-|]; [done|].
  rewrite lookup_insert_ne by done. apply Hok.
Qed.

Lemma rep_fresh s l xs : store_ok s → rep s l xs → fresh s ∉ xs.*1.
Proof. intros Hok Hr Hin. pose proof (Hok _ (rep_live _ _ _ _ Hr Hin)). lia. Qed.

Lemma rep_new s : rep s list_new [].
Proof. split; done || constructor. Qed.

(** What an operation does to its list: from [xs] to [ys], the rest of the heap as it was. *)
Record becomes s xs s' l' ys : Prop := {
  becomes_rep : rep s' l' ys;
  becomes_ok : store_ok s';
  becomes_frame : untouched xs.*1 s s'
}.

Lemma push_back_spec s l xs x :
  store_ok s → rep s l xs →
  runs (push_back x l) s (λ l' s', becomes s xs s' l' (xs ++ [(fresh s, x)]) ∧ fresh s' = S (fresh s)).
Proof.
  intros Hok Hr. pose proof (rep_fresh _ _ _ Hok Hr) as Hfr. destruct Hr as [Hn Hl Hf Hb Hs].
  unfold push_back. apply runs_bind. unfold runs at 1, node_new. rewrite Hf.
  set (s1 := Store _ _). assert (Hok1 : store_ok s1).
  { intros a. simpl. destruct (decide (fresh s = a)) as [<-|].
    - intros _. lia.
    - rewrite lookup_insert_ne by done. intros H. pose proof (Hok a H). lia. }
  assert (Hu1 : ∀ dom, untouched dom s s1).
  { intros dom. split; [|simpl; lia]. intros b _ Hb'. simpl. apply lookup_insert_ne. lia. }
  destruct xs as [|[b y] pre _] using rev_ind.
  - simpl. split; [|done]. split; [split|..]; auto; simpl.
    + apply NoDup_singleton.
    + by rewrite lookup_insert_eq.
    + rewrite Hs. unfold u64. apply wrap_add_l.
  - rewrite first_app. simpl. assert (∃ f, first pre (Some b) = Some f) as [f Hff]
      by (destruct pre as [|[]]; simpl; eauto).
    rewrite Hff.
    rewrite Hb, final_app. simpl. unfold final at 1. simpl.
    assert (Hbn : nodes s !! b = Some (Node (final pre None) None y)) by apply (linked_node _ _ _ _ _ _ _ Hl).
    assert (Hne : fresh s ≠ b).
    { intros <-. apply Hfr. rewrite fmap_app. apply elem_of_app. right. by left. }
    apply runs_bind. eapply runs_set_prev; [apply lookup_insert_eq|].
    apply runs_bind. eapply runs_set_next; [simpl; rewrite !lookup_insert_ne by done; exact Hbn|].
    simpl. split; [|done]. split; [split| |]; simpl.
    + rewrite fmap_app. apply NoDup_app. split_and!; [done| |apply NoDup_singleton].
      intros a Ha ->%list_elem_of_singleton. done.
    + apply linked_app. split.
      * apply linked_set_next with (m := None); [done|]. apply linked_frame with (nodes s); [|done].
        intros a Ha. rewrite !lookup_insert_ne; [done|by intros <-..].
      * simpl. rewrite lookup_insert_ne, lookup_insert_eq, final_app by done. done.
    + rewrite !first_app. by simpl.
    + by rewrite final_app.
    + rewrite Hs, (blen_app (_ ++ _)). apply wrap_add_l.
    + apply upd_ok; [apply upd_ok; [done|simpl; lia]|simpl].
      pose proof (Hok b ltac:(eauto)). lia.
    + split; [|simpl; lia]. intros a Ha Hlt. simpl. rewrite !lookup_insert_ne; [done|lia..|].
      intros <-. apply Ha. rewrite fmap_app. apply elem_of_app. right. by left.
Qed.

(** Nodes of [dom] are rewritten; none is allocated or freed. *)
Record rewritten (dom : list nat) s s' : Prop := {
  rw_same : ∀ b, b ∉ dom → nodes s' !! b = nodes s !! b;
  rw_fresh : fresh s' = fresh s;
  rw_live : ∀ b, is_Some (nodes s' !! b) → is_Some (nodes s !! b)
}.

Lemma rewritten_upd dom s a n : a ∈ dom → is_Some (nodes s !! a) → rewritten dom s (upd s a n).
Proof.
  intros Ha Hl. split; simpl; [|done|].
  - intros b Hb. apply lookup_insert_ne. by intros <-.
  - intros b. destruct (decide (a = b)) as [<-|]; [done|by rewrite lookup_insert_ne].
Qed.
Lemma rewritten_frame dom s s' p xs n :
  rewritten dom s s' → (∀ a, a ∈ xs.*1 → a ∉ dom) → linked (nodes s) p xs n → linked (nodes s') p xs n.
Proof. intros Hr Hd. apply linked_frame. intros a Ha. by apply Hr, Hd. Qed.
Lemma rewritten_ok dom s s' : rewritten dom s s' → store_ok s → store_ok s'.
Proof. intros [_ Hf Hl] Hok a Ha. rewrite Hf. by apply Hok, Hl. Qed.

(** The two relinking steps the operations are made of. *)
Lemma relink_next s pre m m' :
  NoDup pre.*1 → linked (nodes s) None pre m →
  runs (match final pre None with Some p => set_next m' p | None => ret tt end) s
    (λ _ s', linked (nodes s') None pre m' ∧ rewritten pre.*1 s s').
Proof.
  intros Hn Hl. destruct pre as [|[b y] pre _] using rev_ind; [by repeat split|].
  rewrite final_app. unfold final at 1. simpl.
  pose proof (linked_node _ _ pre b y [] _ Hl) as Hb.
  eapply runs_set_next; [exact Hb|]. split; [by apply linked_set_next with (m := m)|].
  apply rewritten_upd; [|eauto]. rewrite fmap_app. apply elem_of_app. right. by left.
Qed.

Lemma relink_prev s p p' post :
  NoDup post.*1 → linked (nodes s) p post None →
  runs (match first post None with Some q => set_prev p' q | None => ret tt end) s
    (λ _ s', linked (nodes s') p' post None ∧ rewritten post.*1 s s').
Proof.
  intros Hn Hl. destruct post as [|[q z] post]; [by repeat split|]. simpl first.
  pose proof Hl as [Hq _]. eapply runs_set_prev; [exact Hq|].
  split; [by apply linked_set_prev with (p := p)|]. apply rewritten_upd; [by left|eauto].
Qed.

Lemma becomes_del s xs a s1 l' ys :
  a ∈ xs.*1 → rewritten xs.*1 s s1 → store_ok s →
  rep (Store (delete a (nodes s1)) (fresh s1)) l' ys →
  becomes s xs (Store (delete a (nodes s1)) (fresh s1)) l' ys.
Proof.
  intros Ha Hr Hok Hrep. split; [done| |].
  - intros b [n Hb]. simpl in *. apply lookup_delete_Some in Hb as [_ Hb].
    apply (rewritten_ok _ _ _ Hr Hok b). eauto.
  - split; simpl; [|by rewrite (rw_fresh _ _ _ Hr)]. intros b Hb _.
    rewrite lookup_delete_ne by (by intros <-). by apply Hr.
Qed.

Lemma first_final_ne a xs : a ∉ xs.*1 → Some a ≠ first xs None ∧ Some a ≠ final xs None.
Proof.
  intros Ha. split; intros He; apply Ha.
  - destruct xs as [|[]]; [done|]. injection He as ->. by left.
  - destruct xs as [|[b y] xs _] using rev_ind; [done|]. rewrite final_app in He.
    injection He as ->. rewrite fmap_app. apply elem_of_app. right. by left.
Qed.

Lemma final_default xs d d' : xs ≠ [] → final xs d = final xs d'.
Proof. destruct xs as [|[b y] xs _] using rev_ind; [done|]. by rewrite !final_app. Qed.
Lemma first_default xs d d' : xs ≠ [] → first xs d = first xs d'.
Proof. by destruct xs as [|[]]. Qed.

(** The ends after a node is cut out. *)
Lemma cut_back a x pre post :
  NoDup (pre ++ (a, x) :: post).*1 →
  (if bool_decide (Some a = final (pre ++ (a, x) :: post) None) then final pre None
   else final (pre ++ (a, x) :: post) None) = final (pre ++ post) None.
Proof.
  rewrite fmap_app, !final_app, final_cons. intros (_ & _ & Hn)%NoDup_app.
  destruct (decide (post = [])) as [->|Hp]; [by rewrite bool_decide_true|].
  rewrite (final_default post (Some a) None), (final_default post (final pre None) None) by done.
  rewrite bool_decide_false; [done|].
  apply first_final_ne. simpl in Hn. by apply NoDup_cons in Hn as [? _].
Qed.
Lemma cut_front a x pre post :
  NoDup (pre ++ (a, x) :: post).*1 →
  (if bool_decide (Some a = first (pre ++ (a, x) :: post) None) then first post None
   else first (pre ++ (a, x) :: post) None) = first (pre ++ post) None.
Proof.
  rewrite fmap_app, !first_app. intros (_ & Hd & _)%NoDup_app. simpl.
  destruct (decide (pre = [])) as [->|Hp]; [simpl; by rewrite bool_decide_true|].
  rewrite (first_default pre (Some a) None), (first_default pre (first post None) None) by done.
  rewrite bool_decide_false; [done|].
  apply first_final_ne. intros Ha. apply (Hd a Ha). by left.
Qed.

Lemma NoDup_cut (a : nat) (x : A) (pre post : list (nat * A)) :
  NoDup (pre ++ (a, x) :: post).*1 →
  NoDup pre.*1 ∧ NoDup post.*1 ∧ (a ∉ pre.*1) ∧ (a ∉ post.*1) ∧ (∀ b, b ∈ pre.*1 → b ∉ post.*1).
Proof.
  rewrite fmap_app. intros (H1 & H2 & H3)%NoDup_app. simpl in *.
  apply NoDup_cons in H3 as [H3 H4]. split_and!; [done..| |done|].
  - intros Ha. apply (H2 a Ha). by left.
  - intros b Hb Hb'. apply (H2 b Hb). by right.
Qed.

Lemma cerase_spec s l pre a x post :
  store_ok s → rep s l (pre ++ (a, x) :: post) →
  runs (cerase a l) s (λ l' s',
    becomes s (pre ++ (a, x) :: post) s' l' (pre ++ post) ∧ nodes s' !! a = None).
Proof.
  intros Hok [Hn Hl Hf Hb Hs]. pose proof (NoDup_cut _ _ _ _ Hn) as (Hpre & Hpost & Ha1 & Ha2 & Hd).
  pose proof (linked_node _ _ _ _ _ _ _ Hl) as Ha.
  pose proof Hl as [Hl1 [_ Hl2]]%linked_app. simpl in Hl1.
  unfold cerase. apply runs_bind. eapply runs_node_at; [exact Ha|]. simpl.
  apply runs_bind. eapply runs_mono; [by apply relink_next with (m := Some a)|]. intros _ s1 [Hp1 R1].
  assert (Ha' : nodes s1 !! a = Some (Node (final pre None) (first post None) x)) by (by rewrite (rw_same _ _ _ R1)).
  apply runs_bind. eapply runs_node_at; [exact Ha'|]. simpl.
  apply runs_bind. eapply runs_mono; [apply relink_prev with (p := Some a); [done|]|].
  { apply (rewritten_frame _ _ _ _ _ _ R1); [|done]. intros b Hb1 Hb2. by apply (Hd b). }
  intros _ s2 [Hp2 R2].
  assert (Ha'' : nodes s2 !! a = Some (Node (final pre None) (first post None) x)) by (by rewrite (rw_same _ _ _ R2)).
  apply runs_bind. eapply runs_node_at; [exact Ha''|]. simpl.
  apply runs_bind. eapply runs_node_delete; [exact Ha''|]. simpl.
  split; [|apply lookup_delete_eq]. apply becomes_del; [| |done|].
  - rewrite fmap_app. apply elem_of_app. right. by left.
  - split.
    + intros b. rewrite fmap_app, not_elem_of_app. simpl. rewrite not_elem_of_cons.
      intros (? & ? & ?). by rewrite (rw_same _ _ _ R2), (rw_same _ _ _ R1).
    + by rewrite (rw_fresh _ _ _ R2), (rw_fresh _ _ _ R1).
    + intros b Hb'. by apply R1, R2.
  - rewrite Hb, Hf, cut_back, cut_front by done. split; [| |done|done|].
    + simpl. rewrite fmap_app. by apply NoDup_app.
    + apply linked_frame with (nodes s2).
      { intros b Hb'. simpl. apply lookup_delete_ne. intros <-.
        rewrite fmap_app in Hb'. by apply elem_of_app in Hb' as [?|?]. }
      apply linked_app. split; [|done]. by apply (rewritten_frame _ _ _ _ _ _ R2).
    + simpl. rewrite Hs. unfold wrap. rewrite Zminus_mod_idemp_l. f_equal.
      unfold blen. rewrite !length_app. simpl. lia.
Qed.

Lemma erase_spec s l pre a x post :
  store_ok s → rep s l (pre ++ (a, x) :: post) →
  runs (erase (Some a) l) s (λ r s', r.1 = first post None ∧
    becomes s (pre ++ (a, x) :: post) s' r.2 (pre ++ post) ∧ nodes s' !! a = None).
Proof.
  intros Hok Hr. unfold erase. apply runs_bind.
  eapply runs_node_at; [eapply linked_node, Hr|]. simpl. apply runs_bind.
  eapply runs_mono; [by apply cerase_spec|]. intros l' s' [??]. done.
Qed.
Lemma rerase_spec s l pre a x post :
  store_ok s → rep s l (pre ++ (a, x) :: post) →
  runs (rerase (Some a) l) s (λ r s', r.1 = final pre None ∧
    becomes s (pre ++ (a, x) :: post) s' r.2 (pre ++ post) ∧ nodes s' !! a = None).
Proof.
  intros Hok Hr. unfold rerase. apply runs_bind.
  eapply runs_node_at; [eapply linked_node, Hr|]. simpl. apply runs_bind.
  eapply runs_mono; [by apply cerase_spec|]. intros l' s' [??]. done.
Qed.

Lemma rep_node s l pre a x post :
  rep s l (pre ++ (a, x) :: post) → nodes s !! a = Some (Node (final pre None) (first post None) x).
Proof. intros H. eapply linked_node, H. Qed.

Lemma node_new_ok s x s1 :
  store_ok s → s1 = Store (<[fresh s := Node None None x]> (nodes s)) (S (fresh s)) →
  store_ok s1 ∧ (∀ b, b ≠ fresh s → nodes s1 !! b = nodes s !! b).
Proof.
  intros Hok ->. split.
  - intros b. simpl. destruct (decide (fresh s = b)) as [<-|]; [lia|].
    rewrite lookup_insert_ne by done. intros Hb. apply Hok in Hb. lia.
  - intros b Hb. simpl. by apply lookup_insert_ne.
Qed.

Lemma push_front_spec s l xs x :
  store_ok s → rep s l xs →
  runs (push_front x l) s (λ l' s', becomes s xs s' l' ((fresh s, x) :: xs)).
Proof.
  intros Hok Hr. pose proof (rep_fresh _ _ _ Hok Hr) as Hfr. destruct Hr as [Hn Hl Hf Hb Hs].
  unfold push_front. apply runs_bind. unfold runs at 1, node_new. rewrite Hf.
  remember (Store _ _) as s1 eqn:E1. destruct (node_new_ok s x s1 Hok E1) as [Hok1 Hu1].
  assert (Hsz : u64 (size_ l + 1) = u64 (blen ((fresh s, x) :: xs))).
  { rewrite Hs. unfold wrap. rewrite Zplus_mod_idemp_l. f_equal. unfold blen. simpl. lia. }
  destruct xs as [|[f y] post].
  - split; [split|..]; auto; simpl; [apply NoDup_singleton|by rewrite E1; simpl; rewrite lookup_insert_eq|].
    split; [|rewrite E1; simpl; lia]. intros b _ Hb'. apply Hu1. lia.
  - simpl in Hfr. apply not_elem_of_cons in Hfr as [Hne Hfr]. pose proof Hl as [Hfn _].
    apply runs_bind. eapply runs_set_next; [by rewrite E1; simpl; rewrite lookup_insert_eq|].
    apply runs_bind. eapply runs_set_prev; [simpl; rewrite lookup_insert_ne, Hu1 by done; exact Hfn|].
    simpl. split; [split| |]; simpl.
    + apply NoDup_cons. split; [by apply not_elem_of_cons|done].
    + split; [by rewrite lookup_insert_ne, lookup_insert_eq|].
      apply (linked_set_prev _ None); [done|]. apply linked_frame with (nodes s); [|done].
      intros b Hb'. assert (b ≠ fresh s) by (intros ->; by apply elem_of_cons in Hb' as [?|?]).
      rewrite lookup_insert_ne by done. by apply Hu1.
    + done.
    + by rewrite Hb, !final_cons.
    + done.
    + apply upd_ok; [apply upd_ok; [done|rewrite E1; simpl; lia]|simpl].
      pose proof (Hok f ltac:(eauto)). rewrite E1. simpl. lia.
    + split; [|simpl; rewrite E1; simpl; lia]. intros a Ha Hlt. simpl.
      rewrite !lookup_insert_ne; [apply Hu1; lia|lia|]. intros <-. apply Ha. by left.
Qed.

Lemma splice_back_spec s l xs o ys :
  store_ok s → rep s l xs → rep s o ys → (∀ a, a ∈ xs.*1 → a ∉ ys.*1) →
  runs (splice_back l o) s (λ r s', rep s' r.1 (xs ++ ys) ∧ rep s' r.2 [] ∧
    store_ok s' ∧ rewritten (xs ++ ys).*1 s s').
Proof.
  intros Hok [Hn1 Hl1 Hf1 Hb1 Hs1] [Hn2 Hl2 Hf2 Hb2 Hs2] Hd. unfold splice_back.
  assert (Hsz : u64 (size_ l + size_ o) = u64 (blen (xs ++ ys))).
  { rewrite Hs1, Hs2, blen_app. unfold wrap. by rewrite <-Zplus_mod. }
  assert (Hnd : NoDup (xs ++ ys).*1) by (rewrite fmap_app; by apply NoDup_app).
  assert (Hrefl : ∀ dom, rewritten dom s s) by (by split).
  apply runs_bind. rewrite Hf1, Hf2.
  destruct xs as [|[a x] xs _] using rev_ind.
  { simpl. split_and!; [split|split| |]; simpl; try done; constructor. }
  rewrite first_app. assert (∃ f, first xs (first [(a, x)] None) = Some f) as [f Hff]
    by (destruct xs as [|[]]; simpl; eauto). rewrite Hff.
  destruct ys as [|[q z] ys].
  { simpl. rewrite app_nil_r in *. split_and!; [split|split| |]; simpl; try done; try constructor.
    by rewrite first_app. }
  simpl first at 1. apply runs_bind. rewrite Hb1, final_app. unfold final at 1. simpl last.
  pose proof (linked_node _ _ _ _ _ _ _ Hl1) as Ha.
  assert (Hq : q ∉ (xs ++ [(a, x)]).*1) by (intros Hq; apply (Hd q Hq); by left).
  eapply runs_set_next; [exact Ha|]. apply runs_bind.
  assert (Hq' : q ≠ a) by (intros ->; apply Hq; rewrite fmap_app; apply elem_of_app; right; by left).
  pose proof Hl2 as [Hqn _].
  eapply runs_set_prev; [simpl; rewrite lookup_insert_ne by done; exact Hqn|].
  set (s1 := upd s a _).
  assert (R1 : rewritten (xs ++ [(a, x)]).*1 s s1).
  { apply rewritten_upd; [|eauto]. rewrite fmap_app. apply elem_of_app. right. by left. }
  assert (R2 : rewritten ((q, z) :: ys).*1 s1 (upd s1 q (Node (Some a) (first ys None) z))).
  { apply rewritten_upd; [by left|]. simpl. rewrite lookup_insert_ne by done. eauto. }
  simpl. split_and!; [split|split| |]; simpl; try done; try constructor.
  - apply linked_app. split.
    + apply (rewritten_frame _ _ _ _ _ _ R2); [done|]. by apply linked_set_next with (m := None).
    + rewrite final_app. apply (linked_set_prev _ None); [done|].
      apply (rewritten_frame _ _ _ _ _ _ R1); [|done]. intros b Hb Hb'. by apply (Hd b).
  - rewrite !first_app. exact (eq_sym Hff).
  - by rewrite Hb2, final_app, !final_cons.
  - eapply rewritten_ok, rewritten_ok; done.
  - intros b. rewrite fmap_app, not_elem_of_app. intros [??].
    by rewrite (rw_same _ _ _ R2), (rw_same _ _ _ R1).
  - done.
  - intros b Hb. by apply R1, R2.
Qed.

(** A list is no longer than the heap: the fuel of the loops over it. *)
Lemma rep_length s l xs : rep s l xs → (length xs ≤ base.size (nodes s))%nat.
Proof.
  intros Hr. rewrite <-size_dom, <-(length_fmap fst), <-(size_list_to_set (C := gset nat)) by apply Hr.
  apply subseteq_size. intros a Ha%elem_of_list_to_set. apply elem_of_dom. by eapply rep_live.
Qed.

Lemma clear_loop_runs fuel s p xs :
  NoDup xs.*1 → linked (nodes s) p xs None → (length xs ≤ fuel)%nat →
  runs (clear_loop fuel (first xs None)) s (λ _ s',
    fresh s' = fresh s ∧ (∀ a, a ∈ xs.*1 → nodes s' !! a = None) ∧
    (∀ a, a ∉ xs.*1 → nodes s' !! a = nodes s !! a)).
Proof.
  revert s p xs. induction fuel as [|fuel IH]; intros s p [|[a x] xs] Hn Hl Hlen; simpl in *; try lia.
  1, 2: split_and!; [done|by intros a ?%not_elem_of_nil|done].
  apply NoDup_cons in Hn as [Ha Hn]. destruct Hl as [Hna Hl].
  apply runs_bind. eapply runs_node_at; [exact Hna|]. apply runs_bind.
  eapply runs_node_delete; [exact Hna|]. simpl. eapply runs_mono.
  { apply (IH _ (Some a)); [done| |lia]. apply linked_frame with (nodes s); [|done].
    intros b Hb. simpl. apply lookup_delete_ne. by intros <-. }
  intros _ s' (Hf & Hd & Hs). split_and!; [done| |]; intros b.
  - intros [->|Hb]%elem_of_cons; [|by apply Hd]. rewrite Hs by done. apply lookup_delete_eq.
  - intros [? Hb]%not_elem_of_cons. rewrite Hs by done. by apply lookup_delete_ne.
Qed.

(** [clear] frees the nodes, but the header keeps the size it had. *)
Lemma clear_spec s l xs :
  store_ok s → rep s l xs →
  runs (clear l) s (λ l' s', l' = DL None None (size_ l) ∧ store_ok s' ∧ untouched xs.*1 s s' ∧
    (∀ a, a ∈ xs.*1 → nodes s' !! a = None)).
Proof.
  intros Hok Hr. change (runs (clear_loop (base.size (nodes s)) (front_ l) ;;; ret (DL None None (size_ l))) s
    (λ l' s', l' = DL None None (size_ l) ∧ store_ok s' ∧ untouched xs.*1 s s' ∧
    (∀ a, a ∈ xs.*1 → nodes s' !! a = None))).
  apply runs_bind. rewrite (rep_front _ _ _ Hr). eapply runs_mono.
  { eapply clear_loop_runs; [apply Hr|apply Hr|by eapply rep_length]. }
  intros _ s' (Hf & Hd & Hs). split_and!; [done| | |done].
  - intros b Hb. rewrite Hf. destruct (decide (b ∈ xs.*1)) as [Hin|Hin]; [rewrite Hd in Hb by done; by destruct Hb|].
    rewrite Hs in Hb by done. by apply Hok.
  - split; [|lia]. intros b Hb _. by apply Hs.
Qed.

Lemma push_all_spec (zs : list A) s l xs :
  store_ok s → rep s l xs →
  runs (push_all zs l) s (λ l' s', ∃ ys, ys.*2 = zs ∧ rep s' l' (xs ++ ys) ∧ store_ok s' ∧
    untouched xs.*1 s s' ∧ (∀ a, a ∈ ys.*1 → (fresh s ≤ a)%nat)).
Proof.
  revert s l xs. induction zs as [|z zs IH]; intros s l xs Hok Hr; simpl.
  { exists []. rewrite app_nil_r. split_and!; [done..|apply untouched_refl|by intros a ?%not_elem_of_nil]. }
  apply runs_bind. eapply runs_mono; [by apply push_back_spec|]. intros l1 s1 [[Hr1 Hok1 Hu1] Hf1].
  eapply runs_mono; [by apply IH|]. intros l2 s2 (ys & <- & Hr2 & Hok2 & Hu2 & Hy).
  exists ((fresh s, z) :: ys). rewrite cons_middle, app_assoc. split_and!; [done..| |].
  - split; [|destruct Hu2; lia]. intros b Hb Hlt. destruct Hu2 as [Hu2 _].
    rewrite Hu2; [by apply Hu1| |lia]. rewrite fmap_app, not_elem_of_app. split; [done|].
    apply not_elem_of_cons. split; [simpl; lia|apply not_elem_of_nil].
  - simpl. intros a [->|Ha]%elem_of_cons; [lia|]. apply Hy in Ha. lia.
Qed.

Lemma list_of_spec (zs : list A) s :
  store_ok s →
  runs (list_of zs) s (λ l s', ∃ ys, ys.*2 = zs ∧ rep s' l ys ∧ store_ok s' ∧ untouched [] s s' ∧
    (∀ a, a ∈ ys.*1 → (fresh s ≤ a)%nat)).
Proof.
  intros Hok. apply runs_bind. eapply runs_mono; [apply push_all_spec; [done|apply rep_new]|].
  intros l s' (ys & ?). by exists ys.
Qed.

(** ** Clients *)

Lemma runs_walk s l k pre post :
  rep s l (pre ++ post) →
  runs (walk k (first post None)) s (λ itr s', s' = s ∧ itr = first (drop k post) None).
Proof.
  revert pre post. induction k as [|k IH]; intros pre post Hr; [by rewrite drop_0|].
  destruct post as [|[a x] post]; [done|]. simpl. apply runs_bind, runs_bind.
  eapply runs_node_at; [by eapply rep_node|]. apply (IH (pre ++ [(a, x)])). by rewrite <-app_assoc.
Qed.

Lemma runs_walk_back s l k pre post :
  rep s l (pre ++ post) →
  runs (walk_back k (final pre None)) s (λ itr s', s' = s ∧ itr = first (drop k (reverse pre)) None).
Proof.
  revert pre post. induction k as [|k IH]; intros pre post Hr.
  { rewrite drop_0. destruct pre as [|[a x] pre _] using rev_ind; [done|].
    by rewrite final_app, reverse_snoc. }
  destruct pre as [|[a x] pre _] using rev_ind; [done|]. rewrite <-app_assoc in Hr.
  rewrite final_app, reverse_snoc. simpl. apply runs_bind, runs_bind.
  eapply runs_node_at; [by eapply rep_node|]. by apply (IH pre ((a, x) :: post)).
Qed.

Lemma runs_read_forward s l k pre post :
  rep s l (pre ++ post) → (length post ≤ k)%nat →
  runs (read_forward k (first post None)) s (λ ds s', s' = s ∧ ds = post.*2).
Proof.
  revert pre post. induction k as [|k IH]; intros pre [|[a x] post] Hr Hk; simpl in *; try done; try lia.
  pose proof (rep_node _ _ _ _ _ _ Hr) as Hn.
  apply runs_bind, runs_bind. eapply runs_node_at; [exact Hn|]. apply runs_bind, runs_bind.
  eapply runs_node_at; [exact Hn|]. apply runs_bind. eapply runs_mono.
  { apply (IH (pre ++ [(a, x)])); [by rewrite <-app_assoc|lia]. }
  by intros ds s' [-> ->].
Qed.

Lemma runs_read_back s l k pre post :
  rep s l (pre ++ post) → (length pre ≤ k)%nat →
  runs (read_back k (final pre None)) s (λ ds s', s' = s ∧ ds = reverse pre.*2).
Proof.
  revert pre post. induction k as [|k IH]; intros pre post Hr Hk.
  { by destruct pre; [|simpl in Hk; lia]. }
  destruct pre as [|[a x] pre _] using rev_ind; [done|]. rewrite <-app_assoc in Hr.
  rewrite length_app in Hk. simpl in Hk.
  pose proof (rep_node _ _ _ _ _ _ Hr) as Hn. rewrite final_app, fmap_app. simpl. rewrite reverse_snoc.
  apply runs_bind, runs_bind. eapply runs_node_at; [exact Hn|]. apply runs_bind, runs_bind.
  eapply runs_node_at; [exact Hn|]. apply runs_bind. eapply runs_mono.
  { apply (IH pre ((a, x) :: post)); [done|lia]. }
  by intros ds s' [-> ->].
Qed.

Lemma cut_split {B} k (ds : list B) :
  (cut k ds = ds ∧ drop k ds = []) ∨
  ∃ pre x post, ds = pre ++ x :: post ∧ drop k ds = x :: post ∧ cut k ds = pre ++ post.
Proof.
  unfold cut. destruct (drop k ds) as [|x post] eqn:E; [left|right].
  - rewrite <-(take_drop k ds) at 3. rewrite E. by rewrite <-Nat.add_1_r, <-drop_drop, E.
  - exists (take k ds), x, post. rewrite <-Nat.add_1_r, <-drop_drop, E. simpl. rewrite drop_0.
    split_and!; [|done..]. rewrite <-E. by rewrite take_drop.
Qed.

Lemma rep_frame_becomes s xs s' l' ys o zs :
  store_ok s → becomes s xs s' l' ys → rep s o zs → (∀ a, a ∈ zs.*1 → a ∉ xs.*1) → rep s' o zs.
Proof. intros Hok [_ _ Hu] Hr Hd. by eapply rep_frame. Qed.

Lemma cut_fmap k xs : (cut k xs).*2 = cut k xs.*2.
Proof. unfold cut. by rewrite fmap_app, fmap_take, fmap_drop. Qed.

Lemma run_cmd_spec s l xs c :
  store_ok s → rep s l xs →
  runs (run_cmd c l) s (λ l' s', ∃ ys, ys.*2 = spec_cmd c xs.*2 ∧ rep s' l' ys ∧ store_ok s').
Proof.
  intros Hok Hr. destruct c as [x|x|k|k|zs]; simpl.
  - eapply runs_mono; [by apply push_back_spec|]. intros l' s' [[??] _].
    eexists. split_and!; [|done..]. by rewrite fmap_app.
  - eapply runs_mono; [by apply push_front_spec|]. intros l' s' [??]. eexists. by split_and!; [|done..].
  - apply runs_bind. unfold begin. rewrite (rep_front _ _ _ Hr).
    eapply runs_mono; [by apply (runs_walk _ l k [])|]. intros itr s' [-> ->].
    rewrite <-cut_fmap. destruct (cut_split k xs) as [[-> ->]|(pre & [a x] & post & -> & -> & ->)].
    { simpl. by exists xs. }
    apply runs_bind. eapply runs_mono; [by apply erase_spec|]. intros [itr l'] s' (_ & [??] & _).
    by eexists.
  - apply runs_bind. unfold rbegin. rewrite (rep_back _ _ _ Hr).
    eapply runs_mono; [apply (runs_walk_back _ l k xs []); by rewrite app_nil_r|]. intros itr s' [-> ->].
    rewrite <-fmap_reverse, <-cut_fmap, <-fmap_reverse.
    destruct (cut_split k (reverse xs)) as [[-> ->]|(pre & [a x] & post & E & -> & ->)].
    { simpl. exists xs. by rewrite reverse_involutive. }
    assert (xs = reverse post ++ (a, x) :: reverse pre) as ->.
    { rewrite <-(reverse_involutive xs), E, reverse_app, reverse_cons. by rewrite <-app_assoc. }
    apply runs_bind. eapply runs_mono; [by apply rerase_spec|]. intros [itr l'] s' (_ & [??] & _).
    eexists. by rewrite reverse_app.
  - apply runs_bind. eapply runs_mono; [by apply list_of_spec|]. intros o s1 (ys & <- & Hro & Hok1 & Hu & Hy).
    apply runs_bind. eapply runs_mono.
    { apply splice_back_spec; [done| |exact Hro|].
      - apply (rep_frame [] s s1 l xs Hok Hu); [|done]. intros a _. apply not_elem_of_nil.
      - intros a Ha Ha'%Hy. pose proof (Hok _ (rep_live _ _ _ _ Hr Ha)). lia. }
    intros [l' o'] s2 (Hr' & _ & Hok2 & _). exists (xs ++ ys). by rewrite fmap_app.
Qed.

Lemma run_cmds_spec s l xs cs :
  store_ok s → rep s l xs →
  runs (run_cmds cs l) s (λ l' s', ∃ ys, ys.*2 = fold_left (λ ds c, spec_cmd c ds) cs xs.*2 ∧
    rep s' l' ys ∧ store_ok s').
Proof.
  revert s l xs. induction cs as [|c cs IH]; intros s l xs Hok Hr; simpl; [by exists xs|].
  apply runs_bind. eapply runs_mono; [by apply run_cmd_spec|]. intros l' s' (ys & <- & ? & ?). by apply IH.
Qed.

(** The pointer list is a sequence.  Whatever commands run on a new
    list (push at either end, erase through an iterator moved from the front or from
    the back, splice another list), no null or freed node is ever followed, and
    the walk from [begin] then reads the sequence the same commands give on plain
    sequences and stops at its end, the walk from [rbegin] reads it backwards, and
    [size] is its length (as a [size_t]). *)
Theorem list_refines_sequence cs :
  let ds := fold_left (λ ds c, spec_cmd c ds) cs [] in
  runs (let* l := run_cmds cs list_new in
        let* f := read_forward (S (length ds)) (begin l) in
        let* b := read_back (S (length ds)) (rbegin l) in
        ret (f, b, size l)) store_new
    (λ r _, r = (ds, reverse ds, u64 (blen ds))).
Proof.
  intros ds. apply runs_bind. eapply runs_mono.
  { apply (run_cmds_spec _ _ [] cs); [|apply rep_new]. intros a [n Hn]. simpl in Hn; by rewrite lookup_empty in Hn. }
  intros l s (ys & Hys & Hr & _). simpl in Hys. fold ds in Hys.
  assert (Hlen : (length ys ≤ S (length ds))%nat) by (rewrite <-Hys, length_fmap; lia).
  apply runs_bind. unfold begin. rewrite (rep_front _ _ _ Hr).
  eapply runs_mono; [by apply (runs_read_forward _ l _ [])|]. intros f s' [-> ->].
  apply runs_bind. unfold rbegin. rewrite (rep_back _ _ _ Hr).
  eapply runs_mono; [apply (runs_read_back _ l _ ys []); [by rewrite app_nil_r|done]|].
  intros b s' [-> ->]. rewrite Hys. unfold size. rewrite (rep_size _ _ _ Hr).
  assert (blen ys = blen ds) as -> by (unfold blen; by rewrite <-Hys, length_fmap). done.
Qed.
End DList.
Arguments node : clear implicits.
Arguments store : clear implicits.
