(* ===== verification/Observer.v ===== *)
(** * Observer: subscriptions and emission

    [observer::base] of [include/vtrc/common/observer/base.h] over the pointer lists
    of DList, with the handles of subscription.h and scoped-subscription.h: slots
    are subscribed into [added_], an emission splices them into [list_] and walks it,
    and an unsubscription only notes the id in [removed_] until the walk meets it.

    What a slot does is a parameter ([exec], [expired] of the slot traits): it can
    subscribe, unsubscribe, change the world and throw, and it can clear or emit the
    signal that runs it, as the mutexes of the library's signals are recursive
    (signal-declaration.h, observer/define.h).  The mutexes only order the operations.
    The specification is a list of the subscribed slots in the order of their ids, and
    emission visits the slots subscribed when it began, skipping those that were
    unsubscribed since.  It gives no meaning to a slot that clears or emits its own
    signal: the walk of the outer emission may be left on a freed node
    ([clear_within_emission], [removed_within_emission]). *)

From Stdlib Require Import Sorted.
From S2P Require Import Prelude DList.

Section Observer.
Context {Slot W : Type}.

(** What the body of a slot asks of the signal that runs it. *)
Inductive act : Type :=
  | SConnect (slot : Slot)
  | SUnsubscribe (id : Z)
  | SUnsubscribeAll
  | SEmit.

(** The slot traits.  [exec] also gives the new world and how the slot left. *)
Context (exec : Slot → W → list act * option exn * W) (expired : Slot → W → bool).

Record slot_info : Type := SI { slot_ : Slot; si_id : Z }.

(** [erased] records the calls of [slot_traits::erase]. *)
Record impl : Type := Impl {
  heap : store slot_info;
  list_ : dlist;
  added_ : dlist;
  removed_ : list Z;
  id_ : Z;
  world : W;
  erased : list Z
}.
Definition impl_new (w : W) : impl := Impl store_new list_new list_new [] 1 w [].

Definition on_heap {R} (m : M (store slot_info) R) : M impl R := λ o,
  let '(r, h) := m (heap o) in
  (r, Impl h (list_ o) (added_ o) (removed_ o) (id_ o) (world o) (erased o)).
Definition set_list (l : dlist) : M impl unit :=
  modify (λ o, Impl (heap o) l (added_ o) (removed_ o) (id_ o) (world o) (erased o)).
Definition set_added (l : dlist) : M impl unit :=
  modify (λ o, Impl (heap o) (list_ o) l (removed_ o) (id_ o) (world o) (erased o)).
Definition set_removed (r : list Z) : M impl unit :=
  modify (λ o, Impl (heap o) (list_ o) (added_ o) r (id_ o) (world o) (erased o)).
Definition set_world (w : W) : M impl unit :=
  modify (λ o, Impl (heap o) (list_ o) (added_ o) (removed_ o) (id_ o) w (erased o)).

(** [std::set<size_t>]: its elements in increasing order. *)
Fixpoint set_insert (x : Z) (xs : list Z) : list Z :=
  match xs with
  | [] => [x]
  | y :: ys => if x <? y then x :: y :: ys else if x =? y then y :: ys else y :: set_insert x ys
  end.
Definition set_erase (x : Z) (xs : list Z) : list Z := filter (λ y, y ≠ x) xs.

(** ** The lists *)

Definition slot_erase (itr : option nat) : M impl unit :=
  let* d := on_heap (itr_data itr) in
  modify (λ o, Impl (heap o) (list_ o) (added_ o) (removed_ o) (id_ o) (world o) (erased o ++ [si_id d])).
Definition itr_erase (lst : dlist) (itr : option nat) : M impl (option nat * dlist) :=
  slot_erase itr ;;; on_heap (erase itr lst).
Definition itr_rerase (lst : dlist) (itr : option nat) : M impl (option nat * dlist) :=
  slot_erase itr ;;; on_heap (rerase itr lst).

(** [for( ; b && (b->id_ < id); ++b )] and [for( ; b && (id < b->id_); --b )]: a
    turn moves to another node, so there are no more turns than nodes. *)
Fixpoint seek_up (fuel : nat) (id : Z) (itr : option nat) : M (store slot_info) (option nat) :=
  match itr with
  | None => ret None
  | Some _ =>
      let* d := itr_data itr in
      if si_id d <? id then
        match fuel with
        | O => raise (EUndefined "fuel")
        | S fuel => let* itr := itr_next itr in seek_up fuel id itr
        end
      else ret itr
  end.
Fixpoint seek_down (fuel : nat) (id : Z) (itr : option nat) : M (store slot_info) (option nat) :=
  match itr with
  | None => ret None
  | Some _ =>
      let* d := itr_data itr in
      if id <? si_id d then
        match fuel with
        | O => raise (EUndefined "fuel")
        | S fuel => let* itr := itr_prev itr in seek_down fuel id itr
        end
      else ret itr
  end.
Definition heap_size : M impl nat := gets (λ o, base.size (nodes (heap o))).

(** [itr && (itr->id_ == id)]. *)
Definition points_to (id : Z) (itr : option nat) : M impl bool :=
  match itr with
  | None => ret false
  | Some _ => let* d := on_heap (itr_data itr) in ret (si_id d =? id)
  end.

Definition remove_by_index (lst : dlist) (id : Z) : M impl dlist :=
  if 0 <? size lst then
    let* mn := on_heap (itr_data (begin lst)) in
    let* mx := on_heap (itr_data (rbegin lst)) in
    let min_id := si_id mn in
    let max_id := si_id mx in
    if (id <? min_id) || (max_id <? id) then ret lst
    else
      let* n := heap_size in
      if u64 (id - min_id) <? u64 (max_id - id) then
        let* b := on_heap (seek_up n id (begin lst)) in
        let* f := points_to id b in
        if f : bool then let* r := itr_erase lst b in ret r.2 else ret lst
      else
        let* b := on_heap (seek_down n id (rbegin lst)) in
        let* f := points_to id b in
        if f : bool then let* r := itr_rerase lst b in ret r.2 else ret lst
  else ret lst.

Definition unsubscribe (id : Z) : M impl unit :=
  let* o := get in
  set_removed (set_insert id (removed_ o)) ;;;
  let* l := remove_by_index (added_ o) id in
  set_added l.

Definition is_removed (id : Z) : M impl bool :=
  let* o := get in
  set_removed (set_erase id (removed_ o)) ;;;
  ret (bool_decide (id ∈ removed_ o)).

Fixpoint clear_removed_loop (tmp : list Z) (bl : option nat) (lst : dlist) : M impl dlist :=
  match tmp, bl with
  | b :: tmp, Some _ =>
      let* n := heap_size in
      let* bl := on_heap (seek_up n b bl) in
      let* f := points_to b bl in
      if f : bool then let* r := itr_erase lst bl in clear_removed_loop tmp r.1 r.2
      else clear_removed_loop tmp bl lst
  | _, _ => ret lst
  end.
Definition clear_removed : M impl unit :=
  let* o := get in
  set_removed [] ;;;
  let* l := clear_removed_loop (removed_ o) (begin (list_ o)) (list_ o) in
  set_list l.

Fixpoint erase_all (fuel : nat) (b : option nat) (lst : dlist) : M impl dlist :=
  match b with
  | None => ret lst
  | Some _ =>
      match fuel with
      | O => raise (EUndefined "fuel")
      | S fuel => let* r := itr_erase lst b in erase_all fuel r.1 r.2
      end
  end.
Definition clear_unsafe : M impl unit :=
  let* o := get in
  let* n := heap_size in
  let* l := erase_all n (begin (list_ o)) (list_ o) in
  set_list l ;;;
  let* l := erase_all n (begin (added_ o)) (added_ o) in
  set_added l ;;;
  set_removed [].
Definition unsubscribe_all : M impl unit := clear_unsafe.

Definition splice_added : M impl unit :=
  let* o := get in
  let* r := on_heap (splice_back (list_ o) (added_ o)) in
  set_list r.1 ;;; set_added r.2.

Definition connect (call : Slot) : M impl Z :=
  let* o := get in
  let next := id_ o in
  modify (λ o, Impl (heap o) (list_ o) (added_ o) (removed_ o) (u64 (id_ o + 1)) (world o) (erased o)) ;;;
  let* l := on_heap (push_back (SI call next) (added_ o)) in
  set_added l ;;;
  ret next.
Definition subscribe (call : Slot) : M impl Z := connect call.

(** ** Emission *)

(** [again] is the emission a slot may start, inside the one that runs it. *)
Fixpoint run_acts (again : M impl unit) (acts : list act) : M impl unit :=
  match acts with
  | [] => ret tt
  | SConnect slot :: acts => let* _ := connect slot in run_acts again acts
  | SUnsubscribe id :: acts => unsubscribe id ;;; run_acts again acts
  | SUnsubscribeAll :: acts => unsubscribe_all ;;; run_acts again acts
  | SEmit :: acts => again ;;; run_acts again acts
  end.

(** The slot runs: its requests, then its return or its exception. *)
Definition slot_exec (again : M impl unit) (slot : Slot) : M impl unit :=
  let* o := get in
  let '(acts, thrown, w) := exec slot (world o) in
  set_world w ;;; run_acts again acts ;;;
  match thrown with Some e => raise e | None => ret tt end.

(** [b->slot_] is read again when the slot is done. *)
Fixpoint emit_loop (again : M impl unit) (fuel : nat) (b : option nat) : M impl unit :=
  match b with
  | None => ret tt
  | Some _ =>
      match fuel with
      | O => raise (EUndefined "fuel")
      | S fuel =>
          let* d := on_heap (itr_data b) in
          let* f := is_removed (si_id d) in
          if f : bool then
            let* o := get in
            let* r := itr_erase (list_ o) b in
            set_list r.2 ;;; emit_loop again fuel r.1
          else
            slot_exec again (slot_ d) ;;;
            let* d := on_heap (itr_data b) in
            let* o := get in
            if expired (slot_ d) (world o) then
              let* r := itr_erase (list_ o) b in
              set_list r.2 ;;; emit_loop again fuel r.1
            else
              let* b := on_heap (itr_next b) in emit_loop again fuel b
      end
  end.
(** Each turn passes a node of [list_], which only an emission inside this one extends:
    [more] are the turns allowed for that. *)
Definition emit_once (again : M impl unit) (more : nat) : M impl unit :=
  splice_added ;;;
  let* o := get in
  let* n := heap_size in
  emit_loop again (n + more) (begin (list_ o)) ;;;
  clear_removed.
(** [depth] bounds how deep emissions nest (a thread's stack has a bound too) and how
    many nodes the inner ones may bring in. *)
Fixpoint emit (depth : nat) : M impl unit :=
  match depth with
  | O => emit_once (raise (EUndefined "depth")) 0
  | S inner => emit_once (emit inner) depth
  end.

(** ** Handles

    A [subscription] shares the unsubscriber of an id; a default one has none.  The
    signal outlives the handle here: an unsubscriber whose signal is gone does
    nothing. *)

Definition sub_unsubscribe (us : option Z) : M impl unit :=
  match us with Some key => unsubscribe key | None => ret tt end.
(** [scoped_subscription]: [reset], which its destructor amounts to, assignment from
    a [subscription], from another scoped one (the two handles afterwards), [release]. *)
Definition scoped_reset (us : option Z) : M impl (option Z) := sub_unsubscribe us ;;; ret None.
Definition scoped_assign (us o : option Z) : M impl (option Z) := sub_unsubscribe us ;;; ret o.
Definition scoped_move (us o : option Z) : M impl (option Z * option Z) :=
  let* o' := scoped_reset us in ret (o, o').
Definition scoped_release (us : option Z) : option Z * option Z := (us, None).

(** ** Specification *)

Record signal : Type := Signal { s_subs : list slot_info; s_next : Z; s_world : W }.
Definition ids (ds : list slot_info) : list Z := si_id <$> ds.
Definition without (id : Z) (ds : list slot_info) : list slot_info := filter (λ d, si_id d ≠ id) ds.

Definition spec_drop (id : Z) : M signal unit :=
  modify (λ s, Signal (without id (s_subs s)) (s_next s) (s_world s)).
(** Ids are given once, as long as a [size_t] can count them; an id that was never
    given has no meaning. *)
Definition spec_connect (slot : Slot) : M signal Z := λ s,
  if s_next s + 1 <? 2 ^ 64
  then (Ok (s_next s), Signal (s_subs s ++ [SI slot (s_next s)]) (s_next s + 1) (s_world s))
  else (Raise (EUndefined "id_"), s).
Definition spec_unsubscribe (id : Z) : M signal unit := λ s,
  if (0 <? id) && (id <? s_next s) then spec_drop id s else (Raise (EUndefined "key"), s).
Definition spec_clear : M signal unit := modify (λ s, Signal [] (s_next s) (s_world s)).

Fixpoint spec_acts (acts : list act) : M signal unit :=
  match acts with
  | [] => ret tt
  | SConnect slot :: acts => let* _ := spec_connect slot in spec_acts acts
  | SUnsubscribe id :: acts => spec_unsubscribe id ;;; spec_acts acts
  | SUnsubscribeAll :: _ | SEmit :: _ => raise (EUndefined "inside its own emission")
  end.
Definition spec_call (d : slot_info) : M signal unit :=
  let* s := get in
  let '(acts, thrown, w) := exec (slot_ d) (s_world s) in
  modify (λ s, Signal (s_subs s) (s_next s) w) ;;; spec_acts acts ;;;
  match thrown with Some e => raise e | None => ret tt end ;;;
  let* s := get in
  if expired (slot_ d) (s_world s) then spec_drop (si_id d) else ret tt.
(** The slots subscribed at the start, each called if it still is. *)
Fixpoint spec_visit (snapshot : list slot_info) : M signal unit :=
  match snapshot with
  | [] => ret tt
  | d :: snapshot =>
      let* s := get in
      (if bool_decide (si_id d ∈ ids (s_subs s)) then spec_call d else ret tt) ;;;
      spec_visit snapshot
  end.
Definition spec_emit : M signal unit := let* s := get in spec_visit (s_subs s).

(** A client: a list of operations, an exception that leaves an emission caught by
    its caller. *)
Inductive op : Type :=
  | OSubscribe (slot : Slot)
  | OUnsubscribe (id : Z)
  | OUnsubscribeAll
  | OEmit.
Definition attempt {St R} (m : M St R) : M St (res R) := λ st,
  match m st with
  | (Raise (EUndefined w), st') => (Raise (EUndefined w), st')
  | (r, st') => (Ok r, st')
  end.
Definition run_op (depth : nat) (c : op) : M impl Z :=
  match c with
  | OSubscribe slot => subscribe slot
  | OUnsubscribe id => unsubscribe id ;;; ret 0
  | OUnsubscribeAll => unsubscribe_all ;;; ret 0
  | OEmit => emit depth ;;; ret 0
  end.
Definition spec_op (c : op) : M signal Z :=
  match c with
  | OSubscribe slot => spec_connect slot
  | OUnsubscribe id => spec_unsubscribe id ;;; ret 0
  | OUnsubscribeAll => spec_clear ;;; ret 0
  | OEmit => spec_emit ;;; ret 0
  end.
Fixpoint run_all {St} (step : op → M St Z) (cs : list op) : M St (list (res Z)) :=
  match cs with
  | [] => ret []
  | c :: cs => let* r := attempt (step c) in let* rs := run_all step cs in ret (r :: rs)
  end.

(** ** Sets and sorted ids *)

Lemma set_insert_elem x xs y : y ∈ set_insert x xs ↔ y = x ∨ y ∈ xs.
Proof.
  induction xs as [|z xs IH]; simpl; [rewrite elem_of_cons; tauto|].
  destruct (x <? z) eqn:E1; [by rewrite elem_of_cons|]. destruct (x =? z) eqn:E2; bool_props.
  - subst. rewrite elem_of_cons. tauto.
  - rewrite !elem_of_cons, IH. tauto.
Qed.
Lemma set_insert_sorted x xs : StronglySorted Z.lt xs → StronglySorted Z.lt (set_insert x xs).
Proof.
  induction 1 as [|z xs Hs IH Hz]; simpl; [repeat constructor|].
  destruct (x <? z) eqn:E1; bool_props.
  { constructor; [by constructor|]. constructor; [done|]. eapply Forall_impl; [exact Hz|]. simpl. lia. }
  destruct (x =? z) eqn:E2; bool_props; [by constructor|]. constructor; [done|].
  apply Forall_forall. intros y [->|Hy]%set_insert_elem; [lia|]. rewrite Forall_forall in Hz. by apply Hz.
Qed.
Lemma sorted_app (xs ys : list Z) :
  StronglySorted Z.lt (xs ++ ys) ↔
  StronglySorted Z.lt xs ∧ StronglySorted Z.lt ys ∧ (∀ x y, x ∈ xs → y ∈ ys → x < y).
Proof.
  induction xs as [|x xs IH]; simpl.
  - split; [intros; split_and!; [constructor|done|by intros x y ?%not_elem_of_nil]|tauto].
  - split.
    + intros [Hs Hx]%StronglySorted_inv. apply IH in Hs as (? & ? & H). rewrite Forall_app in Hx.
      destruct Hx as [Hx1 Hx2]. split_and!; [by constructor|done|].
      intros a b [->|Ha]%elem_of_cons Hb; [rewrite Forall_forall in Hx2; by apply Hx2|by apply H].
    + intros ([Hs Hx]%StronglySorted_inv & Hy & H). constructor.
      * apply IH. split_and!; [done..|]. intros a b Ha Hb. apply H; [by right|done].
      * apply Forall_app. split; [done|]. apply Forall_forall. intros b Hb. apply H; [by left|done].
Qed.
Lemma sorted_bound (xs : list Z) lo hi :
  StronglySorted Z.lt xs → Forall (λ x, lo < x < hi) xs → blen xs ≤ Z.max 0 (hi - lo).
Proof.
  revert lo. unfold blen. induction xs as [|x xs IH]; intros lo; [simpl; lia|].
  intros [Hs Hx]%StronglySorted_inv [Hlo Hr]%Forall_cons. simpl.
  assert (H : Z.of_nat (length xs) ≤ Z.max 0 (hi - x)); [|lia].
  apply IH; [done|]. rewrite Forall_forall in *. intros y Hy. specialize (Hx y Hy). specialize (Hr y Hy). lia.
Qed.

(** ** The lists by id *)

Implicit Types (L A xs : list (nat * slot_info)) (o : impl).
Definition lids xs : list Z := ids xs.*2.

Lemma lids_app xs ys : lids (xs ++ ys) = lids xs ++ lids ys.
Proof. unfold lids, ids. by rewrite !fmap_app. Qed.
Lemma lids_elem xs i : i ∈ lids xs ↔ ∃ a d, (a, d) ∈ xs ∧ si_id d = i.
Proof.
  unfold lids, ids. rewrite list_elem_of_fmap. setoid_rewrite list_elem_of_fmap. split.
  - intros (d & -> & [a d'] & -> & H). eauto.
  - intros (a & d & H & <-). exists d. split; [done|]. by exists (a, d).
Qed.
Lemma lids_in xs a d : (a, d) ∈ xs → si_id d ∈ lids xs.
Proof. intros H. apply lids_elem. eauto. Qed.

Definition drop_id (id : Z) xs : list (nat * slot_info) := filter (λ x, si_id x.2 ≠ id) xs.

Lemma drop_id_absent id xs : id ∉ lids xs → drop_id id xs = xs.
Proof.
  intros H. apply filter_all. intros [a d] Hx Hid. simpl in Hid. subst.
  by apply H, (lids_in _ a).
Qed.
Lemma drop_id_split a d pre post :
  StronglySorted Z.lt (lids (pre ++ (a, d) :: post)) →
  drop_id (si_id d) (pre ++ (a, d) :: post) = pre ++ post.
Proof.
  rewrite lids_app. change (lids ((a, d) :: post)) with (si_id d :: lids post).
  intros (_ & [_ H2]%StronglySorted_inv & H1)%sorted_app. unfold drop_id. rewrite filter_app.
  rewrite filter_cons_False by (simpl; tauto). f_equal.
  - apply drop_id_absent. intros H. specialize (H1 _ (si_id d) H ltac:(by left)). lia.
  - apply drop_id_absent. intros H. rewrite Forall_forall in H2. specialize (H2 _ H). lia.
Qed.

(** ** The list operations *)

Definition with_heap (h : store slot_info) o : impl :=
  Impl h (list_ o) (added_ o) (removed_ o) (id_ o) (world o) (erased o).
Lemma runs_on_heap {R} (m : M (store slot_info) R) o (Q : R → impl → Prop) :
  runs m (heap o) (λ r h, Q r (with_heap h o)) → runs (on_heap m) o Q.
Proof. unfold runs, on_heap. by destruct (m (heap o)) as [[r|e] h]. Qed.
Lemma with_heap_same o : with_heap (heap o) o = o.
Proof. by destruct o. Qed.

Lemma runs_itr_data (s : store slot_info) l pre a d post (Q : slot_info → store slot_info → Prop) :
  rep s l (pre ++ (a, d) :: post) → Q d s → runs (itr_data (Some a)) s Q.
Proof. intros Hr HQ. apply runs_bind. eapply runs_node_at; [by eapply rep_node|]. done. Qed.
Lemma runs_itr_next (s : store slot_info) l pre a d post (Q : option nat → store slot_info → Prop) :
  rep s l (pre ++ (a, d) :: post) → Q (first post None) s → runs (itr_next (Some a)) s Q.
Proof. intros Hr HQ. apply runs_bind. eapply runs_node_at; [by eapply rep_node|]. done. Qed.
Lemma runs_itr_prev (s : store slot_info) l pre a d post (Q : option nat → store slot_info → Prop) :
  rep s l (pre ++ (a, d) :: post) → Q (final pre None) s → runs (itr_prev (Some a)) s Q.
Proof. intros Hr HQ. apply runs_bind. eapply runs_node_at; [by eapply rep_node|]. done. Qed.

Lemma runs_seek_up (s : store slot_info) l k id pre post :
  rep s l (pre ++ post) → (length post ≤ k)%nat →
  runs (seek_up k id (first post None)) s (λ itr s', s' = s ∧ ∃ p1 p2, post = p1 ++ p2 ∧
    itr = first p2 None ∧ (∀ i, i ∈ lids p1 → i < id) ∧ (∀ a d p, p2 = (a, d) :: p → id ≤ si_id d)).
Proof.
  revert pre post. induction k as [|k IH]; intros pre [|[a d] post] Hr Hk; simpl in Hk; try lia.
  1, 2: split; [done|]; exists [], []; split_and!; [done..|by intros ? ?%not_elem_of_nil|done].
  simpl. apply runs_bind. eapply runs_itr_data; [done|].
  destruct (si_id d <? id) eqn:E; bool_props.
  - apply runs_bind. eapply runs_itr_next; [done|]. eapply runs_mono.
    { apply (IH (pre ++ [(a, d)])); [by rewrite <-app_assoc|lia]. }
    intros itr s' (-> & p1 & p2 & -> & -> & H1 & H2). split; [done|].
    exists ((a, d) :: p1), p2. split_and!; [done..| |done].
    intros i [->|Hi]%elem_of_cons; [simpl; lia|by apply H1].
  - split; [done|]. exists [], ((a, d) :: post).
    split_and!; [done..|by intros ? ?%not_elem_of_nil|]. intros a' d' p [= <- <- <-]. done.
Qed.

Lemma runs_seek_down (s : store slot_info) l k id pre post :
  rep s l (pre ++ post) → (length pre ≤ k)%nat →
  runs (seek_down k id (final pre None)) s (λ itr s', s' = s ∧ ∃ p1 p2, pre = p1 ++ p2 ∧
    itr = final p1 None ∧ (∀ i, i ∈ lids p2 → id < i) ∧ (∀ a d p, p1 = p ++ [(a, d)] → si_id d ≤ id)).
Proof.
  revert pre post. induction k as [|k IH]; intros pre post Hr Hk;
    destruct pre as [|[a d] pre _] using rev_ind; rewrite ?length_app in Hk; simpl in Hk; try lia.
  1, 2: split; [done|]; exists [], []; split_and!; [done..|by intros ? ?%not_elem_of_nil|by intros ? ? [] ?].
  rewrite <-app_assoc in Hr. rewrite final_app. simpl. apply runs_bind. eapply runs_itr_data; [done|].
  destruct (id <? si_id d) eqn:E; bool_props.
  - apply runs_bind. eapply runs_itr_prev; [done|]. eapply runs_mono.
    { apply (IH pre ((a, d) :: post)); [done|lia]. }
    intros itr s' (-> & p1 & p2 & -> & -> & H1 & H2). split; [done|].
    exists p1, (p2 ++ [(a, d)]). rewrite app_assoc. split_and!; [done..| |done].
    intros i. rewrite lids_app, elem_of_app. intros [Hi|[->|[]%not_elem_of_nil]%elem_of_cons]; [by apply H1|done].
  - split; [done|]. exists (pre ++ [(a, d)]), []. rewrite app_nil_r, final_app.
    split_and!; [done..|by intros ? ?%not_elem_of_nil|]. by intros a' d' p [-> [= <- <-]]%app_inj_tail.
Qed.

(** One list changes from [xs] to [ys]; of the rest only the erased record may. *)
Definition relisted o xs o' lst ys : Prop :=
  (∃ h e, o' = Impl h (list_ o) (added_ o) (removed_ o) (id_ o) (world o) e) ∧
  becomes (heap o) xs (heap o') lst ys.

Lemma runs_itr_erase o lst pre a d post :
  store_ok (heap o) → rep (heap o) lst (pre ++ (a, d) :: post) →
  runs (itr_erase lst (Some a)) o (λ r o', r.1 = first post None ∧
    relisted o (pre ++ (a, d) :: post) o' r.2 (pre ++ post)).
Proof.
  intros Hok Hr. apply runs_bind, runs_bind, runs_on_heap. eapply runs_itr_data; [done|].
  apply runs_on_heap. simpl. eapply runs_mono; [by apply erase_spec|].
  intros [itr l] h (-> & Hb & _). split; [done|]. split; [|done]. by eexists _, _.
Qed.
Lemma runs_itr_rerase o lst pre a d post :
  store_ok (heap o) → rep (heap o) lst (pre ++ (a, d) :: post) →
  runs (itr_rerase lst (Some a)) o (λ r o', r.1 = final pre None ∧
    relisted o (pre ++ (a, d) :: post) o' r.2 (pre ++ post)).
Proof.
  intros Hok Hr. apply runs_bind, runs_bind, runs_on_heap. eapply runs_itr_data; [done|].
  apply runs_on_heap. simpl. eapply runs_mono; [by apply rerase_spec|].
  intros [itr l] h (-> & Hb & _). split; [done|]. split; [|done]. by eexists _, _.
Qed.

Lemma relisted_refl o lst xs : store_ok (heap o) → rep (heap o) lst xs → relisted o xs o lst xs.
Proof.
  intros Hok Hr. split; [exists (heap o), (erased o); by destruct o|]. split; [done..|apply untouched_refl].
Qed.

Lemma ids_head_least a d xs i : StronglySorted Z.lt (lids ((a, d) :: xs)) → i ∈ lids ((a, d) :: xs) → si_id d ≤ i.
Proof.
  change (lids ((a, d) :: xs)) with (si_id d :: lids xs). intros [_ H]%StronglySorted_inv.
  rewrite Forall_forall in H. intros [->|Hi]%elem_of_cons; [lia|]. specialize (H _ Hi). lia.
Qed.
Lemma ids_last_greatest a d xs i : StronglySorted Z.lt (lids (xs ++ [(a, d)])) → i ∈ lids (xs ++ [(a, d)]) → i ≤ si_id d.
Proof.
  rewrite lids_app. intros (_ & _ & H)%sorted_app [Hi|Hi]%elem_of_app.
  - specialize (H i (si_id d) Hi ltac:(by left)). lia.
  - apply list_elem_of_singleton in Hi as ->. simpl. lia.
Qed.
Lemma lids_prefix p1 p2 : StronglySorted Z.lt (lids (p1 ++ p2)) → StronglySorted Z.lt (lids p1).
Proof. rewrite lids_app. by intros [??]%sorted_app. Qed.
Lemma lids_suffix p1 p2 : StronglySorted Z.lt (lids (p1 ++ p2)) → StronglySorted Z.lt (lids p2).
Proof. rewrite lids_app. by intros (? & ? & ?)%sorted_app. Qed.

(** After a search: the id is at the place found, or nowhere. *)
Lemma runs_points_to o lst id pre post (Q : bool → impl → Prop) :
  rep (heap o) lst (pre ++ post) →
  (∀ a d p, post = (a, d) :: p → id = si_id d → Q true o) →
  ((∀ a d p, post = (a, d) :: p → id ≠ si_id d) → Q false o) →
  runs (points_to id (first post None)) o Q.
Proof.
  intros Hr Ht Hf. destruct post as [|[a d] post]; [by apply Hf|]. apply runs_bind, runs_on_heap.
  eapply runs_itr_data; [done|]. rewrite with_heap_same. unfold runs, ret.
  destruct (si_id d =? id) eqn:E; bool_props; [by eapply Ht|].
  apply Hf. intros a' d' p [= <- <- <-]. congruence.
Qed.

Lemma final_first_cases pre d : pre = [] ∧ final pre d = d ∨ ∃ p a (x : slot_info), pre = p ++ [(a, x)] ∧ final pre d = Some a.
Proof.
  destruct pre as [|[a x] p _] using rev_ind; [by left|right]. exists p, a, x. by rewrite final_app.
Qed.

Lemma absent_between id p1 p2 :
  StronglySorted Z.lt (lids (p1 ++ p2)) → (∀ i, i ∈ lids p1 → i < id) →
  (∀ a d p, p2 = (a, d) :: p → id < si_id d) → id ∉ lids (p1 ++ p2).
Proof.
  intros Hs H1 H2. rewrite lids_app, not_elem_of_app. split; [intros Hi; specialize (H1 _ Hi); lia|].
  destruct p2 as [|[a d] p]; [apply not_elem_of_nil|]. intros Hi.
  apply lids_suffix in Hs. pose proof (ids_head_least _ _ _ _ Hs Hi). specialize (H2 _ _ _ eq_refl). lia.
Qed.

Lemma runs_remove_up o lst id xs k :
  store_ok (heap o) → rep (heap o) lst xs → StronglySorted Z.lt (lids xs) → (length xs ≤ k)%nat →
  runs (let* b := on_heap (seek_up k id (first xs None)) in
        let* f := points_to id b in
        if f : bool then let* r := itr_erase lst b in ret r.2 else ret lst) o
    (λ lst' o', relisted o xs o' lst' (drop_id id xs)).
Proof.
  intros Hok Hr Hs Hk. apply runs_bind, runs_on_heap.
  eapply runs_mono; [by apply (runs_seek_up _ lst _ _ [])|].
  intros b h (-> & p1 & p2 & -> & -> & H1 & H2). rewrite with_heap_same. apply runs_bind.
  eapply runs_points_to; [exact Hr|intros a d p -> ->|intros H3].
  - rewrite drop_id_split by done. apply runs_bind. eapply runs_mono; [by apply runs_itr_erase|].
    by intros [itr l] o' [_ ?].
  - rewrite drop_id_absent; [by apply relisted_refl|]. apply absent_between; [done..|].
    intros a d p E. specialize (H2 a d p E). specialize (H3 a d p E). lia.
Qed.

Lemma runs_remove_down o lst id xs k :
  store_ok (heap o) → rep (heap o) lst xs → StronglySorted Z.lt (lids xs) → (length xs ≤ k)%nat →
  runs (let* b := on_heap (seek_down k id (final xs None)) in
        let* f := points_to id b in
        if f : bool then let* r := itr_rerase lst b in ret r.2 else ret lst) o
    (λ lst' o', relisted o xs o' lst' (drop_id id xs)).
Proof.
  intros Hok Hr Hs Hk. apply runs_bind, runs_on_heap.
  eapply runs_mono; [apply (runs_seek_down _ lst _ _ xs []); [by rewrite app_nil_r|done]|].
  intros b h (-> & p1 & p2 & -> & -> & H1 & H2). rewrite with_heap_same. apply runs_bind.
  destruct (final_first_cases p1 None) as [[-> ->]|(p & a & d & -> & ->)].
  { simpl. rewrite drop_id_absent; [by apply relisted_refl|]. intros Hi. specialize (H1 _ Hi). lia. }
  rewrite <-app_assoc in *. change ([(a, d)] ++ p2) with ((a, d) :: p2) in *. change (Some a) with (first ((a, d) :: p2) None).
  eapply runs_points_to; [exact Hr|intros a' d' q [= <- <- <-] ->|intros H3].
  - rewrite drop_id_split by done. apply runs_bind. eapply runs_mono; [by apply runs_itr_rerase|].
    by intros [itr l] o' [_ ?].
  - rewrite drop_id_absent; [by apply relisted_refl|]. specialize (H2 a d p eq_refl).
    specialize (H3 a d p2 eq_refl). rewrite cons_middle, app_assoc, lids_app, not_elem_of_app.
    split; [|intros Hi; specialize (H1 _ Hi); lia]. intros Hi.
    rewrite cons_middle, app_assoc in Hs. apply lids_prefix in Hs.
    pose proof (ids_last_greatest _ _ _ _ Hs Hi). lia.
Qed.

(** [remove_by_index] takes the node of the id out of a sorted list, whichever end it
    starts from. *)
Lemma runs_remove_by_index o lst id xs :
  store_ok (heap o) → rep (heap o) lst xs → StronglySorted Z.lt (lids xs) → blen xs < 2 ^ 64 →
  runs (remove_by_index lst id) o (λ lst' o', relisted o xs o' lst' (drop_id id xs)).
Proof.
  intros Hok Hr Hs Hlen. unfold remove_by_index, size, begin, rbegin.
  rewrite (rep_size _ _ _ Hr), (rep_front _ _ _ Hr), (rep_back _ _ _ Hr), wrap_small
    by (split; [apply blen_nonneg|done]).
  destruct (0 <? blen xs) eqn:E; bool_props.
  2: { destruct xs; [by apply relisted_refl|unfold blen in E; simpl in E; lia]. }
  destruct xs as [|[a d] t] eqn:Ex; [by unfold blen in E|]. simpl first at 1.
  apply runs_bind, runs_on_heap. eapply (runs_itr_data _ _ []); [done|]. rewrite with_heap_same.
  destruct (final_first_cases xs None) as [[-> _]|(p & b & e & Ex' & Ef)]; [done|].
  rewrite <-Ex in *. rewrite Ef. apply runs_bind, runs_on_heap.
  eapply (runs_itr_data _ _ p b e []); [by rewrite <-Ex'|]. rewrite with_heap_same.
  destruct ((id <? si_id d) || (si_id e <? id)) eqn:Eo; simpl.
  { rewrite drop_id_absent; [by apply relisted_refl|]. intros Hi. apply orb_true_iff in Eo as [Eo|Eo]; bool_props.
    - rewrite Ex in Hs, Hi. pose proof (ids_head_least _ _ _ _ Hs Hi). lia.
    - rewrite Ex' in Hs, Hi. pose proof (ids_last_greatest _ _ _ _ Hs Hi). lia. }
  pose proof (rep_length _ _ _ Hr) as Hk. unfold heap_size. apply runs_bind. unfold runs at 1, gets.
  rewrite <-Ef.
  step_if; [by apply runs_remove_up|by apply runs_remove_down].
Qed.

(** ** The invariant *)

(** [L] and [A] are the nodes of [list_] and [added_]. *)
Record inv o L A : Prop := {
  inv_ok : store_ok (heap o);
  inv_list : rep (heap o) (list_ o) L;
  inv_added : rep (heap o) (added_ o) A;
  inv_disj : ∀ a, a ∈ L.*1 → a ∉ A.*1;
  inv_ids : StronglySorted Z.lt (lids (L ++ A));
  inv_range : ∀ i, i ∈ lids (L ++ A) → 0 < i < id_ o;
  inv_next : 0 < id_ o < 2 ^ 64;
  inv_sorted : StronglySorted Z.lt (removed_ o);
  inv_removed : ∀ i, i ∈ removed_ o → 0 < i < id_ o;
  inv_kept : ∀ i, i ∈ lids A → i ∉ removed_ o
}.

(** The signal the object stands for. *)
Definition kept (removed : list Z) (ds : list slot_info) : list slot_info :=
  filter (λ d, si_id d ∉ removed) ds.
Definition abs o L A : signal := Signal (kept (removed_ o) L.*2 ++ A.*2) (id_ o) (world o).

Lemma inv_new w : inv (impl_new w) [] [].
Proof.
  split; simpl; try apply rep_new; try (by intros ? ?%not_elem_of_nil); try constructor; try done.
  intros a [n Hn]. simpl in Hn. by rewrite lookup_empty in Hn.
Qed.

Lemma without_fmap id xs : without id xs.*2 = (drop_id id xs).*2.
Proof.
  unfold without, drop_id. induction xs as [|[a d] xs IH]; [done|]. csimpl. rewrite !filter_cons. csimpl.
  case_decide; csimpl; by rewrite ?IH.
Qed.
Lemma without_app id ds es : without id (ds ++ es) = without id ds ++ without id es.
Proof. apply filter_app. Qed.
Lemma without_kept id removed ds :
  without id (kept removed ds) = kept (set_insert id removed) ds.
Proof.
  unfold without, kept. rewrite list_filter_filter. apply list_filter_iff. intros d.
  rewrite set_insert_elem. tauto.
Qed.
Lemma kept_all removed ds : (∀ i, i ∈ ids ds → i ∉ removed) → kept removed ds = ds.
Proof. intros H. apply filter_all. intros d Hd. by apply H, list_elem_of_fmap_2. Qed.
Lemma without_absent id ds : id ∉ ids ds → without id ds = ds.
Proof. intros H. apply filter_all. intros d Hd <-. by apply H, list_elem_of_fmap_2. Qed.
Lemma drop_id_lids id xs i : i ∈ lids (drop_id id xs) ↔ i ∈ lids xs ∧ i ≠ id.
Proof.
  rewrite !lids_elem. split.
  - intros (a & d & [H1 H2]%list_elem_of_filter & <-). naive_solver.
  - intros [(a & d & H1 & <-) H2]. exists a, d. split; [|done]. by apply list_elem_of_filter.
Qed.
Lemma drop_id_addrs id xs a : a ∈ (drop_id id xs).*1 → a ∈ xs.*1.
Proof.
  intros (x & -> & [_ Hx]%list_elem_of_filter)%list_elem_of_fmap. by apply list_elem_of_fmap_2.
Qed.
Lemma drop_id_sorted id xs ys :
  StronglySorted Z.lt (lids (ys ++ xs)) → StronglySorted Z.lt (lids (ys ++ drop_id id xs)).
Proof.
  assert (E : lids (drop_id id xs) = filter (λ i, i ≠ id) (lids xs)).
  { unfold lids. rewrite <-without_fmap. generalize xs.*2 as ds. unfold without, ids.
    induction ds as [|d ds IH]; [done|]. csimpl. rewrite !filter_cons. case_decide; csimpl; by rewrite ?IH. }
  rewrite !lids_app, E, !sorted_app. intros (H1 & H2 & H3).
  split_and!; [done|by apply StronglySorted_filter|]. intros x y Hx [_ Hy]%list_elem_of_filter. by apply H3.
Qed.

Lemma inv_bounds o L A : inv o L A → blen L < 2 ^ 64 ∧ blen A < 2 ^ 64.
Proof.
  intros Hi. assert (H : blen (lids (L ++ A)) < 2 ^ 64).
  { pose proof (sorted_bound _ 0 (id_ o) (inv_ids _ _ _ Hi)) as H. pose proof (inv_next _ _ _ Hi).
    eapply Z.le_lt_trans; [apply H, Forall_forall; apply Hi|]. lia. }
  unfold lids, ids, blen in *. rewrite !length_fmap, length_app in H. lia.
Qed.

(** ** Subscribing *)

Lemma connect_sim o L A slot :
  inv o L A → id_ o + 1 < 2 ^ 64 →
  runs (connect slot) o (λ r o', r = id_ o ∧ removed_ o' = removed_ o ∧ ∃ A', inv o' L A' ∧
    abs o' L A' = Signal (s_subs (abs o L A) ++ [SI slot (id_ o)]) (id_ o + 1) (world o)).
Proof.
  intros Hi Hb. pose proof (inv_next _ _ _ Hi) as Hn.
  assert (Hid : u64 (id_ o + 1) = id_ o + 1) by (apply wrap_small; split; lia).
  apply runs_bind. unfold runs at 1, get. apply runs_bind. unfold runs at 1, modify.
  apply runs_bind, runs_on_heap. simpl. eapply runs_mono; [apply push_back_spec; apply Hi|].
  intros l h [[Hr Hok Hu] Hf]. split; [done|]. split; [done|]. simpl in *.
  exists (A ++ [(fresh (heap o), SI slot (id_ o))]). split; [|].
  - split; simpl; rewrite ?Hid; [done| |done|..].
    + eapply rep_frame; [apply Hi|exact Hu| |apply Hi]. apply (inv_disj _ _ _ Hi).
    + intros a Ha. rewrite fmap_app, not_elem_of_app. split; [by apply Hi|]. simpl.
      intros E%list_elem_of_singleton. subst a. eapply rep_fresh; [apply Hi|apply (inv_list _ _ _ Hi)|done].
    + rewrite app_assoc, lids_app. apply sorted_app. split_and!; [apply Hi|repeat constructor|].
      intros x y Hx E%list_elem_of_singleton. subst y. by apply (inv_range _ _ _ Hi).
    + intros i. rewrite app_assoc, lids_app. intros [H|H%list_elem_of_singleton]%elem_of_app; [|subst i; simpl; lia].
      apply (inv_range _ _ _ Hi) in H. lia.
    + lia.
    + apply Hi.
    + intros i H%(inv_removed _ _ _ Hi). lia.
    + intros i. rewrite lids_app. intros [H|H%list_elem_of_singleton]%elem_of_app; [by apply (inv_kept _ _ _ Hi)|].
      subst i. intros H%(inv_removed _ _ _ Hi). simpl in H. lia.
  - unfold abs. simpl. by rewrite Hid, fmap_app, app_assoc.
Qed.

Lemma unsubscribe_sim o L A id :
  inv o L A → 0 < id < id_ o →
  runs (unsubscribe id) o (λ _ o', inv o' L (drop_id id A) ∧ removed_ o' = set_insert id (removed_ o) ∧
    abs o' L (drop_id id A) = Signal (without id (s_subs (abs o L A))) (id_ o) (world o)).
Proof.
  intros Hi Hid. pose proof (inv_bounds _ _ _ Hi) as [_ HA].
  apply runs_bind. unfold runs at 1, get. apply runs_bind. unfold runs at 1, set_removed, modify. apply runs_bind.
  eapply runs_mono.
  { apply (runs_remove_by_index _ _ _ A); simpl; [apply Hi..| |done].
    pose proof (inv_ids _ _ _ Hi) as Hs. by apply lids_suffix in Hs. }
  intros l o' [(h & e & ->) [Hr Hok Hu]]. simpl in *. split_and!; [|done|].
  - split; simpl; try apply Hi; [done| |done|..].
    + eapply rep_frame; [apply Hi|exact Hu| |apply Hi]. apply (inv_disj _ _ _ Hi).
    + intros a Ha Ha'%drop_id_addrs. by apply (inv_disj _ _ _ Hi a).
    + by apply drop_id_sorted, Hi.
    + intros i. rewrite lids_app. intros H. apply (inv_range _ _ _ Hi). rewrite lids_app.
      apply elem_of_app in H as [H|[H _]%drop_id_lids]; apply elem_of_app; tauto.
    + apply set_insert_sorted, Hi.
    + intros i [->|H]%set_insert_elem; [done|by apply (inv_removed _ _ _ Hi)].
    + intros i [H1 H2]%drop_id_lids. rewrite set_insert_elem. intros [?|H]; [done|].
      by apply (inv_kept _ _ _ Hi i).
  - unfold abs. simpl. by rewrite without_app, without_kept, without_fmap.
Qed.

(** ** Simulation *)

(** The outcome of the code against the outcome of the specification: the same
    result, and related states, unless the specification gives it no meaning. *)
Definition simulates {R} (x : res R * impl) (y : res R * signal) (P : impl → signal → Prop) : Prop :=
  match y.1 with
  | Raise (EUndefined _) => True
  | _ => x.1 = y.1 ∧ P x.2 y.2
  end.

Lemma simulates_bind {R R'} (m : M impl R) (k : R → M impl R') (n : M signal R) (l : R → M signal R') o s P Q :
  simulates (m o) (n s) P →
  (∀ a o' s', P o' s' → simulates (k a o') (l a s') Q) → (∀ o' s', P o' s' → Q o' s') →
  simulates (bind m k o) (bind n l s) Q.
Proof.
  unfold simulates, bind. intros H Hk HPQ. destruct (n s) as [[a|e] s'], (m o) as [r o']; simpl in *.
  - destruct H as [-> H]. by apply Hk.
  - destruct e; try done; destruct H as [-> H]; (split; [done|by apply HPQ]).
Qed.
Lemma simulates_mono {R} (x : res R * impl) y P Q :
  simulates x y P → (∀ o s, P o s → Q o s) → simulates x y Q.
Proof. unfold simulates. intros H HPQ. destruct y.1 as [|[]]; try done; destruct H; split; auto. Qed.
Lemma runs_simulates {R} (m : M impl R) o r s (P : impl → signal → Prop) :
  runs m o (λ r' o', r' = r ∧ P o' s) → simulates (m o) (Ok r, s) P.
Proof. unfold runs, simulates. destruct (m o) as [[a|e] o']; simpl; [|done]. by intros [-> ?]. Qed.
(** A step of the code alone. *)
Lemma simulates_step {R R'} (m : M impl R) (k : R → M impl R') o y P :
  runs m o (λ r o', simulates (k r o') y P) → simulates (bind m k o) y P.
Proof. unfold runs, bind. by destruct (m o) as [[a|e] o']. Qed.

(** The object stands for the signal, on the same nodes of [list_], and forgets no removal. *)
Definition stands L (removed : list Z) o (s : signal) : Prop :=
  (∃ A, inv o L A ∧ s = abs o L A) ∧ ∀ i, i ∈ removed → i ∈ removed_ o.

Lemma stands_more L r r' o s : (∀ i, i ∈ r → i ∈ r') → stands L r' o s → stands L r o s.
Proof. intros H [? H']. split; auto. Qed.

Lemma run_acts_sim again L r acts o s : stands L r o s →
  simulates (run_acts again acts o) (spec_acts acts s) (stands L r).
Proof.
  revert o s. induction acts as [|[slot|id| |] acts IH]; intros o s Hst; [by split| | |done|done];
    destruct Hst as [(A & Hi & ->) Hr]; simpl.
  - eapply simulates_bind; [|by intros; apply IH|done]. unfold spec_connect. simpl.
    destruct (id_ o + 1 <? 2 ^ 64) eqn:E; bool_props; [|done]. apply runs_simulates.
    eapply runs_mono; [by eapply connect_sim|]. intros i o' (-> & Hr' & A' & Hi' & Ha).
    split; [done|]. simpl in Ha. rewrite <-Ha. split; [eauto|by rewrite Hr'].
  - eapply simulates_bind; [|by intros; apply IH|done]. unfold spec_unsubscribe. simpl.
    destruct ((0 <? id) && (id <? id_ o)) eqn:E; bool_props; [|done]. apply runs_simulates.
    eapply runs_mono; [by eapply unsubscribe_sim|]. intros [] o' (Hi' & Hr' & Ha).
    split; [done|]. split; [eexists; split; [exact Hi'|exact (eq_sym Ha)]|]. rewrite Hr'. intros i H1%Hr. apply set_insert_elem. by right.
Qed.

Lemma inv_world w o L A : inv o L A →
  inv (Impl (heap o) (list_ o) (added_ o) (removed_ o) (id_ o) w (erased o)) L A.
Proof. by intros []. Qed.

(** A slot runs as it does on the signal. *)
Definition spec_run (d : slot_info) : M signal unit :=
  let* s := get in
  let '(acts, thrown, w) := exec (slot_ d) (s_world s) in
  modify (λ s, Signal (s_subs s) (s_next s) w) ;;; spec_acts acts ;;;
  match thrown with Some e => raise e | None => ret tt end.
Lemma slot_exec_sim again L o s d : stands L (removed_ o) o s →
  simulates (slot_exec again (slot_ d) o) (spec_run d s) (stands L (removed_ o)).
Proof.
  intros [(A & Hi & ->) _]. unfold slot_exec, spec_run, bind at 1 4, get. simpl.
  destruct (exec (slot_ d) (world o)) as [[acts thrown] w].
  apply simulates_step. simpl. rewrite bind_modify. eapply simulates_bind; [| |done].
  2: { intros [] o' s' HP. by destruct thrown as [[]|]. }
  apply run_acts_sim. split; [|done]. exists A. split; [by apply inv_world|done].
Qed.

Lemma spec_call_run d s :
  spec_call d s = (spec_run d ;;; let* s := get in
    if expired (slot_ d) (s_world s) then spec_drop (si_id d) else ret tt) s.
Proof.
  unfold spec_call, spec_run, bind, get, modify. destruct (exec (slot_ d) (s_world s)) as [[acts thrown] w].
  destruct (spec_acts _ _) as [[[]|] ?]; [|done]. by destruct thrown.
Qed.

(** ** Shortening [list_] *)

Lemma sublist_elem_of {B} (x : B) (xs ys : list B) : x ∈ xs → sublist xs ys → x ∈ ys.
Proof.
  intros Hx H. revert Hx. induction H as [|y xs ys H IH|y xs ys H IH]; [done| |]; rewrite ?elem_of_cons; tauto.
Qed.
Lemma fmap_sublist {B C} (f : B → C) (xs ys : list B) : sublist xs ys → sublist (f <$> xs) (f <$> ys).
Proof. induction 1; csimpl; by constructor. Qed.
Lemma sorted_sublist (xs ys : list Z) : sublist xs ys → StronglySorted Z.lt ys → StronglySorted Z.lt xs.
Proof.
  induction 1 as [|x xs ys H IH|x xs ys H IH]; intros Hs; [done| |]; apply StronglySorted_inv in Hs as [Hs Hx].
  - constructor; [by apply IH|]. rewrite Forall_forall in *. intros y Hy. apply Hx. by eapply sublist_elem_of.
  - by apply IH.
Qed.
Lemma sublist_cut {B} (pre post : list B) x : sublist (pre ++ post) (pre ++ x :: post).
Proof. apply sublist_app; [done|]. by apply sublist_cons. Qed.

Definition with_list lst o : impl :=
  Impl (heap o) lst (added_ o) (removed_ o) (id_ o) (world o) (erased o).
Definition with_removed r o : impl :=
  Impl (heap o) (list_ o) (added_ o) r (id_ o) (world o) (erased o).

Lemma inv_relist o L o' lst L' A :
  inv o L A → relisted o L o' lst L' → sublist L' L → inv (with_list lst o') L' A.
Proof.
  intros Hi [(h & e & ->) [Hr Hok Hu]] Hsub. simpl in *.
  assert (Hsub1 : sublist L'.*1 L.*1) by (by apply fmap_sublist).
  assert (Hids : sublist (lids (L' ++ A)) (lids (L ++ A))).
  { unfold lids, ids. do 2 apply fmap_sublist. by apply sublist_app. }
  split; simpl; try apply Hi; [done|done| | | |].
  - eapply rep_frame; [apply Hi|exact Hu| |apply Hi]. intros a Ha Ha'. by apply (inv_disj _ _ _ Hi a).
  - intros a Ha. apply (inv_disj _ _ _ Hi). by eapply sublist_elem_of.
  - eapply sorted_sublist; [exact Hids|apply Hi].
  - intros i H. apply (inv_range _ _ _ Hi). by eapply sublist_elem_of.
Qed.

Lemma inv_unremove r o L A :
  inv o L A → StronglySorted Z.lt r → (∀ i, i ∈ r → i ∈ removed_ o) → inv (with_removed r o) L A.
Proof.
  intros Hi Hs Hr. split; simpl; try apply Hi; [done| |].
  - intros i H. by apply (inv_removed _ _ _ Hi), Hr.
  - intros i H H'. by apply (inv_kept _ _ _ Hi i), Hr.
Qed.

Lemma lids_cut a d pre post A :
  StronglySorted Z.lt (lids ((pre ++ (a, d) :: post) ++ A)) →
  (si_id d ∉ lids (pre ++ post)) ∧ (si_id d ∉ lids A).
Proof.
  rewrite <-app_assoc. simpl. intros Hs. pose proof (drop_id_split _ _ _ _ Hs) as E.
  assert (H : si_id d ∉ lids (pre ++ post ++ A)) by (rewrite <-E; by intros [_ ?]%drop_id_lids).
  rewrite app_assoc, lids_app in H. by apply not_elem_of_app.
Qed.

Lemma kept_erase id r ds : id ∉ ids ds → kept (set_erase id r) ds = kept r ds.
Proof.
  intros H. unfold kept. apply filter_ext_in. intros d Hd. unfold set_erase.
  rewrite list_elem_of_filter. assert (si_id d ≠ id) by (intros <-; by apply H, list_elem_of_fmap_2). tauto.
Qed.
Lemma kept_cut r (a : nat) d pre post : si_id d ∈ r → kept r (pre ++ (a, d) :: post).*2 = kept r (pre ++ post).*2.
Proof.
  intros H. unfold kept. rewrite !fmap_app, !filter_app. csimpl. by rewrite filter_cons_False by naive_solver.
Qed.
Lemma without_kept_comm id r ds : without id (kept r ds) = kept r (without id ds).
Proof. unfold without, kept. rewrite !list_filter_filter. apply list_filter_iff. intros d. tauto. Qed.

Lemma abs_ids o L A i :
  i ∈ ids (s_subs (abs o L A)) ↔ (i ∈ lids L ∧ i ∉ removed_ o) ∨ i ∈ lids A.
Proof.
  unfold abs, ids. simpl. rewrite fmap_app, elem_of_app. apply or_iff_compat_r.
  unfold lids, ids, kept. rewrite !list_elem_of_fmap. split.
  - intros (d & -> & [H1 H2]%list_elem_of_filter). eauto.
  - intros [(d & -> & H2) H1]. exists d. by rewrite list_elem_of_filter.
Qed.

(** ** The walk *)

Definition refines o (s : signal) : Prop := ∃ L A, inv o L A ∧ s = abs o L A.

Lemma spec_visit_skip d ds s : si_id d ∉ ids (s_subs s) → spec_visit (d :: ds) s = spec_visit ds s.
Proof. intros H. simpl. by rewrite bind_get, bool_decide_false. Qed.
Lemma spec_visit_call d ds s : si_id d ∈ ids (s_subs s) →
  spec_visit (d :: ds) s = (spec_run d ;;; let* s := get in
    (if expired (slot_ d) (s_world s) then spec_drop (si_id d) else ret tt) ;;; spec_visit ds) s.
Proof.
  intros H. simpl. rewrite bind_get, bool_decide_true by done. unfold bind at 1. rewrite spec_call_run.
  unfold bind. destruct (spec_run d s) as [[[]|] s']; [|done]. by destruct (get s') as [[]].
Qed.

Lemma runs_is_removed o id (Q : bool → impl → Prop) :
  Q (bool_decide (id ∈ removed_ o)) (with_removed (set_erase id (removed_ o)) o) → runs (is_removed id) o Q.
Proof. done. Qed.

Lemma set_erase_elem id r i : i ∈ set_erase id r ↔ i ∈ r ∧ i ≠ id.
Proof. unfold set_erase. rewrite list_elem_of_filter. tauto. Qed.

(** Erasing the node of the walk: the step of the code, and the state after it. *)
Lemma emit_erase {R} o L1 a d L2 A (k : option nat → M impl R) y P :
  inv o (L1 ++ (a, d) :: L2) A →
  (∀ o', inv o' (L1 ++ L2) A → removed_ o' = removed_ o → id_ o' = id_ o → world o' = world o →
     simulates (k (first L2 None) o') y P) →
  simulates ((let* o := get in let* r := itr_erase (list_ o) (Some a) in set_list r.2 ;;; k r.1) o) y P.
Proof.
  intros Hi HQ. rewrite bind_get. apply simulates_step.
  eapply runs_mono; [apply runs_itr_erase; apply Hi|]. intros [itr lst] o1 [-> Hrel]. simpl in *.
  pose proof (inv_relist _ _ _ _ _ _ Hi Hrel (sublist_cut _ _ _)) as Hi'.
  apply simulates_step, HQ; [exact Hi'|..]; by destruct Hrel as [(h & e & ->) _].
Qed.

(** The walk of the code, from a place in [list_], is the walk of the specification
    over the slots of that place that had not been removed. *)
Lemma emit_loop_sim again fuel o L1 todo A R0 :
  inv o (L1 ++ todo) A → (length todo ≤ fuel)%nat →
  (∀ i, i ∈ R0 → i ∈ lids todo → i ∈ removed_ o) →
  simulates (emit_loop again fuel (first todo None) o) (spec_visit (kept R0 todo.*2) (abs o (L1 ++ todo) A)) refines.
Proof.
  revert o L1 todo A. induction fuel as [|fuel IH]; intros o L1 [|[a d] L2] A Hi Hk HR; simpl in Hk; try lia.
  1, 2: split; [done|]; exists (L1 ++ []), A; done.
  pose proof (lids_cut _ _ _ _ _ (inv_ids _ _ _ Hi)) as [Hd HdA].
  assert (Hd2 : si_id d ∉ lids L2) by (rewrite lids_app in Hd; by apply not_elem_of_app in Hd as [??]).
  simpl emit_loop. apply simulates_step, runs_on_heap. eapply runs_itr_data; [apply Hi|].
  rewrite with_heap_same. apply simulates_step, runs_is_removed.
  destruct (decide (si_id d ∈ removed_ o)) as [Hrm|Hrm].
  - rewrite bool_decide_true by done. set (o1 := with_removed _ o).
    assert (Hspec : spec_visit (kept R0 ((a, d) :: L2).*2) (abs o (L1 ++ (a, d) :: L2) A) =
                    spec_visit (kept R0 L2.*2) (abs o (L1 ++ (a, d) :: L2) A)).
    { unfold kept. csimpl. rewrite filter_cons. case_decide; [|done]. apply spec_visit_skip.
      rewrite abs_ids. by intros [[_ ?]|?]. }
    rewrite Hspec. assert (Hi1 : inv o1 (L1 ++ (a, d) :: L2) A).
    { apply inv_unremove; [done|apply StronglySorted_filter, Hi|]. by intros i [? _]%set_erase_elem. }
    eapply emit_erase; [exact Hi1|]. intros o2 Hi2 Er En Ew. simpl in Er, En, Ew.
    assert (abs o (L1 ++ (a, d) :: L2) A = abs o2 (L1 ++ L2) A) as ->.
    { unfold abs. by rewrite Er, En, Ew, kept_cut, kept_erase. }
    apply IH; [done|lia|]. intros i Hi0 HiL. rewrite Er. apply set_erase_elem.
    split; [apply HR; [done|by right]|by intros ->].
  - rewrite bool_decide_false by done.
    assert (Ho : with_removed (set_erase (si_id d) (removed_ o)) o = o).
    { unfold with_removed, set_erase. rewrite filter_all by (by intros x Hx ->). by destruct o. }
    rewrite Ho. assert (HdR : si_id d ∉ R0) by (intros H; apply Hrm, HR; [done|by left]).
    unfold kept at 1. csimpl. rewrite filter_cons_True by done. fold (kept R0 L2.*2).
    rewrite spec_visit_call by (rewrite abs_ids; left; split; [rewrite lids_app; apply elem_of_app; right; by left|done]).
    eapply simulates_bind; [apply slot_exec_sim; split; [by exists A|done]| |].
    2: { intros o' s' [(A' & ? & ->) _]. by eexists _, _. }
    intros [] o' s' [(A' & Hi' & ->) Hr']. apply simulates_step, runs_on_heap.
    eapply runs_itr_data; [apply Hi'|]. rewrite with_heap_same, !bind_get.
    change (s_world (abs o' (L1 ++ (a, d) :: L2) A')) with (world o').
    destruct (expired (slot_ d) (world o')).
    + eapply emit_erase; [exact Hi'|]. intros o2 Hi2 Er En Ew. unfold spec_drop. rewrite bind_modify.
      assert (Signal (without (si_id d) (s_subs (abs o' (L1 ++ (a, d) :: L2) A')))
        (s_next (abs o' (L1 ++ (a, d) :: L2) A')) (s_world (abs o' (L1 ++ (a, d) :: L2) A')) =
        abs o2 (L1 ++ L2) A') as ->.
      { pose proof (lids_cut _ _ _ _ _ (inv_ids _ _ _ Hi')) as [_ HA'].
        unfold abs. simpl. rewrite Er, En, Ew, without_app, without_kept_comm, !without_fmap.
        rewrite (drop_id_absent _ A') by done. rewrite drop_id_split; [done|].
        pose proof (inv_ids _ _ _ Hi') as Hs. by apply lids_prefix in Hs. }
      apply IH; [done|lia|]. intros i Hi0 HiL. rewrite Er. apply Hr', HR; [done|by right].
    + apply simulates_step, runs_on_heap. eapply runs_itr_next; [apply Hi'|]. rewrite with_heap_same.
      change (simulates (emit_loop again fuel (first L2 None) o')
        (spec_visit (kept R0 L2.*2) (abs o' (L1 ++ (a, d) :: L2) A')) refines).
      rewrite cons_middle, app_assoc in Hi' |- *. apply IH; [done|lia|].
      intros i Hi0 HiL. apply Hr', HR; [done|by right].
Qed.

(** ** The removed slots, the added slots *)

Lemma relisted_trans o xs o1 l1 ys o2 l2 zs :
  relisted o xs o1 l1 ys → relisted o1 ys o2 l2 zs → sublist ys xs → relisted o xs o2 l2 zs.
Proof.
  intros [(h1 & e1 & ->) [_ _ [Hu1 Hf1]]] [(h2 & e2 & ->) [Hr2 Hok2 [Hu2 Hf2]]] Hsub. simpl in *.
  split; [by eexists _, _|]. split; [done..|]. split; [|simpl; lia]. intros b Hb Hlt. simpl.
  rewrite Hu2; [by apply Hu1| |lia]. intros H. apply Hb. eapply sublist_elem_of; [exact H|by apply fmap_sublist].
Qed.

Lemma kept_pairs r xs : kept r xs.*2 = (filter (λ x, si_id x.2 ∉ r) xs).*2.
Proof.
  unfold kept. induction xs as [|[a d] xs IH]; [done|]. csimpl. rewrite !filter_cons.
  csimpl. case_decide; csimpl; by rewrite ?IH.
Qed.
Lemma filter_sublist {B} (P : B → Prop) `{!∀ x, Decision (P x)} (xs : list B) : sublist (filter P xs) xs.
Proof. induction xs; [done|]. rewrite filter_cons. case_decide; by constructor. Qed.

(** The merge of the sorted list with the sorted set. *)
Lemma runs_clear_removed_loop tmp o lst pre post :
  store_ok (heap o) → rep (heap o) lst (pre ++ post) → StronglySorted Z.lt tmp →
  StronglySorted Z.lt (lids post) →
  runs (clear_removed_loop tmp (first post None) lst) o (λ lst' o',
    relisted o (pre ++ post) o' lst' (pre ++ filter (λ x, si_id x.2 ∉ tmp) post)).
Proof.
  revert o lst pre post. induction tmp as [|b tmp IH]; intros o lst pre post Hok Hr Ht Hs.
  { rewrite filter_all by (intros x _; apply not_elem_of_nil). by apply relisted_refl. }
  apply StronglySorted_inv in Ht as [Ht Hb]. rewrite Forall_forall in Hb.
  destruct post as [|[a0 d0] post'] eqn:Ep; [by apply relisted_refl|]. simpl first. simpl clear_removed_loop.
  change (Some a0) with (first ((a0, d0) :: post') None). rewrite <-Ep in *. clear Ep.
  apply runs_bind. unfold runs at 1, heap_size, gets. apply runs_bind, runs_on_heap.
  eapply runs_mono; [apply (runs_seek_up _ lst _ _ pre); [done|]|].
  { pose proof (rep_length _ _ _ Hr) as H. rewrite length_app in H. lia. }
  intros itr h (-> & p1 & p2 & -> & -> & H1 & H2). rewrite with_heap_same. apply runs_bind.
  assert (Hp1 : filter (λ x, si_id x.2 ∉ b :: tmp) p1 = p1).
  { apply filter_all. intros [a d] Hx. simpl. pose proof (H1 _ (lids_in _ _ _ Hx)).
    intros [E|Ht1]%elem_of_cons; [lia|]. specialize (Hb _ Ht1). lia. }
  rewrite app_assoc in Hr |- *. eapply runs_points_to; [exact Hr|intros a d p -> E|intros H3].
  - apply runs_bind. eapply runs_mono; [by apply runs_itr_erase|]. intros [itr l] o1 [-> Hrel].
    pose proof Hrel as [_ [Hr1 Hok1 _]]. simpl in Hr1 |- *. eapply runs_mono.
    { apply IH; [done|done|done|]. apply lids_suffix in Hs. by apply StronglySorted_inv in Hs as [??]. }
    intros l2 o2 Hrel2. eapply relisted_trans; [exact Hrel| |apply sublist_cut].
    rewrite filter_app, Hp1, filter_cons_False by (simpl; rewrite <-E; intros H; apply H; by left).
    rewrite app_assoc. erewrite (filter_ext_in _ _ p); [exact Hrel2|]. intros [a' d'] Hx. simpl.
    apply lids_suffix, StronglySorted_inv in Hs as [_ Hd]. rewrite Forall_forall in Hd.
    pose proof (Hd _ (lids_in _ _ _ Hx)). rewrite not_elem_of_cons. split; [by intros []|split; [simpl in *; lia|done]].
  - eapply runs_mono; [apply IH; [done|done|done|by apply lids_suffix in Hs]|].
    intros l2 o2 Hrel2. rewrite filter_app, Hp1, app_assoc.
    erewrite (filter_ext_in _ _ p2); [exact Hrel2|]. intros [a' d'] Hx. simpl.
    rewrite not_elem_of_cons. split; [by intros []|split; [|done]].
    destruct p2 as [|[a d] p]; [by apply not_elem_of_nil in Hx|].
    apply lids_suffix in Hs. pose proof (ids_head_least _ _ _ _ Hs (lids_in _ _ _ Hx)).
    specialize (H2 _ _ _ eq_refl). specialize (H3 _ _ _ eq_refl). lia.
Qed.

Lemma clear_removed_sim o L A :
  inv o L A → runs clear_removed o (λ _ o', refines o' (abs o L A)).
Proof.
  intros Hi. unfold clear_removed, runs. rewrite bind_get. unfold set_removed. rewrite bind_modify.
  set (o1 := Impl _ _ _ _ _ _ _). assert (Hi1 : inv o1 L A).
  { apply (inv_unremove []); [done|constructor|]. by intros ? ?%not_elem_of_nil. }
  fold (runs (let* l := clear_removed_loop (removed_ o) (begin (list_ o)) (list_ o) in set_list l) o1
    (λ _ o', refines o' (abs o L A))).
  apply runs_bind. unfold begin. rewrite (rep_front _ _ _ (inv_list _ _ _ Hi)). eapply runs_mono.
  { apply (runs_clear_removed_loop _ _ _ []); [apply Hi1|apply Hi1|apply Hi|].
    pose proof (inv_ids _ _ _ Hi) as Hs. by apply lids_prefix in Hs. }
  simpl. intros lst o2 Hrel. pose proof (inv_relist _ _ _ _ _ _ Hi1 Hrel (filter_sublist _ _)) as Hi2.
  eexists _, A. split; [exact Hi2|]. destruct Hrel as [(h & e & ->) _].
  unfold abs. simpl. rewrite <-kept_pairs. f_equal. f_equal. symmetry. apply kept_all.
  intros i _. apply not_elem_of_nil.
Qed.

Lemma splice_added_sim o L A :
  inv o L A → runs splice_added o (λ _ o', inv o' (L ++ A) [] ∧ removed_ o' = removed_ o ∧
    abs o' (L ++ A) [] = abs o L A).
Proof.
  intros Hi. apply runs_bind. unfold runs at 1, get. apply runs_bind, runs_on_heap.
  eapply runs_mono; [apply splice_back_spec; apply Hi|]. intros [l1 l2] h (Hr1 & Hr2 & Hok & _). simpl in *.
  split; [|split; [done|]].
  - split; simpl; try apply Hi; rewrite ?app_nil_r; try apply Hi; try done; by intros ? ? ?%not_elem_of_nil || by intros ? ?%not_elem_of_nil.
  - unfold abs. simpl. f_equal. rewrite fmap_app, app_nil_r. unfold kept. rewrite filter_app. f_equal.
    apply kept_all. intros i H. by apply (inv_kept _ _ _ Hi).
Qed.

(** Emission on the object is emission on the signal. *)
Lemma emit_once_sim again more o L A :
  inv o L A → simulates (emit_once again more o) (spec_emit (abs o L A)) refines.
Proof.
  intros Hi. unfold emit_once. apply simulates_step. eapply runs_mono; [by apply splice_added_sim|].
  intros [] o1 (Hi1 & Hr1 & <-). rewrite bind_get. apply simulates_step. unfold runs, heap_size, gets.
  unfold spec_emit. rewrite bind_get. unfold begin. rewrite (rep_front _ _ _ (inv_list _ _ _ Hi1)).
  set (s1 := abs o1 (L ++ A) []).
  assert (Hs1 : s_subs s1 = kept (removed_ o1) (L ++ A).*2) by (unfold s1, abs; simpl; by rewrite app_nil_r).
  rewrite Hs1. pose proof (rep_length _ _ _ (inv_list _ _ _ Hi1)) as Hlen.
  pose proof (emit_loop_sim again (base.size (nodes (heap o1)) + more) o1 [] (L ++ A) [] (removed_ o1)
    Hi1 ltac:(simpl; lia) ltac:(done)) as H. simpl in H. fold s1 in H.
  destruct (spec_visit _ s1) as [r s2] eqn:E. unfold bind. unfold simulates in H |- *. simpl in *.
  destruct (emit_loop _ _ _ o1) as [r' o2]. destruct r as [[]|e]; simpl in H |- *.
  - destruct H as [-> (L' & A' & Hi' & ->)]. simpl. pose proof (clear_removed_sim _ _ _ Hi') as H'.
    unfold runs in H'. destruct (clear_removed o2) as [[[]|] o3]; [done|done].
  - destruct e; try done; by destruct H as [-> H].
Qed.

Lemma emit_sim depth o L A : inv o L A → simulates (emit depth o) (spec_emit (abs o L A)) refines.
Proof. destruct depth; apply emit_once_sim. Qed.

(** ** Clearing *)

Lemma erase_all_runs fuel o lst xs :
  store_ok (heap o) → rep (heap o) lst xs → (length xs ≤ fuel)%nat →
  runs (erase_all fuel (first xs None) lst) o (λ lst' o', relisted o xs o' lst' []).
Proof.
  revert o lst xs. induction fuel as [|fuel IH]; intros o lst [|[a d] xs] Hok Hr Hk; simpl in Hk; try lia.
  1, 2: by apply relisted_refl.
  simpl. apply runs_bind. eapply runs_mono; [by apply (runs_itr_erase _ _ [])|].
  intros [itr l] o1 [-> Hrel]. pose proof Hrel as [_ [Hr1 Hok1 _]]. simpl in Hr1 |- *.
  eapply runs_mono; [apply IH; [done|done|lia]|]. intros l2 o2 Hrel2.
  eapply relisted_trans; [exact Hrel|exact Hrel2|]. by apply (sublist_cut []).
Qed.

Lemma clear_sim o L A :
  inv o L A → runs unsubscribe_all o (λ _ o', refines o' (Signal [] (id_ o) (world o))).
Proof.
  intros Hi. unfold unsubscribe_all, clear_unsafe, runs. rewrite bind_get.
  apply (runs_bind _ _ o (λ _ o', refines o' (Signal [] (id_ o) (world o)))). unfold runs at 1, heap_size, gets.
  set (n := base.size (nodes (heap o))). apply runs_bind. unfold begin.
  rewrite (rep_front _ _ _ (inv_list _ _ _ Hi)), (rep_front _ _ _ (inv_added _ _ _ Hi)).
  eapply runs_mono; [apply erase_all_runs; [apply Hi|apply Hi|eapply rep_length, Hi]|].
  intros l1 o1 Hrel1. pose proof (inv_relist _ _ _ _ _ _ Hi Hrel1 (sublist_nil_l _)) as Hi1.
  apply runs_bind. unfold runs at 1, set_list, modify. fold (with_list l1 o1).
  assert (added_ o = added_ (with_list l1 o1)) as -> by (by destruct Hrel1 as [(h & e & ->) _]).
  apply runs_bind. eapply runs_mono.
  { apply erase_all_runs; [apply Hi1|apply Hi1|eapply rep_length, Hi]. }
  intros l2 o2 Hrel2. destruct Hrel1 as [(h1 & e1 & ->) _], Hrel2 as [(h2 & e2 & ->) [Hr2 Hok2 Hu2]]. simpl in *.
  exists [], []. split; [|done].
  split; simpl; [done| |done| |constructor| |apply Hi|constructor| |]; try (by intros ? ?%not_elem_of_nil).
  eapply rep_frame; [apply Hi1|exact Hu2| |apply Hi1]. by intros ? ?%not_elem_of_nil.
Qed.

Lemma run_op_sim depth c o s : refines o s → simulates (run_op depth c o) (spec_op c s) refines.
Proof.
  intros (L & A & Hi & ->). destruct c as [slot|id| |]; simpl.
  - unfold spec_connect. simpl. destruct (id_ o + 1 <? 2 ^ 64) eqn:E; bool_props; [|done].
    apply runs_simulates. eapply runs_mono; [by eapply connect_sim|]. intros i o' (-> & _ & A' & Hi' & Ha).
    split; [done|]. exists L, A'. split; [done|]. exact (eq_sym Ha).
  - eapply simulates_bind; [|by intros|done]. unfold spec_unsubscribe. simpl.
    destruct ((0 <? id) && (id <? id_ o)) eqn:E; bool_props; [|done]. apply runs_simulates.
    eapply runs_mono; [by eapply unsubscribe_sim|]. intros [] o' (Hi' & _ & Ha). split; [done|].
    exists L, (drop_id id A). split; [done|]. exact (eq_sym Ha).
  - eapply simulates_bind; [|by intros|done]. apply runs_simulates.
    eapply runs_mono; [by eapply clear_sim|]. by intros [] o'.
  - eapply simulates_bind; [by apply emit_sim|by intros|done].
Qed.

Lemma attempt_sim {R} (m : M impl R) (n : M signal R) o s P :
  simulates (m o) (n s) P → simulates (attempt m o) (attempt n s) P.
Proof.
  unfold simulates, attempt. destruct (n s) as [[a|e] s'], (m o) as [r o']; simpl.
  - by intros [-> ?].
  - destruct e; simpl; try done; by intros [-> ?].
Qed.

(** C6 (refinement). The signal that clients see.  From a new object, whatever a client does
    (subscribe, unsubscribe, unsubscribe all, emit) and while the slots, when they run,
    subscribe, unsubscribe themselves or others, change the world or throw, every result and
    every effect of a slot on the world is that of the specification: an emission
    calls the slots subscribed when it began, in the order they subscribed, each at
    most once and only while it is still subscribed; slots subscribed meanwhile wait
    for the next one.  No freed node is followed, no loop runs out, as long as ids
    are those [subscribe] returned and fewer than [2^64] were, and until a slot clears
    or emits the signal that runs it: from there on the specification says nothing. *)
Theorem observer_refines_signal depth cs w :
  simulates (run_all (run_op depth) cs (impl_new w)) (run_all spec_op cs (Signal [] 1 w))
    (λ o s, world o = s_world s ∧ id_ o = s_next s).
Proof.
  apply (simulates_mono _ _ refines).
  2: { by intros o s (L & A & _ & ->). }
  assert (H : refines (impl_new w) (Signal [] 1 w)) by (exists [], []; split; [apply inv_new|done]).
  revert H. generalize (impl_new w) as o, (Signal [] 1 w) as s.
  induction cs as [|c cs IH]; intros o s H; [done|]. simpl.
  eapply simulates_bind; [apply attempt_sim; by apply run_op_sim| |done].
  intros r o' s' H'. eapply simulates_bind; [by apply IH|by intros|done].
Qed.
End Observer.

(** [traits::simple]: a slot is a function, which never expires. *)
Definition simple_exec {Act W} (self : W → list Act * option exn * W) (w : W) : list Act * option exn * W := self w.
Definition simple_expired {Slot W} (self : Slot) (w : W) : bool := false.

Section Example.
(** Slots named by numbers, a world that lists the calls: slot 1 unsubscribes the
    subscription 3 and subscribes slot 4, slot 2 throws, slot 7 clears the signal,
    slot 8 unsubscribes the subscription 1 and emits, slot 9 subscribes slot 6 and emits
    the first time. *)
Definition demo_exec (slot : Z) (w : list Z) : list act * option exn * list Z :=
  (if slot =? 1 then [SUnsubscribe 3; SConnect 4]
   else if slot =? 7 then [SUnsubscribeAll]
   else if slot =? 8 then [SUnsubscribe 1; SEmit]
   else if (slot =? 9) && bool_decide (9 ∉ w) then [SConnect 6; SEmit] else [],
   if slot =? 2 then Some (EStd "slot") else None, w ++ [slot]).
Abbreviation demo_run := (run_op demo_exec simple_expired 2).

Example observer_demo :
  (run_all demo_run
    [OSubscribe 1; OSubscribe 5; OSubscribe 3; OEmit; OSubscribe 2; OSubscribe 6; OEmit; OUnsubscribe 5; OEmit; OUnsubscribeAll; OEmit]
    (impl_new [])).1 =
  Ok [Ok 1; Ok 2; Ok 3; Ok 0; Ok 5; Ok 6; Raise (EStd "slot"); Ok 0; Ok 0; Ok 0; Ok 0].
Proof. vm_compute. reflexivity. Qed.

(** A slot that clears its own signal, and one that unsubscribes itself and emits: the
    node of the walk is freed while the slot runs, and the walk reads it. *)
Example clear_within_emission :
  (run_all demo_run [OSubscribe 7; OSubscribe 5; OEmit] (impl_new [])).1 = Raise (EUndefined "node").
Proof. vm_compute. reflexivity. Qed.
Example removed_within_emission :
  (run_all demo_run [OSubscribe 8; OSubscribe 5; OEmit] (impl_new [])).1 = Raise (EUndefined "node").
Proof. vm_compute. reflexivity. Qed.
(** An emission inside another that removes nothing is defined, but it brings the slots
    subscribed since into the walk of the outer one, which calls them too. *)
Example emission_within_emission :
  let o := (run_all demo_run [OSubscribe 9; OSubscribe 5; OEmit] (impl_new [])) in
  o.1 = Ok [Ok 1; Ok 2; Ok 0] ∧ world o.2 = [9; 9; 5; 6; 5; 6].
Proof. vm_compute. done. Qed.
End Example.
