(* ===== verification/ThreadPool.v ===== *)
(** * ThreadPool: the threads that run the handlers

    [lib/vtrc/common/thread-pool.cpp] and [pool-pair.cpp].  A pool owns threads that
    call [run_one( )] of an [io_service] until it says that there is nothing more to
    run; the service belongs to asio, [IoService] is what the pool relies on.

    The threads run concurrently: a thread advances by one turn of its loop at a
    time, and [join_all( )] by one thread at a time, being blocked while the thread
    it joins runs.  Contexts are known by numbers in the order of their creation.  A
    context is destroyed, and its [std::thread] with it, when neither a set of the
    pool nor a [join_all( )] under way nor the thread itself has a pointer to it. *)

From S2P Require Import Prelude.

Class IoService (S : Type) : Type := {
  run_one : M S Z;
  ios_stop : S → S
}.
(** A stopped service runs nothing, and stays stopped. *)
Class IoServiceLaws (S : Type) `{IoService S} : Type := {
  stopped : S → Prop;
  stop_stops s : stopped (ios_stop s);
  run_stopped s : stopped s → (run_one s).1 = Ok 0 ∧ stopped (run_one s).2
}.

Inductive call_decorator_type : Type := CALL_PROLOGUE | CALL_EPILOGUE.
#[export] Instance call_decorator_eq_dec : EqDecision call_decorator_type.
Proof. solve_decision. Defined.

(** Where a thread is in [run_impl]; an exception that leaves it ends the program. *)
Inductive phase : Type := ph_begin | ph_loop | ph_finished | ph_terminate.
#[export] Instance phase_eq_dec : EqDecision phase.
Proof. solve_decision. Defined.

Record thread_context : Type := Thread { th_phase : phase; th_joinable : bool }.

(** A call of [join_all( )]: the pool's thread it runs in, if it is one, and the
    contexts of its set that it has still to visit. *)
Record joiner : Type := Joiner { j_self : option nat; j_tmp : gset nat; j_rest : list nat }.

Record pool (S : Type) : Type := Pool {
  ios_ : S;
  wrk_ : bool;
  threads_ : gset nat;
  stopped_threads_ : gset nat;
  contexts : list thread_context;
  joiners : list joiner;
  decorated : list (option nat * call_decorator_type);
  handled : list exn
}.
Arguments Pool {S}. Arguments ios_ {S}. Arguments wrk_ {S}. Arguments threads_ {S}.
Arguments stopped_threads_ {S}. Arguments contexts {S}. Arguments joiners {S}.
Arguments decorated {S}. Arguments handled {S}.

Section Pool.
Context {S : Type} `{IoService S}.
Implicit Types p : pool S.

Definition with_ios (s : S) p : pool S :=
  Pool s (wrk_ p) (threads_ p) (stopped_threads_ p) (contexts p) (joiners p) (decorated p) (handled p).
Definition with_wrk (b : bool) p : pool S :=
  Pool (ios_ p) b (threads_ p) (stopped_threads_ p) (contexts p) (joiners p) (decorated p) (handled p).
Definition with_threads (t s : gset nat) p : pool S :=
  Pool (ios_ p) (wrk_ p) t s (contexts p) (joiners p) (decorated p) (handled p).
Definition with_contexts (c : list thread_context) p : pool S :=
  Pool (ios_ p) (wrk_ p) (threads_ p) (stopped_threads_ p) c (joiners p) (decorated p) (handled p).
Definition with_joiners (j : list joiner) p : pool S :=
  Pool (ios_ p) (wrk_ p) (threads_ p) (stopped_threads_ p) (contexts p) j (decorated p) (handled p).
Definition with_decorated (d : list (option nat * call_decorator_type)) p : pool S :=
  Pool (ios_ p) (wrk_ p) (threads_ p) (stopped_threads_ p) (contexts p) (joiners p) d (handled p).
Definition with_handled (h : list exn) p : pool S :=
  Pool (ios_ p) (wrk_ p) (threads_ p) (stopped_threads_ p) (contexts p) (joiners p) (decorated p) h.

Definition pool_new (ios : S) : pool S := Pool ios true ∅ ∅ [] [] [] [].

Definition on_ios {A} (m : M S A) : M (pool S) A := λ p,
  let '(r, s) := m (ios_ p) in (r, with_ios s p).

(** [decorator_] and [exception_]: what the functions of the application throw. *)
Section Handlers.
Context (decorator_ : call_decorator_type → option exn) (exception_ : exn → option exn).

Definition decorate (t : option nat) (c : call_decorator_type) : M (pool S) unit :=
  modify (λ p, with_decorated (decorated p ++ [(t, c)]) p) ;;;
  match decorator_ c with Some e => raise e | None => ret tt end.
(** [~decoratot_keeper( )] *)
Definition epilogue (t : option nat) : M (pool S) unit :=
  try_catch (decorate t CALL_EPILOGUE) (λ _, ret tt).

(** One turn of the two loops of [run_impl]: whether the service was stopped. *)
Definition run_turn : M (pool S) bool :=
  try_catch
    (let* count := on_ios run_one in ret (count =? 0))
    (λ e, modify (λ p, with_handled (handled p ++ [e]) p) ;;;
          match exception_ e with Some e => raise e | None => ret false end).

(** [None]: the service had more to run than [fuel] turns. *)
Fixpoint run_loop (fuel : nat) : M (pool S) (option bool) :=
  match fuel with
  | O => ret None
  | Datatypes.S fuel =>
      let* done := run_turn in
      if done then ret (Some true) else run_loop fuel
  end.
Definition run_impl (fuel : nat) (t : option nat) : M (pool S) (option bool) :=
  decorate t CALL_PROLOGUE ;;;
  (λ p, let '(r, p) := run_loop fuel p in
        let '(_, p) := epilogue t p in (r, p)).
Definition attach (fuel : nat) : M (pool S) (option bool) := run_impl fuel None.

(** *** Threads *)

Definition set_phase (t : nat) (ph : phase) : M (pool S) unit :=
  modify (λ p, with_contexts (alter (λ c, Thread ph (th_joinable c)) t (contexts p)) p).

(** A thread of the pool starts [run_impl], and takes a turn of its loop. *)
Definition thread_begin (t : nat) : M (pool S) unit := λ p,
  match decorate (Some t) CALL_PROLOGUE p with
  | (Ok _, p) => set_phase t ph_loop p
  | (Raise e, p) => set_phase t ph_terminate p
  end.
Definition thread_turn (t : nat) : M (pool S) unit := λ p,
  match run_turn p with
  | (Ok false, p) => (Ok tt, p)
  | (Ok true, p) => (epilogue (Some t) ;;; set_phase t ph_finished) p
  | (Raise e, p) => (epilogue (Some t) ;;; set_phase t ph_terminate) p
  end.
End Handlers.

(** *** The set of threads *)

Definition create_thread : M (pool S) nat := λ p,
  (Ok (length (contexts p)), with_contexts (contexts p ++ [Thread ph_begin true]) p).

Fixpoint create_threads (count : nat) : M (pool S) (list nat) :=
  match count with
  | O => ret []
  | Datatypes.S count => let* t := create_thread in let* ts := create_threads count in ret (t :: ts)
  end.
Definition add (count : nat) : M (pool S) unit :=
  let* tmp := create_threads count in
  modify (λ p, with_threads (threads_ p ∪ list_to_set tmp) ∅ p).
Definition inc : M (pool S) unit :=
  let* n := create_thread in
  modify (λ p, with_threads ({[n]} ∪ threads_ p) ∅ p).
Definition size p : Z := Z.of_nat (base.size (threads_ p)).

Definition move_to_stopped (t : nat) : M (pool S) unit :=
  modify (λ p, with_threads (threads_ p ∖ {[t]}) ({[t]} ∪ stopped_threads_ p) p).

Definition stop : M (pool S) unit :=
  modify (with_wrk false) ;;;
  on_ios (modify ios_stop) ;;;
  modify (λ p, with_threads (threads_ p) ∅ p).

(** *** join_all *)

(** The set is taken; [self] is the thread of the pool that calls, if it is one. *)
Definition join_begin (self : option nat) : M (pool S) unit :=
  modify (λ p, with_joiners (joiners p ++ [Joiner self (threads_ p) (elements (threads_ p))])
                 (with_threads ∅ (stopped_threads_ p) p)).

Definition joinable (t : nat) p : bool :=
  match contexts p !! t with Some c => th_joinable c | None => false end.
Definition finished (t : nat) p : Prop := th_phase <$> contexts p !! t = Some ph_finished.
#[export] Instance finished_dec t p : Decision (finished t p).
Proof. unfold finished. apply _. Defined.

(** The condition of the loop. *)
Definition must_join (self : option nat) (t : nat) p : bool :=
  joinable t p && negb (bool_decide (self = Some t)).
(** [join( )] has returned. *)
Definition join_next (i : nat) : M (pool S) unit :=
  let* p := get in
  match joiners p !! i with
  | Some (Joiner self tmp (t :: rest)) =>
      (if must_join self t p then
         modify (λ p, with_contexts (alter (λ c, Thread (th_phase c) false) t (contexts p)) p)
       else ret tt) ;;;
      modify (λ p, with_joiners (<[i := Joiner self tmp rest]> (joiners p)) p)
  | _ => ret tt
  end.
(** The rest of [join_all], and the end of its set. *)
Definition join_end (i : nat) : M (pool S) unit :=
  modify (λ p, with_joiners (delete i (joiners p)) (with_threads (threads_ p) ∅ p)).

(** *** Steps *)

Section Steps.
Context (decorator_ : call_decorator_type → option exn) (exception_ : exn → option exn).

Inductive step : pool S → pool S → Prop :=
  | step_add count p : step p (add count p).2
  | step_inc p : step p (inc p).2
  | step_stop p : step p (stop p).2
  | step_begin t p :
      th_phase <$> contexts p !! t = Some ph_begin → step p (thread_begin decorator_ t p).2
  | step_turn t p :
      th_phase <$> contexts p !! t = Some ph_loop → step p (thread_turn decorator_ exception_ t p).2
  | step_attach fuel p : step p (attach decorator_ exception_ fuel p).2
  | step_join_begin self p :
      (∀ t, self = Some t → th_phase <$> contexts p !! t = Some ph_loop) →
      step p (join_begin self p).2
  | step_join_next i self tmp t rest p :
      joiners p !! i = Some (Joiner self tmp (t :: rest)) →
      (must_join self t p = true → finished t p) → step p (join_next i p).2
  | step_join_end i self tmp p :
      joiners p !! i = Some (Joiner self tmp []) → step p (join_end i p).2.

(** A call of [join_all( )], the other threads taking steps meanwhile. *)
Definition join_all (self : option nat) p p' : Prop :=
  ∃ q i, rtc step (join_begin self p).2 q ∧
         joiners q !! i = Some (Joiner self (threads_ p) []) ∧ p' = (join_end i q).2.
(** [~impl( )] of a pool that [self] is no thread of. *)
Definition destroy p p' : Prop :=
  join_all None (if wrk_ p then (stop p).2 else p) p'.
End Steps.

(** Somebody has a pointer to the context of [t]. *)
Definition owned (t : nat) p : Prop :=
  t ∈ threads_ p ∨ t ∈ stopped_threads_ p ∨ ∃ j, j ∈ joiners p ∧ t ∈ j_tmp j.
(** The context of [t] is destroyed with the end of its thread, which was not
    joined: the destructor of [std::thread] ends the program. *)
Definition destroyed_joinable (t : nat) p : Prop := finished t p ∧ joinable t p = true ∧ ¬ owned t p.

End Pool.

(** ** pool-pair.cpp *)

(** One pool for everything, or a second one for the calls. *)
Record pool_pair (S : Type) : Type := Pair { io_ : pool S; rpc_ : option (pool S) }.
Arguments Pair {S}. Arguments io_ {S}. Arguments rpc_ {S}.

Section Pair.
Context {S : Type} `{IoService S}.
Implicit Types pp : pool_pair S.

Definition pair_new (ios : S) (thread_count : nat) : pool_pair S :=
  Pair (add thread_count (pool_new ios)).2 None.
Definition pair_new2 (ios rpc_ios : S) (thread_count rpc_thread_count : nat) : pool_pair S :=
  Pair (add thread_count (pool_new ios)).2 (Some (add rpc_thread_count (pool_new rpc_ios)).2).
Definition one_pool pp : bool := match rpc_ pp with None => true | Some _ => false end.
Definition get_io_pool pp : pool S := io_ pp.
Definition get_rpc_pool pp : pool S := default (io_ pp) (rpc_ pp).
Definition get_io_service pp : S := ios_ (get_io_pool pp).
Definition get_rpc_service pp : S := ios_ (get_rpc_pool pp).
Definition stop_all : M (pool_pair S) unit :=
  modify (λ pp, Pair (stop (io_ pp)).2 ((λ r, (stop r).2) <$> rpc_ pp)).
(** One pool after the other; the second goes on during the first. *)
Definition join_all_pair (decorator_ : call_decorator_type → option exn) (exception_ : exn → option exn)
    (io_self rpc_self : option nat) pp pp' : Prop :=
  join_all decorator_ exception_ io_self (io_ pp) (io_ pp') ∧
  match rpc_ pp, rpc_ pp' with
  | None, None => True
  | Some r, Some r' =>
      ∃ r0, rtc (step decorator_ exception_) r r0 ∧ join_all decorator_ exception_ rpc_self r0 r'
  | _, _ => False
  end.
End Pair.

(** ** The loop of a thread *)

Section Loop.
Context {S : Type} `{IoService S}.
Context (decorator_ : call_decorator_type → option exn) (exception_ : exn → option exn).

(** Turns that do not stop the loop: what their handlers threw, [None] for the
    ones that did not. *)
Inductive served : S → list (option exn) → S → Prop :=
  | served_nil s : served s [] s
  | served_run s n s' rs s'' :
      run_one s = (Ok n, s') → n ≠ 0 → served s' rs s'' → served s (None :: rs) s''
  | served_throw s e s' rs s'' :
      run_one s = (Raise e, s') → (∀ what, e ≠ EUndefined what) → served s' rs s'' →
      served s (Some e :: rs) s''.

Definition thrown (rs : list (option exn)) : list exn := omap id rs.

Lemma run_turn_ok s n s' p :
  ios_ p = s → run_one s = (Ok n, s') → run_turn exception_ p = (Ok (n =? 0), with_ios s' p).
Proof. intros Hs Hr. unfold run_turn, try_catch, on_ios, bind. by rewrite Hs, Hr. Qed.
Lemma run_turn_throw s e s' p :
  ios_ p = s → run_one s = (Raise e, s') → (∀ what, e ≠ EUndefined what) →
  run_turn exception_ p =
  (match exception_ e with Some e => Raise e | None => Ok false end,
   with_handled (handled p ++ [e]) (with_ios s' p)).
Proof.
  intros Hs Hr He. unfold run_turn, try_catch, on_ios, bind. rewrite Hs, Hr.
  destruct e; try (by destruct (exception_ _)). by destruct (He what).
Qed.

Lemma run_loop_served s rs s' p fuel :
  served s rs s' → ios_ p = s → (∀ e, e ∈ thrown rs → exception_ e = None) →
  run_loop exception_ (length rs + fuel) p =
  run_loop exception_ fuel (with_handled (handled p ++ thrown rs) (with_ios s' p)).
Proof.
  intros Hs. revert p. induction Hs as [s|s n s' rs s'' Hr Hn _ IH|s e s' rs s'' Hr He _ IH]; intros p Hp Hx;
    cbn [length Nat.add run_loop].
  - cbn. rewrite app_nil_r, <-Hp. by destruct p.
  - erewrite bind_ok by by eapply run_turn_ok. rewrite (proj2 (Z.eqb_neq n 0) Hn). cbn beta iota.
    by rewrite IH.
  - assert (Hn : exception_ e = None) by (apply Hx; by left).
    erewrite bind_ok by (erewrite run_turn_throw by done; by rewrite Hn). cbn beta iota.
    rewrite IH; [|done|intros x Hi; apply Hx; by right]. cbn. by rewrite <-app_assoc.
Qed.

Lemma epilogue_eq t (p : pool S) : (∀ c what, decorator_ c ≠ Some (EUndefined what)) →
  epilogue decorator_ t p = (Ok tt, with_decorated (decorated p ++ [(t, CALL_EPILOGUE)]) p).
Proof.
  intros Hd. unfold epilogue, try_catch, decorate. rewrite bind_modify.
  destruct (decorator_ CALL_EPILOGUE) as [e|] eqn:E; [|done].
  destruct e; try done. by destruct (Hd CALL_EPILOGUE what).
Qed.

(** What [run_impl] does around the loop. *)
Lemma run_impl_eq fuel t (p : pool S) r p' :
  (∀ c what, decorator_ c ≠ Some (EUndefined what)) → decorator_ CALL_PROLOGUE = None →
  run_loop exception_ fuel (with_decorated (decorated p ++ [(t, CALL_PROLOGUE)]) p) = (r, p') →
  run_impl decorator_ exception_ fuel t p =
  (r, with_decorated (decorated p' ++ [(t, CALL_EPILOGUE)]) p').
Proof.
  intros Hd Hp Hr. unfold run_impl. erewrite bind_ok by (unfold decorate; by rewrite bind_modify, Hp).
  by rewrite Hr, epilogue_eq.
Qed.
End Loop.

(** ** The ownership of the contexts *)

Section Ownership.
Context {S : Type} `{IoService S}.
Context (decorator_ : call_decorator_type → option exn) (exception_ : exn → option exn).
Implicit Types p : pool S.

Definition phase_of (t : nat) p : option phase := th_phase <$> contexts p !! t.

(** The parts of the pool the ownership is about. *)
Definition sets p := (threads_ p, stopped_threads_ p, joiners p, th_joinable <$> contexts p).

Lemma create_threads_eq count p :
  create_threads count p =
  (Ok (seq (length (contexts p)) count),
   with_contexts (contexts p ++ replicate count (Thread ph_begin true)) p).
Proof.
  revert p. induction count as [|n IH]; intros p; cbn [create_threads seq replicate].
  - rewrite app_nil_r. by destruct p.
  - erewrite bind_ok by reflexivity. rewrite (bind_ok _ _ _ _ _ (IH _)). cbn.
    by rewrite length_app, Nat.add_1_r, <-app_assoc.
Qed.
Lemma add_eq count p :
  (add count p).2 =
  with_threads (threads_ p ∪ list_to_set (seq (length (contexts p)) count)) ∅
    (with_contexts (contexts p ++ replicate count (Thread ph_begin true)) p).
Proof. unfold add. by rewrite (bind_ok _ _ _ _ _ (create_threads_eq count p)). Qed.
Lemma inc_eq p :
  (inc p).2 = with_threads ({[length (contexts p)]} ∪ threads_ p) ∅
                (with_contexts (contexts p ++ [Thread ph_begin true]) p).
Proof. done. Qed.

Lemma same_sets_phase t ph p : sets (set_phase t ph p).2 = sets p.
Proof.
  unfold sets. cbn. f_equal. apply list_eq. intros i. rewrite !list_lookup_fmap.
  destruct (decide (i = t)) as [->|]; [rewrite list_lookup_alter_eq|by rewrite list_lookup_alter_ne].
  by destruct (contexts p !! t).
Qed.

(** Computations that leave the sets alone. *)
Lemma same_sets_decorate t c p : sets (decorate decorator_ t c p).2 = sets p.
Proof. unfold decorate. rewrite bind_modify. by destruct (decorator_ c). Qed.
Lemma same_sets_epilogue t p : sets (epilogue decorator_ t p).2 = sets p.
Proof.
  unfold epilogue, try_catch. pose proof (same_sets_decorate t CALL_EPILOGUE p) as Hs.
  by destruct (decorate _ _ _ p) as [[[]|[]] p'].
Qed.
Lemma same_sets_turn p : sets (run_turn exception_ p).2 = sets p.
Proof.
  unfold run_turn, try_catch, on_ios, bind. destruct (run_one (ios_ p)) as [[n|e] s]; [done|].
  destruct e; try done; cbn; by destruct (exception_ _).
Qed.
Lemma same_sets_loop fuel p : sets (run_loop exception_ fuel p).2 = sets p.
Proof.
  revert p. induction fuel as [|fuel IH]; intros p; [done|]. cbn [run_loop]. unfold bind.
  pose proof (same_sets_turn p) as Hs. destruct (run_turn exception_ p) as [[[]|e] p']; [done| |done].
  by rewrite IH.
Qed.
Lemma same_sets_attach fuel p : sets (attach decorator_ exception_ fuel p).2 = sets p.
Proof.
  unfold attach, run_impl, bind. pose proof (same_sets_decorate None CALL_PROLOGUE p) as Hd.
  destruct (decorate _ None _ p) as [[[]|e] p1]; [|done].
  pose proof (same_sets_loop fuel p1) as Hl. destruct (run_loop _ fuel p1) as [r p2].
  pose proof (same_sets_epilogue None p2) as He. destruct (epilogue _ None p2) as [r' p3].
  cbn in *. congruence.
Qed.
Lemma same_sets_begin t p : sets (thread_begin decorator_ t p).2 = sets p.
Proof.
  unfold thread_begin. pose proof (same_sets_decorate (Some t) CALL_PROLOGUE p) as Hd.
  destruct (decorate _ (Some t) _ p) as [[[]|e] p1]; by rewrite same_sets_phase.
Qed.
Lemma same_sets_thread_turn t p : sets (thread_turn decorator_ exception_ t p).2 = sets p.
Proof.
  unfold thread_turn. pose proof (same_sets_turn p) as Ht.
  destruct (run_turn exception_ p) as [[[]|e] p1]; cbn [snd] in Ht; rewrite <-Ht; [|done|];
    unfold bind; pose proof (same_sets_epilogue (Some t) p1) as He;
    destruct (epilogue _ (Some t) p1) as [[[]|e'] p2]; by rewrite ?same_sets_phase.
Qed.

(** The steps by what they do to the sets. *)
Inductive set_step : pool S → pool S → Prop :=
  | set_same p p' : sets p' = sets p → set_step p p'
  | set_add n p : set_step p (add n p).2
  | set_stop p : set_step p (stop p).2
  | set_begin self p : set_step p (join_begin self p).2
  | set_next i self tmp t rest p :
      joiners p !! i = Some (Joiner self tmp (t :: rest)) → set_step p (join_next i p).2
  | set_end i self tmp p : joiners p !! i = Some (Joiner self tmp []) → set_step p (join_end i p).2.
Lemma inc_add p : (inc p).2 = (add 1 p).2.
Proof. rewrite add_eq, inc_eq. cbn. by rewrite union_empty_r_L, (union_comm_L {[_]}). Qed.
Lemma step_set p p' : step decorator_ exception_ p p' → set_step p p'.
Proof.
  destruct 1.
  - apply set_add.
  - rewrite inc_add. apply set_add.
  - apply set_stop.
  - apply set_same, same_sets_begin.
  - apply set_same, same_sets_thread_turn.
  - apply set_same, same_sets_attach.
  - apply set_begin.
  - by eapply set_next.
  - by eapply set_end.
Qed.

Lemma elem_of_insert {A} (x y : A) i (l : list A) : x ∈ <[i:=y]> l → x = y ∨ x ∈ l.
Proof.
  intros [k Hk]%list_elem_of_lookup. destruct (decide (k = i)) as [->|Hne].
  - destruct (decide (i < length l)%nat) as [Hl|Hl].
    + rewrite list_lookup_insert_eq in Hk by done. injection Hk as <-. by left.
    + rewrite list_insert_ge in Hk by lia. right. by eapply list_elem_of_lookup_2.
  - rewrite list_lookup_insert_ne in Hk by done. right. by eapply list_elem_of_lookup_2.
Qed.
Lemma elem_of_delete {A} (x : A) i (l : list A) : x ∈ delete i l → x ∈ l.
Proof.
  revert i. induction l as [|y l IH]; intros [|i]; cbn; [done|done|by right|].
  intros [->|Hx]%elem_of_cons; [by left|right; by eapply IH].
Qed.

Lemma joinable_add n t p :
  joinable t (add n p).2 = true → joinable t p = true ∨ (length (contexts p) ≤ t < length (contexts p) + n)%nat.
Proof.
  rewrite add_eq. unfold joinable. cbn. destruct (decide (t < length (contexts p))%nat) as [Hl|Hl].
  - rewrite lookup_app_l by done. by left.
  - rewrite lookup_app_r by lia. destruct (replicate n _ !! _) as [c|] eqn:Hc; [|done].
    apply lookup_replicate in Hc as [_ Hc]. right. lia.
Qed.

(** What the sets are: known threads, those of a [join_all( )] out of the pool's. *)
Record base_inv p : Prop := {
  bi_known t : t ∈ threads_ p ∨ (∃ j, j ∈ joiners p ∧ t ∈ j_tmp j) → (t < length (contexts p))%nat;
  bi_stopped : stopped_threads_ p = ∅;
  bi_rest j t : j ∈ joiners p → t ∈ j_rest j → t ∈ j_tmp j;
  bi_apart j t : j ∈ joiners p → t ∈ threads_ p → t ∉ j_tmp j
}.
Lemma sets_eq p p' : sets p' = sets p →
  threads_ p' = threads_ p ∧ stopped_threads_ p' = stopped_threads_ p ∧ joiners p' = joiners p ∧
  length (contexts p') = length (contexts p) ∧ ∀ t, joinable t p' = joinable t p.
Proof.
  unfold sets. intros [= -> -> -> Hc]. split_and!; try done.
  - by rewrite <-(length_fmap th_joinable), Hc, length_fmap.
  - intros t. assert (Ht : (th_joinable <$> contexts p') !! t = (th_joinable <$> contexts p) !! t) by by rewrite Hc.
    rewrite !list_lookup_fmap in Ht. unfold joinable.
    destruct (contexts p' !! t), (contexts p !! t); cbn in Ht; congruence.
Qed.

Lemma join_next_eq i self tmp t rest p :
  joiners p !! i = Some (Joiner self tmp (t :: rest)) →
  ∃ c, (join_next i p).2 = with_joiners (<[i := Joiner self tmp rest]> (joiners p)) (with_contexts c p) ∧
    length c = length (contexts p) ∧
    (∀ t', joinable t' (with_contexts c p) = joinable t' p && negb (bool_decide (t' = t ∧ must_join self t p = true))) ∧
    (∀ t', phase_of t' (with_contexts c p) = phase_of t' p).
Proof.
  intros Hj. unfold join_next. rewrite bind_get, Hj. destruct (must_join self t p) eqn:Hm.
  - eexists. split; [reflexivity|]. split; [apply length_alter|]. unfold joinable, phase_of. cbn.
    split; intros t'; (destruct (decide (t' = t)) as [->|Hne];
      [rewrite list_lookup_alter_eq|rewrite list_lookup_alter_ne by done]).
    + rewrite bool_decide_true by done. destruct (contexts p !! t); [cbn|done]. by rewrite andb_false_r.
    + rewrite bool_decide_false by tauto. by rewrite andb_true_r.
    + by destruct (contexts p !! t).
    + done.
  - exists (contexts p). split; [by destruct p|]. split; [done|]. split; [|done]. intros t'.
    rewrite bool_decide_false by (intros [_ ?]; congruence). rewrite andb_true_r. by destruct p.
Qed.

Lemma base_inv_step p p' : set_step p p' → base_inv p → base_inv p'.
Proof.
  destruct 1 as [p p' Hs|n p|p|self p|i self tmp t rest p Hj|i self tmp p Hj]; intros [H1 H2 H3 H4].
  - destruct (sets_eq p p' Hs) as (E1 & E2 & E3 & E4 & _). split; rewrite ?E1, ?E2, ?E3, ?E4; auto.
  - rewrite add_eq. split; cbn; [|done|done|].
    + intros t Ht. rewrite length_app, length_replicate, elem_of_union, elem_of_list_to_set, elem_of_seq in *.
      destruct Ht as [[Ht|Ht]|Ht]; [specialize (H1 t (or_introl Ht))|..|specialize (H1 t (or_intror Ht))]; lia.
    + intros j t Hj Ht Htm. rewrite elem_of_union, elem_of_list_to_set, elem_of_seq in Ht.
      destruct Ht as [Ht|Ht]; [by apply (H4 j t)|]. specialize (H1 t (or_intror (ex_intro _ j (conj Hj Htm)))). lia.
  - by split.
  - split; cbn; [|done|..].
    + intros t [Ht|(j & Hj & Ht)]; [by apply elem_of_empty in Ht|]. apply H1.
      apply elem_of_app in Hj as [Hj|Hj]; [by eauto|]. apply list_elem_of_singleton in Hj as ->. by left.
    + intros j t [Hj|Hj]%elem_of_app; [by apply H3|]. apply list_elem_of_singleton in Hj as ->. cbn.
      by rewrite elem_of_elements.
    + intros j t _ Ht. by apply elem_of_empty in Ht.
  - destruct (join_next_eq _ _ _ _ _ _ Hj) as (c & -> & Hc & _).
    assert (Hin : Joiner self tmp (t :: rest) ∈ joiners p) by by eapply list_elem_of_lookup_2.
    split; cbn; [|done|..].
    + intros t' [Ht|(j & Hj' & Ht)]; rewrite Hc; apply H1; [by left|right].
      apply elem_of_insert in Hj' as [->|Hj']; eauto.
    + intros j t' [->|Hj']%elem_of_insert Ht; [|by apply (H3 j)]. apply (H3 _ _ Hin). by right.
    + intros j t' [->|Hj']%elem_of_insert Ht; [by apply (H4 _ _ Hin)|by apply H4].
  - split; cbn; [|done|..].
    + intros t [Ht|(j & Hj' & Ht)]; apply H1; [by left|right]. exists j. split; [by eapply elem_of_delete|done].
    + intros j t Hj'. apply H3. by eapply elem_of_delete.
    + intros j t Hj'. apply H4. by eapply elem_of_delete.
Qed.

(** Nobody joins from a thread of the pool. *)
Definition owned_inv p : Prop :=
  Forall (λ j, j_self j = None) (joiners p) ∧
  ∀ t, joinable t p = true → t ∈ threads_ p ∨ ∃ j, j ∈ joiners p ∧ t ∈ j_rest j.

Lemma owned_inv_step p p' :
  set_step p p' → Forall (λ j, j_self j = None) (joiners p') → owned_inv p → owned_inv p'.
Proof.
  intros Hs Hn' [Hn Ho]. split; [done|]. revert Hn'.
  destruct Hs as [p p' Hs|n p|p|self p|i self tmp t rest p Hj|i self tmp p Hj]; intros Hn' t' Ht'.
  - destruct (sets_eq p p' Hs) as (E1 & _ & E3 & _ & E5). rewrite E1, E3. apply Ho. by rewrite <-E5.
  - apply joinable_add in Ht'. rewrite add_eq. cbn. rewrite elem_of_union, elem_of_list_to_set, elem_of_seq.
    destruct Ht' as [Ht'|Ht']; [|left; right; lia]. destruct (Ho t' Ht') as [|]; [left; by left|by right].
  - by apply Ho.
  - right. cbn. destruct (Ho t' Ht') as [Hi|(j & Hj & Hi)].
    + exists (Joiner self (threads_ p) (elements (threads_ p))). split; [|cbn; by apply elem_of_elements].
      apply elem_of_app. right. by apply list_elem_of_singleton.
    + exists j. split; [|done]. apply elem_of_app. by left.
  - destruct (join_next_eq _ _ _ _ _ _ Hj) as (c & Hc & _ & Hjo & _). rewrite Hc in Ht' |- *.
    change (joinable t' (with_contexts c p) = true) in Ht'. rewrite Hjo in Ht'.
    apply andb_true_iff in Ht' as [Hp Hd]. apply negb_true_iff, bool_decide_eq_false in Hd.
    assert (Hself : self = None).
    { rewrite Forall_forall in Hn. exact (Hn _ (list_elem_of_lookup_2 _ _ _ Hj)). }
    cbn. destruct (Ho t' Hp) as [|(j & Hj' & Hi)]; [by left|right].
    apply list_elem_of_lookup in Hj' as [k Hk]. destruct (decide (k = i)) as [->|Hne].
    + rewrite Hj in Hk. injection Hk as <-. cbn in Hi. exists (Joiner self tmp rest). split.
      * apply list_elem_of_lookup. exists i. apply list_lookup_insert_eq. by eapply lookup_lt_Some.
      * apply elem_of_cons in Hi as [->|Hi]; [|done]. destruct Hd. split; [done|].
        unfold must_join. by rewrite Hp, Hself.
    + exists j. split; [|done]. apply list_elem_of_lookup. exists k. by rewrite list_lookup_insert_ne.
  - cbn. destruct (Ho t' Ht') as [|(j & Hj' & Hi)]; [by left|right]. exists j. split; [|done].
    apply list_elem_of_lookup in Hj' as [k Hk]. apply list_elem_of_lookup.
    destruct (decide (k < i)%nat) as [Hlt|Hge].
    + exists k. by rewrite list_lookup_delete_lt.
    + assert (k ≠ i) by (intros ->; rewrite Hj in Hk; injection Hk as <-; by apply elem_of_nil in Hi).
      exists (pred k). rewrite list_lookup_delete_ge by lia. by replace (Datatypes.S (pred k)) with k by lia.
Qed.

(** A thread of the pool that called [join_all( )]: nobody will join it. *)
Definition lost (t : nat) p : Prop :=
  joinable t p = true ∧ (t < length (contexts p))%nat ∧ (t ∉ threads_ p) ∧
  ∀ j, j ∈ joiners p → t ∈ j_tmp j → j_self j = Some t.

Lemma lost_step t p p' : set_step p p' → base_inv p → lost t p → lost t p'.
Proof.
  destruct 1 as [p p' Hs|n p|p|self p|i self tmp u rest p Hj|i self tmp p Hj];
    intros [B1 B2 B3 B4] (H1 & H2 & H3 & H4); unfold lost.
  - destruct (sets_eq p p' Hs) as (E1 & _ & E3 & E4 & E5). by rewrite E1, E3, E4, E5.
  - rewrite add_eq. unfold joinable in *. cbn. rewrite lookup_app_l by done.
    rewrite length_app, elem_of_union, elem_of_list_to_set, elem_of_seq. split_and!; [done|lia| |done].
    intros [|]; [done|lia].
  - done.
  - cbn. split_and!; [done|done|set_solver|]. intros j [Hj|Hj]%elem_of_app; [by apply H4|].
    apply list_elem_of_singleton in Hj as ->. done.
  - destruct (join_next_eq _ _ _ _ _ _ Hj) as (c & -> & Hc & Hjo & _).
    assert (Hin : Joiner self tmp (u :: rest) ∈ joiners p) by by eapply list_elem_of_lookup_2.
    change (joinable t (with_contexts c p) = true ∧ (t < length c)%nat ∧ (t ∉ threads_ p) ∧
      ∀ j, j ∈ <[i := Joiner self tmp rest]> (joiners p) → t ∈ j_tmp j → j_self j = Some t).
    rewrite Hjo, H1, Hc. split_and!; [|done|done|].
    + cbn. apply negb_true_iff, bool_decide_eq_false. intros [<- Hm].
      assert (Hs : self = Some t) by (apply (H4 _ Hin), (B3 _ _ Hin); by left).
      unfold must_join in Hm. rewrite Hs, bool_decide_true, andb_false_r in Hm by done. done.
    + intros j [->|Hj']%elem_of_insert Ht; [by apply (H4 _ Hin)|by apply H4].
  - cbn. split_and!; [done|done|done|]. intros j Hj'. apply H4. by eapply elem_of_delete.
Qed.
End Ownership.

(** ** Properties *)

Section Properties.
Context {S : Type} `{IoService S}.
Context (decorator_ : call_decorator_type → option exn) (exception_ : exn → option exn).

(** Steps without a [join_all( )] called from a thread of the pool. *)
Definition outside_step (p p' : pool S) : Prop :=
  step decorator_ exception_ p p' ∧ Forall (λ j, j_self j = None) (joiners p').

Lemma base_inv_new (ios : S) : base_inv (pool_new ios).
Proof.
  split; cbn; [|done|..].
  - intros t [Ht|(j & Hj & _)]; [by apply elem_of_empty in Ht|by apply elem_of_nil in Hj].
  - intros j t Hj. by apply elem_of_nil in Hj.
  - intros j t Hj. by apply elem_of_nil in Hj.
Qed.
Lemma base_inv_steps (p p' : pool S) : rtc (step decorator_ exception_) p p' → base_inv p → base_inv p'.
Proof. induction 1 as [|p p1 p' Hs _ IH]; [done|]. intros Hp. by eapply IH, base_inv_step, Hp; eapply step_set. Qed.

Lemma outside_owned (p p' : pool S) : rtc outside_step p p' → base_inv p → owned_inv p → base_inv p' ∧ owned_inv p'.
Proof.
  induction 1 as [|p p1 p' [Hs Hn] _ IH]; [done|]. intros Hb Ho. apply step_set in Hs.
  apply IH; [by eapply base_inv_step|by eapply owned_inv_step].
Qed.

Lemma lost_steps t (p p' : pool S) : rtc (step decorator_ exception_) p p' → base_inv p → lost t p → lost t p'.
Proof.
  induction 1 as [|p p1 p' Hs _ IH]; [done|]. intros Hb Hl. apply step_set in Hs.
  apply IH; [by eapply base_inv_step|by eapply lost_step].
Qed.

(** *** Stopping *)

Section Stopping.
Context `{!IoServiceLaws S} (Hdec : ∀ c, decorator_ c = None).
Abbreviation steps := (rtc (step decorator_ exception_)).

Lemma phase_set t ph t' (p : pool S) :
  phase_of t' (set_phase t ph p).2 = if decide (t' = t) then const ph <$> phase_of t p else phase_of t' p.
Proof.
  unfold phase_of. cbn. destruct (decide (t' = t)) as [->|Hne].
  - rewrite list_lookup_alter_eq. by destruct (contexts p !! t).
  - by rewrite list_lookup_alter_ne.
Qed.

(** What a thread still has to do when the service was stopped. *)
Definition ending (t : nat) (p p' : pool S) : Prop :=
  steps p p' ∧ sets p' = sets p ∧ stopped (ios_ p') ∧ finished t p' ∧
  ∀ t', t' ≠ t → phase_of t' p' = phase_of t' p.

Lemma ends_loop t (p : pool S) :
  stopped (ios_ p) → phase_of t p = Some ph_loop → ∃ p', ending t p p'.
Proof.
  intros Hs Ht. exists (thread_turn decorator_ exception_ t p).2. split_and!.
  1: by apply rtc_once, step_turn.
  1: apply same_sets_thread_turn.
  all: destruct (run_stopped _ Hs) as [Hr Hs']; unfold thread_turn;
    destruct (run_one (ios_ p)) as [r s'] eqn:Hone; cbn in Hr, Hs'; subst r;
    rewrite (run_turn_ok exception_ _ 0 s' p eq_refl Hone), Z.eqb_refl;
    rewrite (bind_ok _ _ _ _ _ (epilogue_eq decorator_ (Some t) (with_ios s' p)
      ltac:(intros c what; by rewrite Hdec))).
  - done.
  - unfold finished. fold (phase_of t (set_phase (S := S) t ph_finished
      (with_decorated (decorated (with_ios s' p) ++ [(Some t, CALL_EPILOGUE)]) (with_ios s' p))).2).
    rewrite phase_set, decide_True by done. change (const ph_finished <$> phase_of t p = Some ph_finished).
    by rewrite Ht.
  - intros t' Hne. by rewrite phase_set, decide_False.
Qed.

Lemma ends_thread t (p : pool S) :
  stopped (ios_ p) → is_Some (phase_of t p) → phase_of t p ≠ Some ph_terminate → ∃ p', ending t p p'.
Proof.
  intros Hs [ph Ht] Hne. destruct ph; [|by apply ends_loop| |done].
  - set (p1 := (thread_begin decorator_ t p).2).
    assert (Hp1 : p1 = (set_phase t ph_loop (with_decorated (decorated p ++ [(Some t, CALL_PROLOGUE)]) p)).2).
    { unfold p1, thread_begin, decorate. by rewrite bind_modify, Hdec. }
    destruct (ends_loop t p1) as (p' & H1 & H2 & H3 & H4 & H5).
    + by rewrite Hp1.
    + rewrite Hp1, phase_set, decide_True by done.
      change (const ph_loop <$> phase_of t p = Some ph_loop). by rewrite Ht.
    + exists p'. split_and!; [|by rewrite H2; apply same_sets_begin|done|done|].
      * eapply rtc_l; [by apply step_begin|exact H1].
      * intros t' Hne'. rewrite H5, Hp1, phase_set, decide_False by done. done.
  - exists p. by split_and!.
Qed.

(** The rest of a [join_all( )] that waits for stopped threads. *)
Lemma join_rest rest i tmp (p : pool S) :
  stopped (ios_ p) → joiners p !! i = Some (Joiner None tmp rest) → NoDup rest →
  (∀ t, t ∈ rest → is_Some (phase_of t p) ∧ phase_of t p ≠ Some ph_terminate) →
  ∃ p', steps p p' ∧ threads_ p' = threads_ p ∧ joiners p' = <[i := Joiner None tmp []]> (joiners p) ∧
    (∀ t, t ∈ rest → finished t p' ∧ joinable t p' = false) ∧
    (∀ t, t ∉ rest → phase_of t p' = phase_of t p ∧ joinable t p' = joinable t p).
Proof.
  revert p. induction rest as [|t rest IH]; intros p Hs Hj Hnd Hph.
  - exists p. split_and!; [done|done| |by intros t Ht%elem_of_nil|done]. by rewrite list_insert_id.
  - apply NoDup_cons in Hnd as [Hnt Hnd]. destruct (Hph t ltac:(by left)) as [Hsome Hnt'].
    destruct (ends_thread t p Hs Hsome Hnt') as (p1 & H1 & H2 & H3 & H4 & H5).
    destruct (sets_eq p p1 H2) as (E1 & _ & E3 & _ & E5). rewrite <-E3 in Hj.
    assert (Hstep : step decorator_ exception_ p1 (join_next i p1).2) by by eapply step_join_next.
    destruct (join_next_eq i None tmp t rest p1 Hj) as (c & Hp2 & _ & Hjo & Hphase). rewrite Hp2 in Hstep.
    assert (Hjt : joinable t (with_contexts c p1) = false).
    { rewrite Hjo. unfold must_join. rewrite (bool_decide_false (None = Some t)) by done.
      destruct (joinable t p1); [by rewrite bool_decide_true|done]. }
    set (p2 := with_joiners _ (with_contexts c p1)) in *.
    destruct (IH p2) as (p' & F1 & F2 & F3 & F4 & F5).
    + done.
    + apply list_lookup_insert_eq. by eapply lookup_lt_Some.
    + done.
    + intros t' Ht'. change (phase_of t' p2) with (phase_of t' (with_contexts c p1)).
      rewrite Hphase, H5 by (intros ->; done). apply Hph. by right.
    + exists p'. split_and!.
      * etrans; [exact H1|]. eapply rtc_l; [exact Hstep|exact F1].
      * by rewrite F2.
      * rewrite F3. cbn. by rewrite list_insert_insert_eq, E3.
      * intros t' [->|Ht']%elem_of_cons; [|by apply F4]. destruct (F5 t Hnt) as [G1 G2].
        rewrite G2. split; [|done]. unfold finished. fold (phase_of t p'). rewrite G1.
        exact (eq_trans (Hphase t) H4).
      * intros t' Ht'. apply not_elem_of_cons in Ht' as [Hne Ht']. destruct (F5 t' Ht') as [-> ->].
        rewrite <-(H5 t' Hne), <-(E5 t'). split; [apply Hphase|]. etrans; [apply Hjo|].
        rewrite bool_decide_false by tauto. apply andb_true_r.
Qed.
End Stopping.

End Properties.

(** A thread, attached or the pool's, calls the decorator once
    before and once after its loop and runs what the service gives it in between:
    every exception of a handler goes to the exception handler, in order, and the
    loop goes on until the service has nothing to run; if the exception handler
    throws, that exception leaves [run_impl], after the epilogue all the same. *)
Theorem run_impl_serves {S} `{IoService S} (decorator_ : call_decorator_type → option exn)
    (exception_ : exn → option exn) (t : option nat) (p : pool S) rs s' fuel :
  (∀ c what, decorator_ c ≠ Some (EUndefined what)) → decorator_ CALL_PROLOGUE = None →
  served (ios_ p) rs s' → (∀ e, e ∈ thrown rs → exception_ e = None) →
  let around s h := with_decorated (decorated p ++ [(t, CALL_PROLOGUE); (t, CALL_EPILOGUE)])
                      (with_handled (handled p ++ h) (with_ios s p)) in
  (∀ s'', run_one s' = (Ok 0, s'') →
     run_impl decorator_ exception_ (length rs + Datatypes.S fuel) t p = (Ok (Some true), around s'' (thrown rs))) ∧
  (∀ e e' s'', run_one s' = (Raise e, s'') → (∀ what, e ≠ EUndefined what) → exception_ e = Some e' →
     run_impl decorator_ exception_ (length rs + Datatypes.S fuel) t p = (Raise e', around s'' (thrown rs ++ [e]))).
Proof.
  intros Hd Hp Hs Hx around.
  set (p0 := with_decorated (decorated p ++ [(t, CALL_PROLOGUE)]) p).
  pose proof (run_loop_served exception_ (ios_ p) rs s' p0 (Datatypes.S fuel) Hs eq_refl Hx) as Hl.
  cbn [run_loop] in Hl. split.
  - intros s'' Hr. erewrite bind_ok in Hl by by eapply run_turn_ok.
    rewrite (run_impl_eq decorator_ exception_ _ t p _ _ Hd Hp Hl). cbn. by rewrite <-app_assoc.
  - intros e e' s'' Hr He Hx'.
    erewrite bind_raise in Hl by (erewrite run_turn_throw by done; by rewrite Hx').
    rewrite (run_impl_eq decorator_ exception_ _ t p _ _ Hd Hp Hl). cbn. by rewrite <-!app_assoc.
Qed.

(** C17 (liveness).  After [stop( )], a [join_all( )] from outside the pool can come
    to its end: the threads finish within two turns each, are joined, and the set
    of threads is empty; provided the decorator does not throw and no thread was
    ended by an exception. *)
Theorem stop_then_join {S} `{IoServiceLaws S} (decorator_ : call_decorator_type → option exn)
    (exception_ : exn → option exn) ios (p : pool S) :
  (∀ c, decorator_ c = None) → rtc (step decorator_ exception_) (pool_new ios) p →
  (∀ t, t ∈ threads_ p → phase_of t p ≠ Some ph_terminate) →
  ∃ p', join_all decorator_ exception_ None (stop p).2 p' ∧
    joiners p' = joiners p ∧ threads_ p' = ∅ ∧
    ∀ t, t ∈ threads_ p → finished t p' ∧ joinable t p' = false.
Proof.
  intros Hd Hp Hph. pose proof (base_inv_steps _ _ _ _ Hp (base_inv_new ios)) as Hb.
  set (p1 := (join_begin None (stop p).2).2). set (i := length (joiners p)).
  set (J := Joiner None (threads_ p) (elements (threads_ p))).
  assert (Hj : joiners p1 !! i = Some J).
  { unfold p1, i. cbn. by rewrite lookup_app_r, Nat.sub_diag by done. }
  destruct (join_rest decorator_ exception_ Hd (elements (threads_ p)) i (threads_ p) p1)
    as (p' & H1 & H2 & H3 & H4 & _); [|done|apply NoDup_elements|..].
  - apply stop_stops.
  - intros t Ht. apply elem_of_elements in Ht. split; [|by apply Hph].
    pose proof (bi_known p Hb t (or_introl Ht)) as Hl. apply lookup_lt_is_Some in Hl as [c Hc].
    unfold phase_of. change (contexts p1) with (contexts p). by rewrite Hc.
  - exists (join_end i p').2. split_and!.
    + exists p', i. split_and!; [exact H1| |done]. rewrite H3. apply list_lookup_insert_eq.
      by eapply lookup_lt_Some.
    + cbn. rewrite H3. unfold p1, i. cbn. rewrite insert_app_r_alt, Nat.sub_diag by done. cbn.
      by rewrite delete_middle, app_nil_r.
    + done.
    + intros t Ht. apply H4. by apply elem_of_elements.
Qed.

(** C24 (safety).  The [std::thread]s and their owners: as long as [join_all( )] is
    called from outside the pool, a thread that was not joined has an owner, so
    none is destroyed joinable; but a thread of the pool that calls [join_all( )]
    loses its own owner and is never joined, and when it finishes after the call
    its destruction ends the program. *)
Theorem join_ownership {S} `{IoService S} (decorator_ : call_decorator_type → option exn)
    (exception_ : exn → option exn) ios (p p' : pool S) t :
  (rtc (outside_step decorator_ exception_) (pool_new ios) p → ¬ destroyed_joinable t p) ∧
  (rtc (step decorator_ exception_) (pool_new ios) p → t ∈ threads_ p → joinable t p = true →
   rtc (step decorator_ exception_) (join_begin (Some t) p).2 p' →
   joinable t p' = true ∧ (joiners p' = [] → finished t p' → destroyed_joinable t p')).
Proof.
  split.
  - intros Hp (_ & Hj & Ho). apply Ho.
    destruct (outside_owned decorator_ exception_ _ _ Hp (base_inv_new ios)) as [Hb [_ Hi]].
    { split; [constructor|]. intros u Hu. done. }
    destruct (Hi t Hj) as [|(j & Hin & Ht)]; [by left|right; right]. exists j. split; [done|].
    by apply (bi_rest p Hb).
  - intros Hp Ht Hj Hs. pose proof (base_inv_steps _ _ _ _ Hp (base_inv_new ios)) as Hb.
    assert (Hl : lost t (join_begin (Some t) p).2).
    { split_and!; [done|by apply (bi_known p Hb); left|cbn; by apply not_elem_of_empty|].
      cbn. intros j [Hin|Hin]%elem_of_app Hm; [by destruct (bi_apart p Hb j t Hin Ht)|].
      by apply list_elem_of_singleton in Hin as ->. }
    assert (Hb1 : base_inv (join_begin (Some t) p).2) by (eapply base_inv_step; [apply set_begin|done]).
    destruct (lost_steps _ _ _ _ _ Hs Hb1 Hl) as (L1 & _ & L3 & _).
    pose proof (base_inv_steps _ _ _ _ Hs Hb1) as Hb2. split; [done|]. intros Hn Hf.
    split_and!; [done|done|]. intros [Ho|[Ho|(j & Hin & _)]]; [done|..].
    + rewrite (bi_stopped _ Hb2) in Ho. by apply elem_of_empty in Ho.
    + rewrite Hn in Hin. by apply elem_of_nil in Hin.
Qed.

(** ** Witnesses *)

(** A service that runs a list of handlers, which throw or not, until it is stopped. *)
Definition handlers : Type := list (option exn) * bool.
#[export] Instance handlers_service : IoService handlers := {|
  run_one := λ q, match q with
                  | (None :: l, false) => (Ok 1, (l, false))
                  | (Some e :: l, false) => (Raise e, (l, false))
                  | _ => (Ok 0, q)
                  end;
  ios_stop := λ q, (q.1, true)
|}.
Definition handlers_stopped (q : handlers) : Prop := q.2 = true.
#[export] Instance handlers_laws : IoServiceLaws handlers.
Proof. apply (Build_IoServiceLaws _ _ handlers_stopped); [done|]. by intros [[|[e|] l] []]. Defined.

Definition no_throw (c : call_decorator_type) : option exn := None.
Definition swallow (e : exn) : option exn := None.

Lemma run_impl_serves_witness :
  (attach no_throw swallow 3 (pool_new ([None; Some (EStd "x")], false) : pool handlers)).1 = Ok (Some true).
Proof.
  refine (f_equal fst (proj1 (run_impl_serves no_throw swallow None
    (pool_new ([None; Some (EStd "x")], false)) [None; Some (EStd "x")] ([], false) 0
    ltac:(done) eq_refl
    ltac:(eapply served_run; [done|done|]; eapply served_throw; [done|done|apply served_nil])
    ltac:(intros; done)) ([], false) eq_refl)).
Defined.

Definition example_pool : pool handlers := (add 2 (pool_new ([], false))).2.
Lemma example_pool_steps : rtc (step no_throw swallow) (pool_new ([], false)) example_pool.
Proof. apply rtc_once, step_add. Qed.

Lemma stop_then_join_witness :
  ∃ p', join_all no_throw swallow None (stop example_pool).2 p' ∧
    joiners p' = [] ∧ threads_ p' = ∅ ∧ ∀ t, t ∈ threads_ example_pool → finished t p' ∧ joinable t p' = false.
Proof.
  apply (stop_then_join no_throw swallow ([], false) example_pool (λ _, eq_refl) example_pool_steps).
  intros [|[|t]] _; done.
Defined.

Lemma join_ownership_witness : joinable 0 (join_begin (Some 0%nat) example_pool).2 = true.
Proof.
  refine (proj1 (proj2 (join_ownership no_throw swallow ([], false) example_pool
    (join_begin (Some 0%nat) example_pool).2 0) example_pool_steps _ eq_refl (rtc_refl _ _))).
  by apply (bool_decide_eq_true_1 _).
Defined.
