(* ===== verification/Client.v ===== *)
(** * Client: the connection of a client, from connect to its last handler

    [vtrc_client::impl] of [lib/vtrc/client/client.cpp], the part of
    [client/base.cpp] that keeps the connection, the reading side of
    [client/stream-impl.h] and the ways to open a stream of [client/tcp.cpp],
    [client/unix/local.cpp] and [client/posix-stream.cpp].

    Connections are known by numbers, in the order of their creation.  A connection
    lives while the client keeps it as its [connection_] or somebody else has a
    strong pointer to it; the destructor of a connection closes its stream, which
    makes the handler of the read that was under way run with an error.  That
    handler has a weak pointer to the client, and a plain one to the connection. *)

From stdpp Require Import pretty.
From S2P Require Import Prelude Messages CondQueues CallContext ProtocolLayer Registry.

Inductive client_signal : Type :=
  | on_init_error (err : container) (message : string)
  | on_connect
  | on_disconnect
  | on_ready.

(** [client_stream_impl] with its transport and its protocol layer, of which
    [ProtocolLayer.layer] is the part that errors of the transport reach: whether the
    session is ready and the slots of the calls that wait. *)
Record stream : Type := Stream {
  st_name : string;
  st_no_delay : bool;
  st_closed : bool;
  st_layer : layer
}.
Definition st_ready (s : stream) : bool := ready_ (st_layer s).
Definition with_layer (l : layer) (s : stream) : stream :=
  Stream (st_name s) (st_no_delay s) (st_closed s) l.
Definition with_ready (b : bool) (s : stream) : stream :=
  with_layer (ProtocolLayer.with_ready b (st_layer s)) s.
Definition with_closed (s : stream) : stream :=
  Stream (st_name s) (st_no_delay s) true (st_layer s).
Definition with_name (n : string) (s : stream) : stream :=
  Stream n (st_no_delay s) (st_closed s) (st_layer s).
Definition with_no_delay (s : stream) : stream :=
  Stream (st_name s) true (st_closed s) (st_layer s).
(** [protocol_->on_read_error( error )]: the session is not ready any more and every
    waiting call gets the error. *)
Definition with_read_error (value : Z) (s : stream) : stream :=
  with_layer (on_read_error value (st_layer s)).2 s.

(** [failed] and [failed_message] of a [connect_impl] under way. *)
Record waiter : Type := Waiter { failed : Z; failed_message : string }.

(** [reads] are the connections whose read is under way, oldest first; [refs] are
    the connections that others have strong pointers to; [client_alive] holds until
    the client is destroyed; [opened] are the connections that [open] made. *)
Record vtrc_client : Type := VtrcClient {
  base_ : ClientBase.base;
  env_ : Environment.environment;
  connection_ : option nat;
  streams : list stream;
  reads : list nat;
  refs : gset nat;
  client_alive : bool;
  waiters : list waiter;
  signals : list client_signal
}.

Definition vtrc_client_new : vtrc_client :=
  VtrcClient ClientBase.base_new Environment.environment_new None [] [] ∅ true [] [].

Definition with_base (b : ClientBase.base) (c : vtrc_client) : vtrc_client :=
  VtrcClient b (env_ c) (connection_ c) (streams c) (reads c) (refs c) (client_alive c) (waiters c) (signals c).
Definition with_env (e : Environment.environment) (c : vtrc_client) : vtrc_client :=
  VtrcClient (base_ c) e (connection_ c) (streams c) (reads c) (refs c) (client_alive c) (waiters c) (signals c).
Definition with_connection (x : option nat) (c : vtrc_client) : vtrc_client :=
  VtrcClient (base_ c) (env_ c) x (streams c) (reads c) (refs c) (client_alive c) (waiters c) (signals c).
Definition with_streams (s : list stream) (c : vtrc_client) : vtrc_client :=
  VtrcClient (base_ c) (env_ c) (connection_ c) s (reads c) (refs c) (client_alive c) (waiters c) (signals c).
Definition with_reads (r : list nat) (c : vtrc_client) : vtrc_client :=
  VtrcClient (base_ c) (env_ c) (connection_ c) (streams c) r (refs c) (client_alive c) (waiters c) (signals c).
Definition with_refs (r : gset nat) (c : vtrc_client) : vtrc_client :=
  VtrcClient (base_ c) (env_ c) (connection_ c) (streams c) (reads c) r (client_alive c) (waiters c) (signals c).
Definition with_alive (b : bool) (c : vtrc_client) : vtrc_client :=
  VtrcClient (base_ c) (env_ c) (connection_ c) (streams c) (reads c) (refs c) b (waiters c) (signals c).
Definition with_waiters (w : list waiter) (c : vtrc_client) : vtrc_client :=
  VtrcClient (base_ c) (env_ c) (connection_ c) (streams c) (reads c) (refs c) (client_alive c) w (signals c).
Definition with_signals (s : list client_signal) (c : vtrc_client) : vtrc_client :=
  VtrcClient (base_ c) (env_ c) (connection_ c) (streams c) (reads c) (refs c) (client_alive c) (waiters c) s.

Definition update (x : nat) (f : stream → stream) : M vtrc_client unit :=
  modify (λ c, with_streams (alter f x (streams c)) c).

(** A connection that was not destroyed. *)
Definition lives (x : nat) (c : vtrc_client) : Prop := connection_ c = Some x ∨ x ∈ refs c.
#[export] Instance lives_dec x c : Decision (lives x c).
Proof. unfold lives. apply _. Defined.

(** ** base.cpp *)

Definition reset_connection (new_conn : nat) : M vtrc_client unit :=
  modify (with_connection (Some new_conn)).
Definition connection (c : vtrc_client) : option nat := connection_ c.
Definition ready (c : vtrc_client) : bool :=
  match connection_ c ≫= λ x, streams c !! x with
  | Some s => st_ready s
  | None => false
  end.

(** The signals; [connect_impl] subscribes to [on_init_error], which a waiter hears. *)
Definition call_on_connect : M vtrc_client unit :=
  modify (λ c, with_signals (signals c ++ [on_connect]) c).
Definition call_on_disconnect : M vtrc_client unit :=
  modify (λ c, with_signals (signals c ++ [on_disconnect]) c).
Definition call_on_ready : M vtrc_client unit :=
  modify (λ c, with_signals (signals c ++ [on_ready]) c).
(** [on_init_error_s] *)
Definition on_init_error_s (message : string) (w : waiter) : waiter := Waiter 1 message.
Definition call_on_init_error (err : container) (message : string) : M vtrc_client unit :=
  modify (λ c, with_waiters (on_init_error_s message <$> waiters c)
                 (with_signals (signals c ++ [on_init_error err message]) c)).

(** ** stream-impl.h *)

(** [transport_impl::close( )]; [on_close( )] closes the protocol layer, which
    reports the end of the connection. *)
Definition stream_close (x : nat) : M vtrc_client unit :=
  let* c := get in
  match streams c !! x with
  | None => raise (EUndefined "no such connection")
  | Some s => if negb (st_closed s) then update x with_closed ;;; call_on_disconnect else ret tt
  end.

(** [client->get_connection( )->close( )] of an active connection; what it throws
    is swallowed. *)
Definition disconnect : M vtrc_client unit :=
  let* c := get in
  match connection_ c with
  | Some x =>
      match streams c !! x with
      | Some s => if st_ready s then try_catch (stream_close x) (λ _, ret tt) else ret tt
      | None => ret tt
      end
  | None => ret tt
  end.

Definition start_reading (x : nat) : M vtrc_client unit :=
  modify (λ c, with_reads (reads c ++ [x]) c).

(** What the protocol layer makes of the bytes that were read. *)
Inductive processed : Type :=
  | p_nothing
  | p_ready
  | p_failed (err : container) (message : string)
  | p_throws (e : exn).

Definition process_data (x : nat) (p : processed) : M vtrc_client unit :=
  match p with
  | p_nothing => ret tt
  | p_ready => update x (with_ready true) ;;; call_on_ready
  | p_failed err message => call_on_init_error err message
  | p_throws e => raise e
  end.

(** A member function of an object that is no more. *)
Definition destroyed : exn := EUndefined "a member of a destroyed connection".

(** The handler of a read of [x], with the value of its error if it has one: it looks at
    the client, not at its connection. *)
Definition read_handler (x : nat) (error : option Z) (p : processed) : M vtrc_client unit :=
  let* c := get in
  if negb (client_alive c) then ret tt
  else if negb (bool_decide (lives x c)) then raise destroyed
  else match error with
  | None =>
    (λ c, match process_data x p c with
          | (Ok _, c) => start_reading x c
          | (Raise EUnknown, c) => (Raise EUnknown, c)
          | (Raise (EUndefined w), c) => (Raise (EUndefined w), c)
          | (Raise _, c) => stream_close x c
          end)
  | Some value =>
    update x (with_read_error value) ;;;
    stream_close x
  end.
Definition on_connect_handler (setup : M vtrc_client unit) (x : nat) (err : bool) (closure : M vtrc_client unit) :
    M vtrc_client unit :=
  (if negb err then setup ;;; start_reading x else ret tt) ;;;
  closure.

(** ** Opening a stream: tcp.cpp, local.cpp and posix-stream.cpp *)

(** A local shared pointer, for the time of [m]. *)
Definition holding {A} (x : nat) (m : M vtrc_client A) : M vtrc_client A := λ c,
  let '(r, c) := m (with_refs ({[x]} ∪ refs c) c) in (r, with_refs (refs c ∖ {[x]}) c).

Definition new_stream (name : string) : M vtrc_client nat :=
  let* c := get in
  modify (with_streams (streams c ++ [Stream name false false (layer_new true default_session_options)])) ;;;
  ret (length (streams c)).

Definition outcome (r : option exn) : M vtrc_client unit :=
  match r with Some e => raise e | None => ret tt end.

(** What [set_no_delay] and [local_endpoint] of a socket come to: [bad_descriptor] if it
    was closed, and otherwise what the system says, [err] or the endpoint. *)
Definition bad_descriptor : exn := ERuntime "Bad file descriptor".
Definition on_open_socket (x : nat) : M vtrc_client unit :=
  let* c := get in
  match streams c !! x with
  | None => raise (EUndefined "no such connection")
  | Some s => if st_closed s then raise bad_descriptor else ret tt
  end.
Definition set_no_delay (x : nat) (err : option exn) : M vtrc_client unit :=
  on_open_socket x ;;;
  outcome err ;;;
  update x with_no_delay.
Definition local_endpoint (x : nat) (local : exn + string * Z) : M vtrc_client (string * Z) :=
  on_open_socket x ;;;
  match local with
  | inl e => raise e
  | inr ep => ret ep
  end.

(** [connected] is how [from_string] and the socket's [connect] end, [local] its own
    endpoint, which is asked for twice with the same answer, and [delayed] the option of
    the socket. *)
Definition tcp_connection_setup (x : nat) (local : exn + string * Z) (no_delay_ : bool) (delayed : option exn) :
    M vtrc_client unit :=
  let* ep := local_endpoint x local in
  update x (with_name ("tcp://" +:+ ep.1 +:+ ":" +:+ pretty ep.2)) ;;;
  if no_delay_ then set_no_delay x delayed else ret tt.
Definition client_tcp_connect (x : nat) (connected : option exn) (local : exn + string * Z) (no_delay_ : bool)
    (delayed : option exn) : M vtrc_client unit :=
  outcome connected ;;;
  tcp_connection_setup x local no_delay_ delayed ;;;
  start_reading x.
Definition client_unix_connect (x : nat) (connected : option exn) : M vtrc_client unit :=
  outcome connected ;;;
  start_reading x.
(** [fd] is what [open( )] gives, or the text of its error. *)
Definition client_posixs_connect (x : nat) (fd : string + Z) : M vtrc_client unit :=
  match fd with
  | inl message => raise (ERuntime message)
  | inr _ => start_reading x
  end.

(** [base::init_protocol( c )] of a connection the application made. *)
Definition init_protocol (x : nat) (initialized : option exn) : M vtrc_client unit :=
  call_on_connect ;;;
  outcome initialized ;;;
  reset_connection x.

(** ** client.cpp *)

Definition set_session_key (value : string) : M vtrc_client unit :=
  modify (λ c, with_env (Environment.set "session_key" value (env_ c)) c).
Definition set_session_key_id (id key : string) : M vtrc_client unit :=
  modify (λ c, with_base (ClientBase.set_session_id id (base_ c)) c) ;;;
  set_session_key key.
Definition get_session_key (c : vtrc_client) : string := Environment.get "session_key" "" (env_ c).
Definition reset_session_key : M vtrc_client unit := λ c,
  let '(r, e) := Environment.remove "session_key" (env_ c) in
  (match r with Ok _ => Ok tt | Raise x => Raise x end, with_env e c).
Definition reset_session_info : M vtrc_client unit :=
  modify (λ c, with_base (ClientBase.reset_session_id (base_ c)) c) ;;;
  reset_session_key.

(** [create_client<client_unix_local>( )] and [create_client_tcp( )] *)
Definition create_client (name : string) : M vtrc_client nat :=
  let* x := new_stream name in
  reset_connection x ;;;
  ret x.

(** [on_ready_diconnect]: the predicate of the wait. *)
Definition on_ready_diconnect (w : waiter) (c : vtrc_client) : bool :=
  negb (failed w =? 0) || ready c.

(** The waiter of the call is the last of [waiters]; its connections to the
    signals go when the call returns or throws. *)
Definition scoped {A} (m : M vtrc_client A) : M vtrc_client A := λ c,
  let n := length (waiters c) in
  let '(r, c) := m (with_waiters (waiters c ++ [Waiter 0 ""]) c) in
  (r, with_waiters (take n (waiters c)) c).

(** The end of the wait, [n] being the place of the call's waiter. *)
Definition wait_result (n : nat) : M vtrc_client unit :=
  let* c := get in
  let w := default (Waiter 0 "") (waiters c !! n) in
  if negb (on_ready_diconnect w c) then raise (EVtrc ERR_TIMEOUT CATEGORY_INTERNAL "")
  else if negb (failed w =? 0) then raise (EVtrc ERR_INTERNAL CATEGORY_INTERNAL (failed_message w))
  else ret tt.
(** [others] is what the other threads do during the wait of ten seconds. *)
Definition connect_impl (conn_func others : M vtrc_client unit) : M vtrc_client unit :=
  let* n := gets (λ c, length (waiters c)) in
  scoped (
    conn_func ;;;
    call_on_connect ;;;
    others ;;;
    wait_result n).

(** [connect( address, service, tcp_nodelay )]: [delayed'] is the option set once more
    when the session is ready. *)
Definition connect_tcp (connected : option exn) (local : exn + string * Z) (delayed : option exn)
    (tcp_nodelay : bool) (others : M vtrc_client unit) (delayed' : option exn) : M vtrc_client unit :=
  let* new_client := create_client "tcp://<unknown>" in
  holding new_client (
    connect_impl (client_tcp_connect new_client connected local tcp_nodelay delayed) others ;;;
    if tcp_nodelay then set_no_delay new_client delayed' else ret tt).
(** [connect( local_name )] *)
Definition connect_local (connected : option exn) (others : M vtrc_client unit) : M vtrc_client unit :=
  let* new_client := create_client "unix" in
  holding new_client (connect_impl (client_unix_connect new_client connected) others).
(** [open( path, flags, mode )] *)
Definition open (fd : string + Z) : M vtrc_client unit :=
  let* new_client := new_stream "posix" in
  holding new_client (client_posixs_connect new_client fd).

(** The error of a connection that was not made, with its text. *)
Definition connect_error (err : Z) (message : string) : container :=
  Container (Some err) (Some CATEGORY_SYSTEM) (Some true) (Some message).
(** A member of the client's implementation, to which the closure has a plain pointer. *)
Definition destroyed_client : exn := EUndefined "a member of a destroyed client".
Definition async_connect_success (err : option (Z * string)) (closure : M vtrc_client unit) : M vtrc_client unit :=
  let* c := get in
  if negb (client_alive c) then raise destroyed_client
  else
    match err with
    | None => call_on_connect
    | Some (value, message) => call_on_init_error (connect_error (u32 value) message) message
    end ;;;
    closure.

(** The handler of the stream keeps the connection alive. *)
Definition async_connect : M vtrc_client nat :=
  let* x := create_client "tcp://<unknown>" in
  modify (λ c, with_refs ({[x]} ∪ refs c) c) ;;;
  ret x.
Definition async_connected (x : nat) (err : option (Z * string)) (local : exn + string * Z) (tcp_nodelay : bool)
    (delayed : option exn) (closure : M vtrc_client unit) : M vtrc_client unit := λ c,
  let '(r, c) := on_connect_handler (tcp_connection_setup x local tcp_nodelay delayed) x
                   (bool_decide (is_Some err)) (async_connect_success err closure) c in
  (r, with_refs (refs c ∖ {[x]}) c).

(** ** Steps

    What the application and the other threads do, connects taken apart into the
    creation of the connection and its opening. *)

Definition run_read (x : nat) (before after : list nat) (error : option Z) (p : processed) : M vtrc_client unit :=
  modify (with_reads (before ++ after)) ;;;
  read_handler x error p.

Inductive step : vtrc_client → vtrc_client → Prop :=
  | st_read x before after error p c :
      reads c = before ++ x :: after → step c (run_read x before after error p c).2
  | st_tcp x connected local no_delay delayed c :
      connection_ c = Some x → reads c = [] → step c (client_tcp_connect x connected local no_delay delayed c).2
  | st_unix x connected c :
      connection_ c = Some x → reads c = [] → step c (client_unix_connect x connected c).2
  | st_create name c : reads c = [] → step c (create_client name c).2
  | st_on_connect c : step c (call_on_connect c).2
  | st_disconnect c : step c (disconnect c).2
  | st_hold x c : lives x c → step c (with_refs ({[x]} ∪ refs c) c)
  | st_release x c : step c (with_refs (refs c ∖ {[x]}) c)
  | st_destroy c : step c (with_alive false c).

(** What the waiters have heard of the signals of a run. *)
Definition hear (s : client_signal) (w : waiter) : waiter :=
  match s with on_init_error _ message => on_init_error_s message w | _ => w end.
Definition heard (ss : list client_signal) (w : waiter) : waiter := foldl (λ w s, hear s w) w ss.
Definition follows (c c' : vtrc_client) : Prop :=
  ∃ ss, signals c' = signals c ++ ss ∧ waiters c' = heard ss <$> waiters c.

Lemma heard_app ss ss' w : heard (ss ++ ss') w = heard ss' (heard ss w).
Proof. apply foldl_app. Qed.
Lemma follows_same c c' : signals c' = signals c → waiters c' = waiters c → follows c c'.
Proof. intros Hs Hw. exists []. rewrite app_nil_r, Hw. split; [done|]. symmetry. apply list_fmap_id. Qed.
Lemma follows_trans c c1 c' : follows c c1 → follows c1 c' → follows c c'.
Proof.
  intros (ss & Hs & Hw) (ss' & Hs' & Hw'). exists (ss ++ ss'). rewrite Hs', Hs, Hw', Hw, app_assoc.
  split; [done|]. rewrite <-list_fmap_compose. apply list_fmap_ext. intros i w _. symmetry. apply heard_app.
Qed.
Lemma follows_one c c' s : signals c' = signals c ++ [s] → waiters c' = hear s <$> waiters c → follows c c'.
Proof. intros Hs Hw. by exists [s]. Qed.

Definition following {A} (m : M vtrc_client A) : Prop := ∀ c, follows c (m c).2.
Lemma following_bind {A B} (m : M vtrc_client A) (k : A → M vtrc_client B) :
  following m → (∀ x, following (k x)) → following (bind m k).
Proof.
  intros Hm Hk c. unfold bind. specialize (Hm c). destruct (m c) as [[a|e] c1]; [|done].
  eapply follows_trans; [exact Hm|apply Hk].
Qed.
Lemma following_ret {A} (x : A) : following (ret x).
Proof. intros c. by apply follows_same. Qed.
Lemma following_raise {A} e : following (A := A) (raise e).
Proof. intros c. by apply follows_same. Qed.
Lemma following_get : following get.
Proof. intros c. by apply follows_same. Qed.
Lemma following_modify f : (∀ c, signals (f c) = signals c ∧ waiters (f c) = waiters c) → following (modify f).
Proof. intros H c. destruct (H c). by apply follows_same. Qed.
#[local] Hint Resolve following_bind following_ret following_raise following_get : vtrc.
#[local] Hint Extern 1 (following (modify _)) => apply following_modify; by intros [] : vtrc.
#[local] Hint Extern 1 (following (update _ _)) => apply following_modify; by intros [] : vtrc.
#[local] Hint Extern 1 (following (start_reading _)) => apply following_modify; by intros [] : vtrc.
Ltac step_following :=
  repeat first [apply following_bind; [|intros ?] | progress auto with vtrc
               | match goal with |- following (match ?x with _ => _ end) => destruct x end].

Lemma following_connect : following call_on_connect.
Proof. intros c. apply (follows_one _ _ on_connect); [done|]. symmetry. apply list_fmap_id. Qed.
Lemma following_disconnect_signal : following call_on_disconnect.
Proof. intros c. apply (follows_one _ _ on_disconnect); [done|]. symmetry. apply list_fmap_id. Qed.
Lemma following_ready : following call_on_ready.
Proof. intros c. apply (follows_one _ _ on_ready); [done|]. symmetry. apply list_fmap_id. Qed.
Lemma following_error err message : following (call_on_init_error err message).
Proof. intros c. by apply (follows_one _ _ (on_init_error err message)). Qed.
#[local] Hint Resolve following_connect following_disconnect_signal following_ready following_error : vtrc.

Lemma following_close x : following (stream_close x).
Proof. unfold stream_close. step_following. Qed.
#[local] Hint Resolve following_close : vtrc.
Lemma following_process x p : following (process_data x p).
Proof. unfold process_data. step_following. Qed.
Lemma following_read x error p : following (read_handler x error p).
Proof.
  unfold read_handler. step_following. intros c. pose proof (following_process x p c) as Hp.
  destruct (process_data x p c) as [[[]|[]] c1]; try done; (eapply follows_trans; [exact Hp|]);
    apply following_close || (apply following_modify; by intros []).
Qed.
Lemma following_disconnect : following disconnect.
Proof.
  unfold disconnect. step_following. intros c. unfold try_catch. pose proof (following_close n c) as Hc.
  by destruct (stream_close n c) as [[[]|[]] c1].
Qed.
Lemma following_outcome r : following (outcome r).
Proof. unfold outcome. step_following. Qed.
Lemma following_open_socket x : following (on_open_socket x).
Proof. unfold on_open_socket. step_following. Qed.
#[local] Hint Resolve following_outcome following_open_socket : vtrc.
Lemma following_setup x local no_delay delayed : following (tcp_connection_setup x local no_delay delayed).
Proof. unfold tcp_connection_setup, local_endpoint, set_no_delay. step_following. Qed.
#[local] Hint Resolve following_setup : vtrc.
Lemma following_tcp x connected local no_delay delayed :
  following (client_tcp_connect x connected local no_delay delayed).
Proof. unfold client_tcp_connect. step_following. Qed.
Lemma following_unix x connected : following (client_unix_connect x connected).
Proof. unfold client_unix_connect. step_following. Qed.

Lemma step_follows c c' : step c c' → follows c c'.
Proof.
  destruct 1 as [x before after error p c Hr|x connected local nd dl c Hc Hr|x connected c Hc Hr|name c Hr|c|c|x c Hl|x c|c].
  - unfold run_read. apply following_bind; [auto with vtrc|intros _; apply following_read].
  - apply following_tcp.
  - apply following_unix.
  - by apply follows_same.
  - apply following_connect.
  - apply following_disconnect.
  - by apply follows_same.
  - by apply follows_same.
  - by apply follows_same.
Qed.
Lemma steps_follow c c' : rtc step c c' → follows c c'.
Proof.
  induction 1 as [c|c c1 c' Hs _ IH]; [by apply follows_same|].
  eapply follows_trans; [by apply step_follows|exact IH].
Qed.

(** ** What a connect reports *)

(** The text of the last error among some signals. *)
Fixpoint last_error (ss : list client_signal) : option string :=
  match ss with
  | [] => None
  | s :: ss =>
      match last_error ss with
      | Some m => Some m
      | None => match s with on_init_error _ m => Some m | _ => None end
      end
  end.
Lemma heard_last ss w : heard ss w = match last_error ss with Some m => Waiter 1 m | None => w end.
Proof.
  revert w. induction ss as [|s ss IH]; intros w; [done|]. change (heard (s :: ss) w) with (heard ss (hear s w)).
  rewrite IH. cbn [last_error]. destruct (last_error ss); [done|]. by destruct s.
Qed.

(** [others]: the other threads take steps, and the wait ends. *)
Definition takes_steps (others : M vtrc_client unit) : Prop :=
  ∀ c, (others c).1 = Ok tt ∧ rtc step c (others c).2.

Definition verdict (ss : list client_signal) (is_ready : bool) : res unit :=
  match last_error ss with
  | Some m => Raise (EVtrc ERR_INTERNAL CATEGORY_INTERNAL m)
  | None => if is_ready then Ok tt else Raise (EVtrc ERR_TIMEOUT CATEGORY_INTERNAL "")
  end.

Lemma wait_result_eq n ss c :
  waiters c !! n = Some (heard ss (Waiter 0 "")) →
  wait_result n c = (verdict ss (ready c), c).
Proof.
  intros Hw. unfold wait_result, verdict, on_ready_diconnect. rewrite bind_get, Hw, heard_last.
  destruct (last_error ss); cbn; [done|]. by destruct (ready c).
Qed.

Lemma connect_impl_waits conn_func others c c1 :
  conn_func (with_waiters (waiters c ++ [Waiter 0 ""]) c) = (Ok tt, c1) →
  signals c1 = signals c → waiters c1 = waiters c ++ [Waiter 0 ""] → takes_steps others →
  let r := connect_impl conn_func others c in
  ∃ ss, signals r.2 = signals c ++ ss ∧ waiters r.2 = heard ss <$> waiters c ∧ r.1 = verdict ss (ready r.2).
Proof.
  intros Hc Hs Hw Ho. set (n := length (waiters c)). set (c2 := (call_on_connect c1).2).
  destruct (Ho c2) as [Hok Hst]. destruct (others c2) as [r c3] eqn:Eo. cbn in Hok, Hst. subst r.
  destruct (steps_follow _ _ Hst) as (ss & Hss & Hww). unfold c2 in Hss, Hww. cbn in Hss, Hww.
  rewrite Hw, fmap_app in Hww. rewrite Hs, <-app_assoc in Hss.
  assert (Hbody : (conn_func ;;; call_on_connect ;;; others ;;; wait_result n)
    (with_waiters (waiters c ++ [Waiter 0 ""]) c) = (verdict ss (ready c3), c3)).
  { rewrite (bind_ok _ _ _ _ _ Hc). erewrite bind_ok by reflexivity. fold c2.
    rewrite (bind_ok _ _ _ _ _ Eo). apply wait_result_eq.
    by rewrite Hww, lookup_app_r, length_fmap, Nat.sub_diag by by rewrite length_fmap. }
  exists (on_connect :: ss).
  assert (Hr : connect_impl conn_func others c =
    (verdict ss (ready c3), with_waiters (take n (waiters c3)) c3)).
  { unfold connect_impl, gets. erewrite bind_ok by reflexivity. unfold scoped. fold n.
    by rewrite Hbody. }
  rewrite Hr. cbn [fst snd]. split_and!; [exact Hss| |].
  - cbn [waiters with_waiters]. rewrite Hww. apply take_app_exact, length_fmap.
  - unfold verdict. cbn [last_error]. by destruct (last_error ss).
Qed.

(** The first exception of the calls that open a tcp connection. *)
Definition opening_error (connected : option exn) (local : exn + string * Z) (delayed : option exn)
    (tcp_nodelay : bool) : option exn :=
  match connected, local with
  | Some e, _ => Some e
  | None, inl e => Some e
  | None, inr _ => if tcp_nodelay then delayed else None
  end.
Definition thrown (err : option exn) : res unit := match err with Some e => Raise e | None => Ok tt end.
(** The last line of a connect whose session is ready. *)
Definition no_delay_result (x : nat) (tcp_nodelay : bool) (delayed : option exn) (c : vtrc_client) : res unit :=
  if tcp_nodelay then
    match streams c !! x with
    | None => Raise (EUndefined "no such connection")
    | Some s => if st_closed s then Raise bad_descriptor else thrown delayed
    end
  else Ok tt.

Lemma open_socket_ok x s c : streams c !! x = Some s → st_closed s = false → on_open_socket x c = (Ok tt, c).
Proof. intros Hs Hc. unfold on_open_socket. by rewrite bind_get, Hs, Hc. Qed.

(** What a tcp connect does between its subscriptions and the wait: what the waiters
    and the signals are does not change, and if it throws the rest neither. *)
Definition opens_with (conn_func : M vtrc_client unit) (r : option exn) (c : vtrc_client) : Prop :=
  ∃ c1, conn_func c = (thrown r, c1) ∧
    signals c1 = signals c ∧ waiters c1 = waiters c ∧
    (is_Some r → connection_ c1 = connection_ c ∧ reads c1 = reads c).

Lemma opens_bind (m k : M vtrc_client unit) c c1 r :
  m c = (Ok tt, c1) → signals c1 = signals c → waiters c1 = waiters c → connection_ c1 = connection_ c →
  reads c1 = reads c → opens_with k r c1 → opens_with (m ;;; k) r c.
Proof.
  intros Hm Hs Hw Hx Hr (c2 & Hk & Hs2 & Hw2 & Hrest). exists c2. rewrite (bind_ok _ _ _ _ _ Hm), Hk.
  split_and!; [done|congruence|congruence|]. intros He. destruct (Hrest He). split; congruence.
Qed.
Lemma no_delay_opens x s delayed c :
  streams c !! x = Some s → st_closed s = false → opens_with (set_no_delay x delayed) delayed c.
Proof.
  intros Hs Hc. unfold opens_with, set_no_delay. rewrite (bind_ok _ _ _ _ _ (open_socket_ok x s c Hs Hc)).
  unfold outcome. destruct delayed; eexists; (split; [reflexivity|done]).
Qed.
Lemma setup_opens x s ep nd delayed c :
  streams c !! x = Some s → st_closed s = false →
  opens_with (tcp_connection_setup x (inr ep) nd delayed) (if nd then delayed else None) c.
Proof.
  intros Hs Hc. assert (He : local_endpoint x (inr ep) c = (Ok ep, c)).
  { unfold local_endpoint. by rewrite (bind_ok _ _ _ _ _ (open_socket_ok x s c Hs Hc)). }
  unfold opens_with, tcp_connection_setup. rewrite (bind_ok _ _ _ _ _ He). eapply opens_bind; [reflexivity|done..|].
  destruct nd; [|by eexists].
  apply (no_delay_opens x (with_name ("tcp://" +:+ ep.1 +:+ ":" +:+ pretty ep.2) s)); [|done].
  cbn. by rewrite list_lookup_alter_eq, Hs.
Qed.
Lemma client_tcp_connect_opens x s connected local nd delayed c :
  streams c !! x = Some s → st_closed s = false →
  opens_with (client_tcp_connect x connected local nd delayed) (opening_error connected local delayed nd) c.
Proof.
  intros Hs Hc. unfold client_tcp_connect, opening_error. destruct connected as [e|]; [by eexists|].
  eapply opens_bind; [reflexivity|done..|]. destruct local as [e|ep].
  - exists c. unfold tcp_connection_setup, local_endpoint. split; [|done]. unfold bind.
    by rewrite (open_socket_ok x s c Hs Hc).
  - destruct (setup_opens x s ep nd delayed c Hs Hc) as (c1 & Hr & Hsig & Hw & Hrest).
    destruct (if nd then delayed else None) as [e|].
    + exists c1. by rewrite (bind_raise _ _ _ _ _ Hr).
    + eexists. rewrite (bind_ok _ _ _ _ _ Hr). split; [reflexivity|]. split_and!; [done|done|]. by intros [].
Qed.

(** The last line of [connect]. *)
Lemma no_delay_tail x (tcp_nodelay : bool) delayed c :
  let r := (if tcp_nodelay then set_no_delay x delayed else ret tt) c in
  signals r.2 = signals c ∧ waiters r.2 = waiters c ∧ ready r.2 = ready c ∧
  r.1 = no_delay_result x tcp_nodelay delayed r.2.
Proof.
  unfold no_delay_result. destruct tcp_nodelay; [|done]. cbv zeta.
  destruct (streams c !! x) as [s|] eqn:Es; [destruct (st_closed s) eqn:Ec|].
  - assert (Hr : set_no_delay x delayed c = (Raise bad_descriptor, c))
      by (unfold set_no_delay, on_open_socket, bind, get; by rewrite Es, Ec).
    rewrite Hr. cbn [fst snd]. by rewrite Es, Ec.
  - unfold set_no_delay. rewrite (bind_ok _ _ _ _ _ (open_socket_ok x s c Es Ec)).
    destruct delayed as [e|]; [cbn; by rewrite Es, Ec|].
    cbn. rewrite list_lookup_alter_eq, Es. cbn. rewrite Ec. split_and!; try done.
    unfold ready. cbn. destruct (connection_ c) as [y|]; [cbn|done]. destruct (decide (y = x)) as [->|].
    + by rewrite list_lookup_alter_eq, Es.
    + by rewrite list_lookup_alter_ne by congruence.
  - assert (Hr : set_no_delay x delayed c = (Raise (EUndefined "no such connection"), c))
      by (unfold set_no_delay, on_open_socket, bind, get; by rewrite Es).
    rewrite Hr. cbn [fst snd]. by rewrite Es.
Qed.

(** A connect whose opening succeeds, and one whose opening throws. *)
(** A verdict that is a success lets the last line run. *)
Definition conclude (v d : res unit) : res unit := match v with Ok _ => d | Raise e => Raise e end.
Lemma connect_held x conn_func others (tcp_nodelay : bool) delayed c
    (r := holding x (connect_impl conn_func others ;;;
                     if tcp_nodelay then set_no_delay x delayed else ret tt) c) :
  (∀ c', streams c' = streams c → opens_with conn_func None c') → takes_steps others →
  ∃ ss, signals r.2 = signals c ++ ss ∧ waiters r.2 = heard ss <$> waiters c ∧
    r.1 = conclude (verdict ss (ready r.2)) (no_delay_result x tcp_nodelay delayed r.2).
Proof.
  intros Hconn Ho. subst r. unfold holding. set (c0 := with_refs _ c).
  destruct (Hconn (with_waiters (waiters c0 ++ [Waiter 0 ""]) c0) eq_refl) as (c1 & Hc & Hs & Hw & _).
  destruct (connect_impl_waits _ others c0 c1 Hc Hs Hw Ho) as (ss & Hss & Hww & Hv). exists ss.
  destruct (connect_impl _ others c0) as [r1 c2] eqn:Ec. cbn in Hv, Hss, Hww. subst r1.
  destruct (verdict ss (ready c2)) as [[]|e] eqn:Ev.
  - rewrite (bind_ok _ _ _ _ _ Ec). destruct (no_delay_tail x tcp_nodelay delayed c2) as (Hs3 & Hw3 & Hr3 & Ho3).
    destruct ((if tcp_nodelay then set_no_delay x delayed else ret tt) c2) as [r3 c3]. cbn in Hs3, Hw3, Hr3, Ho3. cbn [fst snd].
    change (ready (with_refs (refs c3 ∖ {[x]}) c3)) with (ready c3). rewrite Hr3, Ev.
    split_and!; [by rewrite <-Hss|by rewrite <-Hww|exact Ho3].
  - rewrite (bind_raise _ _ _ _ _ Ec). cbn [fst snd].
    change (ready (with_refs (refs c2 ∖ {[x]}) c2)) with (ready c2). by rewrite Ev.
Qed.
Lemma connect_held_fails x conn_func others (tcp_nodelay : bool) delayed e c
    (r := holding x (connect_impl conn_func others ;;;
                     if tcp_nodelay then set_no_delay x delayed else ret tt) c) :
  (∀ c', streams c' = streams c → opens_with conn_func (Some e) c') →
  r.1 = Raise e ∧ signals r.2 = signals c ∧ waiters r.2 = waiters c ∧ connection_ r.2 = connection_ c ∧ reads r.2 = reads c.
Proof.
  intros Hconn. subst r. unfold holding. set (c0 := with_refs _ c). set (n := length (waiters c0)).
  destruct (Hconn (with_waiters (waiters c0 ++ [Waiter 0 ""]) c0) eq_refl) as (c1 & Hc & Hs & Hw & Hrest).
  destruct (Hrest ltac:(done)) as [Hx Hr].
  assert (Hi : connect_impl conn_func others c0 = (Raise e, with_waiters (take n (waiters c1)) c1)).
  { unfold connect_impl, gets. erewrite bind_ok by reflexivity. unfold scoped. fold n.
    by rewrite (bind_raise _ _ _ _ _ Hc). }
  rewrite (bind_raise _ _ _ _ _ Hi). cbn [fst snd]. split_and!; [done|done| |done|done].
  cbn. rewrite Hw. by apply take_app_length.
Qed.

(** ** Reads and the life of their connections *)

(** The reads under way are those of the connection the client keeps, which was made. *)
Definition reads_kept (c : vtrc_client) : Prop :=
  (∀ x, x ∈ reads c → connection_ c = Some x) ∧
  (∀ x, connection_ c = Some x → (x < length (streams c))%nat).

(** What a computation does to the reads: it may ask for one more of [x]. *)
Definition reads_view (c : vtrc_client) := (connection_ c, reads c, length (streams c)).
Definition still {A} (m : M vtrc_client A) : Prop := ∀ v, keeps (λ c, reads_view c = v) m.
Lemma still_eq {A} (m : M vtrc_client A) c : still m → reads_view (m c).2 = reads_view c.
Proof. intros H. by apply (H _ c). Qed.
Lemma still_bind {A B} (m : M vtrc_client A) (k : A → M vtrc_client B) :
  still m → (∀ x, still (k x)) → still (bind m k).
Proof. intros Hm Hk v. apply keeps_bind; [apply Hm|]. intros x. apply Hk. Qed.
Lemma still_ret {A} (x : A) : still (ret x).
Proof. intros v. apply keeps_ret. Qed.
Lemma still_raise {A} e : still (A := A) (raise e).
Proof. intros v. apply keeps_raise. Qed.
Lemma still_get : still get.
Proof. intros v. apply keeps_get. Qed.
Lemma still_modify f : (∀ c, reads_view (f c) = reads_view c) → still (modify f).
Proof. intros H v c Hc. cbn. by rewrite H. Qed.
#[local] Hint Resolve still_bind still_ret still_raise still_get : vtrc.
#[local] Hint Extern 1 (still (modify _)) => apply still_modify; by intros [] : vtrc.
Lemma still_update x f : still (update x f).
Proof. apply still_modify. intros c. unfold reads_view. cbn. by rewrite length_alter. Qed.
#[local] Hint Resolve still_update : vtrc.
#[local] Hint Extern 1 (still call_on_ready) => apply still_modify; by intros [] : vtrc.
#[local] Hint Extern 1 (still call_on_disconnect) => apply still_modify; by intros [] : vtrc.
#[local] Hint Extern 1 (still (call_on_init_error _ _)) => apply still_modify; by intros [] : vtrc.
Ltac step_still :=
  repeat first [apply still_bind; [|intros ?] | progress auto with vtrc
               | match goal with |- still (match ?x with _ => _ end) => destruct x end].

Lemma still_close x : still (stream_close x).
Proof. unfold stream_close. step_still. Qed.
Lemma still_process x p : still (process_data x p).
Proof. unfold process_data. step_still. Qed.
Lemma still_setup x local nd delayed : still (tcp_connection_setup x local nd delayed).
Proof. unfold tcp_connection_setup, local_endpoint, set_no_delay, on_open_socket, outcome. step_still. Qed.
Lemma still_disconnect : still disconnect.
Proof.
  unfold disconnect. step_still. intros v c Hv. unfold try_catch. pose proof (still_close n v c Hv) as Hc.
  by destruct (stream_close n c) as [[[]|[]] c1].
Qed.

Lemma reads_kept_view c c' : reads_view c' = reads_view c → reads_kept c → reads_kept c'.
Proof. unfold reads_view, reads_kept. by intros [= -> -> ->]. Qed.
Lemma reads_kept_still {A} (m : M vtrc_client A) c : still m → reads_kept c → reads_kept (m c).2.
Proof. intros Hm. by apply reads_kept_view, still_eq. Qed.
Lemma start_reading_kept x c : connection_ c = Some x → reads_kept c → reads_kept (start_reading x c).2.
Proof.
  intros Hx [Hk Hl]. split; [|done]. intros y [Hy|Hy]%elem_of_app; [by apply Hk|]. cbn.
  by apply list_elem_of_singleton in Hy as ->.
Qed.

(** The handler of a read whose connection lives. *)
Lemma read_handler_kept x error p c :
  connection_ c = Some x → reads_kept c → reads_kept (read_handler x error p c).2.
Proof.
  intros Hx Hk. unfold read_handler. rewrite bind_get. destruct (client_alive c); [|done]. cbn [negb].
  rewrite (bool_decide_true (lives x c)) by (left; exact Hx). cbn [negb]. destruct error as [value|].
  - apply (reads_kept_still (update x (with_read_error value) ;;; stream_close x)); [|done].
    pose proof (still_close x). step_still.
  - pose proof (still_eq _ c (still_process x p)) as Hv.
    assert (Hk1 : reads_kept (process_data x p c).2) by by apply (reads_kept_view c).
    assert (Hx1 : connection_ (process_data x p c).2 = Some x) by (unfold reads_view in Hv; congruence).
    pose proof (reads_kept_still (stream_close x) _ (still_close x) Hk1) as Hc.
    destruct (process_data x p c) as [[[]|[]] c1]; try done. by apply start_reading_kept.
Qed.

Lemma step_reads_kept c c' : step c c' → reads_kept c → reads_kept c'.
Proof.
  destruct 1 as [x before after error p c Hr|x connected local nd dl c Hc Hr|x connected c Hc Hr|name c Hr|c|c|x c Hl|x c|c];
    intros Hk.
  - unfold run_read. rewrite bind_modify. apply read_handler_kept.
    + apply Hk. rewrite Hr. apply elem_of_app. right. by left.
    + split; [|apply Hk]. intros y Hy. apply Hk. rewrite Hr. cbn in Hy.
      apply elem_of_app in Hy as [|]; apply elem_of_app; [by left|]. right. by right.
  - unfold client_tcp_connect, outcome. destruct connected as [e|]; [done|]. erewrite bind_ok by reflexivity.
    unfold bind. pose proof (still_eq _ c (still_setup x local nd dl)) as Hv.
    destruct (tcp_connection_setup x local nd dl c) as [[[]|e] c1]; [|by apply (reads_kept_view c)].
    apply start_reading_kept; [unfold reads_view in Hv; cbn in Hv; congruence|by apply (reads_kept_view c)].
  - unfold client_unix_connect, outcome. destruct connected as [e|]; [done|]. by apply start_reading_kept.
  - split; cbn.
    + intros y Hy. rewrite Hr in Hy. by apply elem_of_nil in Hy.
    + intros y [= <-]. rewrite length_app. cbn. lia.
  - done.
  - apply reads_kept_still; [apply still_disconnect|done].
  - done.
  - done.
  - done.
Qed.
Lemma steps_reads_kept c c' : rtc step c c' → reads_kept c → reads_kept c'.
Proof. induction 1 as [|c c1 c' Hs _ IH]; [done|]. intros Hk. by eapply IH, step_reads_kept. Qed.

(** A handler runs on its connection, or on what is left of it. *)
Lemma dead_handler x error p c :
  client_alive c = true → ¬ lives x c → (read_handler x error p c).1 = Raise destroyed.
Proof. intros Ha Hl. unfold read_handler. rewrite bind_get, Ha, bool_decide_false by done. done. Qed.

Lemma close_ok x c : (x < length (streams c))%nat → (stream_close x c).1 = Ok tt.
Proof.
  intros Hl. apply lookup_lt_is_Some in Hl as [s Hs]. unfold stream_close. rewrite bind_get, Hs.
  by destruct (st_closed s).
Qed.
Lemma kept_handler x error p c what :
  (∀ what, p ≠ p_throws (EUndefined what)) → connection_ c = Some x → (x < length (streams c))%nat →
  (read_handler x error p c).1 ≠ Raise (EUndefined what).
Proof.
  intros Hp Hx Hl. unfold read_handler. rewrite bind_get. destruct (client_alive c); [|done]. cbn [negb].
  rewrite (bool_decide_true (lives x c)) by (left; exact Hx). cbn [negb]. destruct error as [value|].
  - erewrite bind_ok by reflexivity. rewrite close_ok; [done|]. cbn. by rewrite length_alter.
  - pose proof (still_eq _ c (still_process x p)) as Hv. unfold reads_view in Hv. injection Hv as _ _ Hlen.
    destruct p as [| |err message|e]; try done. destruct e; cbn -[stream_close]; try done.
    all: first [by rewrite close_ok|by destruct (Hp what0)].
Qed.

(** *** Streams are never forgotten *)

Definition grown (n : nat) (c : vtrc_client) : Prop := (n ≤ length (streams c))%nat.
Lemma grows_still {A} (m : M vtrc_client A) n : still m → keeps (grown n) m.
Proof. intros Hm c Hc. pose proof (still_eq m c Hm) as [= _ _ Hl]. unfold grown. by rewrite Hl. Qed.
Lemma grows_reading x n : keeps (grown n) (start_reading x).
Proof. by apply keeps_modify. Qed.
Lemma grows_read x error p n : keeps (grown n) (read_handler x error p).
Proof.
  intros c Hc. unfold read_handler. rewrite bind_get. destruct (negb (client_alive c)); [done|].
  destruct (negb _); [done|]. destruct error as [value|].
  - apply (grows_still (update x (with_read_error value) ;;; stream_close x)); [|done].
    pose proof (still_close x). step_still.
  - pose proof (grows_still _ n (still_process x p) c Hc) as Hp.
    destruct (process_data x p c) as [[[]|[]] c1]; try done;
      first [by apply grows_reading|by apply (grows_still _ n (still_close x))].
Qed.
Lemma grows_tcp x connected local nd delayed n : keeps (grown n) (client_tcp_connect x connected local nd delayed).
Proof.
  unfold client_tcp_connect. apply keeps_bind; [apply grows_still; unfold outcome; step_still|intros _].
  apply keeps_bind; [apply grows_still, still_setup|intros _]. apply grows_reading.
Qed.
Lemma step_grows n c c' : step c c' → grown n c → grown n c'.
Proof.
  destruct 1 as [x before after error p c Hr|x connected local nd dl c Hc Hr|x connected c Hc Hr|name c Hr|c|c|x c Hl|x c|c];
    intros Hn; try done.
  - unfold run_read. rewrite bind_modify. by apply grows_read.
  - by apply grows_tcp.
  - unfold client_unix_connect, outcome. by destruct connected.
  - unfold grown in *. cbn. rewrite length_app. lia.
  - by apply (grows_still _ n still_disconnect).
Qed.
Lemma takes_steps_grows others n : takes_steps others → keeps (grown n) others.
Proof.
  intros Ho c Hc. destruct (Ho c) as [_ Hs]. revert Hc. generalize dependent (others c).2. intros c' Hs.
  induction Hs as [|c c1 c' Hst _ IH]; [done|]. intros Hc. by eapply IH, step_grows.
Qed.
Lemma connect_grows x connected local nd delayed others delayed' n : takes_steps others →
  keeps (grown n) (holding x (connect_impl (client_tcp_connect x connected local nd delayed) others ;;;
                              if nd then set_no_delay x delayed' else ret tt)).
Proof.
  intros Ho c Hc. unfold holding. set (c0 := with_refs _ c). match goal with |- context [let '(_, _) := ?m c0 in _] =>
    assert (Hm : keeps (grown n) m); [|specialize (Hm c0 Hc); by destruct (m c0)] end.
  apply keeps_bind; [|intros _; destruct nd; [|apply keeps_ret]].
  2: { apply grows_still. unfold set_no_delay, on_open_socket, outcome. step_still. }
  unfold connect_impl. apply keeps_bind; [by intros ?|]. intros k c1 Hc1. unfold scoped. set (c2 := with_waiters _ c1).
  match goal with |- context [let '(_, _) := ?m c2 in _] =>
    assert (Hm : keeps (grown n) m); [|specialize (Hm c2 Hc1); by destruct (m c2)] end.
  apply keeps_bind; [apply grows_tcp|intros _]. apply keeps_bind; [by apply keeps_modify|intros _].
  apply keeps_bind; [by apply takes_steps_grows|intros _]. intros c3 Hc3. unfold wait_result. rewrite bind_get.
  by repeat case_match.
Qed.

(** ** Properties *)

(** C16 (error).  What [connect] over TCP reports, on every path.  If an address cannot
    be read, the socket cannot connect, its endpoint is not to be had or the option
    cannot be set, it throws the exception of the first of these that fails, with nothing
    signalled and the subscriptions gone, and the client keeps the new connection.
    Otherwise the text of the last initialization error that was signalled during the
    call, or a timeout if the connection is not ready at the end of the wait, as it is
    not after an error of a read; and if it is, success, unless the option is asked for
    and cannot be set once more because the socket was closed meanwhile or the system
    refuses, which is thrown. *)
Theorem connect_results connected local delayed tcp_nodelay others delayed' c
    (x := length (streams c)) (r := connect_tcp connected local delayed tcp_nodelay others delayed' c) :
  takes_steps others →
  match opening_error connected local delayed tcp_nodelay with
  | Some e => r.1 = Raise e ∧ signals r.2 = signals c ∧ waiters r.2 = waiters c ∧
              connection_ r.2 = Some x ∧ reads r.2 = reads c
  | None => ∃ ss s, signals r.2 = signals c ++ ss ∧ waiters r.2 = heard ss <$> waiters c ∧
                    streams r.2 !! x = Some s ∧
                    r.1 = conclude (verdict ss (ready r.2))
                      (if tcp_nodelay then if st_closed s then Raise bad_descriptor else thrown delayed' else Ok tt)
  end.
Proof.
  intros Ho. unfold r, connect_tcp, create_client. erewrite bind_ok by reflexivity. fold x.
  set (c1 := with_connection _ _).
  assert (Hx : ∃ s, streams c1 !! x = Some s ∧ st_closed s = false).
  { eexists. split; [by apply list_lookup_middle|done]. }
  assert (Hopen : ∀ c', streams c' = streams c1 →
    opens_with (client_tcp_connect x connected local tcp_nodelay delayed)
      (opening_error connected local delayed tcp_nodelay) c').
  { destruct Hx as (s & Hs & Hc). intros c' Hc'. apply (client_tcp_connect_opens x s); [by rewrite Hc'|done]. }
  destruct (opening_error connected local delayed tcp_nodelay) as [e|].
  - exact (connect_held_fails x _ others tcp_nodelay delayed' e c1 Hopen).
  - destruct (connect_held x _ others tcp_nodelay delayed' c1 Hopen Ho) as (ss & Hs & Hw & Hr).
    pose proof (connect_grows x connected local tcp_nodelay delayed others delayed' (S x) Ho c1) as Hg.
    unfold grown in Hg. destruct (lookup_lt_is_Some_2 _ x (Hg ltac:(cbn; rewrite length_app; cbn; lia))) as [s Hst].
    exists ss, s. split_and!; [exact Hs|exact Hw|exact Hst|]. unfold no_delay_result in Hr.
    rewrite Hst in Hr. exact Hr.
Qed.

(** The error of a read reaches the protocol layer of its connection: the session is not
    ready any more, the calls that wait in its slots get the error, and the stream is
    closed. *)
Theorem read_error_reaches x value p s c :
  client_alive c = true → lives x c → streams c !! x = Some s →
  let c' := (read_handler x (Some value) p c).2 in
  ∃ s', streams c' !! x = Some s' ∧ st_layer s' = (on_read_error value (st_layer s)).2 ∧
    st_ready s' = false ∧ st_closed s' = true.
Proof.
  intros Ha Hl Hs c'. unfold c', read_handler. rewrite bind_get, Ha, bool_decide_true by done. cbn [negb].
  unfold bind at 1. cbn [update modify]. unfold stream_close. rewrite bind_get. cbn [streams with_streams].
  rewrite list_lookup_alter_eq, Hs. cbn [fmap option_fmap option_map]. cbn [st_closed with_read_error with_layer].
  destruct (st_closed s) eqn:Ec; cbn; rewrite !list_lookup_alter_eq, Hs; by eexists.
Qed.

(** C23 (safety).  The handler of a read has a plain pointer to its connection.  If
    every connection is made while no read of an earlier one is under way, no
    handler ever runs on a destroyed connection; but if the client makes a new
    connection while the old one is being read and nobody else keeps that one, or
    opens a descriptor, which no client keeps, the handler of the read runs on a
    destroyed object, whatever its result is. *)
Theorem stale_reads c x error p :
  (rtc step vtrc_client_new c → x ∈ reads c → (∀ what, p ≠ p_throws (EUndefined what)) →
   ∀ what, (read_handler x error p c).1 ≠ Raise (EUndefined what)) ∧
  (∀ name, client_alive c = true → x ∈ reads c → x ∉ refs c → is_Some (streams c !! x) →
   let c' := (create_client name c).2 in
   x ∈ reads c' ∧ (read_handler x error p c').1 = Raise destroyed) ∧
  (∀ fd, client_alive c = true → x = length (streams c) → connection_ c ≠ Some x →
   let c' := (open (inr fd) c).2 in
   x ∈ reads c' ∧ (read_handler x error p c').1 = Raise destroyed).
Proof.
  split; [|split].
  - intros Hc Hx Hp. destruct (steps_reads_kept _ _ Hc) as [Hk Hl].
    { split; [by intros y Hy%elem_of_nil|done]. }
    specialize (Hk x Hx). intros what. apply kept_handler; [done|done|by apply Hl].
  - intros name Ha Hx Hr [s Hs]. split; [exact Hx|]. apply dead_handler; [exact Ha|]. intros [Hl|Hl]; [|done].
    cbn in Hl. injection Hl as Hl. apply lookup_lt_Some in Hs. lia.
  - intros fd Ha -> Hn. split; [cbn; apply elem_of_app; right; by left|]. apply dead_handler; [exact Ha|].
    intros [Hl|Hl]; [done|].
    cbn in Hl. apply elem_of_difference in Hl as [_ Hl]. by apply Hl, elem_of_singleton.
Qed.

(** ** Witnesses *)

(** The server answers during the wait, or refuses the client. *)
Definition example_answer (error : option Z) (p : processed) : M vtrc_client unit := λ c,
  match reads c with
  | x :: after => (Ok tt, (run_read x [] after error p c).2)
  | [] => (Ok tt, c)
  end.
Lemma example_answer_steps error p : takes_steps (example_answer error p).
Proof.
  intros c. unfold example_answer. destruct (reads c) as [|x after] eqn:Hr; [done|]. split; [done|].
  by apply rtc_once, (st_read x [] after).
Qed.
Definition example_connect (others : M vtrc_client unit) : M vtrc_client unit :=
  connect_tcp None (inr ("127.0.0.1"%string, 40000)) None true others None.

Example connect_answers :
  (example_connect (example_answer None p_ready) vtrc_client_new).1 = Ok tt ∧
  (example_connect (example_answer None (p_failed container_empty "no")) vtrc_client_new).1 =
    Raise (EVtrc ERR_INTERNAL CATEGORY_INTERNAL "no") ∧
  (example_connect (example_answer None p_nothing) vtrc_client_new).1 =
    Raise (EVtrc ERR_TIMEOUT CATEGORY_INTERNAL "") ∧
  (example_connect (example_answer None p_ready ;;; example_answer (Some 104) p_nothing) vtrc_client_new).1 =
    Raise (EVtrc ERR_TIMEOUT CATEGORY_INTERNAL "") ∧
  (example_connect (example_answer None p_ready ;;; disconnect) vtrc_client_new).1 = Raise bad_descriptor.
Proof. vm_compute. by split_and!. Qed.

(** The session gets ready and the application disconnects before [connect] goes on. *)
Lemma connect_results_witness :
  let others := example_answer None p_ready ;;; disconnect in
  takes_steps others ∧
  let r := example_connect others vtrc_client_new in
  ∃ ss s, streams r.2 !! 0%nat = Some s ∧ st_closed s = true ∧
    r.1 = conclude (verdict ss (ready r.2)) (Raise bad_descriptor).
Proof.
  intros others. assert (Ho : takes_steps others).
  { intros c. destruct (example_answer_steps None p_ready c) as [Hok Hs]. unfold others, bind.
    destruct (example_answer None p_ready c) as [ro c1]. cbn in Hok, Hs. subst ro. split.
    - unfold disconnect. rewrite bind_get. destruct (connection_ c1) as [x|]; [|done].
      destruct (streams c1 !! x) as [s|] eqn:Es; [|done]. destruct (st_ready s); [|done].
      unfold try_catch. pose proof (close_ok x c1) as Hc. destruct (stream_close x c1) as [rc c2].
      cbn in Hc. rewrite Hc by (by eapply lookup_lt_Some). done.
    - eapply rtc_r; [exact Hs|]. apply st_disconnect. }
  split; [exact Ho|]. intros r.
  destruct (connect_results None (inr ("127.0.0.1"%string, 40000)) None true others None vtrc_client_new Ho)
    as (ss & s & _ & _ & Hs & Hr).
  exists ss, s. assert (Hcl : st_closed s = true).
  { clear -Hs. vm_compute in Hs. injection Hs as <-. reflexivity. }
  split; [exact Hs|]. split; [exact Hcl|]. rewrite Hcl in Hr. exact Hr.
Defined.

Definition example_reading : vtrc_client := (example_connect (example_answer None p_nothing) vtrc_client_new).2.
Lemma stale_reads_witness :
  (read_handler 0 (Some 104) p_nothing (create_client "tcp" example_reading).2).1 = Raise destroyed.
Proof.
  refine (proj2 (proj1 (proj2 (stale_reads example_reading 0 (Some 104) p_nothing)) "tcp"%string _ _ _ _)).
  - vm_compute. reflexivity.
  - apply (bool_decide_eq_true_1 _). vm_compute. reflexivity.
  - apply (bool_decide_eq_true_1 _). vm_compute. reflexivity.
  - eexists. vm_compute. reflexivity.
Defined.
