(* ===== verification/ClientExec.v ===== *)
(** * ClientExec: where a client runs its calls, and the channels it makes

    The parts of [client/base.cpp] beside the handlers (module ClientBase of Registry)
    and the connection (Client): the io services of a client, the executor of the
    calls that come from the server, the factory of its low-level protocol, and the
    creation of channels.

    Io services are objects known by numbers, with the calls posted to them, as in
    Application.  An executor that the application gave acts on a state of its own. *)

From S2P Require Import Prelude Messages RpcChannel Client.

(** [executor_type]: [default_exec] bound to the implementation, or a function of the
    application. *)
Inductive executor (S : Type) : Type :=
  | default_executor
  | assigned (f : nat → M S unit).
#[global] Arguments default_executor {S}.
#[global] Arguments assigned {S}.

Record base (S : Type) : Type := Base {
  ios_ : nat;
  rpc_ios_ : nat;
  ll_proto_factory_ : option nat;
  exec_ : executor S
}.
#[global] Arguments Base {S}.
#[global] Arguments ios_ {S}.
#[global] Arguments rpc_ios_ {S}.
#[global] Arguments ll_proto_factory_ {S}.
#[global] Arguments exec_ {S}.

(** The client until its destruction, the io services that exist, and the rest. *)
Record world (S : Type) : Type := World {
  impl_ : option (base S);
  ios : gmap nat (list nat);
  outside : S
}.
#[global] Arguments World {S}.
#[global] Arguments impl_ {S}.
#[global] Arguments ios {S}.
#[global] Arguments outside {S}.

Section Executing.
Context {S : Type}.
Implicit Types w : world S.

Definition with_exec (e : executor S) (b : base S) : base S := Base (ios_ b) (rpc_ios_ b) (ll_proto_factory_ b) e.
Definition with_factory (f : option nat) (b : base S) : base S := Base (ios_ b) (rpc_ios_ b) f (exec_ b).

(** The two services of [impl( io, rpcio )]; a client of one has it for both. *)
Definition base_new (io rpcio : nat) (i : gmap nat (list nat)) (s : S) : world S :=
  World (Some (Base io rpcio None default_executor)) i s.
Definition destroy : M (world S) unit := modify (λ w, World None (ios w) (outside w)).

(** A member that is called on a client that was destroyed. *)
Definition the_impl : M (world S) (base S) :=
  let* w := get in
  match impl_ w with
  | Some b => ret b
  | None => raise (EUndefined "client::base")
  end.
Definition set_impl (b : base S) : M (world S) unit := modify (λ w, World (Some b) (ios w) (outside w)).

Definition post (n call : nat) : M (world S) unit := λ w,
  match ios w !! n with
  | None => (Raise (EUndefined "deleted io_service"), w)
  | Some q => (Ok tt, World (impl_ w) (<[n := q ++ [call]]> (ios w)) (outside w))
  end.
Definition default_exec (call : nat) : M (world S) unit :=
  let* b := the_impl in
  post (rpc_ios_ b) call.
Definition set_default_exec : M (world S) unit :=
  let* b := the_impl in
  set_impl (with_exec default_executor b).
(** [None] is an empty function. *)
Definition assign_call_executor (exec : option (nat → M S unit)) : M (world S) unit :=
  match exec with
  | Some f => let* b := the_impl in set_impl (with_exec (assigned f) b)
  | None => set_default_exec
  end.
Definition call_executor : M (world S) (executor S) :=
  let* b := the_impl in
  ret (exec_ b).
(** A call of an executor: the application's own acts outside. *)
Definition run_executor (e : executor S) (call : nat) : M (world S) unit :=
  match e with
  | default_executor => default_exec call
  | assigned f => λ w, let '(r, s) := f call (outside w) in (r, World (impl_ w) (ios w) s)
  end.
Definition execute (call : nat) : M (world S) unit :=
  let* b := the_impl in
  run_executor (exec_ b) call.

Definition assign_protocol_factory (factory : option nat) : M (world S) unit :=
  let* b := the_impl in
  set_impl (with_factory factory b).
Definition lowlevel_protocol_factory : M (world S) (option nat) :=
  let* b := the_impl in
  ret (ll_proto_factory_ b).
Definition get_io_service : M (world S) nat :=
  let* b := the_impl in
  ret (ios_ b).
Definition get_rpc_service : M (world S) nat :=
  let* b := the_impl in
  ret (rpc_ios_ b).
End Executing.

(** ** Channels *)

(** A channel with the connection it points to weakly. *)
Definition create_channel (opts : Z) (cc : option lowlevel_unit) (c : vtrc_client) : option nat * rpc_channel :=
  (connection_ c, rpc_channel_c opts cc).
Definition alive (ch : option nat * rpc_channel) (c : vtrc_client) : bool :=
  match ch.1 with
  | Some x => bool_decide (lives x c)
  | None => false
  end.

(** ** Lemmas *)

Section Lemmas.
Context {S : Type}.
Implicit Types w : world S.

Lemma the_impl_ok w b : impl_ w = Some b → the_impl w = (Ok b, w).
Proof. intros E. unfold the_impl. by rewrite bind_get, E. Qed.
Lemma assign_executor_eq exec w b :
  impl_ w = Some b →
  assign_call_executor exec w =
    (Ok tt, World (Some (with_exec (match exec with Some f => assigned f | None => default_executor end) b)) (ios w) (outside w)).
Proof.
  intros E. destruct exec as [f|]; cbn [assign_call_executor]; unfold set_default_exec;
    by rewrite (bind_ok _ _ _ _ _ (the_impl_ok w b E)).
Qed.
Lemma execute_eq call w b : impl_ w = Some b → execute call w = run_executor (exec_ b) call w.
Proof. intros E. unfold execute. by rewrite (bind_ok _ _ _ _ _ (the_impl_ok w b E)). Qed.
Lemma default_exec_eq call w b q :
  impl_ w = Some b → ios w !! rpc_ios_ b = Some q →
  default_exec call w = (Ok tt, World (impl_ w) (<[rpc_ios_ b := q ++ [call]]> (ios w)) (outside w)).
Proof.
  intros E Hq. unfold default_exec. rewrite (bind_ok _ _ _ _ _ (the_impl_ok w b E)).
  unfold post. by rewrite Hq.
Qed.

(** Calls that come one after the other. *)
Fixpoint execute_all (calls : list nat) : M (world S) unit :=
  match calls with
  | [] => ret tt
  | call :: calls => execute call ;;; execute_all calls
  end.

(** Whatever executors were assigned before, an empty one makes the calls go to the end
    of the queue of the service for calls, in their order. *)
Theorem default_again_posts calls exec w b q :
  impl_ w = Some b → ios w !! rpc_ios_ b = Some q →
  let r := (assign_call_executor exec ;;; assign_call_executor None ;;; execute_all calls) w in
  r.1 = Ok tt ∧ ios r.2 = <[rpc_ios_ b := q ++ calls]> (ios w) ∧ outside r.2 = outside w.
Proof.
  intros E Hq. erewrite bind_ok by (by apply assign_executor_eq).
  erewrite bind_ok by (by apply assign_executor_eq). cbn [impl_ ios outside with_exec].
  set (b1 := with_exec _ _). generalize (ios w) q Hq. clear E Hq q. intros i q Hq.
  revert i q Hq. induction calls as [|call calls IH]; intros i q Hq; cbn [execute_all].
  - split; [done|]. split; [|done]. cbn. by rewrite app_nil_r, insert_id.
  - assert (He : execute call (World (Some b1) i (outside w)) =
      (Ok tt, World (Some b1) (<[rpc_ios_ b := q ++ [call]]> i) (outside w))).
    { rewrite (execute_eq _ _ b1) by done. change (run_executor (exec_ b1) call) with (default_exec (S:=S) call). by rewrite (default_exec_eq _ _ b1 q). }
    rewrite (bind_ok _ _ _ _ _ He).
    destruct (IH (<[rpc_ios_ b := q ++ [call]]> i) (q ++ [call])) as (H1 & H2 & H3); [apply lookup_insert_eq|].
    split_and!; [exact H1| |exact H3]. rewrite H2. cbn [ios]. by rewrite insert_insert_eq, <-app_assoc.
Qed.

(** The executor that [call_executor] gives is the client's own until one is assigned:
    a copy of it must not be called once the client was destroyed. *)
Theorem executor_outlives io rpcio i s call :
  ((let* e := call_executor in destroy ;;; run_executor e call) (base_new io rpcio i s : world S)).1 =
    Raise (EUndefined "client::base").
Proof. reflexivity. Qed.
End Lemmas.

(** A channel does not follow its client: once the client has another connection, the
    channel is dead unless somebody keeps the old one. *)
Theorem channel_keeps_connection opts cc c x new_conn :
  connection_ c = Some x → new_conn ≠ x → x ∉ refs c →
  let ch := create_channel opts cc c in
  alive ch c = true ∧ alive ch (reset_connection new_conn c).2 = false.
Proof.
  intros Hx Hn Hr. unfold alive, create_channel. cbn [fst]. rewrite Hx. split.
  - apply bool_decide_true. by left.
  - apply bool_decide_false. intros [H|H]; cbn in H; [by simplify_eq|done].
Qed.
