(* ===== verification/ClientSsl.v ===== *)
(** * ClientSsl: connecting a client over TLS, and asynchronously

    [lib/vtrc/client/ssl.cpp], the pipes of [client/win/local.cpp], and the parts of
    [client/client.cpp] that connect with them and that connect asynchronously.  The
    client, its connections and their reads are those of Client.

    What the TLS library says is an argument of the step that asks: [loaded] the
    outcome of [load_verify_file], [handshaken] that of a handshake; [delayed] is what
    the option of the socket comes to.  A handler of
    an asynchronous operation has a strong pointer to its connection. *)

From S2P Require Import Prelude Messages ProtocolLayer Registry Client.

(** ** ssl.cpp *)

Definition ssl_connection_setup (x : nat) (no_delay_ : bool) (delayed : option exn) : M vtrc_client unit :=
  if no_delay_ then set_no_delay x delayed else ret tt.
Definition client_ssl_connect (x : nat) (connected handshaken : option exn) (no_delay_ : bool) (delayed : option exn) :
    M vtrc_client unit :=
  outcome connected ;;;
  outcome handshaken ;;;
  ssl_connection_setup x no_delay_ delayed ;;;
  start_reading x.

(** An error of the system, with its value and text. *)
Abbreviation error_code := (option (Z * string)).

(** A handler's strong pointer to its connection goes when it has run. *)
Definition release {A} (x : nat) (m : M vtrc_client A) : M vtrc_client A := λ c,
  let '(r, c) := m c in (r, with_refs (refs c ∖ {[x]}) c).

(** [handle_connect] begins a handshake, whose handler keeps the connection, or calls
    the closure; it returns whether it began one. *)
Definition handle_connect (x : nat) (err : error_code) (closure : error_code → M vtrc_client unit) : M vtrc_client bool :=
  match err with
  | None => ret true
  | Some _ => release x (closure err ;;; ret false)
  end.
Definition handle_handshake (x : nat) (err : error_code) (no_delay_ : bool) (delayed : option exn)
    (closure : error_code → M vtrc_client unit) : M vtrc_client unit :=
  release x (
    (if bool_decide (err = None) then ssl_connection_setup x no_delay_ delayed ;;; start_reading x else ret tt) ;;;
    closure err).

(** ** client.cpp *)

(** The connection replaces the client's when its verify file was loaded. *)
Definition create_client_ssl (loaded : option exn) : M vtrc_client nat :=
  outcome loaded ;;;
  create_client "tcp".
(** [connect_ssl], with a callback for the certificates or without. *)
Definition connect_ssl (loaded connected handshaken delayed : option exn) (tcp_nodelay : bool)
    (others : M vtrc_client unit) (delayed' : option exn) : M vtrc_client unit :=
  let* new_client := create_client_ssl loaded in
  holding new_client (
    connect_impl (client_ssl_connect new_client connected handshaken tcp_nodelay delayed) others ;;;
    if tcp_nodelay then set_no_delay new_client delayed' else ret tt).

Definition pass (closure : error_code → M vtrc_client unit) (err : error_code) : M vtrc_client unit :=
  async_connect_success err (closure err).
(** The call itself only begins to connect. *)
Definition async_connect_ssl (loaded : option exn) : M vtrc_client nat :=
  let* x := create_client_ssl loaded in
  modify (λ c, with_refs ({[x]} ∪ refs c) c) ;;;
  ret x.
(** [async_connect( local_name, closure )] *)
Definition async_connect_local : M vtrc_client nat :=
  let* x := create_client "unix" in
  modify (λ c, with_refs ({[x]} ∪ refs c) c) ;;;
  ret x.
Definition async_connected_local (x : nat) (err : error_code) (closure : error_code → M vtrc_client unit) : M vtrc_client unit :=
  release x (on_connect_handler (ret tt) x (bool_decide (is_Some err)) (pass closure err)).

(** *** Pipes, on Windows: win/local.cpp *)

(** [last_error] is the error of [CreateFile], with its value. *)
Definition client_win_pipe_connect (x : nat) (last_error : option Z) : M vtrc_client unit :=
  match last_error with
  | Some code => raise (EVtrc code CATEGORY_SYSTEM "")
  | None => start_reading x
  end.
Definition client_win_pipe_async_connect (x : nat) (last_error : option Z) (closure : error_code → M vtrc_client unit) :
    M vtrc_client unit :=
  client_win_pipe_connect x last_error ;;;
  closure None.
Definition connect_pipe (last_error : option Z) (others : M vtrc_client unit) : M vtrc_client unit :=
  let* new_client := create_client "win-pipe" in
  holding new_client (connect_impl (client_win_pipe_connect new_client last_error) others).
Definition async_connect_pipe (last_error : option Z) (closure : error_code → M vtrc_client unit) : M vtrc_client unit :=
  let* new_client := create_client "win-pipe" in
  holding new_client (client_win_pipe_async_connect new_client last_error (pass closure)).

(** The two handlers of a connection that is being made, [between] being what others
    do before the second runs. *)
Definition ssl_connecting (x : nat) (connected handshaken : error_code) (no_delay_ : bool) (delayed : option exn)
    (closure : error_code → M vtrc_client unit) (between : M vtrc_client unit) : M vtrc_client unit :=
  let* began := handle_connect x connected (pass closure) in
  if began then between ;;; handle_handshake x handshaken no_delay_ delayed (pass closure) else ret tt.

(** ** Lemmas *)

Lemma ssl_setup_opens x s nd delayed c :
  streams c !! x = Some s → st_closed s = false →
  opens_with (ssl_connection_setup x nd delayed) (if nd then delayed else None) c.
Proof.
  intros Hs Hc. unfold ssl_connection_setup. destruct nd; [by eapply no_delay_opens|by eexists].
Qed.
(** The first exception of the calls that open a TLS connection. *)
Definition ssl_opening_error (connected handshaken delayed : option exn) (tcp_nodelay : bool) : option exn :=
  match connected, handshaken with
  | Some e, _ | None, Some e => Some e
  | None, None => if tcp_nodelay then delayed else None
  end.
Lemma client_ssl_connect_opens x s connected handshaken nd delayed c :
  streams c !! x = Some s → st_closed s = false →
  opens_with (client_ssl_connect x connected handshaken nd delayed) (ssl_opening_error connected handshaken delayed nd) c.
Proof.
  intros Hs Hc. unfold client_ssl_connect, ssl_opening_error. destruct connected as [e|]; [by eexists|].
  eapply opens_bind; [reflexivity|done..|]. destruct handshaken as [e|]; [by eexists|].
  eapply opens_bind; [reflexivity|done..|].
  destruct (ssl_setup_opens x s nd delayed c Hs Hc) as (c1 & Hr & Hsig & Hw & Hrest).
  destruct (if nd then delayed else None) as [e|].
  - exists c1. by rewrite (bind_raise _ _ _ _ _ Hr).
  - eexists. rewrite (bind_ok _ _ _ _ _ Hr). split; [reflexivity|]. split_and!; [done|done|]. by intros [].
Qed.

(** The state in which the handler of a handshake calls its closure, when the setup of
    the connection does not throw. *)
Definition handshaken_state (x : nat) (err : error_code) (nd : bool) (c : vtrc_client) : vtrc_client :=
  match err with
  | None => (start_reading x (if nd then (update x with_no_delay c).2 else c)).2
  | Some _ => c
  end.
Lemma handshake_eq x s err nd closure c :
  streams c !! x = Some s → st_closed s = false →
  handle_handshake x err nd None closure c =
    let '(r, c1) := closure err (handshaken_state x err nd c) in (r, with_refs (refs c1 ∖ {[x]}) c1).
Proof.
  intros Hs Hc. unfold handle_handshake, release. destruct err as [e|]; [rewrite bool_decide_false by done; reflexivity|].
  rewrite bool_decide_true by done. cbn [handshaken_state].
  assert (He : (ssl_connection_setup x nd None ;;; start_reading x) c = (Ok tt, handshaken_state x None nd c)).
  { unfold ssl_connection_setup. destruct nd; [|reflexivity]. unfold set_no_delay, bind at 1. 
    by rewrite (bind_ok _ _ _ _ _ (open_socket_ok x s c Hs Hc)). }
  by rewrite (bind_ok _ _ _ _ _ He).
Qed.
Lemma handshake_throws x s e closure c :
  streams c !! x = Some s →
  handle_handshake x None true (Some e) closure c =
    (Raise (if st_closed s then bad_descriptor else e), with_refs (refs c ∖ {[x]}) c).
Proof.
  intros Hs. unfold handle_handshake, release. rewrite bool_decide_true by done.
  unfold ssl_connection_setup, set_no_delay, on_open_socket, outcome, bind, get.
  rewrite Hs. by destruct (st_closed s).
Qed.

(** The signal that goes with an outcome. *)
Definition signal_of (err : error_code) : client_signal :=
  match err with
  | None => on_connect
  | Some (value, message) => on_init_error (connect_error (u32 value) message) message
  end.
Lemma pass_ok closure err c :
  client_alive c = true →
  ∃ c1, pass closure err c = closure err c1 ∧ signals c1 = signals c ++ [signal_of err] ∧ reads c1 = reads c ∧ refs c1 = refs c.
Proof.
  intros Ha. unfold pass, async_connect_success. rewrite bind_get, Ha. cbn [negb].
  destruct err as [[value message]|]; eexists; (split; [by erewrite bind_ok by reflexivity|done]).
Qed.

(** ** Properties *)

(** What a connect over TLS reports: the exception of the verify file, before anything
    is changed; that of the socket, of the handshake or of its option, with nothing
    signalled; and otherwise what the wait makes of the signals and of the connection, as
    every connect, the option being set once more if the session is ready. *)
Theorem connect_ssl_results loaded connected handshaken delayed tcp_nodelay others delayed' c (x := length (streams c))
    (r := connect_ssl loaded connected handshaken delayed tcp_nodelay others delayed' c) :
  takes_steps others →
  match loaded, ssl_opening_error connected handshaken delayed tcp_nodelay with
  | Some e, _ => r = (Raise e, c)
  | None, Some e =>
      r.1 = Raise e ∧ signals r.2 = signals c ∧ waiters r.2 = waiters c ∧
      connection_ r.2 = Some x ∧ reads r.2 = reads c
  | None, None =>
      ∃ ss, signals r.2 = signals c ++ ss ∧ waiters r.2 = heard ss <$> waiters c ∧
            r.1 = conclude (verdict ss (ready r.2)) (no_delay_result x tcp_nodelay delayed' r.2)
  end.
Proof.
  intros Ho. unfold r, connect_ssl, create_client_ssl, outcome. destruct loaded as [e|]; [done|].
  unfold create_client. erewrite bind_ok by reflexivity. fold x. set (c1 := with_connection _ _).
  assert (Hopen : ∀ c', streams c' = streams c1 →
    opens_with (client_ssl_connect x connected handshaken tcp_nodelay delayed)
      (ssl_opening_error connected handshaken delayed tcp_nodelay) c').
  { intros c' Hc'. eapply client_ssl_connect_opens; [rewrite Hc'; by apply list_lookup_middle|done]. }
  destruct (ssl_opening_error connected handshaken delayed tcp_nodelay) as [e|].
  - exact (connect_held_fails x _ others tcp_nodelay delayed' e c1 Hopen).
  - exact (connect_held x _ others tcp_nodelay delayed' c1 Hopen Ho).
Qed.

(** An asynchronous connect over TLS whose client lives on and whose socket nobody closed:
    the closure of the application runs once, last, with the error of the connect or else
    of the handshake, after the signal that goes with it; reading has begun exactly if both
    succeeded, and the pointer the handlers had to the connection is given up. *)
Theorem async_ssl_reports x s connected handshaken nd closure between c
    (r := ssl_connecting x connected handshaken nd None closure between c)
    (c1 := if bool_decide (connected = None) then (between c).2 else c)
    (err := match connected with Some e => Some e | None => handshaken end) :
  (between c).1 = Ok tt → client_alive c1 = true → streams c1 !! x = Some s → st_closed s = false →
  ∃ c2, r.1 = (closure err c2).1 ∧ r.2 = with_refs (refs (closure err c2).2 ∖ {[x]}) (closure err c2).2 ∧
        signals c2 = signals c1 ++ [signal_of err] ∧
        reads c2 = reads c1 ++ (if bool_decide (err = None) then [x] else []).
Proof.
  intros Hb Ha Hs1 Hcl. unfold r, ssl_connecting. destruct connected as [e|]; cbn [handle_connect].
  - subst c1 err. rewrite bool_decide_false in Ha |- * by done.
    destruct (pass_ok closure (Some e) c Ha) as (c2 & Hp & Hs & Hr & _). exists c2.
    unfold release, bind. rewrite Hp. destruct (closure (Some e) c2) as [[[]|ex] c3]; cbn [fst snd ret];
      (split_and!; [done|done|done|by rewrite Hr, app_nil_r]).
  - subst c1 err. rewrite bool_decide_true in Ha, Hs1 |- * by done. erewrite bind_ok by reflexivity.
    destruct (between c) as [rb c1] eqn:Ec. cbn [fst snd] in *. subst rb. rewrite (bind_ok _ _ _ _ _ Ec).
    rewrite (handshake_eq x s) by done.
    assert (Ha2 : client_alive (handshaken_state x handshaken nd c1) = true) by (by destruct handshaken, nd).
    destruct (pass_ok closure handshaken (handshaken_state x handshaken nd c1) Ha2) as (c3 & Hp & Hs & Hr & _).
    exists c3. rewrite Hp. destruct (closure handshaken c3) as [rc c4]. rewrite Hs, Hr.
    destruct handshaken as [e|]; [by rewrite app_nil_r|by destruct nd].
Qed.

(** If the option of the socket cannot be set, the handler of the handshake throws into the
    io service: nothing is signalled, the closure is never called and nobody reads. *)
Theorem async_ssl_setup_throws x s e closure between c :
  (between c).1 = Ok tt → streams (between c).2 !! x = Some s →
  ssl_connecting x None None true (Some e) closure between c =
    (Raise (if st_closed s then bad_descriptor else e), with_refs (refs (between c).2 ∖ {[x]}) (between c).2).
Proof.
  intros Hb Hs. unfold ssl_connecting. erewrite bind_ok by reflexivity.
  destruct (between c) as [rb c1] eqn:Ec. cbn [fst snd] in *. subst rb. rewrite (bind_ok _ _ _ _ _ Ec).
  by apply handshake_throws.
Qed.

(** If the client was destroyed meanwhile, the closure's signal is sent from an object that
    is no more. *)
Theorem async_ssl_destroyed x s handshaken nd closure between c :
  (between c).1 = Ok tt → client_alive (between c).2 = false →
  streams (between c).2 !! x = Some s → st_closed s = false →
  (ssl_connecting x None handshaken nd None closure between c).1 = Raise destroyed_client.
Proof.
  intros Hb Ha Hs Hcl. unfold ssl_connecting. erewrite bind_ok by reflexivity.
  destruct (between c) as [rb c1] eqn:Ec. cbn [fst snd] in *. subst rb. rewrite (bind_ok _ _ _ _ _ Ec).
  rewrite (handshake_eq x s) by done. unfold pass, async_connect_success. rewrite bind_get.
  assert (Hd : client_alive (handshaken_state x handshaken nd c1) = false) by (by destruct handshaken, nd).
  by rewrite Hd.
Qed.

(** The asynchronous connect to a pipe is not one: it connects at once, calls the closure
    before it returns if that succeeds, and throws otherwise, when the closure is never
    called and nothing is signalled. *)
Theorem async_pipe_reports last_error closure c (x := length (streams c))
    (r := async_connect_pipe last_error closure c) :
  client_alive c = true →
  match last_error with
  | Some code => r.1 = Raise (EVtrc code CATEGORY_SYSTEM "") ∧ signals r.2 = signals c ∧ reads r.2 = reads c
  | None => ∃ c2, r.1 = (closure None c2).1 ∧ signals c2 = signals c ++ [on_connect] ∧ reads c2 = reads c ++ [x]
  end.
Proof.
  intros Ha. unfold r, async_connect_pipe, create_client. destruct last_error as [code|].
  - by split_and!.
  - erewrite bind_ok by reflexivity. unfold holding, client_win_pipe_async_connect, client_win_pipe_connect. set (c1 := with_connection _ _).
    unfold bind at 1. cbn [start_reading modify].
    set (c2 := with_reads _ _). destruct (pass_ok closure None c2 Ha) as (c3 & Hp & Hs & Hr & _). exists c3.
    rewrite Hp. destruct (closure None c3) as [rc c4]. by rewrite Hs, Hr.
Qed.
