(* ===== verification/Http.v ===== *)
(** * Http: the calls framed as HTTP

    [src/examples/hello-events-http/]: a low-level protocol written outside of the
    library, that replaces the default one on both ends.  A message is the request
    or the answer of HTTP it is printed as: the fields of the unit are headers, the
    service and the method are the path, the data is the body in hexadecimal.

    [protocol/http-header.hpp] has the incremental parser and the two conversions;
    [http_lowlevel_server] of [server/main.cpp] the queue of what is complete.
    [http_lowlevel_client] of [client/main.cpp] is the same class under another name. *)

From Stdlib Require Import DecimalN.
From S2P Require Import Prelude Messages.

(** ** Text *)

Definition ascii_byte (a : Ascii.ascii) : Z := Z.of_N (Ascii.N_of_ascii a).
Definition byte_ascii (z : Z) : Ascii.ascii := Ascii.ascii_of_N (Z.to_N z).
Definition string_bytes (s : string) : bytes := ascii_byte <$> String.list_ascii_of_string s.
Definition bytes_string (b : bytes) : string := String.string_of_list_ascii (byte_ascii <$> b).

Definition TAB : Z := 9.
Definition LF : Z := 10.
Definition CR : Z := 13.
Definition SP : Z := 32.
Definition crlf : bytes := [CR; LF].

(** What [oss << n] prints for an unsigned [n], and what reads it back. *)
Fixpoint uint_bytes (d : Decimal.uint) : bytes :=
  match d with
  | Decimal.Nil => []
  | Decimal.D0 d => 48 :: uint_bytes d
  | Decimal.D1 d => 49 :: uint_bytes d
  | Decimal.D2 d => 50 :: uint_bytes d
  | Decimal.D3 d => 51 :: uint_bytes d
  | Decimal.D4 d => 52 :: uint_bytes d
  | Decimal.D5 d => 53 :: uint_bytes d
  | Decimal.D6 d => 54 :: uint_bytes d
  | Decimal.D7 d => 55 :: uint_bytes d
  | Decimal.D8 d => 56 :: uint_bytes d
  | Decimal.D9 d => 57 :: uint_bytes d
  end.
Definition decimal (n : Z) : bytes := uint_bytes (N.to_uint (Z.to_N n)).

(** [boost::lexical_cast] to an unsigned type of [w] bits: none where it throws.
    What is relied on: it reads what was printed, and refuses what does not fit. *)
Class LexicalCast : Type := lexical_cast : Z → bytes → option Z.
Class LexicalCastLaws {L : LexicalCast} : Prop := {
  cast_decimal w n : 0 ≤ n → lexical_cast w (decimal n) = if n <? 2 ^ w then Some n else None;
  cast_range w b n : lexical_cast w b = Some n → in_word w n
}.
Definition bad_lexical_cast : exn := EStd "bad lexical cast".

(** ** replace_path and path_to_service *)

Definition translate (f t : Z) (b : Z) : Z := if b =? f then t else b.

Definition replace_path (path : bytes) (f t : Z) : res bytes :=
  match last path with
  | None => Raise (EUndefined "rbegin of an empty string")
  | Some c =>
      let path := if c =? f then take (length path - 1) path else path in
      Ok (translate f t <$> path)
  end.

(** The loop leaves [iter] at the last point, or never set. *)
Fixpoint last_point (path : bytes) (i : nat) (iter : option nat) : option nat :=
  match path with
  | [] => iter
  | b :: path => last_point path (S i) (if b =? 46 then Some i else iter)
  end.

(** The strings are built from ranges of iterators: the first is not a range
    when the last point is the first character. *)
Definition path_to_service (path : bytes) : res (bytes * bytes) :=
  match last_point path 0 None with
  | None => Raise (EUndefined "iterator that was never set")
  | Some O => Raise (EUndefined "range that ends before it begins")
  | Some (S i) => Ok (take i (drop 1 path), drop (S (S i)) path)
  end.

(** ** header_parser *)

Record header_parser : Type := HeaderParser {
  cont_ : gmap bytes bytes;
  method_ : list bytes;
  current_ : bytes;
  header_ready_ : bool;
  ready_ : bool
}.
Definition header_parser_new : header_parser := HeaderParser ∅ [] [] false false.

Definition set_cont m (p : header_parser) :=
  HeaderParser m (method_ p) (current_ p) (header_ready_ p) (ready_ p).
Definition set_current c (p : header_parser) :=
  HeaderParser (cont_ p) (method_ p) c (header_ready_ p) (ready_ p).
Definition set_ready r (p : header_parser) :=
  HeaderParser (cont_ p) (method_ p) (current_ p) (header_ready_ p) r.

Definition is_space (p : Z) : bool := (p =? SP) || (p =? TAB).

Fixpoint skip_spaces (v : bytes) : bytes :=
  match v with
  | c :: v' => if is_space c then skip_spaces v' else v
  | [] => []
  end.

(** The two parts of a string around the first occurrence of a character. *)
Fixpoint split_at (c : Z) (v : bytes) : option (bytes * bytes) :=
  match v with
  | [] => None
  | b :: v =>
      if b =? c then Some ([], v)
      else match split_at c v with Some (x, y) => Some (b :: x, y) | None => None end
  end.

Definition split_header (v : bytes) : bytes * bytes :=
  match split_at 58 v with
  | Some (name, rest) => (name, skip_spaces rest)
  | None => (v, [])
  end.

(** [last] is where the current word begins: the word read so far. *)
Fixpoint set_method_loop (v word : bytes) (acc : list bytes) : list bytes :=
  match v with
  | [] => match word with [] => acc | _ :: _ => acc ++ [word] end
  | b :: v =>
      if is_space b then set_method_loop v [] (acc ++ [word])
      else set_method_loop v (word ++ [b]) acc
  end.
Definition set_method (v : bytes) (p : header_parser) : header_parser :=
  HeaderParser (cont_ p) (set_method_loop v [] (method_ p)) (current_ p) (header_ready_ p) (ready_ p).

(** [std::map::insert] keeps the value a key already has. *)
Definition map_insert (kv : bytes * bytes) (m : gmap bytes bytes) : gmap bytes bytes :=
  match m !! kv.1 with Some _ => m | None => <[kv.1 := kv.2]> m end.

(** The [switch] of [push_header]. *)
Definition header_char (c : Z) (p : header_parser) : header_parser :=
  if c =? CR then p
  else if c =? LF then
    let p :=
      match current_ p, method_ p with
      | [], _ => HeaderParser (cont_ p) (method_ p) (current_ p) true (ready_ p)
      | _ :: _, [] => set_method (current_ p) p
      | _ :: _, _ :: _ => set_cont (map_insert (split_header (current_ p)) (cont_ p)) p
      end in
    set_current [] p
  else set_current (current_ p ++ [c]) p.

(** The iterator that is returned is what is left of the data. *)
Fixpoint push_header (data : bytes) (p : header_parser) : bytes * header_parser :=
  match data with
  | [] => ([], p)
  | c :: data' => if header_ready_ p then (data, p) else push_header data' (header_char c p)
  end.

Section Parser.
Context {L : LexicalCast}.

Definition to_unsigned (w : Z) (b : bytes) : res Z :=
  match lexical_cast w b with Some n => Ok n | None => Raise bad_lexical_cast end.

(** [get<unsigned>]: the default when there is no such field. *)
Definition get_unsigned (p : header_parser) (fld : bytes) (def : Z) : res Z :=
  match cont_ p !! fld with Some v => to_unsigned 32 v | None => Ok def end.
Definition has_field (p : header_parser) (fld : bytes) : bool := bool_decide (is_Some (cont_ p !! fld)).
Definition field (p : header_parser) (fld : bytes) : bytes := default [] (cont_ p !! fld).

(** [c_str( )] ends at the first NUL. *)
Fixpoint c_str (b : bytes) : bytes :=
  match b with
  | [] => []
  | c :: b => if c =? 0 then [] else c :: c_str b
  end.
Definition content_length (p : header_parser) : res Z :=
  match cont_ p !! string_bytes "Content-Length" with
  | Some v => to_unsigned 64 (c_str v)
  | None => Ok 0
  end.

Definition push_body (data : bytes) : M header_parser bytes :=
  let* p := get in
  match content_length p with
  | Raise e => raise e
  | Ok len =>
      if len =? 0 then put (set_ready true p) ;;; ret data
      else
        let cur_len := blen (current_ p) in
        let pos := Z.to_nat (Z.min (u64 (len - cur_len)) (blen data)) in
        let current := current_ p ++ take pos data in
        put (set_ready (blen current =? len) (set_current current p)) ;;;
        ret (drop pos data)
  end.

(** The number of bytes taken. *)
Definition push (data : bytes) : M header_parser nat :=
  let* p := get in
  let '(b, p1) := if header_ready_ p then (data, p) else push_header data p in
  put p1 ;;;
  let* b := if header_ready_ p1 && negb (ready_ p1) then push_body b else ret b in
  ret (length data - length b)%nat.

Definition clear (p : header_parser) : header_parser := HeaderParser ∅ [] [] false false.

(** ** bin2hex, hex2bin and the flags *)

(** A [char] is signed; the fields of four bits keep the low bits. *)
Definition schar (b : Z) : Z := if b <? 128 then b else b - 256.
Definition hexes (n : Z) : Z := if n <? 10 then 48 + n else 65 + (n - 10).
Definition int_to_hex (b : Z) : bytes :=
  [hexes (Z.land (Z.shiftr (schar b) 4) 15); hexes (Z.land (schar b) 15)].
Definition bin2hex (str : bytes) : bytes := concat (int_to_hex <$> str).

Definition hex_to_int (c : Z) : Z :=
  if (48 <=? c) && (c <=? 57) then c - 48
  else if (97 <=? c) && (c <=? 102) then c - 97 + 10
  else if (65 <=? c) && (c <=? 70) then c - 65 + 10
  else 255.
Fixpoint hex_loop (str tmp : bytes) : bytes :=
  match str with
  | a :: b :: str =>
      let hight := hex_to_int a in
      let low := hex_to_int b in
      if Z.lor hight low =? 255 then []
      else hex_loop str (tmp ++ [u8 (Z.lor (Z.shiftl hight 4) low)])
  | _ => tmp
  end.
Definition hex2bin (str : bytes) : bytes :=
  if Z.odd (blen str) then [] else hex_loop str [].

Definition REQ_WAIT : Z := 1.
Definition REQ_ACCEPT_RES : Z := 2.
Definition REQ_ACCEPT_CBS : Z := 4.
Definition opt2flags (o : unit_options) : Z :=
  Z.lor (Z.lor (if uo_wait' o then REQ_WAIT else 0)
               (if uo_accept_callbacks' o then REQ_ACCEPT_CBS else 0))
        (if uo_accept_response' o then REQ_ACCEPT_RES else 0).
Definition flags2opt (flags : Z) : unit_options :=
  UnitOptions (Some (negb (Z.land flags REQ_WAIT =? 0)))
    (Some (negb (Z.land flags REQ_ACCEPT_CBS =? 0)))
    (Some (negb (Z.land flags REQ_ACCEPT_RES =? 0))).

(** ** http2lowlevel and lowlevel2http *)

Definition lift {S A} (r : res A) : M S A := match r with Ok a => ret a | Raise e => raise e end.

Definition set_error_code (c : Z) (u : lowlevel_unit) : lowlevel_unit :=
  let e := u_error u in
  set_error (Some (Container (Some c) (c_category e) (c_fatal e) (c_additional e))) u.
Definition set_error_category (c : Z) (u : lowlevel_unit) : lowlevel_unit :=
  let e := u_error u in
  set_error (Some (Container (c_code e) (Some c) (c_fatal e) (c_additional e))) u.
Definition set_error_additional (s : string) (u : lowlevel_unit) : lowlevel_unit :=
  let e := u_error u in
  set_error (Some (Container (c_code e) (c_category e) (c_fatal e) (Some s))) u.

Definition http2lowlevel (pars : header_parser) : M lowlevel_unit bool :=
  let* m0 := match method_ pars with
             | [] => raise (EUndefined "begin of an empty deque")
             | m :: _ => ret m
             end in
  let is_request := bool_decide (m0 = string_bytes "GET") in
  let* ty := lift (get_unsigned pars (string_bytes "X-VTRC-Type") 1) in
  modify (set_message_type ty) ;;;
  let* id := lift (get_unsigned pars (string_bytes "X-VTRC-Id") 0) in
  modify (set_id id) ;;;
  let* tid := lift (get_unsigned pars (string_bytes "X-VTRC-Tid") 0) in
  modify (set_target_id tid) ;;;
  let* flags := lift (get_unsigned pars (string_bytes "X-VTRC-Options") 3) in
  modify (set_opt (Some (flags2opt flags))) ;;;
  (if has_field pars (string_bytes "X-VTRC-Error") then
    let* code := lift (get_unsigned pars (string_bytes "X-VTRC-Error") 0) in
    modify (set_error_code code) ;;;
    let* cat := lift (get_unsigned pars (string_bytes "X-VTRC-Category") 0) in
    modify (set_error_category cat) ;;;
    modify (set_error_additional (bytes_string (field pars (string_bytes "X-VTRC-Message"))))
  else if is_request then
    (match method_ pars with
     | _ :: path :: _ =>
         let* path := lift (replace_path path 47 46) in
         let* sp := lift (path_to_service path) in
         modify (set_call (Some (CallInfo (Some (bytes_string sp.1)) (Some (bytes_string sp.2)))))
     | _ => ret tt
     end) ;;;
    modify (set_request (Some (hex2bin (current_ pars))))
  else
    modify (set_response (Some (hex2bin (current_ pars))))) ;;;
  ret true.
End Parser.

(** [oss << name << value << crlf] *)
Definition oss_line (name : string) (value : bytes) : bytes := string_bytes name ++ value ++ crlf.

Definition error_page (e : container) : bytes :=
  string_bytes "<H1>Error: " ++ decimal (default 0 (c_code e)) ++ string_bytes "<br>" ++
  string_bytes (default ""%string (c_additional e)) ++ [LF] ++ string_bytes "</H1>".

(** The string [ser] is not empty, so [replace_path] returns. *)
Definition request_path (service method : bytes) : bytes :=
  match replace_path (47 :: service) 46 47 with
  | Ok ser => ser ++ [47] ++ method
  | Raise _ => []
  end.

Definition has_call (u : lowlevel_unit) : bool := bool_decide (is_Some (f_call u)).

Definition lowlevel2http (llu : lowlevel_unit) : bytes :=
  let is_request := has_call llu in
  (if is_request && negb (has_error llu) then
    string_bytes "GET " ++
    request_path (string_bytes (u_service_id llu)) (string_bytes (u_method_id llu)) ++
    string_bytes " HTTP/1.1" ++ crlf
  else string_bytes "HTTP/1.1 200 OK" ++ crlf) ++
  oss_line "Connection: keep-alive" [] ++
  oss_line "X-VTRC-Type: " (decimal (u_message_type llu)) ++
  oss_line "X-VTRC-Options: " (decimal (opt2flags (u_opt llu))) ++
  if has_error llu then
    let e := u_error llu in
    let error := error_page e in
    oss_line "X-VTRC-Error: " (decimal (default 0 (c_code e))) ++
    oss_line "X-VTRC-Category: " (decimal (default 0 (c_category e))) ++
    oss_line "X-VTRC-Message: " (string_bytes (default ""%string (c_additional e))) ++
    oss_line "Content-Length: " (decimal (blen error)) ++
    crlf ++ error
  else
    let content := bin2hex (if is_request then u_request llu else u_response llu) in
    oss_line "X-VTRC-Id: " (decimal (u_id llu)) ++
    oss_line "X-VTRC-Tid: " (decimal (u_target_id llu)) ++
    oss_line "Content-Length: " (decimal (blen content)) ++
    crlf ++ content.

(** ** http_lowlevel_server *)

(** The pointers are null until [init]; a parser that is complete moves to the
    queue and a new one takes its place. *)
Record http_lowlevel : Type := HttpLowlevel {
  pa_ : bool;
  container_ : list header_parser;
  current_header_ : option header_parser
}.
Definition http_lowlevel_new : http_lowlevel := HttpLowlevel false [] None.

Definition set_container ms (h : http_lowlevel) := HttpLowlevel (pa_ h) ms (current_header_ h).
Definition set_current_header p (h : http_lowlevel) := HttpLowlevel (pa_ h) (container_ h) p.
Definition reset_current : http_lowlevel → http_lowlevel := set_current_header (Some header_parser_new).

(** The object that owns the protocol is the state [S], so that the callbacks
    can change all of it. *)
Class HasHttp (S : Type) : Type := {
  http : S → http_lowlevel;
  set_http : http_lowlevel → S → S
}.
#[export] Instance http_itself : HasHttp http_lowlevel := {| http h := h; set_http h _ := h |}.

Definition on_http {S} `{HasHttp S} {A} (m : M http_lowlevel A) : M S A := λ s,
  let '(r, h) := m (http s) in (r, set_http h s).

(** Run an operation of the parser on [*current_header_]. *)
Definition on_current {A} (m : M header_parser A) : M http_lowlevel A := λ h,
  match current_header_ h with
  | None => (Raise (EUndefined "null pointer"), h)
  | Some p => let '(r, p) := m p in (r, set_current_header (Some p) h)
  end.

Definition queue_size (h : http_lowlevel) : Z := blen (container_ h).

Section Protocol.
Context {L : LexicalCast} {S : Type} `{HasHttp S}.
Context (ready_cb : M S unit) (pa_ready : bool → M S unit) (message_ready : M S unit).

Definition init : M S unit :=
  on_http (modify (λ h, HttpLowlevel true (container_ h) (current_header_ h))) ;;;
  on_http (modify reset_current) ;;;
  ready_cb ;;;
  pa_ready true.

(** Each turn takes a byte at least, see [process_loop_feed]. *)
Fixpoint process_loop (fuel : nat) (data : bytes) (ok : bool) : M http_lowlevel bool :=
  match data, fuel with
  | [], _ => ret ok
  | _ :: _, O => raise (EUndefined "fuel")
  | _ :: _, Datatypes.S f =>
      let* r := on_current (push data) in
      let data := drop r data in
      let* ready := on_current (gets ready_) in
      if ready then
        modify (λ h, set_container (container_ h ++ option_list (current_header_ h)) h) ;;;
        modify reset_current ;;;
        process_loop f data true
      else process_loop f data ok
  end.

Definition process_data (data : bytes) : M S unit :=
  let* ok := on_http (process_loop (length data) data false) in
  if ok then
    let* s := get in
    if pa_ (http s) then message_ready else raise (EUndefined "null pointer")
  else ret tt.

(** The message leaves the queue after the conversion, which may throw; the
    caller's unit is a state of its own. *)
Definition pop_proto_message (result : lowlevel_unit) : M http_lowlevel (bool * lowlevel_unit) := λ h,
  match container_ h with
  | [] => (Raise (EUndefined "front of an empty deque"), h)
  | p :: ms =>
      match http2lowlevel p result with
      | (Ok res, result) => (Ok (res, result), set_container ms h)
      | (Raise e, _) => (Raise e, h)
      end
  end.
End Protocol.

Definition pack_message (mess : lowlevel_unit) : bytes := lowlevel2http mess.
Definition serialize_lowlevel (mess : lowlevel_unit) : bytes := pack_message mess.
Definition serialize_message {A} `{Codec A} (mess : A) : bytes := SerializeAsString mess.
Definition close : M http_lowlevel unit := ret tt.

(** ** Specification: one byte at a time

    [feed] is the parser that takes bytes one by one: the parsers completed, the
    one in progress, and the exception that ended it. *)

Section Feed.
Context {L : LexicalCast}.

Fixpoint feed (data : bytes) (p : header_parser) : list header_parser * header_parser * option exn :=
  match data with
  | [] => ([], p, None)
  | c :: data =>
      match push [c] p with
      | (Raise e, p) => ([], p, Some e)
      | (Ok _, p) =>
          if ready_ p then
            let '(ms, p', e) := feed data header_parser_new in (p :: ms, p', e)
          else feed data p
      end
  end.

(** What the parser in progress is between two calls: its header is not
    complete, or its body is not, or its length cannot be read. *)
Definition in_progress (p : header_parser) : Prop :=
  ready_ p = false ∧
  (header_ready_ p = true →
   match content_length p with
   | Ok len => blen (current_ p) < len < 2 ^ 64
   | Raise e => e = bad_lexical_cast
   end).

(** The receiving end pops what is complete whenever it is told, and logs it. *)
Record receiver : Type := Receiver { rc_http : http_lowlevel; rc_log : list (bool * lowlevel_unit) }.
#[export] Instance receiver_http : HasHttp receiver := {|
  http := rc_http; set_http h r := Receiver h (rc_log r)
|}.

Fixpoint drain (fuel : nat) : M receiver unit :=
  match fuel with
  | O => ret tt
  | S f =>
      let* m := on_http (pop_proto_message unit_empty) in
      modify (λ r, Receiver (rc_http r) (rc_log r ++ [m])) ;;;
      drain f
  end.
(** [while( queue_size( ) ) pop] *)
Definition drain_all : M receiver unit := λ r, drain (length (container_ (rc_http r))) r.

Fixpoint receive_all (ds : list bytes) : M receiver unit :=
  match ds with
  | [] => ret tt
  | d :: ds => process_data drain_all d ;;; receive_all ds
  end.
End Feed.

(** ** Specification: what a unit is when it arrives *)

(** The characters a header line, and a word of the first one, can carry. *)
Definition line_char (c : Z) : Prop := is_byte c ∧ c ≠ CR ∧ c ≠ LF.
Definition word_char (c : Z) : Prop := line_char c ∧ c ≠ SP ∧ c ≠ TAB ∧ c ≠ 47.

#[export] Instance line_char_dec c : Decision (line_char c).
Proof. unfold line_char. apply _. Defined.
#[export] Instance word_char_dec c : Decision (word_char c).
Proof. unfold word_char. apply _. Defined.

Definition carried_options (o : unit_options) : unit_options :=
  UnitOptions (Some (uo_wait' o)) (Some (uo_accept_callbacks' o)) (Some (uo_accept_response' o)).

(** The flags of the message, what is fatal and the data of channels are not
    carried; an error is without the ids. *)
Definition carried (u : lowlevel_unit) : lowlevel_unit :=
  let base id tid call err req resp :=
    Unit (Some id) (Some tid) (Some (MessageInfo (Some (u_message_type u)) None)) call err
      (Some (carried_options (u_opt u))) None None req resp in
  if has_error u then
    let e := u_error u in
    base 0 0 None
      (Some (Container (Some (default 0 (c_code e))) (Some (default 0 (c_category e))) None
        (Some (default ""%string (c_additional e))))) None None
  else if has_call u then
    base (u_id u) (u_target_id u)
      (Some (CallInfo (Some (u_service_id u)) (Some (u_method_id u)))) None
      (Some (u_request u)) None
  else base (u_id u) (u_target_id u) None None None (Some (u_response u)).

(** The units the framing can carry. *)
Record http_ok (u : lowlevel_unit) : Prop := {
  ok_type : in_word 32 (u_message_type u);
  ok_ids : has_error u = false → in_word 32 (u_id u) ∧ in_word 32 (u_target_id u);
  ok_call : has_error u = false → has_call u = true →
    Forall word_char (string_bytes (u_service_id u)) ∧ last (string_bytes (u_service_id u)) ≠ Some 46 ∧
    Forall word_char (string_bytes (u_method_id u)) ∧ (46 ∉ string_bytes (u_method_id u)) ∧
    u_method_id u ≠ ""%string;
  ok_data : has_error u = false →
    let content := if has_call u then u_request u else u_response u in
    bytes_ok content ∧ 2 * blen content < 2 ^ 64;
  ok_error : has_error u = true →
    in_word 32 (default 0 (c_code (u_error u))) ∧ in_word 32 (default 0 (c_category (u_error u))) ∧
    let text := string_bytes (default ""%string (c_additional (u_error u))) in
    Forall line_char text ∧ (∀ c, head text = Some c → is_space c = false) ∧
    blen (error_page (u_error u)) < 2 ^ 64
}.

(** ** Lemmas *)

(** *** Text *)

Lemma byte_ascii_byte a : byte_ascii (ascii_byte a) = a.
Proof. unfold byte_ascii, ascii_byte. by rewrite N2Z.id, Ascii.ascii_N_embedding. Qed.

Lemma bytes_string_bytes s : bytes_string (string_bytes s) = s.
Proof.
  unfold bytes_string, string_bytes. rewrite <-list_fmap_compose.
  rewrite (list_fmap_ext _ id), list_fmap_id; [apply String.string_of_list_ascii_of_string|].
  intros _ a _. apply byte_ascii_byte.
Qed.

Lemma uint_digits d : Forall (λ c, 48 ≤ c ≤ 57) (uint_bytes d).
Proof. induction d; simpl; constructor; (done || lia). Qed.

Lemma decimal_digits n : Forall (λ c, 48 ≤ c ≤ 57) (decimal n).
Proof. apply uint_digits. Qed.

Lemma c_str_digits b : Forall (λ c, 48 ≤ c ≤ 57) b → c_str b = b.
Proof.
  induction 1 as [|c b Hc _ IH]; [done|]. simpl. rewrite IH.
  by replace (c =? 0) with false by (symmetry; apply Z.eqb_neq; lia).
Qed.

(** *** Paths *)

Lemma last_point_app l k i o :
  last_point (l ++ k) i o = last_point k (i + length l) (last_point l i o).
Proof.
  revert i o. induction l as [|b l IH]; intros i o; simpl; [by rewrite Nat.add_0_r|].
  rewrite IH. f_equal. lia.
Qed.

Lemma last_point_none (l : bytes) i o : 46 ∉ l → last_point l i o = o.
Proof.
  revert i o. induction l as [|b l IH]; intros i o Hl; [done|]. simpl.
  apply not_elem_of_cons in Hl as [Hb Hl]. rewrite IH by done.
  by replace (b =? 46) with false by (symmetry; apply Z.eqb_neq; congruence).
Qed.

Lemma translate_back f t (l : bytes) : Forall (λ c, c ≠ t) l → translate t f <$> (translate f t <$> l) = l.
Proof.
  induction 1 as [|c l Hc _ IH]; [done|]. rewrite !fmap_cons, IH. f_equal. unfold translate.
  destruct (c =? f) eqn:E; bool_props; subst; [by rewrite Z.eqb_refl|].
  by replace (c =? t) with false by (symmetry; by apply Z.eqb_neq).
Qed.

Lemma translate_none f t (l : bytes) : f ∉ l → translate f t <$> l = l.
Proof.
  induction l as [|c l IH]; intros Hl; [done|]. apply not_elem_of_cons in Hl as [Hc Hl].
  rewrite fmap_cons, IH by done. unfold translate.
  by replace (c =? f) with false by (symmetry; apply Z.eqb_neq; congruence).
Qed.

Lemma request_path_eq service method : last service ≠ Some 46 →
  request_path service method = 47 :: (translate 46 47 <$> service) ++ 47 :: method.
Proof.
  intros Hls. unfold request_path, replace_path. rewrite last_cons.
  destruct (last service) as [c|] eqn:E; [|by rewrite last_None in E; subst].
  replace (c =? 46) with false by (symmetry; apply Z.eqb_neq; congruence). done.
Qed.

(** The path of a request is read back. *)
Lemma path_back service method :
  Forall word_char service → last service ≠ Some 46 →
  Forall word_char method → 46 ∉ method → method ≠ [] →
  ∃ path, replace_path (request_path service method) 47 46 = Ok path ∧
    path_to_service path = Ok (service, method).
Proof.
  intros Hs Hls Hm Hdot Hne.
  pose proof (request_path_eq service method Hls) as Hp.
  assert (Hslash : ∀ l, Forall word_char l → Forall (λ c, c ≠ 47) l).
  { intros l Hl. eapply Forall_impl; [exact Hl|]. by intros c (_ & _ & _ & ?). }
  exists (46 :: service ++ 46 :: method). split.
  - rewrite Hp. unfold replace_path.
    assert (∃ c, last method = Some c ∧ c ≠ 47) as (c & Hc & Hc').
    { destruct (exists_last Hne) as (m & c & ->). exists c. rewrite last_snoc. split; [done|].
      apply Hslash in Hm. apply Forall_app in Hm as [_ Hm]. by inversion Hm. }
    rewrite last_cons, last_app, last_cons, Hc.
    replace (c =? 47) with false by (symmetry; by apply Z.eqb_neq).
    f_equal. rewrite fmap_cons, fmap_app, fmap_cons, translate_back by auto.
    rewrite (translate_none _ _ method); [done|]. intros Hin.
    apply Hslash in Hm. rewrite Forall_forall in Hm. by apply (Hm 47).
  - unfold path_to_service.
    replace (last_point _ 0 None) with (Some (S (length service))).
    + rewrite skipn_cons, drop_0. rewrite take_app_length. f_equal. f_equal.
      change (46 :: service ++ 46 :: method) with ((46 :: service) ++ 46 :: method).
      rewrite drop_app_ge by (simpl; lia). simpl length.
      by replace (S (S (length service)) - S (length service))%nat with 1%nat by lia.
    + change (46 :: service ++ 46 :: method) with ((46 :: service) ++ 46 :: method).
      rewrite last_point_app. simpl. by rewrite last_point_none.
Qed.

(** *** Hexadecimal and flags *)

Lemma hex_byte b : is_byte b →
  let h := hex_to_int (hexes (Z.land (Z.shiftr (schar b) 4) 15)) in
  let l := hex_to_int (hexes (Z.land (schar b) 15)) in
  (Z.lor h l =? 255) = false ∧ u8 (Z.lor (Z.shiftl h 4) l) = b.
Proof.
  intros Hb.
  pose (ok b := let h := hex_to_int (hexes (Z.land (Z.shiftr (schar b) 4) 15)) in
    let l := hex_to_int (hexes (Z.land (schar b) 15)) in
    negb (Z.lor h l =? 255) && (u8 (Z.lor (Z.shiftl h 4) l) =? b)).
  assert (Hall : forallb ok (seqZ 0 256) = true) by (vm_compute; reflexivity).
  rewrite forallb_forall in Hall. specialize (Hall b). unfold ok in Hall.
  rewrite andb_true_iff, negb_true_iff, Z.eqb_eq in Hall. apply Hall.
  apply list_elem_of_In, elem_of_seqZ. unfold in_word in Hb. lia.
Qed.

Lemma blen_bin2hex b : blen (bin2hex b) = 2 * blen b.
Proof.
  unfold blen. induction b as [|c b IH]; [done|].
  change (bin2hex (c :: b)) with (int_to_hex c ++ bin2hex b). rewrite length_app. change (length (int_to_hex c)) with 2%nat. cbn [length]. lia.
Qed.

Lemma hex_loop_bin2hex b tmp : bytes_ok b → hex_loop (bin2hex b) tmp = tmp ++ b.
Proof.
  intros Hb. revert tmp. induction Hb as [|c b Hc _ IH]; intros tmp; [by rewrite app_nil_r|].
  change (bin2hex (c :: b)) with (int_to_hex c ++ bin2hex b). unfold int_to_hex.
  cbn [app hex_loop]. destruct (hex_byte c Hc) as [-> ->]. rewrite IH. by rewrite <-(assoc_L (++)).
Qed.

(** The body of a message is read back. *)
Lemma hex2bin_bin2hex b : bytes_ok b → hex2bin (bin2hex b) = b.
Proof.
  intros Hb. unfold hex2bin. rewrite blen_bin2hex, Z.odd_mul. simpl. by apply hex_loop_bin2hex.
Qed.

Lemma flags_back o : flags2opt (opt2flags o) = carried_options o.
Proof.
  unfold flags2opt, opt2flags, carried_options.
  by destruct (uo_wait' o), (uo_accept_callbacks' o), (uo_accept_response' o).
Qed.

Lemma flags_range o : 0 ≤ opt2flags o < 8.
Proof.
  unfold opt2flags. by destruct (uo_wait' o), (uo_accept_callbacks' o), (uo_accept_response' o).
Qed.

(** *** Lines of a header *)

Definition line_chars : bytes → Prop := Forall (λ c, c ≠ CR ∧ c ≠ LF).

Lemma push_header_chars l rest p : header_ready_ p = false → line_chars l →
  push_header (l ++ rest) p = push_header rest (set_current (current_ p ++ l) p).
Proof.
  intros Hr Hl. revert p Hr. induction Hl as [|c l [Hc Hc'] _ IH]; intros p Hr.
  - rewrite app_nil_r. by destruct p.
  - cbn [app push_header]. rewrite Hr. unfold header_char.
    replace (c =? CR) with false by (symmetry; by apply Z.eqb_neq).
    replace (c =? LF) with false by (symmetry; by apply Z.eqb_neq).
    rewrite IH by done. destruct p; unfold set_current; simpl. by rewrite <-(assoc_L (++)).
Qed.

(** A line that is not empty, at the beginning of a line. *)
Definition with_line (l : bytes) (p : header_parser) : header_parser :=
  match method_ p with
  | [] => set_method l p
  | _ :: _ => set_cont (map_insert (split_header l) (cont_ p)) p
  end.

Lemma push_header_line l rest p :
  header_ready_ p = false → current_ p = [] → line_chars l → l ≠ [] →
  push_header (l ++ crlf ++ rest) p = push_header rest (with_line l p).
Proof.
  intros Hr Hc Hl Hne. rewrite push_header_chars by done. rewrite Hc. cbn [app].
  unfold crlf. cbn [app push_header]. destruct p as [m ms c h r]. cbn in Hr, Hc |- *. subst.
  unfold header_char. cbn. destruct l as [|b l]; [done|]. unfold with_line. cbn. by destruct ms.
Qed.

Lemma push_header_end rest p :
  header_ready_ p = false → current_ p = [] →
  push_header (crlf ++ rest) p = (rest, HeaderParser (cont_ p) (method_ p) [] true (ready_ p)).
Proof.
  intros Hr Hc. destruct p as [m ms c h r]. cbn in *. subst. by destruct rest.
Qed.

Lemma skip_spaces_done v : (∀ c, head v = Some c → is_space c = false) → skip_spaces v = v.
Proof. destruct v as [|c v]; [done|]. intros H. simpl. by rewrite (H c). Qed.

Lemma split_at_app c l r : c ∉ l → split_at c (l ++ c :: r) = Some (l, r).
Proof.
  induction l as [|b l IH]; intros Hl; simpl; [by rewrite Z.eqb_refl|].
  apply not_elem_of_cons in Hl as [Hb Hl]. rewrite IH by done.
  by replace (b =? c) with false by (symmetry; apply Z.eqb_neq; congruence).
Qed.

Lemma split_header_field name v :
  (58 ∉ name) → (∀ c, head v = Some c → is_space c = false) →
  split_header (name ++ 58 :: SP :: v) = (name, v).
Proof.
  intros Hn Hv. unfold split_header. rewrite split_at_app by done. simpl.
  by rewrite skip_spaces_done.
Qed.

(** Words that are not empty and without spaces are separated by spaces. *)
Lemma set_method_word w v word acc :
  Forall (λ c, is_space c = false) w →
  set_method_loop (w ++ v) word acc = set_method_loop v (word ++ w) acc.
Proof.
  intros Hw. revert word. induction Hw as [|c w Hc _ IH]; intros word; simpl; [by rewrite app_nil_r|].
  rewrite Hc, IH. by rewrite <-(assoc_L (++)).
Qed.

(** *** A message as lines *)

Definition field_line (kv : bytes * bytes) : bytes := kv.1 ++ 58 :: SP :: kv.2 ++ crlf.
Definition field_ok (kv : bytes * bytes) : Prop :=
  (58 ∉ kv.1) ∧ line_chars kv.1 ∧ line_chars kv.2 ∧ (∀ c, head kv.2 = Some c → is_space c = false).

Definition fields_map (m : gmap bytes bytes) (kvs : list (bytes * bytes)) : gmap bytes bytes :=
  foldl (λ m kv, map_insert kv m) m kvs.

Lemma push_header_fields kvs rest p :
  header_ready_ p = false → current_ p = [] → method_ p ≠ [] → Forall field_ok kvs →
  push_header (concat (field_line <$> kvs) ++ rest) p =
    push_header rest (set_cont (fields_map (cont_ p) kvs) p).
Proof.
  intros Hr Hc Hm Hkvs. revert p Hr Hc Hm.
  induction Hkvs as [|[n v] kvs (Hn & Hln & Hlv & Hv) _ IH]; intros p Hr Hc Hm; [by destruct p|].
  cbn [fst snd] in *. rewrite fmap_cons. cbn [concat]. unfold field_line at 1. cbn [fst snd].
  replace ((n ++ 58 :: SP :: v ++ crlf) ++ concat (field_line <$> kvs)) with
    ((n ++ 58 :: SP :: v) ++ crlf ++ concat (field_line <$> kvs))
    by (rewrite <-!(assoc_L (++)); cbn [app]; by rewrite <-!(assoc_L (++))).
  rewrite <-!(assoc_L (++)), (assoc_L (++) n), push_header_line; [|done|done| |by destruct n].
  2:{ apply Forall_app. split; [done|]. by repeat constructor. }
  unfold with_line. rewrite split_header_field by done. destruct (method_ p) as [|w ws] eqn:E; [done|].
  rewrite IH; [|done|done|simpl; by rewrite E]. by destruct p.
Qed.

Fixpoint assoc (k : bytes) (kvs : list (bytes * bytes)) : option bytes :=
  match kvs with
  | [] => None
  | (n, v) :: kvs => if bool_decide (n = k) then Some v else assoc k kvs
  end.

Lemma fields_map_lookup kvs m k :
  fields_map m kvs !! k = match m !! k with Some v => Some v | None => assoc k kvs end.
Proof.
  revert m. induction kvs as [|[n v] kvs IH]; intros m; simpl; [by destruct (m !! k)|].
  rewrite IH. unfold map_insert. simpl. case_bool_decide as E.
  - subst. destruct (m !! k) eqn:Ek; [by rewrite Ek|]. by rewrite lookup_insert_eq.
  - destruct (m !! n); [done|]. by rewrite lookup_insert_ne.
Qed.

(** The first line, the fields and the body of the message of a unit. *)
Definition is_call (u : lowlevel_unit) : bool := has_call u && negb (has_error u).
Definition http_words (u : lowlevel_unit) : list bytes :=
  if is_call u then
    [string_bytes "GET"; request_path (string_bytes (u_service_id u)) (string_bytes (u_method_id u));
     string_bytes "HTTP/1.1"]
  else [string_bytes "HTTP/1.1"; string_bytes "200"; string_bytes "OK"].
Definition http_body (u : lowlevel_unit) : bytes :=
  if has_error u then error_page (u_error u)
  else bin2hex (if has_call u then u_request u else u_response u).
Definition http_fields (u : lowlevel_unit) : list (bytes * bytes) :=
  (string_bytes "Connection", string_bytes "keep-alive") ::
  (string_bytes "X-VTRC-Type", decimal (u_message_type u)) ::
  (string_bytes "X-VTRC-Options", decimal (opt2flags (u_opt u))) ::
  (if has_error u then
    [(string_bytes "X-VTRC-Error", decimal (default 0 (c_code (u_error u))));
     (string_bytes "X-VTRC-Category", decimal (default 0 (c_category (u_error u))));
     (string_bytes "X-VTRC-Message", string_bytes (default ""%string (c_additional (u_error u))))]
  else
    [(string_bytes "X-VTRC-Id", decimal (u_id u)); (string_bytes "X-VTRC-Tid", decimal (u_target_id u))]) ++
  [(string_bytes "Content-Length", decimal (blen (http_body u)))].

Definition unwords (ws : list bytes) : bytes :=
  match ws with
  | [] => []
  | w :: ws => w ++ concat ((λ w, SP :: w) <$> ws)
  end.

Lemma lowlevel2http_lines u :
  lowlevel2http u = unwords (http_words u) ++ crlf ++
    concat (field_line <$> http_fields u) ++ crlf ++ http_body u.
Proof.
  unfold lowlevel2http, http_words, http_fields, http_body, is_call.
  destruct (has_call u), (has_error u); cbn [andb negb];
    generalize (decimal (u_message_type u)) (decimal (opt2flags (u_opt u)));
    intros; unfold oss_line, field_line, unwords, crlf;
    cbn -[decimal error_page bin2hex request_path string_bytes];
    repeat (rewrite <-!(assoc_L (++)) || cbn -[decimal error_page bin2hex request_path]);
    reflexivity.
Qed.

Definition word_ok (w : bytes) : Prop := Forall (λ c, c ≠ CR ∧ c ≠ LF ∧ is_space c = false) w ∧ w ≠ [].

Lemma set_method_words w ws acc : word_ok w → Forall word_ok ws →
  set_method_loop (w ++ concat ((λ w, SP :: w) <$> ws)) [] acc = acc ++ w :: ws.
Proof.
  intros Hw Hws. revert w Hw acc. induction Hws as [|w' ws Hw' _ IH]; intros w [Hw Hne] acc;
    rewrite set_method_word; try by (eapply Forall_impl; [done|]; by intros c (_ & _ & ?)).
  - simpl. by destruct w.
  - cbn [app fmap list_fmap concat set_method_loop]. change (is_space SP) with true. cbn [app].
    change (list_fmap _ _ ?f ?l) with (f <$> l). rewrite IH by done. by rewrite <-(assoc_L (++)).
Qed.

Lemma words_line ws : Forall word_ok ws → line_chars (unwords ws).
Proof.
  assert (Hline : ∀ w, word_ok w → line_chars w).
  { intros w [Hw _]. eapply Forall_impl; [done|]. by intros c (? & ? & _). }
  destruct 1 as [|w ws Hw Hws]; [constructor|]. apply Forall_app. split; [by apply Hline|].
  induction Hws as [|w' ws Hw' _ IH]; [constructor|]. cbn. constructor; [done|].
  apply Forall_app. split; [by apply Hline|done].
Qed.

Lemma literal_word s :
  forallb (λ c, negb (c =? CR) && negb (c =? LF) && negb (is_space c)) (string_bytes s) = true →
  s ≠ ""%string → word_ok (string_bytes s).
Proof.
  intros Hs Hne. split; [|by destruct s]. apply Forall_forall.
  intros c Hc. rewrite forallb_forall in Hs. specialize (Hs c (proj1 (list_elem_of_In _ _) Hc)).
  by bool_props.
Qed.

Lemma decimal_field n v : field_ok (n, []) → Forall (λ c, 48 ≤ c ≤ 57) v → field_ok (n, v).
Proof.
  intros (Hn & Hln & _ & _) Hv. split_and!; [done|done| |]; cbn [snd].
  - eapply Forall_impl; [exact Hv|]. unfold CR, LF. simpl. lia.
  - intros c Hc. destruct Hv as [|d v Hd _]; [done|]. injection Hc as <-.
    unfold is_space, SP, TAB. apply orb_false_iff. rewrite !Z.eqb_neq. lia.
Qed.

Lemma literal_field n v :
  forallb (λ c, negb (c =? CR) && negb (c =? LF)) (n ++ v) = true → (58 ∉ n) →
  (∀ c, head v = Some c → is_space c = false) → field_ok (n, v).
Proof.
  rewrite forallb_app. intros [Hn Hv]%andb_true_iff H58 Hh. split_and!; [done| | |done];
    apply Forall_forall; intros c Hc%list_elem_of_In; [rewrite forallb_forall in Hn; specialize (Hn c Hc)
    |rewrite forallb_forall in Hv; specialize (Hv c Hc)]; by bool_props.
Qed.

Ltac no_colon := apply (bool_decide_unpack _); vm_compute; exact I.

Lemma word_char_ok l : Forall word_char l → Forall (λ c, c ≠ CR ∧ c ≠ LF ∧ is_space c = false) l.
Proof.
  intros Hl. eapply Forall_impl; [exact Hl|]. intros c ((_ & ? & ?) & ? & ? & _). split_and!; [done..|].
  unfold is_space. by rewrite orb_false_iff, !Z.eqb_neq.
Qed.

Lemma request_path_word service method :
  Forall word_char service → last service ≠ Some 46 → Forall word_char method →
  word_ok (request_path service method).
Proof.
  intros Hs Hl Hm. rewrite request_path_eq by done. split; [|done]. constructor; [done|].
  apply Forall_app. split; [|constructor; [done|by apply word_char_ok]].
  apply Forall_fmap. eapply Forall_impl; [by apply word_char_ok|]. intros c Hc. simpl. unfold translate.
  by destruct (c =? 46).
Qed.

Section Framing.
Context {L : LexicalCast} `{!LexicalCastLaws}.

Lemma http_words_ok u : http_ok u → Forall word_ok (http_words u).
Proof.
  intros Hu. unfold http_words, is_call. destruct (has_call u) eqn:Ec, (has_error u) eqn:Ee; cbn [andb negb];
    try (do 3 (constructor; [by apply literal_word|]); constructor).
  destruct (ok_call u Hu Ee Ec) as (? & ? & ? & _).
  constructor; [by apply literal_word|]. constructor; [by apply request_path_word|].
  constructor; [by apply literal_word|constructor].
Qed.

Lemma http_fields_ok u : http_ok u → Forall field_ok (http_fields u).
Proof.
  intros Hu. assert (Hd : ∀ n s, (58 ∉ string_bytes s) → forallb (λ c, negb (c =? CR) && negb (c =? LF)) (string_bytes s) = true →
    field_ok (string_bytes s, decimal n)).
  { intros n s Hs Hl. apply decimal_field; [|apply decimal_digits]. apply literal_field; [by rewrite app_nil_r|done|done]. }
  unfold http_fields. constructor.
  { apply literal_field; [done|no_colon|]. by intros c [= <-]. }
  do 2 (constructor; [apply Hd; [no_colon|done]|]).
  apply Forall_app. split; [|constructor; [apply Hd; [no_colon|done]|constructor]].
  destruct (has_error u) eqn:Ee.
  - do 2 (constructor; [apply Hd; [no_colon|done]|]). constructor; [|constructor].
    destruct (ok_error u Hu Ee) as (_ & _ & Hl & Hh & _). split_and!; [no_colon| |  |done].
    + by repeat constructor.
    + eapply Forall_impl; [exact Hl|]. by intros c [_ ?].
  - do 2 (constructor; [apply Hd; [no_colon|done]|]). constructor.
Qed.

(** The parser that has read the message of [u]. *)
Definition message_parser (u : lowlevel_unit) : header_parser :=
  HeaderParser (fields_map ∅ (http_fields u)) (http_words u) (http_body u) true true.

Lemma message_field u k : cont_ (message_parser u) !! k = assoc k (http_fields u).
Proof. unfold message_parser. cbn [cont_]. by rewrite fields_map_lookup, lookup_empty. Qed.

Lemma http_body_length u : http_ok u → 0 ≤ blen (http_body u) < 2 ^ 64.
Proof.
  intros Hu. split; [apply blen_nonneg|]. unfold http_body. destruct (has_error u) eqn:Ee.
  - by apply (ok_error u Hu Ee).
  - rewrite blen_bin2hex. by apply (ok_data u Hu Ee).
Qed.

Lemma content_length_fields p u : http_ok u → cont_ p = fields_map ∅ (http_fields u) →
  content_length p = Ok (blen (http_body u)).
Proof.
  intros Hu Hp. unfold content_length. rewrite Hp, fields_map_lookup, lookup_empty.
  replace (assoc (string_bytes "Content-Length") (http_fields u)) with (Some (decimal (blen (http_body u))))
    by (unfold http_fields; by destruct (has_error u)).
  destruct (http_body_length u Hu). rewrite c_str_digits by apply decimal_digits.
  unfold to_unsigned. rewrite cast_decimal by done. by rewrite (proj2 (Z.ltb_lt _ _)).
Qed.

(** The header of a message, then any data. *)
Lemma push_header_message u rest : http_ok u →
  push_header (lowlevel2http u ++ rest) header_parser_new =
    (http_body u ++ rest, HeaderParser (fields_map ∅ (http_fields u)) (http_words u) [] true false).
Proof.
  intros Hu. pose proof (http_words_ok u Hu) as Hws. pose proof (words_line _ Hws) as Hline.
  rewrite lowlevel2http_lines, <-!(assoc_L (++)).
  assert (∃ w ws, http_words u = w :: ws) as (w & ws & Hw).
  { unfold http_words. destruct (is_call u); eauto. }
  rewrite Hw in *. inversion Hws as [|? ? [Hwc Hwne] Hws']; subst.
  rewrite push_header_line; [|done|done|done|by destruct w].
  unfold with_line. cbn [method_ header_parser_new]. unfold set_method. cbn [cont_ method_ current_ header_ready_ ready_].
  unfold unwords. rewrite set_method_words by done. cbn [app].
  rewrite push_header_fields; [|done|done|done|by apply http_fields_ok].
  by rewrite push_header_end.
Qed.

Lemma push_message u rest : http_ok u →
  push (lowlevel2http u ++ rest) header_parser_new = (Ok (length (lowlevel2http u)), message_parser u).
Proof.
  intros Hu. unfold push. rewrite bind_get. cbn [header_ready_ header_parser_new].
  rewrite push_header_message by done. unfold bind at 1, put. cbn [header_ready_ ready_ andb negb].
  set (p := HeaderParser _ _ [] true false).
  assert (Hbody : push_body (http_body u ++ rest) p = (Ok rest, message_parser u)).
  { unfold push_body. rewrite bind_get, (content_length_fields p u) by done.
    pose proof (http_body_length u Hu) as [_ Hlen]. destruct (http_body u) as [|b body] eqn:Eb.
    - unfold message_parser. by rewrite Eb.
    - rewrite (proj2 (Z.eqb_neq _ 0)) by (unfold blen; simpl; lia). rewrite <-Eb in Hlen |- *.
      cbn [current_ p]. change (blen []) with 0. rewrite Z.sub_0_r, wrap_small by (split; [apply blen_nonneg|done]).
      rewrite Z.min_l by (rewrite blen_app; pose proof (blen_nonneg rest); lia).
      replace (Z.to_nat (blen (http_body u))) with (length (http_body u)) by (unfold blen; lia).
      rewrite take_app_length, drop_app_length. cbn [app]. by rewrite Z.eqb_refl. }
  rewrite (bind_ok _ _ _ _ _ Hbody). unfold ret. do 2 f_equal. rewrite length_app. lia.
Qed.

Lemma get_unsigned_assoc u k n d : assoc k (http_fields u) = Some (decimal n) → in_word 32 n →
  get_unsigned (message_parser u) k d = Ok n.
Proof.
  intros Hk [Hn Hn']. unfold get_unsigned. rewrite message_field, Hk. unfold to_unsigned.
  rewrite cast_decimal by done. by rewrite (proj2 (Z.ltb_lt _ _)).
Qed.

Lemma get_unsigned_none u k d : assoc k (http_fields u) = None →
  get_unsigned (message_parser u) k d = Ok d.
Proof. intros Hk. unfold get_unsigned. by rewrite message_field, Hk. Qed.

(** The conversion of what was read gives the unit that was sent, as far as it
    is carried. *)
Lemma http2lowlevel_message u : http_ok u →
  http2lowlevel (message_parser u) unit_empty = (Ok true, carried u).
Proof.
  intros Hu. unfold http2lowlevel.
  assert (∃ w ws, http_words u = w :: ws ∧ bool_decide (w = string_bytes "GET") = is_call u)
    as (w & ws & Hw & Hget).
  { unfold http_words. destruct (is_call u); eauto. }
  cbn [method_ message_parser]. rewrite Hw. unfold bind at 1, ret at 1. rewrite Hget.
  pose proof (flags_range (u_opt u)) as Hf.
  rewrite (get_unsigned_assoc u (string_bytes "X-VTRC-Type") (u_message_type u)); [|reflexivity|by apply ok_type].
  rewrite (get_unsigned_assoc u (string_bytes "X-VTRC-Options") (opt2flags (u_opt u))); [|reflexivity|unfold in_word; lia].
  unfold has_field, field. rewrite !message_field. cbn [current_ message_parser].
  unfold carried, is_call. destruct (has_error u) eqn:Ee.
  - destruct (ok_error u Hu Ee) as (Hc & Hcat & _).
    assert (Hnone : ∀ k, k = string_bytes "X-VTRC-Id" ∨ k = string_bytes "X-VTRC-Tid" → assoc k (http_fields u) = None).
    { intros k Hk. unfold http_fields. rewrite Ee. by destruct Hk as [-> | ->]. }
    rewrite (get_unsigned_none u (string_bytes "X-VTRC-Id")), (get_unsigned_none u (string_bytes "X-VTRC-Tid")) by auto.
    rewrite (get_unsigned_assoc u (string_bytes "X-VTRC-Error") (default 0 (c_code (u_error u))));
      [|unfold http_fields; by rewrite Ee|done].
    rewrite (get_unsigned_assoc u (string_bytes "X-VTRC-Category") (default 0 (c_category (u_error u))));
      [|unfold http_fields; by rewrite Ee|done].
    replace (assoc (string_bytes "X-VTRC-Error") (http_fields u)) with
      (Some (decimal (default 0 (c_code (u_error u))))) by (unfold http_fields; by rewrite Ee).
    replace (assoc (string_bytes "X-VTRC-Message") (http_fields u)) with
      (Some (string_bytes (default ""%string (c_additional (u_error u)))))
      by (unfold http_fields; by rewrite Ee).
    rewrite andb_false_r. cbn -[flags2opt opt2flags bytes_string string_bytes path_to_service]. by rewrite flags_back, bytes_string_bytes.
  - destruct (ok_ids u Hu Ee) as [Hid Htid]. destruct (ok_data u Hu Ee) as [Hdata _].
    rewrite (get_unsigned_assoc u (string_bytes "X-VTRC-Id") (u_id u)); [|unfold http_fields; by rewrite Ee|done].
    rewrite (get_unsigned_assoc u (string_bytes "X-VTRC-Tid") (u_target_id u)); [|unfold http_fields; by rewrite Ee|done].
    replace (assoc (string_bytes "X-VTRC-Error") (http_fields u)) with (@None bytes)
      by (unfold http_fields; by rewrite Ee).
    unfold http_body. rewrite Ee, hex2bin_bin2hex by done. unfold http_words, is_call in Hw. rewrite Ee in Hw.
    destruct (has_call u) eqn:Ec; cbn [andb negb] in *.
    + destruct (ok_call u Hu Ee Ec) as (Hs & Hl & Hm & Hdot & Hne).
      destruct (path_back _ _ Hs Hl Hm Hdot) as (path & Hp1 & Hp2).
      { intros Hm'. apply Hne. rewrite <-(bytes_string_bytes (u_method_id u)), Hm'. done. }
      injection Hw as <- <-. rewrite Hp1. unfold bind, lift, ret, modify. rewrite Hp2.
      cbn -[flags2opt opt2flags bytes_string string_bytes path_to_service]. by rewrite flags_back, !bytes_string_bytes.
    + cbn -[flags2opt opt2flags bytes_string string_bytes path_to_service]. by rewrite flags_back.
Qed.

(** *** One byte, then the others *)

Lemma push_body_spec l p len :
  content_length p = Ok len → blen (current_ p) < len < 2 ^ 64 →
  let n := Z.to_nat (len - blen (current_ p)) in
  push_body l p = (Ok (drop n l),
    set_ready (blen (current_ p ++ take n l) =? len) (set_current (current_ p ++ take n l) p)).
Proof.
  intros Hl Hc n. pose proof (blen_nonneg (current_ p)). unfold push_body. rewrite bind_get, Hl.
  rewrite (proj2 (Z.eqb_neq len 0)) by lia. rewrite wrap_small by (unfold in_word; lia).
  assert (take (Z.to_nat ((len - blen (current_ p)) `min` blen l)) l = take n l ∧
    drop (Z.to_nat ((len - blen (current_ p)) `min` blen l)) l = drop n l) as [Ht Hd].
  { destruct (decide (len - blen (current_ p) ≤ blen l)); [by rewrite Z.min_l|].
    rewrite Z.min_r by lia. unfold blen in *. rewrite Nat2Z.id.
    rewrite !take_ge, !drop_ge by lia. done. }
  by rewrite Ht, Hd.
Qed.

Lemma push_header_length l p : (length (push_header l p).1 ≤ length l)%nat.
Proof.
  revert p. induction l as [|c l IH]; intros p; simpl; [lia|]. destruct (header_ready_ p); simpl; [lia|].
  specialize (IH (header_char c p)). lia.
Qed.

Lemma header_char_ready c p : ready_ (header_char c p) = ready_ p.
Proof.
  unfold header_char. destruct (c =? CR), (c =? LF); [done..| |done].
  by destruct (current_ p), (method_ p).
Qed.

Lemma header_char_done c p : header_ready_ p = false → header_ready_ (header_char c p) = true →
  current_ (header_char c p) = [].
Proof.
  intros Hp. unfold header_char. destruct (c =? CR), (c =? LF); cbn; congruence.
Qed.

(** What [push] does with the data, by the state of the parser. *)
Lemma push_in_body l p : header_ready_ p = true → ready_ p = false →
  push l p = (let* b := push_body l in ret (length l - length b)%nat) p.
Proof. intros Hh Hr. unfold push. rewrite bind_get, Hh. unfold bind at 1, put. by rewrite Hh, Hr. Qed.

Lemma push_in_header c l p : header_ready_ p = false → ready_ p = false →
  push (c :: l) p =
    let p1 := header_char c p in
    if header_ready_ p1 then (let* b := push_body l in ret (S (length l) - length b)%nat) p1
    else match push l p1 with (Ok r, p') => (Ok (S r), p') | (Raise e, p') => (Raise e, p') end.
Proof.
  intros Hh Hr. unfold push at 1. rewrite bind_get, Hh. cbn [push_header]. rewrite Hh.
  pose proof (header_char_ready c p) as Hr1. rewrite Hr in Hr1.
  destruct (header_ready_ (header_char c p)) eqn:Eh.
  - assert (push_header l (header_char c p) = (l, header_char c p)) as ->
      by (destruct l; cbn [push_header]; by rewrite ?Eh).
    change (bind (put ?x) ?k ?y) with (k tt x). cbn beta. by rewrite Eh, Hr1.
  - unfold push. rewrite bind_get, Eh. pose proof (push_header_length l (header_char c p)) as Hlen.
    destruct (push_header l (header_char c p)) as [b p2] eqn:Ep. simpl in Hlen.
    unfold bind at 1, put. unfold bind at 2, put. destruct (_ && _).
    + unfold bind. destruct (push_body b p2) as [[b'|e] p3] eqn:Eb; [|done].
      unfold ret. do 2 f_equal. cbn [length].
      assert (length b' ≤ length b)%nat; [|lia].
      clear -Eb. unfold push_body in Eb. rewrite bind_get in Eb. destruct (content_length p2); [|done].
      destruct (_ =? 0); unfold bind, put, ret in Eb; injection Eb as <- _; [lia|]. rewrite length_drop. lia.
    + unfold bind, ret. do 2 f_equal. cbn [length]. lia.
Qed.

Lemma content_length_outcome p :
  match content_length p with Ok len => in_word 64 len | Raise e => e = bad_lexical_cast end.
Proof.
  unfold content_length, to_unsigned. destruct (cont_ p !! _); [|done].
  destruct (lexical_cast 64 _) eqn:E; [|done]. by apply cast_range in E.
Qed.

(** The result of the rest of the data, after one byte was taken. *)
Definition then_push (l : bytes) (r : res nat * header_parser) : res nat * header_parser :=
  match r with
  | (Raise e, p) => (Raise e, p)
  | (Ok _, p) =>
      if ready_ p then (Ok 1%nat, p)
      else match push l p with (Ok r, p') => (Ok (S r), p') | (Raise e, p') => (Raise e, p') end
  end.
Definition one_byte (r : res nat * header_parser) : Prop :=
  match r with
  | (Ok n, p) => n = 1%nat ∧
      (ready_ p = true ∨ in_progress p ∧ (header_ready_ p = true → ∃ len, content_length p = Ok len))
  | (Raise e, p) => e = bad_lexical_cast ∧ in_progress p
  end.

Lemma push_nil p : in_progress p → (header_ready_ p = true → ∃ len, content_length p = Ok len) →
  push [] p = (Ok O, p).
Proof.
  intros [Hr Hp] Hlen. unfold push. rewrite bind_get.
  destruct (header_ready_ p) eqn:Eh; cbn [push_header].
  - destruct (Hlen eq_refl) as [len Hl]. specialize (Hp eq_refl). rewrite Hl in Hp.
    unfold bind at 1, put. rewrite Eh, Hr. cbn [andb negb]. unfold bind.
    rewrite (push_body_spec [] p len) by done. rewrite take_nil, drop_nil, app_nil_r.
    rewrite (proj2 (Z.eqb_neq _ len)) by lia. by destruct p; cbn in *; subst.
  - unfold bind at 1, put. by rewrite Eh.
Qed.

Lemma push_cons_body c l p : in_progress p → header_ready_ p = true →
  one_byte (push [c] p) ∧ push (c :: l) p = then_push l (push [c] p).
Proof.
  intros [Hr Hp] Hh. specialize (Hp Hh). rewrite !push_in_body by done.
  destruct (content_length p) as [len|e] eqn:El.
  2:{ unfold bind, push_body. rewrite !bind_get, !El. subst. split; [|done]. split; [done|].
      split; [done|]. by rewrite El. }
  unfold bind. rewrite !(push_body_spec _ p len) by done.
  destruct (Z.to_nat (len - blen (current_ p))) as [|n] eqn:En; [lia|].
  cbn [take drop]. rewrite take_nil, drop_nil. unfold ret. cbn [one_byte then_push length].
  set (p' := set_ready _ (set_current (current_ p ++ [c]) p)).
  assert (Hb : blen (current_ p ++ [c]) = blen (current_ p) + 1) by apply blen_app.
  change (ready_ p') with (blen (current_ p ++ [c]) =? len).
  destruct (blen (current_ p ++ [c]) =? len) eqn:E; bool_props.
  - replace n with O by lia. rewrite take_0, drop_0. unfold p'. rewrite E, Z.eqb_refl.
    split; [by auto|]. do 2 f_equal. lia.
  - assert (Hip : in_progress p').
    { split; [done|]. intros _. unfold p'. cbn. change (content_length (set_ready _ _)) with (content_length p).
      rewrite El. lia. }
    split; [by split; [done|right; split; [done|exists len]]|].
    rewrite push_in_body by (done || apply Hip). unfold bind.
    rewrite (push_body_spec l p' len); [|done|unfold p'; cbn; lia].
    replace (Z.to_nat (len - blen (current_ p'))) with n by (unfold p'; cbn; lia).
    unfold ret, p'. cbn. rewrite <-(assoc_L (++)). do 2 f_equal. rewrite length_drop. lia.
Qed.

Lemma push_cons c l p : in_progress p →
  one_byte (push [c] p) ∧ push (c :: l) p = then_push l (push [c] p).
Proof.
  intros Hip. destruct (header_ready_ p) eqn:Hh; [by apply push_cons_body|].
  destruct Hip as [Hr _]. rewrite !push_in_header by done. cbv zeta.
  pose proof (header_char_ready c p) as Hr1. rewrite Hr in Hr1.
  pose proof (header_char_done c p Hh) as Hc1.
  set (p1 := header_char c p) in *. destruct (header_ready_ p1) eqn:Eh.
  - specialize (Hc1 eq_refl). pose proof (content_length_outcome p1) as Hout. unfold bind.
    assert (Hpb : ∀ k, push_body k p1 = match content_length p1 with
        | Ok 0 => (Ok k, set_ready true p1)
        | Ok len => (Ok (drop (Z.to_nat len) k),
            set_ready (blen (take (Z.to_nat len) k) =? len) (set_current (take (Z.to_nat len) k) p1))
        | Raise e => (Raise e, p1) end).
    { intros k. destruct (content_length p1) as [len|e] eqn:El.
      - destruct (decide (len = 0)) as [->|].
        + unfold push_body. by rewrite bind_get, El.
        + rewrite (push_body_spec k p1 len); [|done|rewrite Hc1; change (blen (@nil Z)) with 0; unfold in_word in Hout; lia].
          rewrite Hc1. change (blen []) with 0. rewrite Z.sub_0_r. by destruct len.
      - unfold push_body. by rewrite bind_get, El. }
    rewrite !Hpb. destruct (content_length p1) as [len|e] eqn:El.
    2:{ split; [|done]. split; [done|]. split; [done|]. by rewrite El. }
    destruct (decide (len = 0)) as [->|Hne].
    { unfold ret, then_push, one_byte. cbn [ready_ set_ready length]. split; [by auto|]. do 2 f_equal. lia. }
    assert (Hp1 : set_current [] p1 = p1) by (destruct p1; cbn in *; by subst).
    assert (Hip : in_progress p1).
    { split; [done|]. intros _. rewrite El, Hc1. change (blen (@nil Z)) with 0. unfold in_word in Hout. lia. }
    assert (set_ready false p1 = p1) as Hr' by (destruct p1; cbn in *; by subst).
    unfold ret, then_push, one_byte. rewrite take_nil, drop_nil, Hp1.
    change (blen []) with 0. rewrite (proj2 (Z.eqb_neq 0 len)) by done. rewrite Hr'.
    destruct len as [|len|len]; [done| |unfold in_word in Hout; lia]; cbn [length]; rewrite Hr1;
      (split; [by eauto 6|]); rewrite push_in_body by done; unfold bind; rewrite Hpb;
      unfold ret; do 2 f_equal; rewrite length_drop; lia.
  - assert (Hip : in_progress p1) by (split; [done|by rewrite Eh]).
    rewrite push_nil by (done || by rewrite Eh). split; [split; [done|right; split; [done|by rewrite Eh]]|]. unfold then_push. by rewrite Hr1.
Qed.

(** *** The loop is the byte-at-a-time parser *)

Lemma new_in_progress : in_progress header_parser_new.
Proof. by split. Qed.

Definition outcome (e : option exn) (ok : bool) : res bool :=
  match e with Some e => Raise e | None => Ok ok end.
Definition not_empty {A} (l : list A) : bool := match l with [] => false | _ :: _ => true end.

Lemma process_loop_feed data fuel ok pa k p :
  in_progress p → (length data ≤ fuel)%nat →
  process_loop fuel data ok (HttpLowlevel pa k (Some p)) =
    (outcome (feed data p).2 (ok || not_empty (feed data p).1.1),
     HttpLowlevel pa (k ++ (feed data p).1.1) (Some (feed data p).1.2)).
Proof.
  revert fuel ok k p. induction data as [|c l IH]; intros fuel ok k p Hp Hf.
  { destruct fuel; simpl; by rewrite app_nil_r, orb_false_r. }
  destruct fuel as [|f]; simpl in Hf; [lia|]. destruct (push_cons c l p Hp) as [H1 Hpush].
  assert (Hturn : process_loop (S f) (c :: l) ok (HttpLowlevel pa k (Some p)) =
    match then_push l (push [c] p) with
    | (Raise e, p') => (Raise e, HttpLowlevel pa k (Some p'))
    | (Ok r, p') =>
        if ready_ p' then process_loop f (drop r (c :: l)) true (HttpLowlevel pa (k ++ [p']) (Some header_parser_new))
        else process_loop f (drop r (c :: l)) ok (HttpLowlevel pa k (Some p'))
    end).
  { rewrite <-Hpush. cbn [process_loop]. unfold bind at 1, on_current at 1. cbn [current_header_].
    destruct (push (c :: l) p) as [[r|e] p']; [|done]. cbn. by destruct (ready_ p'). }
  rewrite Hturn. clear Hturn Hpush. cbn [feed]. destruct (push [c] p) as [[n|e] p1]; cbn [then_push].
  2:{ cbn. by rewrite app_nil_r. }
  destruct H1 as [-> H1]. destruct (ready_ p1) eqn:Er.
  - rewrite Er. cbn [drop]. rewrite IH by (done || apply new_in_progress || lia).
    destruct (feed l header_parser_new) as [[ms p'] e]. cbn. by rewrite <-(assoc_L (++)), !orb_true_r.
  - destruct H1 as [|[H1 Hlen]]; [done|]. destruct l as [|c' l'].
    { rewrite push_nil by done. rewrite Er. destruct f; cbn; by rewrite app_nil_r, orb_false_r. }
    rewrite <-(IH (S f)) by (done || lia). cbn [process_loop]. unfold bind at 1, on_current at 1. cbn [current_header_].
    destruct (push (c' :: l') p1) as [[r|e] p2]; [|done]. cbn. by destruct (ready_ p2).
Qed.

Lemma feed_in_progress data p : in_progress p → in_progress (feed data p).1.2.
Proof.
  revert p. induction data as [|c l IH]; intros p Hp; [done|]. cbn [feed].
  destruct (push_cons c [] p Hp) as [H1 _]. destruct (push [c] p) as [[n|e] p1]; [|by destruct H1].
  destruct H1 as [_ [Hr|[H1 _]]].
  - rewrite Hr. specialize (IH header_parser_new new_in_progress).
    by destruct (feed l header_parser_new) as [[ms p'] e].
  - destruct (ready_ p1) eqn:Er; [|by apply IH]. by destruct H1 as [[=] _]; rewrite Er in *.
Qed.

Lemma feed_error data p e : in_progress p → (feed data p).2 = Some e → e = bad_lexical_cast.
Proof.
  revert p. induction data as [|c l IH]; intros p Hp; [done|]. cbn [feed].
  destruct (push_cons c [] p Hp) as [H1 _]. destruct (push [c] p) as [[n|e'] p1]; cbn.
  2:{ destruct H1 as [-> _]. congruence. }
  destruct H1 as [_ H1]. destruct (ready_ p1) eqn:Er.
  - specialize (IH header_parser_new new_in_progress).
    by destruct (feed l header_parser_new) as [[ms p'] e'].
  - destruct H1 as [|[H1 _]]; [done|]. by apply IH.
Qed.

(** The data may be cut anywhere; what comes after an exception is not looked at. *)
Lemma feed_app d1 d2 p :
  feed (d1 ++ d2) p =
    let '(ms1, p1, e1) := feed d1 p in
    match e1 with
    | Some e => (ms1, p1, Some e)
    | None => let '(ms2, p2, e2) := feed d2 p1 in (ms1 ++ ms2, p2, e2)
    end.
Proof.
  revert p. induction d1 as [|c l IH]; intros p; cbn [app feed].
  - by destruct (feed d2 p) as [[ms p'] e].
  - destruct (push [c] p) as [[n|e] p1]; [|done]. destruct (ready_ p1); [|apply IH].
    rewrite IH. destruct (feed l header_parser_new) as [[ms p'] [e|]]; [done|].
    by destruct (feed d2 p') as [[ms2 p2] e2].
Qed.

Lemma feed_push data p r p' :
  in_progress p → push data p = (Ok r, p') → ready_ p' = true →
  feed data p = let '(ms, p2, e) := feed (drop r data) header_parser_new in (p' :: ms, p2, e).
Proof.
  revert p r. induction data as [|c l IH]; intros p r Hp Hpush Hr.
  - exfalso. pose proof Hp as [Hrp Hb].
    destruct (header_ready_ p) eqn:Eh; [specialize (Hb eq_refl)|].
    + destruct (content_length p) as [len|e] eqn:El.
      * rewrite push_nil in Hpush by (done || eauto). congruence.
      * rewrite push_in_body in Hpush by done. unfold bind, push_body in Hpush.
        by rewrite bind_get, El in Hpush.
    + rewrite push_nil in Hpush by (done || by rewrite Eh). congruence.
  - destruct (push_cons c l p Hp) as [H1 Heq]. rewrite Hpush in Heq. cbn [feed].
    destruct (push [c] p) as [[n|e] p1]; [|done]. destruct H1 as [-> H1]. cbn [then_push] in Heq.
    destruct (ready_ p1) eqn:Er; [by injection Heq as -> ->|].
    destruct H1 as [|[H1 _]]; [done|]. destruct (push l p1) as [[r'|e] p2] eqn:Ep; [|done].
    injection Heq as -> ->. cbn [drop]. by apply IH.
Qed.

Lemma feed_messages us : Forall http_ok us →
  feed (concat (lowlevel2http <$> us)) header_parser_new = (message_parser <$> us, header_parser_new, None).
Proof.
  induction 1 as [|u us Hu _ IH]; [done|]. rewrite fmap_cons. cbn [concat].
  erewrite feed_push; [|apply new_in_progress|by apply push_message|done].
  by rewrite drop_app_length, IH.
Qed.

(** *** The receiving end *)

(** After [init], between two messages. *)
Definition connected (p : header_parser) : http_lowlevel := HttpLowlevel true [] (Some p).

Lemma drain_messages us pa c log : Forall http_ok us →
  drain (length us) (Receiver (HttpLowlevel pa (message_parser <$> us) c) log) =
    (Ok tt, Receiver (HttpLowlevel pa [] c) (log ++ ((λ u, (true, carried u)) <$> us))).
Proof.
  intros Hus. revert log. induction Hus as [|u us Hu _ IH]; intros log; [by rewrite app_nil_r|].
  rewrite !fmap_cons. cbn [length drain]. unfold bind at 1, on_http at 1, pop_proto_message.
  cbn [http receiver_http rc_http container_]. rewrite http2lowlevel_message by done.
  unfold bind, modify. cbn -[carried fmap]. rewrite IH. by rewrite <-(assoc_L (++)).
Qed.

Lemma process_data_messages d p us p' log :
  in_progress p → feed d p = (message_parser <$> us, p', None) → Forall http_ok us →
  process_data drain_all d (Receiver (connected p) log) =
    (Ok tt, Receiver (connected p') (log ++ ((λ u, (true, carried u)) <$> us))).
Proof.
  intros Hp Hf Hus. unfold process_data, connected. unfold bind at 1, on_http.
  cbn [http receiver_http rc_http]. rewrite process_loop_feed by done. rewrite Hf. cbn [fst snd outcome orb app].
  destruct us as [|u us].
  - cbn. by rewrite app_nil_r.
  - cbn [not_empty fmap list_fmap]. unfold bind, get. cbn [http receiver_http rc_http pa_ set_http rc_log].
    unfold drain_all. cbn [rc_http container_]. rewrite <-(drain_messages (u :: us)) by done.
    cbn [length]. by rewrite length_fmap.
Qed.

Lemma receive_all_messages ds p us p' log :
  in_progress p → feed (concat ds) p = (message_parser <$> us, p', None) → Forall http_ok us →
  receive_all ds (Receiver (connected p) log) =
    (Ok tt, Receiver (connected p') (log ++ ((λ u, (true, carried u)) <$> us))).
Proof.
  revert p us log. induction ds as [|d ds IH]; intros p us log Hp Hf Hus.
  { simpl in Hf. injection Hf as Hf <-. symmetry in Hf. apply fmap_nil_inv in Hf as ->. by rewrite app_nil_r. }
  cbn [concat] in Hf. rewrite feed_app in Hf. cbn [receive_all].
  pose proof (feed_in_progress d p Hp) as Hp1.
  destruct (feed d p) as [[ms1 p1] [e|]] eqn:E1; [done|].
  destruct (feed (concat ds) p1) as [[ms2 p2] e2] eqn:E2. injection Hf as Hms -> ->.
  symmetry in Hms. apply fmap_app_inv in Hms as (us1 & us2 & -> & -> & ->).
  apply Forall_app in Hus as [Hus1 Hus2].
  erewrite bind_ok by (by apply process_data_messages).
  erewrite IH by done. by rewrite fmap_app, (assoc_L (++)).
Qed.

(** *** What makes the conversion undefined *)

Lemma last_point_some l i o n :
  last_point l i o = Some n → (o = Some n ∨ ∃ j, n = (i + j)%nat ∧ l !! j = Some 46).
Proof.
  revert i o. induction l as [|b l IH]; intros i o; simpl; [by left|].
  intros Hl. apply IH in Hl as [Hl|(j & -> & Hj)].
  - destruct (b =? 46) eqn:E; [|by left]. bool_props. subst. right. exists O. simplify_eq. split; [lia|done].
  - right. exists (S j). split; [lia|done].
Qed.

Lemma last_point_max l i o j : l !! j = Some 46 → ∃ n, last_point l i o = Some n ∧ (i + j ≤ n)%nat.
Proof.
  revert i o j. induction l as [|b l IH]; intros i o j Hj; [done|]. simpl. destruct j as [|j].
  - simpl in Hj. simplify_eq. cbn. destruct (decide (46 ∈ l)) as [Hin|Hin].
    + apply list_elem_of_lookup in Hin as [j Hj]. destruct (IH (S i) (Some i) j Hj) as (n & -> & Hn).
      exists n. split; [done|lia].
    + rewrite last_point_none by done. exists i. split; [done|lia].
  - destruct (IH (S i) (if b =? 46 then Some i else o) j Hj) as (n & -> & Hn). exists n. split; [done|lia].
Qed.

(** A path names a service and a method when, read with points, there is a point
    after its first character. *)
Definition path_ok (path : bytes) : Prop :=
  ∃ q i, replace_path path 47 46 = Ok q ∧ (0 < i)%nat ∧ q !! i = Some 46.

Lemma path_ok_iff path : path_ok path ↔
  ∃ q sp, replace_path path 47 46 = Ok q ∧ path_to_service q = Ok sp.
Proof.
  unfold path_to_service. split.
  - intros (q & i & Hq & Hi & Hpt). destruct (last_point_max q 0 None i Hpt) as ([|n] & Hn & ?); [lia|].
    exists q. rewrite Hn. eauto.
  - intros (q & sp & Hq & Hsp). destruct (last_point q 0 None) as [[|n]|] eqn:E; [done| |done].
    apply last_point_some in E as [|(j & Hn & Hj)]; [done|]. exists q, j. split_and!; [done|lia|done].
Qed.

(** The numbers of the header that are read before the path. *)
Definition numbers_ok (p : header_parser) : Prop :=
  Forall (λ k, ∃ n, get_unsigned p (string_bytes k) 0 = Ok n)
    ["X-VTRC-Type"; "X-VTRC-Id"; "X-VTRC-Tid"; "X-VTRC-Options"]%string.

Lemma get_unsigned_outcome p k d :
  (∃ n, get_unsigned p k 0 = Ok n ∧ ∃ m, get_unsigned p k d = Ok m) ∨
  get_unsigned p k 0 = Raise bad_lexical_cast ∧ get_unsigned p k d = Raise bad_lexical_cast.
Proof.
  unfold get_unsigned, to_unsigned. destruct (cont_ p !! k); [|by eauto].
  destruct (lexical_cast 32 _); [left|right]; eauto.
Qed.

(** The conversion stops at its first number that cannot be read. *)
Lemma numbers_step p k d (m : Z → M lowlevel_unit bool) u :
  (∃ n, get_unsigned p k 0 = Ok n ∧ ∃ x, (let* y := lift (get_unsigned p k d) in m y) u = m x u) ∨
  get_unsigned p k 0 = Raise bad_lexical_cast ∧
    (let* y := lift (get_unsigned p k d) in m y) u = (Raise bad_lexical_cast, u).
Proof.
  destruct (get_unsigned_outcome p k d) as [(n & Hn & x & Hx)|[Hn Hx]]; rewrite Hx; [left|right]; eauto.
Qed.

(** Undefined behaviour as a predicate on outcomes. *)
Definition undefined {A} (r : res A) : Prop := ∃ w, r = Raise (EUndefined w).

Lemma call_undefined p ms u :
  undefined (((match ms with
     | path :: _ =>
         let* path := lift (replace_path path 47 46) in
         let* sp := lift (path_to_service path) in
         modify (set_call (Some (CallInfo (Some (bytes_string sp.1)) (Some (bytes_string sp.2)))))
     | [] => ret tt
     end ;;; modify (set_request (Some (hex2bin (current_ p))))) ;;; ret true) u).1 ↔
  ∃ path rest, ms = path :: rest ∧ ¬ path_ok path.
Proof.
  destruct ms as [|path rest].
  { split; [by intros [? [=]]|by intros (? & ? & [=] & _)]. }
  transitivity (¬ path_ok path).
  2:{ split; [by eauto|]. by intros (? & ? & [= -> ->] & ?). }
  rewrite path_ok_iff. unfold undefined, bind, lift.
  destruct (replace_path path 47 46) as [q|e] eqn:Eq.
  - unfold ret at 1. destruct (path_to_service q) as [sp|e] eqn:Esp.
    + split; [by intros [? [=]]|]. intros Hn. exfalso. apply Hn. eauto.
    + split; [intros _ (q' & sp & [= <-] & Hsp); congruence|]. intros _.
      unfold path_to_service in Esp. destruct (last_point q 0 None) as [[|]|]; simplify_eq; cbn; eauto.
  - split; [by intros _ (q' & sp & [=] & _)|]. intros _.
    unfold replace_path in Eq. destruct (last path); simplify_eq; cbn; eauto.
Qed.

(** One number of the header: it is read, or both sides are false. *)
Ltac number_step :=
  match goal with |- context [bind (lift (get_unsigned ?p ?k ?d)) ?m ?u] =>
    let n := fresh "n" in let Hn := fresh "Hn" in let Hx := fresh "Hx" in
    destruct (numbers_step p k d m u) as [(n & Hn & ? & Hx)|[Hn Hx]]; rewrite Hx; clear Hx;
    [rewrite bind_modify
    |split; [by intros [? [=]]|]; intros [(? & ? & ? & ? & _) _]; destruct_and?;
     repeat match goal with H : ∃ _, _ |- _ => destruct H end; congruence]
  end.

Lemma http2lowlevel_undefined p u :
  undefined (http2lowlevel p u).1 ↔
    method_ p = [] ∨
    numbers_ok p ∧ has_field p (string_bytes "X-VTRC-Error") = false ∧
    ∃ path rest, method_ p = string_bytes "GET" :: path :: rest ∧ ¬ path_ok path.
Proof.
  unfold http2lowlevel. destruct (method_ p) as [|m ms] eqn:Em.
  { split; [by left|]. intros _. by eexists. }
  rewrite <-Em. unfold bind at 1, ret at 1.
  transitivity (numbers_ok p ∧ has_field p (string_bytes "X-VTRC-Error") = false ∧
    ∃ path rest, m :: ms = string_bytes "GET" :: path :: rest ∧ ¬ path_ok path).
  2:{ rewrite Em. split; [by right|]. by intros [[=]|?]. }
  unfold numbers_ok. rewrite !Forall_cons, Forall_nil.
  number_step. number_step. number_step. number_step.
  destruct (has_field p (string_bytes "X-VTRC-Error")).
  { split; [|by intros (_ & [=] & _)]. intros [w Hw]. exfalso. revert Hw. unfold bind, lift.
    destruct (get_unsigned_outcome p (string_bytes "X-VTRC-Error") 0) as [(? & -> & _)|[-> _]]; [|done].
    unfold ret, modify, raise. by destruct (get_unsigned_outcome p (string_bytes "X-VTRC-Category") 0) as [(? & -> & _)|[-> _]]. }
  case_bool_decide as Hget.
  - rewrite (call_undefined p ms). subst m. split.
    + intros (path & rest & -> & Hbad). split_and!; eauto 6.
    + intros (_ & _ & path & rest & [= ->] & Hbad). eauto.
  - split; [by intros [? [=]]|]. intros (_ & _ & path & rest & [= -> _] & _). done.
Qed.
End Framing.

(** ** A concrete conversion

    Digits only; it shows that the laws can hold and lets the witnesses run. *)

Definition digit (c : Z) : option (Decimal.uint → Decimal.uint) :=
  match c with
  | 48 => Some Decimal.D0 | 49 => Some Decimal.D1 | 50 => Some Decimal.D2 | 51 => Some Decimal.D3
  | 52 => Some Decimal.D4 | 53 => Some Decimal.D5 | 54 => Some Decimal.D6 | 55 => Some Decimal.D7
  | 56 => Some Decimal.D8 | 57 => Some Decimal.D9 | _ => None
  end.
Fixpoint bytes_uint (b : bytes) : option Decimal.uint :=
  match b with
  | [] => Some Decimal.Nil
  | c :: b => f ← digit c; d ← bytes_uint b; Some (f d)
  end.
Definition digits_cast : LexicalCast := λ w b,
  d ← bytes_uint b;
  let n := Z.of_N (N.of_uint d) in
  if n <? 2 ^ w then Some n else None.

Lemma bytes_uint_bytes d : bytes_uint (uint_bytes d) = Some d.
Proof. induction d as [|d IH|d IH|d IH|d IH|d IH|d IH|d IH|d IH|d IH|d IH]; [done|..]; simpl; by rewrite IH. Qed.

Lemma digits_cast_laws : LexicalCastLaws (L := digits_cast).
Proof.
  split; unfold lexical_cast, digits_cast.
  - intros w n Hn. unfold decimal. rewrite bytes_uint_bytes. simpl.
    rewrite DecimalN.Unsigned.of_to, Z2N.id by done. done.
  - intros w b n Hb. destruct (bytes_uint b) as [d|]; [|done]. simpl in Hb.
    destruct (_ <? _) eqn:E; [|done]. bool_props. injection Hb as <-. split; [lia|done].
Qed.

(** ** Properties *)

Section Properties.
Context {L : LexicalCast} `{!LexicalCastLaws}.

(** C33 (roundtrip).  The HTTP framing delivers what is sent: the messages of any
    units it can carry, however the transport cuts the bytes, are parsed, popped and
    converted in order, each to what the framing carries of its unit (the ids are not
    part of an error), and the parser is ready for the next message. *)
Theorem http_framing us ds :
  Forall http_ok us → concat ds = concat (serialize_lowlevel <$> us) →
  receive_all ds (Receiver (connected header_parser_new) []) =
    (Ok tt, Receiver (connected header_parser_new) ((λ u, (true, carried u)) <$> us)).
Proof.
  intros Hus Hds. change ((λ u, (true, carried u)) <$> us) with ([] ++ ((λ u, (true, carried u)) <$> us)).
  apply receive_all_messages; [apply new_in_progress| |done]. rewrite Hds. by apply feed_messages.
Qed.

(** Whatever bytes arrive, the loop of [process_data] ends: it
    leaves the parsers that reading one byte after the other completes, so that how the
    bytes are cut does not matter ([feed_app]); the only exception is a length that is
    not a number, and the callback runs exactly when something is complete. *)
Theorem http_parser_total (message_ready : M http_lowlevel unit) data k p :
  in_progress p →
  ∃ ms p' e, feed data p = (ms, p', e) ∧ in_progress p' ∧
    process_data message_ready data (HttpLowlevel true k (Some p)) =
      (let h' := HttpLowlevel true (k ++ ms) (Some p') in
       match e, ms with
       | Some e, _ => (Raise e, h')
       | None, [] => (Ok tt, h')
       | None, _ :: _ => message_ready h'
       end) ∧ (e = None ∨ e = Some bad_lexical_cast).
Proof.
  intros Hp. pose proof (feed_in_progress data p Hp) as Hp'. pose proof (feed_error data p) as He.
  destruct (feed data p) as [[ms p'] e] eqn:Ef. exists ms, p', e. split_and!; [done|done| |].
  - unfold process_data. unfold bind at 1, on_http. cbn [http http_itself].
    rewrite process_loop_feed by done. rewrite Ef. by destruct e as [e|], ms as [|m ms].
  - destruct e as [e|]; [right|by left]. f_equal. by apply He.
Qed.

(** C36 (error).  Popping a message is undefined exactly when there is none, when its
    first line was empty, or when it is a request without an error whose numbers can be
    read and whose path does not name a service and a method; on every other input it
    returns or throws.  All of this is up to the peer. *)
Theorem pop_undefined h u :
  undefined (pop_proto_message u h).1 ↔
    match container_ h with
    | [] => True
    | p :: _ =>
        method_ p = [] ∨
        numbers_ok p ∧ has_field p (string_bytes "X-VTRC-Error") = false ∧
        ∃ path rest, method_ p = string_bytes "GET" :: path :: rest ∧ ¬ path_ok path
    end.
Proof.
  unfold pop_proto_message. destruct (container_ h) as [|p ms].
  - split; [done|]. intros _. by eexists.
  - rewrite <-(http2lowlevel_undefined p u). destruct (http2lowlevel p u) as [[r|e] u'];
      split; intros [w [=]]; subst; by exists w.
Qed.

(** A number of the sender that does not fit: the message stays where it is, and
    so does everything behind it. *)
Lemma wide_id_stuck u r pa ms c :
  has_error u = false → in_word 32 (u_message_type u) → 2 ^ 32 ≤ u_id u →
  let h := HttpLowlevel pa (message_parser u :: ms) c in
  pop_proto_message r h = (Raise bad_lexical_cast, h).
Proof.
  intros He Ht Hid h. unfold pop_proto_message, h. cbn [container_].
  assert (∃ w ws, method_ (message_parser u) = w :: ws) as (w & ws & Hw).
  { cbn. unfold http_words. destruct (is_call u); eauto. }
  assert (Hg : get_unsigned (message_parser u) (string_bytes "X-VTRC-Id") 0 = Raise bad_lexical_cast).
  { unfold get_unsigned. rewrite message_field.
    replace (assoc (string_bytes "X-VTRC-Id") (http_fields u)) with (Some (decimal (u_id u)))
      by (unfold http_fields; by rewrite He).
    unfold to_unsigned. rewrite cast_decimal by lia. by rewrite (proj2 (Z.ltb_ge _ _)). }
  unfold http2lowlevel. rewrite Hw. unfold bind at 1, ret at 1.
  rewrite (get_unsigned_assoc u (string_bytes "X-VTRC-Type") (u_message_type u)) by done.
  cbn [lift]. by rewrite Hg.
Qed.
End Properties.

(** *** Witnesses *)

#[local] Existing Instance digits_cast.
#[local] Existing Instance digits_cast_laws.

Definition demo_request : lowlevel_unit :=
  Unit (Some 7) None (Some (MessageInfo (Some 1) None))
    (Some (CallInfo (Some "howto.hello"%string) (Some "say"%string))) None
    (Some (UnitOptions (Some true) None None)) None None (Some [10; 255; 0]) None.
Definition demo_error : lowlevel_unit :=
  Unit (Some 8) None (Some (MessageInfo (Some 2) None)) None
    (Some (Container (Some 38) None None (Some "no such method"%string))) None None None None None.

Lemma demo_ok : Forall http_ok [demo_request; demo_error].
Proof.
  constructor; [|constructor; [|constructor]].
  - split; try (intros E; vm_compute in E; discriminate E); intros; split_and?; apply (bool_decide_unpack _); vm_compute; exact I.
  - split; try (intros E; vm_compute in E; discriminate E); intros;
      [apply (bool_decide_unpack _); vm_compute; exact I|].
    cbv zeta. split_and!; try (apply (bool_decide_unpack _); vm_compute; exact I). by intros c [= <-].
Qed.

Lemma http_framing_witness :
  receive_all
      [take 30 (serialize_lowlevel demo_request);
       drop 30 (serialize_lowlevel demo_request) ++ serialize_lowlevel demo_error]
      (Receiver (connected header_parser_new) []) =
    (Ok tt, Receiver (connected header_parser_new) [(true, carried demo_request); (true, carried demo_error)]).
Proof.
  apply (http_framing [demo_request; demo_error]); [apply demo_ok|].
  vm_compute. reflexivity.
Defined.

Lemma http_parser_total_witness :
  ∃ ms p' e, feed [10; 71] header_parser_new = (ms, p', e) ∧ in_progress p' ∧
    process_data (ret tt) [10; 71] (HttpLowlevel true [] (Some header_parser_new)) =
      (let h' := HttpLowlevel true ([] ++ ms) (Some p') in
       match e, ms with
       | Some e, _ => (Raise e, h')
       | None, [] => (Ok tt, h')
       | None, _ :: _ => ret tt h'
       end) ∧ (e = None ∨ e = Some bad_lexical_cast).
Proof.
  apply (http_parser_total (ret tt) [10; 71] [] header_parser_new). by split.
Defined.

(** One line feed is a complete message, and converting it is undefined. *)
Example blank_line_undefined :
  let h := (process_data (ret tt) [10] (connected header_parser_new)).2 in
  queue_size h = 1 ∧ undefined (pop_proto_message unit_empty h).1.
Proof. split; [reflexivity|]. eexists. vm_compute. reflexivity. Qed.

(** A request for [/] is too. *)
Example short_path_undefined :
  let h := (process_data (ret tt) (string_bytes "GET / HTTP/1.1" ++ crlf ++ crlf)
              (connected header_parser_new)).2 in
  queue_size h = 1 ∧ undefined (pop_proto_message unit_empty h).1.
Proof. split; [reflexivity|]. eexists. vm_compute. reflexivity. Qed.

(** The text of an error with a line break becomes a header of its own: here the
    length of the body is what the text says, and the rest of the message is what
    comes next. *)
Example text_injects_header :
  let u := set_error (Some (Container (Some 1) None None
             (Some (String.append "x" (String.String (Ascii.ascii_of_nat 10) "Content-Length: 3"))))) unit_empty in
  let h := (process_data (ret tt) (serialize_lowlevel u) (connected header_parser_new)).2 in
  queue_size h = 1 ∧ (current_ <$> container_ h) = [string_bytes "<H1"].
Proof. split; reflexivity. Qed.
