(* ===== verification/Lukki.v ===== *)
(** * Lukki: the database example

    [src/examples/lukki-db/server/lukki-db-application.cpp]: a server application with
    a map of records, its counters and the clients that subscribed to its changes.  All
    calls of all connections, and the events, run one by one on a strand: its queue is
    [event_queue_].  [svc_wrapper] posts the calls, [lukki_db_impl] forwards them to
    [application::impl], whose operations have the names they have there.

    Connections come and go by themselves; [alive_] says which weak pointers still lock,
    [log_] what the clients could observe. *)

From S2P Require Import Prelude.

(** ** Data *)

Definition lukki_string_list : Type := list bytes.
Record db_stat : Type := DbStat {
  total_records : Z; set_requests : Z; upd_requests : Z; get_requests : Z; del_requests : Z
}.
Definition db_stat_empty : db_stat := DbStat 0 0 0 0 0.

Inductive record_change := RECORD_DELETED | RECORD_ADDED | RECORD_CHANGED.

(** The methods of the service the class overrides, with their requests. *)
Inductive request : Type :=
  | RInit
  | RSet (name : bytes) (value : lukki_string_list)
  | RUpd (name : bytes) (value : lukki_string_list)
  | RDel (name : bytes)
  | RGet (name : bytes)
  | RStat
  | RExist (name : bytes)
  | RSubscribe.

Inductive response : Type :=
  | REmpty
  | RList (l : lukki_string_list)
  | RDbStat (s : db_stat)
  | RExistRes (b : bool).

(** What the controller says when the closure runs, and the response. *)
Definition answer : Type := response * option string.

(** What waits on the strand: [svc_wrapper::call] of a connection's call, whose
    closure is known by a number, and [send_event_impl]. *)
Inductive task : Type :=
  | TCall (cl : nat) (r : request) (done : nat)
  | TEvent (record : bytes) (changed : record_change).

Inductive output : Type :=
  | ODone (cl : nat) (r : request) (done : nat) (a : answer)
  | OSkipped (cl : nat) (r : request) (done : nat)
  | OSubscribed (cl : nat)
  | OEvent (record : bytes) (changed : record_change) (sent : list nat)
  | OConnected (cl : nat)
  | OClosed (cl : nat).

#[export] Instance record_change_eq_dec : EqDecision record_change.
Proof. solve_decision. Defined.

Definition db_type : Type := gmap bytes lukki_string_list.

(** A subscriber is the weak pointer to a connection with the channel to it. *)
Record impl : Type := Impl {
  db_ : db_type;
  db_stat_ : db_stat;
  event_queue_ : list task;
  listeners_ : list nat;
  subscribers_ : list nat;
  alive_ : gset nat;
  next_ : nat;
  log_ : list output
}.
Definition impl_new : impl := Impl ∅ db_stat_empty [] [] [] ∅ 0 [].

Definition with_db d (s : impl) := Impl d (db_stat_ s) (event_queue_ s) (listeners_ s) (subscribers_ s) (alive_ s) (next_ s) (log_ s).
Definition with_stat t (s : impl) := Impl (db_ s) t (event_queue_ s) (listeners_ s) (subscribers_ s) (alive_ s) (next_ s) (log_ s).
Definition with_queue q (s : impl) := Impl (db_ s) (db_stat_ s) q (listeners_ s) (subscribers_ s) (alive_ s) (next_ s) (log_ s).
Definition with_listeners l (s : impl) := Impl (db_ s) (db_stat_ s) (event_queue_ s) l (subscribers_ s) (alive_ s) (next_ s) (log_ s).
Definition with_subscribers l (s : impl) := Impl (db_ s) (db_stat_ s) (event_queue_ s) (listeners_ s) l (alive_ s) (next_ s) (log_ s).
Definition with_alive a n (s : impl) := Impl (db_ s) (db_stat_ s) (event_queue_ s) (listeners_ s) (subscribers_ s) a n (log_ s).
Definition output_ o (s : impl) := Impl (db_ s) (db_stat_ s) (event_queue_ s) (listeners_ s) (subscribers_ s) (alive_ s) (next_ s) (log_ s ++ [o]).

Definition set_set_requests z (t : db_stat) := DbStat (total_records t) z (upd_requests t) (get_requests t) (del_requests t).
Definition set_total_records z (t : db_stat) := DbStat z (set_requests t) (upd_requests t) (get_requests t) (del_requests t).
Definition set_upd_requests z (t : db_stat) := DbStat (total_records t) (set_requests t) z (get_requests t) (del_requests t).
Definition set_get_requests z (t : db_stat) := DbStat (total_records t) (set_requests t) (upd_requests t) z (del_requests t).
Definition set_del_requests z (t : db_stat) := DbStat (total_records t) (set_requests t) (upd_requests t) (get_requests t) z.
Definition on_stat (f : db_stat → db_stat) : M impl unit := modify (λ s, with_stat (f (db_stat_ s)) s).

(** ** application::impl *)

(** [event_queue_.post] *)
Definition post (t : task) : M impl unit := modify (λ s, with_queue (event_queue_ s ++ [t]) s).
Definition send_event (record : bytes) (changed : record_change) : M impl unit :=
  post (TEvent record changed).

(** The result is what the controller is told with [SetFailed]. *)
Definition set (name : bytes) (value : lukki_string_list) : M impl (option string) :=
  let* s := get in
  match db_ s !! name with
  | Some _ => ret (Some "Record exists"%string)
  | None =>
      on_stat (λ t, set_set_requests (u32 (set_requests t + 1)) t) ;;;
      modify (λ s, with_db (<[name := value]> (db_ s)) s) ;;;
      modify (λ s, with_stat (set_total_records (u32 (Z.of_nat (size (db_ s)))) (db_stat_ s)) s) ;;;
      send_event name RECORD_ADDED ;;;
      ret None
  end.

Definition upd (name : bytes) (value : lukki_string_list) : M impl (option string) :=
  on_stat (λ t, set_upd_requests (u32 (upd_requests t + 1)) t) ;;;
  let* s := get in
  match db_ s !! name with
  | None => ret (Some "Record was not found"%string)
  | Some _ =>
      modify (λ s, with_db (<[name := value]> (db_ s)) s) ;;;
      send_event name RECORD_CHANGED ;;;
      ret None
  end.

Definition get_value (name : bytes) : M impl (lukki_string_list * option string) :=
  on_stat (λ t, set_get_requests (u32 (get_requests t + 1)) t) ;;;
  let* s := get in
  match db_ s !! name with
  | None => ret ([], Some "Record was not found"%string)
  | Some value => ret (value, None)
  end.

Definition del (name : bytes) : M impl (option string) :=
  on_stat (λ t, set_del_requests (u32 (del_requests t + 1)) t) ;;;
  let* s := get in
  match db_ s !! name with
  | None => ret (Some "Record was not found"%string)
  | Some _ =>
      modify (λ s, with_db (delete name (db_ s)) s) ;;;
      send_event name RECORD_DELETED ;;;
      ret None
  end.

Definition stat : M impl db_stat := gets db_stat_.
Definition exist (name : bytes) : M impl bool := gets (λ s, bool_decide (is_Some (db_ s !! name))).

Definition lock (cl : nat) : M impl bool := gets (λ s, bool_decide (cl ∈ alive_ s)).

(** The loop of [send_event_impl]: the subscribers that are kept, who are those the
    event is sent to.  Sending catches everything and changes nothing here. *)
Fixpoint send_event_loop (subscribers : list nat) : M impl (list nat) :=
  match subscribers with
  | [] => ret []
  | cl :: subscribers =>
      let* lck := lock cl in
      if lck then
        let* kept := send_event_loop subscribers in
        ret (cl :: kept)
      else send_event_loop subscribers
  end.
Definition send_event_impl (record : bytes) (changed : record_change) : M impl unit :=
  let* s := get in
  let* kept := send_event_loop (subscribers_ s) in
  modify (with_subscribers kept) ;;;
  modify (output_ (OEvent record changed kept)).

Definition send_subscribed (cl : nat) : M impl unit := modify (output_ (OSubscribed cl)).
Definition subscribe_client (cl : nat) : M impl unit :=
  modify (λ s, with_subscribers (subscribers_ s ++ [cl]) s) ;;;
  send_subscribed cl.

(** ** lukki_db_impl: the request of a method and its response *)

Definition failed (m : M impl (option string)) : M impl answer := let* f := m in ret (REmpty, f).
Definition call_default (cl : nat) (r : request) : M impl answer :=
  match r with
  | RInit => ret (REmpty, None)
  | RSet name value => failed (set name value)
  | RUpd name value => failed (upd name value)
  | RDel name => failed (del name)
  | RGet name => let* (value, f) := get_value name in ret (RList value, f)
  | RStat => let* t := stat in ret (RDbStat t, None)
  | RExist name => let* b := exist name in ret (RExistRes b, None)
  | RSubscribe => subscribe_client cl ;;; ret (REmpty, None)
  end.

(** ** svc_wrapper *)

(** The holder of the closure runs it when the call returns; without the
    connection nobody does. *)
Definition call (cl : nat) (r : request) (done : nat) : M impl unit :=
  let* lck := lock cl in
  if lck then
    let* a := call_default cl r in
    modify (output_ (ODone cl r done a))
  else modify (output_ (OSkipped cl r done)).

Definition call_method (cl : nat) (r : request) (done : nat) : M impl unit := post (TCall cl r done).

Definition get_service_by_name (full_name service_name : string) : bool :=
  bool_decide (service_name = full_name).

(** A listener that does not start is not kept. *)
Definition attach_start_listener (start : M impl unit) (listen : nat) : M impl unit :=
  start ;;; modify (λ s, with_listeners (listeners_ s ++ [listen]) s).

(** ** Steps *)

Definition run_task (t : task) : M impl unit :=
  match t with
  | TCall cl r done => call cl r done
  | TEvent record changed => send_event_impl record changed
  end.

(** A connection is accepted, or ends; one of its calls arrives; the strand runs
    its next handler. *)
Inductive label : Type :=
  | LConnect
  | LClose (cl : nat)
  | LCall (cl : nat) (r : request) (done : nat)
  | LRun.

Definition step (l : label) : M impl unit :=
  match l with
  | LConnect => modify (λ s, output_ (OConnected (next_ s)) (with_alive ({[next_ s]} ∪ alive_ s) (S (next_ s)) s))
  | LClose cl =>
      let* lck := lock cl in
      if lck then
        modify (λ s, with_alive (alive_ s ∖ {[cl]}) (next_ s) s) ;;; modify (output_ (OClosed cl))
      else ret tt
  | LCall cl r done => call_method cl r done
  | LRun =>
      let* s := get in
      match event_queue_ s with
      | [] => ret tt
      | t :: q => modify (with_queue q) ;;; run_task t
      end
  end.
Fixpoint run_all (ls : list label) : M impl unit :=
  match ls with
  | [] => ret tt
  | l :: ls => step l ;;; run_all ls
  end.

(** ** Specification: a map with counters

    What the clients should see: the requests that are answered take effect one after
    the other on a map; numbers do not wrap. *)

Record database : Type := Database {
  d_map : db_type; d_total : Z; d_set : Z; d_upd : Z; d_get : Z; d_del : Z
}.
Definition database_empty : database := Database ∅ 0 0 0 0 0.

Definition d_size (m : db_type) : Z := Z.of_nat (size m).
(** The number of records is noted when one is added. *)
Definition d_step (d : database) (r : request) : database :=
  match r, d with
  | RSet n v, Database m t s u g e =>
      match m !! n with
      | Some _ => d
      | None => Database (<[n := v]> m) (d_size (<[n := v]> m)) (s + 1) u g e
      end
  | RUpd n v, Database m t s u g e =>
      Database (match m !! n with Some _ => <[n := v]> m | None => m end) t s (u + 1) g e
  | RDel n, Database m t s u g e => Database (delete n m) t s u g (e + 1)
  | RGet n, Database m t s u g e => Database m t s u (g + 1) e
  | _, _ => d
  end.
Definition database_of (h : list request) : database := foldl d_step database_empty h.

Definition not_found : string := "Record was not found".
Definition d_stat (d : database) : db_stat :=
  DbStat (u32 (d_total d)) (u32 (d_set d)) (u32 (d_upd d)) (u32 (d_get d)) (u32 (d_del d)).
Definition d_answer (d : database) (r : request) : answer :=
  let known n := match d_map d !! n with Some _ => None | None => Some not_found end in
  match r with
  | RInit | RSubscribe => (REmpty, None)
  | RSet n _ => (REmpty, match d_map d !! n with Some _ => Some "Record exists"%string | None => None end)
  | RUpd n _ | RDel n => (REmpty, known n)
  | RGet n => (RList (default [] (d_map d !! n)), known n)
  | RStat => (RDbStat (d_stat d), None)
  | RExist n => (RExistRes (bool_decide (is_Some (d_map d !! n))), None)
  end.

(** What a request changes, that is, the event it causes. *)
Definition d_change (d : database) (r : request) : list (bytes * record_change) :=
  match r with
  | RSet n _ => match d_map d !! n with Some _ => [] | None => [(n, RECORD_ADDED)] end
  | RUpd n _ => match d_map d !! n with Some _ => [(n, RECORD_CHANGED)] | None => [] end
  | RDel n => match d_map d !! n with Some _ => [(n, RECORD_DELETED)] | None => [] end
  | _ => []
  end.
Fixpoint changes_from (d : database) (h : list request) : list (bytes * record_change) :=
  match h with
  | [] => []
  | r :: h => d_change d r ++ changes_from (d_step d r) h
  end.
Definition changes (h : list request) := changes_from database_empty h.

(** *** Reading a log *)

Definition done_request (o : output) : option request :=
  match o with ODone _ r _ _ => Some r | _ => None end.
Definition answered (log : list output) : list request := omap done_request log.
Definition subscription (o : output) : option nat :=
  match o with OSubscribed c => Some c | _ => None end.
Definition event (o : output) : option (bytes * record_change) :=
  match o with OEvent n ch _ => Some (n, ch) | _ => None end.
Definition finished (o : output) : option (nat * request * nat) :=
  match o with ODone c r d _ | OSkipped c r d => Some (c, r, d) | _ => None end.
Definition queued_call (t : task) : option (nat * request * nat) :=
  match t with TCall c r d => Some (c, r, d) | TEvent _ _ => None end.
Definition queued_event (t : task) : option (bytes * record_change) :=
  match t with TEvent n ch => Some (n, ch) | TCall _ _ _ => None end.
Definition posted (l : label) : option (nat * request * nat) :=
  match l with LCall c r d => Some (c, r, d) | _ => None end.

#[export] Instance request_eq_dec : EqDecision request.
Proof. solve_decision. Defined.
#[export] Instance db_stat_eq_dec : EqDecision db_stat.
Proof. solve_decision. Defined.
#[export] Instance response_eq_dec : EqDecision response.
Proof. solve_decision. Defined.
#[export] Instance output_eq_dec : EqDecision output.
Proof. solve_decision. Defined.

Definition live (log : list output) (c : nat) : Prop := OConnected c ∈ log ∧ OClosed c ∉ log.
#[export] Instance live_dec log c : Decision (live log c).
Proof. unfold live. apply _. Defined.

(** What an output must be after what came before it. *)
Definition output_ok (log : list output) (o : output) : Prop :=
  match o with
  | ODone c r _ a => live log c ∧ a = d_answer (database_of (answered log)) r
  | OSkipped c _ _ => ¬ live log c
  | OEvent _ _ sent => sent = filter (live log) (omap subscription log)
  | OSubscribed _ | OConnected _ | OClosed _ => True
  end.
Definition log_ok (log : list output) : Prop :=
  ∀ l1 o l2, log = l1 ++ o :: l2 → output_ok l1 o.

(** ** Invariant *)

(** The records, and what was posted. *)
Record inv_data (calls : list (nat * request * nat)) (db : db_type) (st : db_stat)
    (queue : list task) (log : list output) : Prop := {
  i_db : db = d_map (database_of (answered log));
  i_stat : st = d_stat (database_of (answered log));
  i_calls : omap finished log ++ omap queued_call queue = calls;
  i_events : omap event log ++ omap queued_event queue = changes (answered log)
}.

(** The connections and who is subscribed. *)
Record inv_conn (alive : gset nat) (next : nat) (subscribers : list nat) (log : list output) : Prop := {
  i_alive : ∀ c, c ∈ alive ↔ live log c;
  i_next : ∀ c, OConnected c ∈ log ∨ OClosed c ∈ log → (c < next)%nat;
  i_known : ∀ c, c ∈ subscribers ∨ c ∈ omap subscription log → OConnected c ∈ log;
  i_subs : filter (live log) subscribers = filter (live log) (omap subscription log);
  i_log : log_ok log
}.

Definition inv (calls : list (nat * request * nat)) (s : impl) : Prop :=
  inv_data calls (db_ s) (db_stat_ s) (event_queue_ s) (log_ s) ∧
  inv_conn (alive_ s) (next_ s) (subscribers_ s) (log_ s).

(** ** Lemmas *)

Lemma database_of_snoc h r : database_of (h ++ [r]) = d_step (database_of h) r.
Proof. unfold database_of. by rewrite foldl_app. Qed.

Lemma changes_from_app d h1 h2 :
  changes_from d (h1 ++ h2) = changes_from d h1 ++ changes_from (foldl d_step d h1) h2.
Proof.
  revert d. induction h1 as [|r h1 IH]; intros d; [done|]. simpl. by rewrite IH, (assoc_L (++)).
Qed.

Lemma changes_snoc h r : changes (h ++ [r]) = changes h ++ d_change (database_of h) r.
Proof. unfold changes. rewrite changes_from_app. simpl. by rewrite app_nil_r. Qed.

Lemma log_ok_snoc log o : log_ok log → output_ok log o → log_ok (log ++ [o]).
Proof.
  intros Hlog Ho l1 o' l2 Heq. destruct l2 as [|x l2 _] using rev_ind.
  - by apply app_inj_tail in Heq as [-> ->].
  - rewrite app_comm_cons, (assoc_L (++)) in Heq. apply app_inj_tail in Heq as [-> _]. by eapply Hlog.
Qed.

(** Outputs that are not about connections. *)
Definition neutral (o : output) : Prop :=
  match o with OConnected _ | OClosed _ => False | _ => True end.

Lemma connections_neutral log o c : neutral o →
  (OConnected c ∈ log ++ [o] ↔ OConnected c ∈ log) ∧ (OClosed c ∈ log ++ [o] ↔ OClosed c ∈ log).
Proof.
  intros Ho. rewrite !elem_of_app, !list_elem_of_singleton.
  by split; (split; [intros [?|<-]|left]).
Qed.

Lemma live_neutral log o c : neutral o → live (log ++ [o]) c ↔ live log c.
Proof. intros Ho. unfold live. destruct (connections_neutral log o c Ho). tauto. Qed.

Lemma filter_live_neutral log o (l : list nat) : neutral o →
  filter (live (log ++ [o])) l = filter (live log) l.
Proof. intros Ho. apply filter_ext_in. intros c _. by apply live_neutral. Qed.

(** *** What a call does *)

Definition subscribes (r : request) : bool := match r with RSubscribe => true | _ => false end.
Definition event_task (e : bytes * record_change) : task := TEvent e.1 e.2.

Lemma call_default_ok cl r s d :
  db_ s = d_map d → db_stat_ s = d_stat d →
  call_default cl r s =
    (Ok (d_answer d r),
     Impl (d_map (d_step d r)) (d_stat (d_step d r)) (event_queue_ s ++ (event_task <$> d_change d r))
       (listeners_ s) (if subscribes r then subscribers_ s ++ [cl] else subscribers_ s)
       (alive_ s) (next_ s) (if subscribes r then log_ s ++ [OSubscribed cl] else log_ s)).
Proof.
  destruct s as [db st q li su al nx lo], d as [m t a b c e]. cbn [db_ d_map db_stat_]. intros -> ->.
  unfold d_stat. destruct r as [|n v|n v|n|n| |n|]; cbn [subscribes d_step d_map d_total d_set d_upd d_get d_del];
    unfold call_default, failed, d_answer, d_change, d_stat;
    cbn [d_map d_total d_set d_upd d_get d_del].
  all: unfold set, upd, del, get_value; cbn; try (by rewrite app_nil_r).
  all: unfold bind, on_stat, modify, get, ret, send_event, post; cbn.
  all: destruct (m !! n) eqn:E; cbn; rewrite ?app_nil_r, ?wrap_add_l; try done.
  by rewrite (delete_id (M := gmap bytes) m n E).
Qed.

(** *** Connections *)

Lemma conn_neutral al nx su log o :
  inv_conn al nx su log → neutral o → subscription o = None → output_ok log o →
  inv_conn al nx su (log ++ [o]).
Proof.
  intros [Ha Hn Hk Hs Hl] Ho Hsub Hok.
  assert (Hom : omap subscription (log ++ [o]) = omap subscription log).
  { rewrite omap_app. simpl. rewrite Hsub. by rewrite app_nil_r. }
  split.
  - intros c. rewrite Ha. by rewrite live_neutral.
  - intros c. destruct (connections_neutral log o c Ho) as [-> ->]. apply Hn.
  - intros c. rewrite Hom. destruct (connections_neutral log o c Ho) as [-> _]. apply Hk.
  - by rewrite Hom, !filter_live_neutral.
  - by apply log_ok_snoc.
Qed.

Lemma conn_subscribed al nx su log c :
  inv_conn al nx su log → c ∈ al → inv_conn al nx (su ++ [c]) (log ++ [OSubscribed c]).
Proof.
  intros [Ha Hn Hk Hs Hl] Hc. rewrite Ha in Hc.
  assert (Hom : omap subscription (log ++ [OSubscribed c]) = omap subscription log ++ [c])
    by (by rewrite omap_app).
  split.
  - intros c'. rewrite Ha. by rewrite live_neutral.
  - intros c'. destruct (connections_neutral log (OSubscribed c) c' I) as [-> ->]. apply Hn.
  - intros c'. rewrite Hom, !elem_of_app, list_elem_of_singleton.
    intros [[?| ->]|[?| ->]]; left; auto; apply Hc.
  - rewrite Hom, !filter_app, !filter_live_neutral by done. by rewrite Hs.
  - by apply log_ok_snoc.
Qed.

Lemma conn_event al nx su log n ch :
  inv_conn al nx su log →
  inv_conn al nx (filter (λ c, c ∈ al) su) (log ++ [OEvent n ch (filter (λ c, c ∈ al) su)]).
Proof.
  intros Hc. pose proof Hc as [Ha Hn Hk Hs Hl].
  assert (Hf : filter (λ c, c ∈ al) su = filter (live log) su) by (apply filter_ext_in; intros; apply Ha).
  rewrite Hf. apply conn_neutral; [|done|done|exact Hs].
  split; [done|done| |by rewrite list_filter_filter_l by auto|done].
  intros c [Hin|Hin]; [|by auto]. apply list_elem_of_filter in Hin as [_ Hin]. auto.
Qed.

Lemma conn_connect al nx su log :
  inv_conn al nx su log → inv_conn ({[nx]} ∪ al) (S nx) su (log ++ [OConnected nx]).
Proof.
  intros [Ha Hn Hk Hs Hl].
  assert (Hom : omap subscription (log ++ [OConnected nx]) = omap subscription log)
    by (rewrite omap_app; simpl; by rewrite app_nil_r).
  assert (Hcl : ∀ c, OClosed c ∈ log ++ [OConnected nx] ↔ OClosed c ∈ log).
  { intros c. rewrite elem_of_app, list_elem_of_singleton. by split; [intros [?|]|left]. }
  assert (Hco : ∀ c, OConnected c ∈ log ++ [OConnected nx] ↔ OConnected c ∈ log ∨ c = nx).
  { intros c. rewrite elem_of_app, list_elem_of_singleton. by split; (intros [?|E]; [left|right; congruence]). }
  assert (Hlive : ∀ c, OConnected c ∈ log → live (log ++ [OConnected nx]) c ↔ live log c).
  { intros c Hc. unfold live. rewrite Hcl, Hco. tauto. }
  split.
  - intros c. unfold live. rewrite Hcl, Hco, elem_of_union, elem_of_singleton, Ha. unfold live.
    split; [intros [-> |[? ?]]|intros [[?| ->] ?]]; auto. split; [by right|].
    intros Hin. specialize (Hn nx (or_intror Hin)). lia.
  - intros c. rewrite Hcl, Hco. intros [[?| ->]|?]; [|lia|]; (assert (c < nx)%nat; [auto|lia]).
  - intros c. rewrite Hom, Hco. auto.
  - rewrite Hom. transitivity (filter (live log) su);
      [|rewrite Hs]; apply filter_ext_in; intros c Hc; [|symmetry]; apply Hlive; auto.
  - by apply log_ok_snoc.
Qed.

Lemma conn_close al nx su log c :
  inv_conn al nx su log → c ∈ al → inv_conn (al ∖ {[c]}) nx su (log ++ [OClosed c]).
Proof.
  intros [Ha Hn Hk Hs Hl] Hc.
  assert (Hom : omap subscription (log ++ [OClosed c]) = omap subscription log)
    by (rewrite omap_app; simpl; by rewrite app_nil_r).
  assert (Hco : ∀ x, OConnected x ∈ log ++ [OClosed c] ↔ OConnected x ∈ log).
  { intros x. rewrite elem_of_app, list_elem_of_singleton. by split; [intros [?|]|left]. }
  assert (Hcl : ∀ x, OClosed x ∈ log ++ [OClosed c] ↔ OClosed x ∈ log ∨ x = c).
  { intros x. rewrite elem_of_app, list_elem_of_singleton. by split; (intros [?|E]; [left|right; congruence]). }
  assert (Hlive : ∀ x, live (log ++ [OClosed c]) x ↔ x ≠ c ∧ live log x)
    by (intros x; unfold live; rewrite Hco, Hcl; tauto).
  assert (Hff : ∀ l : list nat, filter (live (log ++ [OClosed c])) l = filter (λ x, x ≠ c) (filter (live log) l)).
  { intros l. rewrite list_filter_filter. apply filter_ext_in. intros x _. rewrite Hlive. tauto. }
  split.
  - intros x. rewrite Hlive, elem_of_difference, elem_of_singleton, Ha. tauto.
  - intros x. rewrite Hco, Hcl. intros [?|[?| ->]]; [auto..|]. apply Hn. left. apply Ha in Hc as [? _]. done.
  - intros x. rewrite Hom, Hco. auto.
  - by rewrite Hom, !Hff, Hs.
  - by apply log_ok_snoc.
Qed.

(** *** Steps *)

Lemma send_event_loop_ok l s : send_event_loop l s = (Ok (filter (λ c, c ∈ alive_ s) l), s).
Proof.
  induction l as [|c l IH]; [done|]. cbn [send_event_loop]. unfold lock.
  unfold bind at 1, gets. rewrite filter_cons. case_bool_decide as Hc.
  - rewrite decide_True by done. by rewrite (bind_ok _ _ _ _ _ IH).
  - by rewrite decide_False.
Qed.

Lemma event_tasks l :
  omap queued_call (event_task <$> l) = [] ∧ omap queued_event (event_task <$> l) = l.
Proof.
  induction l as [|[n ch] l [IH1 IH2]]; [done|]. rewrite fmap_cons. split; [exact IH1|].
  simpl. f_equal. exact IH2.
Qed.

Lemma data_done calls db st q log cl r k :
  inv_data calls db st (TCall cl r k :: q) log →
  let d := database_of (answered log) in
  ∀ log', answered log' = answered log → omap finished log' = omap finished log →
    omap event log' = omap event log →
  inv_data calls (d_map (d_step d r)) (d_stat (d_step d r)) (q ++ (event_task <$> d_change d r))
    (log' ++ [ODone cl r k (d_answer d r)]).
Proof.
  intros [Hdb Hst Hc He] d log' Ha Hf Hev.
  assert (Han : answered (log' ++ [ODone cl r k (d_answer d r)]) = answered log ++ [r])
    by (unfold answered in *; by rewrite omap_app, Ha).
  split.
  - by rewrite Han, database_of_snoc.
  - by rewrite Han, database_of_snoc.
  - rewrite <-Hc, !omap_app, Hf. simpl. rewrite <-(assoc_L (++)). simpl. do 2 f_equal.
    by rewrite (proj1 (event_tasks _)), app_nil_r.
  - rewrite Han, changes_snoc, <-He, !omap_app, Hev. simpl. rewrite app_nil_r, <-(assoc_L (++)). do 2 f_equal.
    apply event_tasks.
Qed.

Lemma run_call_inv calls s q cl r k :
  event_queue_ s = TCall cl r k :: q → inv calls s →
  ∃ s', call cl r k (with_queue q s) = (Ok tt, s') ∧ inv calls s'.
Proof.
  intros Hq [Hd Hc]. rewrite Hq in Hd. pose proof Hd as [Hdb Hst _ _]. unfold call, lock.
  unfold bind at 1, gets. cbn [alive_ with_queue]. case_bool_decide as Hal.
  - erewrite bind_ok by (by apply call_default_ok). eexists. split; [done|].
    cbn [event_queue_ with_queue output_ db_ db_stat_ alive_ next_ subscribers_ log_ listeners_].
    pose proof Hal as Hlive. apply (i_alive _ _ _ _ Hc) in Hlive.
    destruct (subscribes r) eqn:Er; split.
    + destruct r; try done. cbn -[answered]. apply (data_done _ _ _ _ _ _ _ _ Hd); unfold answered;
        rewrite omap_app; simpl; by rewrite app_nil_r.
    + cbn [log_]. apply conn_neutral; [by apply conn_subscribed|done|done|].
      cbn. rewrite live_neutral by done. split; [done|]. do 2 f_equal. unfold answered. rewrite omap_app. simpl.
      by rewrite app_nil_r.
    + cbn. by apply (data_done _ _ _ _ _ _ _ _ Hd).
    + cbn. by apply conn_neutral.
  - eexists. split; [done|]. split; cbn.
    + destruct Hd as [Hdb' Hst' Hcs He]. unfold answered in *.
      split; unfold answered; rewrite ?omap_app; simpl; rewrite ?app_nil_r; try done.
      rewrite <-Hcs. simpl. by rewrite <-(assoc_L (++)).
    + apply conn_neutral; [done..|]. cbn. by rewrite <-(i_alive _ _ _ _ Hc).
Qed.

Lemma run_event_inv calls s q n ch :
  event_queue_ s = TEvent n ch :: q → inv calls s →
  ∃ s', send_event_impl n ch (with_queue q s) = (Ok tt, s') ∧ inv calls s'.
Proof.
  intros Hq [Hd Hc]. rewrite Hq in Hd. unfold send_event_impl. rewrite bind_get.
  rewrite (bind_ok _ _ _ _ _ (send_event_loop_ok _ _)). eexists. split; [done|]. split; cbn.
  - destruct Hd as [Hdb' Hst' Hcs He]. unfold answered in *.
    split; unfold answered; rewrite ?omap_app; simpl; rewrite ?app_nil_r; try done.
    rewrite <-He. simpl. by rewrite <-(assoc_L (++)).
  - by apply conn_event.
Qed.

(** A call that arrives, with the calls that arrived before. *)
Definition arrived (l : label) (calls : list (nat * request * nat)) := calls ++ option_list (posted l).

Lemma lukki_step_inv calls s l : inv calls s →
  ∃ s', step l s = (Ok tt, s') ∧ inv (arrived l calls) s'.
Proof.
  intros Hi. pose proof Hi as [Hd Hc]. unfold arrived. destruct l as [|cl|cl r k|]; cbn [posted option_list step];
    rewrite ?app_nil_r.
  - eexists. split; [done|]. split; cbn; [|by apply conn_connect].
    destruct Hd as [Hdb' Hst' Hcs He]. unfold answered in *.
    by split; unfold answered; rewrite ?omap_app; simpl; rewrite ?app_nil_r.
  - unfold lock. unfold bind at 1, gets. case_bool_decide as Hal; [|by eauto].
    eexists. split; [done|]. split; cbn; [|by apply conn_close].
    destruct Hd as [Hdb' Hst' Hcs He]. unfold answered in *.
    by split; unfold answered; rewrite ?omap_app; simpl; rewrite ?app_nil_r.
  - eexists. split; [done|]. split; cbn; [|done]. destruct Hd as [Hdb' Hst' Hcs He].
    split; rewrite ?omap_app; simpl; rewrite ?app_nil_r; try done. by rewrite <-Hcs, (assoc_L (++)).
  - rewrite bind_get. destruct (event_queue_ s) as [|[cl r k|n ch] q] eqn:Hq; [by eauto|..];
      rewrite bind_modify; cbn [run_task]; [by apply run_call_inv|by apply run_event_inv].
Qed.

Lemma lukki_run_inv calls s ls : inv calls s →
  ∃ s', run_all ls s = (Ok tt, s') ∧ inv (calls ++ omap posted ls) s'.
Proof.
  revert calls s. induction ls as [|l ls IH]; intros calls s Hi; [rewrite app_nil_r; by eauto|].
  destruct (lukki_step_inv calls s l Hi) as (s1 & E1 & Hi1). destruct (IH _ _ Hi1) as (s2 & E2 & Hi2).
  exists s2. split; [cbn [run_all]; by rewrite (bind_ok _ _ _ _ _ E1)|]. revert Hi2. unfold arrived. rewrite <-(assoc_L (++)).
  by destruct l.
Qed.

Lemma lukki_new_inv : inv [] impl_new.
Proof.
  split; split; cbn; try done.
  - intros c. unfold live. rewrite elem_of_nil. by split; [intros ?%elem_of_empty|intros [? _]].
  - intros c. rewrite !elem_of_nil. by intros [].
  - intros c. rewrite !elem_of_nil. by intros [].
  - intros l1 o l2 Hl. by destruct l1.
Qed.

(** ** Properties *)

(** C34 (refinement).  Whatever connections do, the calls that arrived are finished in
    the order in which they arrived, each once, and the ones that are not are still
    waiting; a call whose connection is gone when its turn comes is skipped, every other
    is answered as by a map with counters that takes the answered requests one after the
    other, and the records are those of that map. *)
Theorem lukki_serves ls : ∃ s,
  run_all ls impl_new = (Ok tt, s) ∧
  omap finished (log_ s) ++ omap queued_call (event_queue_ s) = omap posted ls ∧
  db_ s = d_map (database_of (answered (log_ s))) ∧
  (∀ l1 cl r done a l2, log_ s = l1 ++ ODone cl r done a :: l2 →
     live l1 cl ∧ a = d_answer (database_of (answered l1)) r) ∧
  (∀ l1 cl r done l2, log_ s = l1 ++ OSkipped cl r done :: l2 → ¬ live l1 cl).
Proof.
  destruct (lukki_run_inv [] impl_new ls lukki_new_inv) as (s & E & [[Hdb Hst Hc He] Hconn]).
  pose proof (i_log _ _ _ _ Hconn) as Hlog.
  exists s. split_and!; [done..| |]; intros * Hl; by apply Hlog in Hl.
Qed.

(** C37 (liveness).  Every change made is announced once, in the order of the changes:
    the events sent and those that wait are the changes of the answered requests; an
    event goes to all subscriptions made before it whose connection is alive, in their
    order, and to nobody else. *)
Theorem lukki_events ls : ∃ s,
  run_all ls impl_new = (Ok tt, s) ∧
  omap event (log_ s) ++ omap queued_event (event_queue_ s) = changes (answered (log_ s)) ∧
  (∀ l1 record changed sent l2, log_ s = l1 ++ OEvent record changed sent :: l2 →
     sent = filter (live l1) (omap subscription l1)).
Proof.
  destruct (lukki_run_inv [] impl_new ls lukki_new_inv) as (s & E & [[Hdb Hst Hc He] Hconn]).
  pose proof (i_log _ _ _ _ Hconn) as Hlog.
  exists s. split_and!; [done..|]. intros * Hl. by apply Hlog in Hl.
Qed.

(** The number of records is wrong as soon as one is deleted. *)
Example stat_after_del :
  let s := (run_all [LConnect; LCall 0 (RSet [1] []) 0; LCall 0 (RDel [1]) 1; LCall 0 RStat 2;
                     LRun; LRun; LRun] impl_new).2 in
  size (db_ s) = 0%nat ∧ total_records (db_stat_ s) = 1 ∧
  last (log_ s) = Some (ODone 0 RStat 2 (RDbStat (DbStat 1 1 0 0 1), None)).
Proof. split; [|split]; vm_compute; reflexivity. Qed.

(** A subscriber hears of a change that was made before it subscribed. *)
Example change_before_subscription :
  let s := (run_all [LConnect; LCall 0 (RSet [1] []) 0; LCall 0 RSubscribe 1; LRun; LRun; LRun] impl_new).2 in
  log_ s = [OConnected 0; ODone 0 (RSet [1] []) 0 (REmpty, None); OSubscribed 0;
            ODone 0 RSubscribe 1 (REmpty, None); OEvent [1] RECORD_ADDED [0%nat]].
Proof. vm_compute. reflexivity. Qed.
