(* ===== verification/RemoteFile.v ===== *)
(** * RemoteFile: files of the remote file system example

    [src/examples/remote-fs/]: the service [remote_file] of [server/remote-fs-impl.cpp],
    which keeps a table of open files for the handles its client has, the class of the
    client that calls it ([client/rfs-impl.cpp]) and the loops that copy a file with
    it ([client/rfs-pull-file.cpp], [client/rfs-push-file.cpp]).

    A [FILE] is known by its address; [streams_] says which ones are open.  The table and
    every call in progress hold a shared pointer to it, and the last one that goes
    closes it: [holds_] are the calls in progress, by thread.  What stdio answers is
    an argument. *)

From S2P Require Import Prelude Messages.

(** ** stdio *)

(** The addresses of the streams in use are given to [fopen], which returns another
    one. *)
Class Stdio (W : Type) : Type := {
  fopen : string → string → gset nat → W → option nat * W;
  errno : W → Z;
  ftell : nat → W → Z * W;
  fseek : nat → Z → Z → W → Z * W;
  fread : nat → nat → W → bytes * W;
  fwrite : nat → bytes → W → nat * W;
  fflush : nat → W → W;
  fclose : nat → W → W
}.
Class StdioLaws (W : Type) `{Stdio W} : Prop := {
  fopen_fresh path mode used (w w' : W) f : fopen path mode used w = (Some f, w') → f ∉ used
}.

(** ** remote_file_impl *)

Definition max_block_length : Z := 65000.

Record remote_file (W : Type) : Type := RemoteFile {
  handle_index_ : Z;
  files_ : gmap Z nat;
  holds_ : gmap nat nat;
  streams_ : gset nat;
  world_ : W
}.
#[global] Arguments RemoteFile {W}.
#[global] Arguments handle_index_ {W}.
#[global] Arguments files_ {W}.
#[global] Arguments holds_ {W}.
#[global] Arguments streams_ {W}.
#[global] Arguments world_ {W}.

Section Server.
Context {W : Type} {St : Stdio W}.

Definition remote_file_new (w : W) : remote_file W := RemoteFile 100 ∅ ∅ ∅ w.

Definition with_files m (s : remote_file W) := RemoteFile (handle_index_ s) m (holds_ s) (streams_ s) (world_ s).
Definition with_holds m (s : remote_file W) := RemoteFile (handle_index_ s) (files_ s) m (streams_ s) (world_ s).

(** A call of stdio that does not open or close; its stream must be open. *)
Definition on_stream {A} (f : nat) (g : W → A * W) : M (remote_file W) A := λ s,
  if bool_decide (f ∈ streams_ s) then
    let '(a, w) := g (world_ s) in
    (Ok a, RemoteFile (handle_index_ s) (files_ s) (holds_ s) (streams_ s) w)
  else (Raise (EUndefined "closed stream"), s).

Definition do_fopen (path mode : string) : M (remote_file W) (option nat) := λ s,
  let '(f, w) := fopen path mode (streams_ s) (world_ s) in
  (Ok f, RemoteFile (handle_index_ s) (files_ s) (holds_ s) (list_to_set (option_list f) ∪ streams_ s) w).
Definition do_fclose (f : nat) : M (remote_file W) unit := λ s,
  if bool_decide (f ∈ streams_ s) then
    (Ok tt, RemoteFile (handle_index_ s) (files_ s) (holds_ s) (streams_ s ∖ {[f]}) (fclose f (world_ s)))
  else (Raise (EUndefined "closed stream"), s).

(** What shared pointers point to. *)
Definition referenced (s : remote_file W) : gset nat := map_img (files_ s) ∪ map_img (holds_ s).
(** A [file_ptr] to [f] is gone. *)
Definition release (f : nat) : M (remote_file W) unit :=
  let* s := get in
  if bool_decide (f ∈ referenced s) then ret tt else do_fclose f.

Definition next_index : M (remote_file W) Z :=
  modify (λ s, RemoteFile (u32 (handle_index_ s + 1)) (files_ s) (holds_ s) (streams_ s) (world_ s)) ;;;
  gets handle_index_.

Definition file_from_hdl (hdl : Z) : M (remote_file W) nat :=
  let* s := get in
  match files_ s !! hdl with
  | None => raise (EVtrc ERR_NOT_FOUND CATEGORY_INTERNAL "Bad file handle")
  | Some f => ret f
  end.

Definition throw_errno {A} (text : string) : M (remote_file W) A :=
  let* s := get in raise (EVtrc (errno (world_ s)) CATEGORY_SYSTEM text).

(** [insert] does nothing when the handle is in use: then the new pointer is the
    only one to the file. *)
Definition open (path mode : string) : M (remote_file W) Z :=
  let* f := do_fopen path mode in
  match f with
  | None => throw_errno "fopen failed"
  | Some fnew =>
      let* hdl := next_index in
      modify (λ s, match files_ s !! hdl with
                   | Some _ => s
                   | None => with_files (<[hdl := fnew]> (files_ s)) s
                   end) ;;;
      release fnew ;;;
      ret hdl
  end.

Definition close (hdl : Z) : M (remote_file W) unit :=
  let* s := get in
  match files_ s !! hdl with
  | None => ret tt
  | Some f => modify (λ s, with_files (delete hdl (files_ s)) s) ;;; release f
  end.

(** The variable [file_ptr f] of a call: it is gone when the call ends, with an
    exception too. *)
Definition acquire (t : nat) (hdl : Z) : M (remote_file W) nat :=
  let* f := file_from_hdl hdl in
  modify (λ s, with_holds (<[t := f]> (holds_ s)) s) ;;;
  ret f.
Definition finish (t : nat) : M (remote_file W) unit :=
  let* s := get in
  match holds_ s !! t with
  | None => ret tt
  | Some f => modify (λ s, with_holds (delete t (holds_ s)) s) ;;; release f
  end.
Definition with_file {A} (t : nat) (hdl : Z) (body : nat → M (remote_file W) A) : M (remote_file W) A :=
  let* f := acquire t hdl in λ s,
  match body f s with
  | (Ok a, s) => (finish t ;;; ret a) s
  | (Raise e, s) => (finish t ;;; raise e) s
  end.

Definition tell (t : nat) (hdl : Z) : M (remote_file W) Z :=
  with_file t hdl (λ f,
    let* pos := on_stream f (ftell f) in
    if pos =? -1 then throw_errno "ftell failed" else ret (u64 pos)).

(** [whence] is unsigned and becomes an [int]. *)
Definition seek (t : nat) (hdl position whence : Z) : M (remote_file W) Z :=
  with_file t hdl (λ f,
    let* pos := on_stream f (fseek f position (if whence <? 2 ^ 31 then whence else whence - 2 ^ 32)) in
    let* file_pos := on_stream f (ftell f) in
    if pos =? -1 then throw_errno "fseek failed" else ret (u64 file_pos)).

(** The length and the data of the response; the handle is not looked at when
    nothing is asked for. *)
Definition read (t : nat) (hdl length : Z) : M (remote_file W) (Z * bytes) :=
  let len := if max_block_length <? length then max_block_length else length in
  if len =? 0 then ret (0, [])
  else with_file t hdl (λ f,
    let* data := on_stream f (fread f (Z.to_nat len)) in
    ret (u32 (blen data), data)).

Definition write (t : nat) (hdl : Z) (data : bytes) : M (remote_file W) Z :=
  with_file t hdl (λ f,
    let* w := on_stream f (fwrite f data) in
    ret (u32 (Z.of_nat w))).

Definition flush (t : nat) (hdl : Z) : M (remote_file W) unit :=
  with_file t hdl (λ f, on_stream f (λ w, (tt, fflush f w))).

(** ** Calls of several threads

    A call is three steps, so that others happen between them: it takes its pointer,
    it works on the stream any number of times, it ends. *)

Inductive op : Type :=
  | OOpen (path mode : string)
  | OClose (hdl : Z)
  | OAcquire (t : nat) (hdl : Z)
  | OUse (t : nat) (g : W → W)
  | OFinish (t : nat).

Definition run_op (o : op) : M (remote_file W) unit :=
  match o with
  | OOpen path mode => open path mode ;;; ret tt
  | OClose hdl => close hdl
  | OAcquire t hdl =>
      let* s := get in
      match holds_ s !! t with
      | Some _ => ret tt
      | None => acquire t hdl ;;; ret tt
      end
  | OUse t g =>
      let* s := get in
      match holds_ s !! t with
      | Some f => on_stream f (λ w, (tt, g w))
      | None => ret tt
      end
  | OFinish t => finish t
  end.
(** The exception of a call is the answer to its client. *)
Fixpoint run_ops (os : list op) : M (remote_file W) unit :=
  match os with
  | [] => ret tt
  | o :: os => try_catch (run_op o) (λ _, ret tt) ;;; run_ops os
  end.
End Server.

(** ** The client: remote_file_impl of rfs-impl.cpp *)

Section Client.
Context {W : Type} {St : Stdio W}.

(** The state is the server's: a call of the stub runs the method, on the thread
    [t] of the pool. *)
Context (t : nat).

Definition client_open (path mode : string) : M (remote_file W) Z := open path mode.
Definition close_impl (fhdl : Z) : M (remote_file W) unit := try_catch (close fhdl) (λ _, ret tt).
Definition client_tell (fhdl : Z) : M (remote_file W) Z := tell t fhdl.
(** [set_position] takes an [int64] *)
Definition client_seek (fhdl position whence : Z) : M (remote_file W) Z :=
  seek t fhdl (if position <? 2 ^ 63 then position else position - 2 ^ 64) whence.
Definition client_read (fhdl max_len : Z) : M (remote_file W) bytes :=
  let* (_, data) := read t fhdl (u32 max_len) in ret data.
Definition client_write (fhdl : Z) (data : bytes) : M (remote_file W) Z :=
  let len := if max_block_length <? blen data then max_block_length else blen data in
  write t fhdl (take (Z.to_nat len) data).
Definition client_flush (fhdl : Z) : M (remote_file W) unit := flush t fhdl.

(** [while( rem_f->read( block, block_size ) ) f.write( block )] of [pull_file], with
    the local file; every turn but the last takes a byte of the remote one. *)
Fixpoint pull_loop (fuel : nat) (fhdl block_size : Z) (local : bytes) : M (remote_file W) bytes :=
  match fuel with
  | O => raise (EUndefined "fuel")
  | S n =>
      let* block := client_read fhdl block_size in
      match block with
      | [] => ret local
      | _ :: _ => pull_loop n fhdl block_size (local ++ block)
      end
  end.
(** The destructor of the remote file closes it in every case. *)
Definition pull_file (fuel : nat) (remote_path : string) (block_size : Z) : M (remote_file W) bytes :=
  let* fhdl := client_open remote_path "rb" in λ s,
  match pull_loop fuel fhdl block_size [] s with
  | (Ok local, s) => (close_impl fhdl ;;; ret local) s
  | (Raise e, s) => (close_impl fhdl ;;; raise e) s
  end.

(** [while( r ) { w = rem_f->write( block + shift, r ); ... }] of [push_file]: the
    bytes of the block that are not written yet. *)
Fixpoint push_block (fuel : nat) (fhdl : Z) (block : bytes) : M (remote_file W) unit :=
  match block, fuel with
  | [], _ => ret tt
  | _ :: _, O => raise (EUndefined "fuel")
  | _ :: _, S n =>
      let* w := client_write fhdl block in
      push_block n fhdl (drop (Z.to_nat w) block)
  end.
(** The blocks [readsome] returned. *)
Fixpoint push_blocks (fhdl : Z) (blocks : list bytes) : M (remote_file W) unit :=
  match blocks with
  | [] => ret tt
  | b :: blocks => push_block (length b) fhdl b ;;; push_blocks fhdl blocks
  end.
Definition push_file (remote_path : string) (blocks : list bytes) : M (remote_file W) unit :=
  let* fhdl := client_open remote_path "wb" in λ s,
  match push_blocks fhdl blocks s with
  | (Ok _, s) => close_impl fhdl s
  | (Raise e, s) => (close_impl fhdl ;;; raise e) s
  end.
End Client.

(** ** Lemmas *)

Section Lemmas.
Context {W : Type} {St : Stdio W} `{!StdioLaws W}.
Implicit Types s : remote_file W.

(** Every pointer has its own handle, and the open streams are those somebody
    points to. *)
Record inv (s : remote_file W) : Prop := {
  i_streams : streams_ s = referenced s;
  i_handles h1 h2 f : files_ s !! h1 = Some f → files_ s !! h2 = Some f → h1 = h2
}.

Lemma referenced_spec s f :
  f ∈ referenced s ↔ (∃ h, files_ s !! h = Some f) ∨ (∃ t, holds_ s !! t = Some f).
Proof. unfold referenced. by rewrite elem_of_union, !elem_of_map_img. Qed.

(** A pointer that is gone was the last, or was not. *)
Lemma release_ok s f : streams_ s = {[f]} ∪ referenced s →
  ∃ s', release f s = (Ok tt, s') ∧ streams_ s' = referenced s' ∧
    files_ s' = files_ s ∧ holds_ s' = holds_ s ∧ handle_index_ s' = handle_index_ s.
Proof.
  intros Hs. unfold release. rewrite bind_get. case_bool_decide as Hf.
  - exists s. split_and!; [done| |done..]. set_solver.
  - unfold do_fclose. rewrite bool_decide_eq_true_2 by set_solver. eexists. split; [done|].
    split_and!; [|done..]. cbn. change (referenced _) with (referenced s). rewrite Hs. set_solver.
Qed.

Lemma delete_img {K} `{Countable K} (m : gmap K nat) k f : m !! k = Some f →
  (map_img m : gset nat) = {[f]} ∪ map_img (delete k m).
Proof.
  intros Hk. apply set_eq. intros x. rewrite elem_of_union, elem_of_singleton, !elem_of_map_img.
  split.
  - intros [i Hi]. destruct (decide (i = k)) as [->|]; [left; congruence|right].
    exists i. by rewrite lookup_delete_ne.
  - intros [->|[i [_ Hi]%lookup_delete_Some]]; eauto.
Qed.

(** An outcome that is defined, and a state after it. *)
Definition fine {A} (I : remote_file W → Prop) (r : res A * remote_file W) : Prop :=
  match r with
  | (Raise (EUndefined _), _) => False
  | (_, s) => I s
  end.

Lemma open_fine path mode s : inv s → fine inv (open path mode s).
Proof.
  intros [Hs Hh]. unfold open, do_fopen. unfold bind at 1.
  destruct (fopen path mode (streams_ s) (world_ s)) as [[f|] w] eqn:Ef.
  2:{ cbn. split; [|done]. cbn. rewrite (left_id_L ∅ (∪)). exact Hs. }
  apply fopen_fresh in Ef. rewrite Hs, referenced_spec in Ef. unfold next_index.
  unfold bind, modify, gets. cbn [handle_index_ files_ holds_ streams_ world_].
  set (hdl := u32 (handle_index_ s + 1)).
  set (s1 := RemoteFile hdl (files_ s) (holds_ s) _ w).
  set (s2 := match files_ s !! hdl with Some _ => s1 | None => _ end).
  assert (streams_ s2 = {[f]} ∪ referenced s2 ∧
    (∀ h1 h2 x, files_ s2 !! h1 = Some x → files_ s2 !! h2 = Some x → h1 = h2)) as [Hs2 Hh2].
  { unfold s2. destruct (files_ s !! hdl) eqn:Eh; cbn.
    - rewrite (right_id_L ∅ (∪)), Hs. done.
    - unfold referenced. cbn. rewrite map_img_insert_notin_L by done. rewrite Hs. unfold referenced.
      split; [set_solver|]. intros h1 h2 x.
      intros [[-> ->]|[? ?]]%lookup_insert_Some [[-> E]|[? ?]]%lookup_insert_Some; try done; subst; eauto.
      + destruct Ef. left. eauto.
      + destruct Ef. left. eauto. }
  destruct (release_ok s2 f Hs2) as (s3 & -> & H3 & Hf & _). cbn. split; [done|]. rewrite Hf. done.
Qed.

Lemma close_fine hdl s : inv s → fine inv (close hdl s).
Proof.
  intros [Hs Hh]. unfold close. rewrite bind_get. destruct (files_ s !! hdl) as [f|] eqn:Ef; [|by split].
  rewrite bind_modify.
  destruct (release_ok (with_files (delete hdl (files_ s)) s) f) as (s' & -> & H1 & H2 & _).
  { cbn. rewrite Hs. unfold referenced. cbn. rewrite (delete_img (files_ s) hdl f) by done.
    by rewrite (assoc_L (∪)). }
  cbn. split; [done|]. rewrite H2. cbn.
  intros h1 h2 x [_ ?]%lookup_delete_Some [_ ?]%lookup_delete_Some. eauto.
Qed.

Lemma finish_fine t s : inv s → fine inv (finish t s).
Proof.
  intros [Hs Hh]. unfold finish. rewrite bind_get. destruct (holds_ s !! t) as [f|] eqn:Ef; [|by split].
  rewrite bind_modify.
  destruct (release_ok (with_holds (delete t (holds_ s)) s) f) as (s' & -> & H1 & H2 & _).
  { cbn. rewrite Hs. unfold referenced. cbn. rewrite (delete_img (holds_ s) t f) by done.
    rewrite !(assoc_L (∪)). by rewrite (comm_L (∪) {[f]}). }
  cbn. split; [done|]. by rewrite H2.
Qed.

Lemma acquire_fine t hdl s : inv s → holds_ s !! t = None → fine inv (acquire t hdl s).
Proof.
  intros [Hs Hh] Ht. unfold acquire, file_from_hdl. unfold bind at 1. rewrite bind_get.
  destruct (files_ s !! hdl) as [f|] eqn:Ef; [|by split]. split; [|done].
  cbn. rewrite Hs. unfold referenced. cbn. rewrite map_img_insert_notin_L by done.
  assert (f ∈ (map_img (files_ s) : gset nat)) by (apply elem_of_map_img; eauto).
  apply set_eq. intros x. rewrite !elem_of_union, elem_of_singleton. split; [tauto|].
  intros [?|[->|?]]; auto.
Qed.

Lemma use_fine t f (g : W → W) s : inv s → holds_ s !! t = Some f →
  fine inv (on_stream f (λ w, (tt, g w)) s).
Proof.
  intros [Hs Hh] Ht. unfold on_stream.
  rewrite bool_decide_eq_true_2; [by split|]. rewrite Hs, referenced_spec. eauto.
Qed.

Lemma fine_ignore {A} I (m : M (remote_file W) A) s :
  fine I (m s) → fine I ((m ;;; ret tt) s).
Proof. unfold fine, bind. by destruct (m s) as [[a|[]] s']. Qed.

Lemma run_op_fine o s : inv s → fine inv (run_op o s).
Proof.
  intros Hi. destruct o as [path mode|hdl|t hdl|t g|t]; cbn [run_op].
  - by apply fine_ignore, open_fine.
  - by apply close_fine.
  - rewrite bind_get. destruct (holds_ s !! t) eqn:Et; [done|]. by apply fine_ignore, acquire_fine.
  - rewrite bind_get. destruct (holds_ s !! t) eqn:Et; [|done]. by apply (use_fine t).
  - by apply finish_fine.
Qed.

Lemma run_ops_fine os s : inv s → ∃ s', run_ops os s = (Ok tt, s') ∧ inv s'.
Proof.
  revert s. induction os as [|o os IH]; intros s Hi; [by exists s|]. cbn [run_ops]. unfold bind, try_catch.
  pose proof (run_op_fine o s Hi) as Hf. unfold fine in Hf.
  destruct (run_op o s) as [[[]|[]] s']; try done; by apply IH.
Qed.

Lemma file_new_inv w : inv (remote_file_new w).
Proof. split; [|done]. cbn. unfold referenced. cbn. by rewrite !map_img_empty_L, (left_id_L ∅ (∪)). Qed.

End Lemmas.

(** *** A call alone *)

Section Sequential.
Context {W : Type} {St : Stdio W} `{!StdioLaws W}.
Implicit Types s : remote_file W.

(** The thread has no call in progress, and the handle is that of an open file. *)
Definition idle (t : nat) (hdl : Z) (f : nat) s : Prop :=
  inv s ∧ holds_ s = ∅ ∧ files_ s !! hdl = Some f.

Definition with_world (w : W) s := RemoteFile (handle_index_ s) (files_ s) (holds_ s) (streams_ s) w.

(** What a call does to the stream, and nothing else. *)
Lemma with_file_ok {A} t hdl f s (body : nat → M (remote_file W) A) a w :
  idle t hdl f s →
  (∀ s', f ∈ streams_ s' → world_ s' = world_ s → body f s' = (Ok a, with_world w s')) →
  with_file t hdl body s = (Ok a, with_world w s) ∧ idle t hdl f (with_world w s).
Proof.
  intros (Hi & Hh & Hf) Hb. split; [|by destruct Hi; split; [by split|]].
  unfold with_file, acquire, file_from_hdl. unfold bind at 1 2. rewrite bind_get, Hf.
  unfold ret at 1. unfold bind at 1, modify, ret at 1.
  assert (Hst : f ∈ streams_ s) by (rewrite (i_streams _ Hi), referenced_spec; eauto).
  rewrite Hb by done. unfold bind at 1, finish. rewrite bind_get.
  cbn [with_world with_holds holds_ handle_index_ files_ streams_ world_].
  rewrite lookup_insert_eq, bind_modify. unfold release. rewrite bind_get.
  rewrite bool_decide_eq_true_2 by (rewrite referenced_spec; cbn; eauto).
  unfold ret. do 2 f_equal. unfold with_holds, with_world. cbn. f_equal. rewrite delete_insert_id; [done|]. by rewrite Hh.
Qed.
End Sequential.

(** ** What stdio does with the contents of files *)

(** The bytes a stream has yet to deliver; a read stops short only at the end. *)
Class ReadLaws (W : Type) `{Stdio W} : Type := {
  remaining : W → nat → option bytes;
  fread_ok w f n rest : remaining w f = Some rest →
    ∃ w', fread f n w = (take n rest, w') ∧ remaining w' f = Some (drop n rest)
}.
(** The bytes written to a stream; a write takes something, perhaps not all. *)
Class WriteLaws (W : Type) `{Stdio W} : Type := {
  written : W → nat → bytes;
  fwrite_ok w f data : data ≠ [] →
    ∃ n w', fwrite f data w = (n, w') ∧ (0 < n ≤ length data)%nat ∧
      written w' f = written w f ++ take n data
}.

Section Copy.
Context {W : Type} {St : Stdio W} `{!StdioLaws W}.
Implicit Types s : remote_file W.

Lemma with_world_twice w w' s : with_world w (with_world w' s) = with_world w s.
Proof. done. Qed.

Lemma client_read_ok `{!ReadLaws W} t hdl f s block_size rest :
  idle t hdl f s → remaining (world_ s) f = Some rest → 0 < u32 block_size →
  let len := Z.to_nat (Z.min (u32 block_size) max_block_length) in
  ∃ w, client_read t hdl block_size s = (Ok (take len rest), with_world w s) ∧
    idle t hdl f (with_world w s) ∧ remaining w f = Some (drop len rest).
Proof.
  intros Hi Hr Hb len. destruct (fread_ok (world_ s) f len rest Hr) as (w & Hw & Hw').
  exists w. unfold client_read, read.
  assert (Hlen : (if max_block_length <? u32 block_size then max_block_length else u32 block_size) = Z.of_nat len).
  { unfold len, max_block_length. destruct (65000 <? u32 block_size) eqn:E; bool_props; lia. }
  rewrite Hlen. rewrite (proj2 (Z.eqb_neq _ 0)) by (unfold len, max_block_length; lia). rewrite Nat2Z.id.
  destruct (with_file_ok t hdl f s (λ f, let* data := on_stream f (fread f len) in ret (u32 (blen data), data))
    (u32 (blen (take len rest)), take len rest) w Hi) as [Hwf Hi'].
  { intros s' Hs' Hws'. unfold bind, on_stream. rewrite bool_decide_eq_true_2 by done. rewrite Hws', Hw.
    done. }
  by rewrite (bind_ok _ _ _ _ _ Hwf).
Qed.

Lemma pull_loop_ok `{!ReadLaws W} t hdl f block_size fuel s local rest :
  idle t hdl f s → remaining (world_ s) f = Some rest → 0 < u32 block_size →
  (length rest < fuel)%nat →
  ∃ w, pull_loop t fuel hdl block_size local s = (Ok (local ++ rest), with_world w s) ∧
    idle t hdl f (with_world w s).
Proof.
  revert s local rest. induction fuel as [|fuel IH]; intros s local rest Hi Hr Hb Hf; [lia|].
  destruct (client_read_ok t hdl f s block_size rest Hi Hr Hb) as (w & Hc & Hi' & Hr').
  cbn [pull_loop]. rewrite (bind_ok _ _ _ _ _ Hc).
  assert (Hn : (0 < Z.to_nat (Z.min (u32 block_size) max_block_length))%nat)
    by (unfold max_block_length; lia).
  destruct (Z.to_nat (Z.min (u32 block_size) max_block_length)) as [|n]; [lia|].
  destruct rest as [|b rest]; cbn [take drop] in *.
  - exists w. by rewrite app_nil_r.
  - destruct (IH (with_world w s) (local ++ b :: take n rest) (drop n rest) Hi' Hr' Hb) as (w2 & H2 & Hi2).
    { rewrite length_drop. simpl in Hf. lia. }
    exists w2. split; [|done]. rewrite H2, with_world_twice, <-(assoc_L (++)). simpl. by rewrite take_drop.
Qed.

Lemma client_write_ok `{!WriteLaws W} t hdl f s data :
  idle t hdl f s → data ≠ [] →
  ∃ n w, client_write t hdl data s = (Ok (Z.of_nat n), with_world w s) ∧ idle t hdl f (with_world w s) ∧
    (0 < n ≤ length data)%nat ∧ written w f = written (world_ s) f ++ take n data.
Proof.
  intros Hi Hd.
  set (len := if max_block_length <? blen data then max_block_length else blen data).
  assert (Hlen : 0 < len ≤ 65000).
  { unfold len, max_block_length, blen. destruct data; [done|]. destruct (65000 <? _) eqn:E; bool_props;
      simpl length in *; lia. }
  assert (Hne : take (Z.to_nat len) data ≠ []) by (destruct data, (Z.to_nat len) eqn:E; simpl; (done || lia)).
  destruct (fwrite_ok (world_ s) f _ Hne) as (n & w & Hw & Hn & Hw').
  rewrite length_take in Hn.
  destruct (with_file_ok t hdl f s (λ f, let* w := on_stream f (fwrite f (take (Z.to_nat len) data)) in ret (u32 (Z.of_nat w)))
    (Z.of_nat n) w Hi) as [Hwf Hi'].
  { intros s' Hs' Hws'. unfold bind, on_stream. rewrite bool_decide_eq_true_2 by done. rewrite Hws', Hw.
    unfold ret. do 2 f_equal. apply wrap_small. unfold in_word. lia. }
  exists n, w. split_and!; [exact Hwf|done|lia|lia|]. rewrite Hw'. f_equal.
  rewrite take_take. f_equal. lia.
Qed.

Lemma push_block_ok `{!WriteLaws W} t hdl f fuel s block :
  idle t hdl f s → (length block ≤ fuel)%nat →
  ∃ w, push_block t fuel hdl block s = (Ok tt, with_world w s) ∧ idle t hdl f (with_world w s) ∧
    written w f = written (world_ s) f ++ block.
Proof.
  revert s block. induction fuel as [|fuel IH]; intros s block Hi Hf.
  - destruct block; [|simpl in Hf; lia]. exists (world_ s). rewrite app_nil_r. by destruct s.
  - destruct block as [|b block]; [exists (world_ s); rewrite app_nil_r; by destruct s|].
    destruct (client_write_ok t hdl f s (b :: block) Hi) as (n & w & Hc & Hi' & Hn & Hw); [done|].
    cbn [push_block]. rewrite (bind_ok _ _ _ _ _ Hc), Nat2Z.id.
    destruct (IH (with_world w s) (drop n (b :: block)) Hi') as (w2 & H2 & Hi2 & Hw2).
    { rewrite length_drop. simpl in *. lia. }
    exists w2. split_and!; [done|done|]. rewrite Hw2. cbn [world_ with_world].
    by rewrite Hw, <-(assoc_L (++)), take_drop.
Qed.

Lemma push_blocks_ok `{!WriteLaws W} t hdl f s blocks :
  idle t hdl f s →
  ∃ w, push_blocks t hdl blocks s = (Ok tt, with_world w s) ∧ idle t hdl f (with_world w s) ∧
    written w f = written (world_ s) f ++ concat blocks.
Proof.
  revert s. induction blocks as [|b blocks IH]; intros s Hi.
  - exists (world_ s). rewrite app_nil_r. by destruct s.
  - destruct (push_block_ok t hdl f (length b) s b Hi) as (w & H1 & Hi1 & Hw1); [lia|].
    destruct (IH _ Hi1) as (w2 & H2 & Hi2 & Hw2). exists w2. cbn [push_blocks concat].
    rewrite (bind_ok _ _ _ _ _ H1). split_and!; [done|done|]. rewrite Hw2. cbn [world_ with_world].
    by rewrite Hw1, <-(assoc_L (++)).
Qed.

(** Opening and closing a file, when the next handle is not in use. *)
Lemma open_ok path mode f w s :
  inv s → holds_ s = ∅ → files_ s !! u32 (handle_index_ s + 1) = None →
  fopen path mode (streams_ s) (world_ s) = (Some f, w) →
  let hdl := u32 (handle_index_ s + 1) in
  let s' := RemoteFile hdl (<[hdl := f]> (files_ s)) ∅ ({[f]} ∪ streams_ s) w in
  open path mode s = (Ok hdl, s') ∧ f ∉ streams_ s ∧ ∀ t, idle t hdl f s'.
Proof.
  intros Hi Hh Hn Hf hdl s'. pose proof (fopen_fresh _ _ _ _ _ _ Hf) as Hfresh.
  assert (Ho : open path mode s = (Ok hdl, s')).
  { unfold open, do_fopen. unfold bind at 1. rewrite Hf. unfold next_index, bind, modify, gets.
    cbn [handle_index_ files_ holds_ streams_ world_]. fold hdl in Hn |- *. rewrite Hn.
    cbn [option_list list_to_set].
    set (s2 := with_files _ _). assert (Hs2 : s2 = s').
    { unfold s2, s', with_files. cbn. rewrite (right_id_L ∅ (∪)). by rewrite Hh. }
    rewrite Hs2. unfold release. rewrite bind_get, bool_decide_eq_true_2; [done|].
    rewrite referenced_spec. left. exists hdl. cbn. apply lookup_insert_eq. }
  split_and!; [done|done|]. intros t. split_and!; [|done|cbn; apply lookup_insert_eq].
  pose proof (open_fine path mode s Hi) as Hfine. by rewrite Ho in Hfine.
Qed.

Lemma file_close_ok t hdl f s : idle t hdl f s →
  close_impl hdl s = (Ok tt, RemoteFile (handle_index_ s) (delete hdl (files_ s)) ∅
    (streams_ s ∖ {[f]}) (fclose f (world_ s))).
Proof.
  intros (Hi & Hh & Hf). unfold close_impl, try_catch, close. rewrite bind_get, Hf, bind_modify.
  unfold release. rewrite bind_get. rewrite bool_decide_eq_false_2.
  - unfold do_fclose. rewrite bool_decide_eq_true_2; [by cbn; rewrite Hh|].
    cbn. rewrite (i_streams _ Hi), referenced_spec. eauto.
  - rewrite referenced_spec. cbn. rewrite Hh. intros [[h Hd]|[? Hd]]; [|by rewrite lookup_empty in Hd].
    apply lookup_delete_Some in Hd as [Hne Hd]. destruct Hne. by eapply (i_handles _ Hi).
Qed.
End Copy.

(** ** Properties *)

Section Properties.
Context {W : Type} {St : Stdio W} `{!StdioLaws W}.

(** C35 (safety).  Whatever threads do at the same time, no call works on a file that
    is closed and no file is closed twice: after any steps the open streams are exactly
    those of the table and those of the calls in progress, and no two handles share
    one; so a file is closed when its handle is closed and its last call has ended. *)
Theorem files_never_dangle os (w : W) :
  ∃ s, run_ops os (remote_file_new w) = (Ok tt, s) ∧
    (∀ f, f ∈ streams_ s ↔ (∃ hdl, files_ s !! hdl = Some f) ∨ (∃ t, holds_ s !! t = Some f)) ∧
    (∀ h1 h2 f, files_ s !! h1 = Some f → files_ s !! h2 = Some f → h1 = h2).
Proof.
  destruct (run_ops_fine os _ (file_new_inv w)) as (s & E & [Hs Hh]).
  exists s. split_and!; [done| |done]. intros f. by rewrite Hs, referenced_spec.
Qed.

(** C38 (functional).  Downloading a file gives its bytes, whatever the size of a block
    is, as long as it is not a multiple of 2^32: the loop ends, nothing is missing, and
    the file is closed again. *)
Theorem pull_file_downloads `{!ReadLaws W} t s path block_size f w data :
  inv s → holds_ s = ∅ → files_ s !! u32 (handle_index_ s + 1) = None →
  fopen path "rb" (streams_ s) (world_ s) = (Some f, w) → remaining w f = Some data →
  0 < u32 block_size →
  ∃ s', pull_file t (S (length data)) path block_size s = (Ok data, s') ∧
    files_ s' = files_ s ∧ streams_ s' = streams_ s.
Proof.
  intros Hi Hh Hn Hf Hr Hb.
  destruct (open_ok path "rb" f w s Hi Hh Hn Hf) as (Ho & Hfresh & Hidle). specialize (Hidle t).
  destruct (pull_loop_ok t _ f block_size (S (length data)) _ [] data Hidle Hr Hb) as (w2 & Hp & Hi2); [lia|].
  eexists. split.
  - unfold pull_file, client_open. rewrite (bind_ok _ _ _ _ _ Ho), Hp.
    by rewrite (bind_ok _ _ _ _ _ (file_close_ok t _ f _ Hi2)).
  - cbn. rewrite delete_insert_id by done. split; [done|]. set_solver.
Qed.

(** Uploading a file ends as long as every write takes something,
    and what the stream was given is then the blocks that were read, in order. *)
Theorem push_blocks_upload `{!WriteLaws W} t s path blocks f w :
  inv s → holds_ s = ∅ → files_ s !! u32 (handle_index_ s + 1) = None →
  fopen path "wb" (streams_ s) (world_ s) = (Some f, w) → written w f = [] →
  ∃ s' w', push_file t path blocks s = (Ok tt, s') ∧
    world_ s' = fclose f w' ∧ written w' f = concat blocks ∧
    files_ s' = files_ s ∧ streams_ s' = streams_ s.
Proof.
  intros Hi Hh Hn Hf Hw.
  destruct (open_ok path "wb" f w s Hi Hh Hn Hf) as (Ho & Hfresh & Hidle). specialize (Hidle t).
  destruct (push_blocks_ok t _ f _ blocks Hidle) as (w2 & Hp & Hi2 & Hw2).
  eexists _, w2. split.
  - unfold push_file, client_open. rewrite (bind_ok _ _ _ _ _ Ho), Hp. apply (file_close_ok t _ f _ Hi2).
  - cbn in *. rewrite Hw2, Hw, delete_insert_id by done. split_and!; [done..|]. set_solver.
Qed.

(** A write that takes nothing, as on a disk that is full, is tried for ever. *)
Lemma push_block_spins t hdl f s block fuel :
  idle t hdl f s → block ≠ [] → (∀ (w : W) d, fwrite f d w = (O, w)) →
  push_block t fuel hdl block s = (Raise (EUndefined "fuel"), s).
Proof.
  intros Hi Hb Hw. induction fuel as [|fuel IH]; [by destruct block|].
  assert (Hc : client_write t hdl block s = (Ok 0, s)).
  { unfold client_write, write. set (d := take _ block).
    destruct (with_file_ok t hdl f s (λ f, let* w := on_stream f (fwrite f d) in ret (u32 (Z.of_nat w)))
      0 (world_ s) Hi) as [Hwf _]; [|rewrite Hwf; by destruct s].
    intros s' Hs' Hws'. unfold bind, on_stream. rewrite bool_decide_eq_true_2 by done. by rewrite Hw, Hws'. }
  destruct block as [|b block]; [done|]. cbn [push_block]. by rewrite (bind_ok _ _ _ _ _ Hc).
Qed.

(** When the numbers have gone round, an open answers with the handle of a file
    that another call opened, and its own file is closed at once. *)
Lemma open_handle_in_use path mode s f g w :
  inv s → files_ s !! u32 (handle_index_ s + 1) = Some g →
  fopen path mode (streams_ s) (world_ s) = (Some f, w) →
  ∃ s', open path mode s = (Ok (u32 (handle_index_ s + 1)), s') ∧
    files_ s' = files_ s ∧ streams_ s' = streams_ s ∧ world_ s' = fclose f w.
Proof.
  intros Hi Hg Hf. pose proof (fopen_fresh _ _ _ _ _ _ Hf) as Hfresh.
  rewrite (i_streams _ Hi), referenced_spec in Hfresh.
  unfold open, do_fopen. unfold bind at 1. rewrite Hf. unfold next_index, bind, modify, gets.
  cbn [handle_index_ files_ holds_ streams_ world_]. rewrite Hg. unfold release. rewrite bind_get.
  rewrite bool_decide_eq_false_2 by (rewrite referenced_spec; exact Hfresh).
  unfold do_fclose. rewrite bool_decide_eq_true_2 by (cbn; set_solver). eexists. split; [done|]. cbn.
  split_and!; [done| |done]. rewrite (right_id_L ∅ (∪)).
  assert (f ∉ streams_ s) by (by rewrite (i_streams _ Hi), referenced_spec). set_solver.
Qed.
End Properties.

(** *** Witnesses *)

(** A stdio whose streams are their bytes: every file has the contents 1 2 3, reads
    and writes take all they can. *)
Abbreviation toy := (gmap nat bytes).
#[local] Instance toy_stdio : Stdio toy := {|
  fopen _ mode used w :=
    let f := fresh used in
    (Some f, <[f := if String.eqb mode "rb" then [1; 2; 3] else []]> w);
  errno _ := 0;
  ftell _ w := (0, w);
  fseek _ _ _ w := (0, w);
  fread f n w := (take n (default [] (w !! f)), alter (drop n) f w);
  fwrite f d w := (length d, <[f := default [] (w !! f) ++ d]> w);
  fflush _ w := w;
  fclose _ w := w
|}.
#[local] Instance toy_laws : StdioLaws toy.
Proof. split. cbn. intros path mode used w w' f [= <- _]. apply is_fresh. Qed.
#[local] Program Instance toy_reads : ReadLaws toy := {| remaining w f := w !! f |}.
Next Obligation.
  intros w f n rest Hr. cbn in *. eexists. rewrite Hr. split; [done|].
  by rewrite lookup_alter_eq, Hr.
Qed.
#[local] Program Instance toy_writes : WriteLaws toy := {| written w f := default [] (w !! f) |}.
Next Obligation.
  intros w f data Hd. cbn in *. eexists _, _. split; [done|]. split; [destruct data; simpl; (done || lia)|].
  by rewrite lookup_insert_eq, firstn_all.
Qed.

Lemma files_never_dangle_witness :
  ∃ s, run_ops [OOpen "a" "rb"; OAcquire 0 101; OClose 101; OUse 0 (λ w, w); OFinish 0]
         (remote_file_new (∅ : toy)) = (Ok tt, s) ∧
    (∀ f, f ∈ streams_ s ↔ (∃ hdl, files_ s !! hdl = Some f) ∨ (∃ t, holds_ s !! t = Some f)) ∧
    (∀ h1 h2 f, files_ s !! h1 = Some f → files_ s !! h2 = Some f → h1 = h2).
Proof. apply files_never_dangle. Defined.

Lemma pull_file_downloads_witness :
  ∃ s', pull_file 0 4 "a" 2 (remote_file_new (∅ : toy)) = (Ok [1; 2; 3], s') ∧
    files_ s' = files_ (remote_file_new (∅ : toy)) ∧ streams_ s' = streams_ (remote_file_new (∅ : toy)).
Proof.
  apply (pull_file_downloads 0 (remote_file_new (∅ : toy)) "a" 2 0 (<[0%nat := [1; 2; 3]]> ∅) [1; 2; 3]);
    [apply file_new_inv|reflexivity|reflexivity|reflexivity|reflexivity|reflexivity].
Defined.

Lemma push_blocks_upload_witness :
  ∃ s' w', push_file 0 "a" [[1; 2]; [3]] (remote_file_new (∅ : toy)) = (Ok tt, s') ∧
    world_ s' = fclose 0 w' ∧ written w' 0 = [1; 2; 3] ∧
    files_ s' = files_ (remote_file_new (∅ : toy)) ∧ streams_ s' = streams_ (remote_file_new (∅ : toy)).
Proof.
  apply (push_blocks_upload 0 (remote_file_new (∅ : toy)) "a" [[1; 2]; [3]] 0 (<[0%nat := []]> ∅));
    [apply file_new_inv|reflexivity..].
Defined.
