(* ===== verification/RemoteFs.v ===== *)
(** * RemoteFs: directories of the remote file system example

    [src/examples/remote-fs/]: the service [remote_fs] of [server/remote-fs-impl.cpp],
    which keeps paths ([fs_inst_]) and directory iterators ([iterators_]) for the handles
    of its client, both numbered by one counter, and the classes of the client that call
    it ([remote_fs_impl] and [remote_fs_iterator_impl] of [client/rfs-impl.cpp]).

    The paths and the file system are boost's: [Filesystem].  A path is joined and
    normalized by it; operations that ask or change the disk take the world [W]. *)

From S2P Require Import Prelude Messages.

Class Filesystem (W P I : Type) : Type := {
  path_of : string → P;
  is_absolute : P → bool;
  normalize : P → P;
  append : P → string → P;
  path_string : P → string;
  fs_exists : P → W → res bool;
  fs_file_size : P → W → res Z;
  fs_is_directory : P → W → res bool;
  fs_is_symlink : P → W → res bool;
  fs_is_empty : P → W → res bool;
  fs_is_regular_file : P → W → res bool;
  create_directories : P → W → res unit * W;
  remove : P → W → res unit * W;
  directory_iterator : P → W → res I * W;
  increment : I → W → res I * W;
  is_end : I → bool;
  iterator_path : I → W → res P
}.

(** ** Messages

    A handle is a message with an optional value. *)

Definition fs_handle : Type := option Z.
Record fs_handle_path : Type := HandlePath {
  hp_handle : option fs_handle;
  hp_path : option string
}.
Definition handle_value (h : option fs_handle) : Z := default 0 (default None h).
Definition request_path (r : fs_handle_path) : string := default ""%string (hp_path r).

Record fs_element_info : Type := ElementInfo {
  is_exist : bool;
  is_symlink : option bool;
  is_directory : option bool;
  is_empty : option bool;
  is_regular : option bool
}.
Record fs_iterator_info : Type := IteratorInfo {
  ii_handle : Z;
  ii_path : option string;
  ii_end : bool
}.

(** ** remote_fs_impl *)

Record remote_fs (W P I : Type) : Type := RemoteFs {
  handle_index_ : Z;
  fs_inst_ : gmap Z P;
  iterators_ : gmap Z I;
  world_ : W
}.
#[global] Arguments RemoteFs {W P I}.
#[global] Arguments handle_index_ {W P I}.
#[global] Arguments fs_inst_ {W P I}.
#[global] Arguments iterators_ {W P I}.
#[global] Arguments world_ {W P I}.

Section Server.
Context {W P I : Type} {Fs : Filesystem W P I}.
Abbreviation M' := (M (remote_fs W P I)).

Definition remote_fs_new (w : W) : remote_fs W P I := RemoteFs 100 ∅ ∅ w.
Definition with_inst m (s : remote_fs W P I) : remote_fs W P I := RemoteFs (handle_index_ s) m (iterators_ s) (world_ s).
Definition with_iterators m (s : remote_fs W P I) : remote_fs W P I := RemoteFs (handle_index_ s) (fs_inst_ s) m (world_ s).

(** What the library answers: a value or an exception. *)
Definition ask {A} (f : W → res A) : M' A := λ s, (f (world_ s), s).
Definition act {A} (f : W → res A * W) : M' A := λ s,
  let '(r, w) := f (world_ s) in (r, RemoteFs (handle_index_ s) (fs_inst_ s) (iterators_ s) w).

Definition next_index : M' Z :=
  modify (λ s, RemoteFs (u32 (handle_index_ s + 1)) (fs_inst_ s) (iterators_ s) (world_ s)) ;;;
  gets handle_index_.

Definition not_found {A} (text : string) : M' A := raise (EVtrc ERR_NOT_FOUND CATEGORY_INTERNAL text).

Definition iter_from_request (hdl : Z) : M' I :=
  let* s := get in
  match iterators_ s !! hdl with
  | None => not_found "Bad iterator handle"
  | Some i => ret i
  end.

(** The path and the handle. *)
Definition path_from_request (request : fs_handle_path) : M' (P * Z) :=
  let p := path_of (request_path request) in
  if bool_decide (hp_handle request = None) || is_absolute p then
    let* hdl := next_index in
    ret (normalize p, hdl)
  else
    let hdl := handle_value (hp_handle request) in
    let* s := get in
    match fs_inst_ s !! hdl with
    | None => not_found "Bad fs handle"
    | Some p => ret (normalize (append p (request_path request)), hdl)
    end.

(** The value of the response, when it is set. *)
Definition close (hdl : Z) : M' (option Z) :=
  let* s := get in
  match fs_inst_ s !! hdl with
  | Some _ => modify (λ s, with_inst (delete hdl (fs_inst_ s)) s) ;;; ret (Some hdl)
  | None =>
      match iterators_ s !! hdl with
      | Some _ => modify (λ s, with_iterators (delete hdl (iterators_ s)) s) ;;; ret (Some hdl)
      | None => ret None
      end
  end.

(** [insert] keeps what the handle already has. *)
Definition open (request : fs_handle_path) : M' (Z * string) :=
  let* (p, hdl) := path_from_request request in
  modify (λ s, match fs_inst_ s !! hdl with
               | Some _ => s
               | None => with_inst (<[hdl := p]> (fs_inst_ s)) s
               end) ;;;
  ret (hdl, path_string p).

Definition cd (request : fs_handle_path) : M' unit :=
  let hdl := handle_value (hp_handle request) in
  let* s := get in
  match fs_inst_ s !! hdl with
  | None => not_found "Bad fs handle"
  | Some p => modify (λ s, with_inst (<[hdl := normalize (append p (request_path request))]> (fs_inst_ s)) s)
  end.

Definition pwd (request : fs_handle_path) : M' string :=
  let* (p, _) := path_from_request request in
  ret (path_string p).

Definition exists_ (request : fs_handle_path) : M' bool :=
  let* (p, _) := path_from_request request in
  ask (fs_exists p).

Definition file_size (request : fs_handle_path) : M' Z :=
  let* (p, _) := path_from_request request in
  let* n := ask (fs_file_size p) in
  ret (u64 n).

Definition fill_info (p : P) : M' fs_element_info :=
  let* is_exists := ask (fs_exists p) in
  if is_exists then
    let* is_dir := ask (fs_is_directory p) in
    let* symlink := ask (fs_is_symlink p) in
    let* empty := if is_dir then ask (fs_is_empty p) else ret true in
    let* regular := ask (fs_is_regular_file p) in
    ret (ElementInfo true (Some symlink) (Some is_dir) (Some empty) (Some regular))
  else ret (ElementInfo false None None None None).

Definition fill_iter_info (iter : I) (hdl : Z) : M' fs_iterator_info :=
  if is_end iter then ret (IteratorInfo hdl None true)
  else
    let* p := ask (iterator_path iter) in
    ret (IteratorInfo hdl (Some (path_string p)) false).

Definition info (request : fs_handle_path) : M' fs_element_info :=
  let* (p, _) := path_from_request request in
  fill_info p.

Definition mkdir (request : fs_handle_path) : M' Z :=
  let* (p, hdl) := path_from_request request in
  act (create_directories p) ;;;
  ret hdl.

Definition del (request : fs_handle_path) : M' Z :=
  let* (p, hdl) := path_from_request request in
  act (remove p) ;;;
  ret hdl.

Definition insert_iterator (hdl : Z) (iter : I) : M' unit :=
  modify (λ s, match iterators_ s !! hdl with
               | Some _ => s
               | None => with_iterators (<[hdl := iter]> (iterators_ s)) s
               end).

Definition iter_begin (request : fs_handle_path) : M' fs_iterator_info :=
  let* (p, _) := path_from_request request in
  let* new_iterator := act (directory_iterator p) in
  let* iter_hdl := next_index in
  insert_iterator iter_hdl new_iterator ;;;
  fill_iter_info new_iterator iter_hdl.

(** The iterator is copied out of the table, moved, and copied back. *)
Definition iter_next (request : option fs_handle) : M' fs_iterator_info :=
  let hdl := handle_value request in
  let* iter := iter_from_request hdl in
  let* iter := act (increment iter) in
  let* r := fill_iter_info iter hdl in
  modify (λ s, with_iterators (<[hdl := iter]> (iterators_ s)) s) ;;;
  ret r.

Definition iter_info (request : option fs_handle) : M' fs_element_info :=
  let hdl := handle_value request in
  let* iter := iter_from_request hdl in
  let* p := ask (iterator_path iter) in
  fill_info p.

(** The response has the handle of the request, not the new one. *)
Definition iter_clone (request : option fs_handle) : M' fs_iterator_info :=
  let hdl := handle_value request in
  let* iter := iter_from_request hdl in
  let* new_hdl := next_index in
  let* r := fill_iter_info iter hdl in
  insert_iterator new_hdl iter ;;;
  ret r.
End Server.

(** ** The client

    The state is the server's: a call of the stub runs the method. *)

Section Client.
Context {W P I : Type} {Fs : Filesystem W P I}.
Abbreviation M' := (M (remote_fs W P I)).

(** [remote_fs_impl]: its handle. *)
Definition handle_path (h : Z) (path : string) : fs_handle_path := HandlePath (Some (Some h)) (Some path).
Definition create_remote_fs (path : string) : M' Z :=
  let* (hdl, _) := open (HandlePath None (Some path)) in ret hdl.
Definition destroy_remote_fs (fs_handle_ : Z) : M' unit :=
  if fs_handle_ =? 0 then ret tt
  else try_catch (close fs_handle_ ;;; ret tt) (λ _, ret tt).
Definition client_cd (h : Z) (new_path : string) : M' unit := cd (handle_path h new_path).
Definition client_pwd (h : Z) : M' string := pwd (HandlePath (Some (Some h)) None).
Definition client_exists (h : Z) (path : string) : M' bool := exists_ (handle_path h path).
Definition client_info (h : Z) (path : string) : M' fs_element_info := info (handle_path h path).
Definition client_file_size (h : Z) (path : string) : M' Z := file_size (handle_path h path).
Definition client_mkdir (h : Z) (path : string) : M' unit := mkdir (handle_path h path) ;;; ret tt.
Definition client_del (h : Z) (path : string) : M' unit := del (handle_path h path) ;;; ret tt.

(** [remote_fs_iterator_impl]: what the server said last. *)
Definition begin_iterator (h : Z) (path : string) : M' fs_iterator_info := iter_begin (handle_path h path).
Definition client_end (iter_ : fs_iterator_info) : bool := ii_end iter_.
Definition client_next (iter_ : fs_iterator_info) : M' fs_iterator_info := iter_next (Some (Some (ii_handle iter_))).
Definition client_iter_info (iter_ : fs_iterator_info) : M' fs_element_info := iter_info (Some (Some (ii_handle iter_))).
Definition client_clone (iter_ : fs_iterator_info) : M' fs_iterator_info := iter_clone (Some (Some (ii_handle iter_))).
Definition destroy_iterator (iter_ : fs_iterator_info) : M' unit :=
  try_catch (close (ii_handle iter_) ;;; ret tt) (λ _, ret tt).

(** [for( ; !i->end( ); i->next( ) ) ... i->info( ) ...] of [rfs-directory-list.cpp]:
    the paths and what is known of them. *)
Fixpoint list_loop (fuel : nat) (i : fs_iterator_info) (acc : list (string * fs_element_info)) :
    M' (list (string * fs_element_info)) :=
  if client_end i then ret acc
  else
    match fuel with
    | O => raise (EUndefined "fuel")
    | S n =>
        let* ei := client_iter_info i in
        let* i' := client_next i in
        list_loop n i' (acc ++ [(default ""%string (ii_path i), ei)])
    end.
(** The iterator is destroyed in every case. *)
Definition list_dir (fuel : nat) (h : Z) (path : string) : M' (list (string * fs_element_info)) :=
  let* i := begin_iterator h path in λ s,
  match list_loop fuel i [] s with
  | (Ok r, s) => (destroy_iterator i ;;; ret r) s
  | (Raise e, s) => (destroy_iterator i ;;; raise e) s
  end.
End Client.

(** ** Specification *)

Section Specification.
Context {W P I : Type} {Fs : Filesystem W P I}.
Abbreviation M' := (M (remote_fs W P I)).
Implicit Types s : remote_fs W P I.

(** The methods of the service. *)
Inductive op : Type :=
  | OOpen (r : fs_handle_path)
  | OClose (h : Z)
  | OCd (r : fs_handle_path)
  | OPwd (r : fs_handle_path)
  | OExists (r : fs_handle_path)
  | OFileSize (r : fs_handle_path)
  | OInfo (r : fs_handle_path)
  | OMkdir (r : fs_handle_path)
  | ODel (r : fs_handle_path)
  | OIterBegin (r : fs_handle_path)
  | OIterNext (h : option fs_handle)
  | OIterInfo (h : option fs_handle)
  | OIterClone (h : option fs_handle).

Definition void {A} (m : M' A) : M' unit := m ;;; ret tt.
Definition run_op (o : op) : M' unit :=
  match o with
  | OOpen r => void (open r)
  | OClose h => void (close h)
  | OCd r => cd r
  | OPwd r => void (pwd r)
  | OExists r => void (exists_ r)
  | OFileSize r => void (file_size r)
  | OInfo r => void (info r)
  | OMkdir r => void (mkdir r)
  | ODel r => void (del r)
  | OIterBegin r => void (iter_begin r)
  | OIterNext h => void (iter_next h)
  | OIterInfo h => void (iter_info h)
  | OIterClone h => void (iter_clone h)
  end.
(** The exception of a call is the answer to its client. *)
Fixpoint run_ops (os : list op) : M' unit :=
  match os with
  | [] => ret tt
  | o :: os => try_catch (run_op o) (λ _, ret tt) ;;; run_ops os
  end.

(** The handles in use were given out and name one thing each; of those up to [i0] the
    ones that name a path are in [F] and the ones that name an iterator in [T]. *)
Record since (i0 : Z) (F T : Z → Prop) (top : Z) s : Prop := {
  i_base : 0 ≤ i0;
  i_top : i0 ≤ handle_index_ s ≤ top;
  i_inst h : is_Some (fs_inst_ s !! h) → (i0 < h ∨ F h) ∧ h ≤ handle_index_ s;
  i_iter h : is_Some (iterators_ s !! h) → (i0 < h ∨ T h) ∧ h ≤ handle_index_ s;
  i_one h : is_Some (fs_inst_ s !! h) → iterators_ s !! h = None
}.
(** Since the service began. *)
Definition inv : Z → remote_fs W P I → Prop := since 100 (λ _, False) (λ _, False).

(** *** Invariants *)

Section Invariants.
Context {i0 : Z} {F T : Z → Prop}.
Abbreviation inv' := (since i0 F T).

Lemma fs_inv_world top s w : inv' top s →
  inv' top (RemoteFs (handle_index_ s) (fs_inst_ s) (iterators_ s) w).
Proof. intros [H0 H1 H2 H3 H4]. by split. Qed.

(** A computation that uses at most [n] numbers. *)
Definition numbers {A} (n : Z) (m : M' A) : Prop :=
  ∀ top s, inv' top s → top + n < 2 ^ 32 → inv' (top + n) (m s).2.

Lemma inv_mono top top' s : top ≤ top' → inv' top s → inv' top' s.
Proof. intros Ht [H1 H2 H3 H4]. split; [done|lia|done..]. Qed.

Lemma numbers_bind {A B} n k (m : M' A) (f : A → M' B) : 0 ≤ k →
  numbers n m → (∀ a, numbers k (f a)) → numbers (n + k) (bind m f).
Proof.
  intros Hk Hm Hf top s Hi Ht. unfold bind. specialize (Hm top s Hi ltac:(lia)).
  destruct (m s) as [[a|e] s']; cbn in *.
  - rewrite Z.add_assoc. apply Hf; [done|lia].
  - by eapply inv_mono; [|exact Hm]; lia.
Qed.

Lemma numbers_bind0 {A B} n (m : M' A) (f : A → M' B) :
  numbers n m → (∀ a, numbers 0 (f a)) → numbers n (bind m f).
Proof. intros Hm Hf. rewrite <-(Z.add_0_r n). by apply numbers_bind. Qed.

Lemma numbers_0bind {A B} n (m : M' A) (f : A → M' B) : 0 ≤ n →
  numbers 0 m → (∀ a, numbers n (f a)) → numbers n (bind m f).
Proof. intros Hn Hm Hf. rewrite <-(Z.add_0_l n). by apply numbers_bind. Qed.

Lemma numbers_ret {A} (a : A) : numbers 0 (ret a).
Proof. intros top s Hi _. by rewrite Z.add_0_r. Qed.
Lemma numbers_raise {A} e : numbers 0 (raise (A := A) e).
Proof. intros top s Hi _. by rewrite Z.add_0_r. Qed.
Lemma numbers_get : numbers 0 get.
Proof. intros top s Hi _. by rewrite Z.add_0_r. Qed.
Lemma numbers_ask {A} (f : W → res A) : numbers 0 (ask f).
Proof. intros top s Hi _. by rewrite Z.add_0_r. Qed.
Lemma numbers_act {A} (f : W → res A * W) : numbers 0 (act f).
Proof. intros top s Hi _. rewrite Z.add_0_r. unfold act. destruct (f (world_ s)). by apply fs_inv_world. Qed.
Lemma numbers_weaken {A} n k (m : M' A) : n ≤ k → numbers n m → numbers k m.
Proof. intros Hk Hm top s Hi Ht. eapply inv_mono; [|apply (Hm top s); [done|lia]]. lia. Qed.

Lemma next_index_inv : numbers 1 next_index.
Proof.
  intros top s [H0 H1 H2 H3 H4] Ht. unfold next_index, bind, modify, gets. cbn.
  rewrite wrap_small by (unfold in_word; lia).
  split; cbn; [done|lia|intros h [Hh ?]%H2; split; [done|lia]|intros h [Hh ?]%H3; split; [done|lia]|done].
Qed.

(** The number is new. *)
Lemma next_index_new top s : inv' top s → top + 1 < 2 ^ 32 →
  next_index s = (Ok (handle_index_ s + 1), RemoteFs (handle_index_ s + 1) (fs_inst_ s) (iterators_ s) (world_ s)) ∧
  fs_inst_ s !! (handle_index_ s + 1) = None ∧ iterators_ s !! (handle_index_ s + 1) = None.
Proof.
  intros [H0 H1 H2 H3 H4] Ht. split.
  - unfold next_index, bind, modify, gets. cbn. by rewrite wrap_small by (unfold in_word; lia).
  - split; apply eq_None_not_Some; [intros Hh%H2|intros Hh%H3]; lia.
Qed.

Lemma not_found_inv {A} text : numbers 0 (not_found (A := A) text).
Proof. apply numbers_raise. Qed.

Lemma iter_from_request_inv h : numbers 0 (iter_from_request h).
Proof.
  apply numbers_bind0; [apply numbers_get|]. intros s. destruct (iterators_ s !! h);
    [apply numbers_ret|apply not_found_inv].
Qed.

Lemma fill_info_inv p : numbers 0 (fill_info p).
Proof.
  apply numbers_bind0; [apply numbers_ask|]. intros []; [|apply numbers_ret].
  do 2 (apply numbers_bind0; [apply numbers_ask|]; intros ?).
  apply numbers_bind0; [destruct a; [apply numbers_ask|apply numbers_ret]|]. intros ?.
  apply numbers_bind0; [apply numbers_ask|]. intros ?. apply numbers_ret.
Qed.

Lemma fill_iter_info_inv i h : numbers 0 (fill_iter_info i h).
Proof.
  unfold fill_iter_info. destruct (is_end i); [apply numbers_ret|].
  apply numbers_bind0; [apply numbers_ask|]. intros ?. apply numbers_ret.
Qed.

Lemma path_from_request_inv r top s : inv' top s → top + 1 < 2 ^ 32 →
  inv' (top + 1) (path_from_request r s).2 ∧
  ∀ p h, (path_from_request r s).1 = Ok (p, h) →
    ((i0 < h ∨ F h) ∧ h ≤ handle_index_ (path_from_request r s).2) ∧ iterators_ (path_from_request r s).2 !! h = None.
Proof.
  intros Hi Ht. unfold path_from_request. destruct (_ || _).
  - destruct (next_index_new top s Hi Ht) as (Hn & Hf & Hit). rewrite (bind_ok _ _ _ _ _ Hn). cbn. split.
    + pose proof (next_index_inv top s Hi Ht) as H'. by rewrite Hn in H'.
    + intros p h [= _ <-]. split; [|done]. pose proof (i_top _ _ _ _ _ Hi). split; [left|]; lia.
  - rewrite bind_get. destruct (fs_inst_ s !! _) as [p|] eqn:Ef; cbn.
    + split; [eapply inv_mono; [|done]; lia|]. intros p' h [= _ <-].
      split; [apply (i_inst _ _ _ _ _ Hi)|apply (i_one _ _ _ _ _ Hi)]; by rewrite Ef.
    + split; [eapply inv_mono; [|done]; lia|done].
Qed.

Lemma path_numbers r : numbers 1 (path_from_request r).
Proof. intros top s Hi Ht. by apply path_from_request_inv. Qed.

Lemma inv_insert_inst top s h p : inv' top s → (i0 < h ∨ F h) ∧ h ≤ handle_index_ s → iterators_ s !! h = None →
  inv' top (with_inst (<[h := p]> (fs_inst_ s)) s).
Proof.
  intros [H0 H1 H2 H3 H4] Hh Hn.
  split; cbn; [done|done| |done|]; intros x [y [[-> _]|[_ Hx]]%lookup_insert_Some]; eauto.
Qed.

Lemma inv_insert_iterator top s h i : inv' top s → (i0 < h ∨ T h) ∧ h ≤ handle_index_ s → fs_inst_ s !! h = None →
  inv' top (with_iterators (<[h := i]> (iterators_ s)) s).
Proof.
  intros [H0 H1 H2 H3 H4] Hh Hn. split; cbn; [done|done|done| |].
  - intros x [y [[-> _]|[_ Hx]]%lookup_insert_Some]; eauto.
  - intros x Hx. rewrite lookup_insert_ne; [by apply H4|]. intros <-. rewrite Hn in Hx. by destruct Hx.
Qed.

Lemma open_inv r : numbers 1 (open r).
Proof.
  intros top s Hi Ht. unfold open, bind. pose proof (path_from_request_inv r top s Hi Ht) as [Hi' Hh].
  destruct (path_from_request r s) as [[[p h]|e] s']; [|done]. cbn in *.
  destruct (Hh p h eq_refl) as [Hh1 Hh2].
  destruct (fs_inst_ s' !! h); [done|]. by apply inv_insert_inst.
Qed.

Lemma fs_close_inv h : numbers 0 (close h).
Proof.
  intros top s Hi _. rewrite Z.add_0_r. pose proof Hi as [H0 H1 H2 H3 H4]. unfold close. rewrite bind_get.
  destruct (fs_inst_ s !! h) eqn:Ef; [|destruct (iterators_ s !! h) eqn:Ei; [|done]]; cbn.
  - split; cbn; [done|done| |done|]; intros x [y [_ Hx]%lookup_delete_Some]; eauto.
  - split; cbn; [done|done|done| |].
    + intros x [y [_ Hx]%lookup_delete_Some]; eauto.
    + intros x Hx. apply H4 in Hx. by rewrite lookup_delete_None; right.
Qed.

Lemma cd_inv r : numbers 0 (cd r).
Proof.
  intros top s Hi _. rewrite Z.add_0_r. unfold cd. rewrite bind_get.
  destruct (fs_inst_ s !! _) eqn:Ef; [|done]. cbn. apply inv_insert_inst; [done|..].
  - apply (i_inst _ _ _ _ _ Hi). by rewrite Ef.
  - apply (i_one _ _ _ _ _ Hi). by rewrite Ef.
Qed.

(** A question changes nothing. *)
Lemma fill_iter_info_state i h s : (fill_iter_info i h s).2 = s.
Proof. unfold fill_iter_info, bind, ask. destruct (is_end i); [done|]. by destruct (iterator_path i _). Qed.

Lemma iter_begin_inv r : numbers 2 (iter_begin r).
Proof.
  change 2 with (1 + 1). apply numbers_bind; [lia|apply path_numbers|]. intros [p h].
  apply numbers_0bind; [lia|apply numbers_act|]. intros i top s Hi Ht.
  destruct (next_index_new top s Hi Ht) as (Hn & Hf & Hit). rewrite (bind_ok _ _ _ _ _ Hn).
  pose proof (next_index_inv top s Hi Ht) as H'. rewrite Hn in H'. cbn in H'.
  unfold insert_iterator. rewrite bind_modify. cbn [iterators_]. rewrite Hit, fill_iter_info_state.
  apply (inv_insert_iterator _ (RemoteFs _ _ _ _)); [done| |done]. cbn. pose proof (i_top _ _ _ _ _ Hi). split; [left|]; lia.
Qed.

Lemma iter_next_inv h : numbers 0 (iter_next h).
Proof.
  intros top s Hi Ht. pose proof Hi as [H0 H1 H2 H3 H4]. rewrite Z.add_0_r in *. unfold iter_next, iter_from_request.
  unfold bind at 1. rewrite bind_get. destruct (iterators_ s !! handle_value h) as [i|] eqn:Ei; [|done].
  cbn [ret]. unfold ret at 1. unfold bind at 1, act. destruct (increment i (world_ s)) as [[i'|e] w];
    [|by apply fs_inv_world].
  pose proof (fill_iter_info_state i' (handle_value h) (RemoteFs (handle_index_ s) (fs_inst_ s) (iterators_ s) w)) as Hs.
  unfold bind at 1. destruct (fill_iter_info i' _ _) as [[r|e] s']; cbn in Hs; subst; [|by apply fs_inv_world].
  apply (inv_insert_iterator top (RemoteFs (handle_index_ s) (fs_inst_ s) (iterators_ s) w));
    [by apply fs_inv_world|cbn; apply H3; by rewrite Ei|].
  apply eq_None_not_Some. intros Hx%H4. cbn in Hx. congruence.
Qed.

Lemma iter_clone_inv h : numbers 1 (iter_clone h).
Proof.
  apply numbers_0bind; [lia|apply iter_from_request_inv|]. intros i top s Hi Ht.
  destruct (next_index_new top s Hi Ht) as (Hn & Hf & Hit). rewrite (bind_ok _ _ _ _ _ Hn).
  pose proof (next_index_inv top s Hi Ht) as H'. rewrite Hn in H'. cbn in H'.
  set (s1 := RemoteFs _ _ _ _) in *. pose proof (fill_iter_info_state i (handle_value h) s1) as Hs.
  unfold bind. destruct (fill_iter_info i _ s1) as [[r|e] s']; cbn in Hs; subst s'; [|done].
  cbn. rewrite Hit.
  apply (inv_insert_iterator _ s1); [done| |done]. cbn. pose proof (i_top _ _ _ _ _ Hi). split; [left|]; lia.
Qed.

Lemma run_op_inv o : numbers 2 (run_op o).
Proof.
  assert (Hvoid : ∀ A n (m : M' A), numbers n m → numbers n (void m)).
  { intros A n m Hm. apply numbers_bind0; [done|]. intros ?. apply numbers_ret. }
  assert (Hpath : ∀ A r (k : P * Z → M' A), (∀ x, numbers 0 (k x)) → numbers 1 (bind (path_from_request r) k)).
  { intros A r k Hk. apply numbers_bind0; [apply path_numbers|done]. }
  assert (Hret : ∀ A B (m : M' A) (b : B), numbers 0 m → numbers 0 (m ;;; ret b)).
  { intros A B m b Hm. apply numbers_bind0; [done|]. intros ?. apply numbers_ret. }
  destruct o; cbn [run_op]; try apply Hvoid.
  - by apply (numbers_weaken 1), open_inv.
  - by apply (numbers_weaken 0), fs_close_inv.
  - by apply (numbers_weaken 0), cd_inv.
  - apply (numbers_weaken 1); [done|]. apply Hpath. intros []. apply numbers_ret.
  - apply (numbers_weaken 1); [done|]. apply Hpath. intros []. apply numbers_ask.
  - apply (numbers_weaken 1); [done|]. apply Hpath. intros []. apply numbers_bind0; [apply numbers_ask|].
    intros ?. apply numbers_ret.
  - apply (numbers_weaken 1); [done|]. apply Hpath. intros []. apply fill_info_inv.
  - apply (numbers_weaken 1); [done|]. apply Hpath. intros []. apply Hret, numbers_act.
  - apply (numbers_weaken 1); [done|]. apply Hpath. intros []. apply Hret, numbers_act.
  - apply iter_begin_inv.
  - by apply (numbers_weaken 0), iter_next_inv.
  - apply (numbers_weaken 0); [done|]. apply numbers_bind0; [apply iter_from_request_inv|]. intros ?.
    apply numbers_bind0; [apply numbers_ask|]. intros ?. apply fill_info_inv.
  - by apply (numbers_weaken 1), iter_clone_inv.
Qed.

Lemma run_ops_inv os top s : inv' top s → top + 2 * blen os < 2 ^ 32 →
  inv' (top + 2 * blen os) (run_ops os s).2.
Proof.
  revert top s. induction os as [|o os IH]; intros top s Hi Ht; [cbn; by rewrite Z.add_0_r|].
  assert (Hlen : blen (o :: os) = blen os + 1) by (unfold blen; simpl length; lia).
  pose proof (blen_nonneg os). rewrite Hlen in *. cbn [run_ops]. unfold bind, try_catch.
  assert (H1 : inv' (top + 2) (run_op o s).2) by (apply run_op_inv; [done|lia]).
  replace (top + 2 * (blen os + 1)) with ((top + 2) + 2 * blen os) by lia.
  destruct (run_op o s) as [[[]|e] s']; cbn in H1.
  - apply IH; [done|lia].
  - destruct e; try (apply IH; [done|lia]). eapply inv_mono; [|exact H1]. lia.
Qed.

End Invariants.

(** What the service holds now is where a history starts from. *)
Lemma inv_since top s : inv top s →
  since (handle_index_ s) (λ h, is_Some (fs_inst_ s !! h)) (λ h, is_Some (iterators_ s !! h)) top s.
Proof.
  intros [H0 H1 H2 H3 H4]. split; [lia|lia| | |done]; intros h Hh; (split; [by right|]);
    [by apply H2|by apply H3].
Qed.

Lemma fs_new_inv w : inv 100 (remote_fs_new w).
Proof. split; cbn; [lia|lia|by intros h []..|by intros h []]. Qed.
End Specification.

(** ** What a file system does *)

(** The paths an iterator has yet to show: moving it takes the first away. *)
Class IteratorLaws (W P I : Type) `{Filesystem W P I} : Type := {
  entries : I → W → list P;
  entries_nil i w : entries i w = [] ↔ is_end i = true;
  entries_path i w p ps : entries i w = p :: ps → iterator_path i w = Ok p;
  entries_next i w p ps : entries i w = p :: ps →
    ∃ i' w', increment i w = (Ok i', w') ∧ entries i' w' = ps
}.
(** Questions about a path are answered. *)
Class AnswerLaws (W P I : Type) `{Filesystem W P I} : Prop := {
  exists_answer p (w : W) : ∃ b, fs_exists p w = Ok b;
  directory_answer p (w : W) : ∃ b, fs_is_directory p w = Ok b;
  symlink_answer p (w : W) : ∃ b, fs_is_symlink p w = Ok b;
  empty_answer p (w : W) : ∃ b, fs_is_empty p w = Ok b;
  regular_answer p (w : W) : ∃ b, fs_is_regular_file p w = Ok b
}.

Section Listing.
Context {W P I : Type} {Fs : Filesystem W P I} `{!IteratorLaws W P I} `{!AnswerLaws W P I}.
Implicit Types s : remote_fs W P I.

Lemma fill_info_ok p s : ∃ ei, fill_info p s = (Ok ei, s).
Proof.
  unfold fill_info, ask, bind.
  destruct (exists_answer p (world_ s)) as [[] ->]; [|by eexists].
  destruct (directory_answer p (world_ s)) as [d Hd], (symlink_answer p (world_ s)) as [l Hl],
    (regular_answer p (world_ s)) as [r Hr], (empty_answer p (world_ s)) as [e He].
  rewrite Hd, Hl. destruct d; rewrite ?He; unfold ret at 1; rewrite Hr; by eexists.
Qed.

(** What the server says of an iterator. *)
Definition said (h : Z) (ps : list P) : fs_iterator_info :=
  match ps with
  | [] => IteratorInfo h None true
  | p :: _ => IteratorInfo h (Some (path_string p)) false
  end.

Lemma fill_iter_info_ok i h s : fill_iter_info i h s = (Ok (said h (entries i (world_ s))), s).
Proof.
  unfold fill_iter_info, said. destruct (entries i (world_ s)) as [|p ps] eqn:E.
  - by apply entries_nil in E as ->.
  - destruct (is_end i) eqn:Ei; [apply (entries_nil i (world_ s)) in Ei; congruence|].
    unfold bind, ask. by rewrite (entries_path _ _ _ _ E).
Qed.

Definition with_iterator (h : Z) (i : I) (w : W) s : remote_fs W P I :=
  RemoteFs (handle_index_ s) (fs_inst_ s) (<[h := i]> (iterators_ s)) w.

Lemma with_iterator_twice h i w i' w' s :
  with_iterator h i w (with_iterator h i' w' s) = with_iterator h i w s.
Proof. unfold with_iterator. cbn [iterators_ handle_index_ fs_inst_]. by rewrite insert_insert_eq. Qed.

Lemma iter_next_ok h i s p ps :
  iterators_ s !! h = Some i → entries i (world_ s) = p :: ps →
  ∃ i' w', iter_next (Some (Some h)) s = (Ok (said h ps), with_iterator h i' w' s) ∧ entries i' w' = ps.
Proof.
  intros Hi He. destruct (entries_next _ _ _ _ He) as (i' & w' & Hn & He').
  exists i', w'. split; [|done]. unfold iter_next, iter_from_request. cbv zeta. change (handle_value (Some (Some h))) with h.
  unfold bind at 1. rewrite bind_get, Hi. unfold ret at 1, bind at 1, act. rewrite Hn.
  rewrite (bind_ok _ _ _ _ _ (fill_iter_info_ok _ _ _)). cbn. by rewrite He'.
Qed.

Lemma iter_info_ok h i s p ps :
  iterators_ s !! h = Some i → entries i (world_ s) = p :: ps →
  ∃ ei, iter_info (Some (Some h)) s = (Ok ei, s).
Proof.
  intros Hi He. destruct (fill_info_ok p s) as [ei Hei]. exists ei. unfold iter_info, iter_from_request.
  cbv zeta. change (handle_value (Some (Some h))) with h. unfold bind at 1. rewrite bind_get, Hi. unfold ret, bind, ask.
  by rewrite (entries_path _ _ _ _ He).
Qed.

Lemma list_loop_ok fuel h i s acc ps :
  iterators_ s !! h = Some i → entries i (world_ s) = ps → (length ps ≤ fuel)%nat →
  ∃ r i' w', list_loop fuel (said h ps) acc s = (Ok (acc ++ r), with_iterator h i' w' s) ∧
    r.*1 = path_string <$> ps.
Proof.
  revert i s acc ps. induction fuel as [|fuel IH]; intros i s acc [|p ps] Hi He Hf;
    try (simpl in Hf; lia);
    try (exists [], i, (world_ s); cbn; rewrite app_nil_r; split; [|done]; unfold with_iterator;
         rewrite insert_id by done; by destruct s).
  destruct (iter_info_ok h i s p ps Hi He) as [ei Hei].
  destruct (iter_next_ok h i s p ps Hi He) as (i1 & w1 & Hn & He1).
  destruct (IH i1 (with_iterator h i1 w1 s) (acc ++ [(path_string p, ei)]) ps) as (r & i2 & w2 & Hl & Hr);
    [apply lookup_insert_eq|done|simpl in Hf; lia|].
  exists ((path_string p, ei) :: r), i2, w2. split; [|cbn; by rewrite Hr].
  cbn [list_loop said client_end ii_end]. unfold client_iter_info, client_next. cbn [said ii_handle].
  rewrite (bind_ok _ _ _ _ _ Hei), (bind_ok _ _ _ _ _ Hn).
  change (default _ _) with (path_string p). rewrite Hl.
  by rewrite with_iterator_twice, <-(assoc_L (++)).
Qed.
End Listing.

(** ** Properties *)

Section Properties.
Context {W P I : Type} {Fs : Filesystem W P I}.
Implicit Types s : remote_fs W P I.

(** A path below the one of a handle. *)
Lemma path_below h path p s : fs_inst_ s !! h = Some p → is_absolute (path_of path) = false →
  path_from_request (handle_path h path) s = (Ok (normalize (append p path), h), s).
Proof.
  intros Hp Habs. unfold path_from_request. rewrite bool_decide_eq_false_2 by done. cbn [orb].
  change (request_path (handle_path h path)) with path. rewrite Habs, bind_get.
  change (handle_value (hp_handle (handle_path h path))) with h. by rewrite Hp.
Qed.

(** What [open] and [iter_begin] answer with. *)
Lemma open_answer top s r h p : inv top s → top + 1 < 2 ^ 32 → (open r s).1 = Ok (h, p) →
  handle_index_ s < h ∨ h = handle_value (hp_handle r) ∧ is_Some (fs_inst_ s !! h).
Proof.
  intros Hi Ht. unfold open, path_from_request. destruct (_ || _).
  - destruct (next_index_new top s Hi Ht) as (Hn & _). unfold bind at 1. rewrite (bind_ok _ _ _ _ _ Hn).
    cbn. intros [= <- _]. left. lia.
  - unfold bind at 1. rewrite bind_get. destruct (fs_inst_ s !! _) as [q|] eqn:E; [|done].
    cbn. intros [= <- _]. right. by rewrite E.
Qed.

Lemma iter_begin_answer top s r i : inv top s → top + 2 < 2 ^ 32 → (iter_begin r s).1 = Ok i →
  handle_index_ s < ii_handle i.
Proof.
  intros Hi Ht. unfold iter_begin, bind at 1. pose proof (path_numbers r top s Hi ltac:(lia)) as Hp.
  assert (Hm : handle_index_ s ≤ handle_index_ (path_from_request r s).2).
  { unfold path_from_request. destruct (_ || _).
    - destruct (next_index_new top s Hi ltac:(lia)) as (Hn & _). rewrite (bind_ok _ _ _ _ _ Hn). cbn. lia.
    - rewrite bind_get. by destruct (fs_inst_ s !! _). }
  destruct (path_from_request r s) as [[[p ?]|e] s1]; [|done]. cbn in Hp, Hm |- *.
  unfold bind at 1, act. destruct (directory_iterator p (world_ s1)) as [[it|e] w]; [|done].
  destruct (next_index_new (top + 1) (RemoteFs (handle_index_ s1) (fs_inst_ s1) (iterators_ s1) w)
    (fs_inv_world _ _ _ Hp) ltac:(lia)) as (Hn & _).
  rewrite (bind_ok _ _ _ _ _ Hn). unfold insert_iterator. rewrite bind_modify.
  unfold fill_iter_info, bind, ask, ret. cbn [handle_index_]. destruct (is_end it); [intros [= <-]; cbn; lia|].
  destruct (iterator_path it _) as [q|e]; [|done]. intros [= <-]. cbn. lia.
Qed.

(** Closing takes away what the handle names, from where it stands. *)
Lemma close_deletes top s h : inv top s →
  fs_inst_ (close h s).2 = delete h (fs_inst_ s) ∧ iterators_ (close h s).2 = delete h (iterators_ s).
Proof.
  intros [_ _ _ _ H4]. unfold close. rewrite bind_get.
  destruct (fs_inst_ s !! h) eqn:Ef; [|destruct (iterators_ s !! h) eqn:Ei]; cbn.
  - rewrite (delete_id (iterators_ s)); [done|]. apply H4. by rewrite Ef.
  - by rewrite (delete_id (fs_inst_ s)).
  - by rewrite !delete_id.
Qed.

(** C39 (invariant).  Whatever is called, one call after another, and whatever the disk
    answers, until the counter goes round, which takes more than two thousand million
    calls: the handles in use are numbers the counter gave, and each names a path or an
    iterator and not both; whatever is called from then on, a number given before names
    a path only if it names one now and an iterator only if it names one now, so a
    handle that was closed names nothing ever again; a new path or iterator gets a
    number never given before, unless [open] is asked below a handle, which it then
    answers with; closing a handle takes away what it names and nothing else.
    ([iter_clone] answers with the handle of its original: [clone_takes_original].) *)
Theorem handles_name_one_thing os os' (w : W) :
  2 * blen (os ++ os') + 102 < 2 ^ 32 →
  let s := (run_ops os (remote_fs_new w)).2 in
  let s' := (run_ops os' s).2 in
  (∀ h, (is_Some (fs_inst_ s !! h) ∨ is_Some (iterators_ s !! h) → 100 < h ≤ handle_index_ s) ∧
     ¬ (is_Some (fs_inst_ s !! h) ∧ is_Some (iterators_ s !! h))) ∧
  (∀ h, h ≤ handle_index_ s →
     (is_Some (fs_inst_ s' !! h) → is_Some (fs_inst_ s !! h)) ∧
     (is_Some (iterators_ s' !! h) → is_Some (iterators_ s !! h))) ∧
  (∀ r h p, (open r s).1 = Ok (h, p) →
     handle_index_ s < h ∨ h = handle_value (hp_handle r) ∧ is_Some (fs_inst_ s !! h)) ∧
  (∀ r i, (iter_begin r s).1 = Ok i → handle_index_ s < ii_handle i) ∧
  (∀ h, fs_inst_ (close h s).2 = delete h (fs_inst_ s) ∧ iterators_ (close h s).2 = delete h (iterators_ s)).
Proof.
  rewrite blen_app. intros Ht s s'. pose proof (blen_nonneg os). pose proof (blen_nonneg os').
  assert (Hi : inv (100 + 2 * blen os) s) by (apply run_ops_inv; [apply fs_new_inv|lia]).
  pose proof (run_ops_inv os' _ s (inv_since _ _ Hi) ltac:(lia)) as Hi'. fold s' in Hi'.
  split_and!.
  - intros h. pose proof Hi as [_ _ H2 H3 H4]. split.
    + intros [[[] ?]%H2|[[] ?]%H3]; by split.
    + intros [Hf%H4 Hn]. rewrite Hf in Hn. by destruct Hn.
  - intros h Hh. pose proof Hi' as [_ _ H2 H3 _].
    split; [intros [[] ?]%H2|intros [[] ?]%H3]; [lia|done|lia|done].
  - intros r h p. by apply (open_answer _ _ _ _ _ Hi); lia.
  - intros r i. by apply (iter_begin_answer _ _ _ _ Hi); lia.
  - intros h. by eapply close_deletes.
Qed.

(** A client that lists a directory below its own sees the entries
    of the directory, each once and in their order, the loop ends, and the iterator is
    gone when it has. *)
Theorem list_dir_entries `{!IteratorLaws W P I} `{!AnswerLaws W P I} top s h p path i w ps :
  inv top s → top + 1 < 2 ^ 32 →
  fs_inst_ s !! h = Some p → is_absolute (path_of path) = false →
  directory_iterator (normalize (append p path)) (world_ s) = (Ok i, w) → entries i w = ps →
  ∃ r s', list_dir (length ps) h path s = (Ok r, s') ∧ r.*1 = path_string <$> ps ∧
    fs_inst_ s' = fs_inst_ s ∧ iterators_ s' = iterators_ s.
Proof.
  intros Hi Ht Hp Habs Hd He. set (s1 := RemoteFs (handle_index_ s) (fs_inst_ s) (iterators_ s) w).
  destruct (next_index_new top s1 (fs_inv_world _ _ _ Hi) Ht) as (Hn & Hf & Hit).
  set (hdl := handle_index_ s1 + 1) in *.
  set (s2 := with_iterator hdl i w (RemoteFs hdl (fs_inst_ s) (iterators_ s) w)).
  assert (Hb : begin_iterator h path s = (Ok (said hdl ps), s2)).
  { unfold begin_iterator, iter_begin. rewrite (bind_ok _ _ _ _ _ (path_below h path p s Hp Habs)).
    unfold bind at 1, act. rewrite Hd. fold s1.
    rewrite (bind_ok _ _ _ _ _ Hn). unfold insert_iterator. rewrite bind_modify.
    cbn [iterators_ s1] in Hit |- *. rewrite Hit. rewrite fill_iter_info_ok. cbn. by rewrite He. }
  unfold list_dir. rewrite (bind_ok _ _ _ _ _ Hb).
  destruct (list_loop_ok (length ps) hdl i s2 [] ps) as (r & i' & w' & Hl & Hr);
    [apply lookup_insert_eq|done|done|].
  set (s3 := with_iterator hdl i' w' s2) in *.
  assert (Hdel : delete hdl (iterators_ s3) = iterators_ s).
  { cbn. rewrite !delete_insert_eq. by apply delete_id. }
  assert (Hdes : destroy_iterator (said hdl ps) s3 = (Ok tt, with_iterators (iterators_ s) s3)).
  { rewrite <-Hdel. assert (Hh : ii_handle (said hdl ps) = hdl) by (by destruct ps).
    unfold destroy_iterator. rewrite Hh. unfold try_catch, close. unfold bind at 1. rewrite bind_get.
    change (fs_inst_ s3) with (fs_inst_ s). change (fs_inst_ s1) with (fs_inst_ s) in Hf. rewrite Hf.
    change (iterators_ s3) with (<[hdl := i']> (iterators_ s2)) at 1. by rewrite lookup_insert_eq. }
  exists r, (with_iterators (iterators_ s) s3). split_and!; [|exact Hr|done|done].
  rewrite Hl. by rewrite (bind_ok _ _ _ _ _ Hdes).
Qed.

(** A clone has the handle of its original: the copy the server makes is
    out of reach, and when the clone goes away it takes the original with it. *)
Theorem clone_takes_original `{!IteratorLaws W P I} top s h i :
  inv top s → top + 1 < 2 ^ 32 → iterators_ s !! h = Some i →
  let iter_ := said h (entries i (world_ s)) in
  ∃ s1 s2, client_clone iter_ s = (Ok iter_, s1) ∧
    destroy_iterator iter_ s1 = (Ok tt, s2) ∧
    client_next iter_ s2 = (Raise (EVtrc ERR_NOT_FOUND CATEGORY_INTERNAL "Bad iterator handle"), s2) ∧
    iterators_ s2 = <[handle_index_ s + 1 := i]> (delete h (iterators_ s)).
Proof.
  intros Hi Ht Hit iter_. destruct (next_index_new top s Hi Ht) as (Hn & Hf & Hnew).
  assert (Hh : ii_handle iter_ = h) by (unfold iter_; by destruct (entries i (world_ s))).
  assert (Hne : handle_index_ s + 1 ≠ h) by congruence.
  assert (Hfs : fs_inst_ s !! h = None).
  { apply eq_None_not_Some. intros Hx%(i_one _ _ _ _ _ Hi). congruence. }
  set (s0 := RemoteFs (handle_index_ s + 1) (fs_inst_ s) (iterators_ s) (world_ s)) in *.
  set (m := <[handle_index_ s + 1 := i]> (iterators_ s)).
  exists (with_iterators m s0), (with_iterators (delete h m) s0). split_and!.
  - unfold client_clone. rewrite Hh. unfold iter_clone, iter_from_request. cbv zeta.
    change (handle_value (Some (Some h))) with h. unfold bind at 1. rewrite bind_get, Hit.
    unfold ret at 1. rewrite (bind_ok _ _ _ _ _ Hn), (bind_ok _ _ _ _ _ (fill_iter_info_ok _ _ _)).
    unfold insert_iterator. rewrite bind_modify. change (iterators_ s0) with (iterators_ s) at 1. by rewrite Hnew.
  - unfold destroy_iterator, try_catch, close. rewrite Hh. unfold bind at 1. rewrite bind_get.
    change (fs_inst_ (with_iterators m s0)) with (fs_inst_ s). rewrite Hfs.
    change (iterators_ (with_iterators m s0)) with m. unfold m at 1. by rewrite lookup_insert_ne, Hit.
  - unfold client_next, iter_next, iter_from_request. rewrite Hh. cbv zeta.
    change (handle_value (Some (Some h))) with h. unfold bind at 1. rewrite bind_get.
    change (iterators_ (with_iterators (delete h m) s0)) with (delete h m). by rewrite lookup_delete_eq.
  - cbn. unfold m. by rewrite delete_insert_ne.
Qed.

(** A path is the one the instance was opened with and every directory it changed to
    since, joined and normalized; an absolute one is joined too. *)
Definition walked (start : string) (dirs : list string) : P :=
  foldl (λ p q, normalize (append p q)) (normalize (path_of start)) dirs.

Lemma cds_path h dirs p x : is_absolute (path_of "") = false → fs_inst_ x !! h = Some p →
    ∃ s', foldr (λ d m, client_cd h d ;;; m) (client_pwd h) dirs x =
        (Ok (path_string (normalize (append (foldl (λ p q, normalize (append p q)) p dirs) ""))), s') ∧
      fs_inst_ s' = <[h := foldl (λ p q, normalize (append p q)) p dirs]> (fs_inst_ x).
Proof.
  intros Habs. revert p x. induction dirs as [|d dirs IH]; intros p x Hp; cbn [foldr foldl].
  - exists x. split; [|by rewrite insert_id]. unfold client_pwd, pwd, path_from_request.
    rewrite bool_decide_eq_false_2 by done. cbn [orb].
    change (request_path (HandlePath (Some (Some h)) None)) with ""%string. rewrite Habs.
    unfold bind at 1. rewrite bind_get. change (handle_value (hp_handle (HandlePath (Some (Some h)) None))) with h.
    by rewrite Hp.
  - destruct (IH (normalize (append p d)) (with_inst (<[h := normalize (append p d)]> (fs_inst_ x)) x))
      as (s' & Hs' & Hf'); [apply lookup_insert_eq|].
    exists s'. split; [|rewrite Hf'; cbn; by rewrite insert_insert_eq].
    assert (Hcd : client_cd h d x = (Ok tt, with_inst (<[h := normalize (append p d)]> (fs_inst_ x)) x)).
    { unfold client_cd, cd. cbv zeta. rewrite bind_get.
      change (handle_value (hp_handle (handle_path h d))) with h. by rewrite Hp. }
    by rewrite (bind_ok _ _ _ _ _ Hcd).
Qed.

Lemma session_path top s start dirs :
  inv top s → top + 1 < 2 ^ 32 → is_absolute (path_of "") = false →
  ∃ h s', (let* h := create_remote_fs start in
           foldr (λ d m, client_cd h d ;;; m) (client_pwd h) dirs) s =
      (Ok (path_string (normalize (append (walked start dirs) ""))), s') ∧
    fs_inst_ s !! h = None ∧ fs_inst_ s' = <[h := walked start dirs]> (fs_inst_ s).
Proof.
  intros Hi Ht Habs. destruct (next_index_new top s Hi Ht) as (Hn & Hf & _).
  set (h := handle_index_ s + 1) in *.
  set (s1 := with_inst (<[h := normalize (path_of start)]> (fs_inst_ s))
    (RemoteFs h (fs_inst_ s) (iterators_ s) (world_ s))).
  assert (Hopen : create_remote_fs start s = (Ok h, s1)).
  { unfold create_remote_fs, open, path_from_request. rewrite bool_decide_eq_true_2 by done. cbn [orb].
    unfold bind at 1 2 3. rewrite Hn. cbn. by rewrite Hf. }
  destruct (cds_path h dirs (normalize (path_of start)) s1 Habs) as (s' & Hs' & Hf'); [apply lookup_insert_eq|].
  exists h, s'. split_and!; [|done|rewrite Hf'; cbn; by rewrite insert_insert_eq].
  by rewrite (bind_ok _ _ _ _ _ Hopen).
Qed.

(** Opening a path below a handle answers with that handle and the joined path, and
    keeps neither. *)
Lemma open_below h path p s : fs_inst_ s !! h = Some p → is_absolute (path_of path) = false →
  open (handle_path h path) s = (Ok (h, path_string (normalize (append p path))), s).
Proof.
  intros Hp Habs. unfold open. rewrite (bind_ok _ _ _ _ _ (path_below h path p s Hp Habs)).
  rewrite bind_modify, Hp. done.
Qed.
End Properties.

(** *** Witnesses *)

(** A disk that never changes: paths are strings, every directory has two entries. *)
#[local] Instance toy_fs : Filesystem unit string (list string) := {|
  path_of p := p;
  is_absolute p := String.prefix "/" p;
  normalize p := p;
  append p q := (p ++ "/" ++ q)%string;
  path_string p := p;
  fs_exists _ _ := Ok true;
  fs_file_size _ _ := Ok 0;
  fs_is_directory _ _ := Ok false;
  fs_is_symlink _ _ := Ok false;
  fs_is_empty _ _ := Ok true;
  fs_is_regular_file _ _ := Ok true;
  create_directories _ w := (Ok tt, w);
  remove _ w := (Ok tt, w);
  directory_iterator p w := (Ok [(p ++ "/a")%string; (p ++ "/b")%string], w);
  increment i w := match i with [] => (Raise (EUndefined "past the end"), w) | _ :: i => (Ok i, w) end;
  is_end i := match i with [] => true | _ :: _ => false end;
  iterator_path i _ := match i with [] => Raise (EUndefined "past the end") | p :: _ => Ok p end
|}.
#[local] Program Instance toy_iterators : IteratorLaws unit string (list string) := {| entries i _ := i |}.
Next Obligation. by intros []. Qed.
Next Obligation. cbn. by intros i w p ps ->. Qed.
Next Obligation. cbn. intros i w p ps ->. by exists ps, w. Qed.
#[local] Instance toy_answers : AnswerLaws unit string (list string).
Proof. split; by eexists. Qed.

Definition toy_home : remote_fs unit string (list string) :=
  RemoteFs 102 {[101 := "/home"%string]} {[102 := ["/home/a"%string]]} tt.
Lemma toy_home_inv : inv 102 toy_home.
Proof.
  split; cbn; [lia|lia| | |]; intros h [x Hx]; apply lookup_singleton_Some in Hx as [<- _];
    [lia|lia|reflexivity].
Qed.

(** A path and an iterator are opened, the path is closed, and another is opened: the
    number of the first is not used again. *)
Lemma handles_name_one_thing_witness :
  let here := HandlePath None None in
  let s := (run_ops [OOpen here; OIterBegin here; OClose 101]
             (remote_fs_new (P := string) (I := list string) tt)).2 in
  let s' := (run_ops [OOpen here] s).2 in
  handle_index_ s' = 104 ∧ fs_inst_ s' !! 104 = Some ""%string ∧ ¬ is_Some (fs_inst_ s' !! 101).
Proof.
  intros here s s'. split; [reflexivity|]. split; [reflexivity|]. intros Hs.
  destruct (handles_name_one_thing [OOpen here; OIterBegin here; OClose 101] [OOpen here]
    (P := string) (I := list string) tt) as (_ & Hold & _); [reflexivity|].
  destruct (Hold 101) as [Hf _]; [vm_compute; discriminate|]. apply Hf in Hs. by destruct Hs.
Defined.

Lemma list_dir_entries_witness :
  ∃ r s', list_dir 2 101 "doc" toy_home = (Ok r, s') ∧
    r.*1 = ["/home/doc/a"; "/home/doc/b"]%string ∧
    fs_inst_ s' = fs_inst_ toy_home ∧ iterators_ s' = iterators_ toy_home.
Proof.
  refine (list_dir_entries 102 toy_home 101 "/home" "doc" ["/home/doc/a"; "/home/doc/b"]%string tt
    ["/home/doc/a"; "/home/doc/b"]%string _ _ _ _ _ _); [apply toy_home_inv|reflexivity..].
Defined.

Lemma clone_takes_original_witness :
  let iter_ := IteratorInfo 102 (Some "/home/a"%string) false in
  ∃ s1 s2, client_clone iter_ toy_home = (Ok iter_, s1) ∧
    destroy_iterator iter_ s1 = (Ok tt, s2) ∧
    client_next iter_ s2 = (Raise (EVtrc ERR_NOT_FOUND CATEGORY_INTERNAL "Bad iterator handle"), s2) ∧
    iterators_ s2 = <[103 := ["/home/a"%string]]> (delete 102 (iterators_ toy_home)).
Proof.
  refine (clone_takes_original 102 toy_home 102 ["/home/a"%string] _ _ _);
    [apply toy_home_inv|reflexivity..].
Defined.
