(* ===== verification/Stress.v ===== *)
(** * Stress: the server of the stress example

    [src/examples/stress/server/]: [application::impl] of [stress-application.cpp] (where
    listeners are created from text, started, and started again when accepting failed;
    timers that clients register) and the callback of the timers in
    [stress-service-impl.cpp].

    Timers are the ones of Timer, over the deadline timer of asio: waits end and handlers
    run in steps of their own. *)

From S2P Require Import Prelude Messages Timer Http.

(** ** create_from_string *)

Inductive endpoint : Type :=
  | Local (path : bytes)
  | Tcp (address : bytes) (port : Z).

(** [find_last_of( ':' )] *)
Fixpoint find_last_colon (name : bytes) (i : nat) (found : option nat) : option nat :=
  match name with
  | [] => found
  | c :: name => find_last_colon name (S i) (if c =? 58 then Some i else found)
  end.
Definition split_params (name : bytes) : list bytes :=
  match find_last_colon name 0 None with
  | None => [name]
  | Some delim_pos => [take delim_pos name; drop (S delim_pos) name]
  end.
Definition create_from_string {L : LexicalCast} (name : bytes) : res endpoint :=
  match split_params name with
  | [path] => Ok (Local path)
  | [address; port] =>
      match to_unsigned 16 port with
      | Ok port => Ok (Tcp address port)
      | Raise e => Raise e
      end
  | _ => Raise (EUndefined "not reached")
  end.

(** ** options *)

(** The numbers of the command line. *)
Record variables_map : Type := VariablesMap {
  message_size : option Z; stack_size : option Z; read_size : option Z; max_calls : option Z
}.
Definition override (v d : option Z) : option Z := match v with Some _ => v | None => d end.
Definition options (params : variables_map) (opts : session_options) : session_options :=
  SessionOptions (override (max_calls params) (so_max_active_calls opts))
    (override (message_size params) (so_max_message_length opts))
    (override (stack_size params) (so_max_stack_size opts))
    (override (read_size params) (so_read_buffer_size opts))
    (so_init_timeout opts).

(** ** app_impl *)

Record app_impl : Type := AppImpl { call_count_ : Z; key_ : bytes; posted_ : list nat }.
Definition execute (call : nat) (a : app_impl) : app_impl :=
  AppImpl (u64 (call_count_ a + 1)) (key_ a) (posted_ a ++ [call]).
Definition session_key_required (a : app_impl) : bool := match key_ a with [] => false | _ :: _ => true end.
Definition get_session_key (a : app_impl) : bytes := key_ a.

(** ** Timers *)

(** A timer object with what its handlers are bound to: the id, the period, the client
    of the callback. *)
Record delayed_call (T : Type) : Type := DelayedCall {
  d_id : Z; d_microsec : nat; d_client : nat; d_timer : T
}.
#[global] Arguments DelayedCall {T}.
#[global] Arguments d_id {T}.
#[global] Arguments d_microsec {T}.
#[global] Arguments d_client {T}.
#[global] Arguments d_timer {T}.

(** [timers_] are all the objects, in the order they were made; the map has their
    places.  [alive_] are the clients whose weak pointers lock; [ticks_] the events
    that were sent to them. *)
Record timer_part (T : Type) : Type := TimerPart {
  next_id_ : Z;
  map_ : gmap Z nat;
  timers_ : list (delayed_call T);
  alive_ : gset nat;
  ticks_ : list (nat * Z)
}.
#[global] Arguments TimerPart {T}.
#[global] Arguments next_id_ {T}.
#[global] Arguments map_ {T}.
#[global] Arguments timers_ {T}.
#[global] Arguments alive_ {T}.
#[global] Arguments ticks_ {T}.

Section Timers.
Context {T : Type} `{Deadline T}.
Abbreviation state := (timer_part T).

Definition timer_part_new : state := TimerPart 0 ∅ [] ∅ [].
Definition with_timers l (s : state) : state := TimerPart (next_id_ s) (map_ s) l (alive_ s) (ticks_ s).
Definition with_map m (s : state) : state := TimerPart (next_id_ s) m (timers_ s) (alive_ s) (ticks_ s).
Definition with_alive a (s : state) : state := TimerPart (next_id_ s) (map_ s) (timers_ s) a (ticks_ s).
Definition on_timer (f : T → T) (d : delayed_call T) : delayed_call T :=
  DelayedCall (d_id d) (d_microsec d) (d_client d) (f (d_timer d)).
Definition alter_timer (a : nat) (f : T → T) (s : state) : state :=
  with_timers (alter (on_timer f) a (timers_ s)) s.

Definition next_id : M state Z :=
  modify (λ s, TimerPart (u32 (next_id_ s + 1)) (map_ s) (timers_ s) (alive_ s) (ticks_ s)) ;;;
  gets next_id_.

(** The handler is known by the period it was started with. *)
Definition start_timer (a microsec : nat) : M state unit :=
  modify (alter_timer a (once_call microsec)).

(** The callback: what the event does when it is sent, nothing or an exception, is the
    channel's. *)
Definition timer_cb (client : nat) (id : Z) (event : option exn) : M state bool :=
  let* s := get in
  if bool_decide (client ∈ alive_ s) then
    modify (λ s, TimerPart (next_id_ s) (map_ s) (timers_ s) (alive_ s) (ticks_ s ++ [(client, id)])) ;;;
    match event with
    | Some e => raise e
    | None => ret true
    end
  else ret false.

(** The error is only passed on to the callback, which prints it. *)
Definition timer_handler (a microsec : nat) (event : option exn) : M state unit :=
  let* s := get in
  match timers_ s !! a with
  | None => ret tt
  | Some d =>
      let* again := timer_cb (d_client d) (d_id d) event in
      if again then start_timer a microsec else ret tt
  end.

(** The timer is started before it is put in the map: two steps, and the handler of a
    short period may come between them. *)
Definition add_timer_event (microseconds client : nat) : M state (Z * nat) :=
  let* id := next_id in
  let* s := get in
  let a := length (timers_ s) in
  modify (λ s, with_timers (timers_ s ++ [DelayedCall id microseconds client deadline_new]) s) ;;;
  start_timer a microseconds ;;;
  ret (id, a).
Definition insert_timer (id : Z) (a : nat) : M state unit :=
  modify (λ s, match map_ s !! id with Some _ => s | None => with_map (<[id := a]> (map_ s)) s end).

Definition del_timer_event (id : Z) : M state unit :=
  let* s := get in
  match map_ s !! id with
  | None => ret tt
  | Some a =>
      modify (alter_timer a once_cancel) ;;;
      modify (λ s, with_map (delete id (map_ s)) s)
  end.

(** What the pool of the timers does with the wait [i] of the timer [a]: it ends, or
    its handler runs. *)
Definition wait_ends (a i : nat) : M state unit := modify (alter_timer a (ended i)).
Definition wait_runs (a i : nat) (event : option exn) : M state unit :=
  let* s := get in
  match d ← timers_ s !! a; waits (d_timer d) !! i with
  | Some (microsec, _) =>
      modify (alter_timer a (taken i)) ;;;
      timer_handler a microsec event
  | None => ret tt
  end.

Inductive label : Type :=
  | LClient (c : nat)
  | LGone (c : nat)
  | LAdd (microsec client : nat)
  | LInsert (id : Z) (a : nat)
  | LDel (id : Z)
  | LEnds (a i : nat)
  | LRuns (a i : nat) (event : option exn).

(** A client that is gone does not come back; only waits that are going on end, and
    only handlers of waits that are over run. *)
Definition enabled (l : label) (s : state) : bool :=
  match l with
  | LEnds a i => bool_decide (((d ← timers_ s !! a; waits (d_timer d) !! i) : option (nat * wait)) ≫= (λ w, Some w.2) = Some armed)
  | LRuns a i _ =>
      match (d ← timers_ s !! a; waits (d_timer d) !! i) with
      | Some (_, w) => negb (bool_decide (w = armed))
      | None => false
      end
  | _ => true
  end.
Definition step (l : label) : M state unit :=
  match l with
  | LClient c => modify (λ s, with_alive ({[c]} ∪ alive_ s) s)
  | LGone c => modify (λ s, with_alive (alive_ s ∖ {[c]}) s)
  | LAdd us c => add_timer_event us c ;;; ret tt
  | LInsert id a => insert_timer id a
  | LDel id => del_timer_event id
  | LEnds a i => wait_ends a i
  | LRuns a i e => wait_runs a i e
  end.
(** The exception of a handler ends its turn of the pool's thread. *)
Fixpoint run_all (ls : list label) : M state unit :=
  match ls with
  | [] => ret tt
  | l :: ls =>
      let* s := get in
      (if enabled l s then try_catch (step l) (λ _, ret tt) else ret tt) ;;;
      run_all ls
  end.
End Timers.

(** ** Accepting again *)

(** One timer for all listeners.  A listener accepts, or does not since it failed; the
    handlers of the timer are bound to a listener and its time to wait. *)
Record retry_part (T : Type) : Type := RetryPart {
  retry_timer_ : T;
  accepting_ : gmap nat bool
}.
#[global] Arguments RetryPart {T}.
#[global] Arguments retry_timer_ {T}.
#[global] Arguments accepting_ {T}.

Section Retry.
Context {T : Type} `{Deadline T}.
Abbreviation state := (retry_part T).

Definition on_retry_timer (f : T → T) (s : state) : state := RetryPart (f (retry_timer_ s)) (accepting_ s).
Definition set_accepting (l : nat) (b : bool) (s : state) : state :=
  RetryPart (retry_timer_ s) (<[l := b]> (accepting_ s)).

Definition start_retry_accept (l : nat) : M state unit := modify (on_retry_timer (once_call l)).

(** [l->start( )] works or throws. *)
Definition retry_timer_handler (l : nat) (code starts : bool) : M state unit :=
  if code then ret tt
  else if starts then modify (set_accepting l true)
  else start_retry_accept l.

(** The listener announces that it accepts no more. *)
Definition on_accept_failed (l : nat) : M state unit :=
  modify (set_accepting l false) ;;;
  start_retry_accept l.

Inductive retry_label : Type :=
  | RFails (l : nat)
  | REnds (i : nat)
  | RRuns (i : nat) (starts : bool).
Definition retry_step (r : retry_label) : M state unit :=
  let* s := get in
  match r with
  | RFails l => if default false (accepting_ s !! l) then on_accept_failed l else ret tt
  | REnds i =>
      match waits (retry_timer_ s) !! i with
      | Some (_, armed) => modify (on_retry_timer (ended i))
      | _ => ret tt
      end
  | RRuns i starts =>
      match waits (retry_timer_ s) !! i with
      | None | Some (_, armed) => ret tt
      | Some (l, w) =>
          modify (on_retry_timer (taken i)) ;;;
          retry_timer_handler l (bool_decide (w = aborted)) starts
      end
  end.
Fixpoint retry_all (rs : list retry_label) : M state unit :=
  match rs with
  | [] => ret tt
  | r :: rs => retry_step r ;;; retry_all rs
  end.
End Retry.

(** ** Lemmas *)

Lemma find_colon_none name i found : 58 ∉ name → find_last_colon name i found = found.
Proof.
  revert i. induction name as [|c name IH]; intros i Hn; [done|]. apply not_elem_of_cons in Hn as [Hc Hn].
  cbn [find_last_colon]. destruct (Z.eqb_spec c 58); [by subst|]. by apply IH.
Qed.
Lemma find_colon_last a b i found :
  58 ∉ b → find_last_colon (a ++ 58 :: b) i found = Some (i + length a)%nat.
Proof.
  intros Hb. revert i found. induction a as [|c a IH]; intros i found.
  - cbn. rewrite find_colon_none by done. f_equal. lia.
  - cbn [app find_last_colon length]. rewrite IH. f_equal. lia.
Qed.
Lemma decimal_no_colon n : 58 ∉ decimal n.
Proof. intros Hin. pose proof (decimal_digits n) as Hd. rewrite Forall_forall in Hd. specialize (Hd _ Hin). lia. Qed.

Section Timers.
Context {T : Type} {HD : Deadline T} {HL : DeadlineLaws T}.
Implicit Types s : timer_part T.

(** The waits of a timer. *)
Definition waits_at (a : nat) s : list (nat * wait) := from_option (λ d, waits (d_timer d)) [] (timers_ s !! a).
Lemma waits_at_alter a b f s :
  waits_at b (alter_timer a f s) =
  if decide (a = b) then from_option (λ d, waits (f (d_timer d))) [] (timers_ s !! b) else waits_at b s.
Proof.
  unfold waits_at, alter_timer. cbn. destruct (decide (a = b)) as [->|Hn].
  - rewrite list_lookup_alter_eq. by destruct (timers_ s !! b).
  - by rewrite list_lookup_alter_ne.
Qed.
Lemma waits_lookup a i s : (d ← timers_ s !! a; waits (d_timer d) !! i) = waits_at a s !! i.
Proof. unfold waits_at. by destruct (timers_ s !! a). Qed.
Lemma once_waits h (t : T) : waits (once_call h t) = abort_all (waits t) ++ [(h, armed)].
Proof. unfold once_call. by rewrite waits_async, waits_expires. Qed.

(** A timer is over when it waits no more, which only its own handler can bring about. *)
Definition client_at (a : nat) s : option nat := d_client <$> timers_ s !! a.
Lemma client_at_alter a b f s : client_at b (alter_timer a f s) = client_at b s.
Proof.
  unfold client_at, alter_timer. cbn. destruct (decide (a = b)) as [->|Hn].
  - rewrite list_lookup_alter_eq. by destruct (timers_ s !! b).
  - by rewrite list_lookup_alter_ne.
Qed.
Lemma timer_waits_none a s : client_at a s = None → waits_at a s = [].
Proof. unfold client_at, waits_at. by destruct (timers_ s !! a). Qed.

(** The event that a timer sends is sent. *)
Definition quiet (l : label) : Prop := match l with LRuns _ _ (Some _) => False | _ => True end.

(** What a handler does. *)
Lemma wait_runs_state a i us w s c :
  waits_at a s !! i = Some (us, w) → client_at a s = Some c →
  ∃ s', wait_runs a i None s = (Ok tt, s') ∧ alive_ s' = alive_ s ∧ map_ s' = map_ s ∧
    (∀ b, client_at b s' = client_at b s) ∧
    (∀ b, waits_at b s' =
       if decide (a = b) then
         if decide (c ∈ alive_ s) then abort_all (delete i (waits_at a s)) ++ [(us, armed)] else delete i (waits_at a s)
       else waits_at b s).
Proof.
  intros Hi Hc. unfold wait_runs. rewrite bind_get, waits_lookup, Hi, bind_modify.
  set (s1 := alter_timer a (taken i) s).
  assert (Hw1 : ∀ b, waits_at b s1 = if decide (a = b) then delete i (waits_at a s) else waits_at b s).
  { intros b. unfold s1. rewrite waits_at_alter. case_decide as Hb; [subst b|done]. unfold waits_at.
    destruct (timers_ s !! a); [apply waits_taken|done]. }
  assert (Hc1 : ∀ b, client_at b s1 = client_at b s) by (intros b; apply client_at_alter).
  unfold timer_handler. rewrite bind_get. pose proof (Hc1 a) as Hd. rewrite Hc in Hd. unfold client_at in Hd.
  destruct (timers_ s1 !! a) as [d|] eqn:Hs1; [|done]. injection Hd as Hd.
  unfold timer_cb, bind at 1. rewrite bind_get, Hd. change (alive_ s1) with (alive_ s).
  destruct (decide (c ∈ alive_ s)) as [Ha|Ha].
  - rewrite bool_decide_true by done. eexists. split; [reflexivity|]. split_and!; [done|done| |].
    + intros b. rewrite client_at_alter. apply Hc1.
    + intros b. rewrite waits_at_alter. case_decide as Hb; [subst b|pose proof (Hw1 b) as Hb'; by rewrite decide_False in Hb'].
      pose proof (Hw1 a) as Hwa. rewrite decide_True in Hwa by done. unfold waits_at in Hwa. rewrite Hs1 in Hwa. cbn in Hwa.
      cbn [timers_]. rewrite Hs1. cbn. by rewrite once_waits, Hwa.
  - rewrite bool_decide_false by done. by exists s1.
Qed.

Lemma add_state us c s :
  ∃ s' id, add_timer_event us c s = (Ok (id, length (timers_ s)), s') ∧
    alive_ s' = alive_ s ∧ map_ s' = map_ s ∧
    timers_ s' = timers_ s ++ [DelayedCall id us c (once_call us deadline_new)].
Proof.
  unfold add_timer_event, next_id, start_timer, gets, modify, get, bind, ret. cbn.
  eexists _, _. split; [reflexivity|]. split_and!; [done|done|]. cbn.
  by rewrite alter_app_r_alt, Nat.sub_diag by done.
Qed.
Lemma del_state id s :
  ∃ s', del_timer_event id s = (Ok tt, s') ∧ alive_ s' = alive_ s ∧ map_ s' = delete id (map_ s) ∧
    (∀ b, client_at b s' = client_at b s) ∧ (∀ b, length (waits_at b s') = length (waits_at b s)).
Proof.
  unfold del_timer_event. rewrite bind_get. destruct (map_ s !! id) as [a|] eqn:Hm.
  - eexists. split; [reflexivity|]. split_and!; [done|done|intros b; apply client_at_alter|].
    intros b. transitivity (length (waits_at b (alter_timer a once_cancel s))); [done|]. rewrite waits_at_alter.
    case_decide; [|done]. unfold waits_at. destruct (timers_ s !! b); [|done]. cbn.
    unfold once_cancel. rewrite waits_cancel. apply cancel_length.
  - exists s. by rewrite delete_id.
Qed.

Lemma step_quiet l s : quiet l → enabled l s = true → (step l s).1 = Ok tt.
Proof.
  intros Hq He. destruct l as [c|c|us c|id a|id|a i|a i e]; cbn [step]; try done.
  - destruct (del_state id s) as (s' & -> & _). done.
  - destruct e; [done|]. cbn [enabled] in He. rewrite waits_lookup in He.
    destruct (waits_at a s !! i) as [[us w]|] eqn:Hi; [|done].
    destruct (client_at a s) as [c|] eqn:Hc; [|by rewrite timer_waits_none in Hi].
    by destruct (wait_runs_state a i us w s c Hi Hc) as (s' & -> & _).
Qed.
Lemma run_all_cons l ls s :
  quiet l → (run_all (l :: ls) s).2 = (run_all ls (if enabled l s then (step l s).2 else s)).2.
Proof.
  intros Hq. cbn [run_all]. rewrite bind_get. destruct (enabled l s) eqn:He; [|done].
  pose proof (step_quiet l s Hq He). unfold try_catch, bind. by destruct (step l s) as [[[]|e] s'].
Qed.
Lemma run_all_keeps (I : timer_part T → Prop) (P : label → Prop) ls s :
  (∀ l s, quiet l → P l → enabled l s = true → I s → I (step l s).2) →
  Forall quiet ls → Forall P ls → I s → I (run_all ls s).2.
Proof.
  intros Hstep Hq HP. revert s. induction Hq as [|l ls Hl Hq IH]; intros s Hs; [done|].
  apply Forall_cons in HP as [Hp HP]. rewrite run_all_cons by done. apply IH; [done|].
  destruct (enabled l s) eqn:He; [by apply Hstep|done].
Qed.

(** *** A client that stays *)

Definition ticking (c : nat) s : Prop :=
  c ∈ alive_ s ∧ ∀ a, client_at a s = Some c → length (waits_at a s) = 1%nat.

Lemma step_ticking c l s :
  quiet l → l ≠ LGone c → enabled l s = true → ticking c s → ticking c (step l s).2.
Proof.
  intros Hq Hl He [Hc Ht]. destruct l as [c'|c'|us c'|id a|id|a i|a i e]; cbn [step].
  - split; [|exact Ht]. cbn. set_solver.
  - split; [|exact Ht]. cbn. apply elem_of_difference. split; [done|]. rewrite elem_of_singleton. by intros ->.
  - destruct (add_state us c' s) as (s' & id & Hs & Ha & _ & Hts). rewrite (bind_ok _ _ _ _ _ Hs). cbn.
    split; [by rewrite Ha|]. intros a. unfold client_at, waits_at. rewrite Hts.
    destruct (decide (a < length (timers_ s))%nat) as [Hlt|Hge].
    + rewrite lookup_app_l by done. apply Ht.
    + rewrite lookup_app_r by lia. destruct (a - length (timers_ s))%nat; [|done]. cbn.
      by rewrite once_waits, waits_new.
  - unfold insert_timer, modify. cbn. by destruct (map_ s !! id).
  - destruct (del_state id s) as (s' & -> & Ha & _ & Hcl & Hw). cbn. split; [by rewrite Ha|].
    intros a. rewrite Hcl, Hw. apply Ht.
  - split; [done|]. intros b. unfold wait_ends, modify. cbn. rewrite client_at_alter, waits_at_alter. intros Hb.
    specialize (Ht b Hb). case_decide; [|done]. unfold waits_at in *. destruct (timers_ s !! b); [|done]. cbn in *.
    by rewrite waits_ended, length_alter.
  - destruct e; [done|]. cbn [enabled] in He. rewrite waits_lookup in He.
    destruct (waits_at a s !! i) as [[us w]|] eqn:Hi; [|done].
    destruct (client_at a s) as [c'|] eqn:Hc'; [|by rewrite timer_waits_none in Hi].
    destruct (wait_runs_state a i us w s c' Hi Hc') as (s' & -> & Ha & _ & Hcl & Hw). cbn. split; [by rewrite Ha|].
    intros b. rewrite Hcl, Hw. intros Hb. destruct (decide (a = b)) as [<-|]; [|by apply Ht].
    rewrite Hb in Hc'. injection Hc' as <-. rewrite decide_True by done.
    pose proof (lookup_lt_Some _ _ _ Hi). rewrite length_app, cancel_length, length_delete, Ht by eauto. done.
Qed.
(** *** A client that is gone *)

Definition over (a c : nat) s : Prop := (c ∉ alive_ s) ∧ client_at a s = Some c ∧ waits_at a s = [].
Lemma over_alter a c b f s :
  (∀ t : T, waits t = [] → waits (f t) = []) → over a c s → over a c (alter_timer b f s).
Proof.
  intros Hf (Hg & Hc & Hw). split; [done|]. split; [by rewrite client_at_alter|]. rewrite waits_at_alter.
  case_decide; [|done]. unfold waits_at in Hw. destruct (timers_ s !! a); [by apply Hf|done].
Qed.
Lemma step_over a c l s :
  quiet l → l ≠ LClient c → enabled l s = true → over a c s → over a c (step l s).2.
Proof.
  intros Hq Hl He (Hg & Hc & Hw). destruct l as [c'|c'|us c'|id b|id|b i|b i e]; cbn [step].
  - split; [|done]. cbn. apply not_elem_of_union. split; [|done]. rewrite elem_of_singleton. by intros ->.
  - split; [|done]. cbn. apply not_elem_of_difference. by left.
  - destruct (add_state us c' s) as (s' & id & Hs & Ha & _ & Hts). rewrite (bind_ok _ _ _ _ _ Hs). cbn.
    split; [by rewrite Ha|]. unfold client_at, waits_at in *. rewrite Hts.
    destruct (timers_ s !! a) as [d|] eqn:Hd; [|done]. by rewrite (lookup_app_l_Some _ _ _ _ Hd).
  - unfold insert_timer, modify. cbn. by destruct (map_ s !! id).
  - destruct (del_state id s) as (s' & -> & Ha & _ & Hcl & Hlen). cbn. split; [by rewrite Ha|]. split; [by rewrite Hcl|].
    apply nil_length_inv. by rewrite Hlen, Hw.
  - apply over_alter; [|done]. intros t Ht. by rewrite waits_ended, Ht.
  - destruct e; [done|]. cbn [enabled] in He. rewrite waits_lookup in He.
    destruct (waits_at b s !! i) as [[us w]|] eqn:Hi; [|done].
    destruct (client_at b s) as [c'|] eqn:Hc'; [|by rewrite timer_waits_none in Hi].
    destruct (wait_runs_state b i us w s c' Hi Hc') as (s' & -> & Ha & _ & Hcl & Hw'). cbn.
    split; [by rewrite Ha|]. split; [by rewrite Hcl|]. rewrite Hw'.
    destruct (decide (b = a)) as [->|]; [by rewrite Hw in Hi|done].
Qed.
End Timers.

(** *** One retry timer *)

Section Retry.
Context {T : Type} {HD : Deadline T} {HL : DeadlineLaws T}.
Implicit Types s : retry_part T.

Lemma retry_ok r s : (retry_step r s).1 = Ok tt.
Proof.
  unfold retry_step. rewrite bind_get. destruct r as [l|i|i b].
  - by destruct (default false (accepting_ s !! l)).
  - by destruct (waits (retry_timer_ s) !! i) as [[l []]|].
  - destruct (waits (retry_timer_ s) !! i) as [[l []]|]; [done| |done|done]; by destruct b.
Qed.
Lemma retry_all_cons r rs s : (retry_all (r :: rs) s).2 = (retry_all rs (retry_step r s).2).2.
Proof. cbn [retry_all]. pose proof (retry_ok r s). unfold bind. by destruct (retry_step r s) as [[[]|e] s']. Qed.
Lemma retry_all_keeps (I : retry_part T → Prop) (P : retry_label → Prop) rs s :
  (∀ r s, P r → I s → I (retry_step r s).2) → Forall P rs → I s → I (retry_all rs s).2.
Proof.
  intros Hstep HP. revert s. induction HP as [|r rs Hr _ IH]; intros s Hs; [done|].
  rewrite retry_all_cons. by apply IH, Hstep.
Qed.

(** A listener nobody waits for: its waits, if any, were aborted. *)
Definition abandoned (l : nat) s : Prop :=
  accepting_ s !! l = Some false ∧ Forall (λ x : nat * wait, x.1 = l → x.2 = aborted) (waits (retry_timer_ s)).

Lemma abort_forall (P : nat → Prop) (t : list (nat * wait)) :
  Forall (λ x : nat * wait, P x.1 → x.2 = aborted) t → Forall (λ x : nat * wait, P x.1 → x.2 = aborted) (abort_all t).
Proof. intros Ht. apply Forall_fmap. eapply Forall_impl; [exact Ht|]. intros [l w] Hw Hl. cbn in *. by rewrite (Hw Hl). Qed.
Lemma start_retry_abandoned l l' s : l ≠ l' → abandoned l s → abandoned l (start_retry_accept l' s).2.
Proof.
  intros Hn [Ha Hw]. split; [done|]. cbn. rewrite once_waits. apply Forall_app. split; [by apply (abort_forall (λ x, x = l))|].
  apply Forall_singleton. intros Hl. by destruct (Hn (eq_sym Hl)).
Qed.
Lemma step_abandoned l r s : abandoned l s → abandoned l (retry_step r s).2.
Proof.
  intros Hs. pose proof Hs as [Ha Hw]. unfold retry_step. rewrite bind_get. destruct r as [l'|i|i b].
  - destruct (accepting_ s !! l') as [[]|] eqn:Hl; try done. cbn [default from_option id]. unfold on_accept_failed. rewrite bind_modify.
    assert (Hn : l ≠ l') by congruence. apply start_retry_abandoned; [done|]. split; [|done]. cbn. by rewrite lookup_insert_ne.
  - destruct (waits (retry_timer_ s) !! i) as [[l' []]|] eqn:Hi; try done. split; [done|]. cbn. rewrite waits_ended.
    rewrite (alter_middle _ _ _ _ Hi). pose proof Hw as Hw'. rewrite <-(take_drop_middle _ _ _ Hi) in Hw'.
    apply Forall_app in Hw' as [H1 H2]. apply Forall_cons in H2 as [H2 H3]. apply Forall_app. split; [done|].
    apply Forall_cons. split; [|done]. intros Hl. by specialize (H2 Hl).
  - destruct (waits (retry_timer_ s) !! i) as [[l' w]|] eqn:Hi; [|done].
    pose proof (Forall_lookup_1 _ _ _ _ Hw Hi) as Hx. cbn in Hx.
    assert (Hd : abandoned l (on_retry_timer (taken i) s)).
    { split; [done|]. cbn. rewrite waits_taken. by apply Forall_delete. }
    destruct w; [done| |].
    + assert (Hn : l ≠ l') by (intros ->; by specialize (Hx eq_refl)).
      rewrite bind_modify, bool_decide_false by done. unfold retry_timer_handler.
      destruct b; [|by apply start_retry_abandoned].
      split; [|by destruct Hd]. cbn. by rewrite lookup_insert_ne.
    + rewrite bind_modify, bool_decide_true by done. exact Hd.
Qed.

(** The only listener is accepting, or its wait goes on. *)
Definition hopeful_alone (l : nat) s : Prop :=
  (accepting_ s = {[l := true]} ∧ waits (retry_timer_ s) = []) ∨
  (∃ w, accepting_ s = {[l := false]} ∧ waits (retry_timer_ s) = [(l, w)] ∧ w ≠ aborted).
Lemma step_alone l r s : hopeful_alone l s → hopeful_alone l (retry_step r s).2.
Proof.
  intros Hs. unfold retry_step. rewrite bind_get. destruct r as [l'|i|i b].
  - destruct (accepting_ s !! l') as [[]|] eqn:Hl; try done. cbn [default from_option id]. unfold on_accept_failed. rewrite bind_modify.
    destruct Hs as [[Ha Hw]|(w & Ha & _)]; rewrite Ha in Hl; apply lookup_singleton_Some in Hl as [<- ?]; [|done].
    right. exists armed. cbn. rewrite once_waits, Hw, Ha, insert_singleton_eq. done.
  - destruct Hs as [[Ha Hw]|(w & Ha & Hw & Hn)]; [rewrite Hw; by left|]. rewrite Hw.
    destruct i as [|i]; [|by right; exists w]. destruct w; [|by right; exists due|done].
    right. exists due. cbn. by rewrite waits_ended, Hw.
  - destruct Hs as [[Ha Hw]|(w & Ha & Hw & Hn)]; [rewrite Hw; by left|]. rewrite Hw.
    destruct i as [|i]; [|by right; exists w]. destruct w; [by right; exists armed| |done].
    cbn [lookup list_lookup]. rewrite bind_modify, bool_decide_false by done. destruct b; cbn.
    + left. cbn. rewrite waits_taken, Hw, Ha, insert_singleton_eq. done.
    + right. exists armed. cbn. rewrite once_waits, waits_taken, Hw, Ha. done.
Qed.
End Retry.

(** ** Properties *)

(** The text that names a listener is a path when it has no colon, and
    otherwise an address and a port, divided at the last colon; a port that does not
    fit 16 bits is refused. *)
Theorem listener_from_text {L : LexicalCast} (HL : LexicalCastLaws) path address port :
  58 ∉ path → 0 ≤ port →
  create_from_string path = Ok (Local path) ∧
  create_from_string (address ++ 58 :: decimal port) =
    (if port <? 2 ^ 16 then Ok (Tcp address port) else Raise bad_lexical_cast).
Proof.
  intros Hp H0. unfold create_from_string, split_params. rewrite find_colon_none by done. split; [done|].
  rewrite find_colon_last by apply decimal_no_colon. cbn [Nat.add].
  rewrite take_app_length. rewrite <-Nat.add_1_r, drop_app_ge by lia.
  replace (length address + 1 - length address)%nat with 1%nat by lia. cbn [drop]. rewrite drop_0.
  unfold to_unsigned. rewrite cast_decimal by done. by destruct (port <? 2 ^ 16).
Qed.

Section Timers.
Context {T : Type} {HD : Deadline T} {HL : DeadlineLaws T}.

(** Whatever clients come, go, add and delete, and however waits end and
    handlers run in between, as long as sending the events does not fail: each timer of
    a client that stays has exactly one wait, under way or with its handler queued; also
    a timer that was deleted. *)
Theorem timers_tick_on c ls a :
  Forall quiet ls → LGone c ∉ ls →
  let s := (run_all (LClient c :: ls) (timer_part_new (T := T))).2 in
  d_client <$> timers_ s !! a = Some c → ∃ us w, (d ← timers_ s !! a; Some (waits (d_timer d))) = Some [(us, w)].
Proof.
  intros Hq Hg s Hc. assert (Hs : ticking c s).
  { unfold s. rewrite run_all_cons by done.
    apply (run_all_keeps _ (λ l, l ≠ LGone c)); [intros l s'; apply step_ticking|done|by apply Forall_forall; intros l Hl ->|].
    split; [cbn; set_solver|done]. }
  pose proof (proj2 Hs a Hc) as H1. unfold waits_at in H1. destruct (timers_ s !! a) as [d|]; [|done]. cbn in *.
  destruct (waits (d_timer d)) as [|[us w] [|]]; try done. by exists us, w.
Qed.

(** Deleting a timer stops nothing: its handler runs with an error and starts it again,
    after which there is no entry to delete it by. *)
Theorem deletion_undone s id a d us :
  map_ s !! id = Some a → timers_ s !! a = Some d → waits (d_timer d) = [(us, armed)] → d_client d ∈ alive_ s →
  let s' := (run_all [LDel id; LRuns a 0 None] s).2 in
  map_ s' !! id = None ∧ waits_at a s' = [(us, armed)] ∧ (run_all [LDel id] s').2 = s'.
Proof.
  intros Hm Ha Hw Hc. cbv zeta. rewrite !run_all_cons by done. cbn [enabled step].
  set (s1 := (del_timer_event id s).2).
  assert (Hs1 : s1 = with_map (delete id (map_ s)) (alter_timer a once_cancel s)).
  { unfold s1, del_timer_event. rewrite bind_get, Hm. done. }
  assert (Hw1 : waits_at a s1 = [(us, aborted)]).
  { rewrite Hs1. transitivity (waits_at a (alter_timer a once_cancel s)); [done|].
    rewrite waits_at_alter, decide_True, Ha by done. cbn. unfold once_cancel. by rewrite waits_cancel, Hw. }
  assert (Hc1 : client_at a s1 = Some (d_client d)).
  { rewrite Hs1. transitivity (client_at a (alter_timer a once_cancel s)); [done|].
    rewrite client_at_alter. unfold client_at. by rewrite Ha. }
  assert (Hi : waits_at a s1 !! 0%nat = Some (us, aborted)) by by rewrite Hw1.
  rewrite waits_lookup, Hi. cbn [negb]. rewrite bool_decide_false by done.
  destruct (wait_runs_state a 0 us aborted s1 _ Hi Hc1) as (s2 & Hr & _ & Hm2 & _ & Hw2).
  rewrite Hr. cbn [snd]. change ((run_all [] s2).2) with s2.
  assert (Hn : map_ s2 !! id = None) by (rewrite Hm2, Hs1; apply lookup_delete_eq).
  split_and!; [done| |].
  - rewrite Hw2, decide_True, decide_True, Hw1 by (try done; by rewrite Hs1). done.
  - change ((del_timer_event id s2).2 = s2). unfold del_timer_event. by rewrite bind_get, Hn.
Qed.

(** The timer of a client that is gone ends when its handler has run. *)
Theorem gone_timer_ends s a c us w ls :
  d_client <$> timers_ s !! a = Some c → waits_at a s = [(us, w)] → w ≠ armed → c ∉ alive_ s →
  Forall quiet ls → LClient c ∉ ls →
  waits_at a (run_all (LRuns a 0 None :: ls) s).2 = [].
Proof.
  intros Hc Hw Hn Hg Hq Hl. rewrite run_all_cons by done.
  assert (Hi : waits_at a s !! 0%nat = Some (us, w)) by by rewrite Hw.
  cbn [enabled step]. rewrite waits_lookup, Hi, bool_decide_false by done. cbn [negb].
  destruct (wait_runs_state a 0 us w s c Hi Hc) as (s1 & -> & Ha & _ & Hcl & Hw1). cbn [snd].
  cut (over a c (run_all ls s1).2); [by intros (_ & _ & ?)|].
  apply (run_all_keeps _ (λ l, l ≠ LClient c)); [intros l s'; apply step_over|done|by apply Forall_forall; intros l Hin ->|].
  split; [by rewrite Ha|]. split; [by rewrite Hcl|]. by rewrite Hw1, decide_True, decide_False, Hw by done.
Qed.
End Timers.

Section Retry.
Context {T : Type} {HD : Deadline T} {HL : DeadlineLaws T}.

(** A server with one listener: however accepting and starting it again fail,
    it accepts or has a wait that leads to its being started. *)
Theorem lone_listener_retried l rs :
  let s := (retry_all rs (RetryPart (deadline_new (T := T)) {[l := true]})).2 in
  accepting_ s = {[l := true]} ∨
  ∃ w, waits (retry_timer_ s) = [(l, w)] ∧ w ≠ aborted.
Proof.
  cbv zeta. destruct (retry_all_keeps (hopeful_alone l) (λ _, True) rs (RetryPart deadline_new {[l := true]}))
    as [[Ha _]|(w & _ & Hw & Hn)].
  - intros r s _. apply step_alone.
  - by apply Forall_true.
  - left. split; [done|]. apply waits_new.
  - by left.
  - right. by exists w.
Qed.

(** C25 (safety).  The retry timer is shared: when accepting fails at a second listener while
    a first one waits to be started again, the first one's wait is aborted, its handler
    does nothing, and it never accepts again, whatever happens. *)
Theorem retry_abandoned l1 l2 s rs :
  l1 ≠ l2 → accepting_ s !! l1 = Some true → accepting_ s !! l2 = Some true → waits (retry_timer_ s) = [] →
  accepting_ (retry_all (RFails l1 :: RFails l2 :: rs) s).2 !! l1 = Some false.
Proof.
  intros Hn H1 H2 Hw. rewrite !retry_all_cons.
  set (s1 := (retry_step (RFails l1) s).2).
  assert (Hs1 : s1 = on_retry_timer (once_call l1) (set_accepting l1 false s)).
  { unfold s1, retry_step. rewrite bind_get, H1. done. }
  assert (H3 : accepting_ s1 !! l2 = Some true) by (rewrite Hs1; cbn; by rewrite lookup_insert_ne).
  set (s2 := (retry_step (RFails l2) s1).2).
  assert (Hs2 : s2 = on_retry_timer (once_call l2) (set_accepting l2 false s1)).
  { unfold s2, retry_step. rewrite bind_get, H3. done. }
  assert (Ha : abandoned l1 s2).
  { rewrite Hs2, Hs1. split; cbn.
    - by rewrite lookup_insert_ne, lookup_insert_eq.
    - rewrite !once_waits, Hw. cbn. by repeat constructor; cbn; intros ->. }
  apply (retry_all_keeps (abandoned l1) (λ _, True) rs s2); [intros r s' _; apply step_abandoned|by apply Forall_true|done].
Qed.
End Retry.

(** ** Witnesses *)

Lemma listener_from_text_witness :
  create_from_string (L := digits_cast) (string_bytes "/tmp/stress") = Ok (Local (string_bytes "/tmp/stress")) ∧
  create_from_string (L := digits_cast) (string_bytes "::1" ++ 58 :: decimal 70000) = Raise bad_lexical_cast.
Proof.
  refine (listener_from_text (L := digits_cast) digits_cast_laws
    (string_bytes "/tmp/stress") (string_bytes "::1") 70000 _ _); [|done].
  apply (bool_decide_unpack _). vm_compute. exact I.
Defined.

(** A client registers a timer and deletes it; the timer ticks. *)
Definition example_events : list label :=
  [LAdd 100 1; LInsert 1 0; LEnds 0 0; LRuns 0 0 None; LDel 1; LRuns 0 0 None; LEnds 0 0; LRuns 0 0 None].
Definition example_server : timer_part (list (nat * wait)) := (run_all (LClient 1 :: example_events) timer_part_new).2.
Lemma timers_tick_on_witness :
  map_ example_server = ∅ ∧ ticks_ example_server = [(1%nat, 1); (1%nat, 1); (1%nat, 1)] ∧
  ∃ us w, (d ← timers_ example_server !! 0%nat; Some (waits (d_timer d))) = Some [(us, w)].
Proof.
  split_and!; [reflexivity|reflexivity|]. apply (timers_tick_on 1 example_events 0); [|..|reflexivity].
  - by repeat constructor.
  - repeat (apply not_elem_of_cons; split; [done|]). apply not_elem_of_nil.
Defined.
Lemma deletion_undone_witness :
  let s := (run_all [LClient 1; LAdd 100 1; LInsert 1 0] (timer_part_new (T := list (nat * wait)))).2 in
  let s' := (run_all [LDel 1; LRuns 0 0 None] s).2 in
  map_ s' !! 1 = None ∧ waits_at 0 s' = [(100%nat, armed)] ∧ (run_all [LDel 1] s').2 = s'.
Proof.
  refine (deletion_undone _ 1 0 (DelayedCall 1 100 1 [(100%nat, armed)]) 100 _ _ _ _); [reflexivity..|].
  apply (bool_decide_unpack _). vm_compute. exact I.
Defined.
Lemma gone_timer_ends_witness :
  let s := (run_all [LClient 1; LAdd 100 1; LInsert 1 0; LEnds 0 0; LGone 1] (timer_part_new (T := list (nat * wait)))).2 in
  map_ (run_all [LRuns 0 0 None; LDel 7] s).2 !! 1 = Some 0%nat ∧ waits_at 0 (run_all [LRuns 0 0 None; LDel 7] s).2 = [].
Proof.
  split; [reflexivity|].
  refine (gone_timer_ends _ 0 1 100 due [LDel 7] _ _ _ _ _ _); [reflexivity|reflexivity|done|..].
  - apply (bool_decide_unpack _). vm_compute. exact I.
  - by repeat constructor.
  - repeat (apply not_elem_of_cons; split; [done|]). apply not_elem_of_nil.
Defined.
Lemma retry_abandoned_witness :
  let s := RetryPart ([] : list (nat * wait)) {[1%nat := true; 2%nat := true]} in
  let rs := [RRuns 0 true; REnds 0; RRuns 0 true] in
  accepting_ (retry_all (RFails 1 :: RFails 2 :: rs) s).2 !! 2%nat = Some true ∧
  accepting_ (retry_all (RFails 1 :: RFails 2 :: rs) s).2 !! 1%nat = Some false.
Proof.
  split; [reflexivity|]. by refine (retry_abandoned 1 2 _ _ _ _ _ _).
Defined.
