(* ===== verification/Point.v ===== *)
(** * Point: the draft of an asynchronous transport

    [src/draft/common/async-transport-point.hpp]: the class template [point_iface], the
    ancestor of the transports of the library.  Messages are posted to a strand,
    queued, transformed when they come to the front, and written piece by piece with
    [async_write_some]; reads start again after each block.

    The strand is its queue of handlers.  At most one write and one read are under way;
    what they complete with, and the bytes the stream has taken ([sent_]), are the
    environment's. *)

From S2P Require Import Prelude.

(** ** Data *)

Record queue_value : Type := QueueValue {
  message_ : bytes;
  success_ : option nat
}.

(** An [async_write_some] under way: its data, and what was written before. *)
Record write_op : Type := WriteOp { w_data : bytes; w_total : nat }.

Inductive task : Type :=
  | TWrite (v : queue_value)
  | TClose
  | TWriteHandler (error : option Z) (written length total : nat)
  | TReadHandler (error : option Z) (data : bytes).

(** What the closures, the virtual functions and the stream see. *)
Inductive output : Type :=
  | OSuccess (closure : nat) (error : option Z)
  | OWriteError (error : Z)
  | ORead (data : bytes)
  | OReadError (error : Z)
  | OStreamClosed.

Record point_iface : Type := Point {
  write_queue_ : list queue_value;
  active_ : bool;
  strand_ : list task;
  writing_ : option write_op;
  reading_ : bool;
  sent_ : bytes;
  log_ : list output
}.
Definition point_new : point_iface := Point [] true [] None false [] [].

Definition with_queue q (s : point_iface) := Point q (active_ s) (strand_ s) (writing_ s) (reading_ s) (sent_ s) (log_ s).
Definition with_active a (s : point_iface) := Point (write_queue_ s) a (strand_ s) (writing_ s) (reading_ s) (sent_ s) (log_ s).
Definition with_strand q (s : point_iface) := Point (write_queue_ s) (active_ s) q (writing_ s) (reading_ s) (sent_ s) (log_ s).
Definition with_writing w (s : point_iface) := Point (write_queue_ s) (active_ s) (strand_ s) w (reading_ s) (sent_ s) (log_ s).
Definition with_reading r (s : point_iface) := Point (write_queue_ s) (active_ s) (strand_ s) (writing_ s) r (sent_ s) (log_ s).
Definition with_sent b (s : point_iface) := Point (write_queue_ s) (active_ s) (strand_ s) (writing_ s) (reading_ s) b (log_ s).
Definition with_output o (s : point_iface) := Point (write_queue_ s) (active_ s) (strand_ s) (writing_ s) (reading_ s) (sent_ s) (log_ s ++ [o]).

Section Point.
(** [DISPATCH_READ] and [TRANSFORM_MESSAGE] of the constructor, the virtual function
    that transforms, and whether starting a write throws (then [on_write_exception]
    throws the exception again). *)
Context (dispatch_read transform_message : bool).
Context (on_transform_message : bytes → bytes) (stream_throws : point_iface → option exn).

Abbreviation M' := (M point_iface).

Definition output_ (o : output) : M' unit := modify (with_output o).
Definition post (t : task) : M' unit := modify (λ s, with_strand (strand_ s ++ [t]) s).

Definition close_impl : M' unit :=
  let* s := get in
  if active_ s then modify (with_active false) ;;; output_ OStreamClosed else ret tt.
Definition post_close : M' unit := post TClose.

Definition queue_push (v : queue_value) : M' unit := modify (λ s, with_queue (write_queue_ s ++ [v]) s).
Definition queue_top : M' queue_value :=
  let* s := get in
  match write_queue_ s with
  | [] => raise (EUndefined "front of an empty queue")
  | v :: _ => ret v
  end.
Definition queue_pop : M' unit :=
  let* s := get in
  match write_queue_ s with
  | [] => raise (EUndefined "pop of an empty queue")
  | _ :: q => modify (with_queue q)
  end.
Definition queue_empty : M' bool := gets (λ s, match write_queue_ s with [] => true | _ :: _ => false end).

(** [stream_.async_write_some]; the data is that of the front, which stays there
    until it is written. *)
Definition async_write_some (data : bytes) (total : nat) : M' unit :=
  let* s := get in
  match stream_throws s with
  | Some e => raise e
  | None => modify (with_writing (Some (WriteOp data total)))
  end.

Definition async_write_transform : M' unit :=
  let* top := queue_top in
  let top := QueueValue (on_transform_message (message_ top)) (success_ top) in
  modify (λ s, with_queue (top :: drop 1 (write_queue_ s)) s) ;;;
  async_write_some (message_ top) 0.
Definition async_write_no_transform : M' unit :=
  let* top := queue_top in
  async_write_some (message_ top) 0.
Definition async_write : M' unit :=
  if transform_message then async_write_transform else async_write_no_transform.

Definition call_success (v : queue_value) (error : option Z) : M' unit :=
  match success_ v with
  | Some c => output_ (OSuccess c error)
  | None => ret tt
  end.
Definition on_write_error (e : Z) : M' unit := output_ (OWriteError e).

Definition write_handler (error : option Z) (written length total : nat) : M' unit :=
  let* top := queue_top in
  match error with
  | None =>
      if (written <? length)%nat then
        let total := (total + written)%nat in
        async_write_some (drop total (message_ top)) total
      else
        call_success top None ;;;
        queue_pop ;;;
        let* empty := queue_empty in
        if empty then ret tt else async_write
  | Some e =>
      call_success top error ;;;
      on_write_error e
  end.

Definition write_impl (data : queue_value) : M' unit :=
  let* empty := queue_empty in
  queue_push data ;;;
  if empty then async_write else ret tt.
Definition post_write (data : bytes) (close : option nat) : M' unit := post (TWrite (QueueValue data close)).

Definition async_read : M' unit := modify (with_reading true).
Definition read_handler (error : option Z) (data : bytes) : M' unit :=
  match error with
  | None => output_ (ORead data) ;;; async_read
  | Some e => output_ (OReadError e)
  end.

(** ** Steps *)

Definition run_task (t : task) : M' unit :=
  match t with
  | TWrite v => write_impl v
  | TClose => close_impl
  | TWriteHandler e n l t => write_handler e n l t
  | TReadHandler e d => read_handler e d
  end.

(** The user writes, closes or reads; the strand runs a handler; a write under way is
    done, at most with all its bytes, or fails; a read is done or fails. *)
Inductive label : Type :=
  | LWrite (data : bytes) (close : option nat)
  | LClose
  | LStartRead
  | LRun
  | LWriteDone (n : nat)
  | LWriteFail (e : Z)
  | LReadDone (error : option Z) (data : bytes).

Definition step (l : label) : M' unit :=
  let* s := get in
  match l with
  | LWrite data close => post_write data close
  | LClose => post_close
  | LStartRead => async_read
  | LRun =>
      match strand_ s with
      | [] => ret tt
      | t :: q => modify (with_strand q) ;;; run_task t
      end
  | LWriteDone n =>
      match writing_ s with
      | None => ret tt
      | Some (WriteOp data total) =>
          let n := Nat.min n (length data) in
          modify (with_sent (sent_ s ++ take n data)) ;;;
          modify (with_writing None) ;;;
          post (TWriteHandler None n (length data) total)
      end
  | LWriteFail e =>
      match writing_ s with
      | None => ret tt
      | Some (WriteOp data total) =>
          modify (with_writing None) ;;;
          post (TWriteHandler (Some e) 0 (length data) total)
      end
  | LReadDone error data =>
      if reading_ s then
        modify (with_reading false) ;;;
        if dispatch_read then post (TReadHandler error data) else read_handler error data
      else ret tt
  end.
Fixpoint run_all (ls : list label) : M' unit :=
  match ls with
  | [] => ret tt
  | l :: ls => step l ;;; run_all ls
  end.

(** ** Specification *)

Definition posted (l : label) : option queue_value :=
  match l with LWrite d c => Some (QueueValue d c) | _ => None end.
Definition waiting (t : task) : option queue_value :=
  match t with TWrite v => Some v | _ => None end.
Definition is_handler (t : task) : bool :=
  match t with TWriteHandler _ _ _ _ => true | _ => false end.
Definition closure_call (o : output) : option (nat * option Z) :=
  match o with OSuccess c e => Some (c, e) | _ => None end.

(** What the stream is given of a message. *)
Definition transformed (m : bytes) : bytes := if transform_message then on_transform_message m else m.
Definition wire (vs : list queue_value) : bytes := concat ((λ v, transformed (message_ v)) <$> vs).
Definition succeeded (vs : list queue_value) : list (nat * option Z) := omap (λ v, (λ c, (c, None)) <$> success_ v) vs.
Definition failed_call (v : queue_value) (e : Z) : list (nat * option Z) :=
  option_list ((λ c, (c, Some e)) <$> success_ v).

(** Where the write of the front message is: under way, completed with some bytes
    or with an error and about to be handled, or over because of an error. *)
Inductive phase : Type :=
  | Writing (total : nat)
  | Wrote (total n : nat)
  | Failing (e : Z) (total : nat)
  | Failed (e : Z) (total : nat).
Definition written (f : phase) : nat :=
  match f with Writing t | Failing _ t | Failed _ t => t | Wrote t n => t + n end.

(** The front [v] is as [f] says in the state. *)
Definition in_phase (v : queue_value) (f : phase) (s : point_iface) : Prop :=
  let m := transformed (message_ v) in
  match f with
  | Writing t =>
      writing_ s = Some (WriteOp (drop t m) t) ∧ filter (Is_true ∘ is_handler) (strand_ s) = [] ∧ (t ≤ length m)%nat
  | Wrote t n =>
      writing_ s = None ∧ (t + n ≤ length m)%nat ∧
      filter (Is_true ∘ is_handler) (strand_ s) = [TWriteHandler None n (length m - t) t]
  | Failing e t =>
      writing_ s = None ∧ (t ≤ length m)%nat ∧
      ∃ l, filter (Is_true ∘ is_handler) (strand_ s) = [TWriteHandler (Some e) 0 l t]
  | Failed e t =>
      writing_ s = None ∧ (t ≤ length m)%nat ∧ filter (Is_true ∘ is_handler) (strand_ s) = []
  end.

(** The messages that were posted: written, in the queue, on the strand. *)
Record inv (vs : list queue_value) (s : point_iface) (done queue : list queue_value) (f : option phase) : Prop := {
  i_posted : vs = done ++ queue ++ omap waiting (strand_ s);
  i_queue : write_queue_ s =
    match queue with
    | [] => []
    | v :: q => QueueValue (transformed (message_ v)) (success_ v) :: q
    end;
  i_phase :
    match queue, f with
    | [], None => writing_ s = None ∧ filter (Is_true ∘ is_handler) (strand_ s) = []
    | v :: _, Some f => in_phase v f s
    | _, _ => False
    end;
  i_sent : sent_ s = wire done ++
    match queue, f with
    | v :: _, Some f => take (written f) (transformed (message_ v))
    | _, _ => []
    end;
  i_calls : omap closure_call (log_ s) = succeeded done ++
    match queue, f with
    | v :: _, Some (Failed e _) => failed_call v e
    | _, _ => []
    end
}.
End Point.

(** ** Lemmas *)

Section Lemmas.
Context (dispatch_read transform_message : bool) (on_transform_message : bytes → bytes).

Abbreviation T := (transformed transform_message on_transform_message).
Abbreviation async_write' := (async_write transform_message on_transform_message (λ _, None)).
Abbreviation run_task' := (run_task transform_message on_transform_message (λ _, None)).
Abbreviation step' := (step dispatch_read transform_message on_transform_message (λ _, None)).
Abbreviation inv' := (inv transform_message on_transform_message).
Implicit Types s : point_iface.

Lemma async_write_ok s v q : write_queue_ s = v :: q →
  async_write' s = (Ok tt, with_writing (Some (WriteOp (T (message_ v)) 0))
    (with_queue (QueueValue (T (message_ v)) (success_ v) :: q) s)).
Proof.
  intros Hq. destruct s as [wq a st w r se lo], v as [m c]. cbn in Hq. subst.
  unfold async_write, transformed. by destruct transform_message.
Qed.

Lemma wire_snoc vs v :
  wire transform_message on_transform_message (vs ++ [v]) = wire transform_message on_transform_message vs ++ T (message_ v).
Proof. unfold wire. rewrite fmap_app, concat_app. cbn. by rewrite app_nil_r. Qed.

Lemma succeeded_snoc vs v :
  succeeded (vs ++ [v]) = succeeded vs ++ option_list ((λ c, (c, None)) <$> success_ v).
Proof. unfold succeeded. rewrite omap_app. simpl. by destruct (success_ v). Qed.

Lemma closure_calls_app l o : omap closure_call (l ++ [o]) = omap closure_call l ++ option_list (closure_call o).
Proof. rewrite omap_app. simpl. by destruct (closure_call o). Qed.

(** A handler that is not about writing. *)
Lemma handlers_snoc st t : is_handler t = false →
  filter (Is_true ∘ is_handler) (st ++ [t]) = filter (Is_true ∘ is_handler) st.
Proof. intros Ht. rewrite filter_app, filter_cons. simpl. rewrite Ht. by rewrite app_nil_r. Qed.

Lemma handlers_cons st t : is_handler t = false →
  filter (Is_true ∘ is_handler) (t :: st) = filter (Is_true ∘ is_handler) st.
Proof. intros Ht. rewrite filter_cons. simpl. by rewrite Ht. Qed.

Lemma post_ok t s : post t s = (Ok tt, with_strand (strand_ s ++ [t]) s).
Proof. done. Qed.

(** The next message, when the one before is written: [q] is what the queue holds. *)
Lemma next_write vs s done queue :
  vs = done ++ queue ++ omap waiting (strand_ s) → write_queue_ s = queue →
  writing_ s = None → filter (Is_true ∘ is_handler) (strand_ s) = [] →
  sent_ s = wire transform_message on_transform_message done →
  omap closure_call (log_ s) = succeeded done →
  ∃ s' f, (let* empty := queue_empty in if empty then ret tt else async_write') s = (Ok tt, s') ∧
    inv' vs s' done queue f.
Proof.
  intros Hvs Hq Hw Hh Hs Hc. unfold queue_empty. unfold bind at 1, gets. rewrite Hq.
  destruct queue as [|v q].
  - exists s, None. split; [done|]. split; rewrite ?app_nil_r; done.
  - rewrite (async_write_ok s v q) by done. eexists _, (Some (Writing 0)). split; [done|].
    split; cbn; rewrite ?drop_0, ?take_0, ?app_nil_r; try done. split_and!; [done..|lia].
Qed.

Lemma write_impl_inv vs s done queue f v st :
  strand_ s = TWrite v :: st → inv' vs s done queue f →
  ∃ s' f', run_task' (TWrite v) (with_strand st s) = (Ok tt, s') ∧ inv' vs s' done (queue ++ [v]) f'.
Proof.
  intros Hst [Hp Hq Hph Hse Hc]. rewrite Hst in Hp, Hph. cbn [run_task]. unfold write_impl, queue_empty.
  unfold bind at 1, gets. cbn [write_queue_ with_strand]. rewrite Hq. unfold queue_push. rewrite bind_modify.
  cbn [write_queue_ with_strand]. rewrite Hq.
  assert (Hp' : vs = done ++ (queue ++ [v]) ++ omap waiting st) by (rewrite Hp; simpl; by rewrite <-!(assoc_L (++))).
  destruct queue as [|v0 q].
  - destruct f as [f|]; [done|]. destruct Hph as [Hw Hh]. rewrite handlers_cons in Hh by done.
    rewrite (async_write_ok _ v []) by done.
    eexists _, (Some (Writing 0)). split; [done|]. split; cbn; rewrite ?drop_0, ?take_0; try done.
    split_and!; [done|done|lia].
  - destruct f as [f|]; [|done]. eexists _, (Some f). split; [done|].
    split; cbn; [done|done| |done|done].
    destruct f; unfold in_phase in *; rewrite ?Hst in Hph; rewrite handlers_cons in Hph by done; exact Hph.
Qed.

(** The task at the front is not a handler of writes, and changes nothing of them. *)
Lemma inv_same vs s done queue f t st s' :
  strand_ s = t :: st → waiting t = None → is_handler t = false → inv' vs s done queue f →
  strand_ s' = st → write_queue_ s' = write_queue_ s → writing_ s' = writing_ s → sent_ s' = sent_ s →
  omap closure_call (log_ s') = omap closure_call (log_ s) → inv' vs s' done queue f.
Proof.
  intros Hst Hwt Hht [Hp Hq Hph Hse Hc] E1 E2 E3 E4 E5. rewrite Hst in Hp, Hph.
  assert (Hh : filter (Is_true ∘ is_handler) (t :: st) = filter (Is_true ∘ is_handler) st).
  { rewrite filter_cons. simpl. by rewrite Hht. }
  split; rewrite ?E2, ?E4, ?E5; try done.
  - rewrite E1, Hp. simpl. by rewrite Hwt.
  - destruct queue, f as [[]|]; try done; unfold in_phase in *; rewrite E1, E3;
      rewrite ?Hst, Hh in Hph; exact Hph.
Qed.

Lemma write_handler_inv vs s done queue f e n l t st :
  strand_ s = TWriteHandler e n l t :: st → inv' vs s done queue f →
  ∃ s' done' queue' f', run_task' (TWriteHandler e n l t) (with_strand st s) = (Ok tt, s') ∧
    inv' vs s' done' queue' f' ∧ done ++ queue = done' ++ queue'.
Proof.
  intros Hst [Hp Hq Hph Hse Hc]. rewrite Hst in Hp. cbn [run_task]. unfold write_handler.
  destruct queue as [|v q], f as [f|]; try done; [destruct Hph as [_ Hh]; by rewrite Hst in Hh|].
  unfold in_phase in Hph. rewrite Hst, filter_cons in Hph. simpl in Hph.
  assert (Htop : queue_top (with_strand st s) =
    (Ok (QueueValue (T (message_ v)) (success_ v)), with_strand st s)).
  { unfold queue_top. rewrite bind_get. cbn [write_queue_ with_strand]. by rewrite Hq. }
  rewrite (bind_ok _ _ _ _ _ Htop). clear Htop.
  destruct f as [t'|t' n'|e' t'|e' t'].
  - by destruct Hph as (_ & ? & _).
  - destruct Hph as (Hw & Hle & [= -> -> -> -> Hh]). cbn [written] in Hse.
    destruct (n' <? length (T (message_ v)) - t')%nat eqn:E.
    + eexists _, done, (v :: q), (Some (Writing (t' + n'))). split; [done|]. split; [|done].
      split; cbn; [done|done| |done|done]. split_and!; [done|done|lia].
    + apply Nat.ltb_ge in E. unfold call_success.
      set (s1 := match success_ v with Some c => with_output (OSuccess c None) (with_strand st s) | None => with_strand st s end).
      assert (Hs1 : call_success (QueueValue (T (message_ v)) (success_ v)) None (with_strand st s) = (Ok tt, s1)).
      { unfold call_success, s1. simpl. by destruct (success_ v). }
      unfold call_success in Hs1. rewrite (bind_ok _ _ _ _ _ Hs1).
      assert (Hpop : queue_pop s1 = (Ok tt, with_queue q s1)).
      { unfold queue_pop. rewrite bind_get. replace (write_queue_ s1) with (write_queue_ s)
          by (unfold s1; by destruct (success_ v)). by rewrite Hq. }
      rewrite (bind_ok _ _ _ _ _ Hpop).
      destruct (next_write vs (with_queue q s1) (done ++ [v]) q) as (s' & f' & Hs' & Hi').
      * rewrite Hp. simpl. rewrite <-(assoc_L (++)). simpl. unfold s1. by destruct (success_ v).
      * done.
      * cbn. unfold s1. by destruct (success_ v).
      * cbn. unfold s1. by destruct (success_ v).
      * rewrite wire_snoc. transitivity (sent_ s); [unfold s1; by destruct (success_ v)|].
        rewrite Hse. f_equal. apply take_ge. lia.
      * rewrite succeeded_snoc. rewrite app_nil_r in Hc. unfold s1.
        destruct (success_ v); cbn; [|by rewrite app_nil_r]. by rewrite closure_calls_app, Hc.
      * exists s', (done ++ [v]), q, f'. split; [done|]. split; [done|]. by rewrite <-(assoc_L (++)).
  - destruct Hph as (Hw & Hle & l' & [= -> -> -> -> Hh]).
    destruct v as [m [c|]]; eexists _, done, (_ :: q), (Some (Failed e' t'));
      (split; [reflexivity|]); (split; [|reflexivity]); split; cbn in *; try done;
      rewrite ?omap_app; simpl; rewrite ?app_nil_r; rewrite Hc; by rewrite ?app_nil_r.
  - by destruct Hph as (_ & _ & ?).
Qed.

(** What the invariant looks at. *)
Lemma inv_ext vs s s' done queue f :
  inv' vs s done queue f →
  strand_ s' = strand_ s → write_queue_ s' = write_queue_ s → writing_ s' = writing_ s → sent_ s' = sent_ s →
  omap closure_call (log_ s') = omap closure_call (log_ s) → inv' vs s' done queue f.
Proof.
  intros [Hp Hq Hph Hse Hc] E1 E2 E3 E4 E5. split; rewrite ?E1, ?E2, ?E4, ?E5; try done.
  destruct queue, f as [[]|]; try done; unfold in_phase in *; rewrite ?E1, ?E3; exact Hph.
Qed.

Lemma inv_post vs s done queue f t : is_handler t = false → inv' vs s done queue f →
  inv' (vs ++ option_list (waiting t)) (with_strand (strand_ s ++ [t]) s) done queue f.
Proof.
  intros Ht [Hp Hq Hph Hse Hc]. split; cbn [write_queue_ strand_ sent_ log_ with_strand]; try done.
  - rewrite Hp, omap_app. simpl. destruct (waiting t); by rewrite <-!(assoc_L (++)), ?app_nil_r.
  - destruct queue, f as [[]|]; try done; unfold in_phase in *; cbn [strand_ writing_ with_strand];
      rewrite handlers_snoc by done; exact Hph.
Qed.

(** The write of the front is done or fails; its handler goes to the strand. *)
Lemma inv_completed vs s done v q t n f' h :
  inv' vs s done (v :: q) (Some (Writing t)) → waiting h = None →
  (∀ s', strand_ s' = strand_ s ++ [h] → writing_ s' = None →
    in_phase transform_message on_transform_message v f' s') →
  written f' = (t + n)%nat → (∀ e t, f' ≠ Failed e t) →
  inv' vs (with_strand (strand_ s ++ [h]) (with_writing None (with_sent (sent_ s ++ take n (drop t (T (message_ v)))) s)))
    done (v :: q) (Some f').
Proof.
  intros [Hp Hq Hph Hse Hc] Hh Hf' Hw Hn.
  split; cbn [write_queue_ strand_ sent_ log_ with_strand with_writing with_sent].
  - rewrite Hp, omap_app. simpl. by rewrite Hh, app_nil_r.
  - done.
  - by apply Hf'.
  - rewrite Hw, Hse. cbn [written]. by rewrite <-(assoc_L (++)), take_take_drop.
  - rewrite Hc. destruct f'; try done. by destruct (Hn e total).
Qed.

Lemma point_step_inv vs s done queue f l : inv' vs s done queue f →
  ∃ s' done' queue' f', step' l s = (Ok tt, s') ∧
    inv' (vs ++ option_list (posted l)) s' done' queue' f'.
Proof.
  intros Hi. unfold step. rewrite bind_get.
  destruct l as [data close| | | |n|e|error data]; cbn [posted option_list]; rewrite ?app_nil_r.
  - eexists _, done, queue, f. split; [done|]. by apply (inv_post _ _ _ _ _ (TWrite (QueueValue data close))).
  - eexists _, done, queue, f. split; [done|].
    pose proof (inv_post vs s done queue f TClose eq_refl Hi) as H'. by rewrite app_nil_r in H'.
  - eexists _, done, queue, f. split; [done|]. by eapply inv_ext.
  - destruct (strand_ s) as [|t st] eqn:Hst; [by exists s, done, queue, f|]. rewrite bind_modify.
    destruct t as [v| |e n l t|e d].
    + destruct (write_impl_inv _ _ _ _ _ _ _ Hst Hi) as (s' & f' & H1 & H2). eauto 8.
    + cbn [run_task]. unfold close_impl. rewrite bind_get.
      destruct (active_ (with_strand st s)); eexists _, done, queue, f; (split; [reflexivity|]);
        eapply (inv_same _ s _ _ _ TClose); try done. cbn. by rewrite closure_calls_app, app_nil_r.
    + destruct (write_handler_inv _ _ _ _ _ _ _ _ _ _ Hst Hi) as (s' & done' & q' & f' & H1 & H2 & _). eauto 8.
    + cbn [run_task]. destruct e as [e|]; eexists _, done, queue, f; (split; [reflexivity|]);
        eapply (inv_same _ s _ _ _ (TReadHandler _ d)); try done; cbn; by rewrite closure_calls_app, app_nil_r.
  - destruct (writing_ s) as [[data total]|] eqn:Hw; [|by exists s, done, queue, f].
    destruct queue as [|v q], f as [f|]; try by destruct (i_phase _ _ _ _ _ _ _ Hi).
    { destruct (i_phase _ _ _ _ _ _ _ Hi) as [Hn _]. congruence. }
    pose proof (i_phase _ _ _ _ _ _ _ Hi) as Hph.
    destruct f as [t|t k|e t|e t]; try (destruct Hph as [Hn _]; congruence).
    destruct Hph as (Hw' & Hh & Hle). rewrite Hw in Hw'. injection Hw' as -> ->.
    eexists _, done, (v :: q), _. split; [reflexivity|].
    set (k := Nat.min n (length (drop t (T (message_ v))))).
    apply (inv_completed vs s done v q t k (Wrote t k)); try done.
    intros s' Hs' Hw'. split_and!; [done|unfold k; rewrite length_drop; lia|].
    rewrite Hs', filter_app, Hh. cbn. by rewrite length_drop.
  - destruct (writing_ s) as [[data total]|] eqn:Hw; [|by exists s, done, queue, f].
    destruct queue as [|v q], f as [f|]; try by destruct (i_phase _ _ _ _ _ _ _ Hi).
    { destruct (i_phase _ _ _ _ _ _ _ Hi) as [Hn _]. congruence. }
    pose proof (i_phase _ _ _ _ _ _ _ Hi) as Hph.
    destruct f as [t|t k|e' t|e' t]; try (destruct Hph as [Hn _]; congruence).
    destruct Hph as (Hw' & Hh & Hle). rewrite Hw in Hw'. injection Hw' as -> ->.
    eexists _, done, (v :: q), _. split; [reflexivity|].
    pose proof (inv_completed vs s done v q t 0 (Failing e t)
      (TWriteHandler (Some e) 0 (length (drop t (T (message_ v)))) t) Hi eq_refl) as H'.
    rewrite take_0, app_nil_r in H'. eapply inv_ext; [apply H'|done..].
    + intros s' Hs' Hw'. split_and!; [done|done|]. eexists. rewrite Hs', filter_app, Hh. reflexivity.
    + cbn. lia.
    + done.
  - destruct (reading_ s); [|by exists s, done, queue, f]. rewrite bind_modify. destruct dispatch_read.
    + eexists _, done, queue, f. split; [reflexivity|].
      pose proof (inv_post vs s done queue f (TReadHandler error data) eq_refl Hi) as H'.
      rewrite app_nil_r in H'. by eapply inv_ext.
    + destruct error; eexists _, done, queue, f; (split; [reflexivity|]); eapply inv_ext; try done;
        cbn; by rewrite closure_calls_app, app_nil_r.
Qed.

Lemma point_run_inv vs s done queue f ls : inv' vs s done queue f →
  ∃ s' done' queue' f', run_all dispatch_read transform_message on_transform_message (λ _, None) ls s = (Ok tt, s') ∧
    inv' (vs ++ omap posted ls) s' done' queue' f'.
Proof.
  revert vs s done queue f. induction ls as [|l ls IH]; intros vs s done queue f Hi.
  { exists s, done, queue, f. by rewrite app_nil_r. }
  destruct (point_step_inv vs s done queue f l Hi) as (s1 & d1 & q1 & f1 & E1 & Hi1).
  destruct (IH _ _ _ _ _ Hi1) as (s2 & d2 & q2 & f2 & E2 & Hi2).
  exists s2, d2, q2, f2. split; [cbn [run_all]; by rewrite (bind_ok _ _ _ _ _ E1)|].
  rewrite <-(assoc_L (++)) in Hi2. simpl. by destruct (posted l).
Qed.

Lemma point_new_inv : inv' [] point_new [] [] None.
Proof. by split. Qed.
End Lemmas.

(** *** After an error *)

(** The front was refused by the stream, and nothing is under way. *)
Definition stuck (s : point_iface) : Prop :=
  write_queue_ s ≠ [] ∧ writing_ s = None ∧ filter (Is_true ∘ is_handler) (strand_ s) = [].

Section Stuck.
Context (dispatch_read transform_message : bool) (on_transform_message : bytes → bytes).
Context (stream_throws : point_iface → option exn).

Abbreviation step' := (step dispatch_read transform_message on_transform_message stream_throws).

(** Nothing is written and no closure is called. *)
Definition same_writes (s s' : point_iface) : Prop :=
  sent_ s' = sent_ s ∧ omap closure_call (log_ s') = omap closure_call (log_ s).

Lemma step_stuck s l : stuck s →
  ∃ s', step' l s = (Ok tt, s') ∧ stuck s' ∧ same_writes s s'.
Proof.
  intros (Hq & Hw & Hh). unfold step. rewrite bind_get.
  destruct l as [data close| | | |n|e|error data]; rewrite ?Hw; try by exists s.
  - eexists. split; [done|]. split; [|done]. split_and!; [done|done|]. cbn. by rewrite handlers_snoc.
  - eexists. split; [done|]. split; [|done]. split_and!; [done|done|]. cbn. by rewrite handlers_snoc.
  - by eexists.
  - destruct (strand_ s) as [|t st] eqn:Hst; [by exists s; unfold stuck; rewrite Hst|]. rewrite bind_modify.
    destruct t as [v| |e n l t|e d]; try (by rewrite filter_cons in Hh);
      rewrite handlers_cons in Hh by done; cbn [run_task].
    + unfold write_impl, queue_empty. unfold bind at 1, gets. cbn [write_queue_ with_strand].
      destruct (write_queue_ s) as [|v0 q] eqn:Eq; [done|]. eexists. split; [done|]. split; [|done].
      split_and!; [cbn; by rewrite Eq|done|done].
    + unfold close_impl. rewrite bind_get. destruct (active_ _); eexists; (split; [reflexivity|]); split; try done.
      split; [done|]. cbn. by rewrite closure_calls_app, app_nil_r.
    + destruct e as [e|]; eexists; (split; [reflexivity|]); split; try done;
        (split; [done|]); cbn; by rewrite closure_calls_app, app_nil_r.
  - destruct (reading_ s); [|by exists s]. rewrite bind_modify. destruct dispatch_read.
    + eexists. split; [reflexivity|]. split; [|done]. split_and!; [done|done|]. cbn. by rewrite handlers_snoc.
    + destruct error; eexists; (split; [reflexivity|]); split; try done;
        (split; [done|]); cbn; by rewrite closure_calls_app, app_nil_r.
Qed.

Lemma run_all_stuck s ls : stuck s →
  ∃ s', run_all dispatch_read transform_message on_transform_message stream_throws ls s = (Ok tt, s') ∧
    stuck s' ∧ same_writes s s'.
Proof.
  revert s. induction ls as [|l ls IH]; intros s Hs; [by exists s|].
  destruct (step_stuck s l Hs) as (s1 & E1 & Hs1 & H1 & H2).
  destruct (IH s1 Hs1) as (s2 & E2 & Hs2 & H3 & H4).
  exists s2. split; [cbn [run_all]; by rewrite (bind_ok _ _ _ _ _ E1)|]. split; [done|].
  split; congruence.
Qed.
End Stuck.

(** ** Properties *)

Section Properties.
Context (dispatch_read transform_message : bool) (on_transform_message : bytes → bytes).
Abbreviation run := (run_all dispatch_read transform_message on_transform_message (λ _, None)).
Abbreviation T := (transformed transform_message on_transform_message).

(** Whatever is posted and however the stream takes it, piece by piece,
    the bytes it was given are the transformed messages in the order they were posted,
    whole ones and the beginning of the next; the closures of the whole ones ran, each
    once and in that order, and the next one's only with an error; nothing is undefined.
    When nothing is left to run, all was written or a write has failed. *)
Theorem point_writes ls : ∃ s done queue,
  run ls point_new = (Ok tt, s) ∧
  omap posted ls = done ++ queue ++ omap waiting (strand_ s) ∧
  (∃ n, sent_ s = wire transform_message on_transform_message done ++
     take n (match queue with v :: _ => T (message_ v) | [] => [] end)) ∧
  (omap closure_call (log_ s) = succeeded done ∨
   ∃ v q e, queue = v :: q ∧ omap closure_call (log_ s) = succeeded done ++ failed_call v e ∧ stuck s) ∧
  (strand_ s = [] → writing_ s = None → queue = [] ∨ stuck s).
Proof.
  destruct (point_run_inv dispatch_read transform_message on_transform_message [] point_new [] [] None ls)
    as (s & done & queue & f & E & [Hp Hq Hph Hse Hc]); [apply point_new_inv|].
  assert (Hstuck : ∀ v q e t, queue = v :: q → f = Some (Failed e t) → stuck s).
  { intros v q e t -> ->. destruct Hph as (Hw & _ & Hh). split_and!; [by rewrite Hq|done|done]. }
  exists s, done, queue. split_and!; [done|done| | |].
  - destruct queue as [|v q]; [exists O; by rewrite Hse|]. destruct f as [f|]; [|done].
    by exists (written f).
  - destruct queue as [|v q]; [left; by rewrite Hc, app_nil_r|]. destruct f as [f|]; [|done].
    destruct f as [t|t k|e t|e t]; try (left; by rewrite Hc, app_nil_r). right. exists v, q, e. eauto.
  - intros Hst Hw. destruct queue as [|v q]; [by left|right]. destruct f as [f|]; [|done].
    destruct f as [t|t k|e t|e t]; [..|by eapply Hstuck];
      unfold in_phase in Hph; rewrite ?Hst, ?Hw in Hph; destruct_and?; try done.
    by match goal with Hl : ∃ _, _ |- _ => destruct Hl end.
Qed.

(** After a write has failed nothing is ever written again and no closure is ever
    called, though the point takes messages as before. *)
Theorem point_stuck s ls : stuck s → ∃ s', run ls s = (Ok tt, s') ∧
  sent_ s' = sent_ s ∧ omap closure_call (log_ s') = omap closure_call (log_ s).
Proof. intros Hs. destruct (run_all_stuck dispatch_read transform_message on_transform_message (λ _, None) s ls Hs)
  as (s' & E & _ & H). eauto. Qed.
End Properties.

(** *** Witnesses *)

(** The closure of the second message never runs. *)
Example closure_lost :
  let s := (run_all true false (λ m, m) (λ _, None)
    [LWrite [1; 2] (Some 0%nat); LRun; LWrite [3] (Some 1%nat); LRun; LWriteFail 104; LRun] point_new).2 in
  stuck s ∧ log_ s = [OSuccess 0 (Some 104); OWriteError 104].
Proof. split; [split_and!; (done || vm_compute; reflexivity)|]. vm_compute. reflexivity. Qed.

Lemma point_stuck_witness :
  let s := Point [QueueValue [1] None] true [] None false [] [] in
  ∃ s', run_all true false (λ m, m) (λ _, None) [LWrite [3] (Some 1%nat); LRun] s = (Ok tt, s') ∧
    sent_ s' = [] ∧ omap closure_call (log_ s') = [].
Proof. apply (point_stuck true false (λ m, m)). split_and!; (done || vm_compute; reflexivity). Defined.
