(* ===== verification/SslWrapper.v ===== *)
(** * SslWrapper: TLS over memory, in the handshake example

    [src/examples/hello-ssl-handshake/protocol/ssl-wrapper.h]: [bio_wrapper], which owns
    or holds a BIO, and [ssl_bio_wrapper], a TLS session between two memory BIOs, which
    shakes hands, encrypts and decrypts strings.

    OpenSSL is an argument; the laws say what its manual says of memory BIOs, of its
    queue of errors and of a session that has shaken hands and whose peer has only sent
    records of data: writing takes some of the data, reading gives some of what the
    peer's records that have arrived decode to, and either may have records to send.
    They say nothing of other input: records that were damaged, alerts, the end of the
    session and new handshakes. *)

From S2P Require Import Prelude.

(** ** OpenSSL *)

(** Pointers are numbers or NULL; a buffer that is filled comes back with the result. *)
Class Openssl (W : Type) : Type := {
  err_get_error : M W Z;
  err_error_string : Z → string;
  bio_new : M W (option nat);
  bio_free_all : nat → M W unit;
  bio_push : option nat → option nat → M W unit;
  bio_pop : option nat → M W (option nat);
  bio_flush : option nat → M W unit;
  bio_get_mem_data : option nat → M W bytes;
  bio_write : option nat → bytes → Z → M W Z;
  bio_read : option nat → Z → M W (Z * bytes);
  ssl_ctx_new : M W (option nat);
  ssl_ctx_free : nat → M W unit;
  ssl_new : option nat → M W (option nat);
  ssl_free : nat → M W unit;
  ssl_set_bio : nat → option nat → option nat → M W unit;
  ssl_set_accept_state : option nat → M W unit;
  ssl_set_connect_state : option nat → M W unit;
  ssl_is_init_finished : option nat → M W bool;
  ssl_get_error : option nat → Z → M W Z;
  ssl_write : option nat → bytes → Z → M W Z;
  ssl_read : option nat → Z → M W (Z * bytes);
  ssl_do_handshake : option nat → M W Z
}.

Definition SSL_ERROR_NONE : Z := 0.
Definition SSL_ERROR_SSL : Z := 1.
Definition SSL_ERROR_WANT_READ : Z := 2.
Definition SSL_ERROR_WANT_WRITE : Z := 3.

(** The conversion to [int]. *)
Definition as_int (n : Z) : Z := let n := u32 n in if n <? 2 ^ 31 then n else n - 2 ^ 32.

Definition error_fatal (err : Z) : bool :=
  negb (bool_decide (err ∈ [SSL_ERROR_WANT_READ; SSL_ERROR_WANT_WRITE; SSL_ERROR_NONE])).

Record bio_wrapper : Type := BioWrapper { b_ : option nat; own_ : bool }.

Record ssl_bio_wrapper : Type := SslBioWrapper {
  ssl_ : option nat; ctx_ : option nat; in_ : bio_wrapper; out_ : bio_wrapper
}.

Section Wrapper.
Context {W : Type} `{Openssl W}.

(** ** ssl_exception *)

Definition set_what (arg : string) : M W string :=
  let* error_code := err_get_error in
  ret ((if bool_decide (arg = "") then "" else arg ++ ": ") ++ err_error_string (u64 (as_int error_code)))%string.
Definition set_what_ssl (arg : string) (s : option nat) (res : Z) : M W string :=
  let* error_code := ssl_get_error s res in
  ret ((if bool_decide (arg = "") then "" else arg ++ ": ") ++ err_error_string (u64 (as_int error_code)))%string.

(** Without a text, a string is made of a null pointer. *)
Definition ssl_exception_raise {A} (arg : option string) : M W A :=
  match arg with
  | None => raise (EUndefined "a string of a null pointer")
  | Some arg => let* what := set_what arg in raise (ERuntime what)
  end.
Definition ssl_exception_raise_ssl {A} (arg : option string) (s : option nat) (n : Z) : M W A :=
  match arg with
  | None => raise (EUndefined "a string of a null pointer")
  | Some arg => let* what := set_what_ssl arg s n in raise (ERuntime what)
  end.

(** ** bio_wrapper *)

Definition free_bio (b : bio_wrapper) : M W unit :=
  match b_ b with Some p => if own_ b then bio_free_all p else ret tt | None => ret tt end.
Definition make_new : M W (option nat) :=
  let* b := bio_new in
  match b with
  | None => ssl_exception_raise (Some "BIO_new"%string)
  | Some b => ret (Some b)
  end.
Definition bio_wrapper_mem : M W bio_wrapper := let* b := make_new in ret (BioWrapper b true).
Definition bio_wrapper_null : bio_wrapper := BioWrapper None false.
Definition release (b : bio_wrapper) : option nat * bio_wrapper := (b_ b, BioWrapper None (own_ b)).
Definition give (b : bio_wrapper) : option nat * bio_wrapper := (b_ b, BioWrapper (b_ b) false).
Definition reset (p : option nat) (own : bool) (b : bio_wrapper) : M W bio_wrapper :=
  (if bool_decide (p = b_ b) then ret tt else free_bio b) ;;;
  ret (BioWrapper p own).
Definition append (p : option nat) (b : bio_wrapper) : M W unit := bio_push (b_ b) p.
Definition append_wrapper (other b : bio_wrapper) : M W bio_wrapper :=
  let '(p, other) := give other in
  bio_push (b_ b) p ;;; ret other.
Definition remove (owned : bool) (b : bio_wrapper) : M W (option nat * bio_wrapper) :=
  let* p := bio_pop (b_ b) in ret (p, BioWrapper (b_ b) owned).
Definition hold (p : option nat) (b : bio_wrapper) : M W bio_wrapper := reset p false b.
Definition own (p : option nat) (b : bio_wrapper) : M W bio_wrapper := reset p true b.
Definition flush (b : bio_wrapper) : M W unit := bio_flush (b_ b).
Definition size (b : bio_wrapper) : M W Z := let* d := bio_get_mem_data (b_ b) in ret (blen d).
Definition ptr (b : bio_wrapper) : M W bytes := bio_get_mem_data (b_ b).

(** What the loops do about a result that is no number of bytes: an error of the queue
    that is not fatal, or none, ends them. *)
Definition bio_failed {A} (text : string) (a : A) : M W A :=
  let* err := err_get_error in
  if error_fatal (as_int err) then ssl_exception_raise (Some text) else ret a.

Fixpoint bio_write_loop (fuel : nat) (b : bio_wrapper) (data : bytes) (max total : Z) : M W Z :=
  if total <? max then
    match fuel with
    | O => raise (EUndefined "fuel")
    | S fuel =>
        let* n := bio_write (b_ b) (drop (Z.to_nat total) data) (as_int (max - total)) in
        if n <? 0 then bio_failed "BIO_write" total
        else bio_write_loop fuel b data max (u64 (total + n))
    end
  else ret total.
Definition bio_wrapper_write (fuel : nat) (b : bio_wrapper) (data : bytes) : M W Z :=
  bio_write_loop fuel b data (blen data) 0.

(** Reading to a buffer of [max] bytes: [acc] is what is in it. *)
Fixpoint bio_read_loop (fuel : nat) (b : bio_wrapper) (max total : Z) (acc : bytes) : M W (Z * bytes) :=
  if total <? max then
    match fuel with
    | O => raise (EUndefined "fuel")
    | S fuel =>
        let* (n, d) := bio_read (b_ b) (as_int (max - total)) in
        if n <? 0 then bio_failed "BIO_read" (total, acc)
        else bio_read_loop fuel b max (u64 (total + n)) (acc ++ d)
    end
  else ret (total, acc).
Definition bio_wrapper_read_to (fuel : nat) (b : bio_wrapper) (max : Z) : M W (Z * bytes) :=
  bio_read_loop fuel b max 0 [].

Definition buf_size : Z := 4096.
Fixpoint bio_wrapper_read (fuel : nat) (b : bio_wrapper) (max : Z) (res : bytes) : M W bytes :=
  if 0 <? max then
    match fuel with
    | O => raise (EUndefined "fuel")
    | S fuel =>
        let* (n, d) := bio_read (b_ b) (Z.min buf_size max) in
        if n <=? 0 then bio_failed "SSL_read" res
        else bio_wrapper_read fuel b (u64 (max - n)) (res ++ d)
    end
  else ret res.
Fixpoint bio_wrapper_read_all (fuel : nat) (b : bio_wrapper) (res : bytes) : M W bytes :=
  match fuel with
  | O => raise (EUndefined "fuel")
  | S fuel =>
      let* (n, d) := bio_read (b_ b) buf_size in
      if n <=? 0 then bio_failed "SSL_read" res
      else bio_wrapper_read_all fuel b (res ++ d)
  end.

(** ** ssl_bio_wrapper *)

Implicit Types x : ssl_bio_wrapper.

(** The members are made in their order; when one cannot be made those before it are
    destroyed, which frees the BIOs. *)
Definition ssl_bio_wrapper_new : M W ssl_bio_wrapper :=
  let* ctx := ssl_ctx_new in
  let* i := bio_wrapper_mem in
  let* o := try_catch bio_wrapper_mem (λ e, free_bio i ;;; raise e) in
  match ctx with
  | None => try_catch (ssl_exception_raise (Some "SSL_CTX_new"%string)) (λ e, free_bio o ;;; free_bio i ;;; raise e)
  | Some _ => ret (SslBioWrapper None ctx i o)
  end.
Definition ssl_bio_wrapper_delete x : M W unit :=
  match ssl_ x with Some s => ssl_free s | None => ret tt end ;;;
  match ctx_ x with Some c => ssl_ctx_free c | None => ret tt end ;;;
  free_bio (out_ x) ;;;
  free_bio (in_ x).

Definition check_raise_fatal x (res : Z) (arg : string) : M W Z :=
  if res <=? 0 then
    let* err := ssl_get_error (ssl_ x) res in
    if error_fatal err then ssl_exception_raise_ssl (Some arg) (ssl_ x) err else ret err
  else ret SSL_ERROR_NONE.

(** [init_context] and [init_ssl] are virtual. *)
Definition init (init_context : M W unit) (init_ssl : option nat → M W unit) x : M W ssl_bio_wrapper :=
  init_context ;;;
  let* s := ssl_new (ctx_ x) in
  match s with
  | None => ssl_exception_raise (Some "SSL_new"%string)
  | Some p =>
      let '(i, inb) := give (in_ x) in
      let '(o, outb) := give (out_ x) in
      ssl_set_bio p i o ;;;
      init_ssl s ;;;
      ret (SslBioWrapper s (ctx_ x) inb outb)
  end.
Definition init_ssl_server (s : option nat) : M W unit := ssl_set_accept_state s.
Definition init_ssl_client (s : option nat) : M W unit := ssl_set_connect_state s.
Definition init_ssl_common (inbound_ : bool) (s : option nat) : M W unit :=
  if inbound_ then ssl_set_accept_state s else ssl_set_connect_state s.
Definition init_finished x : M W bool := ssl_is_init_finished (ssl_ x).

Definition write x (data : bytes) : M W Z :=
  let* n := ssl_write (ssl_ x) data (as_int (blen data)) in
  check_raise_fatal x n "SSL_write" ;;;
  ret (u64 (0 + n)).
Fixpoint write_loop (fuel : nat) x (data : bytes) (max total : Z) : M W Z :=
  if total <? max then
    match fuel with
    | O => raise (EUndefined "fuel")
    | S fuel =>
        let* n := ssl_write (ssl_ x) (drop (Z.to_nat total) data) (as_int (max - total)) in
        check_raise_fatal x n "SSL_write" ;;;
        write_loop fuel x data max (u64 (total + n))
    end
  else ret total.
Definition write_all (fuel : nat) x (data : bytes) : M W Z := write_loop fuel x data (blen data) 0.

Fixpoint read_all (fuel : nat) x (res : bytes) : M W bytes :=
  match fuel with
  | O => raise (EUndefined "fuel")
  | S fuel =>
      let* (n, d) := ssl_read (ssl_ x) 4096 in
      if n <=? 0 then check_raise_fatal x n "SSL_read" ;;; ret res
      else read_all fuel x (res ++ d)
  end.
Fixpoint read_loop (fuel : nat) x (max total : Z) (acc : bytes) : M W (Z * bytes) :=
  if total <? max then
    match fuel with
    | O => raise (EUndefined "fuel")
    | S fuel =>
        let* (n, d) := ssl_read (ssl_ x) (as_int (max - total)) in
        if n <=? 0 then check_raise_fatal x n "SSL_read" ;;; ret (total, acc)
        else read_loop fuel x max (u64 (total + n)) (acc ++ d)
    end
  else ret (total, acc).
Definition read_to (fuel : nat) x (max : Z) : M W (Z * bytes) := read_loop fuel x max 0 [].

Definition do_handshake (fuel : nat) x (data : bytes) : M W bytes :=
  (if bool_decide (data = []) then ret tt else bio_wrapper_write fuel (in_ x) data ;;; ret tt) ;;;
  let* n := ssl_do_handshake (ssl_ x) in
  check_raise_fatal x n "SSL_do_handshake" ;;;
  bio_wrapper_read_all fuel (out_ x) [].
Definition encrypt (fuel : nat) x (data : bytes) : M W bytes :=
  write_all fuel x data ;;;
  bio_wrapper_read_all fuel (out_ x) [].
Definition decrypt (fuel : nat) x (data : bytes) : M W bytes :=
  if bool_decide (data = []) then ret []
  else
    bio_wrapper_write fuel (in_ x) data ;;;
    read_all fuel x [].

(** The strings of a conversation, one after the other. *)
Fixpoint each (f : bytes → M W bytes) (ds : list bytes) : M W (list bytes) :=
  match ds with
  | [] => ret []
  | d :: ds => let* r := f d in let* rs := each f ds in ret (r :: rs)
  end.
End Wrapper.

(** ** The service and its client

    [server/main.cpp] and [client/main.cpp]: the blocks of the handshake and the encrypted
    strings are carried by calls.  The client is one thread; a call is the method of
    the service, whose exception the caller gets. *)

Section Service.
Context {C V : Type} `{Openssl C} `{Openssl V}.

Definition send_block (fuel : nat) (ssl_ : ssl_bio_wrapper) (block : bytes) : M V bytes :=
  let* finished := init_finished ssl_ in
  if negb finished then do_handshake fuel ssl_ block
  else
    let* decres := decrypt fuel ssl_ block in
    encrypt fuel ssl_ (rev decres).

Definition on_client {A} (m : M C A) : M (C * V) A := λ s, let '(r, c) := m s.1 in (r, (c, s.2)).
Definition on_server {A} (m : M V A) : M (C * V) A := λ s, let '(r, v) := m s.2 in (r, (s.1, v)).

Definition send_data (fuel : nat) (ssl stub : ssl_bio_wrapper) (data : bytes) (decode : bool) : M (C * V) bytes :=
  let* block := on_client (encrypt fuel ssl data) in
  let* res := on_server (send_block fuel stub block) in
  if decode then on_client (decrypt fuel ssl res)
  else on_client (bio_wrapper_write fuel (in_ ssl) res) ;;; ret [].

Fixpoint connect_handshake (fuel : nat) (ssl stub : ssl_bio_wrapper) : M (C * V) unit :=
  match fuel with
  | O => raise (EUndefined "fuel")
  | S fuel =>
      let* finished := on_client (init_finished ssl) in
      if finished then ret tt
      else
        let* res_data := on_client (do_handshake fuel ssl []) in
        (if bool_decide (res_data = []) then ret tt
         else
           let* data := on_server (send_block fuel stub res_data) in
           if bool_decide (data = []) then ret tt
           else on_client (bio_wrapper_write fuel (in_ ssl) data) ;;; ret tt) ;;;
        connect_handshake fuel ssl stub
  end.
End Service.

(** ** What the manual says *)

(** A session between its two BIOs: [s_taken] are the bytes it took from [s_in],
    [s_given] the number of decoded bytes it gave, [s_sent] what it was given to
    encrypt, [s_wire] all it put into [s_out].  [s_decoded] is what it decodes of the
    bytes of its peer, [s_peer] what the peer decodes of its own.  [s_accepts] are the
    beginnings of what a peer may send that only sends data: no damaged record, no
    alert such as [close_notify], no new handshake; [s_emits] is the same for the
    peer, of its own bytes. *)
Record session : Type := Session {
  s_in : nat; s_out : nat; s_finished : bool;
  s_taken : bytes; s_given : nat; s_sent : bytes; s_wire : bytes;
  s_decoded : bytes → bytes; s_peer : bytes → bytes;
  s_accepts : bytes → Prop; s_emits : bytes → Prop
}.
Definition took (d : bytes) (n : nat) (s : session) : session :=
  Session (s_in s) (s_out s) (s_finished s) (s_taken s ++ d) (s_given s + n) (s_sent s) (s_wire s) (s_decoded s) (s_peer s)
    (s_accepts s) (s_emits s).
Definition put_out (d r : bytes) (s : session) : session :=
  Session (s_in s) (s_out s) (s_finished s) (s_taken s) (s_given s) (s_sent s ++ d) (s_wire s ++ r) (s_decoded s) (s_peer s)
    (s_accepts s) (s_emits s).

(** The queue of errors, the memory BIOs with the bytes that wait in them, the sessions. *)
Record view : Type := View { v_errors : list Z; v_bios : gmap nat bytes; v_sessions : gmap nat session }.
Definition with_errors e (v : view) : view := View e (v_bios v) (v_sessions v).
Definition with_bio b d (v : view) : view := View (v_errors v) (<[b := d]> (v_bios v)) (v_sessions v).
Definition with_session s x (v : view) : view := View (v_errors v) (v_bios v) (<[s := x]> (v_sessions v)).

(** A session and its BIOs: what waits to be read and to be sent. *)
Definition connected (v : view) (s : nat) (x : session) (i o : bytes) : Prop :=
  v_sessions v !! s = Some x ∧ v_bios v !! s_in x = Some i ∧ v_bios v !! s_out x = Some o ∧ s_in x ≠ s_out x.
(** A session moves bytes [k] from its first BIO, [r] to its second. *)
Definition session_step (v : view) (s : nat) (x : session) (i o : bytes) (k n : nat) (d r : bytes) : view :=
  with_bio (s_out x) (o ++ r) (with_bio (s_in x) (drop k i) (with_session s (put_out d r (took (take k i) n x)) v)).
(** What has arrived and not been given. *)
Definition available (x : session) (i : bytes) : bytes := drop (s_given x) (s_decoded x (s_taken x ++ i)).
(** What has arrived is what a peer sends that only sends data. *)
Definition genuine (x : session) (i : bytes) : Prop := s_accepts x (s_taken x ++ i).
(** The session put out data only, which the peer decodes to what was sent; it took
    data only; a beginning of such bytes is one too, and more of them decode to more. *)
Record sound (x : session) : Prop := {
  so_sent : s_peer x (s_wire x) = s_sent x;
  so_emits : s_emits x (s_wire x);
  so_taken : s_accepts x (s_taken x);
  so_begins : ∀ p q, s_accepts x (p ++ q) → s_accepts x p ∧ s_decoded x p `prefix_of` s_decoded x (p ++ q)
}.
(** The bytes [r] that a step put out for the data [d]. *)
Definition encodes (x : session) (d r : bytes) : Prop :=
  s_peer x (s_wire x ++ r) = s_sent x ++ d ∧ s_emits x (s_wire x ++ r).

Class OpensslLaws (W : Type) `{Openssl W} : Type := {
  look : W → view;
  get_error_law w :
    ∃ w', err_get_error w = (Ok (default 0 (head (v_errors (look w)))), w') ∧
      look w' = with_errors (tail (v_errors (look w))) (look w);
  bio_write_law w b c d n :
    v_bios (look w) !! b = Some c → 0 < n ≤ blen d →
    ∃ w', bio_write (Some b) d n w = (Ok n, w') ∧ look w' = with_bio b (c ++ take (Z.to_nat n) d) (look w);
  bio_read_law w b c n :
    v_bios (look w) !! b = Some c → 0 < n → c ≠ [] →
    ∃ w', bio_read (Some b) n w = (Ok (Z.min n (blen c), take (Z.to_nat n) c), w') ∧
      look w' = with_bio b (drop (Z.to_nat n) c) (look w);
  bio_empty_law w b n :
    v_bios (look w) !! b = Some [] → 0 < n →
    ∃ w', bio_read (Some b) n w = (Ok (-1, []), w') ∧ look w' = look w;
  init_finished_law w s x :
    v_sessions (look w) !! s = Some x → ssl_is_init_finished (Some s) w = (Ok (s_finished x), w);
  ssl_write_law w s x i o d n :
    connected (look w) s x i o → s_finished x = true → sound x → 0 < n ≤ blen d →
    ∃ k r w', (0 < k ≤ Z.to_nat n)%nat ∧ ssl_write (Some s) d n w = (Ok (Z.of_nat k), w') ∧
      look w' = session_step (look w) s x i o 0 0 (take k d) r ∧ encodes x (take k d) r;
  ssl_early_law w s x o d n :
    connected (look w) s x [] o → v_errors (look w) = [] → s_finished x = false → 0 < n ≤ blen d →
    ∃ r w', ssl_write (Some s) d n w = (Ok (-1), w') ∧
      look w' = session_step (look w) s x [] o 0 0 [] r ∧
      ssl_get_error (Some s) (-1) w' = (Ok SSL_ERROR_WANT_READ, w');
  ssl_read_law w s x i o n :
    connected (look w) s x i o → s_finished x = true → sound x → genuine x i → 0 < n → available x i ≠ [] →
    ∃ m k r w', (0 < m ≤ length (available x i))%nat ∧
      ssl_read (Some s) n w = (Ok (Z.of_nat m, take m (available x i)), w') ∧
      look w' = session_step (look w) s x i o k m [] r ∧ encodes x [] r;
  ssl_nothing_law w s x i o n :
    connected (look w) s x i o → v_errors (look w) = [] → s_finished x = true → sound x → genuine x i →
    0 < n → available x i = [] →
    ∃ k r w', ssl_read (Some s) n w = (Ok (-1, []), w') ∧
      ssl_get_error (Some s) (-1) w' = (Ok SSL_ERROR_WANT_READ, w') ∧
      look w' = session_step (look w) s x i o k 0 [] r ∧ encodes x [] r
}.

(** ** Lemmas *)

(** Enough fuel gives the result. *)
Definition comes {W A} (m : nat → M W A) (w : W) (a : A) (w' : W) : Prop :=
  ∃ k, ∀ fuel, (k ≤ fuel)%nat → m fuel w = (Ok a, w').

Section Comes.
Context {W : Type}.
Lemma comes_now {A} (m : M W A) w a w' : m w = (Ok a, w') → comes (λ _, m) w a w'.
Proof. intros Hm. by exists 0%nat. Qed.
Lemma comes_bind {A B} (m : nat → M W A) (k : nat → A → M W B) w a w1 b w2 :
  comes m w a w1 → comes (λ fuel, k fuel a) w1 b w2 → comes (λ fuel, bind (m fuel) (k fuel)) w b w2.
Proof.
  intros [j Hm] [l Hk]. exists (j + l)%nat. intros fuel Hf. rewrite (bind_ok _ _ _ _ _ (Hm fuel ltac:(lia))). apply Hk. lia.
Qed.
Lemma comes_fuel {A} (m : nat → M W A) w a w' : comes (λ fuel, m (S fuel)) w a w' → comes m w a w'.
Proof. intros [k Hm]. exists (S k). intros [|fuel] Hf; [lia|]. apply Hm. lia. Qed.
Lemma comes_unique {A} (m : nat → M W A) w a w1 b w2 : comes m w a w1 → comes m w b w2 → a = b.
Proof. intros [k Hk] [l Hl]. specialize (Hk (k + l)%nat ltac:(lia)). rewrite Hl in Hk by lia. congruence. Qed.
Lemma comes_ext {A} (m n : nat → M W A) w a w' : (∀ fuel, n fuel w = m fuel w) → comes m w a w' → comes n w a w'.
Proof. intros He [k Hm]. exists k. intros fuel Hf. rewrite He. by apply Hm. Qed.
End Comes.

Lemma as_int_small n : 0 ≤ n < 2 ^ 31 → as_int n = n.
Proof.
  intros Hn. unfold as_int. rewrite wrap_small by (unfold in_word; lia).
  destruct (Z.ltb_spec n (2 ^ 31)); [done|lia].
Qed.

(** What a session does, whatever it has to send for that: its data comes out encrypted,
    [n] bytes are given. *)
Record moved (x : session) (i o d : bytes) (n : nat) (x' : session) (i' o' : bytes) : Prop := {
  m_in : s_in x' = s_in x; m_out : s_out x' = s_out x; m_finished : s_finished x' = s_finished x;
  m_decoded : s_decoded x' = s_decoded x; m_peer : s_peer x' = s_peer x;
  m_accepts : s_accepts x' = s_accepts x; m_emits : s_emits x' = s_emits x;
  m_arrived : s_taken x' ++ i' = s_taken x ++ i;
  m_given : s_given x' = (s_given x + n)%nat;
  m_sent : s_sent x' = s_sent x ++ d;
  m_wire : ∃ r, s_wire x' = s_wire x ++ r ∧ o' = o ++ r
}.
Lemma moved_refl x i o : moved x i o [] 0 x i o.
Proof. split; try done; [by rewrite app_nil_r|]. exists []. by rewrite !app_nil_r. Qed.
Lemma moved_trans x i o d n x1 i1 o1 e m x2 i2 o2 :
  moved x i o d n x1 i1 o1 → moved x1 i1 o1 e m x2 i2 o2 → moved x i o (d ++ e) (n + m) x2 i2 o2.
Proof.
  intros [] []. split; try congruence.
  - lia.
  - by rewrite m_sent1, m_sent0, app_assoc.
  - destruct m_wire0 as (r & Hw & ->), m_wire1 as (q & -> & ->). exists (r ++ q). by rewrite Hw, !app_assoc.
Qed.

Section Laws.
Context {W : Type} {HO : Openssl W} {HL : OpensslLaws W}.
Implicit Types (w : W) (X : ssl_bio_wrapper).

(** The wrapper [X] has the session [s], which is [x] between [i] and [o]. *)
Record wraps X (s : nat) w (x : session) (i o : bytes) : Prop := {
  w_ssl : ssl_ X = Some s; w_in : b_ (in_ X) = Some (s_in x); w_out : b_ (out_ X) = Some (s_out x);
  w_errors : v_errors (look w) = [];
  w_connected : connected (look w) s x i o;
  w_finished : s_finished x = true;
  w_sound : sound x
}.

Lemma tls_step_moved x k n d r i o :
  moved x i o d n (put_out d r (took (take k i) n x)) (drop k i) (o ++ r).
Proof. split; try done; cbn; [by rewrite <-app_assoc, take_drop|]. by exists r. Qed.
Lemma genuine_moved x i o d n x' i' o' : moved x i o d n x' i' o' → genuine x i → genuine x' i'.
Proof. intros []. unfold genuine. by rewrite m_accepts0, m_arrived0. Qed.
Lemma sound_step x k n d r i :
  sound x → s_accepts x (s_taken x ++ take k i) → encodes x d r → sound (put_out d r (took (take k i) n x)).
Proof. intros [] Hi []. by split. Qed.
Lemma genuine_taken x k i : sound x → genuine x i → s_accepts x (s_taken x ++ take k i).
Proof.
  intros [] Hg. apply (so_begins0 _ (drop k i)). by rewrite <-app_assoc, take_drop.
Qed.
Lemma step_wraps X s w x i o w' k n d r :
  wraps X s w x i o → look w' = session_step (look w) s x i o k n d r → s_accepts x (s_taken x ++ take k i) →
  encodes x d r →
  wraps X s w' (put_out d r (took (take k i) n x)) (drop k i) (o ++ r).
Proof.
  intros [] Hw Hk Hp. destruct w_connected0 as (Hs & Hi & Ho & Hn).
  split; try done; [by rewrite Hw| |by apply sound_step]. rewrite Hw. unfold connected, session_step. cbn. split_and!; [apply lookup_insert_eq|..|done].
  - by rewrite lookup_insert_ne, lookup_insert_eq.
  - apply lookup_insert_eq.
Qed.

(** *** The BIOs *)

Lemma bio_failed_none {A} text (a : A) w : v_errors (look w) = [] → ∃ w', bio_failed text a w = (Ok a, w') ∧ look w' = look w.
Proof.
  intros He. destruct (get_error_law w) as (w' & Hg & Hl). rewrite He in Hg, Hl. exists w'.
  unfold bio_failed. rewrite (bind_ok _ _ _ _ _ Hg). split; [done|]. rewrite Hl. destruct (look w). cbn in *. by rewrite He.
Qed.
Lemma wraps_look X s w w' x i o : look w' = look w → wraps X s w x i o → wraps X s w' x i o.
Proof. intros He []. by split; try done; rewrite He. Qed.

Lemma in_write X s w x i o d :
  wraps X s w x i o → blen d < 2 ^ 31 →
  ∃ w', comes (λ fuel, bio_wrapper_write fuel (in_ X) d) w (blen d) w' ∧ wraps X s w' x (i ++ d) o.
Proof.
  intros Hx Hd. pose proof Hx as []. destruct w_connected0 as (Hs & Hi & Ho & Hn). pose proof (blen_nonneg d).
  destruct (decide (d = [])) as [->|Hne].
  { exists w. rewrite app_nil_r. split; [|done]. exists 0%nat. by intros [|fuel] _. }
  assert (H0 : 0 < blen d) by (destruct d; [done|]; unfold blen; cbn; lia).
  destruct (bio_write_law w (s_in x) i d (blen d) Hi ltac:(lia)) as (w' & Hr & Hl). exists w'. split.
  - exists 1%nat. intros [|fuel] Hf; [lia|]. unfold bio_wrapper_write. cbn [bio_write_loop].
    destruct (Z.ltb_spec 0 (blen d)); [|lia]. rewrite Z.sub_0_r, as_int_small, w_in0 by lia. cbn [Z.to_nat]. rewrite drop_0.
    rewrite (bind_ok _ _ _ _ _ Hr). destruct (Z.ltb_spec (blen d) 0); [lia|].
    rewrite wrap_small by (unfold in_word; lia). cbn [Z.add].
    by destruct fuel; cbn [bio_write_loop]; rewrite Z.ltb_irrefl.
  - split; try done; [by rewrite Hl|]. rewrite Hl. unfold connected. cbn. split_and!; [done| | |done].
    + rewrite lookup_insert_eq. unfold blen. by rewrite Nat2Z.id, firstn_all.
    + by rewrite lookup_insert_ne.
Qed.

Lemma out_read_all X s w x i o acc :
  wraps X s w x i o →
  ∃ w', comes (λ fuel, bio_wrapper_read_all fuel (out_ X) acc) w (acc ++ o) w' ∧ wraps X s w' x i [].
Proof.
  remember (length o) as n eqn:Hn. revert w o acc Hn. induction (lt_wf n) as [n _ IH]. intros w o acc -> Hx.
  pose proof Hx as []. destruct w_connected0 as (Hs & Hi & Ho & Hne).
  destruct (decide (o = [])) as [->|Hnil].
  - destruct (bio_empty_law w (s_out x) buf_size Ho ltac:(done)) as (w1 & Hr & Hl).
    destruct (bio_failed_none "SSL_read" acc w1) as (w2 & Hf & Hl2); [by rewrite Hl|].
    exists w2. split; [|apply (wraps_look _ _ w); [congruence|done]].
    rewrite app_nil_r. exists 1%nat. intros [|fuel] Hfu; [lia|]. cbn [bio_wrapper_read_all]. rewrite w_out0, (bind_ok _ _ _ _ _ Hr). exact Hf.
  - destruct (bio_read_law w (s_out x) o buf_size Ho ltac:(done) Hnil) as (w1 & Hr & Hl).
    assert (Hx1 : wraps X s w1 x i (drop (Z.to_nat buf_size) o)).
    { split; try done; [by rewrite Hl|]. rewrite Hl. unfold connected. cbn. split_and!; [done| | |done].
      - by rewrite lookup_insert_ne.
      - apply lookup_insert_eq. }
    assert (Hlen : (0 < length o)%nat) by (destruct o; [done|cbn; lia]).
    assert (Hlt : (length (drop (Z.to_nat buf_size) o) < length o)%nat).
    { rewrite length_drop. unfold buf_size. lia. }
    destruct (IH _ Hlt w1 _ (acc ++ take (Z.to_nat buf_size) o) eq_refl Hx1) as (w2 & Hc & Hx2).
    exists w2. split; [|done]. apply comes_fuel. rewrite <-app_assoc, take_drop in Hc.
    eapply comes_ext; [|exact Hc]. intros fuel. cbn [bio_wrapper_read_all]. rewrite w_out0, (bind_ok _ _ _ _ _ Hr).
    destruct (Z.leb_spec (Z.min buf_size (blen o)) 0); [unfold blen, buf_size in *; lia|done].
Qed.

(** *** The session *)

Lemma check_positive X n arg w : 0 < n → check_raise_fatal X n arg w = (Ok SSL_ERROR_NONE, w).
Proof. intros Hn. unfold check_raise_fatal. destruct (Z.leb_spec n 0); [lia|done]. Qed.
Lemma check_waits X s arg w w' :
  ssl_ X = Some s → ssl_get_error (Some s) (-1) w = (Ok SSL_ERROR_WANT_READ, w') →
  check_raise_fatal X (-1) arg w = (Ok SSL_ERROR_WANT_READ, w').
Proof. intros Hs Hg. unfold check_raise_fatal. cbn [Z.leb Z.compare]. by rewrite Hs, (bind_ok _ _ _ _ _ Hg). Qed.

Lemma write_loop_ok X s d t w x i o :
  wraps X s w x i o → blen d < 2 ^ 31 → (t ≤ length d)%nat →
  ∃ w' x' o', comes (λ fuel, write_loop fuel X d (blen d) (Z.of_nat t)) w (blen d) w' ∧
    wraps X s w' x' i o' ∧ moved x i o (drop t d) 0 x' i o'.
Proof.
  intros Hx Hd. remember (length d - t)%nat as n eqn:Hn. revert t Hn w x o Hx.
  induction (lt_wf n) as [n _ IH]. intros t -> w x o Hx Ht. pose proof Hx as [].
  destruct (decide (t = length d)) as [->|Hne].
  { exists w, x, o. rewrite drop_all. split_and!; [|done|apply moved_refl].
    exists 0%nat. intros fuel _. destruct fuel; cbn [write_loop]; unfold blen; by rewrite Z.ltb_irrefl. }
  assert (Hlen : blen (drop t d) = blen d - Z.of_nat t) by (unfold blen; rewrite length_drop; lia).
  assert (Hpos : 0 < blen d - Z.of_nat t) by (unfold blen; lia).
  destruct (ssl_write_law w s x i o (drop t d) (blen d - Z.of_nat t)) as (k & r & w1 & Hk & Hr & Hl & Hp); [done..|lia|].
  pose proof (step_wraps _ _ _ _ _ _ _ _ _ _ _ Hx Hl ltac:(rewrite take_0, app_nil_r; apply w_sound0) Hp) as Hx1.
  pose proof (tls_step_moved x 0 0 (take k (drop t d)) r i o) as Hm1. rewrite drop_0 in Hx1, Hm1.
  assert (Hkd : (t + k ≤ length d)%nat) by (unfold blen in *; lia).
  destruct (IH (length d - (t + k))%nat ltac:(lia) (t + k)%nat eq_refl _ _ _ Hx1 Hkd) as (w2 & x2 & o2 & Hc & Hx2 & Hm2).
  exists w2, x2, o2. split_and!; [|done|].
  - apply comes_fuel. eapply comes_ext; [|exact Hc]. intros fuel. cbn [write_loop].
    destruct (Z.ltb_spec (Z.of_nat t) (blen d)); [|lia].
    rewrite Nat2Z.id, as_int_small, w_ssl0, (bind_ok _ _ _ _ _ Hr) by lia.
    rewrite (bind_ok _ _ _ _ _ (check_positive X (Z.of_nat k) _ w1 ltac:(lia))).
    rewrite wrap_small by (unfold in_word, blen in *; lia). by rewrite Nat2Z.inj_add.
  - pose proof (moved_trans _ _ _ _ _ _ _ _ _ _ _ _ _ Hm1 Hm2) as Hm. by rewrite <-drop_drop, take_drop in Hm.
Qed.

Lemma read_all_ok X s w x i o acc :
  wraps X s w x i o → genuine x i →
  ∃ w' x' i' o', comes (λ fuel, read_all fuel X acc) w (acc ++ available x i) w' ∧
    wraps X s w' x' i' o' ∧ moved x i o [] (length (available x i)) x' i' o'.
Proof.
  remember (length (available x i)) as n eqn:Hn. revert w x i o acc Hn.
  induction (lt_wf n) as [n _ IH]. intros w x i o acc -> Hx Hge. pose proof Hx as [].
  destruct (decide (available x i = [])) as [Hnil|Hne].
  - destruct (ssl_nothing_law w s x i o 4096) as (k & r & w1 & Hr & Hg & Hl & Hp); [done..|].
    eexists w1, _, _, _. split_and!; [|by eapply step_wraps; [..|apply genuine_taken|]|rewrite Hnil; apply tls_step_moved].
    exists 1%nat. intros [|fuel] Hf; [lia|]. cbn [read_all]. rewrite w_ssl0, (bind_ok _ _ _ _ _ Hr).
    change (-1 <=? 0) with true. cbv beta iota. by rewrite (bind_ok _ _ _ _ _ (check_waits X s _ w1 w1 w_ssl0 Hg)), Hnil, app_nil_r.
  - destruct (ssl_read_law w s x i o 4096) as (m & k & r & w1 & Hm & Hr & Hl & Hp); [done..|].
    pose proof (step_wraps _ _ _ _ _ _ _ _ _ _ _ Hx Hl (genuine_taken x k i w_sound0 Hge) Hp) as Hx1. pose proof (tls_step_moved x k m [] r i o) as Hm1.
    set (x1 := put_out [] r (took (take k i) m x)) in *.
    assert (Ha : available x1 (drop k i) = drop m (available x i)).
    { unfold available, x1. cbn. by rewrite <-app_assoc, take_drop, drop_drop. }
    destruct (IH (length (available x1 (drop k i)))) with (w := w1) (x := x1) (i := drop k i) (o := o ++ r)
      (acc := acc ++ take m (available x i)) as (w2 & x2 & i2 & o2 & Hc & Hx2 & Hm2); [|done|done|by eapply genuine_moved|].
    { rewrite Ha, length_drop. lia. }
    rewrite Ha, <-app_assoc, take_drop in Hc. exists w2, x2, i2, o2. split_and!; [|done|].
    + apply comes_fuel. eapply comes_ext; [|exact Hc]. intros fuel. cbn [read_all].
      rewrite w_ssl0, (bind_ok _ _ _ _ _ Hr). destruct (Z.leb_spec (Z.of_nat m) 0); [lia|done].
    + pose proof (moved_trans _ _ _ _ _ _ _ _ _ _ _ _ _ Hm1 Hm2) as Hmt.
      rewrite Ha, length_drop in Hmt. by replace (m + (length (available x i) - m))%nat with (length (available x i)) in Hmt by lia.
Qed.

(** *** Strings *)

Lemma encrypt_ok X s w x i o d :
  wraps X s w x i o → blen d < 2 ^ 31 →
  ∃ c w' x', comes (λ fuel, encrypt fuel X d) w c w' ∧ wraps X s w' x' i [] ∧ moved x i o d 0 x' i c.
Proof.
  intros Hx Hd. destruct (write_loop_ok X s d 0 w x i o Hx Hd ltac:(lia)) as (w1 & x1 & o1 & Hc1 & Hx1 & Hm1).
  destruct (out_read_all X s w1 x1 i o1 [] Hx1) as (w2 & Hc2 & Hx2). exists o1, w2, x1. rewrite drop_0 in Hm1.
  split_and!; [|done|done].
  exact (comes_bind (λ fuel, write_all fuel X d) (λ fuel _, bio_wrapper_read_all fuel (out_ X) []) _ _ _ _ _ Hc1 Hc2).
Qed.
Lemma decrypt_ok X s w x i o d :
  wraps X s w x i o → blen d < 2 ^ 31 → d ≠ [] → genuine x (i ++ d) →
  ∃ w' x' i' o', comes (λ fuel, decrypt fuel X d) w (available x (i ++ d)) w' ∧
    wraps X s w' x' i' o' ∧ moved x (i ++ d) o [] (length (available x (i ++ d))) x' i' o'.
Proof.
  intros Hx Hd Hne Hge. destruct (in_write X s w x i o d Hx Hd) as (w1 & Hc1 & Hx1).
  destruct (read_all_ok X s w1 x (i ++ d) o [] Hx1 Hge) as (w2 & x2 & i2 & o2 & Hc2 & Hx2 & Hm2).
  exists w2, x2, i2, o2. split_and!; [|done|done].
  eapply comes_ext; [|exact (comes_bind (λ fuel, bio_wrapper_write fuel (in_ X) d) (λ fuel _, read_all fuel X []) _ _ _ _ _ Hc1 Hc2)].
  intros fuel. unfold decrypt. by rewrite bool_decide_false.
Qed.

Lemma each_cons (f : nat → bytes → M W bytes) d ds w c w1 cs w2 :
  comes (λ fuel, f fuel d) w c w1 → comes (λ fuel, each (f fuel) ds) w1 cs w2 →
  comes (λ fuel, each (f fuel) (d :: ds)) w (c :: cs) w2.
Proof.
  intros Hc Hcs. cbn [each].
  apply (comes_bind (λ fuel, f fuel d) (λ fuel r, let* rs := each (f fuel) ds in ret (r :: rs)) _ _ _ _ _ Hc).
  apply (comes_bind (λ fuel, each (f fuel) ds) (λ _ rs, ret (c :: rs)) _ _ _ _ _ Hcs). by apply comes_now.
Qed.

(** All that has arrived was given. *)
Definition drained (x : session) (i : bytes) : Prop := s_given x = length (s_decoded x (s_taken x ++ i)).

Lemma each_encrypt X s w x i ds :
  wraps X s w x i [] → Forall (λ d, blen d < 2 ^ 31) ds →
  ∃ cs w' x', comes (λ fuel, each (encrypt fuel X) ds) w cs w' ∧ wraps X s w' x' i [] ∧
    s_sent x' = s_sent x ++ concat ds ∧ s_wire x' = s_wire x ++ concat cs ∧ s_peer x' = s_peer x ∧
    s_emits x' = s_emits x.
Proof.
  intros Hx Hds. revert w x Hx. induction Hds as [|d ds Hd _ IH]; intros w x Hx.
  - exists [], w, x. split_and!; [by apply comes_now|done|by rewrite app_nil_r..|done|done].
  - destruct (encrypt_ok X s w x i [] d Hx Hd) as (c & w1 & x1 & Hc & Hx1 & Hm).
    destruct (IH w1 x1 Hx1) as (cs & w2 & x2 & Hcs & Hx2 & Hs2 & Hw2 & Hp2 & He2).
    destruct Hm as [_ _ _ _ Hp1 _ He1 _ _ Hs1 (r & Hw1 & ->)].
    exists (r :: cs), w2, x2. split_and!; [by eapply each_cons|done|..|congruence|congruence].
    + by rewrite Hs2, Hs1, <-app_assoc.
    + by rewrite Hw2, Hw1, <-app_assoc.
Qed.

(** What the session decodes of all that arrived is what was given before and is given now. *)
Lemma drained_decrypt X s w x i o d :
  wraps X s w x i o → blen d < 2 ^ 31 → drained x i → genuine x (i ++ d) →
  ∃ p w' x' i' o', comes (λ fuel, decrypt fuel X d) w p w' ∧ wraps X s w' x' i' o' ∧ drained x' i' ∧
    s_decoded x' = s_decoded x ∧ s_taken x' ++ i' = s_taken x ++ i ++ d ∧
    s_decoded x (s_taken x ++ i) ++ p = s_decoded x (s_taken x ++ i ++ d) ∧ moved x (i ++ d) o [] (length p) x' i' o'.
Proof.
  intros Hx Hd Hdr Hge. destruct (decide (d = [])) as [->|Hne].
  { exists [], w, x, i, o. rewrite !app_nil_r. split_and!; [by apply comes_now|done..|apply moved_refl]. }
  destruct (decrypt_ok X s w x i o d Hx Hd Hne Hge) as (w1 & x1 & i1 & o1 & Hc & Hx1 & Hm). pose proof Hm as [].
  destruct (so_begins _ (w_sound _ _ _ _ _ _ Hx) (s_taken x ++ i) d) as [_ [q Hq]]; [by rewrite <-app_assoc|].
  rewrite <-app_assoc in Hq.
  assert (Ha : available x (i ++ d) = q) by (unfold available; rewrite Hdr, Hq; apply drop_app_length).
  rewrite Ha in *. exists q, w1, x1, i1, o1. split_and!; [done|done| |done..].
  unfold drained. by rewrite m_given0, m_decoded0, m_arrived0, Hq, Hdr, length_app.
Qed.
Lemma each_decrypt X s w x i o ds :
  wraps X s w x i o → Forall (λ d, blen d < 2 ^ 31) ds → drained x i → genuine x (i ++ concat ds) →
  ∃ ps w' x' i' o', comes (λ fuel, each (decrypt fuel X) ds) w ps w' ∧ wraps X s w' x' i' o' ∧ drained x' i' ∧
    s_decoded x (s_taken x ++ i) ++ concat ps = s_decoded x (s_taken x ++ i ++ concat ds).
Proof.
  intros Hx Hds. revert w x i o Hx. induction Hds as [|d ds Hd _ IH]; intros w x i o Hx Hdr Hge.
  - exists [], w, x, i, o. cbn. rewrite !app_nil_r. split_and!; [by apply comes_now|done..].
  - destruct (drained_decrypt X s w x i o d Hx Hd Hdr) as (p & w1 & x1 & i1 & o1 & Hc & Hx1 & Hdr1 & Hdec & Ht & Hp & Hm).
    { unfold genuine in *. apply (so_begins _ (w_sound _ _ _ _ _ _ Hx) _ (concat ds)).
      by rewrite <-!app_assoc. }
    assert (Hge1 : genuine x1 (i1 ++ concat ds)).
    { unfold genuine in *. by rewrite (m_accepts _ _ _ _ _ _ _ _ Hm), app_assoc, Ht, <-!app_assoc. }
    destruct (IH w1 x1 i1 o1 Hx1 Hdr1 Hge1) as (ps & w2 & x2 & i2 & o2 & Hcs & Hx2 & Hdr2 & Hps).
    exists (p :: ps), w2, x2, i2, o2. split_and!; [by eapply each_cons|done|done|].
    cbn [concat]. rewrite app_assoc, Hp. rewrite Hdec, app_assoc, Ht in Hps. by rewrite <-!app_assoc in Hps.
Qed.
End Laws.

(** ** Properties *)

Section Properties.
Context {W : Type} {HO : Openssl W} {HL : OpensslLaws W}.

(** C40 (roundtrip).  Two wrappers whose sessions have shaken hands, with nothing in the
    queues of errors of OpenSSL, nothing of their talk lost or waiting to be sent, and
    only data sent: whatever strings of less than 2^31 bytes one encrypts, its calls end,
    and however the results are cut on their way, into pieces of less than 2^31 bytes,
    the calls of the other that decrypt the pieces end and give the same bytes in all. *)
Theorem tls_stream (X Y : ssl_bio_wrapper) s t (w v : W) x y i j o ds :
  wraps X s w x i [] → wraps Y t v y j o → s_decoded y = s_peer x → s_accepts y = s_emits x →
  s_taken y ++ j = s_wire x → drained y j →
  Forall (λ d, blen d < 2 ^ 31) ds →
  ∃ cs w', comes (λ fuel, each (encrypt fuel X) ds) w cs w' ∧
    ∀ es, concat es = concat cs → Forall (λ e, blen e < 2 ^ 31) es →
    ∃ ps v', comes (λ fuel, each (decrypt fuel Y) es) v ps v' ∧ concat ps = concat ds.
Proof.
  intros Hx Hy Hd Hac Hw Hdr Hds.
  destruct (each_encrypt X s w x i ds Hx Hds) as (cs & w1 & x1 & Hcs & Hx1 & Hs1 & Hw1 & Hp1 & Hem1).
  exists cs, w1. split; [done|]. intros es He Hes.
  destruct (each_decrypt Y t v y j o es Hy Hes Hdr) as (ps & v1 & y1 & j1 & o1 & Hps & _ & _ & Hdec).
  { unfold genuine. rewrite app_assoc, Hac, Hw, He, <-Hw1, <-Hem1. apply (w_sound _ _ _ _ _ _ Hx1). }
  exists ps, v1. split; [done|]. pose proof (so_sent _ (w_sound _ _ _ _ _ _ Hx)) as H0.
  pose proof (so_sent _ (w_sound _ _ _ _ _ _ Hx1)) as H1.
  rewrite app_assoc, Hd, Hw, He, H0, <-Hw1, <-Hp1, H1, Hs1 in Hdec. by apply app_inv_head in Hdec.
Qed.

(** What is encrypted before the handshake is over is lost without a word: the call
    returns what the handshake has to say, and the number of bytes it is told were
    written is that of -1. *)
Theorem early_data_lost (X : ssl_bio_wrapper) s (w : W) x o d :
  ssl_ X = Some s → connected (look w) s x [] o → v_errors (look w) = [] → s_finished x = false →
  d ≠ [] → blen d < 2 ^ 31 →
  ∃ r w', write_all 1 X d w = (Ok (2 ^ 64 - 1), w') ∧
    v_sessions (look w') !! s = Some (put_out [] r (took [] 0 x)) ∧ s_sent (put_out [] r (took [] 0 x)) = s_sent x.
Proof.
  intros Hs Hc Hq Hf Hne Hd. assert (H0 : 0 < blen d) by (destruct d; [done|]; unfold blen; cbn; lia).
  destruct (ssl_early_law w s x o d (blen d) Hc Hq Hf ltac:(lia)) as (r & w1 & Hr & Hl & Hg).
  exists r, w1. split_and!.
  - unfold write_all. cbn [write_loop]. destruct (Z.ltb_spec 0 (blen d)); [|lia].
    rewrite Z.sub_0_r, as_int_small, Hs by lia. cbn [Z.to_nat]. rewrite drop_0, (bind_ok _ _ _ _ _ Hr).
    rewrite (bind_ok _ _ _ _ _ (check_waits X s _ w1 w1 Hs Hg)).
    change (u64 (0 + -1)) with (2 ^ 64 - 1). destruct (Z.ltb_spec (2 ^ 64 - 1) (blen d)); [lia|done].
  - rewrite Hl. cbn. apply lookup_insert_eq.
  - cbn. apply app_nil_r.
Qed.

(** A write that has to wait in the middle of a string sends the byte before it again. *)
Theorem waiting_write_repeats (X : ssl_bio_wrapper) s fuel d t (w w1 : W) :
  ssl_ X = Some s → 1 ≤ t < blen d → blen d < 2 ^ 31 →
  ssl_write (Some s) (drop (Z.to_nat t) d) (blen d - t) w = (Ok (-1), w1) →
  ssl_get_error (Some s) (-1) w1 = (Ok SSL_ERROR_WANT_READ, w1) →
  write_loop (S fuel) X d (blen d) t w = write_loop fuel X d (blen d) (t - 1) w1.
Proof.
  intros Hs Ht Hd Hr Hg. cbn [write_loop]. destruct (Z.ltb_spec t (blen d)); [|lia].
  rewrite as_int_small, Hs, (bind_ok _ _ _ _ _ Hr) by lia.
  rewrite (bind_ok _ _ _ _ _ (check_waits X s _ w1 w1 Hs Hg)).
  by rewrite wrap_small by (unfold in_word; lia).
Qed.

(** An error that someone else left in the queue makes [read_all] throw when it has
    emptied its BIO: what it read is lost. *)
Theorem stale_error_loses_data (b : nat) (w : W) c e es own :
  v_bios (look w) !! b = Some c → 0 < blen c ≤ buf_size → v_errors (look w) = e :: es → error_fatal (as_int e) = true →
  ∃ w' what, bio_wrapper_read_all 2 (BioWrapper (Some b) own) [] w = (Raise (ERuntime what), w') ∧
    v_bios (look w') !! b = Some [].
Proof.
  intros Hb Hc He Hf. assert (Hne : c ≠ []) by (intros ->; unfold blen in Hc; cbn in Hc; lia).
  destruct (bio_read_law w b c buf_size Hb ltac:(done) Hne) as (w1 & Hr & Hl).
  assert (Hdrop : drop (Z.to_nat buf_size) c = []).
  { apply drop_ge. unfold blen, buf_size in *. lia. }
  assert (Hb1 : v_bios (look w1) !! b = Some []) by (rewrite Hl, Hdrop; apply lookup_insert_eq).
  destruct (bio_empty_law w1 b buf_size Hb1 ltac:(done)) as (w2 & Hr2 & Hl2).
  destruct (get_error_law w2) as (w3 & Hg & Hl3). destruct (get_error_law w3) as (w4 & Hg4 & Hl4).
  assert (He2 : v_errors (look w2) = e :: es) by (by rewrite Hl2, Hl).
  eexists w4, _. split.
  - cbn [bio_wrapper_read_all b_]. rewrite (bind_ok _ _ _ _ _ Hr).
    destruct (Z.leb_spec (Z.min buf_size (blen c)) 0); [unfold buf_size in *; lia|].
    rewrite (bind_ok _ _ _ _ _ Hr2). change (-1 <=? 0) with true. cbv beta iota.
    unfold bio_failed. rewrite (bind_ok _ _ _ _ _ Hg), He2. cbn [default head from_option id]. rewrite Hf.
    unfold ssl_exception_raise, set_what. unfold bind at 1. rewrite (bind_ok _ _ _ _ _ Hg4). reflexivity.
  - rewrite Hl4, Hl3, Hl2. exact Hb1.
Qed.
End Properties.

Section Echo.
Context {C V : Type} {HC : Openssl C} {HCL : OpensslLaws C} {HV : Openssl V} {HVL : OpensslLaws V}.

Lemma comes_client {A} (m : nat → M C A) w a w' (v : V) :
  comes m w a w' → comes (λ fuel, on_client (m fuel)) (w, v) a (w', v).
Proof. intros [k Hm]. exists k. intros fuel Hf. unfold on_client. cbn. by rewrite Hm. Qed.
Lemma comes_server {A} (m : nat → M V A) v a v' (w : C) :
  comes m v a v' → comes (λ fuel, on_server (m fuel)) (w, v) a (w, v').
Proof. intros [k Hm]. exists k. intros fuel Hf. unfold on_server. cbn. by rewrite Hm. Qed.

(** The service decrypts a string that its peer encrypted and answers with it reversed. *)
Lemma send_block_ok (Y : ssl_bio_wrapper) t (v : V) y j block d :
  wraps Y t v y j [] → drained y j → genuine y (j ++ block) → blen block < 2 ^ 31 → blen d < 2 ^ 31 →
  s_decoded y (s_taken y ++ j) ++ d = s_decoded y (s_taken y ++ j ++ block) →
  ∃ c v' y' j', comes (λ fuel, send_block fuel Y block) v c v' ∧ wraps Y t v' y' j' [] ∧
    s_peer y' = s_peer y ∧ s_emits y' = s_emits y ∧ s_wire y' = s_wire y ++ c ∧ s_sent y' = s_sent y ++ rev d.
Proof.
  intros Hy Hdr Hge Hb Hd Hdec.
  destruct (drained_decrypt Y t v y j [] block Hy Hb Hdr Hge) as (p & v1 & y1 & j1 & o1 & Hc1 & Hy1 & _ & _ & _ & Hp & Hm1).
  rewrite <-Hdec in Hp. apply app_inv_head in Hp as ->.
  assert (Hrev : blen (rev d) < 2 ^ 31) by (unfold blen; rewrite length_rev; exact Hd).
  destruct (encrypt_ok Y t v1 y1 j1 o1 (rev d) Hy1 Hrev) as (c & v2 & y2 & Hc2 & Hy2 & Hm2).
  exists c, v2, y2, j1. destruct Hm1 as [_ _ _ _ Hp1 _ He1 _ _ Hs1 (r1 & Hw1 & ->)], Hm2 as [_ _ _ _ Hp2 _ He2 _ _ Hs2 (r2 & Hw2 & ->)].
  split_and!; [|done|congruence|congruence|by rewrite Hw2, Hw1, <-app_assoc|by rewrite Hs2, Hs1, app_nil_r].
  eapply comes_ext; [|exact (comes_bind (λ fuel, decrypt fuel Y block) (λ fuel r, encrypt fuel Y (rev r)) _ _ _ _ _ Hc1 Hc2)].
  intros fuel. unfold send_block, init_finished. destruct Hy. destruct w_connected0 as (Hs & _).
  by rewrite w_ssl0, (bind_ok _ _ _ _ _ (init_finished_law v t y Hs)), w_finished0.
Qed.

(** A client that has shaken hands with the service and sends it a string ends with
    the string reversed, if the encrypted strings fit an [int]. *)
Theorem echo_reversed (X Y : ssl_bio_wrapper) s t (w : C) (v : V) x y i j d :
  wraps X s w x i [] → wraps Y t v y j [] → drained x i → drained y j →
  s_decoded y = s_peer x → s_accepts y = s_emits x → s_taken y ++ j = s_wire x →
  s_decoded x = s_peer y → s_accepts x = s_emits y → s_taken x ++ i = s_wire y →
  blen d < 2 ^ 31 →
  (∀ b w', comes (λ fuel, encrypt fuel X d) w b w' →
    blen b < 2 ^ 31 ∧ ∀ c v', comes (λ fuel, send_block fuel Y b) v c v' → blen c < 2 ^ 31) →
  ∃ w' v', comes (λ fuel, send_data fuel X Y d true) (w, v) (rev d) (w', v').
Proof.
  intros Hx Hy Hdx Hdy Hyx Hax Hwx Hxy Hay Hwy Hd Hfit.
  destruct (encrypt_ok X s w x i [] d Hx Hd) as (b & w1 & x1 & Hb & Hx1 & Hm1). destruct (Hfit _ _ Hb) as [Hbl Hr].
  pose proof (so_sent _ (w_sound _ _ _ _ _ _ Hx)) as Hsx. pose proof (so_sent _ (w_sound _ _ _ _ _ _ Hx1)) as Hsx1.
  pose proof (so_sent _ (w_sound _ _ _ _ _ _ Hy)) as Hsy.
  pose proof (so_emits _ (w_sound _ _ _ _ _ _ Hx1)) as Hex1.
  destruct Hm1 as [_ _ _ Hd1 Hp1 Hac1 Hem1 Ha1 Hg1 Hs1 (r1 & Hw1 & ->)]. rewrite Hw1, Hem1 in Hex1. rewrite Hw1, Hp1, Hs1 in Hsx1. cbn [app] in *.
  destruct (send_block_ok Y t v y j r1 d Hy Hdy) as (c & v1 & y1 & j1 & Hcs & Hy1 & Hpy & Hey & Hwy1 & Hsy1);
    [|done|done|..].
  { unfold genuine. by rewrite app_assoc, Hax, Hwx. }
  { rewrite app_assoc, Hyx, Hwx, Hsx. by rewrite Hsx1. }
  pose proof (Hr _ _ Hcs) as Hcl. pose proof (so_sent _ (w_sound _ _ _ _ _ _ Hy1)) as Hso1.
  assert (Hdx1 : drained x1 i) by (unfold drained; by rewrite Hg1, Nat.add_0_r, Hd1, Ha1).
  assert (Hge : genuine x1 (i ++ c)).
  { unfold genuine. rewrite app_assoc, Hac1, Ha1, Hay, Hwy, <-Hwy1, <-Hey. apply (w_sound _ _ _ _ _ _ Hy1). }
  destruct (drained_decrypt X s w1 x1 i [] c Hx1 Hcl Hdx1 Hge) as (p & w2 & x2 & i2 & o2 & Hp & _ & _ & _ & _ & Hpp & _).
  rewrite app_assoc, Hd1, Ha1, Hxy, Hwy, <-Hwy1, Hsy, <-Hpy, Hso1, Hsy1 in Hpp. apply app_inv_head in Hpp as ->.
  exists w2, v1.
  apply (comes_bind (λ fuel, on_client (encrypt fuel X d))
    (λ fuel block, let* res := on_server (send_block fuel Y block) in on_client (decrypt fuel X res)) _ _ _ _ _ (comes_client _ _ _ _ v Hb)).
  apply (comes_bind (λ fuel, on_server (send_block fuel Y r1))
    (λ fuel res, on_client (decrypt fuel X res)) _ _ _ _ _ (comes_server _ _ _ _ w1 Hcs)).
  by apply comes_client.
Qed.
End Echo.

(** ** Witnesses *)

(** A library that keeps the laws: a record is an odd number with a byte in it, and reading
    an even one is the end of the session. *)
Definition seal (d : bytes) : bytes := (λ b, 2 * b + 1) <$> d.
Definition unseal (d : bytes) : bytes := (λ z, z / 2) <$> d.
Definition sealed (d : bytes) : Prop := Forall (λ z, Z.odd z = true) d.
#[local] Instance sealed_dec d : Decision (sealed d).
Proof. unfold sealed. apply _. Defined.
Lemma unseal_seal d : unseal (seal d) = d.
Proof.
  unfold unseal, seal. rewrite <-list_fmap_compose. rewrite <-(list_fmap_id d) at 2. apply list_fmap_ext.
  intros _ b _. unfold compose, id. rewrite Z.mul_comm, Z.div_add_l by lia. apply Z.add_0_r.
Qed.
Lemma seal_sealed d : sealed (seal d).
Proof. apply Forall_fmap, Forall_true. intros b. cbn. by rewrite Z.odd_add, Z.odd_mul. Qed.
Definition plain (x : session) : session :=
  Session (s_in x) (s_out x) (s_finished x) (s_taken x) (s_given x) (s_sent x) (s_wire x) unseal unseal sealed sealed.
Definition plain_view (v : view) : view := View (v_errors v) (v_bios v) (plain <$> v_sessions v).
Definition on_session {A} (s : option nat) (f : nat → session → bytes → bytes → M view A) : M view A := λ v,
  match (s ← s; x ← v_sessions v !! s; i ← v_bios v !! s_in x; o ← v_bios v !! s_out x; Some (s, x, i, o)) with
  | Some (s, x, i, o) => f s x i o v
  | None => (Raise (EUndefined "no session"), v)
  end.

Definition plain_openssl : Openssl view := {|
  err_get_error v := (Ok (default 0 (head (v_errors v))), with_errors (tail (v_errors v)) v);
  err_error_string _ := "error"%string;
  bio_new v := (Ok None, v);
  bio_free_all _ := ret tt;
  bio_push _ _ := ret tt;
  bio_pop _ := ret None;
  bio_flush _ := ret tt;
  bio_get_mem_data b v := (Ok (default [] (b ← b; v_bios v !! b)), v);
  bio_write b d n v :=
    match b with
    | Some b => (Ok n, with_bio b (default [] (v_bios v !! b) ++ take (Z.to_nat n) d) v)
    | None => (Ok (-2), v)
    end;
  bio_read b n v :=
    match b ← b; c ← v_bios v !! b; Some (b, c) with
    | Some (b, c) =>
        if bool_decide (c = []) then (Ok (-1, []), v)
        else (Ok (Z.min n (blen c), take (Z.to_nat n) c), with_bio b (drop (Z.to_nat n) c) v)
    | None => (Ok (-2, []), v)
    end;
  ssl_ctx_new := ret None;
  ssl_ctx_free _ := ret tt;
  ssl_new _ := ret None;
  ssl_free _ := ret tt;
  ssl_set_bio _ _ _ := ret tt;
  ssl_set_accept_state _ := ret tt;
  ssl_set_connect_state _ := ret tt;
  ssl_is_init_finished s v := (Ok (default false (s_finished <$> (s ← s; v_sessions v !! s))), v);
  ssl_get_error s _ := on_session s (λ s x i o v,
    (Ok (if s_finished x && negb (bool_decide (sealed (s_taken x ++ i))) then SSL_ERROR_SSL else SSL_ERROR_WANT_READ), v));
  ssl_write s d n := on_session s (λ s x i o v,
    if s_finished x then (Ok n, session_step v s x i o 0 0 (take (Z.to_nat n) d) (seal (take (Z.to_nat n) d)))
    else (Ok (-1), session_step v s x i o 0 0 [] []));
  ssl_read s n := on_session s (λ s x i o v,
    let a := if bool_decide (sealed (s_taken x ++ i)) then drop (s_given x) (unseal (s_taken x ++ i)) else [] in
    let m := Nat.min (Z.to_nat n) (length a) in
    if bool_decide (a = []) then (Ok (-1, []), session_step v s x i o 0 0 [] [])
    else (Ok (Z.of_nat m, take m a), session_step v s x i o (length i) m [] []));
  ssl_do_handshake _ := ret 1
|}.
#[local] Existing Instance plain_openssl.

Lemma plain_step v s x i o k n d r :
  plain_view (session_step v s x i o k n d r) = session_step (plain_view v) s (plain x) i o k n d r.
Proof. unfold plain_view, session_step, with_bio, with_session. cbn. by rewrite fmap_insert. Qed.
Lemma plain_runs {A} v s x i o (f : nat → session → bytes → bytes → M view A) :
  connected (plain_view v) s x i o →
  ∃ x0, x = plain x0 ∧ v_sessions v !! s = Some x0 ∧ on_session (Some s) f v = f s x0 i o v.
Proof.
  intros (Hs & Hi & Ho & _). cbn in Hs, Hi, Ho. rewrite lookup_fmap in Hs.
  destruct (v_sessions v !! s) as [x0|] eqn:Hx; [|done]. injection Hs as <-. exists x0. split_and!; [done..|].
  unfold on_session. cbn in Hi, Ho |- *. by rewrite Hx; cbn; rewrite Hi; cbn; rewrite Ho.
Qed.
(** The session after a step, for what is asked next. *)
Lemma plain_after {A} v s x i o k n d r (f : nat → session → bytes → bytes → M view A) :
  v_sessions v !! s = Some x → v_bios v !! s_in x = Some i → s_in x ≠ s_out x →
  let v' := session_step v s x i o k n d r in
  on_session (Some s) f v' = f s (put_out d r (took (take k i) n x)) (drop k i) (o ++ r) v'.
Proof.
  intros Hs Hi Hn v'. set (x1 := put_out d r (took (take k i) n x)).
  assert (v_sessions v' !! s = Some x1 ∧ v_bios v' !! s_in x1 = Some (drop k i) ∧ v_bios v' !! s_out x1 = Some (o ++ r))
    as (Hs1 & Hi1 & Ho1).
  { cbn. split_and!; [apply lookup_insert_eq| |apply lookup_insert_eq].
    rewrite lookup_insert_ne by done. apply lookup_insert_eq. }
  unfold on_session. cbn [mbind option_bind]. rewrite Hs1. cbn [mbind option_bind]. rewrite Hi1. cbn [mbind option_bind]. by rewrite Ho1.
Qed.
Lemma plain_encodes x d : s_peer (plain x) (s_wire x) = s_sent x → sealed (s_wire x) →
  encodes (plain x) d (seal d).
Proof.
  intros Hp Hw. unfold encodes. cbn in *. split; [|by apply Forall_app_2; [|apply seal_sealed]].
  unfold unseal in *. rewrite fmap_app, Hp. f_equal. apply unseal_seal.
Qed.

#[local] Program Instance plain_laws : OpensslLaws view := {| look := plain_view |}.
Next Obligation. intros v. eexists. split; [reflexivity|done]. Qed.
Next Obligation. intros v b c d n Hb Hn. cbn in Hb |- *. rewrite Hb. eexists. split; [reflexivity|done]. Qed.
Next Obligation.
  intros v b c n Hb Hn Hc. cbn in Hb |- *. rewrite Hb. cbn. rewrite bool_decide_false by done. eexists. split; [reflexivity|done].
Qed.
Next Obligation. intros v b n Hb Hn. cbn in Hb |- *. rewrite Hb. by exists v. Qed.
Next Obligation.
  intros v s x Hs. cbn in Hs |- *. rewrite lookup_fmap in Hs. destruct (v_sessions v !! s); [|done]. by injection Hs as <-.
Qed.
Next Obligation.
  intros v s x i o d n Hc Hf [Hp He _ _] Hn. cbn [ssl_write plain_openssl].
  match goal with |- context [on_session _ ?f] => destruct (plain_runs v s x i o f Hc) as (x0 & -> & _ & ->) end.
  cbn in Hf. rewrite Hf. exists (Z.to_nat n). eexists _, _. split_and!; [lia|lia|rewrite Z2Nat.id by lia; reflexivity| |].
  - apply plain_step.
  - by apply plain_encodes.
Qed.
Next Obligation.
  intros v s x o d n Hc Hq Hf Hn. cbn [ssl_write plain_openssl].
  match goal with |- context [on_session _ ?f] => destruct (plain_runs v s x [] o f Hc) as (x0 & -> & Hs & ->) end.
  cbn in Hf. rewrite Hf. destruct Hc as (_ & Hi & _ & Hne). cbn in Hi, Hne.
  eexists _, _. split_and!; [reflexivity|apply plain_step|]. cbn [ssl_get_error plain_openssl].
  rewrite plain_after by done. cbn. by rewrite Hf.
Qed.
Next Obligation.
  intros v s x i o n Hc Hf [Hp He _ _] Hg Hn Ha. cbn [ssl_read plain_openssl].
  match goal with |- context [on_session _ ?f] => destruct (plain_runs v s x i o f Hc) as (x0 & -> & _ & ->) end.
  unfold genuine in Hg. unfold available in *. cbn -[unseal sealed] in Hg, Ha |- *.
  rewrite (bool_decide_true (sealed _)) by done.
  set (a := drop (s_given x0) (unseal (s_taken x0 ++ i))) in *. rewrite bool_decide_false by done.
  assert (0 < length a)%nat by (destruct a; [done|cbn; lia]).
  eexists _, _, _, _. split; [|split; [reflexivity|split; [apply plain_step|by apply (plain_encodes x0 [])]]]. lia.
Qed.
Next Obligation.
  intros v s x i o n Hc Hq Hf [Hp He _ _] Hg Hn Ha. cbn [ssl_read plain_openssl].
  match goal with |- context [on_session _ ?f] => destruct (plain_runs v s x i o f Hc) as (x0 & -> & Hs & ->) end.
  destruct Hc as (_ & Hi & _ & Hne). unfold genuine in Hg. unfold available in Ha. cbn -[unseal sealed] in Hg, Ha, Hf, Hi, Hne.
  rewrite (bool_decide_true (sealed _)) by done. rewrite Ha. cbn -[session_step].
  eexists _, _, _. split; [reflexivity|]. split; [|split; [apply plain_step|by apply (plain_encodes x0 [])]].
  cbn [ssl_get_error plain_openssl]. rewrite plain_after by done. cbn. rewrite app_nil_r, bool_decide_true by done.
  by rewrite andb_false_r.
Qed.

Definition example_wrapper : ssl_bio_wrapper := SslBioWrapper (Some 1%nat) None (BioWrapper (Some 2%nat) false) (BioWrapper (Some 3%nat) false).
Definition example_session (finished : bool) : session := Session 2 3 finished [] 0 [] [] unseal unseal sealed sealed.
Definition example_view (finished : bool) (errors : list Z) (out : bytes) : view :=
  View errors {[2%nat := []; 3%nat := out]} {[1%nat := example_session finished]}.
Lemma example_wraps : wraps example_wrapper 1 (example_view true [] []) (example_session true) [] [].
Proof.
  split; try done. split; try done; [constructor..|]. intros p q Hpq. cbn in *.
  apply Forall_app in Hpq as [Hp _]. split; [done|]. exists (unseal q). apply fmap_app.
Qed.
(** What is not data ends the session with an exception. *)
Example damaged_record :
  (decrypt 3 example_wrapper (seal [72] ++ [0]) (example_view true [] [])).1 = Raise (ERuntime "SSL_read: error").
Proof. vm_compute. reflexivity. Qed.
Lemma tls_stream_witness :
  let ds := [[72; 105]; []; [33]] in
  ∃ cs w', comes (λ fuel, each (encrypt fuel example_wrapper) ds) (example_view true [] []) cs w' ∧
    ∀ es, concat es = concat cs → Forall (λ e, blen e < 2 ^ 31) es →
    ∃ ps v', comes (λ fuel, each (decrypt fuel example_wrapper) es) (example_view true [] []) ps v' ∧ concat ps = concat ds.
Proof.
  refine (tls_stream example_wrapper example_wrapper 1 1 _ _ _ _ _ _ _ _ example_wraps example_wraps _ _ _ _ _); [done..|].
  by repeat constructor.
Defined.
Lemma early_data_lost_witness :
  ∃ r w', write_all 1 example_wrapper [72; 105] (example_view false [] []) = (Ok (2 ^ 64 - 1), w') ∧
    v_sessions (look w') !! 1%nat = Some (put_out [] r (took [] 0 (example_session false))) ∧ s_sent (put_out [] r (took [] 0 (example_session false))) = [].
Proof. by refine (early_data_lost example_wrapper 1 (example_view false [] []) (example_session false) [] [72; 105] _ _ _ _ _ _). Defined.
Lemma stale_error_loses_data_witness :
  ∃ w' what, bio_wrapper_read_all 2 (BioWrapper (Some 3%nat) false) [] (example_view true [336151568] [1; 2; 3]) = (Raise (ERuntime what), w') ∧
    v_bios (look w') !! 3%nat = Some [].
Proof. by refine (stale_error_loses_data 3 (example_view true [336151568] [1; 2; 3]) [1; 2; 3] 336151568 [] false _ _ _ _). Defined.

Lemma echo_reversed_witness :
  ∃ w' v', comes (λ fuel, send_data fuel example_wrapper example_wrapper [72; 105] true)
    (example_view true [] [], example_view true [] []) [105; 72] (w', v').
Proof.
  refine (echo_reversed example_wrapper example_wrapper 1 1 _ _ _ _ _ _ [72; 105] example_wraps example_wraps _ _ _ _ _ _ _ _ _ _);
    [reflexivity..|].
  intros b w' Hb.
  assert (H1 : ∃ w1, comes (λ fuel, encrypt fuel example_wrapper [72; 105]) (example_view true [] []) (seal [72; 105]) w1).
  { eexists. exists 3%nat. intros [|[|[|fuel]]] Hf; [lia..|]. vm_compute. reflexivity. }
  destruct H1 as [w1 H1]. rewrite (comes_unique _ _ _ _ _ _ Hb H1). split; [reflexivity|]. intros c v' Hc.
  assert (H2 : ∃ v1, comes (λ fuel, send_block fuel example_wrapper (seal [72; 105])) (example_view true [] []) (seal [105; 72]) v1).
  { eexists. exists 3%nat. intros [|[|[|fuel]]] Hf; [lia..|]. vm_compute. reflexivity. }
  destruct H2 as [v1 H2]. rewrite (comes_unique _ _ _ _ _ _ Hc H2). reflexivity.
Defined.
