(* ===== verification/RemoteTree.v ===== *)
(** * RemoteTree: the tree of a remote directory

    [src/examples/remote-fs/client/rfs-directory-tree.cpp]: the recursive walk over the
    iterators of RemoteFs, which counts directories and files.  The calls of [info( )] on
    one entry ask the server the same each time; one of them is made here.  What is
    printed is left out, except that a part of the tree failed. *)

From S2P Require Import Prelude Messages RemoteFs.

Section Tree.
Context {W P I : Type} {Fs : Filesystem W P I}.

(** The counters, which are passed by reference, and how often <iteration failed> was
    printed. *)
Record counts : Type := Counts { dirs : Z; files : Z; failed : nat }.
Definition one_more (is_dir : bool) (c : counts) : counts :=
  Counts (u64 (dirs c + if is_dir then 1 else 0)) (u64 (files c + if is_dir then 0 else 1)) (failed c).
Definition iteration_failed (c : counts) : counts := Counts (dirs c) (files c) (S (failed c)).

Abbreviation Mt := (M (remote_fs W P I * counts)).
Definition on_fs {A} (m : M (remote_fs W P I) A) : Mt A := λ s, let '(r, f) := m s.1 in (r, (f, s.2)).
Definition on_counts (f : counts → counts) : Mt unit := modify (λ s, (s.1, f s.2)).

(** [for( iterator i(impl.begin_iterator(path)); ... )]: the iterator is destroyed in
    every case. *)
Definition for_iterator (h : Z) (path : string) (loop : fs_iterator_info → Mt unit) : Mt unit :=
  let* i := on_fs (begin_iterator h path) in λ s,
  match loop i s with
  | (Ok _, s) => on_fs (destroy_iterator i) s
  | (Raise e, s) => (on_fs (destroy_iterator i) ;;; raise e) s
  end.

Fixpoint tree_loop (fuel : nat) (h : Z) (i : fs_iterator_info) : Mt unit :=
  if client_end i then ret tt
  else
    match fuel with
    | O => raise (EUndefined "fuel")
    | S fuel =>
        let* ei := on_fs (client_iter_info i) in
        let is_dir := default false (is_directory ei) in
        on_counts (one_more is_dir) ;;;
        (if is_dir then
           try_catch (for_iterator h (default ""%string (ii_path i)) (tree_loop fuel h)) (λ _, on_counts iteration_failed)
         else ret tt) ;;;
        let* i' := on_fs (client_next i) in
        tree_loop fuel h i'
    end.
Definition tree_dir (fuel : nat) (h : Z) (path : string) : Mt unit := for_iterator h path (tree_loop fuel h).
End Tree.

(** ** A tree on a disk *)

Inductive node (P : Type) : Type :=
  | File (p : P)
  | Dir (p : P) (ts : list (node P)).
#[global] Arguments File {P}.
#[global] Arguments Dir {P}.
Definition node_path {P} (t : node P) : P := match t with File p | Dir p _ => p end.

(** The entries of trees, and the directories and files among them. *)
Fixpoint entries_of {P} (t : node P) : nat :=
  match t with File _ => 1 | Dir _ ts => S (list_sum (entries_of <$> ts)) end.
Fixpoint dirs_of {P} (t : node P) : nat :=
  match t with File _ => 0 | Dir _ ts => S (list_sum (dirs_of <$> ts)) end.
Fixpoint files_of {P} (t : node P) : nat :=
  match t with File _ => 1 | Dir _ ts => list_sum (files_of <$> ts) end.
Definition all_files {P} (ts : list (node P)) : nat := list_sum (files_of <$> ts).
Definition all_entries {P} (ts : list (node P)) : nat := list_sum (entries_of <$> ts).
Definition all_dirs {P} (ts : list (node P)) : nat := list_sum (dirs_of <$> ts).

Section Disk.
Context {W P I : Type} {Fs : Filesystem W P I} {HI : IteratorLaws W P I} {HA : AnswerLaws W P I}.
(** A disk that does not change while it is listed. *)
Context (w : W) (Hquiet : ∀ i, (increment i w).2 = w).

(** The path a directory is asked for is the text of its entry. *)
Inductive on_disk : node P → Prop :=
  | on_file p b :
      fs_exists p w = Ok b → (b = true → fs_is_directory p w = Ok false) → on_disk (File p)
  | on_dir p ts i :
      fs_exists p w = Ok true → fs_is_directory p w = Ok true →
      is_absolute (path_of (path_string p)) = true →
      directory_iterator (normalize (path_of (path_string p))) w = (Ok i, w) →
      entries i w = node_path <$> ts → Forall on_disk ts → on_disk (Dir p ts).

Implicit Types s : remote_fs W P I.
Implicit Types ts : list (node P).

Lemma all_entries_cons t ts : all_entries (t :: ts) = (entries_of t + all_entries ts)%nat.
Proof. done. Qed.
Lemma all_dirs_cons t ts : all_dirs (t :: ts) = (dirs_of t + all_dirs ts)%nat.
Proof. done. Qed.
(** What is asked about an entry. *)
Lemma fill_info_directory p s b :
  fs_exists p (world_ s) = Ok b → (b = true → ∃ d, fs_is_directory p (world_ s) = Ok d) →
  ∃ ei, fill_info p s = (Ok ei, s) ∧
    default false (is_directory ei) = (b && match fs_is_directory p (world_ s) with Ok d => d | Raise _ => false end).
Proof.
  intros He Hd. unfold fill_info, ask, bind. rewrite He. destruct b; [|by eexists].
  destruct (Hd eq_refl) as [d Hdir]. rewrite Hdir.
  destruct (symlink_answer p (world_ s)) as [l ->], (regular_answer p (world_ s)) as [r Hr], (empty_answer p (world_ s)) as [e Hm].
  destruct d; rewrite ?Hm; unfold ret at 1; rewrite Hr; by eexists.
Qed.
Lemma client_info_ok hdl i s p ps :
  iterators_ s !! hdl = Some i → entries i (world_ s) = p :: ps →
  client_iter_info (said hdl (p :: ps)) s = fill_info p s.
Proof.
  intros Hi He. unfold client_iter_info, iter_info, iter_from_request. cbv zeta. cbn [said ii_handle].
  change (handle_value (Some (Some hdl))) with hdl. unfold bind at 1. rewrite bind_get, Hi. unfold ret, bind, ask.
  by rewrite (entries_path _ _ _ _ He).
Qed.
Lemma client_next_ok hdl i s p ps :
  iterators_ s !! hdl = Some i → entries i (world_ s) = p :: ps → world_ s = w →
  ∃ i', client_next (said hdl (p :: ps)) s = (Ok (said hdl ps), with_iterator hdl i' w s) ∧ entries i' w = ps.
Proof.
  intros Hi He <-. destruct (iter_next_ok hdl i s p ps Hi He) as (i' & w' & Hn & He').
  destruct (entries_next _ _ _ _ He) as (i2 & w2 & Hinc & He2). exists i'.
  assert (Hw : w' = world_ s).
  { unfold iter_next, iter_from_request in Hn. cbv zeta in Hn. change (handle_value (Some (Some hdl))) with hdl in Hn.
    unfold bind at 1 in Hn. rewrite bind_get, Hi in Hn. unfold ret at 1, bind at 1, act in Hn. rewrite Hinc in Hn.
    rewrite (bind_ok _ _ _ _ _ (fill_iter_info_ok _ _ _)) in Hn. cbn in Hn. injection Hn as _ _ Hw.
    specialize (Hquiet i). rewrite Hinc in Hquiet. cbn in Hquiet. congruence. }
  subst w'. split; [exact Hn|done].
Qed.

Lemma all_files_cons t ts : all_files (t :: ts) = (files_of t + all_files ts)%nat.
Proof. done. Qed.

(** The invariant of RemoteFs in the four facts the walk uses. *)
Lemma inv_facts top s :
  inv top s ↔ (100 ≤ handle_index_ s ≤ top ∧ (∀ k, is_Some (fs_inst_ s !! k) → 100 < k ≤ handle_index_ s) ∧
    (∀ k, is_Some (iterators_ s !! k) → 100 < k ≤ handle_index_ s) ∧ ∀ k, is_Some (fs_inst_ s !! k) → iterators_ s !! k = None).
Proof.
  split.
  - intros [_ H1 H2 H3 H4]. split; [done|]. split; [|split; [|done]]; intros k Hk; [destruct (H2 k Hk) as [[|[]] ?]|destruct (H3 k Hk) as [[|[]] ?]]; lia.
  - intros (H1 & H2 & H3 & H4). split; [done|done|intros k Hk|intros k Hk|done]; [specialize (H2 k Hk)|specialize (H3 k Hk)]; split; [left|..|left|]; lia.
Qed.

(** A walk that went well: its numbers, its counts. *)
Definition walked (n : nat) m s : remote_fs W P I := RemoteFs (handle_index_ s + 2 * Z.of_nat n) (fs_inst_ s) m w.
Definition counted (ds fs : nat) (c : counts) : counts :=
  Counts (u64 (dirs c + Z.of_nat ds)) (u64 (files c + Z.of_nat fs)) (failed c).
Lemma counted_counted a b d e c : counted a b (counted d e c) = counted (d + a) (e + b) c.
Proof. unfold counted. cbn. rewrite !wrap_add_l. f_equal; f_equal; lia. Qed.
Lemma one_more_counted b c : one_more b c = counted (if b then 1 else 0) (if b then 0 else 1) c.
Proof. by destruct b. Qed.

Lemma begin_iterator_ok h path i s :
  inv (handle_index_ s) s → handle_index_ s + 2 < 2 ^ 32 → world_ s = w →
  is_absolute (path_of path) = true → directory_iterator (normalize (path_of path)) w = (Ok i, w) →
  begin_iterator h path s =
    (Ok (said (handle_index_ s + 2) (entries i w)), walked 1 (<[handle_index_ s + 2 := i]> (iterators_ s)) s).
Proof.
  intros Hi Ht Hw Ha Hd. destruct (next_index_new _ s Hi ltac:(lia)) as (Hn & _ & _).
  set (s1 := RemoteFs (handle_index_ s + 1) (fs_inst_ s) (iterators_ s) (world_ s)) in *.
  assert (Hi1 : inv (handle_index_ s1) s1).
  { apply inv_facts in Hi as (H1 & H2 & H3 & H4). apply inv_facts. split_and!; cbn; [lia|lia|intros k Hk; specialize (H2 k Hk); lia|intros k Hk; specialize (H3 k Hk); lia|done]. }
  destruct (next_index_new _ s1 Hi1 ltac:(cbn; lia)) as (Hn1 & _ & Hit). unfold s1 in Hn1, Hit. cbn [handle_index_ fs_inst_ iterators_ world_] in Hn1, Hit.
  replace (handle_index_ s + 1 + 1) with (handle_index_ s + 2) in Hn1, Hit by lia.
  unfold begin_iterator, iter_begin. assert (Hp : path_from_request (handle_path h path) s = (Ok (normalize (path_of path), handle_index_ s + 1), s1)).
  { unfold path_from_request. change (request_path (handle_path h path)) with path. rewrite Ha, orb_true_r.
    by rewrite (bind_ok _ _ _ _ _ Hn). }
  rewrite (bind_ok _ _ _ _ _ Hp). unfold bind at 1, act. change (world_ s1) with (world_ s). rewrite Hw, Hd.
  cbn [handle_index_ fs_inst_ iterators_ s1]. rewrite Hw in Hn1. rewrite (bind_ok _ _ _ _ _ Hn1).
  unfold insert_iterator. rewrite bind_modify. cbn [iterators_]. rewrite Hit, fill_iter_info_ok. done.
Qed.

(** The loop runs over the iterator that begins, which is gone afterwards. *)
Lemma for_iterator_begun h path loop hdl i s c x i' c' :
  begin_iterator h path s = (Ok (said hdl (entries i w)), RemoteFs hdl (fs_inst_ s) (<[hdl := i]> (iterators_ s)) w) →
  fs_inst_ s !! hdl = None → iterators_ s !! hdl = None →
  loop (said hdl (entries i w)) (RemoteFs hdl (fs_inst_ s) (<[hdl := i]> (iterators_ s)) w, c) =
    (Ok tt, (RemoteFs x (fs_inst_ s) (<[hdl := i']> (<[hdl := i]> (iterators_ s))) w, c')) →
  for_iterator h path loop (s, c) = (Ok tt, (RemoteFs x (fs_inst_ s) (iterators_ s) w, c')).
Proof.
  intros Hb Hf Hit Hl. unfold for_iterator. unfold bind at 1, on_fs. cbn [fst snd]. rewrite Hb, Hl. cbn [fst snd].
  assert (Hh : ii_handle (said hdl (entries i w)) = hdl) by (by destruct (entries i w)).
  unfold destroy_iterator, try_catch, close. rewrite Hh. unfold bind at 1. rewrite bind_get. cbn [fs_inst_ iterators_].
  rewrite Hf, lookup_insert_eq. unfold bind, modify, ret, with_iterators. cbn.
  by rewrite delete_insert_eq, delete_insert_eq, delete_id.
Qed.
Lemma fresh_handle n s : inv (handle_index_ s) s → 0 < n →
  fs_inst_ s !! (handle_index_ s + n) = None ∧ iterators_ s !! (handle_index_ s + n) = None.
Proof. intros (_ & H2 & H3 & _)%inv_facts Hn. split; apply eq_None_not_Some; [intros Hk%H2|intros Hk%H3]; lia. Qed.

Lemma for_iterator_ok h path loop i s c n i' c' :
  inv (handle_index_ s) s → handle_index_ s + 2 < 2 ^ 32 → world_ s = w →
  is_absolute (path_of path) = true → directory_iterator (normalize (path_of path)) w = (Ok i, w) →
  loop (said (handle_index_ s + 2) (entries i w)) (walked 1 (<[handle_index_ s + 2 := i]> (iterators_ s)) s, c) =
    (Ok tt, (walked n (<[handle_index_ s + 2 := i']> (<[handle_index_ s + 2 := i]> (iterators_ s))) s, c')) →
  for_iterator h path loop (s, c) = (Ok tt, (walked n (iterators_ s) s, c')).
Proof.
  intros Hi Ht Hw Ha Hd Hl. destruct (fresh_handle 2 s Hi ltac:(lia)) as [Hf Hit].
  by eapply (for_iterator_begun h path loop (handle_index_ s + 2) i); [apply begin_iterator_ok|..].
Qed.

Lemma walked_inv n m s :
  inv (handle_index_ s) s →
  (∀ k, is_Some (m !! k) → is_Some (iterators_ s !! k) ∨ n ≠ 0%nat ∧ k = handle_index_ s + 2) →
  inv (handle_index_ (walked n m s)) (walked n m s).
Proof.
  intros (H1 & H2 & H3 & H4)%inv_facts Hm. apply inv_facts. split_and!; cbn.
  - lia.
  - lia.
  - intros k Hk. specialize (H2 k Hk). lia.
  - intros k Hk. destruct (Hm k Hk) as [Hs|[Hn ->]]; [specialize (H3 k Hs)|]; lia.
  - intros k Hk. apply eq_None_not_Some. intros Hs. destruct (Hm k Hs) as [Hs'|[_ ->]].
    + rewrite (H4 k Hk) in Hs'. by destruct Hs'.
    + specialize (H2 _ Hk). lia.
Qed.
Lemma walked_walked a b m m' s : walked a m (walked b m' s) = walked (b + a) m s.
Proof. unfold walked. cbn. f_equal. lia. Qed.

(** The walk over the rest of a directory. *)
Definition loop_walks (n : nat) : Prop := ∀ ts h hdl i s c,
  Forall on_disk ts → (all_entries ts ≤ n)%nat → iterators_ s !! hdl = Some i → entries i w = node_path <$> ts →
  world_ s = w → inv (handle_index_ s) s → handle_index_ s + 2 * Z.of_nat (all_dirs ts) < 2 ^ 32 →
  in_word 64 (dirs c) → in_word 64 (files c) →
  ∃ i', tree_loop n h (said hdl (node_path <$> ts)) (s, c) =
    (Ok tt, (walked (all_dirs ts) (<[hdl := i']> (iterators_ s)) s, counted (all_dirs ts) (all_files ts) c)).

Definition is_dir (t : node P) : bool := match t with File _ => false | Dir _ _ => true end.
Lemma entry_info t hdl i s ts :
  on_disk t → iterators_ s !! hdl = Some i → entries i w = node_path <$> t :: ts → world_ s = w →
  ∃ ei, client_iter_info (said hdl (node_path <$> t :: ts)) s = (Ok ei, s) ∧ default false (is_directory ei) = is_dir t.
Proof.
  intros Hnode Hi He Hw. rewrite fmap_cons, (client_info_ok hdl i) by (by rewrite ?Hw).
  destruct Hnode as [p b Hb Hbd|p ts' j Hb Hbd _ _ _ _]; cbn [node_path is_dir].
  - destruct (fill_info_directory p s b) as (ei & Hei & Hdir); [by rewrite Hw|intros ->; rewrite Hw; eauto|].
    exists ei. split; [done|]. rewrite Hdir, Hw. destruct b; [by rewrite Hbd|done].
  - destruct (fill_info_directory p s true) as (ei & Hei & Hdir); [by rewrite Hw|intros _; rewrite Hw; eauto|].
    exists ei. split; [done|]. by rewrite Hdir, Hw, Hbd.
Qed.

(** The walk below a directory. *)
Lemma dir_walks n p ts h s c :
  loop_walks n → on_disk (Dir p ts) → (all_entries ts ≤ n)%nat →
  world_ s = w → inv (handle_index_ s) s → handle_index_ s + 2 * Z.of_nat (S (all_dirs ts)) < 2 ^ 32 →
  in_word 64 (dirs c) → in_word 64 (files c) →
  for_iterator h (path_string p) (tree_loop n h) (s, c) =
    (Ok tt, (walked (S (all_dirs ts)) (iterators_ s) s, counted (all_dirs ts) (all_files ts) c)).
Proof.
  intros IH Hnode Hn Hw Hinv Ht Hd Hf. inversion Hnode as [|p' ts' j Hb Hbd Ha Hdj Hej Hts]; subst p' ts'.
  set (hdl := handle_index_ s + 2). set (s2 := walked 1 (<[hdl := j]> (iterators_ s)) s).
  assert (Hinv2 : inv (handle_index_ s2) s2).
  { apply walked_inv; [done|]. intros k. destruct (decide (k = hdl)) as [->|Hk]; [by right|].
    rewrite lookup_insert_ne by done. by left. }
  destruct (IH ts h hdl j s2 c) as (i' & Hl); [done|done|apply lookup_insert_eq|done|done|done|cbn; lia|done|done|].
  eapply for_iterator_ok; [done|lia|done|done|exact Hdj|]. fold hdl s2. rewrite Hej, Hl.
  unfold s2 at 2. rewrite walked_walked. reflexivity.
Qed.

Lemma entry_visited n t h s c :
  loop_walks n → on_disk t → (entries_of t ≤ S n)%nat →
  world_ s = w → inv (handle_index_ s) s → handle_index_ s + 2 * Z.of_nat (dirs_of t) < 2 ^ 32 →
  in_word 64 (dirs c) → in_word 64 (files c) →
  (if is_dir t then
      try_catch (for_iterator h (path_string (node_path t)) (tree_loop n h)) (λ _, on_counts iteration_failed)
    else ret tt) (s, one_more (is_dir t) c) =
  (Ok tt, (walked (dirs_of t) (iterators_ s) s, counted (dirs_of t) (files_of t) c)).
Proof.
  intros IH Hnode Hn Hw Hinv Ht Hd Hf. rewrite one_more_counted. destruct t as [p|p ts]; cbn [is_dir node_path dirs_of files_of].
  - unfold walked. cbn. rewrite Z.add_0_r, <-Hw. by destruct s.
  - cbn [entries_of dirs_of] in *. fold (all_entries ts) in Hn. fold (all_dirs ts) (all_files ts) in *. unfold try_catch.
    rewrite (dir_walks n p ts h s (counted 1 0 c)) by first [done|lia|by apply wrap_range].
    by rewrite counted_counted.
Qed.

Lemma tree_loop_walks n : loop_walks n.
Proof.
  induction n as [|n IH]; intros [|t ts] h hdl i s c Hts Hn Hi He Hw Hinv Ht Hd Hf.
  1,3: exists i; cbn; unfold walked, counted; cbn; rewrite !Z.add_0_r, !wrap_small, insert_id by done;
    rewrite <-Hw; by destruct s, c.
  { rewrite all_entries_cons in Hn. destruct t; cbn [entries_of] in Hn; lia. }
  apply Forall_cons in Hts as [Hnode Hts]. rewrite all_entries_cons in Hn. rewrite all_dirs_cons in Ht.
  assert (He1 : (1 ≤ entries_of t)%nat) by (destruct t; cbn; lia).
  destruct (entry_info t hdl i s ts Hnode Hi He Hw) as (ei & Hei & Hdir).
  pose proof (entry_visited n t h s c IH Hnode ltac:(lia) Hw Hinv ltac:(lia) Hd Hf) as Hv.
  set (s1 := walked (dirs_of t) (iterators_ s) s) in *. set (c1 := counted (dirs_of t) (files_of t) c) in *.
  destruct (client_next_ok hdl i s1 (node_path t) (node_path <$> ts)) as (i1 & Hnx & He2); [done|done|done|].
  set (s2 := with_iterator hdl i1 w s1) in *.
  assert (Hinv2 : inv (handle_index_ s2) s2).
  { change s2 with (walked (dirs_of t) (<[hdl := i1]> (iterators_ s)) s). apply walked_inv; [done|].
    intros k Hk. left. destruct (decide (k = hdl)) as [->|Hkh]; [by rewrite Hi|by rewrite lookup_insert_ne in Hk]. }
  destruct (IH ts h hdl i1 s2 c1) as (i' & Hl);
    [done|lia|apply lookup_insert_eq|done|done|done|cbn; lia|apply wrap_range; done|apply wrap_range; done|].
  exists i'. cbn [tree_loop fmap list_fmap said client_end ii_end ii_path default].
  unfold bind at 1, on_fs. cbn [fst snd]. rewrite fmap_cons in Hei. cbn [said] in Hei. rewrite Hei. cbn [fst snd].
  rewrite Hdir. unfold on_counts at 1. rewrite bind_modify. cbn [fst snd]. unfold bind at 1.
  change (id (path_string (node_path t))) with (path_string (node_path t)). rewrite Hv.
  unfold bind at 1. cbn [fst snd]. cbn [said] in Hnx. rewrite Hnx, Hl. unfold s2 at 2.
  rewrite all_dirs_cons, all_files_cons. unfold c1. rewrite counted_counted.
  change (with_iterator hdl i1 w s1) with (walked (dirs_of t) (<[hdl := i1]> (iterators_ s)) s). rewrite walked_walked.
  change (iterators_ s2) with (<[hdl := i1]> (iterators_ s)). by rewrite insert_insert_eq.
Qed.

(** Below the directory of a handle, no number is used for the path. *)
Lemma begin_below_ok h path p i s :
  inv (handle_index_ s) s → handle_index_ s + 1 < 2 ^ 32 → world_ s = w →
  fs_inst_ s !! h = Some p → is_absolute (path_of path) = false →
  directory_iterator (normalize (append p path)) w = (Ok i, w) →
  begin_iterator h path s =
    (Ok (said (handle_index_ s + 1) (entries i w)),
     RemoteFs (handle_index_ s + 1) (fs_inst_ s) (<[handle_index_ s + 1 := i]> (iterators_ s)) w).
Proof.
  intros Hi Ht Hw Hp Ha Hd. destruct (next_index_new _ s Hi Ht) as (Hn & _ & Hit).
  unfold begin_iterator, iter_begin. rewrite (bind_ok _ _ _ _ _ (path_below h path p s Hp Ha)).
  unfold bind at 1, act. rewrite Hw, Hd. rewrite Hw in Hn.
  assert (Hn' : next_index (RemoteFs (handle_index_ s) (fs_inst_ s) (iterators_ s) w) =
    (Ok (handle_index_ s + 1), RemoteFs (handle_index_ s + 1) (fs_inst_ s) (iterators_ s) w)) by (rewrite <-Hn, <-Hw; by destruct s).
  rewrite (bind_ok _ _ _ _ _ Hn'). unfold insert_iterator. rewrite bind_modify. cbn [iterators_]. by rewrite Hit, fill_iter_info_ok.
Qed.

(** ** Properties *)

(** On a disk that does not change, the walk from a directory below the
    one the client opened, whose paths are absolute, ends, visits every entry of the tree
    once, counts directories and files, fails nowhere and leaves no iterator behind. *)
Theorem tree_dir_counts h path p i ts s :
  inv (handle_index_ s) s → handle_index_ s + 1 + 2 * Z.of_nat (all_dirs ts) < 2 ^ 32 → world_ s = w →
  fs_inst_ s !! h = Some p → is_absolute (path_of path) = false →
  directory_iterator (normalize (append p path)) w = (Ok i, w) → entries i w = node_path <$> ts → Forall on_disk ts →
  ∃ s', tree_dir (all_entries ts) h path (s, Counts 0 0 0) =
      (Ok tt, (s', Counts (u64 (Z.of_nat (all_dirs ts))) (u64 (Z.of_nat (all_files ts))) 0)) ∧
    fs_inst_ s' = fs_inst_ s ∧ iterators_ s' = iterators_ s.
Proof.
  intros Hi Ht Hw Hp Ha Hd He Hts. set (hdl := handle_index_ s + 1).
  set (s1 := RemoteFs hdl (fs_inst_ s) (<[hdl := i]> (iterators_ s)) w).
  assert (Hi1 : inv (handle_index_ s1) s1).
  { destruct (fresh_handle 1 s Hi ltac:(lia)) as [Hf _]. fold hdl in Hf. apply inv_facts in Hi as (H1 & H2 & H3 & H4).
    apply inv_facts. split_and!; cbn; [lia|lia|intros k Hk; specialize (H2 k Hk); lia|..].
    - intros k Hk. destruct (decide (k = hdl)) as [->|Hne]; [lia|]. rewrite lookup_insert_ne in Hk by done. specialize (H3 k Hk). lia.
    - intros k Hk. destruct (decide (k = hdl)) as [->|Hne]; [rewrite Hf in Hk; by destruct Hk|]. rewrite lookup_insert_ne by done. by apply H4. }
  destruct (tree_loop_walks (all_entries ts) ts h hdl i s1 (Counts 0 0 0)) as (i' & Hl);
    [done|done|apply lookup_insert_eq|done|done|done|cbn; lia|done|done|].
  destruct (fresh_handle 1 s Hi ltac:(lia)) as [Hf Hit].
  eexists. split; [|split].
  - unfold tree_dir. eapply (for_iterator_begun h path _ hdl i); [by eapply begin_below_ok; [|lia|..]|done|done|].
    fold s1. rewrite He, Hl. unfold walked, s1. cbn [fs_inst_ iterators_ handle_index_]. reflexivity.
  - done.
  - done.
Qed.

(** Where the client opened a relative path, the text of an entry is joined to that path
    again: a directory below is looked for where there is none, and the walk says that
    it failed. *)
Theorem relative_tree_fails h p q e loop s c :
  fs_inst_ s !! h = Some p → is_absolute (path_of (path_string q)) = false →
  directory_iterator (normalize (append p (path_string q))) w = (Raise e, w) → (∀ u, e ≠ EUndefined u) → world_ s = w →
  try_catch (for_iterator h (path_string q) loop) (λ _, on_counts iteration_failed) (s, c) =
    (Ok tt, (s, iteration_failed c)).
Proof.
  intros Hp Ha Hd He Hw. unfold try_catch, for_iterator. unfold bind at 1, on_fs at 1. cbn [fst snd].
  unfold begin_iterator, iter_begin. rewrite (bind_ok _ _ _ _ _ (path_below h _ p s Hp Ha)). unfold bind at 1, act.
  rewrite Hw, Hd. replace (RemoteFs (handle_index_ s) (fs_inst_ s) (iterators_ s) w) with s by (rewrite <-Hw; by destruct s).
  destruct e; try done. by destruct (He what).
Qed.
End Disk.

(** ** Witnesses *)

(** A disk with a directory that holds a directory and a file. *)
#[local] Instance tree_fs : Filesystem unit string (list string) := {|
  path_of p := p;
  is_absolute p := String.prefix "/" p;
  normalize p := p;
  append p q := (p ++ "/" ++ q)%string;
  path_string p := p;
  fs_exists _ _ := Ok true;
  fs_file_size _ _ := Ok 0;
  fs_is_directory p _ := Ok (bool_decide (p = "/r/d"%string));
  fs_is_symlink _ _ := Ok false;
  fs_is_empty _ _ := Ok false;
  fs_is_regular_file p _ := Ok true;
  create_directories _ w := (Ok tt, w);
  remove _ w := (Ok tt, w);
  directory_iterator p w :=
    if bool_decide (p = "/r/"%string) then (Ok ["/r/d"; "/r/g"]%string, w)
    else if bool_decide (p = "/r/d"%string) then (Ok ["/r/d/f"]%string, w)
    else (Raise (EStd "no such directory"), w);
  increment i w := match i with [] => (Raise (EUndefined "past the end"), w) | _ :: i => (Ok i, w) end;
  is_end i := match i with [] => true | _ :: _ => false end;
  iterator_path i _ := match i with [] => Raise (EUndefined "past the end") | p :: _ => Ok p end
|}.
#[local] Program Instance tree_iterators : IteratorLaws unit string (list string) := {| entries i _ := i |}.
Next Obligation. by intros []. Qed.
Next Obligation. cbn. by intros i w p ps ->. Qed.
Next Obligation. cbn. intros i w p ps ->. by exists ps, w. Qed.
#[local] Instance tree_answers : AnswerLaws unit string (list string).
Proof. split; by eexists. Qed.

Definition example_root : remote_fs unit string (list string) := RemoteFs 101 {[101 := "/r"%string]} ∅ tt.
Lemma example_root_inv : inv 101 example_root.
Proof.
  apply inv_facts. split_and!; cbn; [lia|lia|intros h [x Hx]; apply lookup_singleton_Some in Hx as [<- _]; lia| |done].
  intros h [x Hx]. by rewrite lookup_empty in Hx.
Qed.
Definition example_tree : list (node string) := [Dir "/r/d" [File "/r/d/f"]; File "/r/g"]%string.
Lemma example_on_disk : Forall (on_disk tt) example_tree.
Proof.
  repeat constructor.
  - eapply on_dir; try reflexivity. repeat constructor. by apply (on_file _ _ true).
  - by apply (on_file _ _ true).
Qed.
Lemma tree_dir_counts_witness :
  ∃ s', tree_dir 3 101 "" (example_root, Counts 0 0 0) = (Ok tt, (s', Counts 1 2 0)) ∧
    fs_inst_ s' = fs_inst_ example_root ∧ iterators_ s' = ∅.
Proof.
  refine (tree_dir_counts tt _ 101 "" "/r"%string ["/r/d"; "/r/g"]%string example_tree example_root _ _ _ _ _ _ _ _);
    [by intros []|apply example_root_inv|reflexivity..|apply example_on_disk].
Defined.
Lemma relative_tree_fails_witness :
  let s : remote_fs unit string (list string) := RemoteFs 101 {[101 := "r"%string]} ∅ tt in
  try_catch (for_iterator 101 "r/d" (tree_loop 9 101)) (λ _, on_counts iteration_failed) (s, Counts 1 0 0) =
    (Ok tt, (s, Counts 1 0 1)).
Proof.
  refine (relative_tree_fails tt 101 "r"%string "r/d"%string (EStd "no such directory") (tree_loop 9 101) _ (Counts 1 0 0) _ _ _ _ _);
    [reflexivity..|done|reflexivity].
Defined.
